(* ===== verification/_CoqProject ===== *)
-Q . S2P
Prelude.v
CString.v
Utils.v
Log.v
Sync.v
ByteBuffer.v
MessageQueue.v
QueueThreads.v
LuaValue.v
LuaValueHeap.v
TimerList.v
TimerRun.v
Message.v
Socket.v
SocketOptions.v
Framing.v
Poll.v
IoThread.v
IoOwnership.v
Connection.v
ConnectionRun.v
Interleave.v
SocketThreads.v
SocketPromise.v
SocketRace.v
Protocol.v
LuaApi.v
LuaTable.v
Protobuf.v
ProtobufDemo.v
MessageParser.v
LoadDirectory.v
ProtoConvert.v
ProtoRoundTrip.v
ProtoSafety.v
ParserCache.v
Lua.v
LuaEvent.v
LuaFunc.v
Db.v
LuaDb.v
SqlText.v
LuaDbOwnership.v
WorkerCalls.v
CallResults.v
Runnable.v
Relay.v
EndToEnd.v
LuaDump.v
System.v
WorkerExit.v
Main.v
