(* ===== verification/Prelude.v ===== *)
(** * slam: verification of a network server with Lua scripts

    slam is a server process in C.  A master forks workers; a worker runs a Lua
    script against network connections, timers, protobuf messages and a MySQL
    client.  A worker has two threads: the I/O thread owns the sockets, reads
    packages from them and puts messages into a ring; the worker's loop takes
    them out, decodes their payload into Lua tables and calls the script's
    handlers.  The script answers through C functions in the namespace [cc],
    which encode a table into a package and queue it on a socket.

    ** How the development models C

    A function of the program is a Rocq function on the state it reads and
    changes, with the result type [outcome] of this file: a return, a failed
    assertion, undefined behaviour, or a loop that has used up its fuel.
    Pointers are locations of finite maps ([gmap]), so a freed block is a missing
    entry and a dangling pointer is [Undef] when it is followed; the bytes of a
    block are cells that may be indeterminate.  Integers are [Z] with the
    wrap-around of their type written out ([u32], [u64], [i32], [i64]).  System
    calls are scripts or results given to the functions.  Code that is not in the
    repository is a parameter with its documented laws, as a type class: the Lua
    state and API ([LuaApi], [LuaTable]), protobuf reflection and serialization
    ([Protobuf], [Environment] of [LuaFunc]), the MySQL client ([Db]).  Every
    class has a concrete instance, used by the examples and the witnesses.
    A C++ exception is a result of its own ([verdict] of [ProtoConvert]), as it skips
    what is left of the functions it leaves; a Lua error that would be raised
    through C++ frames is [Undef].  A read of a table goes through its metatable
    ([lua_gettable]): what an [__index] handler of a script does is a parameter
    ([lua_index]).  The one read of a block that has been left, of the name of a
    message in [bindmsg], is a parameter with any outcome ([env_dead_block]).

    ** Files, in their order, with the code they model

    - [Prelude]: outcomes and their judgements ([returns], [safe], [defined]),
      integers, blocks, and the tactics and hints of the library.
    - [CString]: the functions on strings of the C library that the program uses.
    - [Utils]: [slam_utils.c], with the calendar and [strftime] it relies on.
    - [Log]: [slam_log.h], [slam_log.c], [slam_mallinfo].
    - [Sync]: [io/slam_atomic.h], [io/slam_spinlock.c], [io/slam_thread_cond.c].
    - [ByteBuffer]: [slam_byte_buffer.c].
    - [MessageQueue], [QueueThreads]: [io/slam_message_queue.c], as sequential code
      and with its two threads interleaved access by access.
    - [LuaValue], [LuaValueHeap]: [slam_lua_value.c] and [slam_is_integer]; values as
      such, which is how the timers keep them, and as blocks in memory with the
      strings they own, which implement them.
    - [TimerList], [TimerRun]: [slam_timer_list.c] and the timer functions of
      [slam_runnable.c]; the pointers first, then ownership, order and the run.
    - [Message]: [io/slam_message.c], [io/slam_message.h].
    - [Socket], [SocketOptions], [Framing]: [io/slam_socket.c]; the operations, the
      wrappers of options, and the stream of bytes as packages.
    - [Poll]: [io/slam_poll.c].
    - [IoThread], [IoOwnership]: [io/slam_io_thread.c]; the operations, then who owns
      which message.
    - [Connection], [ConnectionRun]: the bytes of one connection through the
      operations of [IoThread], and through runs of the two threads and the network.
    - [Interleave]: threads as programs of single accesses, and rely/guarantee
      reasoning about two of them.
    - [SocketThreads], [SocketPromise], [SocketRace]: the array of sockets of
      [io/slam_io_thread.c] used by both threads at once, access by access.
    - [Protocol]: [slam_protocol.c] and [MessageBuilder/MessageBuilder.cpp], with
      the parser as a table of types.
    - [LuaApi], [LuaTable]: the Lua API (parameters).
    - [Protobuf], [ProtobufDemo]: protobuf (parameters, oneofs included), and the
      concrete messages of the examples.
    - [MessageParser], [LoadDirectory], [ParserCache]: [MessageBuilder/MessageParser.cpp]
      with its cache of messages on a heap; that it implements the table of types
      [Protocol] works with.
    - [ProtoConvert], [ProtoRoundTrip], [ProtoSafety]:
      [MessageBuilder/luaT_message_parser.cpp], between Lua tables and messages.
    - [Lua], [LuaEvent], [LuaFunc]: [slam_lua.c], [slam_lua_event.c], [slam_lua_func.c].
    - [Db], [LuaDb], [SqlText], [LuaDbOwnership]: [db/*.c] and [slam_lua_db.c].
    - [WorkerCalls], [CallResults]: what the functions of [LuaFunc] keep, and do.
    - [Runnable]: [slam_runnable.c], the worker's loop.
    - [Relay]: the worker's calls with the converter of [ProtoConvert] in place of
      the parameter, from a package to the package sent in answer.
    - [EndToEnd]: two workers and the connection between them, put together from
      [Relay], [CallResults], [Runnable] and [Framing].
    - [LuaDump]: the dumps of [slam_lua.c] and [slam_timer_list.c]; a Lua state opened
      and closed, and the version.
    - [System]: the start of a worker and its two threads taking turns.
    - [WorkerExit]: the end of a worker.
    - [Main]: [slam_main.c], [slam_main.h], [slam_signal.c]: options, processes, the
      master's loop.

    The names of the source are kept; a field of a struct has a prefix for its
    struct ([tm_expire_time] is [expire_time] of [slam_timer_s]).  A loop inside a
    function is a definition of its own ([read_header], [timer_list_run_loop]).

    ** What is shown

    - Safety of the whole: a worker has no undefined behaviour from its start
      through any sequence of whole turns of its threads ([System.worker_process_safe])
      to its exit, unless a turn of the I/O thread is under way while the runnable is
      freed ([WorkerExit.worker_exit_safe]).  The conversion between tables and
      messages is part of it; its assumptions are tables without metatables, types of
      bounded nesting ([steady]), and a compiler that keeps the dead block readable.
      Files that need less of the converter and the dead block are proved against
      the interface [EnvironmentSafe] of [LuaFunc], which [Relay] discharges.
      No message has two owners and none is used after it is freed ([IoOwnership]);
      a run of the timers survives callbacks that add and remove timers ([TimerRun]).
    - Conservation and progress: in any run the bytes of a connection that stays open
      are all accounted for, in both directions and in order, and its waiting output
      is watched ([ConnectionRun.connection_conserves_bytes]); waiting output is
      written as soon as the kernel takes it.
    - Two threads without a lock: the I/O thread never uses freed memory, whatever
      the worker does meanwhile; the worker may ([SocketRace]).
    - Contracts of the data structures: the byte buffer is a byte queue
      ([ByteBuffer]); the ring is a bounded queue until its read index reaches its
      end, also for two threads without a lock ([MessageQueue],
      [QueueThreads]); values are typed and own their strings ([LuaValueHeap]); the
      spin lock excludes and does not deadlock ([Sync]); the parser with its cache
      implements the table of types ([ParserCache]).
    - Functional behaviour and round trips: packages written on one side are the
      packages read on the other, however the kernel cuts the bytes ([Framing]);
      encoded packages decode ([Protocol]); a message without oneofs decoded to tables
      encodes to the same message ([ProtoRoundTrip]); a package reaches its handler
      ([Runnable]), and an answer with the table it brought is the same message
      ([Relay]); a table one worker answers with is a table in the hands of the
      function bound to the id in another ([EndToEnd]); what the script's calls do
      ([CallResults], [SqlText], [LuaDbOwnership]); a time stamp reads back ([Utils]).
    - Processes: one child per successful fork, when the master waits and when it
      leaves, what the options are ([Main]).
    - Where the code does not do what it means to: the ring aborts after as many
      pops as it has slots, a forever timer of interval 0 never ends, the parser's
      [DecodeToMessage] leaves a dangling pointer, a oneof does not survive a relay
      ([ProtoRoundTrip.oneof_is_lost]), a refused element of a list confuses the loop
      around it ([ProtoSafety.refused_element_raises]), an exit races with the I/O
      thread ([WorkerExit.exit_race]), and others; each is a theorem or an example
      that states what happens.

    ** Fuel

    Loops take fuel.  The callers give enough where the state bounds the loop:
    the number of nodes for the timer list ([list_fuel]), the slots of a queue,
    the nesting of messages, the height of a directory tree; the theorems that a
    function [returns] show that it is enough.  A run of the timers and the
    master's loop may really not end: the theorems say when.

    ** Not modelled

    - A weak memory: [QueueThreads], [Sync] and [SocketThreads] interleave on
      sequentially consistent memory.  [System] interleaves whole turns, so what it
      shows of a worker holds where [SocketRace.worker_races] does not strike.
    - What an [__index] handler does when the encoder reads a table (a parameter; the
      theorems about encoding are for tables without metatables); metatables of the
      globals and of the registry; the limit of the Lua stack.
    - The text of log messages inside the operations (it changes no state), except
      in [Log], [LuaDump] and [Main.Usage]; [setlocale]; the connection of an
      epoll descriptor to its kernel object beyond its interest set.
    - The inside of a Lua state and of LuaJIT, which are parameters; functions whose
      whole body is a [free] of a block without an owner in the model
      ([slam_byte_buffer_delete], [slam_db_conf_delete], [slam_spinlock_delete]).
    - The part of [slam_utils.c] between [#if 0] and [#endif], which is not
      compiled; the headers of the MySQL client under [lib/] (third party); the
      Lua scripts, tables and message definitions under [common/], [scripts/] and
      [protos/], which are data for the program. *)

From stdpp Require Export base gmap list strings.
From Stdlib Require Export ZArith Lia.
From Stdlib Require Export Strings.Byte.
From coqutil Require Export Byte Word.LittleEndianList.

Open Scope Z_scope.

(** ** Outcomes of a C computation

    [Ok] is a normal return.  [AssertFail] is a failed [assert] (the process is
    aborted), [Undef] is undefined behaviour (a null or dangling dereference, an
    access out of bounds, a read of indeterminate bytes, a double free), and
    [NoFuel] is a loop of the model that used up its fuel. *)
Inductive outcome (A : Type) : Type :=
  | Ok (a : A)
  | AssertFail
  | Undef
  | NoFuel.
Arguments Ok {A} a.
Arguments AssertFail {A}.
Arguments Undef {A}.
Arguments NoFuel {A}.

#[export] Instance outcome_ret : MRet outcome := @Ok.
#[export] Instance outcome_bind : MBind outcome := λ A B f m,
  match m with
  | Ok a => f a
  | AssertFail => AssertFail
  | Undef => Undef
  | NoFuel => NoFuel
  end.

Declare Scope c_scope.
Delimit Scope c_scope with c.
Open Scope c_scope.

(** [ASSERT b ;; k] is the statement [assert(b); k]. *)
Notation "'ASSERT' b ;; k" := (if b then k else AssertFail)
  (at level 10, b at level 99, k at level 200,
   format "ASSERT  b ;;  '/' k") : c_scope.

(** [DEREF x := o ;; k] dereferences a pointer lookup [o]; a miss is undefined. *)
Notation "'DEREF' x := o ;; k" :=
  (match o with Some x => k | None => Undef end)
  (at level 10, x name, o at level 99, k at level 200,
   format "DEREF  x  :=  o ;;  '/' k") : c_scope.

(** ** Fixed-width integers: the wrap-around of each C type used *)
Definition u32 (z : Z) : Z := z mod 2 ^ 32.
Definition u64 (z : Z) : Z := z mod 2 ^ 64.
Definition i32 (z : Z) : Z := (z + 2 ^ 31) mod 2 ^ 32 - 2 ^ 31.
Definition i64 (z : Z) : Z := (z + 2 ^ 63) mod 2 ^ 64 - 2 ^ 63.

(** ** Memory blocks: a cell is [None] while its byte is indeterminate *)
Abbreviation cell := (option byte).

Definition len {A} (l : list A) : Z := Z.of_nat (length l).

(** A freshly allocated block. *)
Definition fresh_cells (n : Z) : list cell := replicate (Z.to_nat n) None.

Definition in_bounds (off n : Z) (buf : list cell) : bool :=
  (0 <=? off) && (0 <=? n) && (off + n <=? len buf).

(** Store [bs] at offset [off] of a block. *)
Definition store (off : Z) (bs : list byte) (buf : list cell) : outcome (list cell) :=
  if in_bounds off (len bs) buf then
    Ok (take (Z.to_nat off) buf ++ (Some <$> bs) ++ drop (Z.to_nat off + length bs) buf)
  else Undef.

(** The bytes of a run of cells, when all are determinate. *)
Fixpoint determinate (cs : list cell) : option (list byte) :=
  match cs with
  | [] => Some []
  | None :: _ => None
  | Some b :: cs' =>
      match determinate cs' with Some bs => Some (b :: bs) | None => None end
  end.

(** Load [n] bytes at offset [off]; every one must be determinate. *)
Definition load (off n : Z) (buf : list cell) : outcome (list byte) :=
  if in_bounds off n buf then
    match determinate (take (Z.to_nat n) (drop (Z.to_nat off) buf)) with
    | Some bs => Ok bs
    | None => Undef
    end
  else Undef.

(** Pointers: [None] is the null pointer. *)
Abbreviation loc := positive.
Abbreviation ptr := (option positive).

(** ** Judgements on outcomes

    [returns m Q]: the computation returns, with a result in [Q].
    [safe m Q]: it has no undefined behaviour and its loops end; it may abort
    on a failed assertion, and when it returns the result is in [Q].
    [defined abort m Q]: it has no undefined behaviour, and aborts only where
    [abort] allows it; it may need more fuel than it was given, and when it
    returns the result is in [Q]. *)
Definition returns {A} (m : outcome A) (Q : A → Prop) : Prop :=
  ∃ a, m = Ok a ∧ Q a.

Definition safe {A} (m : outcome A) (Q : A → Prop) : Prop :=
  match m with
  | Ok a => Q a
  | AssertFail => True
  | Undef | NoFuel => False
  end.

Definition defined (abort : bool) {A} (m : outcome A) (Q : A → Prop) : Prop :=
  match m with
  | Ok a => Q a
  | NoFuel => True
  | AssertFail => abort = true
  | Undef => False
  end.

(** [aborts_unless P m Q]: when [P] holds the computation returns, with a result
    in [Q]; otherwise it may abort instead. *)
Definition aborts_unless {A} (P : Prop) (m : outcome A) (Q : A → Prop) : Prop :=
  match m with
  | Ok a => Q a
  | AssertFail => ¬ P
  | Undef | NoFuel => False
  end.

Create HintDb slam.
Create Rewrite HintDb cint.
Create Rewrite HintDb len.
Create Rewrite HintDb lua.

Lemma bind_ok {A B} (a : A) (f : A → outcome B) : (Ok a ≫= f) = f a.
Proof. reflexivity. Qed.

Lemma returns_ok {A} (a : A) (Q : A → Prop) : Q a → returns (Ok a) Q.
Proof. intros H; exists a; done. Qed.

Lemma returns_bind {A B} (m : outcome A) (f : A → outcome B) P Q :
  returns m P → (∀ a, P a → returns (f a) Q) → returns (m ≫= f) Q.
Proof. intros (a & -> & Ha) H. by apply H. Qed.

Lemma returns_mono {A} (m : outcome A) (P Q : A → Prop) :
  returns m P → (∀ a, P a → Q a) → returns m Q.
Proof. intros (a & -> & Ha) H. exists a; auto. Qed.

Lemma safe_bind {A B} (m : outcome A) (f : A → outcome B) P Q :
  safe m P → (∀ a, P a → safe (f a) Q) → safe (m ≫= f) Q.
Proof. destruct m; simpl; auto. Qed.

Lemma safe_mono {A} (m : outcome A) (P Q : A → Prop) :
  safe m P → (∀ a, P a → Q a) → safe m Q.
Proof. destruct m; simpl; auto. Qed.

Lemma safe_both {A} (m : outcome A) (P Q : A → Prop) : safe m P → safe m Q → safe m (λ a, P a ∧ Q a).
Proof. by destruct m. Qed.

Lemma returns_safe {A} (m : outcome A) (Q : A → Prop) : returns m Q → safe m Q.
Proof. by intros (a & -> & Ha). Qed.

Lemma defined_bind abort {A B} (m : outcome A) (f : A → outcome B) P Q :
  defined abort m P → (∀ a, P a → defined abort (f a) Q) → defined abort (m ≫= f) Q.
Proof. destruct m; simpl; auto. Qed.

Lemma defined_mono abort {A} (m : outcome A) (P Q : A → Prop) :
  defined abort m P → (∀ a, P a → Q a) → defined abort m Q.
Proof. destruct m; simpl; auto. Qed.

Lemma returns_defined abort {A} (m : outcome A) (Q : A → Prop) : returns m Q → defined abort m Q.
Proof. by intros (a & -> & Ha). Qed.

Lemma safe_defined {A} (m : outcome A) (Q : A → Prop) : safe m Q → defined true m Q.
Proof. by destruct m. Qed.

Lemma aborts_returns {A} (P : Prop) (m : outcome A) Q : P → aborts_unless P m Q → returns m Q.
Proof. destruct m; simpl; intros HP H; try done. by exists a. Qed.

Lemma aborts_safe {A} (P : Prop) (m : outcome A) Q : aborts_unless P m Q → safe m Q.
Proof. by destruct m. Qed.

Lemma aborts_ok {A} (P : Prop) (a : A) (Q : A → Prop) : Q a → aborts_unless P (Ok a) Q.
Proof. done. Qed.

Lemma aborts_bind {A B} (P P' : Prop) (m : outcome A) (f : A → outcome B) R Q :
  aborts_unless P' m R → (P → P') → (∀ a, R a → aborts_unless P (f a) Q) →
  aborts_unless P (m ≫= f) Q.
Proof. destruct m; simpl; auto. Qed.

Lemma aborts_mono {A} (P P' : Prop) (m : outcome A) (R Q : A → Prop) :
  aborts_unless P' m R → (P → P') → (∀ a, R a → Q a) → aborts_unless P m Q.
Proof. destruct m; simpl; auto. Qed.

#[global] Arguments aborts_unless : simpl never.
#[export] Hint Resolve returns_ok returns_safe returns_defined aborts_ok : slam.

(** ** Integers *)
Lemma u32_range z : 0 <= u32 z < 2 ^ 32.
Proof. apply Z.mod_pos_bound; lia. Qed.

Lemma u64_range z : 0 <= u64 z < 2 ^ 64.
Proof. apply Z.mod_pos_bound; lia. Qed.

Lemma u32_id z : 0 <= z < 2 ^ 32 → u32 z = z.
Proof. apply Z.mod_small. Qed.

Lemma u64_id z : 0 <= z < 2 ^ 64 → u64 z = z.
Proof. apply Z.mod_small. Qed.

Lemma i32_range z : - 2 ^ 31 <= i32 z < 2 ^ 31.
Proof. unfold i32. pose proof (Z.mod_pos_bound (z + 2 ^ 31) (2 ^ 32)). lia. Qed.

Lemma i32_id z : - 2 ^ 31 <= z < 2 ^ 31 → i32 z = z.
Proof. intros H. unfold i32. rewrite Z.mod_small; lia. Qed.

Lemma i64_id z : - 2 ^ 63 <= z < 2 ^ 63 → i64 z = z.
Proof. intros H. unfold i64. rewrite Z.mod_small; lia. Qed.

#[export] Hint Rewrite u32_id u64_id i32_id i64_id using lia : cint.

(** ** Lengths *)
Lemma len_nonneg {A} (l : list A) : 0 <= len l.
Proof. unfold len; lia. Qed.

Lemma len_nil {A} : len (@nil A) = 0.
Proof. reflexivity. Qed.

Lemma len_cons {A} (x : A) l : len (x :: l) = 1 + len l.
Proof. unfold len; simpl; lia. Qed.

Lemma len_app {A} (l k : list A) : len (l ++ k) = len l + len k.
Proof. unfold len; rewrite length_app; lia. Qed.

Lemma len_fmap {A B} (f : A → B) l : len (f <$> l) = len l.
Proof. unfold len; by rewrite length_fmap. Qed.

Lemma len_take {A} n (l : list A) : len (take n l) = Z.min (Z.of_nat n) (len l).
Proof. unfold len; rewrite length_take; lia. Qed.

Lemma len_drop {A} n (l : list A) : len (drop n l) = Z.max 0 (len l - Z.of_nat n).
Proof. unfold len; rewrite length_drop; lia. Qed.

Lemma len_replicate {A} n (x : A) : len (replicate n x) = Z.of_nat n.
Proof. unfold len; by rewrite length_replicate. Qed.

Lemma len_insert {A} i (x : A) l : len (<[i:=x]> l) = len l.
Proof. unfold len; by rewrite length_insert. Qed.

Lemma len_le_split n z : len (le_split n z) = Z.of_nat n.
Proof. unfold len; by rewrite length_le_split. Qed.

#[export] Hint Rewrite @len_nil @len_cons @len_app @len_fmap @len_take @len_drop
  @len_replicate @len_insert len_le_split : len.

#[export] Hint Rewrite @length_app @length_fmap @length_take @length_drop
  @length_replicate @length_insert length_le_split : len.

Ltac len :=
  unfold len in *; simpl length in *; autorewrite with len in *; simpl length in *; lia.

(** Case analysis on the boolean comparison that drives the goal. *)
Ltac zcase_on c :=
  lazymatch c with
  | ?a <? ?b => destruct (Z.ltb_spec a b)
  | ?a <=? ?b => destruct (Z.leb_spec a b)
  | ?a =? ?b => destruct (Z.eqb_spec a b)
  | ?a >? ?b => rewrite (Z.gtb_ltb a b); destruct (Z.ltb_spec b a)
  | ?a >=? ?b => rewrite (Z.geb_leb a b); destruct (Z.leb_spec b a)
  end.

Ltac zcase :=
  match goal with
  | |- context [(if ?c then _ else _) ≫= _] => zcase_on c
  | |- context [if ?c then _ else _] => zcase_on c
  end.

(** ** Blocks *)
Lemma in_bounds_spec off n buf :
  in_bounds off n buf = true ↔ 0 <= off ∧ 0 <= n ∧ off + n <= len buf.
Proof. unfold in_bounds. rewrite !andb_true_iff, !Z.leb_le. tauto. Qed.

Lemma determinate_fmap_Some (bs : list byte) : determinate (Some <$> bs) = Some bs.
Proof. induction bs as [|b bs IH]; csimpl; [done|]. by rewrite IH. Qed.

Lemma determinate_Some (cs : list cell) bs : determinate cs = Some bs ↔ cs = Some <$> bs.
Proof.
  split; [|intros ->; apply determinate_fmap_Some].
  revert bs. induction cs as [|[b|] cs IH]; intros bs H; simpl in H; simplify_eq; [done|].
  destruct (determinate cs) as [bs'|]; simplify_eq. csimpl. f_equal. by apply IH.
Qed.

Lemma store_ok off bs buf :
  0 <= off → off + len bs <= len buf →
  store off bs buf =
    Ok (take (Z.to_nat off) buf ++ (Some <$> bs) ++ drop (Z.to_nat off + length bs) buf).
Proof.
  intros H1 H2. unfold store.
  rewrite (proj2 (in_bounds_spec _ _ _)); [done|]. split_and!; try lia. apply len_nonneg.
Qed.

(** Storing right after a determinate prefix extends the prefix. *)
Lemma store_app (pre : list cell) bs (rest : list cell) :
  len bs <= len rest →
  store (len pre) bs (pre ++ rest) = Ok (pre ++ (Some <$> bs) ++ drop (length bs) rest).
Proof.
  intros H. rewrite store_ok by len. do 2 f_equal.
  - rewrite take_app_le by len. apply take_ge. len.
  - f_equal. rewrite drop_app_ge by len. f_equal. len.
Qed.

Lemma load_ok off n buf bs :
  0 <= off → 0 <= n → off + n <= len buf →
  take (Z.to_nat n) (drop (Z.to_nat off) buf) = Some <$> bs →
  load off n buf = Ok bs.
Proof.
  intros H1 H2 H3 E. unfold load.
  rewrite (proj2 (in_bounds_spec _ _ _)) by lia.
  by rewrite E, determinate_fmap_Some.
Qed.

Lemma load_inv off n buf bs :
  load off n buf = Ok bs →
  0 <= off ∧ 0 <= n ∧ off + n <= len buf ∧
  take (Z.to_nat n) (drop (Z.to_nat off) buf) = Some <$> bs.
Proof.
  unfold load. destruct (in_bounds off n buf) eqn:E; [|done].
  apply in_bounds_spec in E as (? & ? & ?).
  destruct (determinate _) as [bs'|] eqn:F; [|done]. intros [= ->].
  apply determinate_Some in F. done.
Qed.

(** A load inside a determinate segment returns that segment. *)
Lemma load_app (pre : list cell) bs (rest : list cell) :
  load (len pre) (len bs) (pre ++ (Some <$> bs) ++ rest) = Ok bs.
Proof.
  apply load_ok; [len|len|len|].
  rewrite drop_app_ge by len.
  replace (Z.to_nat (len pre) - length pre)%nat with 0%nat by len.
  rewrite drop_0, take_app_le by len. apply take_ge. len.
Qed.

Lemma store_nil off buf : 0 <= off <= len buf → store off [] buf = Ok buf.
Proof.
  intros H. rewrite store_ok by len. f_equal. simpl. rewrite Nat.add_0_r. apply take_drop.
Qed.

Lemma store_inv off bs buf buf' :
  store off bs buf = Ok buf' →
  0 <= off ∧ off + len bs <= len buf ∧
  buf' = take (Z.to_nat off) buf ++ (Some <$> bs) ++ drop (Z.to_nat off + length bs) buf.
Proof.
  unfold store. destruct (in_bounds _ _ _) eqn:E; [|done].
  apply in_bounds_spec in E as (? & ? & ?). by intros [= <-].
Qed.

Lemma store_len off bs buf buf' : store off bs buf = Ok buf' → len buf' = len buf.
Proof. intros (? & ? & ->)%store_inv. len. Qed.

(** Two stores, one behind the other, are one store. *)
Lemma store_store off bs1 bs2 buf buf1 :
  store off bs1 buf = Ok buf1 → off + len bs1 + len bs2 <= len buf →
  store (off + len bs1) bs2 buf1 = store off (bs1 ++ bs2) buf.
Proof.
  intros (H0 & H1 & ->)%store_inv H2. rewrite (store_ok off) by len.
  rewrite fmap_app, <- (app_assoc (Some <$> bs1)).
  rewrite (app_assoc (take _ _)). replace (off + len bs1) with (len (take (Z.to_nat off) buf ++ (Some <$> bs1))) by len.
  rewrite store_app by len. rewrite <- app_assoc, drop_drop. do 5 f_equal. len.
Qed.

(** ** Lists *)
Lemma Forall2_impl_left {A B} (P Q : A → B → Prop) l k :
  Forall2 P l k → (∀ x y, x ∈ l → P x y → Q x y) → Forall2 Q l k.
Proof.
  induction 1 as [|x y l k Hx _ IH]; intros H; constructor.
  - apply H; [by left|done].
  - apply IH. intros x' y' Hx'. apply H. by right.
Qed.
