(* ===== verification/CString.v ===== *)
(** * C strings: the library functions the program calls on them *)

From S2P Require Import Prelude.
From Stdlib Require Import Ascii.

Definition PATH_MAX : Z := 4096.

(** A C string ends at its first NUL. *)
Fixpoint c_str (s : string) : string :=
  match s with
  | String.EmptyString => String.EmptyString
  | String.String c s =>
      if decide (c = Ascii.zero) then String.EmptyString else String.String c (c_str s)
  end.

Lemma c_str_idem s : c_str (c_str s) = c_str s.
Proof.
  induction s as [|c s IH]; [done|]. simpl. case_decide; [done|]. simpl.
  rewrite decide_False by done. by rewrite IH.
Qed.

(** [snprintf] into a buffer of [n] bytes. *)
Definition snprintf (n : Z) (s : string) : string := String.substring 0 (Z.to_nat (n - 1)) s.

(** [strrchr(buf, '.')]: the part before the last dot, and the rest. *)
Fixpoint split_last_dot (s : string) : option (string * string) :=
  match s with
  | EmptyString => None
  | String c s' =>
      match split_last_dot s' with
      | Some (pre, suf) => Some (String c pre, suf)
      | None => if Ascii.eqb c "."%char then Some (EmptyString, s) else None
      end
  end.

Definition to_lower (c : ascii) : ascii :=
  let n := nat_of_ascii c in
  if (65 <=? n)%nat && (n <=? 90)%nat then ascii_of_nat (n + 32) else c.

Fixpoint strcasecmp_eq (s t : string) : bool :=
  match s, t with
  | EmptyString, EmptyString => true
  | String c s, String d t => Ascii.eqb (to_lower c) (to_lower d) && strcasecmp_eq s t
  | _, _ => false
  end.


(** ** Numbers in decimal *)
Definition isspace (c : ascii) : bool :=
  let n := nat_of_ascii c in ((9 <=? n) && (n <=? 13) || (n =? 32))%nat.

Definition isdigit (c : ascii) : bool :=
  let n := nat_of_ascii c in ((48 <=? n) && (n <=? 57))%nat.

Fixpoint skip_space (s : string) : string :=
  match s with
  | String c s' => if isspace c then skip_space s' else s
  | EmptyString => EmptyString
  end.

Fixpoint digits (acc : Z) (s : string) : Z :=
  match s with
  | String c s => if isdigit c then digits (acc * 10 + (Z.of_nat (nat_of_ascii c) - 48)) s else acc
  | EmptyString => acc
  end.

(** The number a string starts with, before any limit of a type. *)
Definition decimal (s : string) : Z :=
  match skip_space s with
  | String "-" s => - digits 0 s
  | String "+" s => digits 0 s
  | s => digits 0 s
  end.

(** [atoi], [atol] and [atoll] of a string that may be null: a result that does
    not fit the type is undefined. *)
Definition atoi (s : option string) : outcome Z :=
  DEREF s := s ;;
  if (- 2 ^ 31 <=? decimal s) && (decimal s <? 2 ^ 31) then Ok (decimal s) else Undef.

Definition atol (s : option string) : outcome Z :=
  DEREF s := s ;;
  if (- 2 ^ 63 <=? decimal s) && (decimal s <? 2 ^ 63) then Ok (decimal s) else Undef.
