(* ===== verification/Utils.v ===== *)
(** * The utilities ([slam_utils.c])

    Error strings, the clock and its text, the string hash, questions about
    files, resource limits and the process title.  System calls are results the
    functions are given; the calendar and [strftime] of the C library are written
    out for the conversions the program uses. *)

From stdpp Require Import pretty.
From Stdlib Require Import Ascii.
From S2P Require Import Prelude CString.

Open Scope Z_scope.

(** ** Error strings *)
Definition SYS_ERRNO : Z := 256.

(** The global [__errlist]: [None] before the constructor and after the destructor. *)
Definition __strerror_init (strerror : Z → string) (errlist : option (list string))
    : option (list string) :=
  Some (strerror <$> seqZ 0 SYS_ERRNO).

Definition __strerror_destroy (errlist : option (list string)) : option (list string) := None.

Definition errstring (strerror : Z → string) (errlist : option (list string)) (err : Z)
    : outcome string :=
  if (0 <=? err) && (err <? SYS_ERRNO) then
    DEREF table := errlist ;;
    DEREF s := table !! Z.to_nat err ;;
    Ok s
  else Ok (strerror err).

(** [slam_cpus] of the result of [sysconf]. *)
Definition slam_cpus (n : Z) : Z := if 0 <? n then u32 n else 1.

(** ** The calendar of the C library *)
Record tm := {
  tm_sec : Z; tm_min : Z; tm_hour : Z;
  tm_mday : Z;
  tm_mon : Z;                          (* months since January *)
  tm_year : Z;                         (* years since 1900 *)
  tm_wday : Z;                         (* days since Sunday *)
}.

(** The date of a number of days since 1 January 1970: eras of 400 years that
    start on 1 March. *)
Definition civil_of_days (days : Z) : Z * Z * Z :=
  let z := days + 719468 in
  let era := z / 146097 in
  let doe := z mod 146097 in
  let yoe := (doe - doe / 1460 + doe / 36524 - doe / 146096) / 365 in
  let doy := doe - (365 * yoe + yoe / 4 - yoe / 100) in
  let mp := (5 * doy + 2) / 153 in
  let d := doy - (153 * mp + 2) / 5 + 1 in
  let m := if mp <? 10 then mp + 3 else mp - 9 in
  (yoe + era * 400 + (if m <=? 2 then 1 else 0), m, d).

Definition days_of_civil (y m d : Z) : Z :=
  let y := y - (if m <=? 2 then 1 else 0) in
  let era := y / 400 in
  let yoe := y mod 400 in
  let doy := (153 * (if m <=? 2 then m + 9 else m - 3) + 2) / 5 + d - 1 in
  era * 146097 + (yoe * 365 + yoe / 4 - yoe / 100 + doy) - 719468.

(** [gmtime_r]; it fails when the year does not fit an [int]. *)
Definition gmtime_r (t : Z) : option tm :=
  let '(y, m, d) := civil_of_days (t / 86400) in
  let s := t mod 86400 in
  if (- 2 ^ 31 <=? y - 1900) && (y - 1900 <? 2 ^ 31) then
    Some {| tm_sec := s mod 60; tm_min := s / 60 mod 60; tm_hour := s / 3600;
            tm_mday := d; tm_mon := m - 1; tm_year := y - 1900;
            tm_wday := (t / 86400 + 4) mod 7 |}
  else None.

(** *** [strftime] *)
Definition pad (n : nat) (s : string) : string :=
  String.append (String.concat EmptyString (replicate (n - String.length s) "0"%string)) s.

Definition day_names : list string := ["Sun"; "Mon"; "Tue"; "Wed"; "Thu"; "Fri"; "Sat"]%string.
Definition month_names : list string :=
  ["Jan"; "Feb"; "Mar"; "Apr"; "May"; "Jun"; "Jul"; "Aug"; "Sep"; "Oct"; "Nov"; "Dec"]%string.

(** One conversion, in the locale "C", with the least width given. *)
Definition conversion (c : ascii) (width : nat) (t : tm) : option string :=
  match c with
  | "y" => Some (pad (2 `max` width) (pretty (tm_year t mod 100)))
  | "m" => Some (pad (2 `max` width) (pretty (tm_mon t + 1)))
  | "d" => Some (pad (2 `max` width) (pretty (tm_mday t)))
  | "H" => Some (pad (2 `max` width) (pretty (tm_hour t)))
  | "M" => Some (pad (2 `max` width) (pretty (tm_min t)))
  | "S" => Some (pad (2 `max` width) (pretty (tm_sec t)))
  | "Y" => Some (pad width (pretty (tm_year t + 1900)))
  | "a" => day_names !! Z.to_nat (tm_wday t)
  | "b" => month_names !! Z.to_nat (tm_mon t)
  | _ => None
  end%char.

(** The text of a format; [width] is the width read so far in a conversion. *)
Fixpoint format_time (fmt : string) (width : option nat) (t : tm) : option string :=
  match fmt, width with
  | EmptyString, None => Some EmptyString
  | EmptyString, Some _ => None
  | String "%" fmt, None => format_time fmt (Some 0%nat) t
  | String c fmt, None => String c <$> format_time fmt None t
  | String c fmt, Some w =>
      if isdigit c then format_time fmt (Some (10 * w + (nat_of_ascii c - 48))%nat) t
      else
        s ← conversion c w t;
        String.append s <$> format_time fmt None t
  end.

(** What the buffer holds afterwards: nothing determinate when the text and its
    NUL do not fit. *)
Definition strftime (bufsize : Z) (fmt : string) (t : tm) : option string :=
  s ← format_time fmt None t;
  if Z.of_nat (String.length s) <? bufsize then Some s else None.

(** ** Time stamps *)
Definition slam_seconds (now : Z) : Z := u64 now.

(** [tv_sec] of the stamp: [seconds] cast to [time_t], or now when that is 0;
    then moved to China standard time. *)
Definition stamp_seconds (now seconds : Z) : outcome Z :=
  let tv_sec := if i64 seconds =? 0 then now else i64 seconds in
  if tv_sec + 8 * 3600 <? 2 ^ 63 then Ok (tv_sec + 8 * 3600) else Undef.

Definition slam_timestamp (now bufsize seconds : Z) (time_format : option string)
    : outcome (option string) :=
  let time_format := default "%y/%02m/%02d %02H:%02M:%02S"%string time_format in
  tv_sec ← stamp_seconds now seconds;
  DEREF result := gmtime_r tv_sec ;;
  Ok (strftime bufsize time_format result).

Definition slam_timestamp_gmt (now bufsize seconds : Z) : outcome (option string) :=
  tv_sec ← stamp_seconds now seconds;
  DEREF result := gmtime_r tv_sec ;;
  Ok (strftime bufsize "%a, %d %b %Y %H:%M:%S GMT"%string result).

(** ** The string hash *)

(** A [char] is signed. *)
Definition char_value (b : byte) : Z :=
  let n := byte.unsigned b in if n <? 128 then n else n - 256.

Definition hash_char (h : Z) (c : Z) : Z :=
  let h := u32 (u32 (Z.shiftl h 4) + c) in
  let g := Z.land h 0xF0000000 in
  if g =? 0 then h
  else Z.lxor (Z.lxor h (Z.shiftr g 24)) g.

Definition slam_hash_string (s : list byte) : Z := fold_left hash_char (char_value <$> s) 0.

(** ** Files *)

(** [stat] gives a mode and a size. *)
Definition slam_is_dir (stat : string → option (Z * Z)) (file : string) : bool :=
  match stat file with
  | None => false
  | Some (mode, _) => Z.land mode 0xF000 =? 0x4000
  end.

Definition F_OK : Z := 0.
Definition X_OK : Z := 1.
Definition W_OK : Z := 2.
Definition R_OK : Z := 4.

Definition slam_file_exist (access : string → Z → Z) (file : string) : bool := access file F_OK =? 0.
Definition slam_file_readable (access : string → Z → Z) (file : string) : bool := access file R_OK =? 0.
Definition slam_file_writable (access : string → Z → Z) (file : string) : bool := access file W_OK =? 0.
Definition slam_file_accessable (access : string → Z → Z) (file : string) : bool := access file X_OK =? 0.

Definition slam_file_size (stat : string → option (Z * Z)) (filename : string) : Z :=
  match stat filename with
  | None => 0
  | Some (_, st_size) => u64 st_size
  end.

(** ** Resource limits *)
Record rlimit := { rlim_cur : Z; rlim_max : Z }.

Definition RLIMIT_STACK : Z := 3.
Definition RLIMIT_NOFILE : Z := 7.

(** The limits of the process; the kernel refuses a soft limit above the hard one,
    and reading a limit that exists does not fail. *)
Definition setrlimit (resource : Z) (limit : rlimit) (ls : Z → rlimit) : bool * (Z → rlimit) :=
  if rlim_cur limit <=? rlim_max limit then (true, λ r, if r =? resource then limit else ls r)
  else (false, ls).

Definition slam_set_limit_stack_size (value : Z) (ls : Z → rlimit) : bool * (Z → rlimit) :=
  let limit := ls RLIMIT_STACK in
  setrlimit RLIMIT_STACK {| rlim_cur := value; rlim_max := rlim_max limit |} ls.

Definition slam_get_limit_stack_size (ls : Z → rlimit) : Z := u32 (rlim_cur (ls RLIMIT_STACK)).

Definition slam_set_limit_open_files (value : Z) (ls : Z → rlimit) : bool * (Z → rlimit) :=
  let limit := ls RLIMIT_NOFILE in
  setrlimit RLIMIT_NOFILE {| rlim_cur := value; rlim_max := rlim_max limit |} ls.

Definition slam_get_limit_open_files (ls : Z → rlimit) : Z := u32 (rlim_cur (ls RLIMIT_NOFILE)).

(** ** The process title

    The argument strings lie in one area of memory, the environment behind them;
    [argv] holds their offsets. *)
Fixpoint strlen (s : list byte) : option nat :=
  match s with
  | [] => None
  | b :: s => if Byte.eqb b x00 then Some 0%nat else S <$> strlen s
  end.

Definition memset (off n : nat) (area : list byte) : list byte :=
  take off area ++ replicate n x00 ++ drop (off + n) area.

Fixpoint clear_arguments (argv : list nat) (area : list byte) : outcome (list byte) :=
  match argv with
  | [] => Ok area
  | off :: argv =>
      DEREF n := strlen (drop off area) ;;
      clear_arguments argv (memset off n area)
  end.

Definition strcat (off : nat) (title : list byte) (area : list byte) : outcome (list byte) :=
  DEREF n := strlen (drop off area) ;;
  if (off + n + length title <? length area)%nat then
    Ok (take (off + n) area ++ title ++ x00 :: drop (off + n + length title + 1) area)
  else Undef.

Definition slam_set_process_title (argv : list nat) (title : list byte) (area : list byte)
    : outcome (list byte) :=
  area ← clear_arguments (tail argv) area;
  DEREF off := head argv ;;
  strcat off title area.

(** ** Proofs *)

(** *** Error strings and limits *)
Lemma errstring_strerror strerror table err :
  errstring strerror (__strerror_init strerror table) err = Ok (strerror err).
Proof.
  unfold errstring, __strerror_init. destruct ((0 <=? err) && (err <? SYS_ERRNO)) eqn:E; [|done].
  unfold SYS_ERRNO in *. rewrite list_lookup_fmap, lookup_seqZ_lt by lia. simpl. do 2 f_equal. lia.
Qed.

Lemma slam_set_limit_open_files_reads_back value ls ls' :
  0 <= value < 2 ^ 32 → slam_set_limit_open_files value ls = (true, ls') →
  slam_get_limit_open_files ls' = value ∧ ls' RLIMIT_STACK = ls RLIMIT_STACK.
Proof.
  intros Hv. unfold slam_set_limit_open_files, setrlimit. destruct (_ <=? _); [|done]. intros [= <-].
  split; [|done]. unfold slam_get_limit_open_files. simpl. by apply Z.mod_small.
Qed.

(** *** The hash *)
Lemma nibble_bit n : 0 <= n → Z.testbit 0xF0000000 n = (28 <=? n) && (n <? 32).
Proof.
  intros Hn. change 0xF0000000 with (Z.shiftl (Z.ones 4) 28).
  rewrite Z.shiftl_spec by done. destruct (Z.leb_spec 28 n).
  - rewrite Z.testbit_ones by done. replace (n - 28 <? 4) with (n <? 32) by lia.
    by replace (0 <=? n - 28) with true by lia.
  - by rewrite Z.testbit_neg_r by lia.
Qed.

Lemma high_bit k x n : 0 <= x < 2 ^ k → k <= n → 0 <= k → Z.testbit x n = false.
Proof. intros Hx Hn Hk. rewrite <- (Z.mod_small x (2 ^ k)) by done. by rewrite Z.mod_pow2_bits_high by lia. Qed.

Lemma below_pow2 k x :
  0 <= k → (∀ n, k <= n → Z.testbit x n = false) → 0 <= x < 2 ^ k.
Proof.
  intros Hk H. replace x with (x mod 2 ^ k); [apply Z.mod_pos_bound; lia|].
  apply Z.bits_inj'. intros n Hn. destruct (Z.lt_ge_cases n k).
  - by rewrite Z.mod_pow2_bits_low.
  - rewrite Z.mod_pow2_bits_high by lia. by rewrite H.
Qed.

Lemma clear_nibble x :
  let g := Z.land x 0xF0000000 in
  Z.lxor (Z.lxor x (Z.shiftr g 24)) g = Z.ldiff (Z.lxor x (Z.shiftr g 24)) g.
Proof.
  intros g. apply Z.bits_inj'. intros n Hn. subst g.
  rewrite Z.ldiff_spec, !Z.lxor_spec, Z.shiftr_spec, !Z.land_spec, !nibble_bit by lia.
  destruct (Z.testbit x n), (Z.testbit x (n + 24)),
    (Z.leb_spec 28 n), (Z.ltb_spec n 32), (Z.leb_spec 28 (n + 24)), (Z.ltb_spec (n + 24) 32); simpl; lia || done.
Qed.

Lemma hash_char_bounds h c : 0 <= hash_char h c < 2 ^ 28.
Proof.
  unfold hash_char. set (x := u32 _).
  assert (0 <= x < 2 ^ 32) as Hx by (apply Z.mod_pos_bound; lia).
  apply below_pow2; [done|]. intros n Hn. destruct (Z.eqb_spec (Z.land x 0xF0000000) 0) as [E|_].
  - pose proof (f_equal (λ z, Z.testbit z n) E) as Eb. simpl in Eb.
    rewrite Z.land_spec, nibble_bit, Z.testbit_0_l in Eb by lia.
    destruct (Z.lt_ge_cases n 32); [|by eapply high_bit].
    replace (28 <=? n) with true in Eb by lia. replace (n <? 32) with true in Eb by lia.
    by rewrite andb_true_r in Eb.
  - rewrite clear_nibble, Z.ldiff_spec, Z.lxor_spec, Z.shiftr_spec, !Z.land_spec, !nibble_bit by lia.
    replace (28 <=? n) with true by lia. replace (n + 24 <? 32) with false by lia.
    rewrite !andb_false_r, xorb_false_r, andb_true_l. destruct (Z.ltb_spec n 32); simpl.
    + rewrite andb_true_r. by destruct (Z.testbit x n).
    + by rewrite (high_bit 32) by lia.
Qed.

Lemma hash_from_bounds cs : ∀ h, 0 <= h < 2 ^ 28 → 0 <= fold_left hash_char cs h < 2 ^ 28.
Proof. induction cs as [|c cs IH]; intros h H; simpl; [done|]. apply IH, hash_char_bounds. Qed.

(** The hash of object files that the function follows. *)
Definition elf_hash_step (h : Z) (b : byte) : Z :=
  let h := u32 (Z.shiftl h 4 + byte.unsigned b) in
  let g := Z.land h 0xF0000000 in
  Z.ldiff (Z.lxor h (Z.shiftr g 24)) g.

Definition elf_hash (s : list byte) : Z := fold_left elf_hash_step s 0.

Definition seven_bit (b : byte) : Prop := byte.unsigned b < 128.

Lemma hash_char_elf h b : seven_bit b → hash_char h (char_value b) = elf_hash_step h b.
Proof.
  unfold seven_bit, hash_char, elf_hash_step, char_value. intros Hb.
  replace (byte.unsigned b <? 128) with true by lia.
  replace (u32 (u32 (Z.shiftl h 4) + byte.unsigned b)) with (u32 (Z.shiftl h 4 + byte.unsigned b))
    by (unfold u32; by rewrite Zplus_mod_idemp_l).
  set (x := u32 _). destruct (Z.eqb_spec (Z.land x 0xF0000000) 0) as [E|_].
  - by rewrite E, Z.shiftr_0_l, Z.lxor_0_r, Z.ldiff_0_r.
  - apply clear_nibble.
Qed.

Lemma hash_from_elf s : ∀ h, Forall seven_bit s → fold_left hash_char (char_value <$> s) h = fold_left elf_hash_step s h.
Proof.
  induction s as [|b s IH]; intros h Hs; [done|]. apply Forall_cons in Hs as [Hb Hs]. simpl.
  by rewrite hash_char_elf, IH.
Qed.

(** *** The calendar *)
Lemma era_day_bounds doe (H : 0 <= doe < 146097) :
  let yoe := (doe - doe / 1460 + doe / 36524 - doe / 146096) / 365 in
  0 <= yoe < 400 ∧ 0 <= doe - (365 * yoe + yoe / 4 - yoe / 100) <= 365.
Proof. intros yoe. subst yoe. split; Z.to_euclidean_division_equations; lia. Qed.

Lemma year_day_bounds doy (H : 0 <= doy <= 365) :
  let mp := (5 * doy + 2) / 153 in 0 <= mp <= 11 ∧ 1 <= doy - (153 * mp + 2) / 5 + 1 <= 31.
Proof. intros mp. subst mp. split; Z.to_euclidean_division_equations; lia. Qed.

Lemma era_year yoe era (H : 0 <= yoe < 400) :
  (yoe + era * 400) / 400 = era ∧ (yoe + era * 400) mod 400 = yoe.
Proof. split; Z.to_euclidean_division_equations; lia. Qed.

Lemma days_of_civil_of_days z :
  let '(y, m, d) := civil_of_days z in days_of_civil y m d = z ∧ 1 <= m <= 12 ∧ 1 <= d <= 31.
Proof.
  unfold civil_of_days. set (doe := (z + 719468) mod 146097).
  assert (0 <= doe < 146097) as Hdoe by (apply Z.mod_pos_bound; lia).
  destruct (era_day_bounds doe Hdoe) as [Hy Hd]. cbv zeta in *.
  set (yoe := (doe - _ + _ - _) / 365) in *. set (doy := doe - (_ + _ - _)) in *.
  set (mp := (5 * doy + 2) / 153). set (era := (z + 719468) / 146097).
  assert (z + 719468 = 146097 * era + doe) as Hz by (apply Z.div_mod; lia).
  destruct (year_day_bounds doy Hd) as [Hmp Hday]. fold mp in Hmp, Hday.
  assert ((if (if mp <? 10 then mp + 3 else mp - 9) <=? 2 then 1 else 0) = (if mp <? 10 then 0 else 1)) as Em
    by (destruct (Z.ltb_spec mp 10); [destruct (Z.leb_spec (mp + 3) 2)|destruct (Z.leb_spec (mp - 9) 2)]; lia).
  split; [|destruct (Z.ltb_spec mp 10); lia].
  unfold days_of_civil. rewrite Em.
  replace (yoe + era * 400 + (if mp <? 10 then 0 else 1) - (if mp <? 10 then 0 else 1)) with (yoe + era * 400) by lia.
  destruct (era_year yoe era Hy) as [-> ->].
  replace (if (if mp <? 10 then mp + 3 else mp - 9) <=? 2 then _ else _) with mp
    by (destruct (Z.ltb_spec mp 10); [destruct (Z.leb_spec (mp + 3) 2)|destruct (Z.leb_spec (mp - 9) 2)]; lia).
  subst doy. lia.
Qed.

(** The years 2000 to 2099. *)
Lemma civil_century z :
  10957 <= z < 47482 → let '(y, m, d) := civil_of_days z in 2000 <= y < 2100.
Proof.
  intros Hz. pose proof (days_of_civil_of_days z) as H. destruct (civil_of_days z) as [[y m] d].
  destruct H as (E & Hm & Hd). unfold days_of_civil in E.
  destruct (Z.leb_spec m 2); Z.to_euclidean_division_equations; lia.
Qed.

(** *** Reading a time stamp *)
Definition digit_pair (c d : ascii) : option Z :=
  if isdigit c && isdigit d then
    Some (10 * (Z.of_nat (nat_of_ascii c) - 48) + (Z.of_nat (nat_of_ascii d) - 48))
  else None.

(** Two digits and the separator behind them. *)
Definition read_field (sep : option ascii) (s : string) : option (Z * string) :=
  match s with
  | String c (String d s) =>
      n ← digit_pair c d;
      match sep, s with
      | None, _ => Some (n, s)
      | Some e, String f s => if Ascii.eqb e f then Some (n, s) else None
      | Some _, EmptyString => None
      end
  | _ => None
  end.

(** The seconds of a stamp [yy/mm/dd HH:MM:SS] of this century. *)
Definition parse_timestamp (s : string) : option Z :=
  '(y, s) ← read_field (Some "/"%char) s;
  '(m, s) ← read_field (Some "/"%char) s;
  '(d, s) ← read_field (Some " "%char) s;
  '(hour, s) ← read_field (Some ":"%char) s;
  '(min, s) ← read_field (Some ":"%char) s;
  '(sec, _) ← read_field None s;
  Some (days_of_civil (2000 + y) m d * 86400 + hour * 3600 + min * 60 + sec).

Definition two_digits (n : Z) (s : string) : bool :=
  match s with
  | String c (String d EmptyString) => bool_decide (digit_pair c d = Some n)
  | _ => false
  end.

Lemma pad_two n : 0 <= n < 100 → two_digits n (pad 2 (pretty n)) = true.
Proof.
  assert (Forall (λ n, two_digits n (pad 2 (pretty n)) = true) (seqZ 0 100)) as H
    by (apply (bool_decide_unpack _); vm_compute; exact I).
  intros Hn. rewrite Forall_forall in H. apply H, elem_of_seqZ. lia.
Qed.

(** Two digits in front of a text. *)
Definition two (n : Z) (s : string) : string := String.append (pad 2 (pretty n)) s.

Lemma read_two sep n s :
  0 <= n < 100 → read_field (Some sep) (two n (String sep s)) = Some (n, s).
Proof.
  unfold two. intros Hn%pad_two. destruct (pad 2 (pretty n)) as [|c [|d []]]; try done.
  simpl in *. apply bool_decide_eq_true in Hn as ->. simpl. by rewrite Ascii.eqb_refl.
Qed.

Lemma read_last_two n : 0 <= n < 100 → read_field None (two n EmptyString) = Some (n, EmptyString).
Proof.
  unfold two. intros Hn%pad_two. destruct (pad 2 (pretty n)) as [|c [|d []]]; try done.
  simpl in *. by apply bool_decide_eq_true in Hn as ->.
Qed.

Lemma length_pad_two n : 0 <= n < 100 → String.length (pad 2 (pretty n)) = 2%nat.
Proof. intros Hn%pad_two. by destruct (pad 2 (pretty n)) as [|c [|d []]]. Qed.

Lemma length_append s t : String.length (String.append s t) = (String.length s + String.length t)%nat.
Proof. induction s as [|c s IH]; [done|]. change (S (String.length (String.append s t)) = S (String.length s) + String.length t)%nat. by rewrite IH. Qed.

Lemma length_two n s : 0 <= n < 100 → String.length (two n s) = S (S (String.length s)).
Proof. intros Hn. unfold two. by rewrite length_append, length_pad_two. Qed.

Lemma format_default t :
  format_time "%y/%02m/%02d %02H:%02M:%02S" None t =
    Some (two (tm_year t mod 100) (String "/" (two (tm_mon t + 1) (String "/"
      (two (tm_mday t) (String " " (two (tm_hour t) (String ":" (two (tm_min t) (String ":"
      (two (tm_sec t) EmptyString))))))))))).
Proof. reflexivity. Qed.

Lemma time_of_day s (H : 0 <= s < 86400) :
  0 <= s / 3600 < 24 ∧ 0 <= s / 60 mod 60 < 60 ∧ 0 <= s mod 60 < 60 ∧
  s / 3600 * 3600 + s / 60 mod 60 * 60 + s mod 60 = s.
Proof. split_and!; Z.to_euclidean_division_equations; lia. Qed.

Lemma gmtime_fields t :
  10957 * 86400 <= t < 47482 * 86400 →
  ∃ r, gmtime_r t = Some r ∧ 100 <= tm_year r < 200 ∧ 0 <= tm_mon r < 12 ∧ 1 <= tm_mday r <= 31 ∧
    0 <= tm_hour r < 24 ∧ 0 <= tm_min r < 60 ∧ 0 <= tm_sec r < 60 ∧
    days_of_civil (2000 + tm_year r mod 100) (tm_mon r + 1) (tm_mday r) * 86400 +
      tm_hour r * 3600 + tm_min r * 60 + tm_sec r = t.
Proof.
  intros Ht. assert (10957 <= t / 86400 < 47482) as Hd by (Z.to_euclidean_division_equations; lia).
  pose proof (civil_century _ Hd) as Hy. pose proof (days_of_civil_of_days (t / 86400)) as Hc.
  unfold gmtime_r. destruct (civil_of_days (t / 86400)) as [[y m] d]. destruct Hc as (E & Hm & Hday).
  replace ((- 2 ^ 31 <=? y - 1900) && (y - 1900 <? 2 ^ 31)) with true by lia.
  eexists. split; [done|]. simpl.
  assert (0 <= t mod 86400 < 86400) as Hs by (apply Z.mod_pos_bound; lia).
  replace ((y - 1900) mod 100) with (y - 2000) by (Z.to_euclidean_division_equations; lia).
  replace (2000 + (y - 2000)) with y by lia. replace (m - 1 + 1) with m by lia. rewrite E.
  pose proof (time_of_day _ Hs). pose proof (Z.div_mod t 86400). split_and!; lia.
Qed.

(** The text of a stamp of this century, in the default format. *)
Lemma stamp_text now seconds t :
  0 <= seconds < 2 ^ 63 → t = (if seconds =? 0 then now else seconds) →
  946656000 <= t < 4102416000 →
  ∃ r text, stamp_seconds now seconds = Ok (t + 8 * 3600) ∧ gmtime_r (t + 8 * 3600) = Some r ∧
    format_time "%y/%02m/%02d %02H:%02M:%02S" None r = Some text ∧ String.length text = 17%nat ∧
    parse_timestamp text = Some (t + 8 * 3600).
Proof.
  intros Hs Ht Hb.
  destruct (gmtime_fields (t + 8 * 3600)) as (r & Er & Hy & Hm & Hd & Hh & Hmi & Hse & E); [lia|].
  assert (0 <= tm_year r mod 100 < 100) by (apply Z.mod_pos_bound; lia).
  eexists r, _. split_and!; [|done|by apply format_default| |].
  - unfold stamp_seconds. replace (i64 seconds) with seconds by (unfold i64; rewrite Z.mod_small; lia).
    rewrite <- Ht. by replace (t + 8 * 3600 <? 2 ^ 63) with true by lia.
  - repeat (rewrite length_two by lia; cbn [String.length]). done.
  - unfold parse_timestamp. repeat (rewrite read_two by lia; cbn [mbind option_bind]).
    rewrite read_last_two by lia. cbn [mbind option_bind]. f_equal. lia.
Qed.

(** *** The process title *)

(** Argument strings one behind the other, and where they start. *)
Definition packed (args : list (list byte)) : list byte := concat ((λ a, a ++ [x00]) <$> args).

Fixpoint offsets (off : nat) (args : list (list byte)) : list nat :=
  match args with
  | [] => []
  | a :: args => off :: offsets (off + length a + 1) args
  end.

Definition no_nul (a : list byte) : Prop := Forall (λ b, Byte.eqb b x00 = false) a.

Lemma strlen_app a s : no_nul a → strlen (a ++ x00 :: s) = Some (length a).
Proof. induction 1 as [|b a Hb _ IH]; simpl; [done|]. by rewrite Hb, IH. Qed.

Lemma clear_arguments_packed args env : Forall no_nul args → ∀ pre,
  clear_arguments (offsets (length pre) args) (pre ++ packed args ++ env) =
    Ok (pre ++ replicate (length (packed args)) x00 ++ env).
Proof.
  induction 1 as [|a args Ha _ IH]; intros pre; [done|].
  change (packed (a :: args)) with ((a ++ [x00]) ++ packed args). simpl.
  rewrite drop_app_length, <- !(assoc_L (++)). simpl. rewrite (strlen_app a) by done.
  unfold memset. rewrite take_app_length, <- drop_drop, !drop_app_length.
  assert (length (pre ++ replicate (length a) x00 ++ [x00]) = (length pre + length a + 1)%nat) as El
    by (rewrite !length_app, length_replicate; simpl; lia).
  specialize (IH (pre ++ replicate (length a) x00 ++ [x00])). rewrite El, <- !(assoc_L (++)) in IH.
  simpl in IH. rewrite IH. rewrite !length_app. simpl length.
  by rewrite (replicate_add (length a)), <- !(assoc_L (++)).
Qed.

(** The area afterwards. *)
Lemma slam_set_process_title_at arg0 args env title :
  no_nul arg0 → Forall no_nul args →
  (length title <= length (packed args) + length env)%nat →
  slam_set_process_title (offsets 0 (arg0 :: args)) title (packed (arg0 :: args) ++ env) =
    Ok (arg0 ++ title ++ x00 :: drop (length title) (replicate (length (packed args)) x00 ++ env)).
Proof.
  intros H0 Hargs Hlen. unfold slam_set_process_title. simpl tail. 
  change (packed (arg0 :: args)) with ((arg0 ++ [x00]) ++ packed args). rewrite <- (assoc_L (++)).
  assert (length arg0 + 1 = length (arg0 ++ [x00]))%nat as -> by (rewrite length_app; simpl; lia).
  rewrite clear_arguments_packed, bind_ok by done. cbn [offsets head]. unfold strcat.
  rewrite skipn_O, <- (assoc_L (++)).
  cbn [app]. rewrite strlen_app by done.
  rewrite length_app, length_cons, length_app, length_replicate.
  destruct (Nat.ltb_spec (0 + length arg0 + length title) (length arg0 + S (length (packed args) + length env))) as [_|]; [|lia].
  rewrite Nat.add_0_l, take_app_length. do 4 f_equal.
  replace (length arg0 + length title + 1)%nat with (length arg0 + (1 + length title))%nat by lia.
  by rewrite <- drop_drop, drop_app_length.
Qed.

(** ** The properties *)

(** Claim C38.  The hash of any string is below [2^28], so it never uses the four
    high bits of its type; and of a string of seven-bit characters it is the hash
    of ELF symbol tables. *)
Theorem slam_hash_string_bounds s :
  0 <= slam_hash_string s < 2 ^ 28 ∧ (Forall seven_bit s → slam_hash_string s = elf_hash s).
Proof. split; [by apply hash_from_bounds|apply hash_from_elf]. Qed.

(** Claim C37.  A time stamp in the default format, read back as a date and a time
    of this century, is the moment it was asked for (now, when asked for 0) plus
    eight hours: its digits are the date and time in China.  A buffer of 18 bytes
    is enough for it. *)
Theorem slam_timestamp_reads_back now bufsize seconds t :
  0 <= seconds < 2 ^ 63 → t = (if seconds =? 0 then now else seconds) →
  946656000 <= t < 4102416000 → 18 <= bufsize →
  ∃ text, slam_timestamp now bufsize seconds None = Ok (Some text) ∧
    parse_timestamp text = Some (t + 8 * 3600).
Proof.
  intros Hs Ht Hb Hbuf. destruct (stamp_text now seconds t Hs Ht Hb) as (r & text & Es & Er & Ef & El & Ep).
  exists text. split; [|done]. unfold slam_timestamp, strftime. simpl default.
  rewrite Es, bind_ok, Er, Ef. cbn [mbind option_bind]. rewrite El. change (Z.of_nat 17) with 17.
  by replace (17 <? bufsize) with true by lia.
Qed.

(** The title, without NUL, is appended to the first argument: its
    string is the two together.  The other arguments are wiped for it.  The
    environment behind them stays as it was if the title is not longer than the
    other arguments with their NULs; otherwise the rest of the title and a NUL
    overwrite its first bytes. *)
Lemma slam_set_process_title_overwrites arg0 args env title :
  no_nul arg0 → Forall no_nul args → no_nul title →
  (length title <= length (packed args) + length env)%nat →
  let n := length (packed args) in
  ∃ area, slam_set_process_title (offsets 0 (arg0 :: args)) title (packed (arg0 :: args) ++ env) = Ok area ∧
    strlen area = Some (length arg0 + length title)%nat ∧
    take (length arg0 + length title) area = arg0 ++ title ∧
    drop (length (packed (arg0 :: args))) area =
      if decide (length title <= n)%nat then env else drop (S n) title ++ x00 :: drop (length title - n) env.
Proof.
  intros H0 Hargs Ht Hlen n. eexists. split; [by apply slam_set_process_title_at|].
  rewrite (assoc_L (++)), <- length_app, strlen_app, take_app_length by (by apply Forall_app).
  split_and!; [done..|]. change (packed (arg0 :: args)) with ((arg0 ++ [x00]) ++ packed args).
  rewrite !length_app. fold n. change (length [x00]) with 1%nat.
  replace (length arg0 + 1 + n)%nat with (length arg0 + S n)%nat by lia. rewrite <- (assoc_L (++)), <- drop_drop, drop_app_length.
  case_decide as Hn.
  - rewrite drop_app_ge by lia. replace (S n - length title)%nat with (S (n - length title)) by lia.
    cbn [skipn]. rewrite drop_drop. replace (length title + (n - length title))%nat with n by lia.
    by rewrite drop_app_length' by (by rewrite length_replicate).
  - rewrite drop_app_le by lia. do 2 f_equal. by rewrite drop_app_ge, length_replicate by (rewrite length_replicate; lia).
Qed.

Lemma slam_hash_string_bounds_witness :
  slam_hash_string [x70; x69; x6e; x67] = 0x77047 ∧ slam_hash_string [x70; x69; x6e; x67] = elf_hash [x70; x69; x6e; x67].
Proof.
  split; [reflexivity|]. apply (slam_hash_string_bounds [x70; x69; x6e; x67]).
  repeat constructor.
Defined.

Lemma slam_timestamp_reads_back_witness :
  slam_timestamp 0 96 1530284698 None = Ok (Some "18/06/29 23:04:58"%string) ∧
  ∃ text, slam_timestamp 0 96 1530284698 None = Ok (Some text) ∧
    parse_timestamp text = Some (1530284698 + 8 * 3600).
Proof.
  split; [vm_compute; reflexivity|].
  apply (slam_timestamp_reads_back 0 96 1530284698 1530284698); [lia|reflexivity|lia|lia].
Defined.

(** The comment of [slam_timestamp_gmt] gives "Sat, 11 Mar 2017 21:49:51 GMT" for
    this moment. *)
Example gmt_is_eight_hours_late :
  slam_timestamp_gmt 0 96 1489268991 = Ok (Some "Sun, 12 Mar 2017 05:49:51 GMT"%string).
Proof. vm_compute. reflexivity. Qed.

(** [slam -e a] with the environment [X=1]: the title needs one byte more than
    the arguments leave. *)
Lemma slam_set_process_title_overwrites_witness :
  ∃ area, slam_set_process_title (offsets 0 [[x73]; [x2d; x65]; [x61]]) [x20; x77; x6f; x72; x6b; x65]
      (packed [[x73]; [x2d; x65]; [x61]] ++ [x58; x3d; x31; x00]) = Ok area ∧
    drop 7 area = [x00; x3d; x31; x00].
Proof.
  destruct (slam_set_process_title_overwrites [x73] [[x2d; x65]; [x61]] [x58; x3d; x31; x00]
           [x20; x77; x6f; x72; x6b; x65]) as (area & E & _ & _ & Hd).
  - repeat constructor.
  - repeat constructor.
  - repeat constructor.
  - simpl. lia.
  - exists area. by split.
Defined.
