(* ===== verification/Log.v ===== *)
(** * The log ([slam_log.h], [slam_log.c]; [slam_mallinfo] of [slam_utils.c])

    A log macro writes to the standard streams, in colours unless the program
    runs as a daemon; the log file only becomes the target of the streams in
    [slam_main_init].  What the macros write is a list of texts with their
    stream; the message is the text its format has already become. *)

From stdpp Require Import pretty.
From Stdlib Require Import Ascii.
From S2P Require Import Prelude CString Utils.

Open Scope Z_scope.

(** ** Levels and colours *)
Definition LOG_LEVEL_DEBUG : Z := 1.
Definition LOG_LEVEL_TRACE : Z := 2.
Definition LOG_LEVEL_ALARM : Z := 3.
Definition LOG_LEVEL_ERROR : Z := 4.
Definition LOG_LEVEL : Z := LOG_LEVEL_DEBUG.

Inductive color :=
  | BLACK | RED | GREEN | BROWN | BLUE | MAGENTA | CYAN | GREY
  | LRED | LGREEN | YELLOW | LBLUE | LMAGENTA | LCYAN | WHITE.

Definition color_value (c : color) : Z :=
  match c with
  | BLACK => 30 | RED => 31 | GREEN => 32 | BROWN => 33 | BLUE => 34 | MAGENTA => 35
  | CYAN => 36 | GREY => 37 | LRED => 41 | LGREEN => 42 | YELLOW => 43 | LBLUE => 44
  | LMAGENTA => 45 | LCYAN => 46 | WHITE => 47
  end.

Definition LOG_TIMESTAMP_FORMAT : string := "%y/%02m/%02d %02H:%02M:%02S".

(** ** What is written *)
Inductive stream := Stdout | Stderr.

Abbreviation writes := (list (stream * string)).

Definition escape (s : string) : string := String (ascii_of_nat 27) s.
Definition newline : string := String (ascii_of_nat 10) EmptyString.

Definition log_set_console_color (runasdaemon : bool) (COLOR : color) : writes :=
  if negb runasdaemon then
    [(Stderr, escape ("[" +:+ pretty (if color_value COLOR >=? color_value LRED then color_value COLOR - 10
                                      else color_value COLOR)
                      +:+ (if color_value COLOR >=? color_value LRED then ";1" else EmptyString) +:+ "m"))]
  else [].

Definition log_reset_console_color (runasdaemon : bool) : writes :=
  if negb runasdaemon then [(Stderr, escape "[0m")] else [].

(** [log_time_prefix]: the text in [time_buffer], of 96 bytes. *)
Definition log_time_prefix (now ms : Z) : outcome string :=
  s ← slam_timestamp now 96 (ms / 1000) (Some ("[" +:+ LOG_TIMESTAMP_FORMAT));
  DEREF time_buffer := s ;;
  Ok time_buffer.

(** The line of a message: stamp, milliseconds, a tag of the level, and the message. *)
Definition log_line (time_buffer : string) (ms : Z) (tag MESSAGE : string) : string :=
  time_buffer +:+ "|" +:+ pad 3 (pretty (ms mod 1000)) +:+ "] " +:+ tag +:+ MESSAGE +:+ newline.

Definition log_debug (now ms : Z) (MESSAGE : string) : outcome writes :=
  if LOG_LEVEL <=? LOG_LEVEL_DEBUG then
    time_buffer ← log_time_prefix now ms;
    Ok [(Stdout, log_line time_buffer ms EmptyString MESSAGE)]
  else Ok [].

Definition log_trace (now ms : Z) (MESSAGE : string) : outcome writes :=
  if LOG_LEVEL <=? LOG_LEVEL_TRACE then
    time_buffer ← log_time_prefix now ms;
    Ok [(Stdout, log_line time_buffer ms EmptyString MESSAGE)]
  else Ok [].

Definition log_alarm (runasdaemon : bool) (now ms : Z) (MESSAGE : string) : outcome writes :=
  if LOG_LEVEL <=? LOG_LEVEL_ALARM then
    time_buffer ← log_time_prefix now ms;
    Ok (log_set_console_color runasdaemon YELLOW ++
        [(Stderr, log_line time_buffer ms "slam.alarm: " MESSAGE)] ++
        log_reset_console_color runasdaemon)
  else Ok [].

(** [log_error] with [ENABLE_ERROR_LOCATION]. *)
Definition log_error (runasdaemon : bool) (now ms : Z) (file : string) (line : Z) (MESSAGE : string)
    : outcome writes :=
  if LOG_LEVEL <=? LOG_LEVEL_ERROR then
    time_buffer ← log_time_prefix now ms;
    Ok (log_set_console_color runasdaemon LRED ++
        [(Stderr, log_line time_buffer ms ("slam.error (" +:+ file +:+ ":" +:+ pretty line +:+ "): ") MESSAGE)] ++
        log_reset_console_color runasdaemon)
  else Ok [].

(** [CHECK_RETURN]: [None] goes on, [Some RESULT] returns it, with what was written. *)
Definition CHECK_RETURN {R} (error : string → outcome writes) (RC : bool) (RESULT : R) (MESSAGE : string)
    : outcome (writes * option R) :=
  if negb RC then w ← error MESSAGE; Ok (w, Some RESULT) else Ok ([], None).

(** ** The log file *)
Record slam_log := { log_fd : Z; log_filename : string }.

(** [open] gives a descriptor or a negative number. *)
Definition slam_log_new (open : string → Z) (filename : string) : option slam_log :=
  let fd := open filename in
  if negb (0 <=? fd) then None else Some {| log_fd := fd; log_filename := filename |}.

(** The macro [slam_close]: the descriptors closed, and the variable afterwards. *)
Definition slam_close (fd : Z) : list Z * Z := if fd >=? 0 then ([fd], -1) else ([], fd).

Definition slam_log_delete (log : slam_log) : list Z := (slam_close (log_fd log)).1.

(** ** Memory statistics *)
Record mallinfo := {
  arena : Z; ordblks : Z; smblks : Z; hblks : Z; hblkhd : Z;
  usmblks : Z; fsmblks : Z; uordblks : Z; fordblks : Z; keepcost : Z;
}.

(** Every call reads the clock: [clock i] is what the [i]-th call is told, in
    seconds and in milliseconds. *)
Fixpoint trace_all (clock : nat → Z * Z) (i : nat) (lines : list string) : outcome writes :=
  match lines with
  | [] => Ok []
  | l :: lines =>
      w ← log_trace (clock i).1 (clock i).2 l;
      ws ← trace_all clock (S i) lines;
      Ok (w ++ ws)
  end.

Definition slam_mallinfo (clock : nat → Z * Z) (info : mallinfo) : outcome writes :=
  trace_all clock 0
    ["dump memory allocate info";
     "    arena:    " +:+ pretty (arena info);
     "    ordblks:  " +:+ pretty (ordblks info);
     "    smblks:   " +:+ pretty (smblks info);
     "    hblks:    " +:+ pretty (hblks info);
     "    hblkhd:   " +:+ pretty (hblkhd info);
     "    usmblks:  " +:+ pretty (usmblks info);
     "    fsmblks:  " +:+ pretty (fsmblks info);
     "    uordblks: " +:+ pretty (uordblks info);
     "    fordblks: " +:+ pretty (fordblks info);
     "    keepcost: " +:+ pretty (keepcost info)]%string.

(** ** Lemmas *)

(** In this century the stamp fits its buffer, and reads back as the second the
    message was logged in. *)
Lemma log_time_prefix_reads_back now ms :
  1000 <= ms < 2 ^ 63 → 946656000 <= ms / 1000 < 4102416000 →
  ∃ text, log_time_prefix now ms = Ok (String "[" text) ∧
    parse_timestamp text = Some (ms / 1000 + 8 * 3600).
Proof.
  intros Hms Ht. assert (ms / 1000 = (if ms / 1000 =? 0 then now else ms / 1000)) as E
    by (by replace (ms / 1000 =? 0) with false by lia).
  destruct (stamp_text now (ms / 1000) (ms / 1000)) as (r & text & Es & Er & Ef & El & Ep); [|done..|].
  { Z.to_euclidean_division_equations. lia. }
  exists text. split; [|done]. unfold log_time_prefix, slam_timestamp, strftime. simpl default.
  rewrite Es, bind_ok, Er.
  change (format_time ("[" +:+ LOG_TIMESTAMP_FORMAT) None r)
    with (String "[" <$> format_time "%y/%02m/%02d %02H:%02M:%02S" None r).
  rewrite Ef. cbn [mbind option_bind fmap option_fmap option_map String.length]. by rewrite El.
Qed.

(** An error is one line on the error stream, coloured on a console only. *)
Lemma log_error_writes runasdaemon now ms file line MESSAGE :
  1000 <= ms < 2 ^ 63 → 946656000 <= ms / 1000 < 4102416000 →
  ∃ text, parse_timestamp text = Some (ms / 1000 + 8 * 3600) ∧
    log_error runasdaemon now ms file line MESSAGE =
      Ok ((if runasdaemon then [] else [(Stderr, escape "[31;1m")]) ++
          [(Stderr, log_line (String "[" text) ms ("slam.error (" +:+ file +:+ ":" +:+ pretty line +:+ "): ") MESSAGE)] ++
          (if runasdaemon then [] else [(Stderr, escape "[0m")])).
Proof.
  intros Hms Ht. destruct (log_time_prefix_reads_back now ms Hms Ht) as (text & E & Hp).
  exists text. split; [done|]. unfold log_error. rewrite E. by destruct runasdaemon.
Qed.
