(* ===== verification/Sync.v ===== *)
(** * Synchronisation ([io/slam_atomic.h], [io/slam_spinlock.c], [io/slam_thread_cond.c])

    The atomic operations on one cell, the spin lock between any number of
    threads that take it in any order, and the waits on a condition against a
    clock. *)

From S2P Require Import Prelude.

(** ** Atomic operations

    Each is one access to the cell: its result and the cell afterwards, where
    [wrap] is the wrap-around of the cell's type. *)
Section atomic.
Context (wrap : Z → Z).

Definition ATOM_CAS (v oval nval : Z) : bool * Z := if v =? oval then (true, nval) else (false, v).
Definition ATOM_CAS_POINTER (v oval nval : ptr) : bool * ptr :=
  if decide (v = oval) then (true, nval) else (false, v).
Definition ATOM_INC (v : Z) : Z * Z := (wrap (v + 1), wrap (v + 1)).
Definition ATOM_FINC (v : Z) : Z * Z := (v, wrap (v + 1)).
Definition ATOM_DEC (v : Z) : Z * Z := (wrap (v - 1), wrap (v - 1)).
Definition ATOM_FDEC (v : Z) : Z * Z := (v, wrap (v - 1)).
Definition ATOM_ADD (v n : Z) : Z * Z := (wrap (v + n), wrap (v + n)).
Definition ATOM_SUB (v n : Z) : Z * Z := (wrap (v - n), wrap (v - n)).
Definition ATOM_AND (v n : Z) : Z * Z := (Z.land v n, Z.land v n).
End atomic.

(** ** The spin lock *)
Record slam_spinlock := { sl_lock : Z }.

Definition slam_spinlock_new : slam_spinlock := {| sl_lock := 0 |}.

(** [__sync_lock_test_and_set]: the old value, and the cell afterwards. *)
Definition test_and_set (value : Z) (s : slam_spinlock) : Z * slam_spinlock :=
  (sl_lock s, {| sl_lock := value |}).

(** One round of the [while] loop of [slam_spinlock_lock]: whether it ends. *)
Definition slam_spinlock_lock (s : slam_spinlock) : bool * slam_spinlock :=
  let '(old, s) := test_and_set 1 s in (old =? 0, s).

Definition slam_spinlock_trylock (s : slam_spinlock) : bool * slam_spinlock :=
  let '(old, s) := test_and_set 1 s in (old =? 0, s).

Definition slam_spinlock_unlock (s : slam_spinlock) : slam_spinlock := {| sl_lock := 0 |}.

(** *** Threads

    A thread that does not hold the lock may ask for it in either way; one that
    holds it releases it. *)
Inductive pc := Outside | Waiting | Inside.
Inductive action := Lock | TryLock.

#[export] Instance pc_eq_dec : EqDecision pc.
Proof. solve_decision. Defined.

Record spin_conf := { sp_lock : slam_spinlock; sp_pcs : list pc }.

Definition spin_start (n : nat) : spin_conf :=
  {| sp_lock := slam_spinlock_new; sp_pcs := replicate n Outside |}.

(** The next step of the thread [i]. *)
Definition spin_step (i : nat) (a : action) (c : spin_conf) : spin_conf :=
  match sp_pcs c !! i, a with
  | None, _ => c
  | Some Outside, Lock => {| sp_lock := sp_lock c; sp_pcs := <[i := Waiting]> (sp_pcs c) |}
  | Some Outside, TryLock =>
      let '(b, s) := slam_spinlock_trylock (sp_lock c) in
      {| sp_lock := s; sp_pcs := <[i := if (b : bool) then Inside else Outside]> (sp_pcs c) |}
  | Some Waiting, _ =>
      let '(b, s) := slam_spinlock_lock (sp_lock c) in
      {| sp_lock := s; sp_pcs := <[i := if (b : bool) then Inside else Waiting]> (sp_pcs c) |}
  | Some Inside, _ =>
      {| sp_lock := slam_spinlock_unlock (sp_lock c); sp_pcs := <[i := Outside]> (sp_pcs c) |}
  end.

Definition spin_run (schedule : list (nat * action)) (c : spin_conf) : spin_conf :=
  fold_left (λ c '(i, a), spin_step i a c) schedule c.

(** ** Conditions *)

(** What the pthread library holds: mutexes and conditions initialised and not
    destroyed. *)
Record pthreads := { live_mutexes : Z; live_conds : Z }.

(** [slam_thread_cond_new], with the results of the two initialisations. *)
Definition slam_thread_cond_new (mutex_rc cond_rc : Z) (p : pthreads) : bool * pthreads :=
  if negb (mutex_rc =? 0) then (false, p)
  else
    let p := {| live_mutexes := live_mutexes p + 1; live_conds := live_conds p |} in
    if negb (cond_rc =? 0) then (false, p)
    else (true, {| live_mutexes := live_mutexes p; live_conds := live_conds p + 1 |}).

Definition slam_thread_cond_delete (p : pthreads) : pthreads :=
  {| live_mutexes := live_mutexes p - 1; live_conds := live_conds p - 1 |}.

Record timespec := { ts_sec : Z; ts_nsec : Z }.

Definition ETIMEDOUT : Z := 110.
Definition EINVAL : Z := 22.

(** [pthread_cond_wait] and [pthread_cond_timedwait] at the time [now] (in
    nanoseconds since the epoch, as the deadline), when the condition is
    signalled at the time [signalled], or never: the result and the time of the
    return; [None] is a wait without end. *)
Definition pthread_cond_wait (now : Z) (signalled : option Z) : option (Z * Z) :=
  match signalled with
  | Some t => Some (0, Z.max now t)
  | None => None
  end.

Definition pthread_cond_timedwait (now : Z) (signalled : option Z) (ts : timespec) : option (Z * Z) :=
  let deadline := ts_sec ts * 10 ^ 9 + ts_nsec ts in
  if (ts_nsec ts <? 0) || (ts_nsec ts >=? 10 ^ 9) then Some (EINVAL, now)
  else if deadline <=? now then Some (ETIMEDOUT, now)
  else match signalled with
       | Some t => if t <? deadline then Some (0, Z.max now t) else Some (ETIMEDOUT, deadline)
       | None => Some (ETIMEDOUT, deadline)
       end.

(** [CHECK_RETURN(rc == 0, false, ...)] of a call. *)
Definition succeeded (r : option (Z * Z)) : option (bool * Z) := (λ '(rc, t), (rc =? 0, t)) <$> r.

Definition slam_thread_cond_signal (rc : Z) : bool := rc =? 0.

Definition slam_thread_cond_wait (now : Z) (signalled : option Z) : option (bool * Z) :=
  succeeded (pthread_cond_wait now signalled).

Definition slam_thread_cond_timewait (now : Z) (signalled : option Z) (milliseconds : Z)
    : option (bool * Z) :=
  if 0 <? milliseconds then
    let ts := {| ts_sec := milliseconds / 1000; ts_nsec := milliseconds mod 1000 * 1000000 |} in
    succeeded (pthread_cond_timedwait now signalled ts)
  else slam_thread_cond_wait now signalled.

Definition slam_thread_mutex_lock (rc : Z) : bool := rc =? 0.
Definition slam_thread_mutex_unlock (rc : Z) : bool := rc =? 0.

(** ** Proofs *)

(** The holders of the lock are the thread [o], if any, and the cell says so. *)
Definition held_by (o : option nat) (c : spin_conf) : Prop :=
  sl_lock (sp_lock c) = (if o then 1 else 0) ∧ ∀ i, sp_pcs c !! i = Some Inside ↔ o = Some i.

Lemma held_insert (o o' : option nat) i pc l ps :
  is_Some (ps !! i) → (∀ j : nat, ps !! j = Some Inside ↔ o = Some j) →
  sl_lock l = (if o' then 1 else 0) → (o' = Some i ↔ pc = Inside) →
  (∀ j, j ≠ i → o' = Some j ↔ o = Some j) →
  held_by o' {| sp_lock := l; sp_pcs := <[i := pc]> ps |}.
Proof.
  intros Hi Hps Hl Hpc Hj. split; [done|]. intros j. simpl.
  destruct (decide (j = i)) as [->|Hne].
  - rewrite list_lookup_insert_eq by (by apply lookup_lt_is_Some). split; [|intros H; f_equal; tauto].
    intros [= E]. tauto.
  - rewrite list_lookup_insert_ne by done. rewrite Hps. symmetry. by apply Hj.
Qed.

Lemma spin_step_held o i a c :
  held_by o c → ∃ o', held_by o' (spin_step i a c).
Proof.
  destruct c as [[v] ps]. intros [Hv Hps]. simpl in *. unfold spin_step. simpl.
  destruct (ps !! i) as [pc|] eqn:Hi; [|by exists o].
  assert (is_Some (ps !! i)) as Hs by eauto. subst v.
  assert (∀ b : bool, ∃ o', held_by o' {| sp_lock := {| sl_lock := 1 |};
    sp_pcs := <[i := if (if o then 1 else 0) =? 0 then Inside else if b then Waiting else Outside]> ps |}
    ∨ pc = Inside) as Hget.
  { intros b. destruct (decide (pc = Inside)) as [|Hpc]; [by exists o; right|].
    destruct o as [k|]; simpl; [exists (Some k)|exists (Some i)]; left.
    - apply (held_insert (Some k)); try done.
      split; [intros [= ->]|by destruct b]. destruct Hpc. apply (inj Some). rewrite <- Hi. by apply Hps.
    - apply (held_insert None); try done. intros j Hj. split; congruence. }
  destruct pc.
  - destruct a; simpl.
    + exists o. apply (held_insert o); try done. split; [|done]. intros ->. specialize (Hps i). naive_solver.
    + destruct (Hget false) as (o' & [H|H]); [by exists o'|done].
  - destruct (Hget true) as (o' & [H|H]); [by exists o'|done].
  - assert (o = Some i) as -> by by apply Hps.
    exists None. apply (held_insert (Some i)); try done. intros j Hj. split; congruence.
Qed.

Lemma spin_start_held n : held_by None (spin_start n).
Proof. split; [done|]. intros i. simpl. split; [|done]. intros [??]%lookup_replicate. done. Qed.

Lemma spin_run_held schedule : ∀ o c, held_by o c → ∃ o', held_by o' (spin_run schedule c).
Proof.
  induction schedule as [|[i a] schedule IH]; intros o c H; [by exists o|].
  simpl. destruct (spin_step_held o i a c H) as [o' H']. by eapply IH.
Qed.

(** ** The properties *)

(** Claim C39.  The spin lock excludes: however the steps of any number of threads
    are interleaved, two threads are never both inside, and the cell is 1 exactly
    when one is. *)
Theorem slam_spinlock_mutual_exclusion n schedule :
  let c := spin_run schedule (spin_start n) in
  (∀ i j, sp_pcs c !! i = Some Inside → sp_pcs c !! j = Some Inside → i = j) ∧
  sl_lock (sp_lock c) = (if decide (Inside ∈ sp_pcs c) then 1 else 0).
Proof.
  intros c. destruct (spin_run_held schedule _ _ (spin_start_held n)) as (o & Hv & Hi). fold c in Hv, Hi.
  split; [intros i j Hx%Hi Hy%Hi; congruence|]. rewrite Hv. destruct o as [i|]; case_decide as H; try done.
  - destruct H. apply list_elem_of_lookup. exists i. by apply Hi.
  - apply list_elem_of_lookup in H as [i Hx%Hi]. done.
Qed.

(** Claim C40.  The spin lock does not deadlock: a waiting thread enters with its
    next step when nobody is inside, and otherwise with its next step after the
    thread inside has taken one. *)
Theorem slam_spinlock_waiter_enters n schedule i a :
  let c := spin_run schedule (spin_start n) in
  sp_pcs c !! i = Some Waiting →
  (Inside ∉ sp_pcs c → sp_pcs (spin_step i a c) !! i = Some Inside) ∧
  (∀ j, sp_pcs c !! j = Some Inside → sp_pcs (spin_step i a (spin_step j a c)) !! i = Some Inside).
Proof.
  intros c Hw. destruct (spin_run_held schedule _ _ (spin_start_held n)) as (o & Hv & Hi). fold c in Hv, Hi.
  split.
  - intros Hn. destruct o as [j|]; [destruct Hn; apply list_elem_of_lookup; exists j; by apply Hi|].
    unfold spin_step. rewrite Hw. unfold slam_spinlock_lock, test_and_set. rewrite Hv. simpl.
    apply list_lookup_insert_eq, lookup_lt_is_Some. eauto.
  - intros j Hj. assert (j ≠ i) as Hne by congruence. unfold spin_step at 2. rewrite Hj.
    unfold spin_step. simpl. rewrite list_lookup_insert_ne by done. rewrite Hw. simpl.
    apply list_lookup_insert_eq. rewrite length_insert. apply lookup_lt_is_Some. eauto.
Qed.

(** A timed wait on a condition gives the timeout as a moment since
    1970, so until that much time has passed since then it never waits: it
    returns false at once, whether the condition is signalled or not. *)
Lemma slam_thread_cond_timewait_returns_at_once now signalled milliseconds :
  0 < milliseconds → milliseconds * 10 ^ 6 <= now →
  slam_thread_cond_timewait now signalled milliseconds = Some (false, now).
Proof.
  intros Hms Hnow. unfold slam_thread_cond_timewait, pthread_cond_timedwait. simpl.
  replace (0 <? milliseconds) with true by lia.
  assert (0 <= milliseconds mod 1000 < 1000) by (apply Z.mod_pos_bound; lia).
  pose proof (Z.div_mod milliseconds 1000).
  replace ((_ <? 0) || _) with false by lia. by replace (_ <=? now) with true by lia.
Qed.

(** ** Two threads *)
Definition two_threads : list (nat * action) := [(0%nat, Lock); (1%nat, Lock); (1%nat, Lock); (0%nat, Lock)].

Lemma slam_spinlock_waiter_enters_witness :
  sp_pcs (spin_step 0 Lock (spin_step 1 Lock (spin_run two_threads (spin_start 2)))) !! 0%nat = Some Inside.
Proof.
  apply (slam_spinlock_waiter_enters 2 two_threads 0 Lock); reflexivity.
Defined.

Lemma slam_thread_cond_timewait_returns_at_once_witness :
  slam_thread_cond_timewait (1530284698 * 10 ^ 9) None 5000 = Some (false, 1530284698 * 10 ^ 9).
Proof. apply (slam_thread_cond_timewait_returns_at_once (1530284698 * 10 ^ 9) None 5000); lia. Defined.
