(* ===== verification/ByteBuffer.v ===== *)
(** * The growable byte buffer ([slam_byte_buffer.c])

    The buffer is a heap block with a read offset and a write offset.  The file
    models every operation on the block itself (with its [realloc] growth and
    its indeterminate cells) and proves that the buffer is a byte queue. *)

From S2P Require Import Prelude.

(** ** Data *)
Definition BUFFER_CHUNK_SIZE : Z := 512.

Record slam_byte_buffer := {
  bb_bytes : option (list cell);   (* [None] is the null pointer *)
  bb_size : Z;
  bb_capacity : Z;
  bb_rlength : Z;
  bb_wlength : Z;
}.

(** [realloc]: the old cells survive up to the new size. *)
Definition realloc (p : option (list cell)) (n : Z) : option (list cell) :=
  match p with
  | None => Some (fresh_cells n)
  | Some blk =>
      if n =? 0 then None
      else Some (take (Z.to_nat n) blk ++ fresh_cells (n - len blk))
  end.

(** ** Operations *)
Definition slam_byte_buffer_blank (bb : slam_byte_buffer) : outcome Z :=
  ASSERT bb_capacity bb >=? bb_wlength bb ;;
  Ok (u64 (bb_capacity bb - bb_wlength bb)).

Definition slam_byte_buffer_reserve (bb : slam_byte_buffer) (newsize : Z)
    : outcome slam_byte_buffer :=
  blank ← slam_byte_buffer_blank bb;
  if blank >? newsize then Ok bb
  else
    let newsize := if newsize <? BUFFER_CHUNK_SIZE then BUFFER_CHUNK_SIZE else newsize in
    let newsize := u64 (newsize + bb_capacity bb) in
    Ok {| bb_bytes := realloc (bb_bytes bb) newsize;
          bb_size := bb_size bb;
          bb_capacity := newsize;
          bb_rlength := bb_rlength bb;
          bb_wlength := bb_wlength bb |}.

Definition slam_byte_buffer_size (bb : slam_byte_buffer) : outcome Z :=
  ASSERT bb_wlength bb >=? bb_rlength bb ;;
  Ok (u64 (bb_wlength bb - bb_rlength bb)).

Definition slam_byte_buffer_reset (bb : slam_byte_buffer) : slam_byte_buffer :=
  {| bb_bytes := bb_bytes bb; bb_size := bb_size bb; bb_capacity := bb_capacity bb;
     bb_rlength := 0; bb_wlength := 0 |}.

Definition slam_byte_buffer_clear (bb : slam_byte_buffer) : slam_byte_buffer :=
  {| bb_bytes := None; bb_size := 0; bb_capacity := 0;
     bb_rlength := 0; bb_wlength := 0 |}.

Definition slam_byte_buffer_shrink (bb : slam_byte_buffer) : outcome slam_byte_buffer :=
  size ← slam_byte_buffer_size bb;
  if size =? 0 then Ok (slam_byte_buffer_reset bb) else Ok bb.

Definition slam_byte_buffer_new (initsize : Z) : outcome slam_byte_buffer :=
  slam_byte_buffer_reserve
    {| bb_bytes := None; bb_size := 0; bb_capacity := 0;
       bb_rlength := 0; bb_wlength := 0 |} initsize.

(** The two buffer pointers, as offsets into the block. *)
Definition slam_byte_buffer_readbuffer (bb : slam_byte_buffer) : Z := bb_rlength bb.

Definition slam_byte_buffer_writebuffer (bb : slam_byte_buffer) (needsize : Z)
    : outcome (slam_byte_buffer * Z) :=
  bb ← slam_byte_buffer_reserve bb needsize;
  Ok (bb, bb_wlength bb).

Definition slam_byte_buffer_readlength (bb : slam_byte_buffer) (n : Z)
    : outcome slam_byte_buffer :=
  let bb :=
    {| bb_bytes := bb_bytes bb; bb_size := bb_size bb; bb_capacity := bb_capacity bb;
       bb_rlength := u64 (bb_rlength bb + n); bb_wlength := bb_wlength bb |} in
  ASSERT bb_wlength bb >=? bb_rlength bb ;;
  slam_byte_buffer_shrink bb.

Definition slam_byte_buffer_writelength (bb : slam_byte_buffer) (n : Z)
    : outcome slam_byte_buffer :=
  let bb :=
    {| bb_bytes := bb_bytes bb; bb_size := bb_size bb; bb_capacity := bb_capacity bb;
       bb_rlength := bb_rlength bb; bb_wlength := u64 (bb_wlength bb + n) |} in
  ASSERT bb_capacity bb >=? bb_wlength bb ;;
  Ok bb.

(** [read] copies out at most [bufsize] bytes and returns them; the C function
    returns their number and leaves them in the caller's array. *)
Definition slam_byte_buffer_read (bb : slam_byte_buffer) (bufsize : Z)
    : outcome (list byte * slam_byte_buffer) :=
  readsize ← slam_byte_buffer_size bb;
  let readsize := if readsize >? bufsize then bufsize else readsize in
  bs ← load (slam_byte_buffer_readbuffer bb) readsize (default [] (bb_bytes bb));
  bb ← slam_byte_buffer_readlength bb readsize;
  Ok (bs, bb).

(** [write] appends [buf], whose length is the argument [bufsize]. *)
Definition slam_byte_buffer_write (bb : slam_byte_buffer) (buf : list byte)
    : outcome slam_byte_buffer :=
  '(bb, off) ← slam_byte_buffer_writebuffer bb (len buf);
  blk ← store off buf (default [] (bb_bytes bb));
  slam_byte_buffer_writelength
    {| bb_bytes := if bb_bytes bb is Some _ then Some blk else None;
       bb_size := bb_size bb; bb_capacity := bb_capacity bb;
       bb_rlength := bb_rlength bb; bb_wlength := bb_wlength bb |} (len buf).

(** ** Specification: a queue of bytes *)
Inductive bb_op :=
  | BWrite (data : list byte)
  | BRead (bufsize : Z)
  | BSize
  | BReset
  | BClear.

Inductive bb_out :=
  | OUnit
  | OBytes (bs : list byte)
  | OSize (n : Z).

Definition bb_step (bb : slam_byte_buffer) (op : bb_op)
    : outcome (bb_out * slam_byte_buffer) :=
  match op with
  | BWrite data => bb ← slam_byte_buffer_write bb data; Ok (OUnit, bb)
  | BRead n => '(bs, bb) ← slam_byte_buffer_read bb n; Ok (OBytes bs, bb)
  | BSize => n ← slam_byte_buffer_size bb; Ok (OSize n, bb)
  | BReset => Ok (OUnit, slam_byte_buffer_reset bb)
  | BClear => Ok (OUnit, slam_byte_buffer_clear bb)
  end.

Fixpoint bb_run (bb : slam_byte_buffer) (ops : list bb_op)
    : outcome (list bb_out * slam_byte_buffer) :=
  match ops with
  | [] => Ok ([], bb)
  | op :: ops =>
      '(o, bb) ← bb_step bb op;
      '(os, bb) ← bb_run bb ops;
      Ok (o :: os, bb)
  end.

Definition spec_step (q : list byte) (op : bb_op) : bb_out * list byte :=
  match op with
  | BWrite data => (OUnit, q ++ data)
  | BRead n => (OBytes (take (Z.to_nat n) q), drop (Z.to_nat n) q)
  | BSize => (OSize (len q), q)
  | BReset | BClear => (OUnit, [])
  end.

Fixpoint spec_run (q : list byte) (ops : list bb_op) : list bb_out * list byte :=
  match ops with
  | [] => ([], q)
  | op :: ops =>
      let '(o, q) := spec_step q op in
      let '(os, q) := spec_run q ops in
      (o :: os, q)
  end.

(** The most the capacity can grow by in one operation. *)
Definition op_growth (op : bb_op) : Z :=
  match op with
  | BWrite data => Z.max (len data) BUFFER_CHUNK_SIZE
  | _ => 0
  end.

Fixpoint ops_growth (ops : list bb_op) : Z :=
  match ops with
  | [] => 0
  | op :: ops => op_growth op + ops_growth ops
  end.

Definition op_valid (op : bb_op) : Prop :=
  match op with BRead n => 0 <= n < 2 ^ 64 | _ => True end.

(** The representation: the unread bytes [q] sit between the two offsets. *)
Record bb_rep (bb : slam_byte_buffer) (q : list byte) : Prop := {
  rep_cells : ∃ pre post,
    default [] (bb_bytes bb) = pre ++ (Some <$> q) ++ post ∧ len pre = bb_rlength bb;
  rep_write : bb_wlength bb = bb_rlength bb + len q;
  rep_len : len (default [] (bb_bytes bb)) = bb_capacity bb;
  rep_cap : bb_capacity bb < 2 ^ 64;
}.

(** ** Proofs *)
Lemma rep_bounds bb q :
  bb_rep bb q →
  0 <= bb_rlength bb ∧ 0 <= bb_wlength bb ∧
  bb_rlength bb <= bb_wlength bb <= bb_capacity bb.
Proof.
  intros [(pre & post & E & Hr) Hw Hl Hc]. rewrite E in Hl.
  rewrite !len_app, len_fmap in Hl.
  pose proof (len_nonneg pre). pose proof (len_nonneg q). pose proof (len_nonneg post). lia.
Qed.

Lemma size_ok bb q : bb_rep bb q → slam_byte_buffer_size bb = Ok (len q).
Proof.
  intros H. pose proof (rep_bounds _ _ H). destruct H as [_ Hw _ Hc].
  unfold slam_byte_buffer_size. zcase; [|lia]. rewrite u64_id by lia. do 2 f_equal; lia.
Qed.

Lemma rep_reset bb q : bb_rep bb q → bb_rep (slam_byte_buffer_reset bb) [].
Proof.
  intros H. pose proof (rep_bounds _ _ H). destruct H as [_ Hw Hl Hc].
  split; simpl; try done.
  exists [], (default [] (bb_bytes bb)). done.
Qed.

Lemma rep_clear bb : bb_rep (slam_byte_buffer_clear bb) [].
Proof. split; simpl; try done. by exists [], []. Qed.

(** After [reserve n] there is room for [n] bytes, and the contents are kept. *)
Lemma reserve_ok bb q n :
  bb_rep bb q → 0 <= n → bb_capacity bb + Z.max n BUFFER_CHUNK_SIZE < 2 ^ 64 →
  returns (slam_byte_buffer_reserve bb n) (λ bb',
    bb_rep bb' q ∧ bb_wlength bb' + n <= bb_capacity bb' ∧
    bb_rlength bb' = bb_rlength bb ∧
    (bb_capacity bb' = bb_capacity bb ∧ n < bb_capacity bb - bb_wlength bb ∨
     bb_capacity bb' = bb_capacity bb + Z.max n BUFFER_CHUNK_SIZE)).
Proof.
  intros H Hn Hcap. pose proof (rep_bounds _ _ H).
  destruct H as [(pre & post & E & Hr) Hw Hl Hc].
  unfold slam_byte_buffer_reserve, slam_byte_buffer_blank.
  zcase; [|lia]. rewrite bind_ok, u64_id by lia.
  zcase; apply returns_ok.
  { split_and!; [|lia|lia|auto]. split; eauto. }
  set (m := if n <? BUFFER_CHUNK_SIZE then BUFFER_CHUNK_SIZE else n).
  assert (m = Z.max n BUFFER_CHUNK_SIZE) as -> by (unfold m; zcase; lia).
  unfold BUFFER_CHUNK_SIZE in *. rewrite u64_id by lia.
  split_and!; simpl; [|lia|lia|right; lia].
  split; simpl; [|lia| |lia].
  - exists pre, (post ++ fresh_cells (Z.max n 512 + bb_capacity bb - len (default [] (bb_bytes bb)))).
    split; [|done]. unfold realloc.
    destruct (bb_bytes bb) as [blk|]; simpl in *.
    + zcase; [lia|]. simpl. rewrite take_ge by len. by rewrite E, <- !app_assoc.
    + symmetry in E. apply app_nil in E as [-> E]. apply app_nil in E as [E ->].
      rewrite E. simpl. f_equal. len.
  - unfold realloc, fresh_cells. destruct (bb_bytes bb) as [blk|]; simpl in *.
    + zcase; [lia|]. simpl. rewrite take_ge by len. len.
    + len.
Qed.

Lemma rep_new n :
  0 <= n → n + BUFFER_CHUNK_SIZE < 2 ^ 64 →
  returns (slam_byte_buffer_new n) (λ bb,
    bb_rep bb [] ∧ bb_capacity bb = Z.max n BUFFER_CHUNK_SIZE).
Proof.
  intros Hn Hcap. unfold slam_byte_buffer_new.
  set (bb0 := {| bb_bytes := None |}).
  eapply returns_mono.
  - apply (reserve_ok bb0 []); [split; try done; by exists [], []|done|simpl]; unfold BUFFER_CHUNK_SIZE in *; lia.
  - intros bb (Hrep & _ & _ & Hgrow). simpl in Hgrow. split; [done|]. lia.
Qed.

Lemma rep_write_ok bb q data :
  bb_rep bb q → bb_capacity bb + Z.max (len data) BUFFER_CHUNK_SIZE < 2 ^ 64 →
  returns (slam_byte_buffer_write bb data) (λ bb',
    bb_rep bb' (q ++ data) ∧
    bb_capacity bb' <= bb_capacity bb + Z.max (len data) BUFFER_CHUNK_SIZE).
Proof.
  intros H Hcap. pose proof (len_nonneg data) as Hd.
  unfold slam_byte_buffer_write, slam_byte_buffer_writebuffer.
  destruct (reserve_ok bb q (len data) H Hd Hcap) as (bb' & -> & Hrep & Hroom & Hrl & Hgrow).
  pose proof (rep_bounds _ _ Hrep). destruct Hrep as [(pre & post & E & Hr) Hw Hl Hc].
  rewrite !bind_ok. rewrite E, app_assoc.
  replace (bb_wlength bb') with (len (pre ++ (Some <$> q))) by len.
  rewrite store_app by (rewrite E in Hl; len).
  rewrite bind_ok. unfold slam_byte_buffer_writelength; simpl.
  rewrite u64_id by len. zcase; [|len]. apply returns_ok.
  assert (bb_bytes bb' = None → q = [] ∧ data = []) as Hnull.
  { intros N. rewrite N in *. simpl in *. symmetry in E.
    apply app_nil in E as [-> E]. apply app_nil in E as [E ->].
    apply fmap_nil_inv in E as ->. split; [done|]. destruct data; [done|len]. }
  split; [split; simpl|simpl; unfold BUFFER_CHUNK_SIZE in *; lia].
  - exists pre, (drop (length data) post). split; [|done].
    destruct (bb_bytes bb') as [blk|] eqn:N; simpl.
    + by rewrite fmap_app, <- !app_assoc.
    + destruct (Hnull eq_refl) as [-> ->]. simpl in *; by rewrite drop_0.
  - len.
  - destruct (bb_bytes bb') as [blk|] eqn:N; simpl in *.
    + rewrite <- Hl, E. rewrite E in Hl. len.
    + done.
  - done.
Qed.

Lemma rep_read_ok bb q n :
  bb_rep bb q → 0 <= n < 2 ^ 64 →
  returns (slam_byte_buffer_read bb n) (λ '(bs, bb'),
    bs = take (Z.to_nat n) q ∧ bb_rep bb' (drop (Z.to_nat n) q) ∧
    bb_capacity bb' = bb_capacity bb).
Proof.
  intros H Hn. pose proof (rep_bounds _ _ H).
  unfold slam_byte_buffer_read. rewrite (size_ok _ _ H), bind_ok.
  destruct H as [(pre & post & E & Hr) Hw Hl Hc].
  set (m := if len q >? n then n else len q).
  assert (m = len (take (Z.to_nat n) q)) as -> by (unfold m; zcase; len).
  unfold slam_byte_buffer_readbuffer. rewrite <- Hr, E.
  rewrite <- (take_drop (Z.to_nat n) q) at 2. rewrite fmap_app, <- app_assoc, load_app, bind_ok.
  unfold slam_byte_buffer_readlength; simpl. rewrite u64_id by len.
  zcase; [|len].
  set (bb1 := {| bb_bytes := _ |}).
  assert (bb_rep bb1 (drop (Z.to_nat n) q)) as Hrep1.
  { split; unfold bb1; simpl; [|len|done|done].
    exists (pre ++ (Some <$> take (Z.to_nat n) q)), post. split; [|len].
    rewrite E, <- app_assoc. f_equal. by rewrite (app_assoc (Some <$> _)), <- fmap_app, take_drop. }
  unfold slam_byte_buffer_shrink. rewrite (size_ok _ _ Hrep1), bind_ok.
  zcase; apply returns_ok; (split; [done|]).
  - split; [|done]. replace (drop (Z.to_nat n) q) with (@nil byte).
    + by eapply rep_reset.
    + destruct (drop (Z.to_nat n) q); [done|len].
  - done.
Qed.

Lemma bb_step_refines bb q op :
  bb_rep bb q → op_valid op → bb_capacity bb + op_growth op < 2 ^ 64 →
  returns (bb_step bb op) (λ '(o, bb'),
    o = fst (spec_step q op) ∧ bb_rep bb' (snd (spec_step q op)) ∧
    bb_capacity bb' <= bb_capacity bb + op_growth op).
Proof.
  intros H Hv Hcap. pose proof (rep_bounds _ _ H). destruct op; simpl in *.
  - destruct (rep_write_ok _ _ _ H Hcap) as (bb' & -> & ? & ?). by apply returns_ok.
  - destruct (rep_read_ok _ _ _ H Hv) as ([bs bb'] & -> & -> & ? & ?).
    apply returns_ok. split_and!; [done|done|lia].
  - rewrite (size_ok _ _ H). apply returns_ok. split_and!; [done|done|lia].
  - apply returns_ok. split_and!; [done|by eapply rep_reset|simpl; lia].
  - apply returns_ok. split_and!; [done|apply rep_clear|simpl; lia].
Qed.

Lemma ops_growth_nonneg ops : 0 <= ops_growth ops.
Proof.
  induction ops as [|op ops IH]; simpl; [done|].
  unfold op_growth, BUFFER_CHUNK_SIZE. destruct op; lia.
Qed.

Lemma bb_run_refines bb q ops :
  bb_rep bb q → Forall op_valid ops →
  bb_capacity bb + ops_growth ops < 2 ^ 64 →
  returns (bb_run bb ops) (λ '(os, bb'),
    os = fst (spec_run q ops) ∧ bb_rep bb' (snd (spec_run q ops))).
Proof.
  revert bb q. induction ops as [|op ops IH]; intros bb q H Hv Hcap; cbn [bb_run spec_run ops_growth] in *.
  { by apply returns_ok. }
  apply Forall_cons in Hv as [Hv Hvs].
  pose proof (ops_growth_nonneg ops).
  destruct (bb_step_refines bb q op H Hv) as ([o bb1] & -> & -> & Hrep & Hcap1); [lia|].
  rewrite bind_ok. destruct (spec_step q op) as [o q1]; simpl in *.
  destruct (IH bb1 q1 Hrep Hvs) as ([os bb2] & -> & -> & Hrep2); [lia|].
  rewrite bind_ok. destruct (spec_run q1 ops). by apply returns_ok.
Qed.

(** Claim C22. The byte buffer refines a byte queue: any sequence of writes,
    reads, size queries, resets and clears on a new buffer returns (no
    assertion fails, no access is out of bounds and no indeterminate byte is
    read), and its results are those of a list of unread bytes, as long as the
    bytes reserved over its life fit in a [size_t]. *)
Theorem slam_byte_buffer_refines_queue initsize ops :
  0 <= initsize →
  Forall op_valid ops →
  initsize + BUFFER_CHUNK_SIZE + ops_growth ops < 2 ^ 64 →
  ∃ bb os bb',
    slam_byte_buffer_new initsize = Ok bb ∧
    bb_run bb ops = Ok (os, bb') ∧
    os = fst (spec_run [] ops) ∧
    bb_rep bb' (snd (spec_run [] ops)).
Proof.
  intros Hi Hv Hcap. unfold BUFFER_CHUNK_SIZE in Hcap.
  pose proof (ops_growth_nonneg ops).
  destruct (rep_new initsize) as (bb & E & Hrep & Hc); [done|unfold BUFFER_CHUNK_SIZE; lia|].
  destruct (bb_run_refines bb [] ops Hrep Hv) as ([os bb'] & E' & Hos & Hrep').
  { unfold BUFFER_CHUNK_SIZE in Hc; lia. }
  by exists bb, os, bb'.
Qed.

Definition demo_ops : list bb_op :=
  [BWrite [x01; x02; x03]; BRead 2; BWrite (replicate 600 x07); BSize; BRead 1000; BSize].

Lemma slam_byte_buffer_refines_queue_witness :
  ∃ bb os bb',
    slam_byte_buffer_new 16 = Ok bb ∧
    bb_run bb demo_ops = Ok (os, bb') ∧
    os = fst (spec_run [] demo_ops) ∧
    bb_rep bb' (snd (spec_run [] demo_ops)).
Proof.
  apply (slam_byte_buffer_refines_queue 16 demo_ops); [lia| |reflexivity].
  repeat constructor; simpl; lia.
Defined.
