(* ===== verification/MessageQueue.v ===== *)
(** * The bounded message queue ([io/slam_message_queue.c])

    A ring of [maxsize] message pointers, one slot of which stays empty.  The
    queue is polymorphic in the pointer type: the ring never looks at the
    messages it holds.  [pop_front] advances [rindex] without wrapping it; the
    theorems say for how long the ring is a bounded FIFO queue and what happens
    at the pop that takes [rindex] to [maxsize]. *)

From S2P Require Import Prelude.

(** ** Data *)
Record slam_message_queue (A : Type) := {
  mq_queue : list (option A);     (* a slot is [None] until it is first written *)
  mq_maxsize : Z;
  mq_rindex : Z;
  mq_windex : Z;
  mq_read_number : Z;
  mq_write_number : Z;
}.
Arguments mq_queue {A} _.
Arguments mq_maxsize {A} _.
Arguments mq_rindex {A} _.
Arguments mq_windex {A} _.
Arguments mq_read_number {A} _.
Arguments mq_write_number {A} _.

Section operations.
Context {A : Type}.
Implicit Types (mq : slam_message_queue A) (message : A).

(** The condition of [ASSERT_QUEUE]; [>= 0] is vacuous on unsigned indices. *)
Definition queue_assertion mq : bool :=
  (mq_rindex mq <? mq_maxsize mq) && (mq_windex mq <? mq_maxsize mq).

Definition slam_message_queue_new (maxsize : Z) : outcome (slam_message_queue A) :=
  ASSERT maxsize >? 0 ;;
  Ok {| mq_queue := replicate (Z.to_nat maxsize) None;
        mq_maxsize := maxsize;
        mq_rindex := 0; mq_windex := 0;
        mq_read_number := 0; mq_write_number := 0 |}.

(** [uint32_t newindex = (mq->windex + 1) % mq->maxsize;] *)
Definition next_windex mq : Z := u32 (u32 (mq_windex mq + 1) mod mq_maxsize mq).

Definition slam_message_queue_push_back mq message
    : outcome (bool * slam_message_queue A) :=
  ASSERT queue_assertion mq ;;
  let newindex := next_windex mq in
  if newindex =? mq_rindex mq then Ok (false, mq)
  else
    DEREF _slot := mq_queue mq !! Z.to_nat (mq_windex mq) ;;
    Ok (true,
      {| mq_queue := <[Z.to_nat (mq_windex mq) := Some message]> (mq_queue mq);
         mq_maxsize := mq_maxsize mq;
         mq_rindex := mq_rindex mq; mq_windex := newindex;
         mq_read_number := mq_read_number mq;
         mq_write_number := u32 (mq_write_number mq + 1) |}).

Definition slam_message_queue_empty mq : outcome bool :=
  ASSERT queue_assertion mq ;;
  Ok (mq_rindex mq =? mq_windex mq).

(** A slot that was never written is indeterminate: reading it is undefined. *)
Definition queue_slot mq (i : Z) : outcome A :=
  DEREF slot := mq_queue mq !! Z.to_nat i ;;
  DEREF message := slot ;;
  Ok message.

Definition slam_message_queue_pop_front mq
    : outcome (option A * slam_message_queue A) :=
  ASSERT queue_assertion mq ;;
  if mq_rindex mq =? mq_windex mq then Ok (None, mq)
  else
    message ← queue_slot mq (mq_rindex mq);
    Ok (Some message,
      {| mq_queue := mq_queue mq;
         mq_maxsize := mq_maxsize mq;
         mq_rindex := u32 (mq_rindex mq + 1); mq_windex := mq_windex mq;
         mq_read_number := u32 (mq_read_number mq + 1);
         mq_write_number := mq_write_number mq |}).

Definition slam_message_queue_front mq : outcome (option A) :=
  ASSERT queue_assertion mq ;;
  if mq_rindex mq =? mq_windex mq then Ok None
  else
    message ← queue_slot mq (mq_rindex mq);
    Ok (Some message).

Definition slam_message_queue_number mq : outcome Z :=
  ASSERT queue_assertion mq ;;
  ASSERT mq_write_number mq >=? mq_read_number mq ;;
  Ok (u32 (mq_write_number mq - mq_read_number mq)).

(** [slam_message_queue_delete] pops until the queue is empty; it returns the
    messages it handed to [slam_message_delete], in order. *)
Fixpoint slam_message_queue_delete (fuel : nat) mq : outcome (list A) :=
  match fuel with
  | O => NoFuel
  | S fuel =>
      empty ← slam_message_queue_empty mq;
      if (empty : bool) then Ok []
      else
        '(message, mq) ← slam_message_queue_pop_front mq;
        DEREF m := message ;;
        freed ← slam_message_queue_delete fuel mq;
        Ok (m :: freed)
  end.
End operations.

(** ** Specification: a bounded FIFO queue *)
Inductive mq_op (A : Type) :=
  | QPush (message : A)
  | QPop
  | QFront
  | QEmpty
  | QNumber.
Arguments QPush {A} message.
Arguments QPop {A}.
Arguments QFront {A}.
Arguments QEmpty {A}.
Arguments QNumber {A}.

Inductive mq_out (A : Type) :=
  | RBool (b : bool)
  | RMessage (m : option A)
  | RNumber (n : Z).
Arguments RBool {A} b.
Arguments RMessage {A} m.
Arguments RNumber {A} n.

Section specification.
Context {A : Type}.
Implicit Types (mq : slam_message_queue A) (q : list A).

Definition mq_step mq (op : mq_op A) : outcome (mq_out A * slam_message_queue A) :=
  match op with
  | QPush m => '(b, mq) ← slam_message_queue_push_back mq m; Ok (RBool b, mq)
  | QPop => '(m, mq) ← slam_message_queue_pop_front mq; Ok (RMessage m, mq)
  | QFront => m ← slam_message_queue_front mq; Ok (RMessage m, mq)
  | QEmpty => b ← slam_message_queue_empty mq; Ok (RBool b, mq)
  | QNumber => n ← slam_message_queue_number mq; Ok (RNumber n, mq)
  end.

Fixpoint mq_run mq (ops : list (mq_op A))
    : outcome (list (mq_out A) * slam_message_queue A) :=
  match ops with
  | [] => Ok ([], mq)
  | op :: ops =>
      '(o, mq) ← mq_step mq op;
      '(os, mq) ← mq_run mq ops;
      Ok (o :: os, mq)
  end.

(** The list [q] holds at most [cap] messages, oldest first. *)
Definition fifo_step (cap : Z) q (op : mq_op A) : mq_out A * list A :=
  match op with
  | QPush m => if len q <? cap then (RBool true, q ++ [m]) else (RBool false, q)
  | QPop => match q with [] => (RMessage None, []) | m :: q => (RMessage (Some m), q) end
  | QFront => (RMessage (head q), q)
  | QEmpty => (RBool (bool_decide (q = [])), q)
  | QNumber => (RNumber (len q), q)
  end.

Fixpoint fifo_run (cap : Z) q (ops : list (mq_op A)) : list (mq_out A) * list A :=
  match ops with
  | [] => ([], q)
  | op :: ops =>
      let '(o, q) := fifo_step cap q op in
      let '(os, q) := fifo_run cap q ops in
      (o :: os, q)
  end.

(** The pops of the specification run that return a message. *)
Fixpoint fifo_pops (cap : Z) q (ops : list (mq_op A)) : Z :=
  match ops with
  | [] => 0
  | op :: ops =>
      (match op, q with QPop, _ :: _ => 1 | _, _ => 0 end)
      + fifo_pops cap (snd (fifo_step cap q op)) ops
  end.

(** Slot [i] of the queue contents lives at [(rindex + i) mod maxsize]. *)
Record mq_rep mq q : Prop := {
  rep_maxsize : 0 < mq_maxsize mq <= 2 ^ 31;
  rep_length : len (mq_queue mq) = mq_maxsize mq;
  rep_rindex : 0 <= mq_rindex mq < mq_maxsize mq;
  rep_room : len q < mq_maxsize mq;
  rep_windex : mq_windex mq = (mq_rindex mq + len q) mod mq_maxsize mq;
  rep_slots : ∀ i m, q !! i = Some m →
    mq_queue mq !! Z.to_nat ((mq_rindex mq + Z.of_nat i) mod mq_maxsize mq)
      = Some (Some m);
  rep_read : mq_read_number mq = mq_rindex mq;
  rep_written : mq_write_number mq = mq_rindex mq + len q;
}.

(** The ring after the pop that ran [rindex] off the end. *)
Definition mq_stuck mq : Prop := mq_rindex mq = mq_maxsize mq.
End specification.

(** ** Proofs *)
Section proofs.
Context {A : Type}.
Implicit Types (mq : slam_message_queue A) (q : list A).

Lemma mod_succ_shift a m : 0 < m → 0 <= a → ((a mod m) + 1) mod m = (a + 1) mod m.
Proof. intros. by rewrite Zplus_mod_idemp_l. Qed.

Lemma mod_neq_shift r i j m :
  0 <= i < m → 0 <= j < m → i ≠ j → (r + i) mod m ≠ (r + j) mod m.
Proof.
  intros Hi Hj Hne E. apply Hne.
  rewrite <- (Z.mod_small i m), <- (Z.mod_small j m) by lia.
  replace i with ((r + i) - r) by lia. replace j with ((r + j) - r) by lia.
  by rewrite <- (Zminus_mod_idemp_l (r + i)), <- (Zminus_mod_idemp_l (r + j)), E.
Qed.

Lemma rep_windex_range mq q : mq_rep mq q → 0 <= mq_windex mq < mq_maxsize mq.
Proof. intros [? ? ? ? Hw ? ? ?]. rewrite Hw. apply Z.mod_pos_bound. lia. Qed.

Lemma rep_assertion mq q : mq_rep mq q → queue_assertion mq = true.
Proof.
  intros H. pose proof (rep_windex_range _ _ H). destruct H.
  apply andb_true_iff. rewrite !Z.ltb_lt. lia.
Qed.

Lemma rep_empty_iff mq q : mq_rep mq q → mq_rindex mq = mq_windex mq ↔ q = [].
Proof.
  intros [Hm Hl Hr Hroom Hw _ _ _]. split; [intros E|intros ->].
  - destruct q as [|m q]; [done|exfalso].
    pose proof (len_nonneg q). rewrite len_cons in *.
    apply (mod_neq_shift (mq_rindex mq) 0 (1 + len q) (mq_maxsize mq)); [lia..|].
    rewrite <- Hw, Z.add_0_r, Z.mod_small by lia. done.
  - rewrite Hw, len_nil, Z.add_0_r, Z.mod_small by lia. done.
Qed.

Lemma next_windex_rep mq q :
  mq_rep mq q → next_windex mq = (mq_rindex mq + len q + 1) mod mq_maxsize mq.
Proof.
  intros H. pose proof (rep_windex_range _ _ H). destruct H as [Hm _ Hr _ Hw _ _ _].
  pose proof (len_nonneg q). unfold next_windex. rewrite (u32_id (_ + 1)) by lia.
  pose proof (Z.mod_pos_bound (mq_windex mq + 1) (mq_maxsize mq)).
  rewrite u32_id by lia. rewrite Hw. apply mod_succ_shift; lia.
Qed.

Lemma rep_full_iff mq q :
  mq_rep mq q → next_windex mq = mq_rindex mq ↔ len q = mq_maxsize mq - 1.
Proof.
  intros H. rewrite (next_windex_rep _ _ H). destruct H as [Hm _ Hr Hroom _ _ _ _].
  pose proof (len_nonneg q). split.
  - intros E. destruct (decide (len q = mq_maxsize mq - 1)) as [|Hne]; [done|exfalso].
    apply (mod_neq_shift (mq_rindex mq) 0 (len q + 1) (mq_maxsize mq)); [lia..|].
    rewrite Z.add_assoc, E, Z.add_0_r. apply Z.mod_small. lia.
  - intros ->. replace (mq_rindex mq + _ + 1) with (mq_rindex mq + 1 * mq_maxsize mq) by lia.
    rewrite Z_mod_plus_full. apply Z.mod_small. lia.
Qed.

Lemma new_rep maxsize :
  0 < maxsize <= 2 ^ 31 →
  returns (slam_message_queue_new maxsize) (λ mq,
    mq_rep mq [] ∧ mq_maxsize mq = maxsize ∧ mq_rindex mq = 0).
Proof.
  intros H. unfold slam_message_queue_new. zcase; [|lia]. apply returns_ok.
  split_and!; [|done|done]. split; simpl; try done; try lia; try len.
Qed.

(** A ring stands for one queue. *)
Lemma rep_unique mq q q' : mq_rep mq q → mq_rep mq q' → q = q'.
Proof.
  intros H H'. pose proof (rep_written _ _ H). pose proof (rep_written _ _ H').
  apply list_eq_same_length with (length q); [unfold len in *; lia|unfold len in *; lia|].
  intros i x y _ Hx%(rep_slots _ _ H) Hy%(rep_slots _ _ H'). congruence.
Qed.

Lemma push_rep mq q m :
  mq_rep mq q →
  returns (slam_message_queue_push_back mq m) (λ '(b, mq'),
    b = (len q <? mq_maxsize mq - 1) ∧
    mq_rep mq' (if b then q ++ [m] else q) ∧
    mq_maxsize mq' = mq_maxsize mq ∧ mq_rindex mq' = mq_rindex mq).
Proof.
  intros H. unfold slam_message_queue_push_back.
  rewrite (rep_assertion _ _ H). pose proof (rep_full_iff _ _ H) as Hfull.
  pose proof (next_windex_rep _ _ H) as Hnext. pose proof (rep_windex_range _ _ H).
  pose proof (len_nonneg q).
  pose proof H as [Hm Hl Hr Hroom Hw Hs Hrn Hwn].
  destruct (Z.eqb_spec (next_windex mq) (mq_rindex mq)) as [E|Hne].
  { apply returns_ok. apply Hfull in E.
    split_and!; try done; destruct (Z.ltb_spec (len q) (mq_maxsize mq - 1)); [lia|done]. }
  assert (len q < mq_maxsize mq - 1) by (rewrite Hfull in Hne; lia).
  destruct (lookup_lt_is_Some_2 (mq_queue mq) (Z.to_nat (mq_windex mq))) as [s ->]; [len|].
  apply returns_ok. split_and!; [by symmetry; apply Z.ltb_lt| |done|done].
  split; simpl; rewrite ?len_insert, ?len_app, ?len_cons, ?len_nil; try lia.
  - rewrite Hnext. f_equal. lia.
  - intros i m' Hi. apply lookup_snoc_Some in Hi as [[Hi Hq]|[-> ->]].
    + rewrite list_lookup_insert_ne; [by apply Hs|].
      rewrite Hw. pose proof (mod_neq_shift (mq_rindex mq) (len q) (Z.of_nat i) (mq_maxsize mq)) as Hd.
      pose proof (Z.mod_pos_bound (mq_rindex mq + len q) (mq_maxsize mq)).
      pose proof (Z.mod_pos_bound (mq_rindex mq + Z.of_nat i) (mq_maxsize mq)).
      unfold len in *. lia.
    + fold (len q). rewrite <- Hw. apply list_lookup_insert_eq. len.
  - rewrite u32_id by lia. lia.
Qed.

Lemma slot_rep mq m q :
  mq_rep mq (m :: q) → queue_slot mq (mq_rindex mq) = Ok m.
Proof.
  intros [Hm Hl Hr Hroom Hw Hs _ _]. unfold queue_slot.
  specialize (Hs 0%nat m eq_refl). rewrite Z.add_0_r, Z.mod_small in Hs by lia.
  by rewrite Hs.
Qed.

Lemma front_rep mq q :
  mq_rep mq q → slam_message_queue_front mq = Ok (head q).
Proof.
  intros H. unfold slam_message_queue_front. rewrite (rep_assertion _ _ H).
  pose proof (rep_empty_iff _ _ H) as He.
  destruct (Z.eqb_spec (mq_rindex mq) (mq_windex mq)) as [E|E].
  - apply He in E as ->. done.
  - destruct q as [|m q]; [by rewrite He in E|]. by rewrite (slot_rep _ _ _ H).
Qed.

Lemma empty_rep mq q :
  mq_rep mq q → slam_message_queue_empty mq = Ok (bool_decide (q = [])).
Proof.
  intros H. unfold slam_message_queue_empty. rewrite (rep_assertion _ _ H).
  pose proof (rep_empty_iff _ _ H) as He. f_equal.
  destruct (Z.eqb_spec (mq_rindex mq) (mq_windex mq)) as [E|E]; rewrite He in E;
    symmetry; [by apply bool_decide_eq_true|by apply bool_decide_eq_false].
Qed.

Lemma number_rep mq q :
  mq_rep mq q → slam_message_queue_number mq = Ok (len q).
Proof.
  intros H. unfold slam_message_queue_number. rewrite (rep_assertion _ _ H).
  pose proof (len_nonneg q). destruct H as [Hm _ Hr Hroom _ _ Hrn Hwn].
  zcase; [|lia]. rewrite u32_id by lia. f_equal. lia.
Qed.

(** A pop of a nonempty queue: the head comes out; the ring is again a queue
    unless [rindex] has reached [maxsize]. *)
Lemma pop_rep mq m q :
  mq_rep mq (m :: q) →
  ∃ mq', slam_message_queue_pop_front mq = Ok (Some m, mq') ∧
    mq_maxsize mq' = mq_maxsize mq ∧ mq_rindex mq' = mq_rindex mq + 1 ∧
    (mq_rindex mq + 1 < mq_maxsize mq → mq_rep mq' q).
Proof.
  intros H. unfold slam_message_queue_pop_front. rewrite (rep_assertion _ _ H).
  pose proof (rep_empty_iff _ _ H) as He.
  destruct (Z.eqb_spec (mq_rindex mq) (mq_windex mq)) as [E|_]; [by apply He in E|].
  rewrite (slot_rep _ _ _ H), bind_ok.
  destruct H as [Hm Hl Hr Hroom Hw Hs Hrn Hwn]. pose proof (len_nonneg q).
  rewrite len_cons in *. eexists. split; [done|]. simpl.
  rewrite !u32_id by lia. split_and!; [done|done|]. intros Hlt.
  split; simpl; try done; try lia.
  - rewrite Hw. f_equal. lia.
  - intros i m' Hi.
    replace (mq_rindex mq + 1 + Z.of_nat i) with (mq_rindex mq + Z.of_nat (S i)) by lia.
    by apply Hs.
Qed.

Lemma pop_empty_rep mq :
  mq_rep mq [] → slam_message_queue_pop_front mq = Ok (None, mq).
Proof.
  intros H. unfold slam_message_queue_pop_front. rewrite (rep_assertion _ _ H).
  rewrite (proj2 (rep_empty_iff _ _ H) eq_refl). by rewrite Z.eqb_refl.
Qed.

Lemma stuck_assertion mq : mq_stuck mq → queue_assertion mq = false.
Proof. unfold mq_stuck, queue_assertion. intros ->. by rewrite Z.ltb_irrefl. Qed.

Lemma stuck_step mq op : mq_stuck mq → mq_step mq op = AssertFail.
Proof.
  intros H%stuck_assertion.
  destruct op; simpl;
    unfold slam_message_queue_push_back, slam_message_queue_pop_front,
      slam_message_queue_front, slam_message_queue_empty, slam_message_queue_number;
    by rewrite H.
Qed.

(** One operation on a well-formed ring, up to the pop that exhausts it. *)
Lemma mq_step_refines mq q op :
  mq_rep mq q →
  let '(o, q') := fifo_step (mq_maxsize mq - 1) q op in
  ∃ mq', mq_step mq op = Ok (o, mq') ∧ mq_maxsize mq' = mq_maxsize mq ∧
    mq_rindex mq' = mq_rindex mq + (match op, q with QPop, _ :: _ => 1 | _, _ => 0 end) ∧
    (mq_rindex mq' < mq_maxsize mq → mq_rep mq' q').
Proof.
  intros H. destruct op as [m| | | |]; simpl.
  - destruct (push_rep mq q m H) as ([b mq'] & -> & Hb & Hrep & Hmax & Hr).
    rewrite bind_ok. rewrite Hb in *. rewrite Z.add_0_r.
    destruct (len q <? _); eauto.
  - destruct q as [|m q].
    + rewrite (pop_empty_rep _ H), bind_ok, Z.add_0_r. eauto.
    + destruct (pop_rep _ _ _ H) as (mq' & -> & Hmax & Hr & Hrep). rewrite bind_ok.
      exists mq'. rewrite Hr. auto.
  - rewrite (front_rep _ _ H), bind_ok, Z.add_0_r. eauto.
  - rewrite (empty_rep _ _ H), bind_ok, Z.add_0_r. eauto.
  - rewrite (number_rep _ _ H), bind_ok, Z.add_0_r. eauto.
Qed.

Lemma fifo_pops_nonneg cap q (ops : list (mq_op A)) : 0 <= fifo_pops cap q ops.
Proof.
  revert q. induction ops as [|op ops IH]; intros q; simpl; [done|].
  specialize (IH (fifo_step cap q op).2). destruct op, q; lia.
Qed.

Lemma mq_run_refines mq q ops :
  mq_rep mq q →
  mq_rindex mq + fifo_pops (mq_maxsize mq - 1) q ops < mq_maxsize mq →
  let '(os, q') := fifo_run (mq_maxsize mq - 1) q ops in
  ∃ mq', mq_run mq ops = Ok (os, mq') ∧ mq_rep mq' q'.
Proof.
  revert mq q. induction ops as [|op ops IH]; intros mq q H Hlt;
    cbn [fifo_run fifo_pops mq_run] in *; [eauto|].
  pose proof (mq_step_refines mq q op H) as Hstep.
  pose proof (fifo_pops_nonneg (mq_maxsize mq - 1) (fifo_step (mq_maxsize mq - 1) q op).2 ops).
  destruct (fifo_step _ q op) as [o q1]; simpl in *.
  destruct Hstep as (mq1 & -> & Hmax & Hr & Hrep). rewrite bind_ok.
  specialize (IH mq1 q1). rewrite Hmax in IH. specialize (IH ltac:(apply Hrep; lia) ltac:(lia)).
  destruct (fifo_run _ q1 ops) as [os q2]. destruct IH as (mq2 & -> & Hrep2).
  rewrite bind_ok. eauto.
Qed.

Lemma mq_run_exhausts mq q ops :
  mq_rep mq q →
  ∀ ops1 op ops2, ops = ops1 ++ op :: ops2 →
  mq_rindex mq + fifo_pops (mq_maxsize mq - 1) q ops1 = mq_maxsize mq →
  mq_run mq ops = AssertFail.
Proof.
  revert mq q. induction ops as [|op' ops IH]; intros mq q H [|o1 ops1] op ops2 Hops Hpops;
    simplify_eq/=.
  - destruct H. lia.
  - pose proof (mq_step_refines mq q o1 H) as Hstep.
    pose proof (fifo_pops_nonneg (mq_maxsize mq - 1) (fifo_step (mq_maxsize mq - 1) q o1).2 ops1).
    destruct (fifo_step _ q o1) as [o q1]; simpl in *.
    destruct Hstep as (mq1 & -> & Hmax & Hr & Hrep). rewrite bind_ok.
    destruct (decide (mq_rindex mq1 < mq_maxsize mq)) as [Hlt|Hge].
    + rewrite (IH mq1 q1 (Hrep Hlt) ops1 op ops2 eq_refl); [done|]. rewrite Hmax. lia.
    + assert (mq_stuck mq1) as Hstuck by (unfold mq_stuck; lia).
      destruct ops1 as [|o2 ops1]; simpl; by rewrite (stuck_step _ _ Hstuck).
Qed.

(** Deleting a ring whose contents do not reach its last slot frees every
    queued message once, in order. *)
Lemma delete_rep fuel mq q :
  mq_rep mq q → mq_rindex mq + len q < mq_maxsize mq → len q < Z.of_nat fuel →
  slam_message_queue_delete fuel mq = Ok q.
Proof.
  revert mq q. induction fuel as [|fuel IH]; intros mq q H Hlt Hf;
    [pose proof (len_nonneg q); lia|]. simpl.
  rewrite (empty_rep _ _ H), bind_ok. destruct q as [|m q]; simpl; [done|].
  destruct (pop_rep _ _ _ H) as (mq' & -> & Hmax & Hr & Hrep). rewrite bind_ok.
  rewrite len_cons in *. pose proof (len_nonneg q).
  rewrite (IH mq' q); [done|apply Hrep; lia|lia|lia].
Qed.

(** Deleting a ring that holds its last slot aborts. *)
Lemma delete_aborts fuel mq q :
  mq_rep mq q → mq_maxsize mq <= mq_rindex mq + len q → len q < Z.of_nat fuel →
  slam_message_queue_delete fuel mq = AssertFail.
Proof.
  revert mq q. induction fuel as [|fuel IH]; intros mq q H Hge Hf;
    [pose proof (len_nonneg q); lia|]. simpl.
  rewrite (empty_rep _ _ H), bind_ok.
  destruct q as [|m q]; simpl; [destruct H; rewrite len_nil in *; lia|].
  destruct (pop_rep _ _ _ H) as (mq' & -> & Hmax & Hr & Hrep). rewrite bind_ok.
  rewrite len_cons in *. pose proof (len_nonneg q).
  destruct (decide (mq_rindex mq + 1 < mq_maxsize mq)) as [Hlt|Hout].
  - rewrite (IH mq' q); [done|auto|lia|lia].
  - destruct fuel as [|fuel]; [lia|]. simpl. unfold slam_message_queue_empty.
    rewrite stuck_assertion; [done|]. unfold mq_stuck. destruct H. lia.
Qed.
End proofs.

(** Claim C9. From its creation and for as long as fewer than [maxsize] messages
    have been popped, the ring is a FIFO queue of capacity [maxsize - 1]: every
    sequence of pushes, pops, fronts, emptiness tests and counts returns, with
    the results of the list specification (a push on a full queue returns
    [false] and changes nothing), whatever wrapping [windex] does. *)
Theorem slam_message_queue_bounded_fifo {A} (maxsize : Z) (ops : list (mq_op A)) :
  0 < maxsize <= 2 ^ 31 →
  fifo_pops (maxsize - 1) [] ops < maxsize →
  ∃ mq os mq',
    slam_message_queue_new maxsize = Ok mq ∧
    mq_run mq ops = Ok (os, mq') ∧
    os = fst (fifo_run (maxsize - 1) [] ops) ∧
    mq_rep mq' (snd (fifo_run (maxsize - 1) [] ops)).
Proof.
  intros Hm Hpops. destruct (new_rep (A := A) maxsize Hm) as (mq & E & Hrep & Hmax & Hr).
  pose proof (mq_run_refines mq [] ops Hrep) as Hrun. rewrite Hmax, Hr in Hrun.
  specialize (Hrun ltac:(lia)). destruct (fifo_run _ [] ops) as [os q].
  destruct Hrun as (mq' & E' & Hrep'). by exists mq, os, mq'.
Qed.

Definition demo_queue_ops : list (mq_op nat) :=
  [QPush 1%nat; QPush 2%nat; QPush 3%nat; QPop; QPush 3%nat; QNumber; QPop; QFront; QEmpty].

Lemma slam_message_queue_bounded_fifo_witness :
  ∃ mq os mq',
    slam_message_queue_new 3 = Ok mq ∧
    mq_run mq demo_queue_ops = Ok (os, mq') ∧
    os = fst (fifo_run (3 - 1) [] demo_queue_ops) ∧
    mq_rep mq' (snd (fifo_run (3 - 1) [] demo_queue_ops)).
Proof. apply (slam_message_queue_bounded_fifo 3 demo_queue_ops); [lia|reflexivity]. Defined.

(** Claim C28. The ring is used up by its [maxsize]-th pop: [pop_front] moves
    [rindex] to [maxsize] without wrapping it, so that whatever operation comes
    next (a push, a pop, even the emptiness test of the next polling round)
    fails [ASSERT_QUEUE] and aborts the process. *)
Theorem slam_message_queue_exhausted_by_pops {A} (maxsize : Z)
    (ops1 : list (mq_op A)) (op : mq_op A) (ops2 : list (mq_op A)) :
  0 < maxsize <= 2 ^ 31 →
  fifo_pops (maxsize - 1) [] ops1 = maxsize →
  ∃ mq,
    slam_message_queue_new maxsize = Ok mq ∧
    mq_run mq (ops1 ++ op :: ops2) = AssertFail.
Proof.
  intros Hm Hpops. destruct (new_rep (A := A) maxsize Hm) as (mq & E & Hrep & Hmax & Hr).
  exists mq. split; [done|].
  apply (mq_run_exhausts mq [] _ Hrep ops1 op ops2 eq_refl). rewrite Hmax, Hr. lia.
Qed.

Lemma slam_message_queue_exhausted_by_pops_witness :
  ∃ mq,
    slam_message_queue_new 2 = Ok mq ∧
    mq_run mq ([QPush 1%nat; QPop; QPush 2%nat; QPop] ++ QEmpty :: []) = AssertFail.
Proof. apply (slam_message_queue_exhausted_by_pops 2); [lia|reflexivity]. Defined.

(** [slam_message_queue_delete] frees every queued message exactly
    once, oldest first, when the queued messages end before the last slot of
    the ring; when the contents include the last slot (which every queue that
    has wrapped does) its own loop runs [rindex] to [maxsize] and aborts. *)
Lemma slam_message_queue_delete_outcome {A} (fuel : nat)
    (mq : slam_message_queue A) (q : list A) :
  mq_rep mq q →
  len q < Z.of_nat fuel →
  slam_message_queue_delete fuel mq =
    if mq_rindex mq + len q <? mq_maxsize mq then Ok q else AssertFail.
Proof.
  intros H Hf. zcase; [by apply delete_rep|by apply delete_aborts with q].
Qed.

Definition demo_wrapped_queue : slam_message_queue nat :=
  {| mq_queue := [Some 3%nat; Some 1%nat; Some 2%nat]; mq_maxsize := 3;
     mq_rindex := 2; mq_windex := 1; mq_read_number := 2; mq_write_number := 4 |}.

Lemma slam_message_queue_delete_outcome_witness :
  mq_rep demo_wrapped_queue [2%nat; 3%nat] ∧
  slam_message_queue_delete 5 demo_wrapped_queue = AssertFail.
Proof.
  assert (H : mq_rep demo_wrapped_queue [2%nat; 3%nat]).
  { split; try (vm_compute; done); [vm_compute; split; done..|].
    intros [|[|i]] m Hi; simplify_eq/=; reflexivity. }
  split; [exact H|].
  exact (slam_message_queue_delete_outcome 5 demo_wrapped_queue _ H eq_refl).
Defined.
