(* ===== verification/QueueThreads.v ===== *)
(** * The message queue between two threads ([io/slam_message_queue.c])

    The global queue has one producer (the io thread) and one consumer (the
    worker), and no lock.  This file interleaves [push_back] with [empty] and
    [pop_front] one memory access at a time, on sequentially consistent memory,
    and relates every reachable state to the sequential queue of
    [MessageQueue.v]. *)

From S2P Require Import Prelude MessageQueue.

Section threads.
Context {A : Type}.

(** ** Program counters

    Each constructor stands before one access to the shared fields. *)
Inductive producer_pc :=
  | PIdle
  | PAssertR (m : A)               (* assert(mq->rindex < mq->maxsize) *)
  | PAssertW (m : A)               (* assert(mq->windex < mq->maxsize) *)
  | PIndex (m : A)                 (* newindex = (mq->windex + 1) % mq->maxsize *)
  | PCompare (m : A) (newindex : Z)  (* newindex != mq->rindex *)
  | PStore (m : A) (newindex : Z)  (* mq->queue[mq->windex] = message *)
  | PPublish (m : A) (newindex : Z)  (* mq->windex = newindex *)
  | PCount.                        (* ++ mq->write_number *)

Inductive consumer_call := CEmpty | CPop.

Inductive consumer_pc :=
  | CIdle
  | CAssertR (call : consumer_call)  (* assert(mq->rindex < mq->maxsize) *)
  | CAssertW (call : consumer_call)  (* assert(mq->windex < mq->maxsize) *)
  | CTest (call : consumer_call)   (* mq->rindex == mq->windex *)
  | CCount                         (* ++ mq->read_number *)
  | CIndex                         (* the value of mq->rindex in queue[rindex++] *)
  | CLoadFirst (i : Z)             (* load queue[i], before the increment *)
  | CAdvance (i : Z) (m : A)       (* store rindex = i + 1, then return m *)
  | CStoreFirst (i : Z)            (* store rindex = i + 1, before the load *)
  | CLoadLast (i : Z).             (* load queue[i], then return it *)

Inductive status := Running | Aborted | Faulted.

(** [c_pushed] and [c_delivered] record the messages whose [push_back] has
    published them and the messages [pop_front] has returned. *)
Record conf := {
  c_mq : slam_message_queue A;
  c_producer : producer_pc;
  c_consumer : consumer_pc;
  c_pushed : list A;
  c_delivered : list A;
  c_status : status;
}.

Definition set_producer (pc : producer_pc) (c : conf) : conf :=
  {| c_mq := c_mq c; c_producer := pc; c_consumer := c_consumer c;
     c_pushed := c_pushed c; c_delivered := c_delivered c; c_status := c_status c |}.

Definition set_consumer (pc : consumer_pc) (c : conf) : conf :=
  {| c_mq := c_mq c; c_producer := c_producer c; c_consumer := pc;
     c_pushed := c_pushed c; c_delivered := c_delivered c; c_status := c_status c |}.

Definition set_mq (mq : slam_message_queue A) (c : conf) : conf :=
  {| c_mq := mq; c_producer := c_producer c; c_consumer := c_consumer c;
     c_pushed := c_pushed c; c_delivered := c_delivered c; c_status := c_status c |}.

Definition set_status (s : status) (c : conf) : conf :=
  {| c_mq := c_mq c; c_producer := c_producer c; c_consumer := c_consumer c;
     c_pushed := c_pushed c; c_delivered := c_delivered c; c_status := s |}.

Definition publish (m : A) (c : conf) : conf :=
  {| c_mq := c_mq c; c_producer := c_producer c; c_consumer := c_consumer c;
     c_pushed := c_pushed c ++ [m]; c_delivered := c_delivered c; c_status := c_status c |}.

Definition deliver (m : A) (c : conf) : conf :=
  {| c_mq := c_mq c; c_producer := c_producer c; c_consumer := c_consumer c;
     c_pushed := c_pushed c; c_delivered := c_delivered c ++ [m]; c_status := c_status c |}.

(** Writes to single fields of the shared queue. *)
Definition store_slot (i : Z) (m : A) (mq : slam_message_queue A) : slam_message_queue A :=
  {| mq_queue := <[Z.to_nat i := Some m]> (mq_queue mq); mq_maxsize := mq_maxsize mq;
     mq_rindex := mq_rindex mq; mq_windex := mq_windex mq;
     mq_read_number := mq_read_number mq; mq_write_number := mq_write_number mq |}.

Definition store_windex (i : Z) (mq : slam_message_queue A) : slam_message_queue A :=
  {| mq_queue := mq_queue mq; mq_maxsize := mq_maxsize mq;
     mq_rindex := mq_rindex mq; mq_windex := i;
     mq_read_number := mq_read_number mq; mq_write_number := mq_write_number mq |}.

Definition store_rindex (i : Z) (mq : slam_message_queue A) : slam_message_queue A :=
  {| mq_queue := mq_queue mq; mq_maxsize := mq_maxsize mq;
     mq_rindex := i; mq_windex := mq_windex mq;
     mq_read_number := mq_read_number mq; mq_write_number := mq_write_number mq |}.

Definition store_read_number (n : Z) (mq : slam_message_queue A) : slam_message_queue A :=
  {| mq_queue := mq_queue mq; mq_maxsize := mq_maxsize mq;
     mq_rindex := mq_rindex mq; mq_windex := mq_windex mq;
     mq_read_number := n; mq_write_number := mq_write_number mq |}.

Definition store_write_number (n : Z) (mq : slam_message_queue A) : slam_message_queue A :=
  {| mq_queue := mq_queue mq; mq_maxsize := mq_maxsize mq;
     mq_rindex := mq_rindex mq; mq_windex := mq_windex mq;
     mq_read_number := mq_read_number mq; mq_write_number := n |}.

(** One access of the producer; [m] is the next message it pushes. *)
Definition producer_step (m : A) (c : conf) : conf :=
  let mq := c_mq c in
  match c_producer c with
  | PIdle => set_producer (PAssertR m) c
  | PAssertR m =>
      if mq_rindex mq <? mq_maxsize mq then set_producer (PAssertW m) c
      else set_status Aborted c
  | PAssertW m =>
      if mq_windex mq <? mq_maxsize mq then set_producer (PIndex m) c
      else set_status Aborted c
  | PIndex m => set_producer (PCompare m (next_windex mq)) c
  | PCompare m newindex =>
      if newindex =? mq_rindex mq then set_producer PIdle c   (* "mq is full" *)
      else set_producer (PStore m newindex) c
  | PStore m newindex =>
      set_producer (PPublish m newindex) (set_mq (store_slot (mq_windex mq) m mq) c)
  | PPublish m newindex =>
      set_producer PCount (publish m (set_mq (store_windex newindex mq) c))
  | PCount =>
      set_producer PIdle (set_mq (store_write_number (u32 (mq_write_number mq + 1)) mq) c)
  end.

(** One access of the consumer; [call] is the function it calls next and
    [store_first] the order the compiler gave to the two effects of
    [queue[rindex++]], which C leaves unsequenced. *)
Definition consumer_step (call : consumer_call) (store_first : bool) (c : conf) : conf :=
  let mq := c_mq c in
  match c_consumer c with
  | CIdle => set_consumer (CAssertR call) c
  | CAssertR call =>
      if mq_rindex mq <? mq_maxsize mq then set_consumer (CAssertW call) c
      else set_status Aborted c
  | CAssertW call =>
      if mq_windex mq <? mq_maxsize mq then set_consumer (CTest call) c
      else set_status Aborted c
  | CTest call =>
      if mq_rindex mq =? mq_windex mq then set_consumer CIdle c   (* empty *)
      else match call with
           | CEmpty => set_consumer CIdle c
           | CPop => set_consumer CCount c
           end
  | CCount =>
      set_consumer CIndex (set_mq (store_read_number (u32 (mq_read_number mq + 1)) mq) c)
  | CIndex =>
      set_consumer (if store_first then CStoreFirst (mq_rindex mq)
                    else CLoadFirst (mq_rindex mq)) c
  | CLoadFirst i =>
      match queue_slot mq i with
      | Ok m => set_consumer (CAdvance i m) c
      | _ => set_status Faulted c
      end
  | CAdvance i m =>
      set_consumer CIdle (deliver m (set_mq (store_rindex (u32 (i + 1)) mq) c))
  | CStoreFirst i => set_consumer (CLoadLast i) (set_mq (store_rindex (u32 (i + 1)) mq) c)
  | CLoadLast i =>
      match queue_slot mq i with
      | Ok m => set_consumer CIdle (deliver m c)
      | _ => set_status Faulted c
      end
  end.

Inductive step : conf → conf → Prop :=
  | step_producer c m : c_status c = Running → step c (producer_step m c)
  | step_consumer c call store_first :
      c_status c = Running → step c (consumer_step call store_first c).

Definition initial (mq : slam_message_queue A) : conf :=
  {| c_mq := mq; c_producer := PIdle; c_consumer := CIdle;
     c_pushed := []; c_delivered := []; c_status := Running |}.

Definition reachable (maxsize : Z) (c : conf) : Prop :=
  ∃ mq, slam_message_queue_new maxsize = Ok mq ∧ rtc step (initial mq) c.

(** Run a schedule: which thread makes the next access. *)
Inductive choice :=
  | Producer (m : A)
  | Consumer (call : consumer_call) (store_first : bool).

Fixpoint run_schedule (sched : list choice) (c : conf) : conf :=
  match sched with
  | [] => c
  | t :: sched =>
      match c_status c with
      | Running =>
          run_schedule sched
            (match t with
             | Producer m => producer_step m c
             | Consumer call store_first => consumer_step call store_first c
             end)
      | _ => c
      end
  end.

(** ** The invariant *)

(** Messages taken off the ring but not yet returned by [pop_front]. *)
Definition in_flight (c : conf) : Z :=
  match c_consumer c with CLoadLast _ => 1 | _ => 0 end.

(** What each program counter of the producer knows: [n] messages are
    published and [r] taken. *)
Definition producer_knows (mq : slam_message_queue A) (pc : producer_pc) (n r : Z) : Prop :=
  let M := mq_maxsize mq in
  match pc with
  | PIdle | PAssertR _ => n - r <= M - 1
  | PAssertW _ | PIndex _ => n - r <= M - 1 ∧ n <= 2 * M - 2
  | PCompare _ newindex =>
      n - r <= M - 1 ∧ n <= 2 * M - 2 ∧ newindex = (n + 1) mod M
  | PStore m newindex => n - r <= M - 2 ∧ newindex = (n + 1) mod M
  | PPublish m newindex =>
      n - r <= M - 2 ∧ newindex = (n + 1) mod M ∧
      mq_queue mq !! Z.to_nat (n mod M) = Some (Some m)
  | PCount => n - r <= M - 1
  end.

Definition consumer_knows (c : conf) (n r : Z) : Prop :=
  match c_consumer c with
  | CIdle | CAssertR _ => True
  | CAssertW _ | CTest _ => r < mq_maxsize (c_mq c)
  | CCount | CIndex => r < mq_maxsize (c_mq c) ∧ r < n
  | CLoadFirst i | CStoreFirst i => i = r ∧ r < mq_maxsize (c_mq c) ∧ r < n
  | CAdvance i m =>
      i = r ∧ r < mq_maxsize (c_mq c) ∧ r < n ∧ c_pushed c !! Z.to_nat r = Some m
  | CLoadLast i =>
      i = r - 1 ∧ 1 <= r ∧
      ∃ m, c_pushed c !! Z.to_nat i = Some m ∧
           mq_queue (c_mq c) !! Z.to_nat i = Some (Some m)
  end.

(** The counters lag while their increments are pending. *)
Definition pending_writes (c : conf) : Z :=
  match c_producer c with PCount => 1 | _ => 0 end.

Definition pending_reads (c : conf) : Z :=
  match c_consumer c with
  | CIndex | CLoadFirst _ | CAdvance _ _ | CStoreFirst _ => 1
  | _ => 0
  end.

Record invariant (maxsize : Z) (c : conf) : Prop := {
  inv_maxsize : mq_maxsize (c_mq c) = maxsize ∧ 0 < maxsize <= 2 ^ 30;
  inv_length : len (mq_queue (c_mq c)) = maxsize;
  inv_rindex : mq_rindex (c_mq c) = len (c_delivered c) + in_flight c;
  inv_taken : mq_rindex (c_mq c) <= maxsize;
  inv_order : mq_rindex (c_mq c) <= len (c_pushed c);
  inv_windex : mq_windex (c_mq c) = len (c_pushed c) mod maxsize;
  inv_prefix : c_delivered c = take (length (c_delivered c)) (c_pushed c);
  inv_ring : ∀ j m, c_pushed c !! j = Some m → mq_rindex (c_mq c) <= Z.of_nat j →
    mq_queue (c_mq c) !! Z.to_nat (Z.of_nat j mod maxsize) = Some (Some m);
  inv_producer :
    producer_knows (c_mq c) (c_producer c) (len (c_pushed c)) (mq_rindex (c_mq c));
  inv_consumer : consumer_knows c (len (c_pushed c)) (mq_rindex (c_mq c));
  inv_written : mq_write_number (c_mq c) = len (c_pushed c) - pending_writes c;
  inv_read : mq_read_number (c_mq c) = mq_rindex (c_mq c) + pending_reads c;
  inv_status : match c_status c with
    | Running => True
    | Aborted => mq_rindex (c_mq c) = maxsize
    | Faulted => False
    end;
}.

(** ** Proofs *)
Lemma invariant_initial maxsize mq :
  0 < maxsize <= 2 ^ 30 → slam_message_queue_new maxsize = Ok mq →
  invariant maxsize (initial mq).
Proof.
  intros HM. unfold slam_message_queue_new. zcase; [|lia]. intros [= <-].
  split; simpl; try done; try lia; try len.
Qed.

Lemma ring_slot_distinct r n j M :
  0 < M → r <= j < n → n - r < M → (n mod M) ≠ (j mod M).
Proof.
  intros HM Hj Hn E. pose proof (mod_neq_shift j 0 (n - j) M) as Hd.
  apply Hd; [lia..|]. rewrite Z.add_0_r. replace (j + (n - j)) with n by lia. done.
Qed.

(** The one-slot gap: a message on the ring, or just taken off it and not yet
    read, is never in the slot the producer writes. *)
Lemma slot_preserved (mq : slam_message_queue A) n r j m0 m M :
  0 < M → r <= Z.of_nat j < n → n - r < M →
  mq_queue mq !! Z.to_nat (Z.of_nat j mod M) = Some (Some m0) →
  <[Z.to_nat (n mod M) := Some m]> (mq_queue mq) !! Z.to_nat (Z.of_nat j mod M)
    = Some (Some m0).
Proof.
  intros HM Hj Hn E. rewrite list_lookup_insert_ne; [done|].
  pose proof (ring_slot_distinct r n (Z.of_nat j) M HM Hj Hn).
  pose proof (Z.mod_pos_bound n M HM). pose proof (Z.mod_pos_bound (Z.of_nat j) M HM). lia.
Qed.

Lemma compare_bound n r M :
  0 < M → 0 <= r <= M → r <= n → n - r <= M - 1 → n <= 2 * M - 2 →
  (n + 1) mod M ≠ r → n - r <= M - 2.
Proof.
  intros HM Hr Hn Hb Hb2 Hne.
  destruct (decide (n - r = M - 1)) as [E|]; [exfalso|lia]. apply Hne.
  replace (n + 1) with (r + 1 * M) by lia. rewrite Z_mod_plus_full.
  apply Z.mod_small. lia.
Qed.

Lemma next_windex_mod (mq : slam_message_queue A) n :
  0 < mq_maxsize mq <= 2 ^ 30 → 0 <= n → mq_windex mq = n mod mq_maxsize mq →
  next_windex mq = (n + 1) mod mq_maxsize mq.
Proof.
  intros HM Hn Hw. unfold next_windex.
  pose proof (Z.mod_pos_bound n (mq_maxsize mq)). rewrite (u32_id (_ + 1)) by lia.
  pose proof (Z.mod_pos_bound (mq_windex mq + 1) (mq_maxsize mq)).
  rewrite u32_id by lia. rewrite Hw. apply mod_succ_shift; lia.
Qed.

Lemma in_flight_range c : 0 <= in_flight c <= 1.
Proof. unfold in_flight. destruct (c_consumer c); lia. Qed.

Lemma rindex_nonneg M c : invariant M c → 0 <= mq_rindex (c_mq c).
Proof.
  intros []. pose proof (len_nonneg (c_delivered c)). pose proof (in_flight_range c). lia.
Qed.

(** Re-establish the fields a step does not touch. *)
Ltac keep H Epc :=
  destruct H; split; simpl in *; auto;
  unfold pending_writes, pending_reads, in_flight, consumer_knows in *;
  rewrite ?Epc in *; simpl in *; rewrite ?Epc in *; auto; try lia.

Lemma producer_store_preserves M c m newindex :
  c_producer c = PStore m newindex → invariant M c →
  invariant M (set_producer (PPublish m newindex)
    (set_mq (store_slot (mq_windex (c_mq c)) m (c_mq c)) c)).
Proof.
  intros Epc H. pose proof (rindex_nonneg _ _ H). pose proof (len_nonneg (c_pushed c)).
  destruct H as [[Em HM] Hl Hr Ht Ho Hw Hp Hring Hprod Hcons Hwn Hrn Hst].
  rewrite Epc in Hprod. simpl in Hprod. destruct Hprod as [Hroom Hnew].
  rewrite Em in *.
  split; simpl; auto; [len| | | |].
  - intros j m' Hj Hrj. rewrite Hw.
    pose proof (lookup_lt_Some _ _ _ Hj).
    eapply (slot_preserved _ _ (mq_rindex (c_mq c))); try lia; [|by apply Hring].
    unfold len. lia.
  - rewrite Em. split_and!; [done|done|]. rewrite Hw. apply list_lookup_insert_eq.
    pose proof (Z.mod_pos_bound (len (c_pushed c)) M). len.
  - unfold consumer_knows in *. simpl. destruct (c_consumer c); auto.
    destruct Hcons as (Hi & Hr1 & m' & Hm' & Hs). split_and!; [done|done|].
    exists m'. split; [done|]. rewrite Hw.
    replace (Z.to_nat i) with (Z.to_nat (Z.of_nat (Z.to_nat i) mod M)) in Hs |- * by
      (rewrite Z2Nat.id, Z.mod_small by lia; done).
    eapply (slot_preserved _ _ (mq_rindex (c_mq c) - 1)); [lia| |lia|done].
    rewrite Z2Nat.id; lia.
  - unfold pending_writes in *. simpl. by rewrite Epc in Hwn.
Qed.

Lemma producer_publish_preserves M c m newindex :
  c_producer c = PPublish m newindex → invariant M c →
  invariant M (set_producer PCount (publish m (set_mq (store_windex newindex (c_mq c)) c))).
Proof.
  intros Epc H. pose proof (rindex_nonneg _ _ H). pose proof (len_nonneg (c_pushed c)).
  destruct H as [[Em HM] Hl Hr Ht Ho Hw Hp Hring Hprod Hcons Hwn Hrn Hst].
  rewrite Epc in Hprod. simpl in Hprod. destruct Hprod as (Hroom & Hnew & Hslot).
  rewrite Em in *.
  split; simpl; auto; rewrite ?len_app, ?len_cons, ?len_nil; try lia.
  - rewrite Hnew; f_equal; lia.
  - rewrite take_app_le; [done|]. unfold in_flight in *. destruct (c_consumer c); len.
  - intros j m' Hj Hrj. apply lookup_snoc_Some in Hj as [[Hj Hq]|[-> ->]].
    + by apply Hring.
    + by fold (len (c_pushed c)).
  - unfold consumer_knows in *. simpl.
    destruct (c_consumer c); auto; destruct_and?; split_and?; try lia; try done.
    + by apply lookup_app_l_Some.
    + match goal with E : ∃ _, _ |- _ => destruct E as (m' & Hm' & Hs) end.
      exists m'. split; [by apply lookup_app_l_Some|done].
  - unfold pending_writes in *. simpl. rewrite Epc in Hwn. lia.
Qed.

Lemma producer_step_preserves M m c :
  c_status c = Running → invariant M c → invariant M (producer_step m c).
Proof.
  intros Hrun H. unfold producer_step.
  pose proof (rindex_nonneg _ _ H) as Hr0. pose proof (len_nonneg (c_pushed c)) as Hn0.
  pose proof (inv_producer _ _ H) as Hprod. pose proof (inv_maxsize _ _ H) as [Em HM].
  pose proof (inv_windex _ _ H) as Hw. pose proof (inv_taken _ _ H) as Ht.
  pose proof (inv_order _ _ H) as Ho. pose proof (inv_written _ _ H) as Hwn.
  unfold pending_writes in Hwn.
  destruct (c_producer c) as [|m0|m0|m0|m0 ni|m0 ni|m0 ni|] eqn:Epc; simpl in Hprod.
  - keep H Epc.
  - destruct (Z.ltb_spec (mq_rindex (c_mq c)) (mq_maxsize (c_mq c))); keep H Epc.
  - destruct (Z.ltb_spec (mq_windex (c_mq c)) (mq_maxsize (c_mq c))); [keep H Epc|].
    pose proof (Z.mod_pos_bound (len (c_pushed c)) M). lia.
  - keep H Epc. split_and!; [lia|lia|]. apply next_windex_mod; [lia|lia|]. by rewrite Em.
  - destruct Hprod as (Hb & Hb2 & Hni).
    destruct (Z.eqb_spec ni (mq_rindex (c_mq c))); keep H Epc.
    split; [|done]. apply compare_bound; lia.
  - by apply producer_store_preserves.
  - by apply producer_publish_preserves.
  - keep H Epc. rewrite u32_id by lia. lia.
Qed.

(** The oldest message on the ring is in the slot [rindex] names. *)
Lemma ring_front M c :
  invariant M c → mq_rindex (c_mq c) < M → mq_rindex (c_mq c) < len (c_pushed c) →
  ∃ m, c_pushed c !! Z.to_nat (mq_rindex (c_mq c)) = Some m ∧
       mq_queue (c_mq c) !! Z.to_nat (mq_rindex (c_mq c)) = Some (Some m).
Proof.
  intros H HM Hn. pose proof (rindex_nonneg _ _ H) as Hr0.
  destruct (lookup_lt_is_Some_2 (c_pushed c) (Z.to_nat (mq_rindex (c_mq c)))) as [m Hm]; [len|].
  exists m. split; [done|].
  pose proof (inv_ring _ _ H _ _ Hm ltac:(lia)) as Hslot.
  by rewrite Z2Nat.id, Z.mod_small in Hslot by lia.
Qed.

Lemma slot_of mq i (m : A) : mq_queue mq !! Z.to_nat i = Some (Some m) → queue_slot mq i = Ok m.
Proof. unfold queue_slot. by intros ->. Qed.

Lemma take_deliver (d p : list A) m :
  d = take (length d) p → p !! length d = Some m →
  d ++ [m] = take (length (d ++ [m])) p.
Proof.
  intros Hd Hm. rewrite length_app. simpl. rewrite Nat.add_1_r.
  rewrite (take_S_r _ _ _ Hm). by rewrite <- Hd.
Qed.

Lemma test_nonempty M n r w :
  0 < M → 0 <= r < M → r <= n → w = n mod M → r ≠ w → r < n.
Proof.
  intros HM Hr Hn -> Hne. destruct (decide (r = n)) as [->|]; [|lia].
  by rewrite Z.mod_small in Hne by lia.
Qed.

Lemma consumer_advance_preserves M c i m :
  c_consumer c = CAdvance i m → invariant M c →
  invariant M (set_consumer CIdle (deliver m (set_mq (store_rindex (u32 (i + 1)) (c_mq c)) c))).
Proof.
  intros Epc H. pose proof (rindex_nonneg _ _ H) as Hr0.
  pose proof (inv_consumer _ _ H) as Hc. unfold consumer_knows in Hc. rewrite Epc in Hc.
  destruct Hc as (-> & HrM & Hrn & Hm). pose proof (inv_maxsize _ _ H) as [Em HM].
  assert (Hd : mq_rindex (c_mq c) = len (c_delivered c)).
  { pose proof (inv_rindex _ _ H) as Hr. unfold in_flight in Hr. rewrite Epc in Hr. lia. }
  destruct H as [_ Hl _ Ht Ho Hw Hp Hring Hprod Hcons Hwn Hrd Hst].
  split; simpl; auto; rewrite ?u32_id by lia; try done; try lia.
  - unfold in_flight; simpl. rewrite len_app, len_cons, len_nil. lia.
  - apply take_deliver; [done|]. rewrite Hd in Hm. unfold len in Hm. by rewrite Nat2Z.id in Hm.
  - intros j m' Hj Hrj. apply Hring; [done|lia].
  - unfold producer_knows in *. simpl. destruct (c_producer c); lia || (split_and?; destruct_and?; try lia; done).
  - unfold pending_reads in *. simpl. rewrite Epc in Hrd. lia.
  - destruct (c_status c); [done|lia|done].
Qed.

Lemma consumer_store_preserves M c i :
  c_consumer c = CStoreFirst i → invariant M c →
  invariant M (set_consumer (CLoadLast i) (set_mq (store_rindex (u32 (i + 1)) (c_mq c)) c)).
Proof.
  intros Epc H. pose proof (rindex_nonneg _ _ H) as Hr0.
  pose proof (inv_consumer _ _ H) as Hc. unfold consumer_knows in Hc. rewrite Epc in Hc.
  destruct Hc as (-> & HrM & Hrn). pose proof (inv_maxsize _ _ H) as [Em HM].
  destruct (ring_front M c H ltac:(lia) Hrn) as (m & Hm & Hslot).
  assert (Hd : mq_rindex (c_mq c) = len (c_delivered c)).
  { pose proof (inv_rindex _ _ H) as Hr. unfold in_flight in Hr. rewrite Epc in Hr. lia. }
  destruct H as [_ Hl _ Ht Ho Hw Hp Hring Hprod Hcons Hwn Hrd Hst].
  split; simpl; auto; rewrite ?u32_id by lia; try done; try lia.
  - unfold in_flight; simpl. lia.
  - intros j m' Hj Hrj. apply Hring; [done|lia].
  - unfold producer_knows in *. simpl. destruct (c_producer c); lia || (split_and?; destruct_and?; try lia; done).
  - unfold consumer_knows. simpl. split_and!; [lia|lia|]. by exists m.
  - unfold pending_reads in *. simpl. rewrite Epc in Hrd. lia.
  - destruct (c_status c); [done|lia|done].
Qed.

Lemma consumer_load_last_preserves M c i :
  c_consumer c = CLoadLast i → invariant M c →
  ∃ m, queue_slot (c_mq c) i = Ok m ∧ invariant M (set_consumer CIdle (deliver m c)).
Proof.
  intros Epc H. pose proof (rindex_nonneg _ _ H) as Hr0.
  pose proof (inv_consumer _ _ H) as Hc. unfold consumer_knows in Hc. rewrite Epc in Hc.
  destruct Hc as (Hi & Hr1 & m & Hm & Hslot). exists m. split; [by apply slot_of|].
  assert (Hd : i = len (c_delivered c)).
  { pose proof (inv_rindex _ _ H) as Hr. unfold in_flight in Hr. rewrite Epc in Hr. lia. }
  destruct H as [HM Hl _ Ht Ho Hw Hp Hring Hprod Hcons Hwn Hrd Hst].
  split; simpl; auto; unfold in_flight, pending_reads in *; simpl; rewrite ?Epc in *;
    rewrite ?len_app, ?len_cons, ?len_nil; auto; try lia; [|done].
  apply take_deliver; [done|]. rewrite Hd in Hm. unfold len in Hm. by rewrite Nat2Z.id in Hm.
Qed.

Lemma consumer_step_preserves M call store_first c :
  c_status c = Running → invariant M c → invariant M (consumer_step call store_first c).
Proof.
  intros Hrun H. unfold consumer_step.
  pose proof (rindex_nonneg _ _ H) as Hr0. pose proof (len_nonneg (c_pushed c)) as Hn0.
  pose proof (inv_consumer _ _ H) as Hc. pose proof (inv_maxsize _ _ H) as [Em HM].
  pose proof (inv_windex _ _ H) as Hw. pose proof (inv_taken _ _ H) as Ht.
  pose proof (inv_order _ _ H) as Ho. unfold consumer_knows in Hc.
  destruct (c_consumer c) as [|call0|call0|call0| | |i|i m|i|i] eqn:Epc.
  - keep H Epc.
  - destruct (Z.ltb_spec (mq_rindex (c_mq c)) (mq_maxsize (c_mq c))); keep H Epc.
  - destruct (Z.ltb_spec (mq_windex (c_mq c)) (mq_maxsize (c_mq c))); [keep H Epc|].
    pose proof (Z.mod_pos_bound (len (c_pushed c)) M). lia.
  - destruct (Z.eqb_spec (mq_rindex (c_mq c)) (mq_windex (c_mq c))) as [|Hne]; [keep H Epc|].
    assert (mq_rindex (c_mq c) < len (c_pushed c))
      by (eapply (test_nonempty M); [lia|lia|lia|exact Hw|lia]).
    destruct call0; keep H Epc.
  - keep H Epc. rewrite u32_id by lia. lia.
  - destruct store_first; keep H Epc.
  - destruct Hc as (-> & HrM & Hrn).
    destruct (ring_front M c H ltac:(lia) Hrn) as (m & Hm & Hslot).
    rewrite (slot_of _ _ _ Hslot). keep H Epc.
  - by apply consumer_advance_preserves.
  - by apply consumer_store_preserves.
  - by destruct (consumer_load_last_preserves M c i Epc H) as (m & -> & Hinv).
Qed.

Lemma reachable_invariant maxsize c :
  0 < maxsize <= 2 ^ 30 → reachable maxsize c → invariant maxsize c.
Proof.
  intros HM (mq & Hnew & Hsteps). pose proof (invariant_initial _ _ HM Hnew) as H0.
  revert H0. induction Hsteps as [c|c c' c'' Hstep _ IH]; intros H; [done|].
  apply IH. destruct Hstep; auto using producer_step_preserves, consumer_step_preserves.
Qed.

Lemma run_schedule_steps sched c : rtc step c (run_schedule sched c).
Proof.
  revert c. induction sched as [|t sched IH]; intros c; simpl; [apply rtc_refl|].
  destruct (c_status c) eqn:E; [|apply rtc_refl..].
  eapply rtc_l; [|apply IH]. destruct t; by constructor.
Qed.

(** At rest the ring represents the messages pushed and not yet delivered. *)
Lemma invariant_quiescent M c :
  invariant M c → c_status c = Running → c_producer c = PIdle → c_consumer c = CIdle →
  mq_rindex (c_mq c) < M →
  mq_rep (c_mq c) (drop (length (c_delivered c)) (c_pushed c)).
Proof.
  intros H _ Ep Ec HrM. pose proof (rindex_nonneg _ _ H) as Hr0.
  destruct H as [[Em HM] Hl Hr Ht Ho Hw Hp Hring Hprod Hcons Hwn Hrd Hst].
  unfold in_flight, pending_writes, pending_reads in *. rewrite Ep, Ec in *. simpl in *.
  rewrite Z.add_0_r in Hr.
  assert (Hq : len (drop (length (c_delivered c)) (c_pushed c))
               = len (c_pushed c) - mq_rindex (c_mq c)) by (rewrite Hr; len).
  split; rewrite ?Hq, ?Em; try lia.
  - rewrite Hw. f_equal. lia.
  - intros i m Hi. rewrite lookup_drop in Hi.
    replace (mq_rindex (c_mq c) + Z.of_nat i)
      with (Z.of_nat (length (c_delivered c) + i)) by (rewrite Hr; len).
    apply Hring; [done|]. rewrite Hr. len.
Qed.
End threads.
Arguments conf A : clear implicits.
Arguments choice A : clear implicits.

(** Claim C10. Two threads sharing the queue, one pushing and one testing and
    popping, interleaved access by access and with either compilation of
    [queue[rindex++]]: in every reachable state the messages delivered are a
    prefix of the messages pushed (nothing is lost, duplicated, reordered or
    overwritten before it is read), no indeterminate slot is ever read, at most
    [maxsize] messages are outstanding, an assertion fails only once [rindex]
    has reached [maxsize], and whenever both threads are outside the queue it
    represents exactly the messages still to be delivered. *)
Theorem slam_message_queue_two_threads_fifo {A} (maxsize : Z) (c : conf A) :
  0 < maxsize <= 2 ^ 30 →
  reachable maxsize c →
  (∃ rest, c_pushed c = c_delivered c ++ rest ∧ len rest <= maxsize) ∧
  c_status c ≠ Faulted ∧
  (c_status c = Aborted → mq_rindex (c_mq c) = maxsize) ∧
  (c_status c = Running → c_producer c = PIdle → c_consumer c = CIdle →
   mq_rindex (c_mq c) < maxsize →
   mq_rep (c_mq c) (drop (length (c_delivered c)) (c_pushed c))).
Proof.
  intros HM Hreach. pose proof (reachable_invariant _ _ HM Hreach) as H.
  split_and!.
  - exists (drop (length (c_delivered c)) (c_pushed c)). split.
    + rewrite (inv_prefix _ _ H) at 1. by rewrite take_drop.
    + pose proof (inv_rindex _ _ H). pose proof (in_flight_range c).
      pose proof (inv_producer _ _ H) as Hp. pose proof (inv_maxsize _ _ H) as [Em _].
      assert (len (c_pushed c) - mq_rindex (c_mq c) <= maxsize - 1)
        by (destruct (c_producer c); simpl in Hp; lia).
      len.
  - pose proof (inv_status _ _ H). by destruct (c_status c).
  - intros E. pose proof (inv_status _ _ H) as Hst. by rewrite E in Hst.
  - intros. by apply (invariant_quiescent maxsize).
Qed.

(** A push completes, and another starts, while a pop has stored [rindex] and not
    yet read its slot. *)
Definition demo_schedule : list (choice nat) :=
  replicate 8 (Producer 1%nat) ++ replicate 7 (Consumer CPop true) ++
  replicate 12 (Producer 2%nat) ++ replicate 1 (Consumer CPop true).

Definition demo_conf : conf nat :=
  run_schedule demo_schedule
    (initial {| mq_queue := replicate 3 None; mq_maxsize := 3; mq_rindex := 0;
                mq_windex := 0; mq_read_number := 0; mq_write_number := 0 |}).

Lemma slam_message_queue_two_threads_fifo_witness :
  reachable 3 demo_conf ∧ c_pushed demo_conf = [1%nat; 2%nat] ∧
  c_delivered demo_conf = [1%nat] ∧
  ∃ rest, c_pushed demo_conf = c_delivered demo_conf ++ rest ∧ len rest <= 3.
Proof.
  assert (Hr : reachable 3 demo_conf) by (eexists; split; [reflexivity|apply run_schedule_steps]).
  split; [exact Hr|]. split; [reflexivity|]. split; [reflexivity|].
  exact (proj1 (slam_message_queue_two_threads_fifo 3 demo_conf ltac:(lia) Hr)).
Defined.
