(* ===== verification/LuaValue.v ===== *)
(** * Values kept for Lua ([slam_lua_value.c], [slam_is_integer])

    A tagged union of nil, boolean, integer, number and string.  A
    [lua_Number] is an IEEE double, modelled by the Standard Library's
    [spec_float]; a [lua_Integer] is 64 bits wide. *)

From S2P Require Import Prelude.
From Stdlib Require Export SpecFloat.

(** ** Data *)
Abbreviation lua_Number := spec_float.
Abbreviation lua_Integer := Z (only parsing).

Definition LUA_TNIL : Z := 0.
Definition LUA_TBOOLEAN : Z := 1.
Definition LUA_TNUMBER : Z := 3.
Definition LUA_TSTRING : Z := 4.
Definition LUA_TINTEGER : Z := 9.

(** The member of the union that was written last. *)
Inductive lua_union :=
  | UBoolean (b : bool)
  | UInteger (i : lua_Integer)
  | UNumber (n : lua_Number)
  | UString (s : option string).   (* [None] is the null pointer *)

Record slam_lua_value := {
  lv_type : Z;
  lv_union : lua_union;
}.

(** ** Operations *)
Definition slam_lua_value_new : slam_lua_value :=
  {| lv_type := LUA_TNIL; lv_union := UString None |}.

(** Deleting a string value releases its copy, which must be there: the result is
    the string that is released with the value. *)
Definition slam_lua_value_delete (lv : slam_lua_value) : outcome (option string) :=
  if lv_type lv =? LUA_TSTRING then
    match lv_union lv with
    | UString (Some s) => Ok (Some s)
    | UString None => AssertFail
    | _ => Undef
    end
  else Ok None.

Definition slam_lua_value_set_nil (lv : slam_lua_value) : slam_lua_value :=
  {| lv_type := LUA_TNIL; lv_union := lv_union lv |}.

Definition slam_lua_value_set_boolean (lv : slam_lua_value) (b : bool) : slam_lua_value :=
  {| lv_type := LUA_TBOOLEAN; lv_union := UBoolean b |}.

Definition slam_lua_value_set_integer (lv : slam_lua_value) (i : lua_Integer) : slam_lua_value :=
  {| lv_type := LUA_TINTEGER; lv_union := UInteger i |}.

Definition slam_lua_value_set_number (lv : slam_lua_value) (n : lua_Number) : slam_lua_value :=
  {| lv_type := LUA_TNUMBER; lv_union := UNumber n |}.

Definition slam_lua_value_set_string (lv : slam_lua_value) (s : string) : slam_lua_value :=
  {| lv_type := LUA_TSTRING; lv_union := UString (Some s) |}.

Definition slam_lua_value_is_nil (lv : slam_lua_value) : bool := lv_type lv =? LUA_TNIL.
Definition slam_lua_value_is_boolean (lv : slam_lua_value) : bool := lv_type lv =? LUA_TBOOLEAN.
Definition slam_lua_value_is_integer (lv : slam_lua_value) : bool := lv_type lv =? LUA_TINTEGER.
Definition slam_lua_value_is_number (lv : slam_lua_value) : bool := lv_type lv =? LUA_TNUMBER.
Definition slam_lua_value_is_string (lv : slam_lua_value) : bool := lv_type lv =? LUA_TSTRING.

(** Reading a member other than the one written last is left undefined. *)
Definition slam_lua_value_get_boolean (lv : slam_lua_value) : outcome bool :=
  ASSERT lv_type lv =? LUA_TBOOLEAN ;;
  match lv_union lv with UBoolean b => Ok b | _ => Undef end.

Definition slam_lua_value_get_integer (lv : slam_lua_value) : outcome lua_Integer :=
  ASSERT lv_type lv =? LUA_TINTEGER ;;
  match lv_union lv with UInteger i => Ok i | _ => Undef end.

Definition slam_lua_value_get_number (lv : slam_lua_value) : outcome lua_Number :=
  ASSERT lv_type lv =? LUA_TNUMBER ;;
  match lv_union lv with UNumber n => Ok n | _ => Undef end.

Definition slam_lua_value_get_string (lv : slam_lua_value) : outcome (option string) :=
  ASSERT lv_type lv =? LUA_TSTRING ;;
  match lv_union lv with UString s => Ok s | _ => Undef end.

Definition slam_lua_value_type (lv : slam_lua_value) : Z := lv_type lv.

(** [value == (int64_t) value].  The conversion truncates towards zero and is
    undefined outside the range of [int64_t]; a finite double is
    [(-1)^s * m * 2^e]. *)
Definition truncate (m : positive) (e : Z) : Z :=
  if 0 <=? e then Zpos m * 2 ^ e else Zpos m / 2 ^ (- e).

Definition slam_is_integer (value : lua_Number) : outcome bool :=
  match value with
  | S754_zero _ => Ok true
  | S754_finite s m e =>
      let t := truncate m e in
      if (if s then t <=? 2 ^ 63 else t <? 2 ^ 63) then
        Ok (if 0 <=? e then true else Zpos m =? t * 2 ^ (- e))
      else Undef
  | _ => Undef
  end.

(** ** Well-formed values: the tag names the member written last *)
Definition lv_wf (lv : slam_lua_value) : Prop :=
  match lv_union lv with
  | UBoolean _ => lv_type lv = LUA_TBOOLEAN ∨ lv_type lv = LUA_TNIL
  | UInteger _ => lv_type lv = LUA_TINTEGER ∨ lv_type lv = LUA_TNIL
  | UNumber _ => lv_type lv = LUA_TNUMBER ∨ lv_type lv = LUA_TNIL
  | UString (Some _) => lv_type lv = LUA_TSTRING ∨ lv_type lv = LUA_TNIL
  | UString None => lv_type lv = LUA_TNIL
  end.

(** What a value stands for. *)
Inductive lua_datum :=
  | DNil
  | DBoolean (b : bool)
  | DInteger (i : lua_Integer)
  | DNumber (n : lua_Number)
  | DString (s : string).

Definition set_datum (lv : slam_lua_value) (d : lua_datum) : slam_lua_value :=
  match d with
  | DNil => slam_lua_value_set_nil lv
  | DBoolean b => slam_lua_value_set_boolean lv b
  | DInteger i => slam_lua_value_set_integer lv i
  | DNumber n => slam_lua_value_set_number lv n
  | DString s => slam_lua_value_set_string lv s
  end.

Lemma set_datum_wf lv d : lv_wf lv → lv_wf (set_datum lv d).
Proof.
  destruct d; unfold lv_wf; simpl; auto.
  destruct (lv_union lv) as [| | |[]]; auto.
Qed.

Lemma new_wf : lv_wf slam_lua_value_new.
Proof. done. Qed.

Lemma delete_wf lv : lv_wf lv → ∃ s, slam_lua_value_delete lv = Ok s.
Proof.
  unfold lv_wf, slam_lua_value_delete.
  destruct (lv_union lv) as [| | |[]]; intros H; zcase; try (by eexists); exfalso;
    unfold LUA_TSTRING, LUA_TBOOLEAN, LUA_TINTEGER, LUA_TNUMBER, LUA_TNIL in *; lia.
Qed.

#[export] Hint Resolve set_datum_wf new_wf : slam.

(** ** Reading *)

(** Reading a value as [d]'s type gives [d], and it is of no other type. *)
Definition reads_as (lv : slam_lua_value) (d : lua_datum) : Prop :=
  (slam_lua_value_is_nil lv, slam_lua_value_is_boolean lv, slam_lua_value_is_integer lv,
   slam_lua_value_is_number lv, slam_lua_value_is_string lv) =
    match d with
    | DNil => (true, false, false, false, false)
    | DBoolean _ => (false, true, false, false, false)
    | DInteger _ => (false, false, true, false, false)
    | DNumber _ => (false, false, false, true, false)
    | DString _ => (false, false, false, false, true)
    end ∧
  slam_lua_value_get_boolean lv = (match d with DBoolean b => Ok b | _ => AssertFail end) ∧
  slam_lua_value_get_integer lv = (match d with DInteger i => Ok i | _ => AssertFail end) ∧
  slam_lua_value_get_number lv = (match d with DNumber n => Ok n | _ => AssertFail end) ∧
  slam_lua_value_get_string lv = (match d with DString s => Ok (Some s) | _ => AssertFail end).

(** After any assignments to a new value the tag says what was assigned last (nil
    at first); its getter gives that, and every other getter aborts on its assertion
    before it reads the union; deleting the value releases the string that is
    there. *)
Lemma values_typed ds :
  let lv := fold_left set_datum ds slam_lua_value_new in
  lv_wf lv ∧ slam_lua_value_delete lv = Ok (match last ds with Some (DString s) => Some s | _ => None end) ∧
  reads_as lv (default DNil (last ds)).
Proof.
  simpl. induction ds as [|d ds (Hw & _ & _)] using rev_ind; [by split|].
  rewrite fold_left_app, last_snoc. split; [by apply set_datum_wf|]. by destruct d.
Qed.
