(* ===== verification/LuaValueHeap.v ===== *)
(** * Lua values as blocks in memory ([slam_lua_value.c])

    [LuaValue] has the values as such, which is how the timers keep them; here
    they are blocks of their own, with the strings they point to: what is
    allocated, what is released, and that the blocks implement the values. *)

From S2P Require Import Prelude LuaValue.

(** ** Data *)
Inductive raw_union :=
  | RBoolean (b : bool)
  | RInteger (i : lua_Integer)
  | RNumber (n : lua_Number)
  | RString (p : ptr).

Record slam_lua_value_s := {
  rv_type : Z;
  rv_union : raw_union;
}.

(** The live values and strings, and the next fresh address. *)
Record value_heap := {
  vh_values : gmap loc slam_lua_value_s;
  vh_strings : gmap loc string;
  vh_brk : loc;
}.

Definition with_values (f : gmap loc slam_lua_value_s → gmap loc slam_lua_value_s) (h : value_heap) : value_heap :=
  {| vh_values := f (vh_values h); vh_strings := vh_strings h; vh_brk := vh_brk h |}.

Definition with_strings (f : gmap loc string → gmap loc string) (h : value_heap) : value_heap :=
  {| vh_values := vh_values h; vh_strings := f (vh_strings h); vh_brk := vh_brk h |}.

(** ** Operations *)
Definition strdup (s : string) (h : value_heap) : loc * value_heap :=
  (vh_brk h, {| vh_values := vh_values h; vh_strings := <[vh_brk h := s]> (vh_strings h);
                vh_brk := Pos.succ (vh_brk h) |}).

Definition slam_lua_value_new (h : value_heap) : loc * value_heap :=
  let x := vh_brk h in
  (x, {| vh_values := <[x := {| rv_type := LUA_TNIL; rv_union := RString None |}]> (vh_values h);
         vh_strings := vh_strings h; vh_brk := Pos.succ x |}).

Definition slam_lua_value_delete (x : loc) (h : value_heap) : outcome value_heap :=
  DEREF lvalue := vh_values h !! x ;;
  h ← (if rv_type lvalue =? LUA_TSTRING then
         match rv_union lvalue with
         | RString None => AssertFail
         | RString (Some p) =>
             DEREF s := vh_strings h !! p ;;
             Ok (with_strings (delete p) h)
         | _ => Undef
         end
       else Ok h);
  Ok (with_values (delete x) h).

Definition write_value (x : loc) (f : slam_lua_value_s → slam_lua_value_s) (h : value_heap) : outcome value_heap :=
  DEREF lvalue := vh_values h !! x ;;
  Ok (with_values (<[x := f lvalue]>) h).

Definition slam_lua_value_set_nil (x : loc) : value_heap → outcome value_heap :=
  write_value x (λ v, {| rv_type := LUA_TNIL; rv_union := rv_union v |}).

Definition slam_lua_value_set_boolean (x : loc) (b : bool) : value_heap → outcome value_heap :=
  write_value x (λ _, {| rv_type := LUA_TBOOLEAN; rv_union := RBoolean b |}).

Definition slam_lua_value_set_integer (x : loc) (i : lua_Integer) : value_heap → outcome value_heap :=
  write_value x (λ _, {| rv_type := LUA_TINTEGER; rv_union := RInteger i |}).

Definition slam_lua_value_set_number (x : loc) (n : lua_Number) : value_heap → outcome value_heap :=
  write_value x (λ _, {| rv_type := LUA_TNUMBER; rv_union := RNumber n |}).

(** The string that was there before is not released. *)
Definition slam_lua_value_set_string (x : loc) (s : string) (h : value_heap) : outcome value_heap :=
  h ← write_value x (λ v, {| rv_type := LUA_TSTRING; rv_union := rv_union v |}) h;
  let '(p, h) := strdup s h in
  write_value x (λ v, {| rv_type := rv_type v; rv_union := RString (Some p) |}) h.

Definition slam_lua_value_type (x : loc) (h : value_heap) : outcome Z :=
  DEREF lvalue := vh_values h !! x ;; Ok (rv_type lvalue).

Definition slam_lua_value_is_nil (x : loc) (h : value_heap) : outcome bool :=
  t ← slam_lua_value_type x h; Ok (t =? LUA_TNIL).
Definition slam_lua_value_is_boolean (x : loc) (h : value_heap) : outcome bool :=
  t ← slam_lua_value_type x h; Ok (t =? LUA_TBOOLEAN).
Definition slam_lua_value_is_integer (x : loc) (h : value_heap) : outcome bool :=
  t ← slam_lua_value_type x h; Ok (t =? LUA_TINTEGER).
Definition slam_lua_value_is_number (x : loc) (h : value_heap) : outcome bool :=
  t ← slam_lua_value_type x h; Ok (t =? LUA_TNUMBER).
Definition slam_lua_value_is_string (x : loc) (h : value_heap) : outcome bool :=
  t ← slam_lua_value_type x h; Ok (t =? LUA_TSTRING).

Definition slam_lua_value_get_boolean (x : loc) (h : value_heap) : outcome bool :=
  DEREF lvalue := vh_values h !! x ;;
  ASSERT rv_type lvalue =? LUA_TBOOLEAN ;;
  match rv_union lvalue with RBoolean b => Ok b | _ => Undef end.

Definition slam_lua_value_get_integer (x : loc) (h : value_heap) : outcome lua_Integer :=
  DEREF lvalue := vh_values h !! x ;;
  ASSERT rv_type lvalue =? LUA_TINTEGER ;;
  match rv_union lvalue with RInteger i => Ok i | _ => Undef end.

Definition slam_lua_value_get_number (x : loc) (h : value_heap) : outcome lua_Number :=
  DEREF lvalue := vh_values h !! x ;;
  ASSERT rv_type lvalue =? LUA_TNUMBER ;;
  match rv_union lvalue with RNumber n => Ok n | _ => Undef end.

Definition slam_lua_value_get_string (x : loc) (h : value_heap) : outcome ptr :=
  DEREF lvalue := vh_values h !! x ;;
  ASSERT rv_type lvalue =? LUA_TSTRING ;;
  match rv_union lvalue with RString p => Ok p | _ => Undef end.

(** The string a pointer leads to. *)
Definition read_string (h : value_heap) (p : ptr) : outcome (option string) :=
  match p with
  | None => Ok None
  | Some p => DEREF s := vh_strings h !! p ;; Ok (Some s)
  end.

(** One assignment. *)
Definition assign (x : loc) (d : lua_datum) : value_heap → outcome value_heap :=
  match d with
  | DNil => slam_lua_value_set_nil x
  | DBoolean b => slam_lua_value_set_boolean x b
  | DInteger i => slam_lua_value_set_integer x i
  | DNumber n => slam_lua_value_set_number x n
  | DString s => slam_lua_value_set_string x s
  end.

Definition assign_all (x : loc) (ds : list lua_datum) (h : value_heap) : outcome value_heap :=
  fold_left (λ o d, o ≫= assign x d) ds (Ok h).

(** ** The blocks implement the values *)
Definition heap_ok (h : value_heap) : Prop :=
  (∀ p, is_Some (vh_values h !! p) → (p < vh_brk h)%positive) ∧
  ∀ p, is_Some (vh_strings h !! p) → (p < vh_brk h)%positive.

Definition same_union (h : value_heap) (u : raw_union) (v : lua_union) : Prop :=
  match u, v with
  | RBoolean b, UBoolean b' => b = b'
  | RInteger i, UInteger i' => i = i'
  | RNumber n, UNumber n' => n = n'
  | RString p, UString s => read_string h p = Ok s
  | _, _ => False
  end.

(** The block at [x] holds the value [lv]. *)
Definition represents (h : value_heap) (x : loc) (lv : slam_lua_value) : Prop :=
  ∃ v, vh_values h !! x = Some v ∧ rv_type v = lv_type lv ∧ same_union h (rv_union v) (lv_union lv).

(** The strings assigned, and those in the heap. *)
Definition strings_of (ds : list lua_datum) : list string :=
  omap (λ d, match d with DString s => Some s | _ => None end) ds.

Definition strings (h : value_heap) : list string := (map_to_list (vh_strings h)).*2.

Lemma new_represents h : heap_ok h →
  let '(x, h') := slam_lua_value_new h in
  heap_ok h' ∧ represents h' x LuaValue.slam_lua_value_new ∧ vh_values h !! x = None ∧
  vh_strings h' = vh_strings h ∧ vh_values h' = <[x := {| rv_type := LUA_TNIL; rv_union := RString None |}]> (vh_values h).
Proof.
  intros [Hv Hs]. simpl. split_and!; [|unfold represents; simpl; rewrite lookup_insert_eq; by eexists| |done|done].
  - split; simpl; intros p; [rewrite lookup_insert_is_Some'; intros [<-|Hp%Hv]; lia|intros Hp%Hs; lia].
  - apply eq_None_not_Some. intros H%Hv. lia.
Qed.

(** What an assignment does: the values of the other blocks stay, a string is one
    more in the heap. *)
Lemma assign_represents x d lv h : heap_ok h → represents h x lv →
  returns (assign x d h) (λ h', heap_ok h' ∧ represents h' x (set_datum lv d) ∧
    (∃ v, vh_values h' = <[x := v]> (vh_values h)) ∧
    match d with
    | DString s => vh_strings h' = <[vh_brk h := s]> (vh_strings h) ∧
        vh_values h' !! x = Some {| rv_type := LUA_TSTRING; rv_union := RString (Some (vh_brk h)) |}
    | _ => vh_strings h' = vh_strings h
    end).
Proof.
  intros [Hv Hs] (v & Hx & Ht & Hu).
  assert (∀ f u, heap_ok (with_values (<[x := f]>) h) ∧ (∃ v, <[x := f]> (vh_values h) = <[x := v]> (vh_values h)) ∧
    (f.(rv_type) = lv_type u ∧ same_union h (rv_union f) (lv_union u) → represents (with_values (<[x := f]>) h) x u)) as Hw.
  { intros f u. split_and!.
    - split; simpl; intros p; [rewrite lookup_insert_is_Some'; intros [<-|?]; apply Hv; by eauto|apply Hs].
    - by eexists.
    - intros [? ?]. exists f. simpl. by rewrite lookup_insert_eq. }
  assert (x < vh_brk h)%positive as Hlt by (apply Hv; by eexists).
  destruct d as [|b|i|n|s]; unfold assign, returns;
    unfold slam_lua_value_set_nil, slam_lua_value_set_boolean, slam_lua_value_set_integer, slam_lua_value_set_number,
      slam_lua_value_set_string, write_value; rewrite Hx.
  1-4: eexists; split; [done|]; split_and!; [apply (Hw _ lv)|by apply Hw|by apply (Hw _ lv)|done].
  simpl. rewrite lookup_insert_eq. eexists. split; [done|]. simpl. rewrite insert_insert_eq. split_and!.
  - split; simpl; intros p; rewrite ?insert_insert_eq, lookup_insert_is_Some'; [intros [<-|Hp%Hv]|intros [<-|Hp%Hs]]; lia.
  - eexists. simpl. rewrite lookup_insert_eq. split; [done|]. simpl. by rewrite lookup_insert_eq.
  - by eexists.
  - done.
  - by rewrite lookup_insert_eq.
Qed.

Lemma strings_insert h p s : vh_strings h !! p = None →
  (map_to_list (<[p := s]> (vh_strings h))).*2 ≡ₚ s :: strings h.
Proof. intros H. unfold strings. by rewrite map_to_list_insert. Qed.

(** After any assignments to a new value: what the heap holds, and what the value
    points to if it is a string. *)
Lemma assign_all_represents h ds : heap_ok h →
  let '(x, h0) := slam_lua_value_new h in
  returns (assign_all x ds h0) (λ h', heap_ok h' ∧
    represents h' x (fold_left set_datum ds LuaValue.slam_lua_value_new) ∧
    (∃ v, vh_values h' = <[x := v]> (vh_values h)) ∧ vh_values h !! x = None ∧
    vh_strings h ⊆ vh_strings h' ∧ strings h' ≡ₚ strings_of ds ++ strings h ∧
    (∀ p, is_Some (vh_strings h !! p) → (p < x)%positive) ∧ (x < vh_brk h')%positive ∧
    ∀ s, last ds = Some (DString s) → ∃ p, (x < p)%positive ∧
      vh_values h' !! x = Some {| rv_type := LUA_TSTRING; rv_union := RString (Some p) |}).
Proof.
  intros Hok. pose proof (new_represents h Hok) as (Hok0 & Hr0 & Hx & Hs0 & Hv0). simpl in *.
  set (x := vh_brk h) in *. unfold assign_all.
  assert (∀ p, is_Some (vh_strings h !! p) → (p < x)%positive) as Hlt by apply Hok.
  induction ds as [|d ds IH] using rev_ind.
  { eexists. split; [done|]. simpl. split_and!; try done; [by eexists|lia]. }
  rewrite !fold_left_app. destruct IH as (h1 & -> & Hok1 & Hr1 & (v1 & Hv1) & _ & Hsub & Hs & _ & Hbrk & _). simpl.
  destruct (assign_represents x d _ h1 Hok1 Hr1) as (h2 & E & Hok2 & Hr2 & (v2 & Hv2) & Hstr). rewrite E.
  assert (vh_strings h1 !! vh_brk h1 = None) as Hfresh.
  { apply eq_None_not_Some. intros Hp%Hok1. lia. }
  assert (vh_strings h1 ⊆ vh_strings h2) as Hsub2.
  { destruct d; try (by rewrite Hstr). destruct Hstr as [-> _]. by apply insert_subseteq. }
  assert (strings h2 ≡ₚ strings_of (ds ++ [d]) ++ strings h) as Hs2.
  { unfold strings_of. rewrite omap_app. fold (strings_of ds). destruct d as [| | | |s]; simpl;
      try (unfold strings; by rewrite Hstr, app_nil_r).
    destruct Hstr as [Hstr _]. unfold strings at 1. rewrite Hstr, strings_insert, Hs by done.
    by rewrite <-app_assoc, Permutation_middle. }
  eexists. split; [done|]. split_and!; try done.
  - rewrite Hv2, Hv1. exists v2. by rewrite insert_insert_eq.
  - by etrans.
  - apply (proj1 Hok2). rewrite Hv2. apply lookup_insert_is_Some'. by left.
  - intros s Hlast. rewrite last_snoc in Hlast. injection Hlast as ->. destruct Hstr as [_ Hv].
    by exists (vh_brk h1).
Qed.

(** The getters of a block that holds [d], read last. *)
Definition block_reads (h : value_heap) (x : loc) (d : lua_datum) : Prop :=
  (t ← slam_lua_value_type x h; Ok (t =? LUA_TNIL, t =? LUA_TBOOLEAN, t =? LUA_TINTEGER, t =? LUA_TNUMBER, t =? LUA_TSTRING)) =
    Ok (match d with
        | DNil => (true, false, false, false, false)
        | DBoolean _ => (false, true, false, false, false)
        | DInteger _ => (false, false, true, false, false)
        | DNumber _ => (false, false, false, true, false)
        | DString _ => (false, false, false, false, true)
        end) ∧
  slam_lua_value_get_boolean x h = (match d with DBoolean b => Ok b | _ => AssertFail end) ∧
  slam_lua_value_get_integer x h = (match d with DInteger i => Ok i | _ => AssertFail end) ∧
  slam_lua_value_get_number x h = (match d with DNumber n => Ok n | _ => AssertFail end) ∧
  (p ← slam_lua_value_get_string x h; read_string h p) =
    (match d with DString s => Ok (Some s) | _ => AssertFail end).

Lemma represents_reads h x lv d : represents h x lv → reads_as lv d → block_reads h x d.
Proof.
  intros (v & Hx & Ht & Hu) (Htag & Hb & Hi & Hn & Hs). unfold block_reads, slam_lua_value_type,
    slam_lua_value_get_boolean, slam_lua_value_get_integer, slam_lua_value_get_number, slam_lua_value_get_string.
  rewrite Hx, Ht. simpl. unfold LuaValue.slam_lua_value_is_nil, LuaValue.slam_lua_value_is_boolean,
    LuaValue.slam_lua_value_is_integer, LuaValue.slam_lua_value_is_number, LuaValue.slam_lua_value_is_string in Htag.
  split; [by rewrite Htag|].
  unfold LuaValue.slam_lua_value_get_boolean, LuaValue.slam_lua_value_get_integer,
    LuaValue.slam_lua_value_get_number, LuaValue.slam_lua_value_get_string in *.
  rewrite <-Hb, <-Hi, <-Hn, <-Hs. clear -Hu.
  split_and!; [by destruct (_ =? _), (rv_union v), (lv_union lv); simpl in Hu; simplify_eq..|].
  destruct (_ =? _); [|done]. destruct (rv_union v), (lv_union lv); simpl in *; try done.
Qed.

Lemma last_string_case ds :
  (∃ ds' s, ds = ds' ++ [DString s]) ∨
  strings_of (removelast ds) = strings_of ds ∧ ∀ s, default DNil (last ds) ≠ DString s.
Proof.
  destruct ds as [|d ds _] using rev_ind; [by right|]. rewrite removelast_last, last_snoc.
  destruct d as [| | | |s]; [right..|left; by eexists _, _]; unfold strings_of; rewrite omap_app, app_nil_r; by split.
Qed.

(** Claim C36.  Values are typed, and their memory is accounted for.  After any
    assignments to a new value the tag says what was assigned last (nil at first),
    its getter gives that, and every other getter aborts on its assertion before it
    reads the union.  Deleting the value succeeds and releases its block, and the
    string assigned last if that is what the value holds; the strings assigned
    before, each its own copy, are not released by anything: they stay in the
    heap, and so does everything that was there before. *)
Theorem slam_lua_value_typed h ds : heap_ok h →
  let '(x, h0) := slam_lua_value_new h in
  vh_values h !! x = None ∧
  returns (assign_all x ds h0) (λ h1, block_reads h1 x (default DNil (last ds)) ∧
    returns (slam_lua_value_delete x h1) (λ h2,
      vh_values h2 = vh_values h ∧ vh_strings h ⊆ vh_strings h2 ∧
      strings h2 ≡ₚ strings_of (removelast ds) ++ strings h)).
Proof.
  intros Hok. pose proof (assign_all_represents h ds Hok) as H.
  destruct (slam_lua_value_new h) as [x h0].
  destruct H as (h1 & E & Hok1 & Hr & (v & Hv) & Hx & Hsub & Hs & Hlt & _ & Hlast).
  split; [done|]. exists h1. split; [done|].
  pose proof (values_typed ds) as (_ & _ & Hreads). pose proof (represents_reads _ _ _ _ Hr Hreads) as Hblock.
  split; [done|].
  assert (vh_values h1 !! x = Some v) as Hx1 by (by rewrite Hv, lookup_insert_eq).
  assert (delete x (vh_values h1) = vh_values h) as Hvals by (by rewrite Hv, delete_insert_id).
  unfold slam_lua_value_delete. rewrite Hx1.
  destruct (last_string_case ds) as [(ds' & s & ->)|[Hrem Hnot]].
  - rewrite last_snoc in Hblock, Hlast. destruct (Hlast s eq_refl) as (p & Hp & Hvx).
    rewrite Hx1 in Hvx. injection Hvx as ->. destruct Hblock as (_ & _ & _ & _ & Hread).
    unfold slam_lua_value_get_string in Hread. rewrite Hx1 in Hread. simpl in Hread |- *.
    destruct (vh_strings h1 !! p) as [s'|] eqn:Hps; [injection Hread as ->|done].
    eexists. split; [done|]. simpl. split_and!; [done| |].
    + apply map_subseteq_spec. intros q t Hq. rewrite lookup_delete_ne; [by eapply lookup_weaken|].
      intros ->. pose proof (Hlt q (mk_is_Some _ _ Hq)). lia.
    + rewrite removelast_last. apply (Permutation_cons_inv (a:=s)). unfold strings in *. simpl.
      rewrite <-(map_to_list_delete _ _ _ Hps) in Hs. simpl in Hs. rewrite Hs. unfold strings_of. rewrite omap_app. simpl.
      by rewrite <-app_assoc, Permutation_middle.
  - assert (rv_type v =? LUA_TSTRING = false) as ->.
    { destruct Hblock as (Htag & _). unfold slam_lua_value_type in Htag. rewrite Hx1 in Htag. simpl in Htag.
      apply (f_equal (λ o, match o with Ok r => r.2 | _ => false end)) in Htag. simpl in Htag. rewrite Htag.
      destruct (default DNil (last ds)) as [| | | |s]; try done. by destruct (Hnot s). }
    eexists. split; [done|]. simpl. rewrite Hrem. by split_and!.
Qed.

Lemma slam_lua_value_typed_witness :
  let h := {| vh_values := ∅; vh_strings := ∅; vh_brk := 1%positive |} in
  ∃ h2, (h1 ← assign_all 1 [DString "a"; DInteger 5; DString "b"] (slam_lua_value_new h).2;
         slam_lua_value_delete 1 h1) = Ok h2 ∧
    vh_values h2 = ∅ ∧ strings h2 ≡ₚ ["a"%string].
Proof.
  intros h. assert (heap_ok h) as Hok by (split; intros p [? H]; simpl in H; by rewrite lookup_empty in H).
  destruct (slam_lua_value_typed h [DString "a"; DInteger 5; DString "b"] Hok) as (_ & h1 & E & _ & h2 & E2 & Hv & _ & Hs).
  exists h2. split; [|split; [exact Hv|exact Hs]].
  simpl in E |- *. rewrite E. exact E2.
Defined.
