(* ===== verification/TimerList.v ===== *)
(** * The timer list ([slam_timer_list.c], timer calls of [slam_runnable.c])

    Timers are heap nodes linked both ways and kept in the order of their
    expiry times.  The operations are modelled on the heap, pointer write by
    pointer write; a dereference of a null or freed node is [Undef]. *)

From S2P Require Import Prelude LuaValue.
From Stdlib Require Export Sorted.

(** ** Data *)
Record slam_timer := {
  tm_interval : Z;                     (* uint64_t, milliseconds *)
  tm_expire_time : Z;                  (* uint64_t *)
  tm_forever : bool;
  tm_ref : Z;                          (* reference to the Lua closure *)
  tm_ctx : option slam_lua_value;      (* owned by the timer *)
  tm_prev : ptr;
  tm_next : ptr;
}.

Definition set_prev (p : ptr) (t : slam_timer) : slam_timer :=
  {| tm_interval := tm_interval t; tm_expire_time := tm_expire_time t;
     tm_forever := tm_forever t; tm_ref := tm_ref t; tm_ctx := tm_ctx t;
     tm_prev := p; tm_next := tm_next t |}.

Definition set_next (p : ptr) (t : slam_timer) : slam_timer :=
  {| tm_interval := tm_interval t; tm_expire_time := tm_expire_time t;
     tm_forever := tm_forever t; tm_ref := tm_ref t; tm_ctx := tm_ctx t;
     tm_prev := tm_prev t; tm_next := p |}.

Definition set_expire (e : Z) (t : slam_timer) : slam_timer :=
  {| tm_interval := tm_interval t; tm_expire_time := e;
     tm_forever := tm_forever t; tm_ref := tm_ref t; tm_ctx := tm_ctx t;
     tm_prev := tm_prev t; tm_next := tm_next t |}.

(** The timer heap: live nodes, the next fresh address, the list's head
    pointer, and how often the clock has been read. *)
Record timer_state := {
  ts_heap : gmap loc slam_timer;
  ts_brk : loc;
  ts_head : ptr;                       (* timer_list->timer_head_node *)
  ts_ticks : nat;
}.

Definition with_heap (h : gmap loc slam_timer) (st : timer_state) : timer_state :=
  {| ts_heap := h; ts_brk := ts_brk st; ts_head := ts_head st; ts_ticks := ts_ticks st |}.

Definition with_head (p : ptr) (st : timer_state) : timer_state :=
  {| ts_heap := ts_heap st; ts_brk := ts_brk st; ts_head := p; ts_ticks := ts_ticks st |}.

(** [x->field = ...]: a write through the pointer [x]. *)
Definition write_node (x : loc) (f : slam_timer → slam_timer) (st : timer_state)
    : outcome timer_state :=
  DEREF t := ts_heap st !! x ;;
  Ok (with_heap (<[x := f t]> (ts_heap st)) st).

Section operations.
(** [gettimeofday]: the [n]-th reading of the clock, seconds and microseconds. *)
Context (gettimeofday : nat → Z * Z).

(** [tv.tv_sec * 1000 + tv.tv_usec / 1000] as a [uint64_t]. *)
Definition slam_milliseconds (st : timer_state) : Z * timer_state :=
  let '(tv_sec, tv_usec) := gettimeofday (ts_ticks st) in
  (u64 (tv_sec * 1000 + Z.quot tv_usec 1000),
   {| ts_heap := ts_heap st; ts_brk := ts_brk st; ts_head := ts_head st;
      ts_ticks := S (ts_ticks st) |}).

Definition slam_timer_list_new : timer_state :=
  {| ts_heap := ∅; ts_brk := 1%positive; ts_head := None; ts_ticks := 0 |}.

Definition slam_timer_new (interval : Z) (forever : bool) (ref : Z)
    (ctx : option slam_lua_value) (st : timer_state) : loc * timer_state :=
  let '(now, st) := slam_milliseconds st in
  let x := ts_brk st in
  (x, {| ts_heap := <[x := {| tm_interval := interval;
                              tm_expire_time := u64 (now + interval);
                              tm_forever := forever; tm_ref := ref; tm_ctx := ctx;
                              tm_prev := None; tm_next := None |}]> (ts_heap st);
         ts_brk := Pos.succ x; ts_head := ts_head st; ts_ticks := ts_ticks st |}).

Definition slam_timer_delete (x : loc) (st : timer_state) : outcome timer_state :=
  DEREF t := ts_heap st !! x ;;
  _ ← match tm_ctx t with Some ctx => slam_lua_value_delete ctx | None => Ok None end;
  Ok (with_heap (delete x (ts_heap st)) st).

(** The [while] loop of [slam_timer_list_delete]. *)
Fixpoint timer_list_delete_loop (fuel : nat) (p : ptr) (st : timer_state)
    : outcome timer_state :=
  match p with
  | None => Ok st
  | Some x =>
      match fuel with
      | O => NoFuel
      | S fuel =>
          DEREF t := ts_heap st !! x ;;
          st ← slam_timer_delete x st;
          timer_list_delete_loop fuel (tm_next t) st
      end
  end.

Definition slam_timer_list_delete (fuel : nat) (st : timer_state) : outcome timer_state :=
  timer_list_delete_loop fuel (ts_head st) st.

(** "push_front": link [x] before the node [y]. *)
Definition link_before (x y : loc) (st : timer_state) : outcome timer_state :=
  st ← write_node x (set_next (Some y)) st;
  DEREF node := ts_heap st !! y ;;
  st ← write_node x (set_prev (tm_prev node)) st;
  DEREF node := ts_heap st !! y ;;
  st ← match tm_prev node with
       | Some p => write_node p (set_next (Some x)) st
       | None => Ok st
       end;
  st ← write_node y (set_prev (Some x)) st;
  if bool_decide (Some y = ts_head st) then Ok (with_head (Some x) st) else Ok st.

(** "push_back": link [x] after the last node [y]. *)
Definition link_after (x y : loc) (st : timer_state) : outcome timer_state :=
  st ← write_node x (set_prev (Some y)) st;
  st ← write_node x (set_next None) st;
  write_node y (set_next (Some x)) st.

(** The [while] loop of [slam_timer_list_add] at the node [y]. *)
Fixpoint timer_list_add_loop (fuel : nat) (x : loc) (y : loc) (st : timer_state)
    : outcome timer_state :=
  match fuel with
  | O => NoFuel
  | S fuel =>
      DEREF newnode := ts_heap st !! x ;;
      DEREF node := ts_heap st !! y ;;
      if tm_expire_time newnode <? tm_expire_time node then link_before x y st
      else
        match tm_next node with
        | None => link_after x y st
        | Some z => timer_list_add_loop fuel x z st
        end
  end.

Definition slam_timer_list_add (fuel : nat) (x : loc) (st : timer_state)
    : outcome timer_state :=
  match ts_head st with
  | None =>
      let st := with_head (Some x) st in
      st ← write_node x (set_next None) st;
      write_node x (set_prev None) st
  | Some y => timer_list_add_loop fuel x y st
  end.

Fixpoint timer_list_find_loop (fuel : nat) (ref : Z) (p : ptr) (st : timer_state)
    : outcome ptr :=
  match p with
  | None => Ok None
  | Some x =>
      match fuel with
      | O => NoFuel
      | S fuel =>
          DEREF t := ts_heap st !! x ;;
          if negb (tm_ref t =? ref) then timer_list_find_loop fuel ref (tm_next t) st
          else Ok (Some x)
      end
  end.

Definition slam_timer_list_find (fuel : nat) (ref : Z) (st : timer_state) : outcome ptr :=
  timer_list_find_loop fuel ref (ts_head st) st.

Definition slam_timer_list_remove_by_node (x : loc) (remove_timer : bool)
    (st : timer_state) : outcome timer_state :=
  st ←
    (if bool_decide (ts_head st = Some x) then
       DEREF t := ts_heap st !! x ;;
       let st := with_head (tm_next t) st in
       match tm_next t with
       | Some y => write_node y (set_prev None) st
       | None => Ok st
       end
     else
       DEREF t := ts_heap st !! x ;;
       match tm_prev t with
       | None => AssertFail
       | Some p =>
           st ← write_node p (set_next (tm_next t)) st;
           DEREF t := ts_heap st !! x ;;
           match tm_next t with
           | Some y => write_node y (set_prev (tm_prev t)) st
           | None => Ok st
           end
       end);
  if remove_timer then slam_timer_delete x st else Ok st.

Definition slam_timer_list_remove_by_ref (fuel : nat) (ref : Z) (remove_timer : bool)
    (st : timer_state) : outcome timer_state :=
  p ← slam_timer_list_find fuel ref st;
  match p with
  | None => Ok st                      (* "not found timer" *)
  | Some x => slam_timer_list_remove_by_node x remove_timer st
  end.

(** The result is an [int64_t]; [-1] is the constant the code returns. *)
Definition slam_timer_list_min_interval (st : timer_state) : outcome (Z * timer_state) :=
  let '(nowtime, st) := slam_milliseconds st in
  match ts_head st with
  | None => Ok (-1, st)
  | Some x =>
      DEREF t := ts_heap st !! x ;;
      if tm_expire_time t >? nowtime
      then Ok (i64 (u64 (tm_expire_time t - nowtime)), st)
      else Ok (-1, st)
  end.

(** The fuel every traversal of a list of live nodes needs. *)
Definition list_fuel (st : timer_state) : nat := S (size (ts_heap st)).

Definition slam_runnable_add_timer (interval : Z) (forever : bool) (ref : Z)
    (ctx : option slam_lua_value) (st : timer_state) : outcome (loc * timer_state) :=
  let '(x, st) := slam_timer_new interval forever ref ctx st in
  st ← slam_timer_list_add (list_fuel st) x st;
  Ok (x, st).

(** [slam_lua_unref] acts on the Lua registry, which is not part of the timer
    heap; the function returns the reference it releases. *)
Definition slam_runnable_remove_timer (ref : Z) (st : timer_state)
    : outcome (option Z * timer_state) :=
  p ← slam_timer_list_find (list_fuel st) ref st;
  match p with
  | None => Ok (None, st)              (* "not found timer" *)
  | Some x =>
      DEREF t := ts_heap st !! x ;;
      let unref := tm_ref t in
      st ← slam_timer_list_remove_by_node x true st;
      Ok (Some unref, st)
  end.

(** [slam_timer_list_run] triggers [slam_lua_event_timer] on the node it has
    just unlinked; [event_timer] stands for it, with a state [S] of its own. *)
Fixpoint timer_list_run_loop {S : Type}
    (event_timer : loc → S * timer_state → outcome (S * timer_state))
    (fuel : nat) (nowtime : Z) (s : S) (st : timer_state) : outcome (S * timer_state) :=
  match ts_head st with
  | None => Ok (s, st)
  | Some x =>
      DEREF t := ts_heap st !! x ;;
      if tm_expire_time t <=? nowtime then
        match fuel with
        | O => NoFuel
        | Datatypes.S fuel =>
            st ← slam_timer_list_remove_by_node x false st;
            '(s, st) ← event_timer x (s, st);
            DEREF t := ts_heap st !! x ;;
            st ← (if tm_forever t then
                    st ← write_node x (set_expire (u64 (nowtime + tm_interval t))) st;
                    slam_timer_list_add (list_fuel st) x st
                  else slam_timer_delete x st);
            timer_list_run_loop event_timer fuel nowtime s st
        end
      else Ok (s, st)
  end.

Definition slam_timer_list_run {S : Type}
    (event_timer : loc → S * timer_state → outcome (S * timer_state))
    (fuel : nat) (s : S) (st : timer_state) : outcome (S * timer_state) :=
  let '(nowtime, st) := slam_milliseconds st in
  timer_list_run_loop event_timer fuel nowtime s st.
End operations.

(** ** The representation: a doubly-linked segment

    [dlseg h pr l nx]: the nodes [l] are linked in order, the first one's
    [prev] is [pr] and the last one's [next] is [nx]. *)
Definition firstp (l : list loc) (nx : ptr) : ptr :=
  match l with [] => nx | y :: _ => Some y end.

Fixpoint lastp (pr : ptr) (l : list loc) : ptr :=
  match l with [] => pr | x :: l => lastp (Some x) l end.

Fixpoint dlseg (h : gmap loc slam_timer) (pr : ptr) (l : list loc) (nx : ptr) : Prop :=
  match l with
  | [] => True
  | x :: l' =>
      (∃ t, h !! x = Some t ∧ tm_prev t = pr ∧ tm_next t = firstp l' nx) ∧
      dlseg h (Some x) l' nx
  end.

Record dll (st : timer_state) (l : list loc) : Prop := {
  dll_nodup : NoDup l;
  dll_seg : dlseg (ts_heap st) None l None;
  dll_head : ts_head st = firstp l None;
  dll_brk : ∀ x, is_Some (ts_heap st !! x) → (x < ts_brk st)%positive;
}.

(** The data of a node, without its links. *)
Definition unlinked (t : slam_timer) : slam_timer := set_prev None (set_next None t).

Definition same_data (st st' : timer_state) : Prop :=
  unlinked <$> ts_heap st' = unlinked <$> ts_heap st ∧
  ts_brk st' = ts_brk st ∧ ts_ticks st' = ts_ticks st.

Definition expire (st : timer_state) (x : loc) : Z :=
  match ts_heap st !! x with Some t => tm_expire_time t | None => 0 end.

(** Insertion into the list before the first later timer. *)
Fixpoint insert_timer (exp : loc → Z) (x : loc) (l : list loc) : list loc :=
  match l with
  | [] => [x]
  | y :: l' => if exp x <? exp y then x :: y :: l' else y :: insert_timer exp x l'
  end.

Definition by_expire (st : timer_state) (x y : loc) : Prop := expire st x <= expire st y.

(** ** Segments *)
Lemma firstp_app l1 l2 nx : firstp (l1 ++ l2) nx = firstp l1 (firstp l2 nx).
Proof. by destruct l1. Qed.

Lemma lastp_app pr l1 l2 : lastp pr (l1 ++ l2) = lastp (lastp pr l1) l2.
Proof. revert pr. induction l1; simpl; auto. Qed.

Lemma dlseg_app h pr l1 l2 nx :
  dlseg h pr (l1 ++ l2) nx ↔ dlseg h pr l1 (firstp l2 nx) ∧ dlseg h (lastp pr l1) l2 nx.
Proof.
  revert pr. induction l1 as [|x l1 IH]; intros pr; simpl; [tauto|].
  rewrite IH, firstp_app. tauto.
Qed.

Lemma dlseg_frame h h' pr l nx :
  (∀ y, y ∈ l → h' !! y = h !! y) → dlseg h pr l nx → dlseg h' pr l nx.
Proof.
  revert pr. induction l as [|x l IH]; intros pr Hf; simpl; [done|].
  intros [(t & Ht & Hp & Hn) Hl]. split.
  - exists t. rewrite Hf by set_solver. done.
  - apply IH; [|done]. intros y Hy. apply Hf. set_solver.
Qed.

Lemma dlseg_insert_out h x t pr l nx :
  x ∉ l → dlseg h pr l nx → dlseg (<[x:=t]> h) pr l nx.
Proof.
  intros Hx. apply dlseg_frame. intros y Hy. apply lookup_insert_ne. set_solver.
Qed.

Lemma dlseg_delete_out h x pr l nx :
  x ∉ l → dlseg h pr l nx → dlseg (delete x h) pr l nx.
Proof.
  intros Hx. apply dlseg_frame. intros y Hy. apply lookup_delete_ne. set_solver.
Qed.

(** Re-aim the [prev] of the first node, and the [next] of the last one, in a
    heap [h'] that agrees with [h] on the other nodes. *)
Lemma dlseg_first h h' y t pr p l nx :
  h !! y = Some t → dlseg h pr (y :: l) nx →
  h' !! y = Some (set_prev p t) → (∀ z, z ∈ l → h' !! z = h !! z) →
  dlseg h' p (y :: l) nx.
Proof.
  intros Ht [(t' & Ht' & _ & Hn) Hl] Hy Hf. simplify_eq. split.
  - by exists (set_prev p t).
  - by apply dlseg_frame with h.
Qed.

Lemma dlseg_last h h' y t pr l nx n :
  h !! y = Some t → dlseg h pr (l ++ [y]) nx →
  h' !! y = Some (set_next n t) → (∀ z, z ∈ l → h' !! z = h !! z) →
  dlseg h' pr (l ++ [y]) n.
Proof.
  intros Ht. rewrite !dlseg_app. intros [Hl [(t' & Ht' & Hp & _) _]] Hy Hf. simplify_eq.
  split; [by apply dlseg_frame with h|]. split; [|done]. by exists (set_next n t).
Qed.

Lemma dlseg_lookup h pr l nx x :
  dlseg h pr l nx → x ∈ l → is_Some (h !! x).
Proof.
  revert pr. induction l as [|y l IH]; intros pr; [set_solver|].
  intros [(t & Ht & _) Hl] Hx. apply elem_of_cons in Hx as [->|Hx]; eauto.
Qed.

Lemma lastp_snoc pr l y : lastp pr (l ++ [y]) = Some y.
Proof. by rewrite lastp_app. Qed.

Lemma dlseg_middle h pr l1 x l2 nx :
  dlseg h pr (l1 ++ x :: l2) nx →
  ∃ t, h !! x = Some t ∧ tm_prev t = lastp pr l1 ∧ tm_next t = firstp l2 nx.
Proof. rewrite dlseg_app. intros [_ [? _]]. done. Qed.

(** ** Data is kept by writes to links *)
Lemma same_data_refl st : same_data st st.
Proof. done. Qed.

Lemma same_data_trans st1 st2 st3 :
  same_data st1 st2 → same_data st2 st3 → same_data st1 st3.
Proof. unfold same_data. intros (? & ? & ?) (? & ? & ?). split_and!; congruence. Qed.

#[export] Instance same_data_preorder : PreOrder same_data.
Proof. split; [exact same_data_refl|exact same_data_trans]. Qed.

Lemma same_data_lookup st st' x :
  same_data st st' → unlinked <$> ts_heap st' !! x = unlinked <$> ts_heap st !! x.
Proof. intros (E & _). by rewrite <- !lookup_fmap, E. Qed.

Lemma same_data_is_Some st st' x :
  same_data st st' → is_Some (ts_heap st !! x) ↔ is_Some (ts_heap st' !! x).
Proof.
  intros H%(same_data_lookup _ _ x).
  destruct (ts_heap st !! x), (ts_heap st' !! x); simplify_eq/=; split; intros []; eauto; done.
Qed.

Lemma same_data_expire st st' x : same_data st st' → expire st' x = expire st x.
Proof.
  intros H%(same_data_lookup _ _ x). unfold expire.
  destruct (ts_heap st !! x) as [t|], (ts_heap st' !! x) as [t'|]; simplify_eq/=; [|done].
  destruct t, t'. by simplify_eq/=.
Qed.

Lemma write_node_ok st x t f :
  ts_heap st !! x = Some t →
  write_node x f st = Ok (with_heap (<[x:=f t]> (ts_heap st)) st).
Proof. unfold write_node. by intros ->. Qed.

(** Solve a lookup in a heap of nested updates. *)
Ltac heap_lookup :=
  simpl; rewrite ?lookup_insert, ?lookup_delete;
  repeat case_decide; simplify_eq/=; eauto; try done; try set_solver.

(** Run the writes of a pointer program whose nodes are known. *)
Ltac run_writes :=
  repeat (first [ erewrite write_node_ok by heap_lookup
                | rewrite bind_ok
                | erewrite (lookup_insert_ne (M := gmap loc)) by done
                | erewrite (lookup_insert_eq (M := gmap loc)) ]; simpl).

Lemma with_heap_data st h :
  unlinked <$> h = unlinked <$> ts_heap st → same_data st (with_heap h st).
Proof. done. Qed.

(** Writes to links of live nodes keep every node's data. *)
Ltac data_kept :=
  simpl; apply map_eq; intros ?z; rewrite !lookup_fmap, ?lookup_insert;
  repeat case_decide; simplify_eq/=;
  repeat match goal with E : ts_heap _ !! _ = Some _ |- _ => rewrite E; clear E end; reflexivity.

Lemma dll_brk_same st st' l :
  same_data st st' → dll st l → ∀ x, is_Some (ts_heap st' !! x) → (x < ts_brk st')%positive.
Proof.
  intros Hd H x Hx. pose proof Hd as (_ & -> & _).
  apply (dll_brk _ _ H). by rewrite (same_data_is_Some _ _ x Hd).
Qed.

(** ** Linking and unlinking a node *)
Lemma link_before_head st y l2 x tx :
  dll st (y :: l2) → x ∉ (y :: l2) → ts_heap st !! x = Some tx →
  returns (link_before x y st) (λ st', dll st' (x :: y :: l2) ∧ same_data st st').
Proof.
  intros H Hx Htx. pose proof H as [Hnd Hseg Hhead Hbrk].
  destruct (dlseg_middle _ _ [] _ _ _ Hseg) as (ty & Hty & Hprev & Hnext).
  simpl in Hprev. apply not_elem_of_cons in Hx as [Hxy Hx]. apply NoDup_cons in Hnd as [Hy Hnd].
  unfold link_before. run_writes. rewrite Hty. run_writes. rewrite Hty, Hprev. run_writes.
  rewrite Hhead, bool_decide_eq_true_2 by done. apply returns_ok.
  match goal with |- dll ?st' _ ∧ _ => assert (same_data st st') as Hd end.
  { split_and!; [data_kept|done|done]. }
  split; [|done]. split; [by rewrite !NoDup_cons, not_elem_of_cons| |done|by apply (dll_brk_same _ _ _ Hd H)].
  simpl. split; [eexists; split; [heap_lookup|done]|].
  apply (dlseg_first (ts_heap st) _ y ty None (Some x) l2 None); [done|done|heap_lookup|].
  intros z Hz. heap_lookup.
Qed.

Lemma NoDup_middle (l1 l2 : list loc) x :
  NoDup (l1 ++ x :: l2) ↔ NoDup (l1 ++ l2) ∧ x ∉ l1 ∧ x ∉ l2.
Proof.
  rewrite <- Permutation_middle, NoDup_cons, not_elem_of_app. tauto.
Qed.

Lemma NoDup_add (l1 l2 : list loc) x : NoDup (l1 ++ l2) → x ∉ (l1 ++ l2) → NoDup (l1 ++ x :: l2).
Proof. rewrite NoDup_middle, not_elem_of_app. tauto. Qed.

Lemma elem_of_ne (z y : loc) (l : list loc) : z ∈ l → y ∉ l → y ≠ z.
Proof. congruence. Qed.

Lemma link_before_middle st l1 p y l2 x tx :
  dll st (l1 ++ p :: y :: l2) → x ∉ (l1 ++ p :: y :: l2) → ts_heap st !! x = Some tx →
  returns (link_before x y st) (λ st', dll st' (l1 ++ p :: x :: y :: l2) ∧ same_data st st').
Proof.
  intros H Hx Htx. pose proof H as [Hnd Hseg Hhead Hbrk].
  destruct (dlseg_middle _ _ _ _ _ _ Hseg) as (tp & Htp & _ & _).
  replace (l1 ++ p :: y :: l2) with ((l1 ++ [p]) ++ y :: l2) in * by by rewrite <- app_assoc.
  destruct (dlseg_middle _ _ _ _ _ _ Hseg) as (ty & Hty & Hprev & _).
  rewrite lastp_snoc in Hprev.
  pose proof (NoDup_add _ _ _ Hnd Hx) as Hnd'.
  rewrite <- app_assoc in Hnd'. apply NoDup_app in Hnd as (Hnd1 & Hdis & Hnd2).
  apply NoDup_cons in Hnd2 as [Hy _]. rewrite <- (app_nil_r l1), <- app_assoc in Hnd1.
  apply not_elem_of_app in Hx as [[Hx1 Hxp]%not_elem_of_app [Hxy Hx2]%not_elem_of_cons].
  apply not_elem_of_cons in Hxp as [Hxp _].
  apply NoDup_middle in Hnd1 as (_ & Hp1 & _).
  assert (p ≠ y ∧ p ∉ l2) as [Hpy Hp2].
  { specialize (Hdis p ltac:(apply elem_of_app; right; by left)).
    by apply not_elem_of_cons in Hdis. }
  assert (y ∉ l1) as Hy1.
  { intros Hin. apply (Hdis y); [apply elem_of_app; by left|by left]. }
  unfold link_before. run_writes. rewrite Hty. run_writes. rewrite Hty, Hprev. run_writes.
  rewrite Hhead, firstp_app, bool_decide_eq_false_2 by (destruct l1; simpl; congruence || (intros [= ->]; apply Hy1; by left)).
  apply returns_ok.
  match goal with |- dll ?st' _ ∧ _ => assert (same_data st st') as Hd end.
  { split_and!; [data_kept|done|done]. }
  split; [|done]. apply dlseg_app in Hseg as [Hs1 Hs2].
  split; [done| | |by apply (dll_brk_same _ _ _ Hd H)].
  - replace (l1 ++ p :: x :: y :: l2) with ((l1 ++ [p]) ++ x :: y :: l2) by by rewrite <- app_assoc.
    apply dlseg_app. split.
    + apply (dlseg_last (ts_heap st) _ p tp None l1 (Some y)); [done|done|heap_lookup|].
      intros z Hz. heap_lookup.
    + rewrite lastp_snoc. simpl. split; [eexists; split; [heap_lookup|done]|].
      apply (dlseg_first (ts_heap st) _ y ty (Some p) (Some x) l2 None);
        [done|by rewrite lastp_snoc in Hs2|heap_lookup|].
      intros z Hz. heap_lookup.
  - simpl. rewrite Hhead. by destruct l1.
Qed.

Lemma link_after_spec st l1 y x tx :
  dll st (l1 ++ [y]) → x ∉ (l1 ++ [y]) → ts_heap st !! x = Some tx →
  returns (link_after x y st) (λ st', dll st' (l1 ++ [y; x]) ∧ same_data st st').
Proof.
  intros H Hx Htx. pose proof H as [Hnd Hseg Hhead Hbrk].
  destruct (dlseg_middle _ _ _ _ _ _ Hseg) as (ty & Hty & Hprev & _).
  pose proof (NoDup_add (l1 ++ [y]) [] x) as Hnd'. rewrite app_nil_r, <- app_assoc in Hnd'.
  specialize (Hnd' Hnd Hx).
  apply not_elem_of_app in Hx as [Hx1 [Hxy _]%not_elem_of_cons].
  apply NoDup_middle in Hnd as (_ & Hy1 & _).
  unfold link_after. run_writes. apply returns_ok.
  match goal with |- dll ?st' _ ∧ _ => assert (same_data st st') as Hd end.
  { split_and!; [data_kept|done|done]. }
  split; [|done].
  split; [done| | |by apply (dll_brk_same _ _ _ Hd H)].
  - replace (l1 ++ [y; x]) with ((l1 ++ [y]) ++ [x]) by by rewrite <- app_assoc.
    apply dlseg_app. split.
    + apply (dlseg_last (ts_heap st) _ y ty None l1 None); [done|done|heap_lookup|].
      intros z Hz. heap_lookup.
    + rewrite lastp_snoc. simpl. split; [|done]. eexists. split; [heap_lookup|done].
  - simpl. rewrite Hhead. by destruct l1.
Qed.

Lemma expire_lookup st x t : ts_heap st !! x = Some t → expire st x = tm_expire_time t.
Proof. unfold expire. by intros ->. Qed.

Lemma add_loop_spec l2 : ∀ l1 y st fuel x tx,
  dll st (l1 ++ y :: l2) → x ∉ (l1 ++ y :: l2) → ts_heap st !! x = Some tx →
  (length (y :: l2) <= fuel)%nat →
  returns (timer_list_add_loop fuel x y st) (λ st',
    dll st' (l1 ++ insert_timer (expire st) x (y :: l2)) ∧ same_data st st').
Proof.
  induction l2 as [|z l2 IH]; intros l1 y st [|fuel] x tx H Hx Htx Hf; simpl in Hf; try lia;
    simpl; rewrite Htx; pose proof (dll_seg _ _ H) as Hseg;
    destruct (dlseg_middle _ _ _ _ _ _ Hseg) as (ty & Hty & Hprev & Hnext);
    rewrite Hty, (expire_lookup _ _ _ Htx), (expire_lookup _ _ _ Hty).
  - zcase.
    + destruct l1 as [|p l1 _] using rev_ind; [by eapply link_before_head|].
      rewrite <- app_assoc in *. by eapply link_before_middle.
    + simpl in Hnext. rewrite Hnext. by eapply link_after_spec.
  - zcase.
    + destruct l1 as [|p l1 _] using rev_ind; [by eapply link_before_head|].
      rewrite <- app_assoc in *. by eapply link_before_middle.
    + simpl in Hnext. rewrite Hnext.
      replace (l1 ++ y :: z :: l2) with ((l1 ++ [y]) ++ z :: l2) in * by by rewrite <- app_assoc.
      eapply returns_mono; [eapply IH; eauto; simpl; lia|].
      intros st' [Hd' Hs']. rewrite <- app_assoc in Hd'. simpl in Hd'.
      by rewrite (expire_lookup _ _ _ Htx) in Hd'.
Qed.

Lemma dll_length st l : dll st l → (length l <= size (ts_heap st))%nat.
Proof.
  intros H. rewrite <- size_dom, <- (size_list_to_set (C := gset loc) l) by apply H.
  apply subseteq_size. intros x Hx%elem_of_list_to_set. apply elem_of_dom.
  eapply dlseg_lookup; [apply H|done].
Qed.

(** [slam_timer_list_add] is ordered insertion on the list. *)
Lemma slam_timer_list_add_spec st l x tx :
  dll st l → x ∉ l → ts_heap st !! x = Some tx →
  returns (slam_timer_list_add (list_fuel st) x st) (λ st',
    dll st' (insert_timer (expire st) x l) ∧ same_data st st').
Proof.
  intros H Hx Htx. unfold slam_timer_list_add. pose proof (dll_head _ _ H) as Hhead.
  destruct l as [|y l]; simpl in Hhead; rewrite Hhead.
  - run_writes. apply returns_ok.
    match goal with |- dll ?st' _ ∧ _ => assert (same_data st st') as Hd end.
    { split_and!; [data_kept|done|done]. }
    split; [|done]. split; [apply NoDup_singleton| |done|by apply (dll_brk_same _ _ _ Hd H)].
    simpl. split; [|done]. eexists. split; [heap_lookup|done].
  - eapply (add_loop_spec l []); [done|done|done|].
    pose proof (dll_length _ _ H) as Hlen. unfold list_fuel. simpl in *. lia.
Qed.

(** ** Unlinking *)
Lemma unlink_head st x l2 :
  dll st (x :: l2) →
  returns (slam_timer_list_remove_by_node x false st) (λ st',
    dll st' l2 ∧ same_data st st' ∧ ts_heap st' !! x = ts_heap st !! x).
Proof.
  intros H. pose proof H as [Hnd Hseg Hhead Hbrk].
  destruct (dlseg_middle _ _ [] _ _ _ Hseg) as (tx & Htx & Hprev & Hnext).
  apply NoDup_cons in Hnd as [Hx2 Hnd2]. destruct Hseg as [_ Hs2].
  unfold slam_timer_list_remove_by_node. rewrite Hhead.
  rewrite bool_decide_eq_true_2 by done. rewrite Htx, Hnext.
  destruct l2 as [|y l2]; simpl.
  + apply returns_ok.
    assert (same_data st (with_head None st)) as Hd by done.
    split_and!; [|done|done]. split; [constructor|done|done|by apply (dll_brk_same _ _ _ Hd H)].
  + destruct (dlseg_middle _ _ [] _ _ _ Hs2) as (ty & Hty & Hyp & _).
    apply not_elem_of_cons in Hx2 as [Hxy Hx2]. apply NoDup_cons in Hnd2 as [Hy2 Hnd2].
    run_writes. apply returns_ok.
    match goal with |- dll ?st' _ ∧ _ => assert (same_data st st') as Hd end.
    { split_and!; [data_kept|done|done]. }
    split_and!; [|done|heap_lookup].
    split; [by apply NoDup_cons| |done|by apply (dll_brk_same _ _ _ Hd H)].
    apply (dlseg_first (ts_heap st) _ y ty (Some x) None l2 None); [done|done|heap_lookup|].
    intros z Hz. heap_lookup.
Qed.

Lemma unlink_after st l1 p x l2 :
  dll st ((l1 ++ [p]) ++ x :: l2) →
  returns (slam_timer_list_remove_by_node x false st) (λ st',
    dll st' ((l1 ++ [p]) ++ l2) ∧ same_data st st' ∧ ts_heap st' !! x = ts_heap st !! x).
Proof.
  intros H. pose proof H as [Hnd Hseg Hhead Hbrk].
  destruct (dlseg_middle _ _ _ _ _ _ Hseg) as (tx & Htx & Hprev & Hnext).
  pose proof Hnd as [Hnd' [Hx1 Hx2]]%NoDup_middle.
  pose proof Hnd' as (Hnd1 & Hdis & Hnd2)%NoDup_app.
  apply dlseg_app in Hseg as [Hs1 [_ Hs2]].
  unfold slam_timer_list_remove_by_node. rewrite Hhead.
  rewrite firstp_app in *. rewrite bool_decide_eq_false_2; last first.
  { destruct l1; simpl; intros [= ->]; apply Hx1; set_solver. }
  rewrite lastp_snoc in *. rewrite Htx, Hprev.
  destruct (dlseg_middle _ _ _ _ _ _ Hs1) as (tp & Htp & _ & _).
  apply not_elem_of_app in Hx1 as [Hx1 [Hxp _]%not_elem_of_cons].
  rewrite <- (app_nil_r l1), <- app_assoc in Hnd1.
  pose proof Hnd1 as (_ & Hp1 & _)%NoDup_middle.
  assert (p ∉ l2) as Hp2 by (apply Hdis; apply elem_of_app; right; by left).
  run_writes. rewrite Htx, Hnext. destruct l2 as [|y l2]; simpl.
  + apply returns_ok.
    match goal with |- dll ?st' _ ∧ _ => assert (same_data st st') as Hd end.
    { split_and!; [data_kept|done|done]. }
    split_and!; [|done|heap_lookup]. rewrite app_nil_r in *.
    split; [done| |simpl; rewrite Hhead; by destruct l1|by apply (dll_brk_same _ _ _ Hd H)].
    apply (dlseg_last (ts_heap st) _ p tp None l1 (Some x)); [done|done|heap_lookup|].
    intros z Hz. heap_lookup.
  + destruct (dlseg_middle _ _ [] _ _ _ Hs2) as (ty & Hty & Hyp & _).
    apply not_elem_of_cons in Hx2 as [Hxy Hx2]. apply NoDup_cons in Hnd2 as [Hy2 Hnd2].
    apply not_elem_of_cons in Hp2 as [Hpy Hp2].
    assert (y ∉ l1) as Hy1.
    { intros Hin. apply (Hdis y); [apply elem_of_app; by left|by left]. }
    run_writes. rewrite Hprev. run_writes. apply returns_ok.
    match goal with |- dll ?st' _ ∧ _ => assert (same_data st st') as Hd end.
    { split_and!; [data_kept|done|done]. }
    split_and!; [|done|heap_lookup].
    split; [done| |simpl; rewrite Hhead; by destruct l1|by apply (dll_brk_same _ _ _ Hd H)].
    apply dlseg_app. rewrite lastp_snoc. split.
    * apply (dlseg_last (ts_heap st) _ p tp None l1 (Some x)); [done|done|heap_lookup|].
      intros z Hz. heap_lookup.
    * apply (dlseg_first (ts_heap st) _ y ty (Some x) (Some p) l2 None); [done|done|heap_lookup|].
      intros z Hz. heap_lookup.
Qed.

Lemma unlink_spec st l1 x l2 :
  dll st (l1 ++ x :: l2) →
  returns (slam_timer_list_remove_by_node x false st) (λ st',
    dll st' (l1 ++ l2) ∧ same_data st st' ∧ ts_heap st' !! x = ts_heap st !! x).
Proof.
  destruct l1 as [|p l1 _] using rev_ind; [apply unlink_head|apply unlink_after].
Qed.
