(* ===== verification/TimerRun.v ===== *)
(** * Ownership and order of timers; the run loop

    The invariant of a timer heap, that every operation of [TimerList] keeps
    it, and what [slam_timer_list_run] does: for callbacks that add and remove
    timers, for callbacks that leave the timers alone, and for a timer of
    interval zero. *)

From S2P Require Import Prelude LuaValue TimerList.

(** ** The invariant

    [timers_ok det st l]: the list holds the nodes [l] in the order of expiry;
    the live nodes are those of [l] and the detached ones [det] (unlinked and
    not yet freed); every context a node owns can be released. *)
Record timers_ok (det : list loc) (st : timer_state) (l : list loc) : Prop := {
  ok_dll : dll st l;
  ok_sorted : StronglySorted (by_expire st) l;
  ok_live : ∀ y, is_Some (ts_heap st !! y) ↔ y ∈ det ++ l;
  ok_nodup : NoDup (det ++ l);
  ok_ctx : ∀ y t ctx, ts_heap st !! y = Some t → tm_ctx t = Some ctx → lv_wf ctx;
}.

(** The due timers and the ones that stay. *)
Definition due (st : timer_state) (nowtime : Z) (x : loc) : Prop := expire st x <= nowtime.

(** A timer's data apart from the links, in list order. *)
Definition data_at (st : timer_state) (x : loc) : option slam_timer := unlinked <$> ts_heap st !! x.

(** ** A Lua callback, as far as the timers are concerned: the calls of
    [newTimer] and [removeTimer] it makes before it returns. *)
Inductive timer_script :=
  | TDone
  | TAdd (interval : Z) (forever : bool) (ref : Z) (ctx : option lua_datum) (k : timer_script)
  | TRemove (ref : Z) (k : timer_script).

Section scripts.
Context (gettimeofday : nat → Z * Z).

Definition lua_ctx (d : lua_datum) : slam_lua_value := set_datum slam_lua_value_new d.

Fixpoint run_script (s : timer_script) (st : timer_state) : outcome timer_state :=
  match s with
  | TDone => Ok st
  | TAdd interval forever ref ctx k =>
      '(_, st) ← slam_runnable_add_timer gettimeofday interval forever ref (lua_ctx <$> ctx) st;
      run_script k st
  | TRemove ref k =>
      '(_, st) ← slam_runnable_remove_timer ref st;
      run_script k st
  end.

(** The callback of a timer: the closure its reference names. *)
Definition script_event (closures : Z → timer_script) (x : loc) (s : list Z * timer_state)
    : outcome (list Z * timer_state) :=
  let '(log, st) := s in
  DEREF t := ts_heap st !! x ;;
  st ← run_script (closures (tm_ref t)) st;
  Ok (log ++ [tm_ref t], st).
End scripts.

(** ** Ordered insertion *)
Lemma insert_timer_perm exp x l : insert_timer exp x l ≡ₚ x :: l.
Proof.
  induction l as [|y l IH]; simpl; [done|]. zcase; [done|].
  rewrite IH. apply Permutation_swap.
Qed.

Lemma insert_timer_ext exp exp' x l :
  (∀ y, exp y = exp' y) → insert_timer exp x l = insert_timer exp' x l.
Proof. intros H. induction l as [|y l IH]; simpl; [done|]. by rewrite IH, !H. Qed.

(** Insertion goes after every timer that is not later. *)
Lemma insert_timer_split exp x l :
  ∃ l1 l2, l = l1 ++ l2 ∧ insert_timer exp x l = l1 ++ x :: l2 ∧
    Forall (λ y, exp y <= exp x) l1 ∧ (∀ y, head l2 = Some y → exp x < exp y).
Proof.
  induction l as [|y l IH]; simpl.
  - exists [], []. by split_and!.
  - zcase.
    + exists [], (y :: l). split_and!; try done. by intros ? [= <-].
    + destruct IH as (l1 & l2 & -> & -> & H1 & H2). exists (y :: l1), l2.
      split_and!; try done. by constructor.
Qed.

Lemma sorted_tail_late st x l :
  StronglySorted (by_expire st) l → (∀ y, head l = Some y → expire st x < expire st y) →
  Forall (λ y, expire st x < expire st y) l.
Proof.
  intros Hs Hh. destruct l as [|y l]; [constructor|].
  specialize (Hh y eq_refl). apply StronglySorted_inv in Hs as [_ Hy].
  constructor; [done|]. eapply Forall_impl; [exact Hy|]. unfold by_expire. intros; lia.
Qed.

Lemma insert_timer_sorted st x l :
  StronglySorted (by_expire st) l → StronglySorted (by_expire st) (insert_timer (expire st) x l).
Proof.
  induction l as [|y l IH]; intros Hs; simpl; [by repeat constructor|].
  pose proof Hs as [Hs' Hy]%StronglySorted_inv. zcase.
  - constructor; [done|]. constructor; [unfold by_expire; lia|].
    eapply Forall_impl; [exact Hy|]. unfold by_expire. intros; lia.
  - constructor; [auto|]. rewrite insert_timer_perm. by constructor.
Qed.

Lemma by_expire_same st st' l :
  (∀ y, y ∈ l → expire st' y = expire st y) →
  StronglySorted (by_expire st) l → StronglySorted (by_expire st') l.
Proof.
  induction l as [|y l IH]; intros He Hs; [constructor|].
  apply StronglySorted_inv in Hs as [Hs Hy]. constructor; [apply IH; [set_solver|done]|].
  rewrite Forall_forall in *. intros z Hz. unfold by_expire in *.
  rewrite !He by set_solver. by apply Hy.
Qed.

Lemma ctx_same st st' det l y t ctx :
  timers_ok det st l → same_data st st' → ts_heap st' !! y = Some t → tm_ctx t = Some ctx → lv_wf ctx.
Proof.
  intros H Hd Ht Hc. pose proof (same_data_lookup _ _ y Hd) as E. rewrite Ht in E.
  destruct (ts_heap st !! y) as [t0|] eqn:E0; simplify_eq/=.
  apply (ok_ctx _ _ _ H y t0); [done|]. destruct t, t0; simplify_eq/=. done.
Qed.

(** ** The operations keep the invariant *)
Lemma ok_detached det x st l : timers_ok (x :: det) st l → is_Some (ts_heap st !! x) ∧ x ∉ l ∧ x ∉ det.
Proof.
  intros H. pose proof (ok_nodup _ _ _ H) as [Hx _]%NoDup_cons.
  rewrite not_elem_of_app in Hx. split_and!; [|tauto|tauto].
  apply (ok_live _ _ _ H). simpl. by left.
Qed.

Lemma ok_listed det st l x : timers_ok det st l → x ∈ l → ∃ t, ts_heap st !! x = Some t.
Proof. intros H Hx. apply (ok_live _ _ _ H), elem_of_app. by right. Qed.

Lemma new_timers_ok : timers_ok [] slam_timer_list_new [].
Proof.
  split; simpl.
  - split; simpl; [constructor|done|done|]. intros x. rewrite lookup_empty. by intros [].
  - constructor.
  - intros y. rewrite lookup_empty. split; [by intros []|by intros ?%elem_of_nil].
  - constructor.
  - intros y t ctx. by rewrite lookup_empty.
Qed.

(** Writes to links, with a new list of the same nodes. *)
Lemma ok_same det det' st st' l l' :
  timers_ok det st l → same_data st st' → dll st' l' → det' ++ l' ≡ₚ det ++ l →
  StronglySorted (by_expire st) l' → timers_ok det' st' l'.
Proof.
  intros H Hd Hl Hp Hs. split.
  - done.
  - eapply by_expire_same; [|exact Hs]. intros y _. by apply same_data_expire.
  - intros y. by rewrite <- (same_data_is_Some _ _ y Hd), (ok_live _ _ _ H), Hp.
  - rewrite Hp. apply H.
  - intros y t ctx. by eapply ctx_same.
Qed.

Lemma ok_add det st l x :
  timers_ok (x :: det) st l →
  returns (slam_timer_list_add (list_fuel st) x st) (λ st',
    timers_ok det st' (insert_timer (expire st) x l) ∧ same_data st st').
Proof.
  intros H. destruct (ok_detached _ _ _ _ H) as ([t Ht] & Hx & _).
  eapply returns_mono; [by eapply slam_timer_list_add_spec; [apply H|..]|].
  intros st' [Hl Hd]. split; [|done]. eapply ok_same; [done..| |].
  - by rewrite insert_timer_perm, <- Permutation_middle.
  - apply insert_timer_sorted, H.
Qed.

Lemma sorted_remove (R : loc → loc → Prop) l1 x l2 :
  StronglySorted R (l1 ++ x :: l2) → StronglySorted R (l1 ++ l2).
Proof.
  induction l1 as [|y l1 IH]; simpl; intros [Hs Hy]%StronglySorted_inv; [done|].
  constructor; [auto|]. rewrite Forall_app in *. destruct Hy as [? Hy%Forall_cons]. tauto.
Qed.

Lemma sorted_suffix (R : loc → loc → Prop) l1 l2 :
  StronglySorted R (l1 ++ l2) → StronglySorted R l2.
Proof. induction l1 as [|y l1 IH]; simpl; [done|]. intros [Hs _]%StronglySorted_inv. auto. Qed.

Lemma ok_unlink det st l1 x l2 :
  timers_ok det st (l1 ++ x :: l2) →
  returns (slam_timer_list_remove_by_node x false st) (λ st',
    timers_ok (x :: det) st' (l1 ++ l2) ∧ same_data st st').
Proof.
  intros H. eapply returns_mono; [apply unlink_spec, H|].
  intros st' (Hl & Hd & _). split; [|done]. eapply ok_same; [done..| |].
  - simpl. by rewrite !(assoc_L (++)), <- Permutation_middle.
  - eapply sorted_remove, H.
Qed.

Lemma ok_free det st l x :
  timers_ok (x :: det) st l →
  ∃ st', slam_timer_delete x st = Ok st' ∧ st' = with_heap (delete x (ts_heap st)) st ∧
    timers_ok det st' l.
Proof.
  intros H. destruct (ok_detached _ _ _ _ H) as ([t Ht] & Hx & Hx').
  exists (with_heap (delete x (ts_heap st)) st). split_and!; [|done|].
  { unfold slam_timer_delete. rewrite Ht. destruct (tm_ctx t) as [ctx|] eqn:E; [|done].
    destruct (delete_wf ctx) as [s ->]; [by eapply (ok_ctx _ _ _ H)|done]. }
  pose proof (ok_dll _ _ _ H) as [Hnd Hseg Hhead Hbrk]. split.
  - split; [done|by apply dlseg_delete_out|done|].
    simpl. intros y Hy. apply Hbrk. rewrite lookup_delete_is_Some in Hy. tauto.
  - eapply by_expire_same; [|apply H]. intros y Hy. unfold expire. simpl.
    by rewrite lookup_delete_ne by congruence.
  - intros y. simpl. rewrite lookup_delete_is_Some, (ok_live _ _ _ H). simpl.
    rewrite elem_of_cons. split; [naive_solver|]. intros Hy. split; [|by right].
    intros ->. by apply elem_of_app in Hy as [].
  - by apply (NoDup_cons_1_2 x), H.
  - simpl. intros y t' ctx [_ Hy]%lookup_delete_Some. by eapply (ok_ctx _ _ _ H).
Qed.

Lemma ok_new g det st l interval forever ref ctx :
  timers_ok det st l → (∀ c, ctx = Some c → lv_wf c) →
  let '(x, st') := slam_timer_new g interval forever ref ctx st in
  timers_ok (x :: det) st' l ∧ ts_heap st !! x = None ∧
  ts_heap st' = <[x := {| tm_interval := interval;
                          tm_expire_time := u64 ((slam_milliseconds g st).1 + interval);
                          tm_forever := forever; tm_ref := ref; tm_ctx := ctx;
                          tm_prev := None; tm_next := None |}]> (ts_heap st).
Proof.
  intros H Hc. unfold slam_timer_new, slam_milliseconds.
  destruct (g (ts_ticks st)) as [s us]. simpl.
  pose proof (ok_dll _ _ _ H) as [Hnd Hseg Hhead Hbrk].
  assert (ts_heap st !! ts_brk st = None) as Hfresh.
  { apply eq_None_not_Some. intros Hs%Hbrk. lia. }
  assert (ts_brk st ∉ det ++ l) as Hx.
  { rewrite <- (ok_live _ _ _ H), Hfresh. by intros []. }
  split_and!; [|done|done]. split; simpl.
  - split; simpl; [done| |done|].
    + apply dlseg_insert_out; [set_solver|done].
    + intros y [->|Hy]%lookup_insert_is_Some'; [lia|]. apply Hbrk in Hy. lia.
  - eapply by_expire_same; [|apply H]. intros y Hy. unfold expire. simpl.
    rewrite lookup_insert_ne; [done|set_solver].
  - intros y. rewrite lookup_insert_is_Some', (ok_live _ _ _ H), elem_of_cons. naive_solver.
  - constructor; [done|apply H].
  - intros y t ctx' [[<- <-]|[_ Hy]]%lookup_insert_Some; [by apply Hc|].
    by eapply (ok_ctx _ _ _ H).
Qed.

Lemma ok_expire det st l x e :
  timers_ok (x :: det) st l →
  ∃ t, ts_heap st !! x = Some t ∧
    write_node x (set_expire e) st = Ok (with_heap (<[x := set_expire e t]> (ts_heap st)) st) ∧
    timers_ok (x :: det) (with_heap (<[x := set_expire e t]> (ts_heap st)) st) l.
Proof.
  intros H. destruct (ok_detached _ _ _ _ H) as ([t Ht] & Hx & Hx').
  exists t. split_and!; [done|by apply write_node_ok|].
  pose proof (ok_dll _ _ _ H) as [Hnd Hseg Hhead Hbrk]. split; simpl.
  - split; simpl; [done|by apply dlseg_insert_out|done|].
    intros y [->|Hy]%lookup_insert_is_Some'; apply Hbrk; eauto.
  - eapply by_expire_same; [|apply H]. intros y Hy. unfold expire. simpl.
    by rewrite lookup_insert_ne by congruence.
  - intros y. rewrite lookup_insert_is_Some', (ok_live _ _ _ H). simpl. rewrite elem_of_cons.
    naive_solver.
  - apply H.
  - intros y t' ctx [[<- <-]|[_ Hy]]%lookup_insert_Some Hc; by eapply (ok_ctx _ _ _ H).
Qed.

(** ** Finding a timer *)
Lemma find_loop_spec st ref l fuel :
  dlseg (ts_heap st) None l None ∨ (∃ pr, dlseg (ts_heap st) pr l None) →
  (length l <= fuel)%nat →
  timer_list_find_loop fuel ref (firstp l None) st =
    Ok (head (filter (λ x, tm_ref <$> ts_heap st !! x = Some ref) l)).
Proof.
  intros H Hf. assert (∃ pr, dlseg (ts_heap st) pr l None) as [pr Hl] by (destruct H; eauto).
  clear H. revert fuel pr Hl Hf. induction l as [|x l IH]; intros fuel pr Hl Hf; [by destruct fuel|].
  destruct fuel as [|fuel]; simpl in Hf; [lia|]. destruct Hl as [(t & Ht & _ & Hn) Hl].
  simpl. rewrite Ht. rewrite filter_cons. zcase_on (tm_ref t =? ref); simpl.
  - rewrite decide_True by (rewrite Ht; simpl; congruence). done.
  - rewrite decide_False by (rewrite Ht; simpl; congruence).
    rewrite Hn. eapply IH; [done|lia].
Qed.

(** The first listed timer with the reference. *)
Definition find_ref (st : timer_state) (ref : Z) (l : list loc) : ptr :=
  head (filter (λ x, tm_ref <$> ts_heap st !! x = Some ref) l).

Lemma find_spec st l ref :
  dll st l → slam_timer_list_find (list_fuel st) ref st = Ok (find_ref st ref l).
Proof.
  intros H. unfold slam_timer_list_find. rewrite (dll_head _ _ H).
  apply find_loop_spec; [left; apply H|].
  pose proof (dll_length _ _ H). unfold list_fuel. lia.
Qed.

Lemma head_filter_split (P : loc → Prop) `{∀ x, Decision (P x)} l x :
  head (filter P l) = Some x → ∃ l1 l2, l = l1 ++ x :: l2 ∧ P x ∧ Forall (λ y, ¬ P y) l1.
Proof.
  induction l as [|y l IH]; [done|]. rewrite filter_cons. case_decide as Hy.
  - intros [= ->]. exists [], l. by split_and!.
  - intros (l1 & l2 & -> & Hx & Hl)%IH. exists (y :: l1), l2. split_and!; [done|done|by constructor].
Qed.

Lemma head_filter_none (P : loc → Prop) `{∀ x, Decision (P x)} l :
  head (filter P l) = None → Forall (λ y, ¬ P y) l.
Proof.
  induction l as [|y l IH]; [constructor|]. rewrite filter_cons. case_decide; [done|].
  constructor; auto.
Qed.

(** ** The two calls of the runnable *)
Lemma data_same st st' y : same_data st st' → data_at st' y = data_at st y.
Proof. apply same_data_lookup. Qed.

Lemma data_expire st st' y : data_at st' y = data_at st y → expire st' y = expire st y.
Proof.
  unfold data_at, expire. destruct (ts_heap st !! y) as [t|], (ts_heap st' !! y) as [t'|];
    intros E; simplify_eq/=; [|done]. destruct t, t'. by simplify_eq/=.
Qed.

(** The node [slam_timer_new] makes. *)
Definition new_timer (g : nat → Z * Z) (st : timer_state) (interval : Z) (forever : bool)
    (ref : Z) (ctx : option slam_lua_value) : slam_timer :=
  {| tm_interval := interval; tm_expire_time := u64 ((slam_milliseconds g st).1 + interval);
     tm_forever := forever; tm_ref := ref; tm_ctx := ctx; tm_prev := None; tm_next := None |}.

Lemma add_timer_ok g det st l interval forever ref ctx :
  timers_ok det st l → (∀ c, ctx = Some c → lv_wf c) →
  returns (slam_runnable_add_timer g interval forever ref ctx st) (λ '(x, st'),
    timers_ok det st' (insert_timer (expire st') x l) ∧
    ts_heap st !! x = None ∧ data_at st' x = Some (new_timer g st interval forever ref ctx) ∧
    ∀ y, y ≠ x → data_at st' y = data_at st y).
Proof.
  intros H Hc. unfold slam_runnable_add_timer.
  pose proof (ok_new g _ _ _ interval forever ref ctx H Hc) as Hn.
  destruct (slam_timer_new _ _ _ _ _ _) as [x st1]. destruct Hn as (H1 & Hx & Hh).
  eapply returns_bind; [by apply ok_add|]. intros st2 [H2 Hd]. apply returns_ok.
  split_and!; [|done| |].
  - erewrite insert_timer_ext; [done|]. intros y. by apply same_data_expire.
  - rewrite (data_same _ _ _ Hd). unfold data_at. by rewrite Hh, lookup_insert_eq.
  - intros y Hy. rewrite (data_same _ _ _ Hd). unfold data_at.
    by rewrite Hh, lookup_insert_ne by done.
Qed.

Lemma remove_is_unlink_free x st :
  slam_timer_list_remove_by_node x true st =
    (slam_timer_list_remove_by_node x false st ≫= slam_timer_delete x).
Proof. unfold slam_timer_list_remove_by_node. by destruct (if bool_decide _ then _ else _). Qed.

Lemma remove_timer_ok det st l ref :
  timers_ok det st l →
  returns (slam_runnable_remove_timer ref st) (λ '(unref, st'),
    (unref = None ∧ st' = st ∧ Forall (λ y, tm_ref <$> ts_heap st !! y ≠ Some ref) l) ∨
    (unref = Some ref ∧ ∃ l1 x l2, l = l1 ++ x :: l2 ∧ timers_ok det st' (l1 ++ l2) ∧
       tm_ref <$> ts_heap st !! x = Some ref ∧
       Forall (λ y, tm_ref <$> ts_heap st !! y ≠ Some ref) l1 ∧
       ts_heap st' !! x = None ∧ ∀ y, y ≠ x → data_at st' y = data_at st y)).
Proof.
  intros H. unfold slam_runnable_remove_timer. rewrite (find_spec _ l) by apply H.
  rewrite bind_ok. destruct (find_ref st ref l) as [x|] eqn:E.
  - apply head_filter_split in E as (l1 & l2 & -> & Hr & Hl1).
    destruct (ts_heap st !! x) as [t|] eqn:Ht; simplify_eq/=.
    destruct (ok_unlink _ _ _ _ _ H) as (st1 & Hun & H1 & Hd).
    destruct (ok_free _ _ _ _ H1) as (st2 & Hf & -> & H2).
    rewrite remove_is_unlink_free, Hun. simpl. rewrite Hf. apply returns_ok. right. split; [done|]. exists l1, x, l2.
    split_and!; [done|done|by rewrite Ht|done|by simpl; rewrite lookup_delete_eq|].
    intros y Hy. rewrite <- (data_same _ _ _ Hd). unfold data_at. simpl.
    by rewrite lookup_delete_ne by done.
  - apply returns_ok. left. split_and!; [done|done|]. by apply head_filter_none in E.
Qed.

(** ** What the run loop asks of a callback: it has no undefined behaviour, does
    not abort unless [abort] allows it, keeps the timers' invariant and the
    invariant [I] of its own state, and leaves the detached timer's data alone. *)
Class TimerEvent {S} (abort : bool) (I : S → Prop)
    (event : loc → S * timer_state → outcome (S * timer_state)) : Prop :=
  timer_event_ok det x s st l : I s → timers_ok (x :: det) st l →
    defined abort (event x (s, st)) (λ '(s', st'),
      I s' ∧ ∃ l', timers_ok (x :: det) st' l' ∧ data_at st' x = data_at st x).

Lemma lua_ctx_wf (d : option lua_datum) c : lua_ctx <$> d = Some c → lv_wf c.
Proof. destruct d as [d|]; intros [= <-]. apply set_datum_wf, new_wf. Qed.

(** Scripts keep the invariant and never touch a detached node. *)
Lemma run_script_ok g s : ∀ det st l, timers_ok det st l →
  returns (run_script g s st) (λ st', ∃ l', timers_ok det st' l' ∧
    ∀ y, y ∈ det → data_at st' y = data_at st y).
Proof.
  induction s as [|interval forever ref ctx k IH|ref k IH]; intros det st l H; simpl.
  - apply returns_ok. eauto.
  - eapply returns_bind; [apply add_timer_ok; [done|apply lua_ctx_wf]|].
    intros [x st1] (H1 & Hx & _ & Hy). eapply returns_mono; [by eapply IH|].
    intros st2 (l' & H2 & Hy2). exists l'. split; [done|]. intros y Hdet.
    rewrite Hy2, Hy; [done| |done]. intros ->.
    assert (is_Some (ts_heap st !! x)) as [? ?] by (apply (ok_live _ _ _ H); set_solver).
    congruence.
  - eapply returns_bind; [by apply remove_timer_ok|].
    intros [unref st1] [(-> & -> & _)|(-> & l1 & x & l2 & -> & H1 & _ & _ & _ & Hy)].
    { by eapply IH. }
    eapply returns_mono; [by eapply IH|].
    intros st2 (l' & H2 & Hy2). exists l'. split; [done|]. intros y Hdet.
    rewrite Hy2, Hy; [done| |done]. intros ->.
    pose proof (ok_nodup _ _ _ H) as (_ & Hdis & _)%NoDup_app. apply (Hdis x Hdet). set_solver.
Qed.

#[export] Instance script_event_ok g closures :
  TimerEvent false (λ _, True) (script_event g closures).
Proof.
  intros det x log st l _ H. destruct (ok_detached _ _ _ _ H) as ([t Ht] & _).
  apply returns_defined. unfold script_event. rewrite Ht.
  eapply returns_bind; [by eapply run_script_ok|]. intros st' (l' & H' & Hy).
  apply returns_ok. split; [done|]. exists l'. split; [done|]. apply Hy. by left.
Qed.

(** ** The run loop *)
Lemma run_head st l det :
  timers_ok det st l → ts_head st = firstp l None.
Proof. intros H. apply H. Qed.

(** After the callback: re-arm or free the detached timer. *)
Definition settle (nowtime : Z) (x : loc) (st : timer_state) : outcome timer_state :=
  DEREF t := ts_heap st !! x ;;
  if tm_forever t then
    st ← write_node x (set_expire (u64 (nowtime + tm_interval t))) st;
    slam_timer_list_add (list_fuel st) x st
  else slam_timer_delete x st.

Lemma settle_ok det nowtime x st l :
  timers_ok (x :: det) st l →
  returns (settle nowtime x st) (λ st', ∃ l', timers_ok det st' l').
Proof.
  intros H. destruct (ok_detached _ _ _ _ H) as ([t Ht] & _). unfold settle. rewrite Ht.
  destruct (tm_forever t).
  - destruct (ok_expire _ _ _ _ (u64 (nowtime + tm_interval t)) H) as (t' & Ht' & -> & H').
    rewrite bind_ok. eapply returns_mono; [by apply ok_add|]. intros st' [? _]. eauto.
  - destruct (ok_free _ _ _ _ H) as (st' & -> & _ & H'). apply returns_ok. eauto.
Qed.

Lemma run_unfold {S} (event : loc → S * timer_state → outcome (S * timer_state)) fuel now s st x t :
  ts_head st = Some x → ts_heap st !! x = Some t → tm_expire_time t <= now →
  timer_list_run_loop event (Datatypes.S fuel) now s st =
    (st ← slam_timer_list_remove_by_node x false st;
     '(s, st) ← event x (s, st);
     st ← settle now x st;
     timer_list_run_loop event fuel now s st).
Proof.
  intros Hh Ht Hd. simpl. rewrite Hh, Ht. rewrite (proj2 (Z.leb_le _ _) Hd).
  destruct (slam_timer_list_remove_by_node _ _ _) as [st1| | |]; [|done..]. simpl.
  destruct (event _ _) as [[s2 st2]| | |]; [|done..]. simpl. unfold settle.
  by destruct (ts_heap st2 !! x).
Qed.

Lemma run_stop {S} (event : loc → S * timer_state → outcome (S * timer_state)) fuel now s st l det :
  timers_ok det st l → (∀ x, head l = Some x → now < expire st x) →
  timer_list_run_loop event fuel now s st = Ok (s, st).
Proof.
  intros H Hl. pose proof (run_head _ _ _ H) as Hh.
  destruct l as [|x l]; simpl in Hh.
  - destruct fuel; simpl; by rewrite Hh.
  - destruct (ok_listed _ _ _ x H) as [t Ht]; [by left|].
    specialize (Hl x eq_refl). rewrite (expire_lookup _ _ _ Ht) in Hl.
    destruct fuel; simpl; rewrite Hh, Ht, (proj2 (Z.leb_gt _ _) Hl); done.
Qed.

Lemma sorted_all_late st l now :
  StronglySorted (by_expire st) l → (∀ x, head l = Some x → now < expire st x) →
  Forall (λ x, now < expire st x) l.
Proof.
  intros Hs Hh. destruct l as [|y l]; [constructor|].
  specialize (Hh y eq_refl). apply StronglySorted_inv in Hs as [_ Hy].
  constructor; [done|]. eapply Forall_impl; [exact Hy|]. unfold by_expire. intros; lia.
Qed.

Lemma run_loop_defined {S} (event : loc → S * timer_state → outcome (S * timer_state))
    abort I `{!TimerEvent abort I event} fuel now : ∀ s st l,
  I s → timers_ok [] st l →
  defined abort (timer_list_run_loop event fuel now s st) (λ '(s', st'),
    I s' ∧ ∃ l', timers_ok [] st' l' ∧ Forall (λ x, now < expire st' x) l').
Proof.
  induction fuel as [|fuel IH]; intros s st l HI H;
    (destruct l as [|x l]; [erewrite run_stop by done; simpl; by eauto|]);
    destruct (Z.lt_ge_cases now (expire st x)) as [Hlt|Hge].
  1, 3: erewrite run_stop by (done || intros ? [= <-]; done); simpl; split; [done|]; eexists; split; [done|];
    apply sorted_all_late; [apply H|by intros ? [= <-]].
  - pose proof (run_head _ _ _ H) as Hh. destruct (ok_listed _ _ _ x H) as [t Ht]; [by left|].
    rewrite (expire_lookup _ _ _ Ht) in Hge. simpl in *. rewrite Hh, Ht.
    by rewrite (proj2 (Z.leb_le _ _) Hge).
  - pose proof (run_head _ _ _ H) as Hh. destruct (ok_listed _ _ _ x H) as [t Ht]; [by left|].
    rewrite (expire_lookup _ _ _ Ht) in Hge. erewrite run_unfold by done.
    eapply defined_bind; [apply returns_defined, (ok_unlink [] st [] x l H)|].
    intros st1 [H1 _]. eapply defined_bind; [by eapply (timer_event_ok (S:=S))|].
    intros [s2 st2] (HI2 & l2 & H2 & _). eapply defined_bind; [by eapply returns_defined, settle_ok|].
    intros st3 (l3 & H3). by eapply IH.
Qed.

(** ** The run loop with callbacks that leave the timers alone *)
Definition forever (st : timer_state) (x : loc) : bool :=
  match data_at st x with Some t => tm_forever t | None => false end.

(** What becomes of a timer that has fired: re-armed, or gone. *)
Definition settled (nowtime : Z) (t : slam_timer) : option slam_timer :=
  if tm_forever t then Some (set_expire (u64 (nowtime + tm_interval t)) t) else None.

(** Re-arming [D] in order, into the list [R]. *)
Definition rearm (exp : loc → Z) (D R : list loc) : list loc :=
  foldl (λ l x, insert_timer exp x l) R D.

Lemma insert_timer_skip exp x l1 l2 :
  Forall (λ y, exp y <= exp x) l1 → insert_timer exp x (l1 ++ l2) = l1 ++ insert_timer exp x l2.
Proof.
  induction 1 as [|y l1 Hy _ IH]; simpl; [done|]. rewrite IH. by rewrite (proj2 (Z.ltb_ge _ _) Hy).
Qed.

Lemma insert_timer_ext_in exp exp' x l :
  exp x = exp' x → (∀ y, y ∈ l → exp y = exp' y) → insert_timer exp x l = insert_timer exp' x l.
Proof.
  intros Hx. induction l as [|y l IH]; intros H; simpl; [done|].
  rewrite IH, Hx, H; [done|by left|]. intros z Hz. apply H. by right.
Qed.

Lemma rearm_ext exp exp' D : ∀ R,
  (∀ y, y ∈ D ++ R → exp y = exp' y) → rearm exp D R = rearm exp' D R.
Proof.
  induction D as [|x D IH]; intros R H; simpl; [done|].
  rewrite (insert_timer_ext_in exp exp'); [|set_solver|set_solver].
  apply IH. intros y Hy. apply H. rewrite insert_timer_perm in Hy. set_solver.
Qed.

Lemma filter_ext_in (P Q : loc → bool) (l : list loc) :
  (∀ y, y ∈ l → P y = Q y) → filter P l = filter Q l.
Proof.
  induction l as [|y l IH]; intros H; [done|]. rewrite !filter_cons, IH by set_solver.
  by rewrite H by set_solver.
Qed.

(** One firing: the head [x] leaves the due timers, and joins the late ones
    when it is a forever timer. *)
Definition joins (st : timer_state) (exp : loc → Z) (x : loc) (R : list loc) : list loc :=
  if forever st x then insert_timer exp x R else R.

Lemma settle_spec now x det st l :
  timers_ok (x :: det) st l →
  returns (settle now x st) (λ st',
    timers_ok det st' (joins st (expire st') x l) ∧
    data_at st' x = data_at st x ≫= settled now ∧ ∀ y, y ≠ x → data_at st' y = data_at st y).
Proof.
  intros H. destruct (ok_detached _ _ _ _ H) as ([t Ht] & _).
  unfold settle, joins, forever, data_at. rewrite Ht. simpl. unfold settled. simpl.
  destruct (tm_forever t) eqn:Hf.
  - destruct (ok_expire _ _ _ _ (u64 (now + tm_interval t)) H) as (t' & Ht' & -> & H').
    simplify_eq. rewrite bind_ok. eapply returns_mono; [by apply ok_add|].
    intros st' [H2 Hd]. split_and!.
    + erewrite insert_timer_ext; [done|]. intros y. by apply same_data_expire.
    + rewrite (same_data_lookup _ _ x Hd). simpl. by rewrite lookup_insert_eq.
    + intros y Hy. rewrite (same_data_lookup _ _ y Hd). simpl. by rewrite lookup_insert_ne.
  - destruct (ok_free _ _ _ _ H) as (st' & -> & -> & H'). apply returns_ok. split_and!; [done| |].
    + simpl. by rewrite lookup_delete_eq.
    + intros y Hy. simpl. by rewrite lookup_delete_ne.
Qed.

Lemma settled_expire now st st' x t :
  data_at st x = Some t → tm_forever t = true → data_at st' x = data_at st x ≫= settled now →
  expire st' x = u64 (now + tm_interval t).
Proof.
  unfold data_at, expire. intros Ht Hf. rewrite Ht. simpl. unfold settled. rewrite Hf.
  destruct (ts_heap st' !! x) as [t'|]; intros E; simplify_eq/=. by apply (f_equal tm_expire_time) in E.
Qed.

(** What the callback does to its own state when it leaves the timers alone. *)
Definition quiet {S} (event : loc → S * timer_state → outcome (S * timer_state))
    (f : loc → S → S) : Prop :=
  ∀ x s st, is_Some (ts_heap st !! x) → event x (s, st) = Ok (f x s, st).

(** Each re-armed deadline lies in the future. *)
Definition rearms_late (st : timer_state) (now : Z) (D : list loc) : Prop :=
  ∀ x t, x ∈ D → data_at st x = Some t → tm_forever t = true → now < u64 (now + tm_interval t).

Lemma settled_late now st st' x D :
  rearms_late st now (x :: D) → data_at st' x = data_at st x ≫= settled now →
  forever st x = true → now < expire st' x.
Proof.
  intros Hlate Hd. unfold forever. destruct (data_at st x) as [t|] eqn:E; [|done]. intros Hf.
  erewrite settled_expire; [|exact E|done|by rewrite E]. eapply Hlate; [by left|done|done].
Qed.

Lemma fire_one {S} (event : loc → S * timer_state → outcome (S * timer_state)) f now x D R st s fuel :
  quiet event f → timers_ok [] st (x :: D ++ R) → due st now x → Forall (due st now) D →
  Forall (λ y, now < expire st y) R → rearms_late st now (x :: D) →
  ∃ st', timer_list_run_loop event (Datatypes.S fuel) now s st =
           timer_list_run_loop event fuel now (f x s) st' ∧
    timers_ok [] st' (D ++ joins st (expire st') x R) ∧
    Forall (due st' now) D ∧ Forall (λ y, now < expire st' y) (joins st (expire st') x R) ∧
    data_at st' x = data_at st x ≫= settled now ∧ ∀ y, y ≠ x → data_at st' y = data_at st y.
Proof.
  intros Hq H Hx HD HR Hlate. pose proof (run_head _ _ _ H) as Hh.
  destruct (ok_listed _ _ _ x H) as [t Ht]; [by left|].
  destruct (ok_unlink [] st [] x (D ++ R) H) as (st1 & Hun & H1 & Hd1).
  destruct (settle_spec now x _ _ _ H1) as (st2 & Hse & H2 & Hdx & Hdy). simpl in H2.
  assert (x ∉ D ++ R) as Hni by by apply (ok_detached _ _ _ _ H1).
  rewrite (data_same _ _ _ Hd1) in Hdx.
  unfold joins, forever in H2. rewrite (data_same _ _ _ Hd1) in H2. fold (forever st x) in H2.
  assert (∀ y, y ≠ x → data_at st2 y = data_at st y) as Hd2
    by (intros y Hy; by rewrite Hdy, (data_same _ _ _ Hd1)).
  assert (∀ y, y ∈ D ++ R → expire st2 y = expire st y) as He2
    by (intros y Hy; apply data_expire, Hd2; congruence).
  pose proof (settled_late _ _ _ _ _ Hlate Hdx) as Hxl.
  assert (Forall (due st2 now) D) as HD2.
  { rewrite Forall_forall in HD |- *. intros y Hy. unfold due. rewrite He2 by set_solver.
    by apply HD. }
  assert (Forall (λ y, now < expire st2 y) R) as HR2.
  { rewrite Forall_forall in HR |- *. intros y Hy. rewrite He2 by set_solver. by apply HR. }
  exists st2. split_and!; [| |done| |done|done].
  - erewrite run_unfold; [|exact Hh|exact Ht|by rewrite <- (expire_lookup _ _ _ Ht)].
    rewrite Hun, bind_ok, Hq by by apply (ok_detached _ _ _ _ H1). by rewrite bind_ok, Hse.
  - unfold joins in *. destruct (forever st x); [|done].
    rewrite insert_timer_skip in H2; [done|]. specialize (Hxl eq_refl).
    eapply Forall_impl; [exact HD2|]. unfold due. intros; lia.
  - unfold joins. destruct (forever st x); [|done]. rewrite insert_timer_perm. by constructor; auto.
Qed.

Lemma run_quiet {S} (event : loc → S * timer_state → outcome (S * timer_state)) f now D :
  quiet event f → ∀ R st s fuel,
  timers_ok [] st (D ++ R) → Forall (due st now) D → Forall (λ x, now < expire st x) R →
  rearms_late st now D → (length D <= fuel)%nat →
  returns (timer_list_run_loop event fuel now s st) (λ '(s', st'),
    s' = foldl (λ s x, f x s) s D ∧
    timers_ok [] st' (rearm (expire st') (filter (forever st) D) R) ∧
    ∀ y, data_at st' y = if decide (y ∈ D) then data_at st y ≫= settled now else data_at st y).
Proof.
  intros Hq. induction D as [|x D IH]; intros R st s fuel H HD HR Hlate Hfuel.
  { erewrite run_stop; [apply returns_ok|exact H|].
    - split_and!; [done|done|]. intros y. by rewrite decide_False by set_solver.
    - intros x Hx. destruct R; simplify_eq/=. by apply Forall_cons in HR as []. }
  destruct fuel as [|fuel]; simpl in Hfuel; [lia|]. apply Forall_cons in HD as [Hx HD].
  destruct (fire_one event f now x D R st s fuel) as (st2 & -> & H2 & HD2 & HR2 & Hdx & Hd2); [done..|].
  pose proof (ok_nodup _ _ _ H) as [Hni (_ & Hdis & _)%NoDup_app]%NoDup_cons.
  eapply returns_mono; [apply (IH _ st2 (f x s) fuel H2 HD2 HR2)|].
  - intros y ty Hy Hty Hfy. rewrite Hd2 in Hty by set_solver. eapply Hlate; [by right|done|done].
  - lia.
  - intros [s' st'] (-> & H3 & Hd3). split_and!; [done| |].
    + rewrite (filter_ext_in (forever st2) (forever st)) in H3.
      * revert H3. unfold joins. rewrite filter_cons. destruct (forever st x); [|done].
        rewrite (insert_timer_ext_in (expire st2) (expire st')); [done| |intros y Hy];
          symmetry; apply data_expire; rewrite Hd3, decide_False; try done; [set_solver|].
        intros HyD. by apply (Hdis y).
      * intros y Hy. unfold forever. rewrite Hd2; [done|set_solver].
    + intros y. rewrite Hd3. destruct (decide (y = x)) as [->|Hyx].
      * rewrite decide_False by set_solver. rewrite decide_True by (by left). done.
      * rewrite Hd2 by done. apply decide_ext. set_solver.
Qed.

(** ** Releasing the whole list: the loop frees a node and goes on with the
    [next] pointer it has read before, the [prev] pointers dangle meanwhile. *)
Lemma delete_loop_ok l : ∀ fuel pr st,
  NoDup l → dlseg (ts_heap st) pr l None → dom (ts_heap st) = list_to_set l →
  (∀ y t ctx, ts_heap st !! y = Some t → tm_ctx t = Some ctx → lv_wf ctx) →
  (length l <= fuel)%nat →
  returns (timer_list_delete_loop fuel (firstp l None) st) (λ st', ts_heap st' = ∅).
Proof.
  induction l as [|x l IH]; intros fuel pr st Hnd Hl Hdom Hctx Hf.
  { destruct fuel; apply returns_ok; by apply dom_empty_inv_L. }
  destruct fuel as [|fuel]; simpl in Hf; [lia|].
  apply NoDup_cons in Hnd as [Hx Hnd]. destruct Hl as [(t & Ht & _ & Hn) Hl].
  simpl. rewrite Ht. unfold slam_timer_delete at 1. rewrite Ht.
  assert (∃ s, match tm_ctx t with Some ctx => slam_lua_value_delete ctx | None => Ok None end = Ok s) as [s ->].
  { destruct (tm_ctx t) as [ctx|] eqn:E; [|by eexists]. apply delete_wf. by eapply Hctx. }
  rewrite !bind_ok, Hn. eapply (IH _ (Some x)); simpl; [done|by apply dlseg_delete_out| | |lia].
  - rewrite dom_delete_L, Hdom. simpl. set_solver.
  - intros y t' ctx [_ Hy]%lookup_delete_Some. by eapply Hctx.
Qed.

(** ** A run *)
Definition due_now (st : timer_state) (now : Z) (x : loc) : bool := expire st x <=? now.

Lemma filter_const (P : loc → bool) (b : bool) (l : list loc) :
  (∀ y, y ∈ l → P y = b) → filter P l = if b then l else [].
Proof.
  induction l as [|y l IH]; intros H; [by destruct b|]. rewrite filter_cons, IH by set_solver.
  rewrite H by set_solver. by destruct b.
Qed.

Lemma sorted_split st now l :
  StronglySorted (by_expire st) l →
  l = filter (due_now st now) l ++ filter (λ x, negb (due_now st now x)) l.
Proof.
  induction l as [|x l IH]; intros Hs; [done|]. pose proof Hs as [Hs' Hx]%StronglySorted_inv.
  rewrite !filter_cons. destruct (due_now st now x) eqn:E; simpl.
  - f_equal. by apply IH.
  - apply Z.leb_gt in E. assert (∀ y, y ∈ l → due_now st now y = false) as Hl.
    { rewrite Forall_forall in Hx. intros y Hy%Hx. unfold due_now, by_expire in *. lia. }
    rewrite (filter_const (due_now st now) false) by done. simpl. f_equal. symmetry.
    apply (filter_const (λ y, negb (due_now st now y)) true). intros y Hy. by rewrite (Hl y Hy).
Qed.

(** Reading the clock changes nothing else. *)
Definition tick (st : timer_state) : timer_state :=
  {| ts_heap := ts_heap st; ts_brk := ts_brk st; ts_head := ts_head st;
     ts_ticks := S (ts_ticks st) |}.

Lemma ok_tick det st l : timers_ok det st l → timers_ok det (tick st) l.
Proof. intros [[] ? ? ? ?]; by split. Qed.

Lemma run_tick {S} g (event : loc → S * timer_state → outcome (S * timer_state)) fuel s st :
  slam_timer_list_run g event fuel s st =
    timer_list_run_loop event fuel (slam_milliseconds g st).1 s (tick st).
Proof. unfold slam_timer_list_run, slam_milliseconds. by destruct (g (ts_ticks st)). Qed.

(** Asking for the next deadline changes nothing but the clock. *)
Lemma min_interval_kept g det st l :
  timers_ok det st l → returns (slam_timer_list_min_interval g st) (λ '(_, st'), st' = tick st).
Proof.
  intros H. unfold slam_timer_list_min_interval, slam_milliseconds.
  destruct (g (ts_ticks st)) as [s us]. fold (tick st). rewrite (run_head _ _ _ (ok_tick _ _ _ H)).
  destruct l as [|x l]; simpl; [by apply returns_ok|].
  destruct (ok_listed _ _ _ x H) as [t Ht]; [by left|]. rewrite Ht.
  by destruct (_ >? _); apply returns_ok.
Qed.

(** ** The properties *)

Lemma no_due_head st l now x :
  timers_ok [] st l → head l = Some x → now < expire st x → Forall (λ y, now < expire st y) l.
Proof.
  intros H Hh Hlt. apply sorted_all_late; [apply H|]. intros y Hy. congruence.
Qed.

(** Adding a timer: the call returns with a fresh node that carries
    the deadline [now + interval]; it stands after every timer that is not later
    and before every later one, so that timers of equal deadlines keep the order
    in which they were added; the list stays sorted, no other timer is changed,
    and nothing leaks. *)
Lemma slam_runnable_add_timer_in_order g st l interval forever ref ctx :
  timers_ok [] st l → (∀ c, ctx = Some c → lv_wf c) →
  returns (slam_runnable_add_timer g interval forever ref ctx st) (λ '(x, st'),
    ∃ l1 l2, l = l1 ++ l2 ∧ timers_ok [] st' (l1 ++ x :: l2) ∧
      ts_heap st !! x = None ∧
      data_at st' x = Some (new_timer g st interval forever ref ctx) ∧
      (∀ y, y ≠ x → data_at st' y = data_at st y) ∧
      Forall (λ y, expire st' y <= expire st' x) l1 ∧
      Forall (λ y, expire st' x < expire st' y) l2).
Proof.
  intros H Hc. eapply returns_mono; [by apply add_timer_ok|].
  intros [x st'] (H' & Hx & Hd & Hy).
  destruct (insert_timer_split (expire st') x l) as (l1 & l2 & -> & E & H1 & H2).
  rewrite E in H'. exists l1, l2. split_and!; try done.
  apply sorted_tail_late; [|done].
  pose proof (ok_sorted _ _ _ H') as [Hs _]%sorted_suffix%StronglySorted_inv. done.
Qed.

(** Removing by reference: either no listed timer has the reference
    and nothing changes, or the first that has it is unlinked, freed with its
    context and its reference released, and the rest keep their order and data. *)
Lemma slam_runnable_remove_timer_first_match st l ref :
  timers_ok [] st l →
  returns (slam_runnable_remove_timer ref st) (λ '(unref, st'),
    (unref = None ∧ st' = st ∧ Forall (λ y, tm_ref <$> ts_heap st !! y ≠ Some ref) l) ∨
    (unref = Some ref ∧ ∃ l1 x l2, l = l1 ++ x :: l2 ∧ timers_ok [] st' (l1 ++ l2) ∧
       tm_ref <$> ts_heap st !! x = Some ref ∧
       Forall (λ y, tm_ref <$> ts_heap st !! y ≠ Some ref) l1 ∧
       ts_heap st' !! x = None ∧ ∀ y, y ≠ x → data_at st' y = data_at st y)).
Proof. apply remove_timer_ok. Qed.

Lemma i64_u64 z : i64 (u64 z) = i64 z.
Proof. unfold i64, u64. by rewrite Zplus_mod_idemp_l. Qed.

(** Claim C29.  The wait computed for the poll: [-1] when there is no timer; the
    time to the earliest deadline of all timers, converted to an [int64_t], when
    that lies in the future, which is the time itself unless the deadline is
    [2^63] milliseconds or more away; and [-1], "no more timer", although a timer is
    due, when the earliest deadline has been reached. *)
Theorem slam_timer_list_min_interval_spec g st l :
  timers_ok [] st l →
  let now := (slam_milliseconds g st).1 in
  ∃ r st', slam_timer_list_min_interval g st = Ok (r, st') ∧ timers_ok [] st' l ∧
    ((l = [] ∧ r = -1) ∨
     (∃ x, x ∈ l ∧ (∀ y, y ∈ l → expire st x <= expire st y) ∧
        (now < expire st x ∧ r = i64 (expire st x - now) ∧
           (expire st x - now < 2 ^ 63 → r = expire st x - now) ∨
         due st now x ∧ r = -1))).
Proof.
  intros H now. unfold slam_timer_list_min_interval, slam_milliseconds in *.
  destruct (g (ts_ticks st)) as [s us]; simpl in *.
  pose proof (ok_tick _ _ _ H) as H1. fold (tick st).
  rewrite (run_head _ _ _ H). destruct l as [|x l]; simpl.
  { exists (-1), (tick st). split_and!; [done|done|]. left. done. }
  destruct (ok_listed _ _ _ x H) as [t Ht]; [by left|]. rewrite Ht.
  rewrite <- (expire_lookup _ _ _ Ht).
  assert (∀ y, y ∈ x :: l → expire st x <= expire st y) as Hmin.
  { pose proof (ok_sorted _ _ _ H) as [_ Hx]%StronglySorted_inv. rewrite Forall_forall in Hx.
    intros y [->|Hy]%elem_of_cons; [lia|]. by apply Hx. }
  zcase; (do 2 eexists; split_and!; [done|done|]); right; exists x;
    (split_and!; [by left|done|]); [left|right].
  - fold now. rewrite i64_u64. split_and!; [done|done|]. intros Hlt. by rewrite i64_id by lia.
  - unfold due. fold now. lia.
Qed.

(** Claim C12.  Whatever timers the callbacks add and remove meanwhile (any
    callback that keeps the invariant, in particular every Lua callback made of
    [newTimer] and [removeTimer] calls, see [script_event_ok]), a run neither
    dereferences a freed node nor frees one twice, it aborts only where a
    callback may, and when it ends the list holds no due timer and owns every
    live node, and what the callbacks keep of their own state still holds. *)
Theorem slam_timer_list_run_safe {S} g (event : loc → S * timer_state → outcome (S * timer_state))
    abort I `{!TimerEvent abort I event} fuel s st l :
  I s → timers_ok [] st l →
  defined abort (slam_timer_list_run g event fuel s st) (λ '(s', st'),
    I s' ∧ ∃ l', timers_ok [] st' l' ∧ Forall (λ x, (slam_milliseconds g st).1 < expire st' x) l').
Proof.
  intros HI H. rewrite run_tick.
  eapply run_loop_defined; [done|done|]. by apply ok_tick.
Qed.

(** Claim C13.  With callbacks that leave the timers alone, a run fires exactly
    the timers that are due, each once and in the order of their deadlines (in
    the order they were added, for equal ones); one firing each is all the fuel
    it needs.  One-shot timers are freed, forever timers are re-armed at
    [now + interval] and inserted by that deadline among the timers that were not
    due, which are untouched.  This is for due timers whose re-armed deadline lies
    in the future; one that does not is fired again in the same run. *)
Theorem slam_timer_list_run_fires_due {S} g
    (event : loc → S * timer_state → outcome (S * timer_state)) f fuel s st l :
  timers_ok [] st l → quiet event f →
  let now := (slam_milliseconds g st).1 in
  let D := filter (due_now st now) l in
  rearms_late st now D → (length l <= fuel)%nat →
  returns (slam_timer_list_run g event fuel s st) (λ '(s', st'),
    s' = foldl (λ s x, f x s) s D ∧
    timers_ok [] st'
      (rearm (expire st') (filter (forever st) D) (filter (λ x, negb (due_now st now x)) l)) ∧
    ∀ y, data_at st' y = if decide (y ∈ D) then data_at st y ≫= settled now else data_at st y).
Proof.
  intros H Hq now D Hlate Hf. rewrite run_tick. fold now.
  apply (run_quiet event f now D Hq (filter (λ x, negb (due_now st now x)) l) (tick st)); [| | |done|].
  - replace (D ++ _) with l by apply sorted_split, H. by apply ok_tick.
  - apply Forall_forall. intros y [Hy _]%list_elem_of_filter.
    apply Is_true_true, Z.leb_le in Hy. done.
  - apply Forall_forall. intros y [Hy _]%list_elem_of_filter.
    apply Is_true_true, negb_true_iff, Z.leb_gt in Hy. done.
  - etransitivity; [apply length_filter|done].
Qed.

(** As long as a timer with [data] is in the list and is re-armed for the past,
    the head of the list is due. *)
Lemma run_never_empty {S} (event : loc → S * timer_state → outcome (S * timer_state)) f fuel now x :
  quiet event f → ∀ s st l t,
  timers_ok [] st l → x ∈ l → data_at st x = Some t →
  tm_forever t = true → tm_expire_time t <= now → u64 (now + tm_interval t) <= now →
  timer_list_run_loop event fuel now s st = NoFuel.
Proof.
  intros Hq. induction fuel as [|fuel IH]; intros s st l t H Hx Ht Hf Hdue Hlate;
    pose proof (run_head _ _ _ H) as Hh; destruct l as [|y l]; try (by apply elem_of_nil in Hx);
    destruct (ok_listed _ _ _ y H) as [ty Hty]; try (by left);
    assert (tm_expire_time ty <= now) as Hy.
  1, 3: rewrite <-(expire_lookup _ _ _ Hty); transitivity (expire st x);
    [pose proof (ok_sorted _ _ _ H) as [_ Hs]%StronglySorted_inv; rewrite Forall_forall in Hs;
     apply elem_of_cons in Hx as [->|Hx]; [done|by apply Hs]
    |unfold data_at in Ht; destruct (ts_heap st !! x) as [tx|] eqn:Ex; [|done];
     rewrite (expire_lookup _ _ _ Ex); injection Ht as <-; exact Hdue].
  { simpl in *. by rewrite Hh, Hty, (proj2 (Z.leb_le _ _) Hy). }
  destruct (ok_unlink [] st [] y l H) as (st1 & Hun & H1 & Hd1).
  destruct (settle_spec now y _ _ _ H1) as (st2 & Hse & H2 & Hdy & Hne).
  erewrite run_unfold; [|exact Hh|exact Hty|done].
  rewrite Hun, bind_ok, Hq by by apply (ok_detached _ _ _ _ H1). rewrite bind_ok, Hse, bind_ok.
  rewrite (data_same _ _ _ Hd1) in Hdy. unfold joins, forever in H2. rewrite (data_same _ _ _ Hd1) in H2.
  destruct (decide (x = y)) as [<-|Hxy].
  - rewrite Ht in Hdy, H2. simpl in Hdy, H2. unfold settled in Hdy. rewrite Hf in Hdy, H2.
    eapply (IH _ _ _ _ H2); [rewrite insert_timer_perm; by left|exact Hdy|done|done|done].
  - apply elem_of_cons in Hx as [?|Hx]; [done|].
    eapply (IH _ _ _ t H2); [case_match; [rewrite insert_timer_perm; by right|done]| |done..].
    by rewrite Hne, (data_same _ _ _ Hd1).
Qed.

(** Claim C30.  With callbacks that leave the timers alone, a run with a due forever
    timer whose re-armed deadline is not in the future (its interval is zero, or
    so large that [now + interval] wraps) never ends, whatever other timers there
    are: it is fired again and again within one run, and no amount of fuel ends
    the loop. *)
Theorem slam_timer_list_run_zero_interval_diverges {S} g
    (event : loc → S * timer_state → outcome (S * timer_state)) f fuel s st l x t :
  quiet event f → timers_ok [] st l → x ∈ l → ts_heap st !! x = Some t →
  let now := (slam_milliseconds g st).1 in
  tm_forever t = true → tm_expire_time t <= now → u64 (now + tm_interval t) <= now →
  slam_timer_list_run g event fuel s st = NoFuel.
Proof.
  intros Hq H Hx Ht now Hf Hdue Hlate. rewrite run_tick.
  eapply (run_never_empty event f fuel now x Hq s (tick st) l (unlinked t)); try done; [by apply ok_tick|].
  unfold data_at. by rewrite (Ht : ts_heap (tick st) !! x = Some t).
Qed.

(** A forever timer cannot stop itself: while its callback runs it is
    unlinked, so [removeTimer] on its own reference finds no timer, and the run
    re-arms it all the same. *)
Lemma slam_runnable_remove_timer_from_own_callback g closures log st x t :
  timers_ok [] st [x] → ts_heap st !! x = Some t → tm_forever t = true →
  closures (tm_ref t) = TRemove (tm_ref t) TDone →
  let now := (slam_milliseconds g st).1 in
  tm_expire_time t <= now → now < u64 (now + tm_interval t) →
  returns (slam_timer_list_run g (script_event g closures) 1 log st) (λ '(log', st'),
    log' = log ++ [tm_ref t] ∧ timers_ok [] st' [x] ∧
    expire st' x = u64 (now + tm_interval t)).
Proof.
  intros H Ht Hf Hc now Hdue Hlate. rewrite run_tick. fold now.
  apply ok_tick in H. pose proof (run_head _ _ _ H) as Hh.
  destruct (ok_unlink [] (tick st) [] x [] H) as (st1 & Hun & H1 & Hd1).
  destruct (settle_spec now x _ _ _ H1) as (st2 & Hse & H2 & Hdx & _).
  destruct (ok_detached _ _ _ _ H1) as ([t1 Ht1] & _).
  rewrite (data_same _ _ _ Hd1) in Hdx. pose proof (same_data_lookup _ _ x Hd1) as E.
  unfold joins, forever in H2. rewrite (data_same _ _ _ Hd1) in H2.
  unfold data_at in Hdx, H2. simpl in Hdx, E, H2. rewrite Ht in Hdx, E, H2. simpl in H2. rewrite Hf in H2.
  rewrite Ht1 in E. apply (inj Some), (f_equal tm_ref) in E as Er. simpl in Er.
  assert (expire st2 x = u64 (now + tm_interval t)) as He
    by (by apply (settled_expire _ (tick st) _ _ (unlinked t)); unfold data_at; simpl; rewrite ?Ht).
  assert (script_event g closures x (log, st1) = Ok (log ++ [tm_ref t], st1)) as Hev.
  { unfold script_event. rewrite Ht1, Er, Hc. simpl.
    unfold slam_runnable_remove_timer. by rewrite (find_spec _ []) by apply H1. }
  erewrite run_unfold; [|exact Hh|exact Ht|done].
  rewrite Hun, bind_ok, Hev, bind_ok, Hse, bind_ok. erewrite run_stop; [|exact H2|intros y [= <-]; by rewrite He].
  by apply returns_ok.
Qed.

(** Releasing the list frees every timer and its context, once. *)
Lemma slam_timer_list_delete_frees_all st l :
  timers_ok [] st l →
  returns (slam_timer_list_delete (list_fuel st) st) (λ st', ts_heap st' = ∅).
Proof.
  intros H. unfold slam_timer_list_delete. rewrite (run_head _ _ _ H).
  apply (delete_loop_ok l _ None); [apply H|apply H| |apply H|].
  - apply set_eq. intros y. rewrite elem_of_dom, (ok_live _ _ _ H). set_solver.
  - pose proof (dll_length _ _ (ok_dll _ _ _ H)). unfold list_fuel. lia.
Qed.

(** ** Witnesses: a clock that stands at second 1000, and the states reached by
    adding a forever timer of 500 ms, then a one-shot of 20 ms *)
Lemma new_ok : timers_ok [] slam_timer_list_new [].
Proof.
  split; simpl; [split; simpl| | | |]; try done; try constructor.
  - by intros x [].
  - by intros [].
  - set_solver.
Qed.

Lemma add_timer_at g st l interval forever ref ctx x st' :
  timers_ok [] st l → (∀ c, ctx = Some c → lv_wf c) →
  slam_runnable_add_timer g interval forever ref ctx st = Ok (x, st') →
  timers_ok [] st' (insert_timer (expire st') x l).
Proof.
  intros H Hc E. destruct (add_timer_ok g _ _ _ interval forever ref ctx H Hc) as ([y st2] & E' & H2 & _).
  congruence.
Qed.

Module Examples.
Definition clock (n : nat) : Z * Z := (1000, 250000).
Definition later (n : nat) : Z * Z := (1000, 300000).

Definition after {A} (m : outcome (A * timer_state)) : timer_state :=
  match m with Ok (_, st) => st | _ => slam_timer_list_new end.

Definition one : timer_state :=
  after (slam_runnable_add_timer clock 40 true 7 (Some (lua_ctx (DString "ctx"))) slam_timer_list_new).
Definition one_node : slam_timer :=
  {| tm_interval := 40; tm_expire_time := 1000290; tm_forever := true; tm_ref := 7;
     tm_ctx := Some (lua_ctx (DString "ctx")); tm_prev := None; tm_next := None |}.
Definition two : timer_state := after (slam_runnable_add_timer clock 20 false 8 None one).
Definition zero : timer_state := after (slam_runnable_add_timer clock 0 true 9 None slam_timer_list_new).

Lemma one_ok : timers_ok [] one [1%positive].
Proof.
  refine (add_timer_at clock _ [] 40 true 7 (Some (lua_ctx (DString "ctx"))) 1 one new_ok _ _);
    [intros c [= <-]; apply (lua_ctx_wf (Some (DString "ctx"))); done|vm_compute; reflexivity].
Qed.

Lemma two_ok : timers_ok [] two [2%positive; 1%positive].
Proof.
  refine (add_timer_at clock _ [1%positive] 20 false 8 None 2 two one_ok _ _);
    [done|vm_compute; reflexivity].
Qed.

Lemma zero_ok : timers_ok [] zero [1%positive].
Proof.
  refine (add_timer_at clock _ [] 0 true 9 None 1 zero new_ok _ _); [done|vm_compute; reflexivity].
Qed.

(** A callback that only logs which node fired. *)
Definition log_event (x : loc) (s : list loc * timer_state) : outcome (list loc * timer_state) :=
  Ok (s.1 ++ [x], s.2).

Lemma log_quiet : quiet log_event (λ x s, s ++ [x]).
Proof. by intros x s st _. Qed.
End Examples.

Lemma slam_runnable_add_timer_in_order_witness :
  timers_ok [] Examples.one [1%positive] ∧
  returns (slam_runnable_add_timer Examples.clock 20 false 8 None Examples.one)
    (λ '(x, st'), ∃ l1 l2, [1%positive] = l1 ++ l2 ∧ timers_ok [] st' (l1 ++ x :: l2) ∧
      ts_heap Examples.one !! x = None ∧
      data_at st' x = Some (new_timer Examples.clock Examples.one 20 false 8 None) ∧
      (∀ y, y ≠ x → data_at st' y = data_at Examples.one y) ∧
      Forall (λ y, expire st' y <= expire st' x) l1 ∧
      Forall (λ y, expire st' x < expire st' y) l2).
Proof.
  split; [apply Examples.one_ok|].
  apply (slam_runnable_add_timer_in_order Examples.clock Examples.one [1%positive]);
    [apply Examples.one_ok|done].
Defined.

Lemma slam_runnable_remove_timer_first_match_witness :
  returns (slam_runnable_remove_timer 7 Examples.two) (λ '(unref, st'),
    (unref = None ∧ st' = Examples.two ∧
       Forall (λ y, tm_ref <$> ts_heap Examples.two !! y ≠ Some 7) [2; 1]%positive) ∨
    (unref = Some 7 ∧ ∃ l1 x l2, [2; 1]%positive = l1 ++ x :: l2 ∧ timers_ok [] st' (l1 ++ l2) ∧
       tm_ref <$> ts_heap Examples.two !! x = Some 7 ∧
       Forall (λ y, tm_ref <$> ts_heap Examples.two !! y ≠ Some 7) l1 ∧
       ts_heap st' !! x = None ∧ ∀ y, y ≠ x → data_at st' y = data_at Examples.two y)).
Proof. apply slam_runnable_remove_timer_first_match, Examples.two_ok. Defined.

(** At second 1000.300 both timers of [two] are due: the wait is [-1]. *)
Lemma slam_timer_list_min_interval_spec_witness :
  let now := (slam_milliseconds Examples.later Examples.two).1 in
  ∃ r st', slam_timer_list_min_interval Examples.later Examples.two = Ok (r, st') ∧
    timers_ok [] st' [2; 1]%positive ∧
    (([2; 1]%positive = [] ∧ r = -1) ∨
     (∃ x, x ∈ [2; 1]%positive ∧
        (∀ y, y ∈ [2; 1]%positive → expire Examples.two x <= expire Examples.two y) ∧
        (now < expire Examples.two x ∧ r = i64 (expire Examples.two x - now) ∧
           (expire Examples.two x - now < 2 ^ 63 → r = expire Examples.two x - now) ∨
         due Examples.two now x ∧ r = -1))).
Proof.
  apply (slam_timer_list_min_interval_spec Examples.later Examples.two [2; 1]%positive), Examples.two_ok.
Defined.

(** The callback of the timer 7 adds a timer and removes the timer 8. *)
Lemma slam_timer_list_run_safe_witness :
  defined false (slam_timer_list_run Examples.later
      (script_event Examples.later (λ _, TAdd 10 false 9 None (TRemove 8 TDone))) 3 [] Examples.two)
    (λ '(_, st'), True ∧ ∃ l', timers_ok [] st' l' ∧
       Forall (λ x, (slam_milliseconds Examples.later Examples.two).1 < expire st' x) l').
Proof.
  apply (slam_timer_list_run_safe _ _ false (λ _, True) _ _ _ [2; 1]%positive); [done|].
  apply Examples.two_ok.
Defined.

Lemma slam_timer_list_run_fires_due_witness :
  returns (slam_timer_list_run Examples.later Examples.log_event 2 [] Examples.two)
    (λ '(s', st'),
      s' = foldl (λ s x, s ++ [x]) []
        (filter (due_now Examples.two (slam_milliseconds Examples.later Examples.two).1) [2; 1]%positive) ∧
      timers_ok [] st'
        (rearm (expire st')
          (filter (forever Examples.two)
            (filter (due_now Examples.two (slam_milliseconds Examples.later Examples.two).1) [2; 1]%positive))
          (filter (λ x, negb (due_now Examples.two (slam_milliseconds Examples.later Examples.two).1 x)) [2; 1]%positive)) ∧
      ∀ y, data_at st' y =
        if decide (y ∈ filter (due_now Examples.two (slam_milliseconds Examples.later Examples.two).1) [2; 1]%positive)
        then data_at Examples.two y ≫= settled (slam_milliseconds Examples.later Examples.two).1
        else data_at Examples.two y).
Proof.
  apply (slam_timer_list_run_fires_due Examples.later Examples.log_event (λ x s, s ++ [x]) 2 []
           Examples.two [2; 1]%positive);
    [apply Examples.two_ok|apply Examples.log_quiet| |done].
  intros x t Hx Ht Hf. apply list_elem_of_filter in Hx as [_ Hx].
  repeat apply elem_of_cons in Hx as [->|Hx]; [..|by apply elem_of_nil in Hx];
    vm_compute in Ht; simplify_eq/=; by vm_compute.
Defined.

Lemma slam_timer_list_run_zero_interval_diverges_witness :
  slam_timer_list_run Examples.later Examples.log_event 1000 [] Examples.zero = NoFuel.
Proof.
  refine (slam_timer_list_run_zero_interval_diverges Examples.later _ _ 1000 [] _ [1%positive] 1%positive _
           Examples.log_quiet Examples.zero_ok _ _ _ _ _);
    [by left|vm_compute; reflexivity|vm_compute; reflexivity|by vm_compute|by vm_compute].
Defined.

Lemma slam_runnable_remove_timer_from_own_callback_witness :
  returns (slam_timer_list_run Examples.later
      (script_event Examples.later (λ ref, TRemove ref TDone)) 1 [] Examples.one)
    (λ '(log', st'), log' = [7] ∧ timers_ok [] st' [1%positive] ∧ expire st' 1%positive = 1000340).
Proof.
  refine (slam_runnable_remove_timer_from_own_callback Examples.later _ [] _ 1%positive
           Examples.one_node Examples.one_ok _ _ _ _ _);
    [vm_compute; reflexivity|reflexivity|reflexivity|by vm_compute|by vm_compute].
Defined.
