(* ===== verification/Message.v ===== *)
(** * Messages ([slam_message.c], [slam_message.h])

    A message is a heap block with a buffer behind its fields.  The heap maps
    the live blocks; [slam_message_delete] of a block that is not live is a
    double free.  A package is a buffer with the packed header
    [slam_rawmessage_t]: a 4-byte length, an 8-byte entity id, a 4-byte message
    id and 2 bytes of flags, stored as a little-endian machine stores them,
    followed by the payload. *)

From S2P Require Import Prelude.

(** ** Data *)
Definition MESSAGE_TYPE_ESTABLISH_CONNECTION : Z := 1.
Definition MESSAGE_TYPE_LOST_CONNECTION : Z := 2.
Definition MESSAGE_TYPE_PROTOBUF_PACKAGE : Z := 3.

Record slam_message := {
  msg_fd : Z;
  msg_type : Z;
  msg_bufsize : Z;
  msg_bytesize : Z;
  msg_buf : list cell;
}.

Record msg_heap := {
  mh_msgs : gmap loc slam_message;
  mh_brk : loc;                        (* the next fresh address *)
}.

Definition with_msgs (ms : gmap loc slam_message) (h : msg_heap) : msg_heap :=
  {| mh_msgs := ms; mh_brk := mh_brk h |}.

Definition set_msg_buf (buf : list cell) (msg : slam_message) : slam_message :=
  {| msg_fd := msg_fd msg; msg_type := msg_type msg; msg_bufsize := msg_bufsize msg;
     msg_bytesize := msg_bytesize msg; msg_buf := buf |}.

Definition set_bytesize (n : Z) (msg : slam_message) : slam_message :=
  {| msg_fd := msg_fd msg; msg_type := msg_type msg; msg_bufsize := msg_bufsize msg;
     msg_bytesize := n; msg_buf := msg_buf msg |}.

(** ** Operations *)

(** The buffer of [bufsize] bytes behind the fields is indeterminate. *)
Definition slam_message_new (fd type bufsize : Z) (h : msg_heap) : loc * msg_heap :=
  (mh_brk h,
   {| mh_msgs := <[mh_brk h := {| msg_fd := fd; msg_type := type; msg_bufsize := bufsize;
                                  msg_bytesize := 0; msg_buf := fresh_cells bufsize |}]> (mh_msgs h);
      mh_brk := Pos.succ (mh_brk h) |}).

Definition slam_message_delete (x : loc) (h : msg_heap) : outcome msg_heap :=
  DEREF _ := mh_msgs h !! x ;;
  Ok (with_msgs (delete x (mh_msgs h)) h).

(** Releasing the messages a deleted queue held. *)
Fixpoint delete_messages (xs : list loc) (h : msg_heap) : outcome msg_heap :=
  match xs with
  | [] => Ok h
  | x :: xs => h ← slam_message_delete x h; delete_messages xs h
  end.

(** [message->field = ...] through the pointer [x]. *)
Definition write_message (x : loc) (f : slam_message → slam_message) (h : msg_heap)
    : outcome msg_heap :=
  DEREF msg := mh_msgs h !! x ;;
  Ok (with_msgs (<[x := f msg]> (mh_msgs h)) h).

(** ** The packed header *)
Definition RAW_LEN : Z := 0.
Definition RAW_ENTITYID : Z := 4.
Definition RAW_MSGID : Z := 12.
Definition RAW_FLAGS : Z := 16.
Definition RAW_PAYLOAD : Z := 18.

Definition PACKAGE_MIN_SIZE : Z := 18.   (* sizeof(slam_rawmessage_t) *)

Definition load_uint (off : Z) (n : nat) (buf : list cell) : outcome Z :=
  bs ← load off (Z.of_nat n) buf; Ok (le_combine bs).

Definition store_uint (off : Z) (n : nat) (v : Z) (buf : list cell) : outcome (list cell) :=
  store off (le_split n v) buf.

(** ** Lemmas *)
Lemma fresh_cells_len n : 0 <= n → len (fresh_cells n) = n.
Proof. intros H. unfold fresh_cells. len. Qed.

Lemma store_uint_len off n v buf buf' :
  store_uint off n v buf = Ok buf' → len buf' = len buf.
Proof.
  unfold store_uint, store. destruct (in_bounds _ _ _) eqn:E; [|done].
  apply in_bounds_spec in E as (? & ? & ?). intros [= <-]. len.
Qed.

Lemma load_uint_app (pre : list cell) bs rest n :
  n = length bs → load_uint (len pre) n (pre ++ (Some <$> bs) ++ rest) = Ok (le_combine bs).
Proof. intros ->. unfold load_uint. fold (len bs). by rewrite load_app. Qed.

(** An intact heap: addresses from [mh_brk] on are fresh. *)
Definition heap_wf (h : msg_heap) : Prop :=
  ∀ x, is_Some (mh_msgs h !! x) → (x < mh_brk h)%positive.

Lemma new_fresh h : heap_wf h → mh_msgs h !! mh_brk h = None.
Proof. intros H. apply eq_None_not_Some. intros Hs%H. lia. Qed.

Lemma new_heap_wf fd type bufsize h :
  heap_wf h → heap_wf (slam_message_new fd type bufsize h).2.
Proof.
  intros H x. simpl. intros [->|Hx]%lookup_insert_is_Some'; [lia|]. apply H in Hx. lia.
Qed.

Lemma write_message_ok x msg f h :
  mh_msgs h !! x = Some msg →
  write_message x f h = Ok (with_msgs (<[x := f msg]> (mh_msgs h)) h).
Proof. unfold write_message. by intros ->. Qed.

Lemma write_heap_wf x msg msg' h :
  heap_wf h → mh_msgs h !! x = Some msg → heap_wf (with_msgs (<[x := msg']> (mh_msgs h)) h).
Proof. intros H Hx y. simpl. intros [->|Hy]%lookup_insert_is_Some'; apply H; eauto. Qed.

Lemma delete_heap_wf x h : heap_wf h → heap_wf (with_msgs (delete x (mh_msgs h)) h).
Proof. intros H y. simpl. intros [_ Hy]%lookup_delete_is_Some. by apply H. Qed.

#[export] Hint Resolve new_heap_wf write_heap_wf delete_heap_wf : slam.
