(* ===== verification/Socket.v ===== *)
(** * Sockets ([slam_socket.c])

    The non-blocking reads and writes of a connection.  The kernel's side of a
    connection is a script: what each [recv] and each [send] will find.  A
    [recv] of [n] bytes takes at most [n] bytes of the data at hand, so that a
    script fixes the bytes and where they are cut into pieces, the interruptions
    and the moments at which nothing is available. *)

From S2P Require Import Prelude MessageQueue Message.

(** ** Data *)
Definition SOCKET_NONE : Z := 0.
Definition SOCKET_SERVER : Z := 1.
Definition SOCKET_CLIENT : Z := 2.
Definition SOCKET_CONNECTION : Z := 3.

Definition SLAM_ERROR : Z := -1.
Definition INVALID_SOCKET : Z := -1.

Record slam_socket := {
  sk_fd : Z;
  sk_type : Z;
  sk_readmessage : ptr;
  sk_sendmq : slam_message_queue loc;
}.

Definition set_readmessage (p : ptr) (s : slam_socket) : slam_socket :=
  {| sk_fd := sk_fd s; sk_type := sk_type s; sk_readmessage := p; sk_sendmq := sk_sendmq s |}.

Definition set_sendmq (mq : slam_message_queue loc) (s : slam_socket) : slam_socket :=
  {| sk_fd := sk_fd s; sk_type := sk_type s; sk_readmessage := sk_readmessage s; sk_sendmq := mq |}.

Definition set_type (t : Z) (s : slam_socket) : slam_socket :=
  {| sk_fd := sk_fd s; sk_type := t; sk_readmessage := sk_readmessage s; sk_sendmq := sk_sendmq s |}.

(** ** Error numbers *)
Definition EINTR : Z := 4.
Definition EAGAIN : Z := 11.
Definition EWOULDBLOCK : Z := 11.
Definition EPIPE : Z := 32.
Definition ECONNABORTED : Z := 103.
Definition ECONNRESET : Z := 104.
Definition ENOTCONN : Z := 107.
Definition ESHUTDOWN : Z := 108.

Definition slam_interrupted (errno : Z) : bool := errno =? EINTR.

Definition slam_wouldblock (errno : Z) : bool := (errno =? EAGAIN) || (errno =? EWOULDBLOCK).

Definition slam_connectionlost (errno : Z) : bool :=
  (errno =? ECONNRESET) || (errno =? ENOTCONN) || (errno =? ESHUTDOWN)
  || (errno =? ECONNABORTED) || (errno =? EPIPE).

(** ** The kernel's side *)
Inductive recv_event :=
  | Arrive (b : byte) (bs : list byte)   (* data: at least one byte *)
  | Eof                                  (* the peer has shut the stream down *)
  | RFail (errno : Z).

Inductive call_result (A : Type) :=
  | Done (a : A)
  | Failed (errno : Z).
Arguments Done {A} a.
Arguments Failed {A} errno.

(** [recv] of up to [n] bytes; with nothing at hand it fails with [EAGAIN]. *)
Definition recv (n : Z) (k : list recv_event) : call_result (list byte) * list recv_event :=
  match k with
  | [] => (Failed EAGAIN, [])
  | Arrive b bs :: k' =>
      let data := b :: bs in
      (Done (take (Z.to_nat n) data),
       match drop (Z.to_nat n) data with [] => k' | b' :: bs' => Arrive b' bs' :: k' end)
  | Eof :: _ => (Done [], k)
  | RFail e :: k' => (Failed e, k')
  end.

Inductive send_event :=
  | Room (n : positive)                  (* the socket buffer takes up to [n] bytes *)
  | Closed                               (* [send] returns 0 *)
  | SFail (errno : Z).

Definition send (data : list byte) (k : list send_event) : call_result (list byte) * list send_event :=
  match k with
  | [] => (Failed EAGAIN, [])
  | Room n :: k' => (Done (take (Pos.to_nat n) data), k')
  | Closed :: k' => (Done [], k')
  | SFail e :: k' => (Failed e, k')
  end.

(** ** Reading *)

(** The [while] loop of [slam_socket_read_bytes] into the block [buf] at [off]. *)
Fixpoint read_bytes_loop (fuel : nat) (bufsize readbytes off : Z) (buf : list cell)
    (k : list recv_event) : outcome (Z * list cell * list recv_event) :=
  if readbytes <? bufsize then
    match fuel with
    | O => NoFuel
    | S fuel =>
        let '(r, k) := recv (bufsize - readbytes) k in
        match r with
        | Failed errno =>
            if slam_interrupted errno then read_bytes_loop fuel bufsize readbytes off buf k
            else if slam_wouldblock errno then Ok (readbytes, buf, k)
            else Ok (SLAM_ERROR, buf, k)
        | Done data =>
            if len data =? 0 then Ok (SLAM_ERROR, buf, k)
            else
              buf ← store (off + readbytes) data buf;
              read_bytes_loop fuel bufsize (readbytes + len data) off buf k
        end
    end
  else Ok (readbytes, buf, k).

(** Each turn but the last takes an event off the script. *)
Definition slam_socket_read_bytes (off bufsize : Z) (buf : list cell) (k : list recv_event)
    : outcome (Z * list cell * list recv_event) :=
  read_bytes_loop (S (length k)) bufsize 0 off buf k.

(** How much a script can still give: its events and their bytes. *)
Definition event_size (e : recv_event) : nat :=
  match e with Arrive _ bs => S (S (length bs)) | _ => 1 end.
Definition script_size (k : list recv_event) : nat := list_sum (event_size <$> k).

Section reading.
Context (max_package_size : Z).

(** The part of [slam_socket_poll_read] for a message not yet begun: [inl] is
    an early return. *)
Definition read_header (s : slam_socket) (h : msg_heap) (k : list recv_event)
    : outcome ((bool + (loc * msg_heap)) * list recv_event) :=
  '(readbytes, lenbuf, k) ← slam_socket_read_bytes 0 4 (Some <$> le_split 4 0) k;
  if readbytes <? 0 then Ok (inl false, k)
  else if readbytes =? 0 then Ok (inl true, k)
  else if negb (readbytes =? 4) then Ok (inl false, k)     (* "try to read len error" *)
  else
    mlen ← load_uint 0 4 lenbuf;
    if negb (mlen >=? PACKAGE_MIN_SIZE) then Ok (inl false, k)
    else if negb (mlen <? max_package_size) then Ok (inl false, k)
    else
      let '(x, h) := slam_message_new (sk_fd s) MESSAGE_TYPE_PROTOBUF_PACKAGE mlen h in
      DEREF msg := mh_msgs h !! x ;;
      buf ← store_uint (msg_bytesize msg) 4 mlen (msg_buf msg);
      h ← write_message x (set_msg_buf buf) h;
      h ← write_message x (set_bytesize (msg_bytesize msg + 4)) h;
      Ok (inr (x, h), k).

(** The rest of the loop's body, for the message [x]; [None] goes round again. *)
Definition read_body (x : loc) (s : slam_socket) (readmq : slam_message_queue loc)
    (h : msg_heap) (k : list recv_event)
    : outcome (option bool * slam_socket * slam_message_queue loc * msg_heap * list recv_event) :=
  DEREF msg := mh_msgs h !! x ;;
  ASSERT msg_bytesize msg <=? msg_bufsize msg ;;
  if msg_bytesize msg =? msg_bufsize msg then
    '(pushed, readmq) ← slam_message_queue_push_back readmq x;
    if negb pushed then Ok (Some false, s, readmq, h, k)    (* readmq is full *)
    else Ok (None, set_readmessage None s, readmq, h, k)
  else
    '(readbytes, buf, k) ←
      slam_socket_read_bytes (msg_bytesize msg) (msg_bufsize msg - msg_bytesize msg) (msg_buf msg) k;
    h ← write_message x (set_msg_buf buf) h;
    if readbytes <? 0 then Ok (Some false, s, readmq, h, k)
    else if readbytes =? 0 then Ok (Some true, s, readmq, h, k)
    else
      h ← write_message x (set_bytesize (msg_bytesize msg + readbytes)) h;
      ASSERT msg_bytesize msg + readbytes <=? msg_bufsize msg ;;
      Ok (None, s, readmq, h, k).

Fixpoint slam_socket_poll_read (fuel : nat) (s : slam_socket) (readmq : slam_message_queue loc)
    (h : msg_heap) (k : list recv_event)
    : outcome (bool * slam_socket * slam_message_queue loc * msg_heap * list recv_event) :=
  match fuel with
  | O => NoFuel
  | S fuel =>
      '(entry, k) ←
        match sk_readmessage s with
        | Some x => Ok (inr (x, s, h), k)
        | None =>
            '(r, k) ← read_header s h k;
            match r with
            | inl b => Ok (inl b, k)
            | inr (x, h) => Ok (inr (x, set_readmessage (Some x) s, h), k)
            end
        end;
      match entry with
      | inl b => Ok (b, s, readmq, h, k)
      | inr (x, s, h) =>
          '(r, s, readmq, h, k) ← read_body x s readmq h k;
          match r with
          | Some b => Ok (b, s, readmq, h, k)
          | None => slam_socket_poll_read fuel s readmq h k
          end
      end
  end.

(** A turn that goes round again has taken a byte or pushed a message. *)
Definition read_fuel (k : list recv_event) : nat := 2 * script_size k + 3.
End reading.

(** ** Writing *)

(** One turn of the [while] loop of [slam_socket_poll_write]: [None] goes round
    again; the bytes are those the kernel has accepted. *)
Fixpoint slam_socket_poll_write (fuel : nat) (s : slam_socket) (h : msg_heap) (k : list send_event)
    : outcome (bool * list byte * slam_socket * msg_heap * list send_event) :=
  empty ← slam_message_queue_empty (sk_sendmq s);
  if (empty : bool) then Ok (true, [], s, h, k)
  else
    match fuel with
    | O => NoFuel
    | S fuel =>
        front ← slam_message_queue_front (sk_sendmq s);
        DEREF x := front ;;
        DEREF msg := mh_msgs h !! x ;;
        ASSERT msg_bytesize msg <? msg_bufsize msg ;;
        data ← load (msg_bytesize msg) (msg_bufsize msg - msg_bytesize msg) (msg_buf msg);
        let '(r, k) := send data k in
        match r with
        | Failed errno =>
            if slam_interrupted errno then slam_socket_poll_write fuel s h k
            else if slam_wouldblock errno then Ok (true, [], s, h, k)
            else Ok (false, [], s, h, k)
        | Done sent =>
            if len sent =? 0 then Ok (false, [], s, h, k)
            else
              let bytesize := msg_bytesize msg + len sent in
              h ← write_message x (set_bytesize bytesize) h;
              ASSERT bytesize <=? msg_bufsize msg ;;
              '(s, h) ←
                (if bytesize =? msg_bufsize msg then
                   '(_, mq) ← slam_message_queue_pop_front (sk_sendmq s);
                   h ← slam_message_delete x h;
                   Ok (set_sendmq mq s, h)
                 else Ok (s, h));
              '(b, more, s, h, k) ← slam_socket_poll_write fuel s h k;
              Ok (b, sent ++ more, s, h, k)
        end
    end.

Definition slam_socket_write_message (s : slam_socket) (x : loc) : outcome (bool * slam_socket) :=
  '(pushed, mq) ← slam_message_queue_push_back (sk_sendmq s) x;
  Ok (pushed : bool, set_sendmq mq s).

(** ** Creating and deleting *)
Section creation.
Context (socket_send_queue_size : Z).

Definition slam_socket_newfd (connfd socket_type : Z) : outcome slam_socket :=
  mq ← slam_message_queue_new socket_send_queue_size;
  Ok {| sk_fd := connfd; sk_type := socket_type; sk_readmessage := None; sk_sendmq := mq |}.

(** [fd] is what [socket(AF_INET, SOCK_STREAM, 0)] returns. *)
Definition slam_socket_new (fd : Z) : outcome (option slam_socket) :=
  if fd =? INVALID_SOCKET then Ok None
  else s ← slam_socket_newfd fd SOCKET_NONE; Ok (Some s).

(** What the system calls of [slam_socket_bind] return ([SO_REUSEPORT] is set,
    [SO_REUSEADDR] is compiled out). *)
Record bind_results := {
  br_reuseport : Z;
  br_nonblocking : Z;                  (* fcntl *)
  br_bind : Z;
  br_listen : Z;
}.

Definition slam_socket_bind (socket : option slam_socket) (r : bind_results)
    : outcome (bool * option slam_socket) :=
  match socket with
  | None => AssertFail
  | Some s =>
      ASSERT negb (sk_fd s =? INVALID_SOCKET) ;;
      if negb (br_reuseport r =? 0) then Ok (false, Some s)
      else if negb (negb (br_nonblocking r =? -1)) then Ok (false, Some s)
      else if negb (br_bind r =? 0) then Ok (false, Some s)
      else if negb (br_listen r =? 0) then Ok (false, Some s)
      else
        ASSERT sk_type s =? SOCKET_NONE ;;
        Ok (true, Some (set_type SOCKET_SERVER s))
  end.

(** [connected] is what [connect] returns, under the alarm of the time-out. *)
Definition slam_socket_connect (socket : option slam_socket) (connected : Z)
    : outcome (bool * option slam_socket) :=
  match socket with
  | None => AssertFail
  | Some s =>
      ASSERT negb (sk_fd s =? INVALID_SOCKET) ;;
      if connected <? 0 then Ok (false, Some s)
      else
        ASSERT sk_type s =? SOCKET_NONE ;;
        Ok (true, Some (set_type SOCKET_CLIENT s))
  end.

(** What [accept] finds: a connection, and whether it can be made
    non-blocking, or an error; at the end of the script, [EAGAIN]. *)
Inductive accept_event :=
  | AConn (connfd : Z) (nonblocking : bool)
  | AFail (errno : Z).

(** The result carries the descriptors that were closed on the way. *)
Fixpoint slam_socket_accept (k : list accept_event)
    : outcome (option slam_socket * list Z * list accept_event) :=
  match k with
  | [] => Ok (None, [], [])
  | AFail e :: k =>
      if slam_interrupted e then slam_socket_accept k
      else Ok (None, [], k)            (* EAGAIN, or "accept error" *)
  | AConn connfd nonblocking :: k =>
      if negb nonblocking then
        '(s, closed, k) ← slam_socket_accept k;
        Ok (s, connfd :: closed, k)
      else
        s ← slam_socket_newfd connfd SOCKET_CONNECTION;
        Ok (Some s, [], k)
  end.
End creation.

(** The queue's deletion hands its messages to [slam_message_delete]; closing
    the descriptor is left to the caller's descriptor table. *)
Definition slam_socket_delete (s : slam_socket) (h : msg_heap) : outcome msg_heap :=
  h ← match sk_readmessage s with Some x => slam_message_delete x h | None => Ok h end;
  freed ← slam_message_queue_delete (S (length (mq_queue (sk_sendmq s)))) (sk_sendmq s);
  delete_messages freed h.

(** ** The specification of reading *)

(** How a poll round ends: nothing more at hand, or the connection is lost. *)
Inductive stop := Block | Lost.

(** The bytes the script gives until the round ends, and what is left of it. *)
Fixpoint round (k : list recv_event) : list byte * stop * list recv_event :=
  match k with
  | [] => ([], Block, [])
  | Arrive b bs :: k' => let '(bs', st, k'') := round k' in ((b :: bs) ++ bs', st, k'')
  | Eof :: _ => ([], Lost, k)
  | RFail e :: k' =>
      if slam_interrupted e then round k'
      else ([], if slam_wouldblock e then Block else Lost, k')
  end.

(** The bytes a script gives over any number of rounds, until the connection is
    lost. *)
Fixpoint stream (k : list recv_event) : list byte :=
  match k with
  | [] => []
  | Arrive b bs :: k => (b :: bs) ++ stream k
  | Eof :: _ => []
  | RFail e :: k => if slam_interrupted e || slam_wouldblock e then stream k else []
  end.

(** Whether the connection is lost at the end of the script's stream. *)
Fixpoint lost (k : list recv_event) : bool :=
  match k with
  | [] => false
  | Arrive _ _ :: k => lost k
  | Eof :: _ => true
  | RFail e :: k => if slam_interrupted e || slam_wouldblock e then lost k else true
  end.

(** [later k k']: the script [k'] is what is left of [k] when events, or the first
    bytes of a piece, have been taken. *)
Inductive later : list recv_event → list recv_event → Prop :=
  | later_refl k : later k k
  | later_event e k k' : later k k' → later (e :: k) k'
  | later_bytes b bs b' bs' k k' :
      (b' :: bs') `suffix_of` (b :: bs) → later (Arrive b' bs' :: k) k' → later (Arrive b bs :: k) k'.

(** A package as it travels. *)
Definition frame_ok (max_package_size : Z) (f : list byte) : Prop :=
  PACKAGE_MIN_SIZE <= len f < max_package_size ∧ le_combine (take 4 f) = len f.

(** The message [msg] holds the first bytes [p] of a package. *)
Record holds (max_package_size fd : Z) (msg : slam_message) (p : list byte) : Prop := {
  ho_fd : msg_fd msg = fd;
  ho_type : msg_type msg = MESSAGE_TYPE_PROTOBUF_PACKAGE;
  ho_bytesize : msg_bytesize msg = len p;
  ho_header : 4 <= len p <= msg_bufsize msg ∧ le_combine (take 4 p) = msg_bufsize msg;
  ho_size : PACKAGE_MIN_SIZE <= msg_bufsize msg < max_package_size;
  ho_buf : ∃ junk, msg_buf msg = (Some <$> p) ++ junk ∧ len (msg_buf msg) = msg_bufsize msg;
}.

(** The socket has read the first bytes [p] of a package, or nothing. *)
Definition partial (max_package_size : Z) (s : slam_socket) (h : msg_heap) (p : list byte) : Prop :=
  match sk_readmessage s with
  | None => p = []
  | Some x => ∃ msg, mh_msgs h !! x = Some msg ∧ holds max_package_size (sk_fd s) msg p
  end.

(** The block [x] holds exactly the package [f]. *)
Definition complete (max_package_size fd : Z) (h : msg_heap) (x : loc) (f : list byte) : Prop :=
  ∃ msg, mh_msgs h !! x = Some msg ∧ holds max_package_size fd msg f ∧ msg_bufsize msg = len f.

(** What reading does to the heap when it pushes the messages [locs]: it
    allocates [fresh], writes to nothing but those and the message under way,
    and hands every one of them to the queue or keeps it as the message under
    way. *)
Definition read_effect (s : slam_socket) (h : msg_heap) (locs : list loc) (s' : slam_socket)
    (h' : msg_heap) : Prop :=
  sk_fd s' = sk_fd s ∧ sk_type s' = sk_type s ∧ sk_sendmq s' = sk_sendmq s ∧ heap_wf h' ∧
  ∃ fresh, locs ++ option_list (sk_readmessage s') ≡ₚ option_list (sk_readmessage s) ++ fresh ∧
    NoDup fresh ∧ (∀ x, x ∈ fresh → mh_msgs h !! x = None) ∧
    dom (mh_msgs h') = dom (mh_msgs h) ∪ list_to_set fresh ∧
    ∀ y, is_Some (mh_msgs h !! y) → sk_readmessage s ≠ Some y → mh_msgs h' !! y = mh_msgs h !! y.

(** Why a read gave a connection up, with the bytes [p] of the package under way:
    [k] is the script before the last attempt to read, and [k'] the one after it.
    The queue is full; a header announces a length out of range; the stream
    pauses, or so many bytes are all that is at hand, inside a header; or the
    connection is lost. *)
Inductive gave_up (max_package_size room : Z) (p : list byte) (k k' : list recv_event) : Prop :=
  | gu_full : room = 0 → frame_ok max_package_size p → k' = k → gave_up max_package_size room p k k'
  | gu_length d : p = [] → len d = 4 → stream k = d ++ stream k' →
      ¬ (PACKAGE_MIN_SIZE <= le_combine d < max_package_size) → gave_up max_package_size room p k k'
  | gu_pause d : p = [] → 0 < len d < 4 → round k = (d, Block, k') → gave_up max_package_size room p k k'
  | gu_lost d : round k = (d, Lost, k') → gave_up max_package_size room p k k'.

(** ** [read_bytes] *)
Lemma round_stream k : ∀ bs st k',
  round k = (bs, st, k') → stream k = bs ++ match st with Block => stream k' | Lost => [] end.
Proof.
  induction k as [|[b bs0| |e] k IH]; intros bs st k' H; simpl in H |- *; simplify_eq; [done| |done|].
  - destruct (round k) as [[bs1 st1] k1]. simplify_eq. rewrite (IH _ _ _ eq_refl).
    by rewrite app_comm_cons, app_assoc.
  - destruct (slam_interrupted e); simpl; [by apply IH|].
    destruct (slam_wouldblock e); by simplify_eq.
Qed.

Lemma round_lost k : ∀ bs st k',
  round k = (bs, st, k') → lost k = match st with Block => lost k' | Lost => true end.
Proof.
  induction k as [|[b bs0| |e] k IH]; intros bs st k' H; simpl in H |- *; simplify_eq; [done| |done|].
  - destruct (round k) as [[bs1 st1] k1]. simplify_eq. by erewrite IH.
  - destruct (slam_interrupted e); simpl; [by eapply IH|].
    destruct (slam_wouldblock e); by simplify_eq.
Qed.

Lemma round_length k : ∀ bs st k',
  round k = (bs, st, k') → (length k' <= length k)%nat ∧ (st = Block → k = [] ∨ (length k' < length k)%nat).
Proof.
  induction k as [|[b bs0| |e] k IH]; intros bs st k' H; simpl in H |- *; simplify_eq; [by eauto| |by eauto|].
  - destruct (round k) as [[bs1 st1] k1]. simplify_eq. destruct (IH _ _ _ eq_refl). split; [lia|].
    intros ->. right. lia.
  - destruct (slam_interrupted e); simpl; [destruct (IH _ _ _ H); split; [lia|]; intros ->; right; lia|].
    destruct (slam_wouldblock e); simplify_eq; split; eauto; lia.
Qed.

Lemma later_trans k1 k2 k3 : later k1 k2 → later k2 k3 → later k1 k3.
Proof. induction 1; eauto using later. Qed.

Lemma later_length k k' : later k k' → (length k' <= length k)%nat.
Proof. induction 1; simpl in *; lia. Qed.

Lemma round_later k : ∀ bs st k', round k = (bs, st, k') → later k k'.
Proof.
  induction k as [|[b bs0| |e] k IH]; intros bs st k' H; simpl in H; simplify_eq; try constructor.
  - destruct (round k) as [[bs1 st1] k1]. simplify_eq. by eapply IH.
  - destruct (slam_interrupted e); [by eapply IH|]. destruct (slam_wouldblock e); simplify_eq; constructor.
Qed.

(** What a read of the bytes from [n] to [bufsize] returns, when the events at
    hand give the bytes [bs] and then [st]. *)
Definition read_bytes_post (bufsize n off : Z) (buf : list cell) (k : list recv_event) (bs : list byte)
    (st : stop) (k' : list recv_event) (res : Z * list cell * list recv_event) : Prop :=
  let '(r, buf', k'') := res in
  (∃ d rest, bs = d ++ rest ∧ r = bufsize ∧ len d = bufsize - n ∧
     store (off + n) d buf = Ok buf' ∧ round k'' = (rest, st, k') ∧ later k k'') ∨
  (r = n + len bs ∧ len bs < bufsize - n ∧ st = Block ∧ k'' = k' ∧
     store (off + n) bs buf = Ok buf') ∨
  (r = SLAM_ERROR ∧ len bs < bufsize - n ∧ st = Lost ∧ k'' = k' ∧ store (off + n) bs buf = Ok buf').

(** The bytes [c] have been read before. *)
Lemma read_bytes_post_more e c bufsize n off buf buf1 k bs st k' res :
  0 <= off + n → off + bufsize <= len buf → store (off + n) c buf = Ok buf1 →
  read_bytes_post bufsize (n + len c) off buf1 k bs st k' res →
  read_bytes_post bufsize n off buf (e :: k) (c ++ bs) st k' res.
Proof.
  destruct res as [[r buf'] k'']. intros H0 Hbuf Hst Hres. simpl in Hres. rewrite Z.add_assoc in Hres.
  assert (∀ d, n + len c + len d <= bufsize →
    store (off + n + len c) d buf1 = store (off + n) (c ++ d) buf) as Hss.
  { intros d Hd. apply store_store; [done|len]. }
  destruct Hres as [(d & rest & -> & -> & Hd & Hs & Hr & Hkl)|[(-> & Hd & -> & -> & Hs)|(-> & Hd & -> & -> & Hs)]];
    [left|right; left|right; right]; rewrite Hss in Hs by lia.
  - exists (c ++ d), rest. split_and!; [by rewrite <- app_assoc|done|len|done|done|by constructor].
  - split_and!; [len|len|done|done|done].
  - split_and!; [done|len|done|done|done].
Qed.

Lemma read_bytes_loop_spec fuel : ∀ bufsize n off buf k bs st k',
  (length k < fuel)%nat → 0 <= n <= bufsize → 0 <= off → off + bufsize <= len buf →
  round k = (bs, st, k') →
  returns (read_bytes_loop fuel bufsize n off buf k) (read_bytes_post bufsize n off buf k bs st k').
Proof.
  induction fuel as [|fuel IH]; intros bufsize n off buf k bs st k' Hf Hn Hoff Hbuf Hr; [lia|].
  simpl. zcase; [|]. 2:{
    apply returns_ok. left. exists [], bs. replace n with bufsize by lia.
    split_and!; [done|done|len|apply store_nil; lia|done|constructor]. }
  destruct k as [|[b bs0| |e] k]; simpl in Hr, Hf |- *.
  - simplify_eq. apply returns_ok. right; left. rewrite store_nil by lia. by split_and!; try len.
  - destruct (round k) as [[bs1 st1] k1] eqn:Hk. simplify_eq.
    destruct (Z.le_gt_cases (len (b :: bs0)) (bufsize - n)) as [Hle|Hgt].
    + rewrite take_ge, drop_ge by len. zcase; [len|].
      assert (∃ buf1, store (off + n) (b :: bs0) buf = Ok buf1) as [buf1 Hst]
        by (eexists; apply store_ok; len).
      rewrite Hst, bind_ok. pose proof (store_len _ _ _ _ Hst) as Hlen.
      eapply returns_mono; [apply (IH bufsize (n + len (b :: bs0)) off buf1 k bs1 st k'); len || done|].
      intros res Hres. apply (read_bytes_post_more _ (b :: bs0) _ _ _ _ buf1); done || lia.
    + destruct (drop (Z.to_nat (bufsize - n)) (b :: bs0)) as [|b' bs'] eqn:Hd.
      { apply (f_equal len) in Hd. len. }
      zcase; [len|].
      destruct (store (off + n) (take (Z.to_nat (bufsize - n)) (b :: bs0)) buf) as [buf1| | |] eqn:Hst;
        try (by rewrite store_ok in Hst by len).
      rewrite bind_ok. replace (n + _) with bufsize by len.
      assert (∀ f, read_bytes_loop f bufsize bufsize off buf1 (Arrive b' bs' :: k)
                   = Ok (bufsize, buf1, Arrive b' bs' :: k)) as ->.
      { intros []; simpl; by rewrite Z.ltb_irrefl. }
      apply returns_ok. left. exists (take (Z.to_nat (bufsize - n)) (b :: bs0)), ((b' :: bs') ++ bs1).
      split_and!; [|done|len|done|by simpl; rewrite Hk|].
      { by rewrite app_assoc, <- Hd, take_drop. }
      eapply later_bytes; [|constructor]. rewrite <- Hd. exists (take (Z.to_nat (bufsize - n)) (b :: bs0)).
      by rewrite take_drop.
  - simplify_eq. apply returns_ok. right; right. rewrite store_nil by lia. by split_and!; try len.
  - destruct (slam_interrupted e).
    { eapply returns_mono; [apply (IH bufsize n off buf k bs st k'); lia || done|].
      intros [[r buf'] k''] [(d & rest & ? & ? & ? & ? & ? & ?)|Hres]; [left|right; exact Hres].
      exists d, rest. split_and!; try done. by constructor. }
    simplify_eq. destruct (slam_wouldblock e); apply returns_ok; right; [left|right];
      rewrite store_nil by lia; by split_and!; try len.
Qed.

(** A read of [n] bytes: all of them, those at hand, or the connection is lost. *)
Lemma read_bytes_spec off n buf k :
  0 < n → 0 <= off → off + n <= len buf →
  returns (slam_socket_read_bytes off n buf k) (λ '(r, buf', k'), later k k' ∧ ∃ d, store off d buf = Ok buf' ∧
    (r = n ∧ len d = n ∧ stream k = d ++ stream k' ∧ lost k = lost k' ∨
     r = len d ∧ len d < n ∧ round k = (d, Block, k') ∨
     r = SLAM_ERROR ∧ round k = (d, Lost, k'))).
Proof.
  intros Hn Hoff Hbuf. destruct (round k) as [[bs st] k1] eqn:Hr.
  eapply returns_mono; [apply (read_bytes_loop_spec (S (length k)) n 0 off buf k bs st k1); lia || done|].
  intros [[r buf'] k'] Hres. simpl in Hres. rewrite Z.add_0_r, Z.sub_0_r in Hres.
  destruct Hres as [(d & rest & -> & -> & Hd & Hst & Hr' & Hl')|[(-> & Hd & -> & -> & Hst)|(-> & Hd & -> & -> & Hst)]].
  - split; [done|]. exists d. split; [done|]. left.
    rewrite (round_stream _ _ _ _ Hr), (round_stream _ _ _ _ Hr'), <- app_assoc.
    by rewrite (round_lost _ _ _ _ Hr), (round_lost _ _ _ _ Hr').
  - split; [by eapply round_later|]. exists bs. split; [done|]. right; left. by split.
  - split; [by eapply round_later|]. exists bs. split; [done|]. by right; right.
Qed.

(** ** [poll_read] *)
Lemma le_split_header (d : list byte) : len d = 4 → le_split 4 (le_combine d) = d.
Proof. intros H. apply split_le_combine'. unfold len in H. lia. Qed.

Definition first_bytes (fd mlen : Z) (d : list byte) : slam_message :=
  {| msg_fd := fd; msg_type := MESSAGE_TYPE_PROTOBUF_PACKAGE; msg_bufsize := mlen;
     msg_bytesize := 4; msg_buf := (Some <$> d) ++ drop 4 (fresh_cells mlen) |}.

Lemma first_bytes_holds max fd d :
  len d = 4 → PACKAGE_MIN_SIZE <= le_combine d < max → holds max fd (first_bytes fd (le_combine d) d) d.
Proof.
  intros Hd Hm. unfold PACKAGE_MIN_SIZE in *. split; simpl; try done.
  - rewrite take_ge by len. lia.
  - exists (drop 4 (fresh_cells (le_combine d))). split; [done|]. unfold fresh_cells. len.
Qed.

Lemma read_header_spec max s h k :
  heap_wf h →
  returns (read_header max s h k) (λ '(r, k'), later k k' ∧
    match r with
    | inl true => round k = ([], Block, k')
    | inl false => ∀ room, gave_up max room [] k k'
    | inr (x, h') => ∃ d, len d = 4 ∧ stream k = d ++ stream k' ∧ lost k = lost k' ∧
        PACKAGE_MIN_SIZE <= le_combine d < max ∧ x = mh_brk h ∧
        h' = {| mh_msgs := <[x := first_bytes (sk_fd s) (le_combine d) d]> (mh_msgs h);
                mh_brk := Pos.succ (mh_brk h) |}
    end).
Proof.
  intros Hwf. unfold read_header.
  eapply returns_bind; [apply read_bytes_spec; simpl; lia || len|].
  intros [[r buf'] k'] [Hl (d & Hst & [(-> & Hd & Hs & Hlo)|[(-> & Hd & Hr)|(-> & Hr)]])]; cbv beta iota; last first.
  { apply returns_ok. split; [done|]. intros room. by eapply gu_lost. }
  { zcase; [len|]. zcase.
    { apply returns_ok. destruct d; [|len]. by split. }
    rewrite (proj2 (Z.eqb_neq (len d) 4)) by lia. apply returns_ok. split; [done|].
    intros room. eapply (gu_pause _ _ _ _ _ d); [done|len|done]. }
  simpl.
  pose proof (store_inv _ _ _ _ Hst) as (_ & _ & ->). rewrite drop_ge by len.
  pose proof (load_uint_app [] d [] 4 ltac:(len)) as Hld. rewrite len_nil in Hld. simpl in Hld |- *.
  rewrite Hld, bind_ok. rewrite (Z.geb_leb (le_combine d)).
  destruct (Z.leb_spec PACKAGE_MIN_SIZE (le_combine d)); simpl; last first.
  { apply returns_ok. split; [done|]. intros room. eapply (gu_length _ _ _ _ _ d); done || lia. }
  destruct (Z.ltb_spec (le_combine d) max); simpl; last first.
  { apply returns_ok. split; [done|]. intros room. eapply (gu_length _ _ _ _ _ d); done || lia. }
  rewrite lookup_insert_eq. simpl. unfold store_uint. rewrite le_split_header by done.
  unfold PACKAGE_MIN_SIZE in *.
  rewrite store_ok by (rewrite ?fresh_cells_len; lia). simpl.
  erewrite write_message_ok by (simpl; by rewrite lookup_insert_eq). simpl.
  erewrite write_message_ok by (simpl; by rewrite lookup_insert_eq). simpl.
  rewrite !insert_insert_eq. apply returns_ok. split; [done|]. exists d.
  split_and!; [done|done|done|done|lia|done|]. unfold first_bytes.
  by replace (length d) with 4%nat by len.
Qed.

(** Storing more bytes behind a partial package. *)
Lemma holds_store max fd msg p d buf' :
  holds max fd msg p → store (len p) d (msg_buf msg) = Ok buf' →
  len p + len d <= msg_bufsize msg ∧
  holds max fd (set_bytesize (len p + len d) (set_msg_buf buf' msg)) (p ++ d) ∧
  holds max fd (set_msg_buf buf' msg) p.
Proof.
  intros [Hfd Hty Hby [Hh Hh'] Hsz (junk & Hb & Hl)] Hst.
  pose proof (store_len _ _ _ _ Hst) as Hl'. pose proof (store_inv _ _ _ _ Hst) as (_ & Hbound & _).
  rewrite <- (len_fmap (Some : byte → cell) p), Hb, store_app in Hst by (rewrite Hb in Hbound; len).
  rewrite Hl in Hbound.
  injection Hst as <-. pose proof (len_nonneg d).
  split_and!; [lia| |]; split; simpl; try done.
  - len.
  - rewrite take_app_le by len. split; [len|done].
  - eexists. rewrite fmap_app, <- app_assoc. split; [done|]. by rewrite Hl'.
  - eexists. split; [done|]. by rewrite Hl'.
Qed.

Lemma read_body_spec max x s mq q h k msg p :
  heap_wf h → mh_msgs h !! x = Some msg → holds max (sk_fd s) msg p → mq_rep mq q →
  returns (read_body x s mq h k) (λ '(r, s', mq', h', k'), later k k' ∧
    mq_maxsize mq' = mq_maxsize mq ∧ mq_rindex mq' = mq_rindex mq ∧
    if msg_bufsize msg =? len p then
      h' = h ∧ k' = k ∧
      if len q <? mq_maxsize mq - 1
      then r = None ∧ s' = set_readmessage None s ∧ mq_rep mq' (q ++ [x])
      else r = Some false ∧ s' = s ∧ mq_rep mq' q
    else
      s' = s ∧ mq_rep mq' q ∧ ∃ msg' d,
        h' = with_msgs (<[x := msg']> (mh_msgs h)) h ∧ holds max (sk_fd s) msg' (p ++ d) ∧
        match r with
        | None => 0 < len d ∧ stream k = d ++ stream k' ∧ lost k = lost k'
        | Some true => d = [] ∧ round k = ([], Block, k')
        | Some false => d = [] ∧ ∃ d', round k = (d', Lost, k')
        end).
Proof.
  intros Hwf Hx Hm Hq. pose proof Hm as [Hfd Hty Hby [Hh Hh'] Hsz (junk & Hb & Hl)].
  unfold read_body. rewrite Hx, Hby. rewrite (proj2 (Z.leb_le _ _)) by lia.
  rewrite (Z.eqb_sym (msg_bufsize msg)). zcase.
  - eapply returns_bind; [by apply push_rep|]. intros [b mq'] (-> & Hq' & Hmax & Hri).
    destruct (len q <? mq_maxsize mq - 1); simpl; apply returns_ok; split_and!; try done; constructor.
  - eapply returns_bind; [apply read_bytes_spec; lia|].
    intros [[r buf'] k'] [Hlk (d & Hst & Hres)]. cbv beta iota. rewrite (write_message_ok _ _ _ _ Hx), bind_ok.
    destruct (holds_store _ _ _ _ _ _ Hm Hst) as (Hbd & Hh1 & Hh2). pose proof (len_nonneg d).
    assert (r = SLAM_ERROR ∧ round k = (d, Lost, k') ∨ r = 0 ∧ d = [] ∧ round k = ([], Block, k') ∨
      0 < len d ∧ r = len d ∧ stream k = d ++ stream k' ∧ lost k = lost k') as [[-> Hr]|[(-> & -> & Hr)|(Hd & -> & Hs & Hlo)]].
    { destruct Hres as [(-> & Hd & Hs & Hlo)|[(-> & Hd & Hr)|(-> & Hr)]]; [right; right|right|by left].
      - split_and!; done || lia.
      - destruct d as [|b d]; [by left|right]. split_and!; [rewrite len_cons; pose proof (len_nonneg d); lia|done|by apply round_stream in Hr|by apply round_lost in Hr]. }
    + apply returns_ok. split_and!; try done. exists (set_msg_buf buf' msg), [].
      rewrite app_nil_r. split_and!; try done. by exists d.
    + apply returns_ok. split_and!; try done. exists (set_msg_buf buf' msg), []. by rewrite app_nil_r.
    + zcase; [lia|]. zcase; [lia|].
      erewrite write_message_ok by (simpl; by rewrite lookup_insert_eq). rewrite bind_ok.
      rewrite (proj2 (Z.leb_le _ _)) by lia. apply returns_ok. split_and!; try done.
      eexists _, d. simpl. rewrite insert_insert_eq. split_and!; try done.
Qed.

(** ** Some turns of [poll_read]: from a socket that holds [p], by way of the
    packages [fs] pushed as [locs], to one that holds [p']. *)
Record read_reach (max : Z) (s : slam_socket) (mq : slam_message_queue loc) (q : list loc)
    (h : msg_heap) (k : list recv_event) (p : list byte) (locs : list loc) (fs : list (list byte))
    (s' : slam_socket) (mq' : slam_message_queue loc) (h' : msg_heap) (k' : list recv_event)
    (p' : list byte) : Prop := {
  rr_max : mq_maxsize mq' = mq_maxsize mq;
  rr_rindex : mq_rindex mq' = mq_rindex mq;
  rr_rep : mq_rep mq' (q ++ locs);
  rr_frames : Forall2 (complete max (sk_fd s) h') locs fs;
  rr_partial : partial max s' h' p';
  rr_effect : read_effect s h locs s' h';
  rr_stream : p ++ stream k = concat fs ++ p' ++ stream k';
  rr_lost : lost k = lost k';
  rr_later : later k k';
}.

Lemma read_effect_refl s h : heap_wf h → read_effect s h [] s h.
Proof.
  intros H. split_and!; [done..|]. exists []. rewrite app_nil_r. split_and!; [done|constructor| | |done].
  - by intros x ?%elem_of_nil.
  - set_solver.
Qed.

Lemma partial_live max s h p x :
  partial max s h p → sk_readmessage s = Some x → is_Some (mh_msgs h !! x).
Proof. unfold partial. intros H E. rewrite E in H. destruct H as (msg & -> & _). eauto. Qed.

Lemma elem_option_list (o : ptr) x : x ∈ option_list o ↔ o = Some x.
Proof. destruct o; simpl; [rewrite list_elem_of_singleton|]; set_solver. Qed.

Lemma NoDup_option_list (o : ptr) : NoDup (option_list o).
Proof. destruct o; simpl; [apply NoDup_singleton|constructor]. Qed.

(** The messages a read hands over and the one it keeps are distinct. *)
Lemma read_effect_nodup s h locs s' h' :
  (∀ x, sk_readmessage s = Some x → is_Some (mh_msgs h !! x)) → read_effect s h locs s' h' →
  NoDup (locs ++ option_list (sk_readmessage s')).
Proof.
  intros Hl (_ & _ & _ & _ & fresh & Hp & Hnd & Hf & _). rewrite Hp.
  apply NoDup_app. split_and!; [apply NoDup_option_list| |done].
  intros x Hx%elem_option_list Hx'. apply Hl in Hx as [? Hx]. rewrite Hf in Hx; done.
Qed.

Lemma read_effect_live s h locs s' h' x :
  (∀ x, sk_readmessage s = Some x → is_Some (mh_msgs h !! x)) → read_effect s h locs s' h' →
  x ∈ locs → is_Some (mh_msgs h' !! x) ∧ sk_readmessage s' ≠ Some x.
Proof.
  intros Hl H Hx. pose proof (read_effect_nodup _ _ _ _ _ Hl H) as (_ & Hd & _)%NoDup_app. split.
  - destruct H as (_ & _ & _ & _ & fresh & Hp & _ & _ & Hdom & _).
    assert (x ∈ option_list (sk_readmessage s) ++ fresh) as Hin by (rewrite <- Hp; set_solver).
    apply elem_of_dom. rewrite Hdom. apply elem_of_app in Hin as [Hin%elem_option_list|Hin].
    + apply elem_of_union_l, elem_of_dom. by apply Hl.
    + set_solver.
  - intros E. apply (Hd x Hx). by apply elem_option_list.
Qed.

Lemma read_effect_trans s h locs1 s1 h1 locs2 s2 h2 :
  (∀ x, sk_readmessage s = Some x → is_Some (mh_msgs h !! x)) →
  read_effect s h locs1 s1 h1 → read_effect s1 h1 locs2 s2 h2 →
  read_effect s h (locs1 ++ locs2) s2 h2.
Proof.
  intros Hl H1 H2. pose proof H1 as (E1 & E2 & E3 & Hw1 & f1 & Hp1 & Hnd1 & Hf1 & Hd1 & Hk1).
  destruct H2 as (E1' & E2' & E3' & Hw2 & f2 & Hp2 & Hnd2 & Hf2 & Hd2 & Hk2).
  split_and!; [congruence..|done|]. exists (f1 ++ f2).
  assert (∀ x, x ∈ f2 → mh_msgs h !! x = None ∧ x ∉ f1) as Hf2'.
  { intros x Hx%Hf2. apply not_elem_of_dom in Hx. rewrite Hd1 in Hx.
    apply not_elem_of_union in Hx as [Hx Hx']. split; [by apply not_elem_of_dom|set_solver]. }
  split_and!.
  - rewrite <- app_assoc, Hp2, !app_assoc. by rewrite Hp1.
  - apply NoDup_app. split_and!; [done| |done]. intros x Hx Hx'. by apply Hf2' in Hx' as [_ []].
  - intros x [Hx|Hx]%elem_of_app; [by apply Hf1|by apply Hf2'].
  - rewrite Hd2, Hd1, list_to_set_app_L. set_solver.
  - intros y Hy Hne. rewrite <- (Hk1 y Hy Hne). apply Hk2.
    + apply elem_of_dom. rewrite Hd1. apply elem_of_union_l. by apply elem_of_dom.
    + intros E. assert (y ∈ option_list (sk_readmessage s) ++ f1) as Hin.
      { rewrite <- Hp1. apply elem_of_app. right. by apply elem_option_list. }
      apply elem_of_app in Hin as [Hin%elem_option_list|Hin%Hf1]; [done|].
      rewrite Hin in Hy. by destruct Hy.
Qed.

Lemma read_reach_trans max s mq q h k p locs1 fs1 s1 mq1 h1 k1 p1 locs2 fs2 s2 mq2 h2 k2 p2 :
  partial max s h p →
  read_reach max s mq q h k p locs1 fs1 s1 mq1 h1 k1 p1 →
  read_reach max s1 mq1 (q ++ locs1) h1 k1 p1 locs2 fs2 s2 mq2 h2 k2 p2 →
  read_reach max s mq q h k p (locs1 ++ locs2) (fs1 ++ fs2) s2 mq2 h2 k2 p2.
Proof.
  intros Hp [M1 R1 Q1 F1 P1 E1 S1 L1 N1] [M2 R2 Q2 F2 P2 E2 S2 L2 N2].
  assert (sk_fd s1 = sk_fd s) as Hfd by apply E1. rewrite Hfd in F2. split.
  - congruence.
  - congruence.
  - by rewrite app_assoc.
  - apply Forall2_app; [|done]. eapply Forall2_impl_left; [exact F1|].
    intros x f Hx (msg & Hmsg & Hrest). exists msg. split; [|done]. rewrite <- Hmsg.
    destruct (read_effect_live _ _ _ _ _ x (λ y, partial_live _ _ _ _ y Hp) E1 Hx) as [? ?].
    destruct E2 as (_ & _ & _ & _ & f2 & _ & _ & _ & _ & Hk). by apply Hk.
  - done.
  - eapply read_effect_trans; [|exact E1|exact E2]. intros x. by apply (partial_live max _ _ p).
  - by rewrite S1, S2, concat_app, <- app_assoc.
  - congruence.
  - by eapply later_trans.
Qed.

Lemma reach_header max s mq q h k k' d :
  heap_wf h → mq_rep mq q → sk_readmessage s = None → len d = 4 →
  PACKAGE_MIN_SIZE <= le_combine d < max →
  stream k = d ++ stream k' → lost k = lost k' → later k k' →
  let x := mh_brk h in
  read_reach max s mq q h k [] [] [] (set_readmessage (Some x) s) mq
    {| mh_msgs := <[x := first_bytes (sk_fd s) (le_combine d) d]> (mh_msgs h);
       mh_brk := Pos.succ (mh_brk h) |} k' d.
Proof.
  intros Hwf Hq Hs Hd Hm Hst Hlo Hl x. subst x. pose proof (new_fresh _ Hwf) as Hx.
  split; [done|done|by rewrite app_nil_r|constructor| | |done|done|done].
  - eexists. simpl. rewrite lookup_insert_eq. split; [done|]. by apply first_bytes_holds.
  - split_and!; try done.
    { intros y. simpl. intros [<-|Hy]%lookup_insert_is_Some'; [lia|]. apply Hwf in Hy. lia. }
    exists [mh_brk h]. rewrite Hs. simpl. split_and!; [done|apply NoDup_singleton| | |].
    + by intros y ->%list_elem_of_singleton.
    + rewrite dom_insert_L. set_solver.
    + intros y Hy _. apply lookup_insert_ne. intros <-. rewrite Hx in Hy. by destruct Hy.
Qed.

Lemma reach_push max s mq q h k x msg p mq' :
  heap_wf h → mh_msgs h !! x = Some msg → holds max (sk_fd s) msg p → msg_bufsize msg = len p →
  sk_readmessage s = Some x → mq_rep mq' (q ++ [x]) → mq_maxsize mq' = mq_maxsize mq →
  mq_rindex mq' = mq_rindex mq →
  read_reach max s mq q h k p [x] [p] (set_readmessage None s) mq' h k [].
Proof.
  intros Hwf Hx Hm Hc Hs Hq Hmax Hri. split; try done.
  - constructor; [|constructor]. by exists msg.
  - split_and!; try done. exists []. rewrite Hs. simpl.
    split_and!; [done|constructor|by intros y ?%elem_of_nil|set_solver|done].
  - simpl. by rewrite app_nil_r.
  - constructor.
Qed.

Lemma reach_more max s mq q h k x msg msg' p d mq' k' :
  heap_wf h → mh_msgs h !! x = Some msg → holds max (sk_fd s) msg' (p ++ d) →
  sk_readmessage s = Some x → mq_rep mq' q → mq_maxsize mq' = mq_maxsize mq →
  mq_rindex mq' = mq_rindex mq →
  stream k = d ++ stream k' → lost k = lost k' → later k k' →
  read_reach max s mq q h k p [] [] s mq' (with_msgs (<[x := msg']> (mh_msgs h)) h) k' (p ++ d).
Proof.
  intros Hwf Hx Hm Hs Hq Hmax Hri Hst Hlo Hl. split; [done|done|by rewrite app_nil_r|constructor| | | |done|done].
  - unfold partial. rewrite Hs. exists msg'. simpl. by rewrite lookup_insert_eq.
  - split_and!; try done; [by eapply write_heap_wf|].
    exists []. rewrite app_nil_r. simpl. split_and!; [done|constructor|by intros y ?%elem_of_nil| |].
    + rewrite dom_insert_L. assert (x ∈ dom (mh_msgs h)) by by apply elem_of_dom. set_solver.
    + intros y _ Hne. apply lookup_insert_ne. congruence.
  - simpl. by rewrite Hst, app_assoc.
Qed.

Lemma holds_frame max fd msg p :
  holds max fd msg p → frame_ok max p ↔ msg_bufsize msg = len p.
Proof. intros [_ _ _ [_ Hh] Hsz _]. unfold frame_ok. rewrite Hh. split; [tauto|]. intros <-. done. Qed.

(** What [poll_read] has done when it returns: [k1] is the script before its last
    attempt to read. *)
Definition read_post (max : Z) (s : slam_socket) (mq : slam_message_queue loc) (q : list loc)
    (h : msg_heap) (k : list recv_event) (p : list byte)
    (r : bool * slam_socket * slam_message_queue loc * msg_heap * list recv_event) : Prop :=
  let '(b, s', mq', h', k') := r in
  ∃ locs fs k1 p', read_reach max s mq q h k p locs fs s' mq' h' k1 p' ∧ later k1 k' ∧
    if (b : bool) then round k1 = ([], Block, k') ∧ ¬ frame_ok max p'
    else gave_up max (mq_maxsize mq' - 1 - len (q ++ locs)) p' k1 k'.

Lemma read_post_trans max s mq q h k p locs1 fs1 s1 mq1 h1 k1 p1 r :
  partial max s h p →
  read_reach max s mq q h k p locs1 fs1 s1 mq1 h1 k1 p1 →
  read_post max s1 mq1 (q ++ locs1) h1 k1 p1 r → read_post max s mq q h k p r.
Proof.
  intros Hp H1. destruct r as [[[[b s2] mq2] h2] k2]. intros (locs2 & fs2 & k' & p2 & H2 & Hl & Hb).
  exists (locs1 ++ locs2), (fs1 ++ fs2), k', p2.
  split; [by eapply read_reach_trans|]. split; [done|]. destruct b; [done|]. by rewrite app_assoc.
Qed.

Lemma read_reach_refl max s mq q h k p :
  heap_wf h → mq_rep mq q → partial max s h p → read_reach max s mq q h k p [] [] s mq h k p.
Proof.
  intros Hwf Hq Hp. split; try done; [by rewrite app_nil_r|by apply read_effect_refl|constructor].
Qed.

(** The units of fuel a read still needs. *)
Definition read_measure (max : Z) (p : list byte) (k : list recv_event) : Z :=
  2 * len (stream k) + (if bool_decide (0 < len p ∧ len p = le_combine (take 4 p)) then 1 else 0).

Section poll_read_loop.
Context (max : Z) (fuel : nat).
Hypothesis IH : ∀ s mq q h k p,
  heap_wf h → partial max s h p → mq_rep mq q → read_measure max p k < Z.of_nat fuel →
  returns (slam_socket_poll_read max fuel s mq h k) (read_post max s mq q h k p).

(** The rest of a turn, for a message under way. *)
Lemma poll_read_body s mq q h k x msg p :
  heap_wf h → sk_readmessage s = Some x → mh_msgs h !! x = Some msg →
  holds max (sk_fd s) msg p → mq_rep mq q → read_measure max p k <= Z.of_nat fuel →
  returns ('(r, s, mq, h, k) ← read_body x s mq h k;
           match r with
           | Some b => Ok (b, s, mq, h, k)
           | None => slam_socket_poll_read max fuel s mq h k
           end) (read_post max s mq q h k p).
Proof.
  intros Hwf Hs Hx Hm Hq Hf.
  assert (partial max s h p) as Hp by (unfold partial; rewrite Hs; eauto).
  pose proof Hm as [_ _ _ [Hp4 Hh] _ _]. unfold read_measure in Hf. rewrite Hh in Hf.
  eapply returns_bind; [by apply (read_body_spec max x s mq q h k msg p)|].
  intros [[[[r s'] mq'] h'] k'] (Hl & Hmax & Hri & Hres).
  destruct (Z.eqb_spec (msg_bufsize msg) (len p)) as [Hc|Hc].
  - destruct Hres as (-> & -> & Hres). rewrite bool_decide_eq_true_2 in Hf by lia.
    destruct (Z.ltb_spec (len q) (mq_maxsize mq - 1)); destruct Hres as (-> & -> & Hq').
    + eapply returns_mono; [apply (IH _ _ (q ++ [x]) _ _ []); try done|].
      { unfold read_measure. rewrite bool_decide_eq_false_2 by (by intros [? _]). lia. }
      intros r. eapply read_post_trans; [done|]. by eapply reach_push.
    + apply returns_ok. exists [], [], k, p. split; [|split; [constructor|]].
      { pose proof (read_reach_refl max s mq' q h k p Hwf Hq' Hp) as []. by split. }
      apply gu_full; [|by eapply holds_frame|done]. rewrite app_nil_r.
      pose proof (rep_room _ _ Hq'). lia.
  - destruct Hres as (-> & Hq' & msg' & d & -> & Hm' & Hres).
    rewrite bool_decide_eq_false_2 in Hf by lia.
    assert (d = [] → read_reach max s mq q h k p [] [] s mq' (with_msgs (<[x := msg']> (mh_msgs h)) h) k p) as Hreach.
    { intros ->. rewrite <- (app_nil_r p) at 2. eapply reach_more; try done; constructor. }
    destruct r as [[]|].
    + destruct Hres as (-> & Hr). apply returns_ok. exists [], [], k, p. split; [by apply Hreach|].
      rewrite app_nil_r in Hm'. split_and!; [done|done|]. rewrite (holds_frame _ _ _ _ Hm').
      pose proof Hm' as [_ _ _ [_ Hh'] _ _]. congruence.
    + destruct Hres as (-> & d' & Hr). apply returns_ok. exists [], [], k, p. split; [by apply Hreach|].
      split; [done|]. by eapply gu_lost.
    + destruct Hres as (Hd & Hst & Hlo).
      eapply returns_mono; [apply (IH _ _ q _ _ (p ++ d)); [by eapply write_heap_wf| |done|]|].
      * unfold partial. rewrite Hs. exists msg'. simpl. by rewrite lookup_insert_eq.
      * unfold read_measure. rewrite Hst in Hf. case_bool_decide; len.
      * intros r Hr. eapply (read_post_trans _ _ _ _ _ _ _ [] []); [done|by eapply reach_more|].
        by rewrite app_nil_r.
Qed.
End poll_read_loop.

Lemma slam_socket_poll_read_spec max fuel : ∀ s mq q h k p,
  heap_wf h → partial max s h p → mq_rep mq q → read_measure max p k < Z.of_nat fuel →
  returns (slam_socket_poll_read max fuel s mq h k) (read_post max s mq q h k p).
Proof.
  induction fuel as [|fuel IH]; intros s mq q h k p Hwf Hp Hq Hf.
  { unfold read_measure in Hf. pose proof (len_nonneg (stream k)). case_bool_decide; lia. }
  simpl. destruct (sk_readmessage s) as [x|] eqn:Hs.
  { pose proof Hp as Hp'. unfold partial in Hp'. rewrite Hs in Hp'. destruct Hp' as (msg & Hx & Hm).
    rewrite bind_ok. eapply poll_read_body; try done. lia. }
  assert (p = []) as -> by (unfold partial in Hp; by rewrite Hs in Hp).
  destruct (read_header_spec max s h k Hwf) as ([r k'] & -> & Hl & Hres). rewrite bind_ok.
  destruct r as [[]|[x h1]]; simpl.
  - apply returns_ok. exists [], [], k, []. split; [by apply read_reach_refl|]. split_and!; try done.
    intros [Hm _]. unfold PACKAGE_MIN_SIZE in Hm. by rewrite len_nil in Hm; destruct Hm.
  - apply returns_ok. exists [], [], k, []. split; [by apply read_reach_refl|]. split; [done|]. apply Hres.
  - destruct Hres as (d & Hd & Hst & Hlo & Hr & -> & ->).
    pose proof (reach_header max s mq q h k k' d Hwf Hq Hs Hd Hr Hst Hlo Hl) as Hreach.
    eapply returns_mono; [eapply poll_read_body; [exact IH|..]|].
    + apply (rr_effect _ _ _ _ _ _ _ _ _ _ _ _ _ _ Hreach).
    + done.
    + simpl. by rewrite lookup_insert_eq.
    + by apply first_bytes_holds.
    + done.
    + unfold read_measure in *. rewrite Hst in Hf. repeat case_bool_decide; len.
    + intros r Hpost. eapply (read_post_trans _ _ _ _ _ _ _ [] []); [done|exact Hreach|].
      by rewrite app_nil_r.
Qed.
