(* ===== verification/SocketOptions.v ===== *)
(** * Options of sockets ([io/slam_socket.c]) and the small releases

    The wrappers of [setsockopt] and [fcntl] on the kernel's options and status
    flags of the open descriptors; a descriptor that is not open makes the call
    fail with -1. *)

From S2P Require Import Prelude.

Record kernel := {
  kn_options : gmap (Z * Z * Z) Z;     (* descriptor, level, option *)
  kn_flags : gmap Z Z;                 (* the status flags of the open descriptors *)
}.

Definition O_NONBLOCK : Z := 0x800.
Definition SOL_SOCKET : Z := 1.
Definition SO_REUSEADDR : Z := 2.
Definition SO_REUSEPORT : Z := 15.
Definition IPPROTO_TCP : Z := 6.
Definition TCP_NODELAY : Z := 1.

Definition setsockopt (s level name value : Z) (k : kernel) : Z * kernel :=
  match kn_flags k !! s with
  | Some _ => (0, {| kn_options := <[(s, level, name) := value]> (kn_options k); kn_flags := kn_flags k |})
  | None => (-1, k)
  end.

Definition fcntl_getfl (s : Z) (k : kernel) : Z := default (-1) (kn_flags k !! s).

Definition fcntl_setfl (s flags : Z) (k : kernel) : Z * kernel :=
  match kn_flags k !! s with
  | Some _ => (0, {| kn_options := kn_options k; kn_flags := <[s := flags]> (kn_flags k) |})
  | None => (-1, k)
  end.

(** ** Operations *)
Definition slam_socket_reuseable_address (s : Z) (k : kernel) : bool * kernel :=
  let '(rc, k) := setsockopt s SOL_SOCKET SO_REUSEADDR 1 k in (rc =? 0, k).

Definition slam_socket_reuseable_port (s : Z) (k : kernel) : bool * kernel :=
  let '(rc, k) := setsockopt s SOL_SOCKET SO_REUSEPORT 1 k in (rc =? 0, k).

Definition slam_socket_blocking (s : Z) (k : kernel) : bool * kernel :=
  let '(rc, k) := fcntl_setfl s (Z.land (fcntl_getfl s k) (Z.lnot O_NONBLOCK)) k in (negb (rc =? -1), k).

Definition slam_socket_nonblocking (s : Z) (k : kernel) : bool * kernel :=
  let '(rc, k) := fcntl_setfl s (Z.lor (fcntl_getfl s k) O_NONBLOCK) k in (negb (rc =? -1), k).

Definition slam_socket_nodelay (s : Z) (enable_nodelay : bool) (k : kernel) : bool * kernel :=
  let '(rc, k) := setsockopt s IPPROTO_TCP TCP_NODELAY (if enable_nodelay then 1 else 0) k in (rc =? 0, k).

(** [slam_poll_delete] and the macro [slam_close] on the epoll descriptor: what it
    closes. *)
Definition slam_poll_delete (epfd : Z) : list Z := if epfd >=? 0 then [epfd] else [].

(** ** Lemmas *)

(** An open descriptor: the bit is set or cleared, and every other bit kept. *)
Lemma nonblocking_bit s k flags :
  kn_flags k !! s = Some flags →
  ∃ k', slam_socket_nonblocking s k = (true, k') ∧ ∃ flags', kn_flags k' !! s = Some flags' ∧
    ∀ n, 0 <= n → Z.testbit flags' n = (n =? 11) || Z.testbit flags n.
Proof.
  intros H. unfold slam_socket_nonblocking, fcntl_getfl, fcntl_setfl. rewrite H. simpl.
  eexists. split; [done|]. eexists. simpl. rewrite lookup_insert_eq. split; [done|]. intros n Hn.
  rewrite Z.lor_spec, orb_comm. f_equal. change O_NONBLOCK with (2 ^ 11).
  rewrite Z.pow2_bits_eqb by done. apply Z.eqb_sym.
Qed.

Lemma blocking_bit s k flags :
  kn_flags k !! s = Some flags →
  ∃ k', slam_socket_blocking s k = (true, k') ∧ ∃ flags', kn_flags k' !! s = Some flags' ∧
    ∀ n, 0 <= n → Z.testbit flags' n = negb (n =? 11) && Z.testbit flags n.
Proof.
  intros H. unfold slam_socket_blocking, fcntl_getfl, fcntl_setfl. rewrite H. simpl.
  eexists. split; [done|]. eexists. simpl. rewrite lookup_insert_eq. split; [done|]. intros n Hn.
  rewrite Z.land_spec, Z.lnot_spec, andb_comm by done. f_equal. change O_NONBLOCK with (2 ^ 11).
  rewrite Z.pow2_bits_eqb by done. f_equal. apply Z.eqb_sym.
Qed.

(** A descriptor that is not open: nothing changes, and every wrapper says so. *)
Lemma closed_descriptor s k b :
  kn_flags k !! s = None →
  slam_socket_nonblocking s k = (false, k) ∧ slam_socket_blocking s k = (false, k) ∧
  slam_socket_reuseable_address s k = (false, k) ∧ slam_socket_reuseable_port s k = (false, k) ∧
  slam_socket_nodelay s b k = (false, k).
Proof.
  intros H. unfold slam_socket_nonblocking, slam_socket_blocking, slam_socket_reuseable_address,
    slam_socket_reuseable_port, slam_socket_nodelay, setsockopt, fcntl_setfl. by rewrite H.
Qed.
