(* ===== verification/Framing.v ===== *)
(** * The byte stream of a connection

    What [poll_read] makes of the bytes a peer sends, however the kernel cuts
    them into pieces, what [poll_write] makes of the messages queued on a
    socket, and that the packages written by one side are the packages read by
    the other. *)

From S2P Require Import Prelude MessageQueue Message Socket.

(** ** A connection read in rounds: one [poll_read] for every edge the poll
    reports, until the script is used up or the connection is given up. *)
Fixpoint poll_rounds (max_package_size : Z) (fuel : nat) (s : slam_socket)
    (readmq : slam_message_queue loc) (h : msg_heap) (k : list recv_event)
    : outcome (bool * slam_socket * slam_message_queue loc * msg_heap * list recv_event) :=
  match fuel with
  | O => NoFuel
  | S fuel =>
      '(b, s, readmq, h, k) ←
        slam_socket_poll_read max_package_size (read_fuel k) s readmq h k;
      match b, k with
      | true, _ :: _ => poll_rounds max_package_size fuel s readmq h k
      | _, _ => Ok (b, s, readmq, h, k)
      end
  end.

(** The bytes of the message [x] that are still to be sent. *)
Definition unsent (h : msg_heap) (x : loc) (d : list byte) : Prop :=
  ∃ msg f, mh_msgs h !! x = Some msg ∧ msg_buf msg = Some <$> f ∧ msg_bufsize msg = len f ∧
    0 <= msg_bytesize msg < len f ∧ d = drop (Z.to_nat (msg_bytesize msg)) f.

(** The events at which a sender gives up. *)
Definition send_stops (e : send_event) : Prop :=
  match e with Room _ => False | Closed => True | SFail e => slam_interrupted e = false ∧ slam_wouldblock e = false end.

(** ** Packages delimit themselves *)
Lemma frame_len max f : frame_ok max f → 18 <= len f.
Proof. intros [[H _] _]. exact H. Qed.

Lemma frame_head max f g t1 t2 :
  frame_ok max f → frame_ok max g → f ++ t1 = g ++ t2 → f = g ∧ t1 = t2.
Proof.
  intros [[Hf _] Ef] [[Hg _] Eg] E. unfold PACKAGE_MIN_SIZE in *.
  assert (take 4 f = take 4 g) as E4.
  { apply (f_equal (take 4)) in E. by rewrite !take_app_le in E by len. }
  assert (length f = length g) by (rewrite E4 in Ef; unfold len in *; lia).
  by apply app_inj_1.
Qed.

Lemma frames_prefix max fs1 : ∀ fs t,
  Forall (frame_ok max) fs1 → Forall (frame_ok max) fs → concat fs = concat fs1 ++ t →
  ∃ fs2, fs = fs1 ++ fs2 ∧ t = concat fs2.
Proof.
  induction fs1 as [|f fs1 IH]; intros fs t H1 H E; [by exists fs|].
  apply Forall_cons in H1 as [Hf H1]. destruct fs as [|g fs]; simpl in E.
  { apply frame_len in Hf. destruct f; [by destruct Hf|done]. }
  apply Forall_cons in H as [Hg H]. rewrite <- app_assoc in E.
  apply (frame_head max) in E as [-> E]; [|done|done].
  destruct (IH fs t H1 H E) as (fs2 & -> & ->). by exists fs2.
Qed.

(** A run of bytes too short for a header is no package, and the header of a
    package that follows is in range. *)
Lemma header_in_range max d fs t :
  Forall (frame_ok max) fs → len d = 4 → concat fs = d ++ t →
  PACKAGE_MIN_SIZE <= le_combine d < max.
Proof.
  intros H Hd E. destruct fs as [|f fs]; simpl in E; [destruct d; [len|done]|].
  apply Forall_cons in H as [[Hf Ef] _]. unfold PACKAGE_MIN_SIZE in *.
  apply (f_equal (take 4)) in E. rewrite !take_app_le in E by len. rewrite (take_ge d) in E by len.
  by rewrite <- E, Ef.
Qed.

Lemma frames_ok max fd h locs fs : Forall2 (complete max fd h) locs fs → Forall (frame_ok max) fs.
Proof.
  induction 1 as [|x f locs fs (msg & _ & Hm & Hc) _ IH]; constructor; [|done].
  by apply (holds_frame _ _ _ _ Hm).
Qed.

Lemma partial_frame_prefix max s h p :
  partial max s h p → p = [] ∨ 4 <= len p.
Proof.
  unfold partial. destruct (sk_readmessage s); [|by left].
  intros (msg & _ & [_ _ _ [H _] _ _]). right. lia.
Qed.

(** What is left under way when the stream of packages ends. *)
Lemma partial_rest max s h p fs :
  partial max s h p → ¬ frame_ok max p → p = concat fs → Forall (frame_ok max) fs → fs = [].
Proof.
  intros Hp Hnf -> Hfs. destruct fs as [|f fs]; [done|]. exfalso.
  apply Forall_cons in Hfs as [Hf _]. pose proof (frame_len _ _ Hf). simpl in *.
  unfold partial in Hp. destruct (sk_readmessage s); last first.
  { apply (f_equal len) in Hp. len. }
  destruct Hp as (msg & _ & [_ _ _ [Hh Hh'] _ _]).
  rewrite take_app_le in Hh' by len. destruct Hf as [Hf Ef]. rewrite Ef in Hh'.
  apply Hnf. assert (concat fs = []) as -> by (destruct (concat fs); [done|len]).
  by rewrite app_nil_r.
Qed.

Lemma read_fuel_enough max p k : read_measure max p k < Z.of_nat (read_fuel k).
Proof.
  unfold read_measure, read_fuel.
  assert (len (stream k) <= Z.of_nat (script_size k)) as H.
  { unfold script_size. induction k as [|[b bs| |e] k IH]; csimpl in *; [len|len|len|].
    destruct (_ || _); len. }
  case_bool_decide; lia.
Qed.

(** The stream pauses inside the length header of the first of the packages [fs]:
    fewer than four of their bytes were at hand at some point of the script [k],
    and no more; [k'] is the script after the pause. *)
Definition pauses_in_header (k : list recv_event) (fs : list (list byte)) (k' : list recv_event) : Prop :=
  ∃ k1 d, later k k1 ∧ stream k1 = concat fs ∧ round k1 = (d, Block, k') ∧ 0 < len d < 4.

(** Reading a stream of well-formed packages into a queue with room for them:
    one call delivers some of them, in order, and keeps the rest; it gives up
    only when the stream pauses inside a length header. *)
Lemma poll_read_delivers max s mq q h k p fs :
  heap_wf h → partial max s h p → mq_rep mq q → Forall (frame_ok max) fs →
  p ++ stream k = concat fs → lost k = false → len q + len fs < mq_maxsize mq →
  returns (slam_socket_poll_read max (read_fuel k) s mq h k) (λ '(b, s', mq', h', k'),
    ∃ locs fs1 fs2 p', fs = fs1 ++ fs2 ∧ mq_rep mq' (q ++ locs) ∧
      mq_maxsize mq' = mq_maxsize mq ∧
      Forall2 (complete max (sk_fd s) h') locs fs1 ∧ partial max s' h' p' ∧
      read_effect s h locs s' h' ∧
      if b then p' ++ stream k' = concat fs2 ∧ lost k' = false ∧ ¬ frame_ok max p' ∧
                (k' = [] ∨ (length k' < length k)%nat) ∧ later k k'
      else p' = [] ∧ pauses_in_header k fs2 k').
Proof.
  intros Hwf Hp Hq Hfs Hs Hlo Hroom.
  eapply returns_mono; [apply slam_socket_poll_read_spec; try done; apply read_fuel_enough|].
  intros [[[[b s'] mq'] h'] k'] (locs & fs1 & k1 & p' & [M R Q F P E St L N] & Hl & Hb).
  pose proof (frames_ok _ _ _ _ _ F) as Hfs1. rewrite Hs in St.
  destruct (frames_prefix max fs1 fs (p' ++ stream k1) Hfs1 Hfs St) as (fs2 & -> & E2).
  apply Forall_app in Hfs as [_ Hfs2].
  pose proof (Forall2_length _ _ _ F) as Hlen. exists locs, fs1, fs2, p'. split_and!; try done.
  destruct b.
  - destruct Hb as (Hr & Hnf). pose proof (round_stream _ _ _ _ Hr) as Hst. simpl in Hst. rewrite <- Hst.
    split_and!; [done|by rewrite <- (round_lost _ _ _ _ Hr), <- L|done| |by eapply later_trans].
    pose proof (later_length _ _ N). destruct (round_length _ _ _ _ Hr) as [_ [->|]]; [done| |right; lia].
    left. by injection Hr as <-.
  - destruct Hb as [Hr Hf Hk|d -> Hd Hk Hbad|d -> Hd Hk|d Hk]; [| | |apply round_lost in Hk; congruence].
    + destruct fs2 as [|f fs2]; simpl in E2.
      { destruct Hf as [[Hf _] _]. unfold PACKAGE_MIN_SIZE in Hf. by destruct p'; [destruct Hf|]. }
      exfalso. revert Hr Hroom. rewrite M. len.
    + exfalso. apply Hbad. eapply (header_in_range max d fs2); [done|done|].
      simpl in E2. by rewrite <- E2, Hk.
    + split; [done|]. by exists k1, d.
Qed.

(** ** Rounds *)
Lemma poll_rounds_deliver max fuel : ∀ s mq q h k p fs,
  heap_wf h → partial max s h p → mq_rep mq q → Forall (frame_ok max) fs →
  p ++ stream k = concat fs → lost k = false → len q + len fs < mq_maxsize mq →
  (length k < fuel)%nat →
  returns (poll_rounds max fuel s mq h k) (λ '(b, s', mq', h', k'),
    ∃ locs fs1 fs2 p', fs = fs1 ++ fs2 ∧ mq_rep mq' (q ++ locs) ∧
      Forall2 (complete max (sk_fd s) h') locs fs1 ∧ partial max s' h' p' ∧
      read_effect s h locs s' h' ∧
      if b then k' = [] ∧ p' = [] ∧ fs2 = [] else p' = [] ∧ pauses_in_header k fs2 k').
Proof.
  induction fuel as [|fuel IH]; intros s mq q h k p fs Hwf Hp Hq Hfs Hs Hlo Hroom Hf; [lia|].
  simpl. eapply returns_bind; [by eapply poll_read_delivers|].
  intros [[[[b s1] mq1] h1] k1] (locs1 & fs1 & fs2 & p1 & -> & Hq1 & M & F1 & Hp1 & E1 & Hb).
  destruct b; [|apply returns_ok; by exists locs1, fs1, fs2, p1].
  destruct Hb as (Hs1 & Hlo1 & Hnf & Hk & Hlater). apply Forall_app in Hfs as [_ Hfs2].
  destruct k1 as [|e k1].
  { apply returns_ok. simpl in Hs1. rewrite app_nil_r in Hs1.
    assert (fs2 = []) as -> by by eapply partial_rest. simpl in Hs1.
    exists locs1, fs1, [], p1. by split_and!. }
  destruct Hk as [|Hk]; [done|].
  pose proof (Forall2_length _ _ _ F1) as Hl1.
  assert (sk_fd s1 = sk_fd s) as Hfd by apply E1.
  eapply returns_mono; [apply (IH s1 mq1 (q ++ locs1) h1 (e :: k1) p1 fs2); try done|].
  - apply E1.
  - rewrite M. len.
  - lia.
  - intros [[[[b s2] mq2] h2] k2] (locs2 & fs3 & fs4 & p2 & -> & Hq2 & F2 & Hp2 & E2 & Hb2).
    exists (locs1 ++ locs2), (fs1 ++ fs3), fs4, p2. rewrite !app_assoc, Hfd in *.
    split_and!; try done.
    + apply Forall2_app; [|done]. eapply Forall2_impl_left; [exact F1|].
      intros x f Hx (msg & Hmsg & Hrest). exists msg. split; [|done]. rewrite <- Hmsg.
      destruct (read_effect_live _ _ _ _ _ x (λ y, partial_live _ _ _ _ y Hp) E1 Hx) as [? ?].
      destruct E2 as (_ & _ & _ & _ & f2 & _ & _ & _ & _ & Hk2). by apply Hk2.
    + eapply read_effect_trans; [|exact E1|exact E2]. intros x. by apply (partial_live max _ _ p).
    + destruct b; [done|]. destruct Hb2 as (? & k3 & d & ? & Hrest). split; [done|].
      exists k3, d. split; [by eapply later_trans|done].
Qed.

(** ** Writing *)
Lemma unsent_frame h h' x d :
  mh_msgs h' !! x = mh_msgs h !! x → unsent h x d → unsent h' x d.
Proof. intros E (msg & f & Hx & H). exists msg, f. by rewrite E. Qed.

Lemma unsent_pending_frame h h' q ds :
  (∀ x, x ∈ q → mh_msgs h' !! x = mh_msgs h !! x) → Forall2 (unsent h) q ds → Forall2 (unsent h') q ds.
Proof.
  intros H F. eapply Forall2_impl_left; [exact F|]. intros x d Hx. apply unsent_frame. by apply H.
Qed.

(** What writing has done: the messages [gone] are sent and freed, the ones
    left are still whole, and the bytes given to the kernel are those missing
    from the queue. *)
Definition write_post (s : slam_socket) (q : list loc) (h : msg_heap) (ds : list (list byte))
    (k : list send_event) (r : bool * list byte * slam_socket * msg_heap * list send_event) : Prop :=
  let '(b, sent, s', h', k') := r in
  ∃ gone q' ds', q = gone ++ q' ∧ mq_rep (sk_sendmq s') q' ∧
    mq_maxsize (sk_sendmq s') = mq_maxsize (sk_sendmq s) ∧
    mq_rindex (sk_sendmq s') = mq_rindex (sk_sendmq s) + len gone ∧
    sk_fd s' = sk_fd s ∧ sk_type s' = sk_type s ∧ sk_readmessage s' = sk_readmessage s ∧
    Forall2 (unsent h') q' ds' ∧ concat ds = sent ++ concat ds' ∧ heap_wf h' ∧
    dom (mh_msgs h') = dom (mh_msgs h) ∖ list_to_set gone ∧
    (∀ y, y ∉ q → mh_msgs h' !! y = mh_msgs h !! y) ∧
    k' `suffix_of` k ∧ (∀ n k1, k = Room n :: k1 → q ≠ [] → sent ≠ []) ∧
    (if b then q' = [] ∨ k' = [] ∨ (∃ e, SFail e ∈ k ∧ slam_wouldblock e = true)
     else ∃ e, e ∈ k ∧ send_stops e).

(** One send of [n] bytes of the first message, which has more to go. *)
Lemma unsent_advance h x d sent :
  unsent h x d → len sent < len d → sent = take (length sent) d →
  ∃ msg, mh_msgs h !! x = Some msg ∧
    unsent (with_msgs (<[x := set_bytesize (msg_bytesize msg + len sent) msg]> (mh_msgs h)) h) x
      (drop (length sent) d).
Proof.
  intros (msg & f & Hx & Hb & Hl & Hn & ->) Hs _. exists msg. split; [done|].
  eexists (set_bytesize (msg_bytesize msg + len sent) msg), f. simpl. rewrite lookup_insert_eq.
  split_and!; [done|done|done|len|len|]. rewrite drop_drop. f_equal. len.
Qed.

Lemma take_length_take {A} n (d : list A) : take (length (take n d)) d = take n d.
Proof.
  rewrite length_take. destruct (Nat.le_ge_cases n (length d)).
  - by rewrite Nat.min_l.
  - by rewrite Nat.min_r, !take_ge.
Qed.

Lemma load_suffix (f : list byte) n :
  0 <= n <= len f → load n (len f - n) (Some <$> f) = Ok (drop (Z.to_nat n) f).
Proof.
  intros H. apply load_ok; [lia|lia|len|]. rewrite <- fmap_drop. apply take_ge. len.
Qed.

Lemma write_post_wait s q h ds k k' e (b : bool) :
  mq_rep (sk_sendmq s) q → heap_wf h → Forall2 (unsent h) q ds → k' `suffix_of` k →
  (∀ n k1, k = Room n :: k1 → q = []) →
  (if b then q = [] ∨ k' = [] ∨ (SFail e ∈ k ∧ slam_wouldblock e = true)
   else ∃ e, e ∈ k ∧ send_stops e) →
  write_post s q h ds k (b, [], s, h, k').
Proof.
  intros Hq Hwf Hu Hk Hn Hb. exists [], q, ds. split_and!; try done; [len|set_solver| |].
  - intros n k1 E. by rewrite (Hn n k1 E).
  - destruct b; naive_solver.
Qed.

(** A turn that sends something, before the rest of the loop. *)
Lemma write_post_more s q q1 gone h ds ds1 s1 h1 ev k sent r :
  q = gone ++ q1 → mq_maxsize (sk_sendmq s1) = mq_maxsize (sk_sendmq s) →
  mq_rindex (sk_sendmq s1) = mq_rindex (sk_sendmq s) + len gone →
  sk_fd s1 = sk_fd s → sk_type s1 = sk_type s → sk_readmessage s1 = sk_readmessage s →
  concat ds = sent ++ concat ds1 →
  dom (mh_msgs h1) = dom (mh_msgs h) ∖ list_to_set gone →
  (∀ y, y ∉ q → mh_msgs h1 !! y = mh_msgs h !! y) →
  (∀ n, ev = Room n → sent ≠ []) →
  write_post s1 q1 h1 ds1 k r →
  write_post s q h ds (ev :: k) (let '(b, more, s, h, k) := r in (b, sent ++ more, s, h, k)).
Proof.
  intros -> M R E1 E2 E3 Hc Hd Hk Hev. destruct r as [[[[b more] s2] h2] k2].
  intros (gone2 & q2 & ds2 & -> & Q2 & M2 & R2 & E1' & E2' & E3' & U2 & C2 & W2 & D2 & K2 & S2 & _ & B2).
  exists (gone ++ gone2), q2, ds2. split_and!; try done; try congruence.
  - by rewrite app_assoc.
  - rewrite R2, R. len.
  - by rewrite Hc, C2, app_assoc.
  - rewrite D2, Hd, list_to_set_app_L. set_solver.
  - intros y Hy. rewrite K2, Hk; [done|set_solver|set_solver].
  - by apply suffix_cons_r.
  - intros n k1 [= ->] _. specialize (Hev n eq_refl). by destruct sent.
  - destruct b; [destruct B2 as [->|[->|(e & He & ?)]]|destruct B2 as (e & He & ?)]; eauto.
    + right; right. exists e. split; [by right|done].
    + exists e. split; [by right|done].
Qed.

Definition send_room (s : slam_socket) (q : list loc) : Prop :=
  mq_rindex (sk_sendmq s) + len q < mq_maxsize (sk_sendmq s).

Lemma stuck_poll_write fuel s h k :
  mq_stuck (sk_sendmq s) → slam_socket_poll_write fuel s h k = AssertFail.
Proof.
  intros H%stuck_assertion. destruct fuel; simpl; unfold slam_message_queue_empty; by rewrite H.
Qed.

Section poll_write_loop.
Context (fuel : nat).
Hypothesis IH : ∀ s q h ds k,
  heap_wf h → mq_rep (sk_sendmq s) q → NoDup q → Forall2 (unsent h) q ds → (length k < fuel)%nat →
  aborts_unless (send_room s q) (slam_socket_poll_write fuel s h k) (write_post s q h ds k).

(** The turn that sends the last byte of a message. *)
Lemma poll_write_sent s x q h d ds k n msg msg' :
  heap_wf h → mq_rep (sk_sendmq s) (x :: q) → NoDup (x :: q) → Forall2 (unsent h) q ds →
  mh_msgs h !! x = Some msg → d ≠ [] → (length k < fuel)%nat →
  let h' := with_msgs (<[x := msg']> (mh_msgs h)) h in
  aborts_unless (send_room s (x :: q))
    ('(s, h) ←
       ('(_, mq) ← slam_message_queue_pop_front (sk_sendmq s);
        h ← slam_message_delete x h';
        Ok (set_sendmq mq s, h));
     '(b, more, s, h, k) ← slam_socket_poll_write fuel s h k;
     Ok (b, d ++ more, s, h, k))
    (write_post s (x :: q) h (d :: ds) (Room n :: k)).
Proof.
  intros Hwf Hq [Hxq Hnd]%NoDup_cons Hu Hmsg Hd Hf h'.
  destruct (pop_rep _ _ _ Hq) as (mq' & -> & M & R & Hq'). rewrite bind_ok. unfold send_room.
  unfold slam_message_delete. simpl. rewrite lookup_insert_eq, !bind_ok. pose proof (len_nonneg q).
  destruct (Z.lt_ge_cases (mq_rindex (sk_sendmq s) + 1) (mq_maxsize (sk_sendmq s))) as [Hlt|Hge];
    last first.
  { rewrite stuck_poll_write; [unfold aborts_unless; simpl; len|]. simpl. pose proof (rep_rindex _ _ Hq). unfold mq_stuck. simpl. lia. }
  eapply aborts_bind; [apply (IH (set_sendmq mq' s) q _ ds k)|..]; simpl.
  - exact (delete_heap_wf x _ (write_heap_wf x msg _ h Hwf Hmsg)).
  - by apply Hq'.
  - done.
  - eapply unsent_pending_frame; [|exact Hu]. intros y Hy. simpl.
    by rewrite lookup_delete_ne, lookup_insert_ne by congruence.
  - done.
  - unfold send_room. simpl. rewrite M, R. len.
  - intros [[[[b more] s2] h2] k2] Hr. apply aborts_ok.
    eapply (write_post_more s _ _ [x] h _ _ _ _ _ _ d (b, more, s2, h2, k2));
      [done| | | | | | | | | |exact Hr]; try done; simpl.
    + rewrite dom_delete_L, dom_insert_L. set_solver.
    + intros y Hy. rewrite lookup_delete_ne, lookup_insert_ne; set_solver.
Qed.

(** The turn that sends some bytes of a message and not the last. *)
Lemma poll_write_some s x q h d ds k n msg sent :
  heap_wf h → mq_rep (sk_sendmq s) (x :: q) → NoDup (x :: q) → unsent h x d →
  Forall2 (unsent h) q ds → mh_msgs h !! x = Some msg → len sent < len d → sent ≠ [] →
  sent = take (length sent) d → (length k < fuel)%nat →
  aborts_unless (send_room s (x :: q))
    ('(b, more, s, h, k) ← slam_socket_poll_write fuel s
        (with_msgs (<[x := set_bytesize (msg_bytesize msg + len sent) msg]> (mh_msgs h)) h) k;
     Ok (b, sent ++ more, s, h, k))
    (write_post s (x :: q) h (d :: ds) (Room n :: k)).
Proof.
  intros Hwf Hq Hnd Hx Hu Hmsg Hlt Hne Htake Hf. pose proof Hnd as [Hxq Hnd']%NoDup_cons.
  destruct (unsent_advance h x d sent Hx) as (msg' & Hmsg' & Hx'); [done|done|].
  rewrite Hmsg in Hmsg'. injection Hmsg' as <-.
  eapply aborts_bind; [apply (IH s (x :: q) _ (drop (length sent) d :: ds) k)|done|].
  - by eapply write_heap_wf.
  - done.
  - done.
  - constructor; [done|]. eapply unsent_pending_frame; [|exact Hu]. intros y Hy. simpl.
    by rewrite lookup_insert_ne by congruence.
  - done.
  - intros [[[[b more] s2] h2] k2] Hr. apply aborts_ok.
    eapply (write_post_more s _ _ [] h _ _ _ _ _ _ sent (b, more, s2, h2, k2));
      [done| | | | | | | | | |exact Hr]; try done; simpl.
    + len.
    + rewrite app_assoc. f_equal. rewrite Htake at 1. by rewrite take_drop.
    + rewrite dom_insert_L. assert (x ∈ dom (mh_msgs h)) by (by apply elem_of_dom). set_solver.
    + intros y Hy. rewrite lookup_insert_ne; set_solver.
Qed.
End poll_write_loop.

Lemma poll_write_spec fuel : ∀ s q h ds k,
  heap_wf h → mq_rep (sk_sendmq s) q → NoDup q → Forall2 (unsent h) q ds → (length k < fuel)%nat →
  aborts_unless (send_room s q) (slam_socket_poll_write fuel s h k) (write_post s q h ds k).
Proof.
  induction fuel as [|fuel IH]; intros s q h ds k Hwf Hq Hnd Hu Hf; [lia|].
  simpl. rewrite (empty_rep _ _ Hq), bind_ok. destruct q as [|x q].
  { rewrite bool_decide_eq_true_2 by done. apply aborts_ok.
    apply (write_post_wait _ _ _ _ _ _ 0); try done; try (by intros); auto. }
  rewrite bool_decide_eq_false_2 by done. rewrite (front_rep _ _ Hq), bind_ok. simpl.
  apply Forall2_cons_inv_l in Hu as (d & ds' & Hx & Hu & ->).
  pose proof Hx as (msg & f & Hmsg & Hb & Hl & Hn & Hd). rewrite Hmsg.
  rewrite (proj2 (Z.ltb_lt _ _)) by lia. rewrite Hb, Hl, load_suffix, bind_ok, <- Hd by lia.
  destruct k as [|[n| |e] k]; simpl in Hf |- *.
  - apply aborts_ok. apply (write_post_wait _ _ _ _ _ _ 0); try done; try (by intros); auto.
  - set (sent := take (Pos.to_nat n) d).
    assert (len d = len f - msg_bytesize msg) as Hld by (rewrite Hd; len).
    assert (0 < len sent <= len d) as Hs by (subst sent; len).
    assert (sent ≠ []) as Hne by (intros E; rewrite E in Hs; by destruct Hs).
    rewrite (proj2 (Z.eqb_neq _ _)) by lia.
    rewrite (write_message_ok _ _ _ _ Hmsg), bind_ok. rewrite (proj2 (Z.leb_le _ _)) by lia.
    zcase_on (msg_bytesize msg + len sent =? len f).
    + assert (sent = d) as E by (subst sent; apply take_ge; len). rewrite E in *.
      apply (poll_write_sent _ IH s x q h d ds' k n msg); try done; lia.
    + rewrite bind_ok. apply (poll_write_some _ IH s x q h d ds' k n msg); try done; [lia| |lia].
      subst sent. symmetry. apply take_length_take.
  - apply aborts_ok. apply (write_post_wait _ _ _ _ _ _ 0); auto using suffix_cons_r; [done|]. exists Closed. split; [by left|done].
  - destruct (slam_interrupted e) eqn:Hi.
    { eapply aborts_mono; [apply (IH s (x :: q) h (d :: ds')); try done; [by constructor|lia]|done|].
      intros [[[[b more] s2] h2] k2] Hr.
      eapply (write_post_more s _ _ [] _ _ _ _ _ _ _ [] (b, more, s2, h2, k2));
        [done| | | | | | | | | |exact Hr]; done || len || set_solver. }
    destruct (slam_wouldblock e) eqn:Hw; apply aborts_ok; apply (write_post_wait _ _ _ _ _ _ e); auto using suffix_cons_r; try done.
    + right; right. split; [by left|done].
    + exists (SFail e). split; [by left|done].
Qed.

(** What has been written when nothing is left to send. *)
Lemma poll_write_all s q h fs ks :
  heap_wf h → mq_rep (sk_sendmq s) q → NoDup q → Forall2 (unsent h) q fs →
  mq_rindex (sk_sendmq s) + len q < mq_maxsize (sk_sendmq s) →
  returns (slam_socket_poll_write (S (length ks)) s h ks) (λ '(_, sent, s', _, _),
    slam_message_queue_empty (sk_sendmq s') = Ok true → sent = concat fs).
Proof.
  intros Hwf Hq Hnd Hu Hr.
  eapply returns_mono; [by eapply aborts_returns, (poll_write_spec _ s q h fs ks); try lia|].
  intros [[[[b sent] s'] h'] k'] (gone & q' & ds' & -> & Hq' & _ & _ & _ & _ & _ & Hu' & Hc & _) He.
  rewrite (empty_rep _ _ Hq') in He. injection He as He%bool_decide_eq_true. subst q'.
  apply Forall2_nil_inv_l in Hu' as ->. simpl in Hc. by rewrite app_nil_r in Hc.
Qed.

(** What a peer with nothing under way makes of a stream of packages. *)
Lemma poll_rounds_fresh max r mq h k fs :
  heap_wf h → sk_readmessage r = None → mq_rep mq [] → Forall (frame_ok max) fs →
  stream k = concat fs → lost k = false → len fs < mq_maxsize mq →
  returns (poll_rounds max (S (length k)) r mq h k) (λ '(b, _, mq', h', k'),
    ∃ locs fs1 fs2, fs = fs1 ++ fs2 ∧ mq_rep mq' locs ∧ Forall2 (complete max (sk_fd r) h') locs fs1 ∧
      if b then fs2 = [] ∧ k' = [] else pauses_in_header k fs2 k').
Proof.
  intros Hwf Hrm Hmq Hfs Hst Hlo Hroom.
  eapply returns_mono; [apply (poll_rounds_deliver max _ r mq [] h k [] fs); try done|].
  - unfold partial. by rewrite Hrm.
  - lia.
  - intros [[[[b r'] mq'] h'] k'] (locs & fs1 & fs2 & p' & -> & Hl & F & _ & _ & Hb).
    exists locs, fs1, fs2. split_and!; try done. destruct b; [|by destruct Hb]. tauto.
Qed.

(** ** The properties *)

(** Claim C5.  Reading a connection.  Whatever pieces the kernel cuts the stream
    into, one [poll_read] pushes the complete packages, in order, onto the read
    queue and keeps the incomplete one: the bytes held before and the bytes of
    the script are the packages pushed, the bytes held after, and the bytes not
    yet read.  Every package has a length in range that is the one its header
    announces.  [true] means that the last [recv] found nothing at hand, with an
    incomplete package held or none; [false] that the queue is full, that a length
    is out of range, that fewer bytes than a length header were at hand where one
    begins and no more came before a [recv] would have blocked, or that the
    connection was lost.  The fuel given is enough, no buffer is overrun, and no
    message is leaked or shared. *)
Theorem slam_socket_poll_read_frames max s mq q h k p :
  heap_wf h → partial max s h p → mq_rep mq q →
  returns (slam_socket_poll_read max (read_fuel k) s mq h k) (λ '(b, s', mq', h', k'),
    ∃ locs fs p' k1, mq_rep mq' (q ++ locs) ∧
      Forall2 (complete max (sk_fd s) h') locs fs ∧ Forall (frame_ok max) fs ∧
      partial max s' h' p' ∧ read_effect s h locs s' h' ∧
      later k k1 ∧ later k1 k' ∧ lost k1 = lost k ∧ p ++ stream k = concat fs ++ p' ++ stream k1 ∧
      if b then round k1 = ([], Block, k') ∧ ¬ frame_ok max p'
      else gave_up max (mq_maxsize mq' - 1 - len (q ++ locs)) p' k1 k').
Proof.
  intros Hwf Hp Hq.
  eapply returns_mono; [apply slam_socket_poll_read_spec; try done; apply read_fuel_enough|].
  intros [[[[b s'] mq'] h'] k'] (locs & fs & k1 & p' & [M R Q F P E St L N] & Hl & Hb).
  exists locs, fs, p', k1. split_and!; try done. by eapply frames_ok.
Qed.

(** Claim C6.  Writing a connection.  One [poll_write] gives the kernel the bytes
    queued, in order and each once, however few it takes at a time: what was
    queued is what it sent and what is left, a message is freed when its last
    byte is taken and not before, and the others are untouched.  [true] means
    that the queue is empty or the kernel takes no more; [false] that the kernel
    reported an error.  (The send queue must have slots enough before its read
    index runs off its end.) *)
Theorem slam_socket_poll_write_sends s q h ds k :
  heap_wf h → mq_rep (sk_sendmq s) q → NoDup q → Forall2 (unsent h) q ds →
  mq_rindex (sk_sendmq s) + len q < mq_maxsize (sk_sendmq s) →
  returns (slam_socket_poll_write (S (length k)) s h k) (λ '(b, sent, s', h', k'),
    ∃ gone q' ds', q = gone ++ q' ∧ mq_rep (sk_sendmq s') q' ∧
      Forall2 (unsent h') q' ds' ∧ concat ds = sent ++ concat ds' ∧ heap_wf h' ∧
      dom (mh_msgs h') = dom (mh_msgs h) ∖ list_to_set gone ∧
      (∀ y, y ∉ q → mh_msgs h' !! y = mh_msgs h !! y) ∧
      (if b then q' = [] ∨ k' = [] ∨ (∃ e, SFail e ∈ k ∧ slam_wouldblock e = true)
       else ∃ e, e ∈ k ∧ send_stops e)).
Proof.
  intros Hwf Hq Hnd Hu Hr. eapply returns_mono; [by eapply aborts_returns, (poll_write_spec _ s q h ds k); try lia|].
  intros [[[[b sent] s'] h'] k'] (gone & q' & ds' & -> & ? & ? & ? & ? & ? & ? & ? & ? & ? & ? & ? & _ & _ & ?).
  exists gone, q', ds'. by split_and!.
Qed.

(** Claim C4.  From one end to the other.  The packages queued on a socket and
    written out, then carried to the peer by a stream that cuts them anywhere
    and is not lost, are the packages the peer pushes onto its read queue, all
    of them and in order; the peer gives the connection up only if the stream
    pauses inside a length header (fewer than four bytes of it are at hand when a
    [recv] would block), with the packages before it delivered.  The queues have
    room: the send queue's read index does not reach its end, and the peer's queue
    takes all the packages. *)
Theorem packages_written_are_packages_read max s q h fs ks :
  heap_wf h → mq_rep (sk_sendmq s) q → NoDup q → Forall2 (unsent h) q fs →
  Forall (frame_ok max) fs →
  mq_rindex (sk_sendmq s) + len q < mq_maxsize (sk_sendmq s) →
  returns (slam_socket_poll_write (S (length ks)) s h ks) (λ '(_, sent, s', _, _),
    slam_message_queue_empty (sk_sendmq s') = Ok true →
    ∀ r mq hr kr, heap_wf hr → sk_readmessage r = None → mq_rep mq [] →
      stream kr = sent → lost kr = false → len fs < mq_maxsize mq →
      returns (poll_rounds max (S (length kr)) r mq hr kr) (λ '(b, r', mq', hr', kr'),
        ∃ locs fs1 fs2, fs = fs1 ++ fs2 ∧ mq_rep mq' locs ∧
          Forall2 (complete max (sk_fd r) hr') locs fs1 ∧
          if b then fs2 = [] ∧ kr' = [] else pauses_in_header kr fs2 kr')).
Proof.
  intros Hwf Hq Hnd Hu Hfs Hr. eapply returns_mono; [by apply (poll_write_all s q h fs)|].
  intros [[[[b sent] s'] h'] k'] He Hempty r mq hr kr Hwfr Hrm Hmq Hst Hlo Hroom.
  apply poll_rounds_fresh; try done. by rewrite Hst, He.
Qed.

(** ** Witnesses: two packages of 20 and 18 bytes, written 7 bytes at a time and
    read in pieces cut inside a header and inside a payload *)
Module Demo.
Definition frame1 : list byte := le_split 4 20 ++ replicate 16 x61.
Definition frame2 : list byte := le_split 4 18 ++ replicate 14 x62.

Definition queue : slam_message_queue loc :=
  match slam_message_queue_new 4 with
  | Ok mq => mq
  | _ => {| mq_queue := []; mq_maxsize := 0; mq_rindex := 0; mq_windex := 0;
            mq_read_number := 0; mq_write_number := 0 |}
  end.

Definition pushed (mq : slam_message_queue loc) (x : loc) : slam_message_queue loc :=
  match slam_message_queue_push_back mq x with Ok (_, mq) => mq | _ => mq end.

Definition message (f : list byte) : slam_message :=
  {| msg_fd := 5; msg_type := MESSAGE_TYPE_PROTOBUF_PACKAGE; msg_bufsize := len f;
     msg_bytesize := 0; msg_buf := Some <$> f |}.

Definition heap : msg_heap :=
  {| mh_msgs := <[1%positive := message frame1]> (<[2%positive := message frame2]> ∅); mh_brk := 3 |}.
Definition empty_heap : msg_heap := {| mh_msgs := ∅; mh_brk := 1 |}.

Definition reader : slam_socket :=
  {| sk_fd := 6; sk_type := SOCKET_CONNECTION; sk_readmessage := None; sk_sendmq := queue |}.
Definition writer : slam_socket :=
  {| sk_fd := 5; sk_type := SOCKET_CONNECTION; sk_readmessage := None;
     sk_sendmq := pushed (pushed queue 1) 2 |}.

Definition send_script : list send_event :=
  [Room 7; SFail EINTR; Room 7; Room 7; Room 7; Room 7; Room 7].

Definition piece (l : list byte) : list recv_event :=
  match l with [] => [] | b :: bs => [Arrive b bs] end.

Definition recv_script : list recv_event :=
  let all := frame1 ++ frame2 in
  piece (take 3 all) ++ [RFail EINTR] ++ piece (take 10 (drop 3 all)) ++ [RFail EAGAIN]
  ++ piece (drop 13 all).

Lemma queue_rep : mq_rep queue [].
Proof. by destruct (new_rep (A := loc) 4 ltac:(lia)) as (mq & [= <-] & H & _). Qed.

Lemma pushed_rep mq q x : mq_rep mq q → len q < mq_maxsize mq - 1 → mq_rep (pushed mq x) (q ++ [x]).
Proof.
  intros H Hl. destruct (push_rep _ _ x H) as ([b mq'] & E & -> & H' & _).
  unfold pushed. rewrite E. by rewrite (proj2 (Z.ltb_lt _ _) Hl) in H'.
Qed.

Lemma writer_rep : mq_rep (sk_sendmq writer) [1; 2]%positive.
Proof.
  apply (pushed_rep (pushed queue 1) [1%positive] 2); [|done].
  by apply (pushed_rep queue [] 1); [apply queue_rep|].
Qed.

Lemma heap_ok : heap_wf heap.
Proof.
  intros x. simpl. intros [<-|[<-|Hx]%lookup_insert_is_Some']%lookup_insert_is_Some'; [lia|lia|].
  rewrite lookup_empty in Hx. by destruct Hx.
Qed.

Lemma empty_heap_ok : heap_wf empty_heap.
Proof. intros x. simpl. rewrite lookup_empty. by intros []. Qed.

Lemma frames_are_ok : Forall (frame_ok 64) [frame1; frame2].
Proof. by repeat constructor. Qed.

Lemma unsent_frames : Forall2 (unsent heap) [1; 2]%positive [frame1; frame2].
Proof.
  constructor; [|constructor; [|constructor]]; [exists (message frame1), frame1|exists (message frame2), frame2];
    by split_and!.
Qed.
End Demo.

Lemma slam_socket_poll_read_frames_witness :
  returns (slam_socket_poll_read 64 (read_fuel Demo.recv_script) Demo.reader Demo.queue
             Demo.empty_heap Demo.recv_script)
    (λ '(b, s', mq', h', k'), ∃ locs fs p' k1, mq_rep mq' ([] ++ locs) ∧
      Forall2 (complete 64 6 h') locs fs ∧ Forall (frame_ok 64) fs ∧
      partial 64 s' h' p' ∧ read_effect Demo.reader Demo.empty_heap locs s' h' ∧
      later Demo.recv_script k1 ∧ later k1 k' ∧ lost k1 = lost Demo.recv_script ∧
      [] ++ stream Demo.recv_script = concat fs ++ p' ++ stream k1 ∧
      if b then round k1 = ([], Block, k') ∧ ¬ frame_ok 64 p'
      else gave_up 64 (mq_maxsize mq' - 1 - len ([] ++ locs)) p' k1 k').
Proof.
  apply (slam_socket_poll_read_frames 64 Demo.reader Demo.queue [] Demo.empty_heap Demo.recv_script []);
    [apply Demo.empty_heap_ok|reflexivity|apply Demo.queue_rep].
Defined.

Lemma slam_socket_poll_write_sends_witness :
  returns (slam_socket_poll_write 8 Demo.writer Demo.heap Demo.send_script)
    (λ '(b, sent, s', h', k'),
      ∃ gone q' ds', [1; 2]%positive = gone ++ q' ∧ mq_rep (sk_sendmq s') q' ∧
      Forall2 (unsent h') q' ds' ∧ concat [Demo.frame1; Demo.frame2] = sent ++ concat ds' ∧
      heap_wf h' ∧ dom (mh_msgs h') = dom (mh_msgs Demo.heap) ∖ list_to_set gone ∧
      (∀ y, y ∉ [1; 2]%positive → mh_msgs h' !! y = mh_msgs Demo.heap !! y) ∧
      (if b then q' = [] ∨ k' = [] ∨ (∃ e, SFail e ∈ Demo.send_script ∧ slam_wouldblock e = true)
       else ∃ e, e ∈ Demo.send_script ∧ send_stops e)).
Proof.
  apply (slam_socket_poll_write_sends Demo.writer [1; 2]%positive Demo.heap
           [Demo.frame1; Demo.frame2] Demo.send_script);
    [apply Demo.heap_ok|apply Demo.writer_rep|by repeat constructor; set_solver
    |apply Demo.unsent_frames|vm_compute; reflexivity].
Defined.

Lemma packages_written_are_packages_read_witness :
  returns (slam_socket_poll_write 8 Demo.writer Demo.heap Demo.send_script) (λ '(_, sent, s', _, _),
    slam_message_queue_empty (sk_sendmq s') = Ok true →
    ∀ r mq hr kr, heap_wf hr → sk_readmessage r = None → mq_rep mq [] →
      stream kr = sent → lost kr = false → 2 < mq_maxsize mq →
      returns (poll_rounds 64 (S (length kr)) r mq hr kr) (λ '(b, r', mq', hr', kr'),
        ∃ locs fs1 fs2, [Demo.frame1; Demo.frame2] = fs1 ++ fs2 ∧ mq_rep mq' locs ∧
          Forall2 (complete 64 (sk_fd r) hr') locs fs1 ∧
          if b then fs2 = [] ∧ kr' = [] else pauses_in_header kr fs2 kr')).
Proof.
  apply (packages_written_are_packages_read 64 Demo.writer [1; 2]%positive Demo.heap
           [Demo.frame1; Demo.frame2] Demo.send_script);
    [apply Demo.heap_ok|apply Demo.writer_rep|by repeat constructor; set_solver
    |apply Demo.unsent_frames|apply Demo.frames_are_ok|vm_compute; reflexivity].
Defined.

(** The run the hypotheses of the last theorem describe: all is sent, and both
    packages arrive. *)
Example demo_written :
  match slam_socket_poll_write 8 Demo.writer Demo.heap Demo.send_script with
  | Ok (b, sent, s', h', k') =>
      (b, sent, slam_message_queue_empty (sk_sendmq s'), size (mh_msgs h'))
      = (true, stream Demo.recv_script, Ok true, 0%nat)
  | _ => False
  end.
Proof. vm_compute. reflexivity. Qed.

Example demo_read :
  match poll_rounds 64 10 Demo.reader Demo.queue Demo.empty_heap Demo.recv_script with
  | Ok (b, s', mq', h', k') =>
      (b, slam_message_queue_number mq', msg_buf <$> (mh_msgs h' !! 1%positive),
       msg_buf <$> (mh_msgs h' !! 2%positive))
      = (true, Ok 2, Some (Some <$> Demo.frame1), Some (Some <$> Demo.frame2))
  | _ => False
  end.
Proof. vm_compute. reflexivity. Qed.
