(* ===== verification/Poll.v ===== *)
(** * The poll ([slam_poll.c])

    An epoll instance is the map from the descriptors it watches to their event
    masks.  [epoll_ctl] behaves as documented: adding a descriptor that is
    watched, and changing or removing one that is not, fail; adding may also
    fail for the kernel's own reasons. *)

From S2P Require Import Prelude Socket.

Definition EPOLLIN : Z := 1.
Definition EPOLLOUT : Z := 4.
Definition EPOLLERR : Z := 8.
Definition EPOLLHUP : Z := 16.
Definition EPOLLRDHUP : Z := 8192.
Definition EPOLLET : Z := 2 ^ 31.

Abbreviation slam_poll := (gmap Z Z).

(** An element of the array [epoll_wait] fills. *)
Record slam_poll_event := {
  ev_events : Z;
  ev_fd : Z;
}.

Definition slam_poll_new : slam_poll := ∅.

(** [kernel_ok]: the kernel accepts a new descriptor. *)
Definition slam_poll_add_socket (poll : slam_poll) (fd : Z) (kernel_ok : bool) : bool * slam_poll :=
  let events := Z.lor (Z.lor EPOLLET EPOLLIN) EPOLLERR in
  match poll !! fd with
  | Some _ => (false, poll)                        (* EEXIST *)
  | None => if kernel_ok then (true, <[fd := events]> poll) else (false, poll)
  end.

Definition slam_poll_remove_socket (poll : slam_poll) (fd : Z) : bool * slam_poll :=
  match poll !! fd with
  | Some _ => (true, delete fd poll)
  | None => (false, poll)                          (* ENOENT *)
  end.

Definition slam_poll_set_socket_pollout (poll : slam_poll) (fd : Z) (pollout : bool)
    : bool * slam_poll :=
  let events := Z.lor (Z.lor EPOLLET EPOLLIN) EPOLLERR in
  let events := if pollout then Z.lor events EPOLLOUT else events in
  match poll !! fd with
  | Some _ => (true, <[fd := events]> poll)
  | None => (false, poll)                          (* ENOENT *)
  end.

(** [n] is what [epoll_wait] returns; a signal counts as no event. *)
Definition slam_poll_wait (n errno : Z) : Z :=
  if n <? 0 then if errno =? EINTR then 0 else -1 else n.

(** The time-out is passed as an [int]. *)
Definition poll_timeout (timeout : Z) : Z := i32 timeout.

(** Whether a wake-up can come from the bits [mask] of a watched descriptor. *)
Definition watches (poll : slam_poll) (fd mask : Z) : bool :=
  match poll !! fd with Some events => negb (Z.land events mask =? 0) | None => false end.

(** ** A descriptor is watched for input from when it is added to when it is
    removed, and for output from the first request on. *)
Lemma add_socket_spec poll fd ok :
  let '(b, poll') := slam_poll_add_socket poll fd ok in
  (b = true ↔ ok = true ∧ poll !! fd = None) ∧
  (b = false → poll' = poll) ∧
  (b = true → watches poll' fd EPOLLIN = true ∧ watches poll' fd EPOLLOUT = false) ∧
  ∀ fd', fd' ≠ fd → poll' !! fd' = poll !! fd'.
Proof.
  unfold slam_poll_add_socket, watches. destruct (poll !! fd) eqn:E; [naive_solver|].
  destruct ok; [|naive_solver]. cbv zeta beta iota. rewrite lookup_insert_eq.
  split_and!; try done. intros fd' Hne. by apply lookup_insert_ne.
Qed.

Lemma remove_socket_spec poll fd : (slam_poll_remove_socket poll fd).2 = delete fd poll.
Proof. unfold slam_poll_remove_socket. destruct (poll !! fd) eqn:E; simpl; [done|]. by rewrite delete_id. Qed.

Lemma set_pollout_spec poll fd :
  let '(b, poll') := slam_poll_set_socket_pollout poll fd true in
  (b = true ↔ is_Some (poll !! fd)) ∧ (b = false → poll' = poll) ∧
  (b = true → watches poll' fd EPOLLIN = true ∧ watches poll' fd EPOLLOUT = true) ∧
  dom poll' = dom poll ∧ ∀ fd', fd' ≠ fd → poll' !! fd' = poll !! fd'.
Proof.
  unfold slam_poll_set_socket_pollout, watches. destruct (poll !! fd) eqn:E; cbv zeta beta iota.
  - rewrite lookup_insert_eq. split_and!; try done.
    + rewrite dom_insert_L. assert (fd ∈ dom poll) by (apply elem_of_dom; eauto). set_solver.
    + intros fd' Hne. by apply lookup_insert_ne.
  - split_and!; done.
Qed.
