(* ===== verification/IoThread.v ===== *)
(** * The I/O thread ([slam_io_thread.c])

    The thread owns the listening and connected sockets, indexed by their
    descriptors, turns what the poll reports into reads, writes, accepts and
    closes, and posts messages to the queue the worker reads.  Every message is
    a heap block; the state below holds the heap the thread shares with the
    worker, and the kernel's side of each descriptor. *)

From S2P Require Import Prelude MessageQueue Message Socket Framing Poll.

(** ** Data *)
Definition MAX_SOCKET_NUMBER : Z := 65536.

Definition VALID_SOCKET (fd : Z) : bool := (fd >=? 0) && (fd <? MAX_SOCKET_NUMBER).

Record slam_io_thread := {
  io_mq : slam_message_queue loc;
  io_poll : slam_poll;
  io_sockets : gmap Z slam_socket;     (* the non-null entries of the array *)
  io_heap : msg_heap;
  io_recv : Z → list recv_event;       (* what [recv] on a descriptor will find *)
  io_send : Z → list send_event;
  io_accept : Z → list accept_event;
  io_wire : Z → list byte;             (* what has been sent on a descriptor *)
  io_closed : list Z;                  (* descriptors closed, in order *)
}.

Definition update {A} (f : Z → A) (fd : Z) (a : A) : Z → A := λ x, if x =? fd then a else f x.

Definition with_mq_heap (mq : slam_message_queue loc) (h : msg_heap) (io : slam_io_thread) :=
  {| io_mq := mq; io_poll := io_poll io; io_sockets := io_sockets io; io_heap := h;
     io_recv := io_recv io; io_send := io_send io; io_accept := io_accept io;
     io_wire := io_wire io; io_closed := io_closed io |}.

Definition with_poll (poll : slam_poll) (io : slam_io_thread) :=
  {| io_mq := io_mq io; io_poll := poll; io_sockets := io_sockets io; io_heap := io_heap io;
     io_recv := io_recv io; io_send := io_send io; io_accept := io_accept io;
     io_wire := io_wire io; io_closed := io_closed io |}.

Definition with_sockets (ss : gmap Z slam_socket) (io : slam_io_thread) :=
  {| io_mq := io_mq io; io_poll := io_poll io; io_sockets := ss; io_heap := io_heap io;
     io_recv := io_recv io; io_send := io_send io; io_accept := io_accept io;
     io_wire := io_wire io; io_closed := io_closed io |}.

Definition with_recv (fd : Z) (k : list recv_event) (io : slam_io_thread) :=
  {| io_mq := io_mq io; io_poll := io_poll io; io_sockets := io_sockets io; io_heap := io_heap io;
     io_recv := update (io_recv io) fd k; io_send := io_send io; io_accept := io_accept io;
     io_wire := io_wire io; io_closed := io_closed io |}.

Definition with_send (fd : Z) (k : list send_event) (sent : list byte) (io : slam_io_thread) :=
  {| io_mq := io_mq io; io_poll := io_poll io; io_sockets := io_sockets io; io_heap := io_heap io;
     io_recv := io_recv io; io_send := update (io_send io) fd k; io_accept := io_accept io;
     io_wire := update (io_wire io) fd (io_wire io fd ++ sent); io_closed := io_closed io |}.

Definition with_accept (fd : Z) (k : list accept_event) (io : slam_io_thread) :=
  {| io_mq := io_mq io; io_poll := io_poll io; io_sockets := io_sockets io; io_heap := io_heap io;
     io_recv := io_recv io; io_send := io_send io; io_accept := update (io_accept io) fd k;
     io_wire := io_wire io; io_closed := io_closed io |}.

(** [slam_close]: the kernel also stops watching the descriptor. *)
Definition close_fd (fd : Z) (io : slam_io_thread) :=
  {| io_mq := io_mq io; io_poll := delete fd (io_poll io); io_sockets := io_sockets io;
     io_heap := io_heap io; io_recv := io_recv io; io_send := io_send io;
     io_accept := io_accept io; io_wire := io_wire io; io_closed := io_closed io ++ [fd] |}.

(** ** Operations *)
Section operations.
(** Limits of [__slam_main], and which descriptors epoll accepts. *)
Context (max_package_size socket_send_queue_size : Z) (epoll_accepts : Z → bool).

Definition post_event (io : slam_io_thread) (fd type : Z) : outcome (bool * slam_io_thread) :=
  let '(x, h) := slam_message_new fd type 0 (io_heap io) in
  '(pushed, mq) ← slam_message_queue_push_back (io_mq io) x;
  if negb pushed then
    h ← slam_message_delete x h;
    Ok (false, with_mq_heap mq h io)               (* io->mq is full *)
  else Ok (true, with_mq_heap mq h io).

Definition slam_io_thread_establish_connection_event (io : slam_io_thread) (fd : Z) :=
  post_event io fd MESSAGE_TYPE_ESTABLISH_CONNECTION.

Definition slam_io_thread_lost_connection_event (io : slam_io_thread) (fd : Z) :=
  post_event io fd MESSAGE_TYPE_LOST_CONNECTION.

(** [slam_socket_delete], with the descriptor's close. *)
Definition delete_socket (s : slam_socket) (io : slam_io_thread) : outcome slam_io_thread :=
  let io := close_fd (sk_fd s) io in
  h ← slam_socket_delete s (io_heap io);
  Ok (with_mq_heap (io_mq io) h io).

Definition slam_io_thread_add_socket (io : slam_io_thread) (newsocket : slam_socket)
    : outcome (bool * slam_io_thread) :=
  let fd := sk_fd newsocket in
  ASSERT VALID_SOCKET fd ;;
  match io_sockets io !! fd with
  | Some _ => AssertFail
  | None =>
      let '(added, poll) := slam_poll_add_socket (io_poll io) fd (epoll_accepts fd) in
      if negb added then Ok (false, with_poll poll io)
      else Ok (true, with_sockets (<[fd := newsocket]> (io_sockets io)) (with_poll poll io))
  end.

Definition slam_io_thread_remove_socket (io : slam_io_thread) (fd : Z) : outcome slam_io_thread :=
  ASSERT VALID_SOCKET fd ;;
  match io_sockets io !! fd with
  | None => Ok io
  | Some s =>
      let '(_, poll) := slam_poll_remove_socket (io_poll io) fd in
      io ← delete_socket s (with_poll poll io);
      let io := with_sockets (delete fd (io_sockets io)) io in
      '(_, io) ← slam_io_thread_lost_connection_event io fd;
      Ok io
  end.

(** The [while] loop of [slam_io_thread_accept_socket] on the listener [fd]. *)
Fixpoint accept_loop (fuel : nat) (fd : Z) (io : slam_io_thread) : outcome slam_io_thread :=
  match fuel with
  | O => NoFuel
  | S fuel =>
      '(newsocket, closed, k) ← slam_socket_accept socket_send_queue_size (io_accept io fd);
      let io := foldl (λ io fd, close_fd fd io) (with_accept fd k io) closed in
      match newsocket with
      | None => Ok io                              (* EAGAIN *)
      | Some newsocket =>
          '(added, io) ← slam_io_thread_add_socket io newsocket;
          io ←
            (if negb added then delete_socket newsocket io
             else
               '(_, io) ← slam_io_thread_establish_connection_event io (sk_fd newsocket);
               Ok io);
          accept_loop fuel fd io
      end
  end.

Definition slam_io_thread_accept_socket (io : slam_io_thread) (s : slam_socket)
    : outcome slam_io_thread :=
  ASSERT sk_type s =? SOCKET_SERVER ;;
  accept_loop (S (length (io_accept io (sk_fd s)))) (sk_fd s) io.

Definition slam_io_thread_read_socket (io : slam_io_thread) (fd : Z) : outcome slam_io_thread :=
  ASSERT VALID_SOCKET fd ;;
  match io_sockets io !! fd with
  | None => Ok io                                  (* already close *)
  | Some s =>
      if sk_type s =? SOCKET_SERVER then slam_io_thread_accept_socket io s
      else
        '(b, s, mq, h, k) ←
          slam_socket_poll_read max_package_size (read_fuel (io_recv io fd)) s (io_mq io)
            (io_heap io) (io_recv io fd);
        let io := with_sockets (<[fd := s]> (io_sockets io)) (with_recv fd k (with_mq_heap mq h io)) in
        if negb b then slam_io_thread_remove_socket io fd else Ok io
  end.

Definition slam_io_thread_write_socket (io : slam_io_thread) (fd : Z) : outcome slam_io_thread :=
  ASSERT VALID_SOCKET fd ;;
  match io_sockets io !! fd with
  | None => Ok io                                  (* already close *)
  | Some s =>
      ASSERT negb (sk_type s =? SOCKET_SERVER) ;;
      '(b, sent, s, h, k) ←
        slam_socket_poll_write (S (length (io_send io fd))) s (io_heap io) (io_send io fd);
      let io := with_sockets (<[fd := s]> (io_sockets io))
                  (with_send fd k sent (with_mq_heap (io_mq io) h io)) in
      if negb b then slam_io_thread_remove_socket io fd else Ok io
  end.

(** The body of the [for] loop over the events of [slam_io_thread_do_message]. *)
Definition do_event (io : slam_io_thread) (event : slam_poll_event) : outcome slam_io_thread :=
  let fd := ev_fd event in
  let has mask := negb (Z.land (ev_events event) mask =? 0) in
  if has EPOLLERR then slam_io_thread_remove_socket io fd
  else if has EPOLLHUP then slam_io_thread_remove_socket io fd
  else if has EPOLLRDHUP then slam_io_thread_remove_socket io fd
  else
    io ← (if has EPOLLIN then slam_io_thread_read_socket io fd else Ok io);
    if has EPOLLOUT then slam_io_thread_write_socket io fd else Ok io.

Fixpoint do_events (io : slam_io_thread) (events : list slam_poll_event) : outcome slam_io_thread :=
  match events with
  | [] => Ok io
  | event :: events => io ← do_event io event; do_events io events
  end.

(** [halt] is the flag of [__slam_main] after the wait; the result tells
    whether the worker is woken up. *)
Definition slam_io_thread_do_message (halt : bool) (events : list slam_poll_event)
    (io : slam_io_thread) : outcome (bool * slam_io_thread) :=
  if halt then Ok (false, io)
  else
    io ← do_events io events;
    empty ← slam_message_queue_empty (io_mq io);
    Ok (negb empty, io).

(** Each turn of [slam_io_thread_run]: the flag before the wait, the flag after
    it, and the events. *)
Fixpoint slam_io_thread_run (turns : list (bool * bool * list slam_poll_event))
    (io : slam_io_thread) : outcome slam_io_thread :=
  match turns with
  | [] => Ok io
  | (halt, halt', events) :: turns =>
      if (halt : bool) then Ok io
      else
        '(_, io) ← slam_io_thread_do_message halt' events io;
        slam_io_thread_run turns io
  end.

(** The interface the worker calls.  [fd] is what [socket] returns. *)
Definition slam_io_newserver (io : slam_io_thread) (fd : Z) (r : bind_results)
    : outcome (Z * slam_io_thread) :=
  socket ← slam_socket_new socket_send_queue_size fd;
  '(bound, socket) ← slam_socket_bind socket r;
  DEREF s := socket ;;
  if negb bound then io ← delete_socket s io; Ok (INVALID_SOCKET, io)
  else
    '(added, io) ← slam_io_thread_add_socket io s;
    if negb added then io ← delete_socket s io; Ok (INVALID_SOCKET, io)
    else Ok (sk_fd s, io).

Definition slam_io_newclient (io : slam_io_thread) (fd connected : Z)
    : outcome (Z * slam_io_thread) :=
  socket ← slam_socket_new socket_send_queue_size fd;
  '(ok, socket) ← slam_socket_connect socket connected;
  DEREF s := socket ;;
  if negb ok then io ← delete_socket s io; Ok (INVALID_SOCKET, io)
  else
    '(added, io) ← slam_io_thread_add_socket io s;
    if negb added then io ← delete_socket s io; Ok (INVALID_SOCKET, io)
    else Ok (sk_fd s, io).

Definition slam_io_response (io : slam_io_thread) (x : loc) : outcome (bool * slam_io_thread) :=
  DEREF msg := mh_msgs (io_heap io) !! x ;;
  let fd := msg_fd msg in
  if negb (VALID_SOCKET fd) then Ok (false, io)
  else
    match io_sockets io !! fd with
    | None => Ok (false, io)                       (* already close *)
    | Some s =>
        h ← write_message x (set_bytesize 0) (io_heap io);
        '(written, s) ← slam_socket_write_message s x;
        let io := with_sockets (<[fd := s]> (io_sockets io)) (with_mq_heap (io_mq io) h io) in
        if negb written then Ok (false, io)        (* mq is full *)
        else
          let '(b, poll) := slam_poll_set_socket_pollout (io_poll io) fd true in
          Ok (b, with_poll poll io)
    end.

(** [shutdown_rd] is what is left to receive once the reading side is shut
    down; the poll event this triggers destroys the socket. *)
Definition slam_io_closesocket (shutdown_rd : list recv_event → list recv_event)
    (io : slam_io_thread) (fd : Z) : slam_io_thread :=
  if fd >=? 0 then with_recv fd (shutdown_rd (io_recv io fd)) io else io.

(** [slam_io_wakeup], on the thread's end of the pair shared with the worker. *)
Definition slam_io_wakeup (io : slam_io_thread) (fd_io : Z) : slam_io_thread :=
  let '(_, poll) := slam_poll_set_socket_pollout (io_poll io) fd_io true in with_poll poll io.

(** [slam_io_thread_new]: the pair's descriptor [fd_io] is watched first. *)
Definition slam_io_thread_new (mq : slam_message_queue loc) (h : msg_heap) (fd_io : Z)
    (recv : Z → list recv_event) (send : Z → list send_event) (acc : Z → list accept_event)
    (created : bool) : option slam_io_thread :=
  let '(added, poll) := slam_poll_add_socket slam_poll_new fd_io (epoll_accepts fd_io) in
  if negb added then None
  else if negb created then None
  else Some {| io_mq := mq; io_poll := poll; io_sockets := ∅; io_heap := h; io_recv := recv;
               io_send := send; io_accept := acc; io_wire := λ _, []; io_closed := [] |}.

(** The [for] loop of [slam_io_thread_delete], from [fd] on. *)
Fixpoint delete_sockets (n : nat) (fd : Z) (io : slam_io_thread) : outcome slam_io_thread :=
  match n with
  | O => Ok io
  | S n =>
      io ← match io_sockets io !! fd with Some s => delete_socket s io | None => Ok io end;
      delete_sockets n (fd + 1) io
  end.

Definition slam_io_thread_delete (io : slam_io_thread) (fd_io : Z) : outcome slam_io_thread :=
  io ← delete_sockets (Z.to_nat MAX_SOCKET_NUMBER) 0 (slam_io_wakeup io fd_io);
  Ok (close_fd fd_io io).
End operations.
