(* ===== verification/IoOwnership.v ===== *)
(** * Who owns which message

    Every live message block has exactly one owner: the queue towards the
    worker, one socket (as the message it is reading or in its send queue), or
    the worker.  Every operation of the I/O thread and of its interface keeps
    this, so that none touches a freed block, frees one twice or loses one. *)

From S2P Require Import Prelude MessageQueue Message Socket Framing Poll IoThread.

(** ** The invariant *)
Inductive owner :=
  | ByQueue
  | BySocket (fd : Z)
  | ByWorker.

#[export] Instance owner_eq_dec : EqDecision owner.
Proof. solve_decision. Defined.

Definition sock_msgs (s : slam_socket) (sq : list loc) : list loc :=
  option_list (sk_readmessage s) ++ sq.

(** The socket [s] of the descriptor [fd] is intact, and the messages it refers
    to are those it owns. *)
Definition sock_ok (max_package_size : Z) (own : loc → option owner) (h : msg_heap) (fd : Z)
    (s : slam_socket) : Prop :=
  VALID_SOCKET fd = true ∧ sk_fd s = fd ∧ (∃ p, partial max_package_size s h p) ∧
  ∃ sq ds, mq_rep (sk_sendmq s) sq ∧ Forall2 (unsent h) sq ds ∧ NoDup (sock_msgs s sq) ∧
    ∀ x, x ∈ sock_msgs s sq ↔ own x = Some (BySocket fd).

(** A message for the worker: a package is complete. *)
Definition ready (max_package_size : Z) (h : msg_heap) (x : loc) : Prop :=
  ∃ msg, mh_msgs h !! x = Some msg ∧
    (msg_type msg = MESSAGE_TYPE_PROTOBUF_PACKAGE →
     ∃ f, holds max_package_size (msg_fd msg) msg f ∧ msg_bufsize msg = len f).

Record io_ok (mq_ok : slam_message_queue loc → list loc → Prop) (max_package_size : Z) (own : loc → option owner) (q : list loc)
    (io : slam_io_thread) : Prop := {
  ok_heap : heap_wf (io_heap io);
  ok_mq : mq_ok (io_mq io) q;
  ok_q_nodup : NoDup q;
  ok_q : ∀ x, x ∈ q ↔ own x = Some ByQueue;
  ok_live : ∀ x, is_Some (mh_msgs (io_heap io) !! x) ↔ is_Some (own x);
  ok_socks : ∀ fd s, io_sockets io !! fd = Some s → sock_ok max_package_size own (io_heap io) fd s;
  ok_owner : ∀ x fd, own x = Some (BySocket fd) → is_Some (io_sockets io !! fd);
  ok_ready : ∀ x, own x = Some ByQueue → ready max_package_size (io_heap io) x;
}.

(** [W] holds of the messages in the worker's hands; [mq_ok] says what is asked
    of the ring that leads to the worker, whose contents are [q]. *)
Definition io_inv_with (mq_ok : slam_message_queue loc → list loc → Prop) (max_package_size : Z)
    (W : loc → Prop) (io : slam_io_thread) : Prop :=
  ∃ own q, io_ok mq_ok max_package_size own q io ∧ ∀ x, own x = Some ByWorker ↔ W x.

Abbreviation io_inv := (io_inv_with mq_rep).

(** ** Helpers *)
Lemma partial_frame max s h h' p :
  (∀ x, sk_readmessage s = Some x → mh_msgs h' !! x = mh_msgs h !! x) →
  partial max s h p → partial max s h' p.
Proof.
  unfold partial. destruct (sk_readmessage s) as [x|]; [|done]. intros H. by rewrite (H x).
Qed.

Lemma ready_frame max h h' x : mh_msgs h' !! x = mh_msgs h !! x → ready max h x → ready max h' x.
Proof. unfold ready. by intros ->. Qed.

(** A socket is untouched by what happens to the messages of others. *)
Lemma sock_ok_frame max own own' h h' fd s :
  sock_ok max own h fd s →
  (∀ x, own x = Some (BySocket fd) ↔ own' x = Some (BySocket fd)) →
  (∀ x, own x = Some (BySocket fd) → mh_msgs h' !! x = mh_msgs h !! x) →
  sock_ok max own' h' fd s.
Proof.
  intros (Hv & Hfd & [p Hp] & sq & ds & Hq & Hu & Hnd & Ho) Hown Hh.
  split_and!; [done|done| |].
  - exists p. eapply partial_frame; [|done]. intros x Hx. apply Hh, Ho. unfold sock_msgs.
    rewrite Hx. by left.
  - exists sq, ds. split_and!; [done| |done|].
    + eapply unsent_pending_frame; [|done]. intros x Hx. apply Hh, Ho.
      unfold sock_msgs. apply elem_of_app. by right.
    + intros x. by rewrite Ho.
Qed.

Lemma sock_live max own h fd s x :
  (∀ x, is_Some (mh_msgs h !! x) ↔ is_Some (own x)) → sock_ok max own h fd s →
  own x = Some (BySocket fd) → is_Some (mh_msgs h !! x).
Proof. intros Hl _ H. apply Hl. rewrite H. eauto. Qed.

(** Deleting messages that are live and distinct. *)
Lemma delete_messages_ok xs : ∀ h,
  NoDup xs → (∀ x, x ∈ xs → is_Some (mh_msgs h !! x)) → heap_wf h →
  returns (delete_messages xs h) (λ h', heap_wf h' ∧
    ∀ y, mh_msgs h' !! y = if decide (y ∈ xs) then None else mh_msgs h !! y).
Proof.
  induction xs as [|x xs IH]; intros h Hnd Hl Hwf.
  { apply returns_ok. split; [done|]. intros y. by rewrite decide_False by set_solver. }
  simpl delete_messages.
  apply NoDup_cons in Hnd as [Hx Hnd]. destruct (Hl x) as [msg Hm]; [by left|].
  unfold slam_message_delete. rewrite Hm, bind_ok.
  eapply returns_mono; [apply (IH (with_msgs (delete x (mh_msgs h)) h)); [done| |by apply delete_heap_wf]|].
  - intros y Hy. simpl. rewrite lookup_delete_ne by congruence. apply Hl. by right.
  - intros h' [Hwf' H']. split; [done|]. intros y. rewrite H'. simpl.
    destruct (decide (y = x)) as [->|Hne].
    + rewrite lookup_delete_eq, (decide_True (P := x ∈ x :: xs)) by by left. by case_decide.
    + rewrite lookup_delete_ne by done. apply decide_ext. rewrite elem_of_cons. tauto.
Qed.

(** Deleting a socket frees the messages it refers to, or aborts on its queue. *)
Lemma slam_socket_delete_ok max s h p sq :
  partial max s h p → mq_rep (sk_sendmq s) sq → NoDup (sock_msgs s sq) → heap_wf h →
  (∀ x, x ∈ sock_msgs s sq → is_Some (mh_msgs h !! x)) →
  aborts_unless (send_room s sq) (slam_socket_delete s h) (λ h', heap_wf h' ∧
    ∀ y, mh_msgs h' !! y = if decide (y ∈ sock_msgs s sq) then None else mh_msgs h !! y).
Proof.
  intros Hp Hq Hnd Hwf Hl. unfold sock_msgs in *. apply NoDup_app in Hnd as (Hnd1 & Hdis & Hnd2).
  assert (returns (delete_messages (option_list (sk_readmessage s)) h) (λ h1, heap_wf h1 ∧
    ∀ y, mh_msgs h1 !! y = if decide (y ∈ option_list (sk_readmessage s)) then None else mh_msgs h !! y))
    as (h1 & Hd1 & Hwf1 & H1).
  { apply delete_messages_ok; [done| |done]. intros x Hx. apply Hl, elem_of_app. by left. }
  assert (match sk_readmessage s with Some x => slam_message_delete x h | None => Ok h end = Ok h1) as E.
  { rewrite <- Hd1. destruct (sk_readmessage s); simpl; [|done]. by destruct (slam_message_delete _ _). }
  unfold slam_socket_delete. rewrite E, bind_ok.
  pose proof (rep_length _ _ Hq) as Hlen. pose proof (rep_room _ _ Hq) as Hroom.
  destruct (Z.lt_ge_cases (mq_rindex (sk_sendmq s) + len sq) (mq_maxsize (sk_sendmq s))) as [Hlt|Hge].
  - rewrite (delete_rep _ _ sq), bind_ok by (done || len).
    assert (∀ y, y ∈ sq → mh_msgs h1 !! y = mh_msgs h !! y) as Hsame.
    { intros y Hy. rewrite H1. rewrite decide_False; [done|]. intros Hy'. by apply (Hdis y). }
    destruct (delete_messages_ok sq h1 Hnd2) as (h2 & -> & Hwf2 & H2); [|done|].
    { intros y Hy. rewrite Hsame by done. apply Hl, elem_of_app. by right. }
    apply aborts_ok. split; [done|]. intros y. rewrite H2, H1.
    repeat case_decide; try done; set_solver.
  - rewrite (delete_aborts _ _ sq) by (done || len). simpl. unfold aborts_unless, send_room. lia.
Qed.

(** Deleting moves no address. *)
Lemma delete_messages_brk xs : ∀ h h', delete_messages xs h = Ok h' → mh_brk h' = mh_brk h.
Proof.
  induction xs as [|x xs IH]; intros h h'; simpl; [by intros [= ->]|].
  unfold slam_message_delete. destruct (mh_msgs h !! x); [|done]. by intros E%IH.
Qed.

Lemma slam_socket_delete_brk s h h' : slam_socket_delete s h = Ok h' → mh_brk h' = mh_brk h.
Proof.
  unfold slam_socket_delete, slam_message_delete.
  set (freed := slam_message_queue_delete _ (sk_sendmq s)).
  destruct (sk_readmessage s) as [x|]; [destruct (mh_msgs h !! x); [|done]|]; simpl;
    (destruct freed; [|done..]); by intros E%delete_messages_brk.
Qed.

(** ** Changes of the state that keep the invariant *)

(** The poll, the scripts and the descriptor log play no part in it. *)
Lemma inv_irrelevant M max W io io' :
  io_inv_with M max W io → io_mq io' = io_mq io → io_sockets io' = io_sockets io →
  io_heap io' = io_heap io → io_inv_with M max W io'.
Proof.
  intros (own & q & [] & HW) E1 E2 E3. exists own, q. split; [|done].
  split; rewrite ?E1, ?E2, ?E3; done.
Qed.

Lemma inv_weaken M M' max' W io :
  (∀ q, M (io_mq io) q → M' (io_mq io) q) → io_inv_with M max' W io → io_inv_with M' max' W io.
Proof. intros HM (own & q & [] & HW). exists own, q. split; [|done]. split; auto. Qed.

(** The message [x] gets an owner: a new one, or one in the worker's hands. *)
Definition reown (own : loc → option owner) (x : loc) (o : option owner) (y : loc) : option owner :=
  if decide (y = x) then o else own y.

Lemma reown_eq own x o : reown own x o x = o.
Proof. unfold reown. by rewrite decide_True. Qed.
Lemma reown_ne own x o y : y ≠ x → reown own x o y = own y.
Proof. unfold reown. intros. by rewrite decide_False. Qed.

Lemma inv_post max W io fd type :
  type ≠ MESSAGE_TYPE_PROTOBUF_PACKAGE → io_inv max W io → safe (post_event io fd type) (λ '(_, io'), io_inv max W io' ∧
    io_sockets io' = io_sockets io ∧ io_accept io' = io_accept io ∧ io_poll io' = io_poll io).
Proof.
  intros Htype (own & q & H & HW). unfold post_event, slam_message_new.
  set (x := mh_brk (io_heap io)). set (msg := {| msg_fd := fd |}).
  pose proof (new_fresh _ (ok_heap _ _ _ _ _ H)) as Hx. fold x in Hx.
  assert (own x = None) as Hox.
  { apply eq_None_not_Some. rewrite <- (ok_live _ _ _ _ _ H), Hx. by intros []. }
  set (h' := {| mh_msgs := <[x := msg]> (mh_msgs (io_heap io)); mh_brk := Pos.succ x |}).
  assert (heap_wf h') as Hwf by apply (new_heap_wf fd type 0 _ (ok_heap _ _ _ _ _ H)).
  apply returns_safe. eapply returns_bind; [apply push_rep, H|].
  intros [b mq'] (-> & Hq' & _ & _). destruct (len q <? _); simpl.
  - apply returns_ok. split_and!; try done. exists (reown own x (Some ByQueue)), (q ++ [x]). split.
    + split; simpl; [done|done| | | | | |].
      * apply NoDup_app. split_and!; [apply H| |apply NoDup_singleton].
        intros y Hy ->%list_elem_of_singleton. apply (ok_q _ _ _ _ _ H) in Hy. congruence.
      * intros y. rewrite elem_of_app, list_elem_of_singleton, (ok_q _ _ _ _ _ H).
        unfold reown. case_decide; naive_solver.
      * intros y. rewrite lookup_insert_is_Some', (ok_live _ _ _ _ _ H).
        unfold reown. case_decide; naive_solver.
      * intros fd' s Hs. eapply sock_ok_frame; [by apply (ok_socks _ _ _ _ _ H)| |].
        -- intros y. unfold reown. case_decide; naive_solver.
        -- intros y Hy. simpl. rewrite lookup_insert_ne; congruence.
      * intros y fd'. unfold reown. case_decide; [done|]. apply (ok_owner _ _ _ _ _ H).
      * intros y. unfold reown. case_decide as Hy.
        -- intros _. subst y. exists msg. simpl. by rewrite lookup_insert_eq.
        -- intros Hq2. apply (ready_frame _ (io_heap io)); [|by apply (ok_ready _ _ _ _ _ H)].
           simpl. by rewrite lookup_insert_ne by done.
    + intros y. rewrite <- HW. unfold reown. case_decide; naive_solver.
  - unfold slam_message_delete. simpl. rewrite lookup_insert_eq. apply returns_ok.
    split_and!; try done. exists own, q. split; [|done]. simpl.
    destruct H. split; simpl; try done.
    + by apply (delete_heap_wf x h').
    + intros y. rewrite delete_insert_id by done. apply ok_live0.
    + intros fd' s Hs. eapply sock_ok_frame; [by apply ok_socks0|done|].
      intros y Hy. simpl. by rewrite delete_insert_id.
    + intros y Hy. apply (ready_frame _ (io_heap io)); [|by apply ok_ready0].
      simpl. by rewrite delete_insert_id.
Qed.

(** A socket's entry goes, and its messages with it. *)
Lemma inv_delete_socket max W io fd s :
  io_inv max W io → io_sockets io !! fd = Some s →
  safe (delete_socket s io) (λ io', io_inv max W (with_sockets (delete fd (io_sockets io')) io') ∧
    io_sockets io' = io_sockets io).
Proof.
  intros (own & q & H & HW) Hs.
  pose proof (ok_socks _ _ _ _ _ H fd s Hs) as (_ & Hfd & [p Hp] & sq & ds & Hq & Hu & Hnd & Ho).
  unfold delete_socket. simpl. eapply safe_bind.
  { eapply aborts_safe, (slam_socket_delete_ok max s _ p sq); try done; [apply H|].
    intros x Hx%Ho. apply (ok_live _ _ _ _ _ H). rewrite Hx. eauto. }
  intros h' [Hwf H']. simpl. split; [|done].
  set (own' := λ x, if decide (own x = Some (BySocket fd)) then None else own x).
  exists own', q. subst own'. split.
  - split; simpl; [done|apply H|apply H| | | | |].
    + intros x. rewrite (ok_q _ _ _ _ _ H). case_decide; naive_solver.
    + intros x. rewrite H'. destruct (decide (x ∈ sock_msgs s sq)) as [Hx|Hx].
      * rewrite decide_True by by apply Ho. split; by intros [].
      * rewrite decide_False by (intros ?; by apply Hx, Ho). apply H.
    + intros fd' s' [Hne Hs']%lookup_delete_Some.
      eapply sock_ok_frame; [by apply (ok_socks _ _ _ _ _ H)| |].
      * intros x. case_decide; naive_solver.
      * intros x Hx. simpl. rewrite H', decide_False; [done|]. intros Hx'%Ho. naive_solver.
    + intros x fd'. case_decide as Hx; [done|]. intros Hx'.
      destruct (ok_owner _ _ _ _ _ H x fd' Hx') as [s' Hs']. exists s'.
      rewrite lookup_delete_ne; [done|]. intros <-. done.
    + intros x. case_decide as Hx; [done|]. intros Hq2.
      apply (ready_frame _ (io_heap io)); [|by apply (ok_ready _ _ _ _ _ H)].
      rewrite H', decide_False; [done|]. by intros Hx'%Ho.
  - intros x. rewrite <- HW. case_decide; naive_solver.
Qed.

Lemma inv_remove max W io fd :
  io_inv max W io → safe (slam_io_thread_remove_socket io fd) (λ io', io_inv max W io' ∧
    io_sockets io' = delete fd (io_sockets io)).
Proof.
  intros Hinv. unfold slam_io_thread_remove_socket. destruct (VALID_SOCKET fd); [|done].
  destruct (io_sockets io !! fd) as [s|] eqn:Hs; last first.
  { simpl. split; [done|]. by rewrite delete_id. }
  destruct (slam_poll_remove_socket _ _) as [b poll].
  eapply safe_bind; [eapply (inv_delete_socket max W (with_poll poll io) fd); [|done]|].
  { by eapply inv_irrelevant. }
  intros io1 [H1 E1]. simpl in *.
  eapply safe_bind; [by apply inv_post|]. intros [b2 io2] (H2 & E2 & _). simpl in *.
  split; [done|]. by rewrite E2, E1.
Qed.

(** A socket as [slam_socket_newfd] makes it. *)
Definition fresh_socket (s : slam_socket) : Prop :=
  sk_readmessage s = None ∧ mq_rep (sk_sendmq s) [] ∧ mq_rindex (sk_sendmq s) = 0.

Lemma inv_delete_fresh M max W io s :
  io_inv_with M max W io → fresh_socket s →
  returns (delete_socket s io) (λ io', io_inv_with M max W io' ∧ io_sockets io' = io_sockets io ∧
    io_accept io' = io_accept io).
Proof.
  intros (own & q & H & HW) (Hr & Hq & Hi). unfold delete_socket. simpl.
  eapply returns_bind.
  { eapply aborts_returns, (slam_socket_delete_ok max s _ [] []); try done.
    - unfold send_room. pose proof (rep_maxsize _ _ Hq). rewrite Hi. len.
    - unfold partial. by rewrite Hr.
    - unfold sock_msgs. rewrite Hr. constructor.
    - apply H.
    - unfold sock_msgs. rewrite Hr. by intros x ?%elem_of_nil. }
  intros h' [Hwf H']. apply returns_ok. split_and!; [|done|done]. exists own, q. split; [|done].
  assert (∀ y, mh_msgs h' !! y = mh_msgs (io_heap io) !! y) as Hsame.
  { intros y. rewrite H', decide_False; [done|]. unfold sock_msgs. rewrite Hr. by intros ?%elem_of_nil. }
  destruct H. split; simpl; try done.
  - intros y. by rewrite Hsame.
  - intros fd' s' Hs'. eapply sock_ok_frame; [by apply ok_socks0|done|]. intros y _. apply Hsame.
  - intros y Hy. apply (ready_frame _ (io_heap io)); [apply Hsame|by apply ok_ready0].
Qed.

(** A fresh socket enters the table. *)
Lemma inv_add M max W io s accepts :
  io_inv_with M max W io → fresh_socket s →
  safe (slam_io_thread_add_socket accepts io s) (λ '(b, io'), io_inv_with M max W io' ∧
    io_accept io' = io_accept io ∧
    io_sockets io' = if b then <[sk_fd s := s]> (io_sockets io) else io_sockets io).
Proof.
  intros (own & q & H & HW) (Hr & Hq & Hi). unfold slam_io_thread_add_socket.
  destruct (VALID_SOCKET (sk_fd s)) eqn:Hv; [|done].
  destruct (io_sockets io !! sk_fd s) as [|] eqn:Hs; [done|].
  destruct (slam_poll_add_socket _ _ _) as [[] poll]; simpl; split_and!; try done.
  - assert (∀ x, own x ≠ Some (BySocket (sk_fd s))) as Hno.
    { intros x Hx. apply (ok_owner _ _ _ _ _ H) in Hx. rewrite Hs in Hx. by destruct Hx. }
    exists own, q. split; [|done]. destruct H. split; simpl; try done.
    + intros fd' s' [[<- <-]|[Hne Hs']]%lookup_insert_Some; [|by apply ok_socks0].
      split_and!; [done|done| |].
      * exists []. unfold partial. by rewrite Hr.
      * exists [], []. unfold sock_msgs. rewrite Hr. split_and!; [done|done|constructor|].
        intros x. split; [by intros ?%elem_of_nil|]. by intros ?%Hno.
    + intros x fd' Hx. apply lookup_insert_is_Some'. right. by eapply ok_owner0.
  - by eapply inv_irrelevant; [exists own, q|..].
Qed.

(** ** Accepting *)
Lemma newfd_fresh size fd type :
  size <= 2 ^ 31 → safe (slam_socket_newfd size fd type) (λ s, fresh_socket s ∧ sk_fd s = fd).
Proof.
  intros Hs. unfold slam_socket_newfd.
  destruct (Z.lt_ge_cases 0 size) as [Hp|Hn].
  - apply returns_safe. eapply returns_bind; [by apply new_rep|]. intros mq (H & _ & Hi).
    by apply returns_ok.
  - unfold slam_message_queue_new. by zcase; [lia|].
Qed.

Lemma slam_socket_accept_ok size k :
  size <= 2 ^ 31 → safe (slam_socket_accept size k) (λ '(s, closed, k'),
    match s with
    | Some s => fresh_socket s ∧ (length k' < length k)%nat
    | None => (length k' <= length k)%nat
    end).
Proof.
  intros Hs. induction k as [|[fd nb|e] k IH]; simpl; [done| |].
  - destruct nb; simpl.
    + eapply safe_bind; [by apply newfd_fresh|]. intros s [Hf _]. simpl. split; [done|lia].
    + eapply safe_bind; [exact IH|]. intros [[s closed] k']. destruct s; simpl; [intros [? ?]; split; [done|lia]|lia].
  - destruct (slam_interrupted e); simpl; [|lia].
    eapply safe_mono; [exact IH|]. intros [[s closed] k']. destruct s; [intros [? ?]; split; [done|lia]|lia].
Qed.

Lemma inv_close_all M max W fds : ∀ io,
  io_inv_with M max W io → let io' := foldl (λ io fd, close_fd fd io) io fds in
  io_inv_with M max W io' ∧ io_accept io' = io_accept io.
Proof.
  induction fds as [|fd fds IH]; intros io H; simpl; [done|].
  destruct (IH (close_fd fd io)) as [? E]; [by eapply inv_irrelevant|]. by split.
Qed.

Lemma inv_accept_loop max W size accepts fuel fd : size <= 2 ^ 31 → ∀ io,
  io_inv max W io → (length (io_accept io fd) < fuel)%nat →
  safe (accept_loop size accepts fuel fd io) (io_inv max W).
Proof.
  intros Hs. induction fuel as [|fuel IH]; intros io H Hf; [lia|]. simpl.
  eapply safe_bind; [by apply slam_socket_accept_ok|]. intros [[s closed] k] Hk.
  destruct (inv_close_all mq_rep max W closed (with_accept fd k io)) as [H1 E1];
    [by eapply inv_irrelevant|].
  destruct s as [s|]; [|done]. destruct Hk as [Hfr Hk].
  eapply safe_bind; [by apply inv_add|]. intros [b io2] (H2 & E2 & Es).
  assert (io_accept io2 fd = k) as Ek.
  { rewrite E2, E1. simpl. unfold update. by rewrite Z.eqb_refl. }
  destruct b; simpl.
  - eapply safe_bind; [eapply safe_bind; [by apply inv_post|]|].
    + intros [b3 io3] (H3 & _ & E3 & _). exact (conj H3 E3 : (λ io3, io_inv max W io3 ∧ io_accept io3 = io_accept io2) io3).
    + intros io3 [H3 E3]. apply IH; [done|]. rewrite E3, Ek. lia.
  - eapply safe_bind; [by apply returns_safe, inv_delete_fresh|].
    intros io3 (H3 & _ & E3). apply IH; [done|]. rewrite E3, Ek. lia.
Qed.

(** ** Reading and writing a connection *)

(** What a read does to the owners. *)
Definition read_own (own : loc → option owner) (fd : Z) (locs : list loc) (rm : ptr) (x : loc)
    : option owner :=
  if decide (x ∈ locs) then Some ByQueue
  else if decide (rm = Some x) then Some (BySocket fd) else own x.

Section read_ownership.
Context (max : Z) (own : loc → option owner) (q : list loc) (io : slam_io_thread).
Context (fd : Z) (s s' : slam_socket) (locs fresh sq : list loc) (h' : msg_heap).
Hypothesis H : io_ok mq_rep max own q io.
Hypothesis Hown : ∀ x, x ∈ sock_msgs s sq ↔ own x = Some (BySocket fd).
Hypothesis Hnd : NoDup (sock_msgs s sq).
Hypothesis Hperm : locs ++ option_list (sk_readmessage s') ≡ₚ option_list (sk_readmessage s) ++ fresh.
Hypothesis Hdist : NoDup (locs ++ option_list (sk_readmessage s')).
Hypothesis Hfresh : ∀ x, x ∈ fresh → own x = None.

(** The messages a read handles were the socket's or are new. *)
Lemma handled x :
  x ∈ locs ∨ sk_readmessage s' = Some x ↔ sk_readmessage s = Some x ∨ x ∈ fresh.
Proof.
  rewrite <- !elem_option_list, <- !elem_of_app. split; intros Hx; [by rewrite <- Hperm|by rewrite Hperm].
Qed.

Lemma rm_own x : sk_readmessage s = Some x → own x = Some (BySocket fd) ∧ x ∉ sq.
Proof.
  intros Hx%elem_option_list. split.
  - apply Hown, elem_of_app. by left.
  - unfold sock_msgs in Hnd. apply NoDup_app in Hnd as (_ & Hd & _). by apply Hd.
Qed.

Lemma locs_rm_disjoint x : x ∈ locs → sk_readmessage s' = Some x → False.
Proof.
  intros Hx Hr%elem_option_list. apply NoDup_app in Hdist as (_ & Hd & _). by apply (Hd x).
Qed.

Lemma not_handled x o :
  own x = Some o → o ≠ BySocket fd → x ∉ locs ∧ sk_readmessage s' ≠ Some x.
Proof.
  intros Ho Hne.
  assert (¬ (x ∈ locs ∨ sk_readmessage s' = Some x)) as Hn; [|tauto].
  intros [Hx%rm_own|Hx%Hfresh]%handled; [destruct Hx|]; congruence.
Qed.

Let own' := read_own own fd locs (sk_readmessage s').

Lemma read_own_other x o : o ≠ BySocket fd → o ≠ ByQueue → own x = Some o ↔ own' x = Some o.
Proof.
  intros H1 H2. unfold own', read_own. split.
  - intros Ho. destruct (not_handled x o Ho H1). by rewrite !decide_False.
  - repeat case_decide; intros; simplify_eq; done.
Qed.

Lemma read_own_queue x : x ∈ q ++ locs ↔ own' x = Some ByQueue.
Proof.
  rewrite elem_of_app, (ok_q _ _ _ _ _ H). unfold own', read_own. split.
  - intros [Hx|Hx]; [|by rewrite decide_True].
    destruct (not_handled x _ Hx) as [? ?]; [done|]. by rewrite !decide_False.
  - repeat case_decide; naive_solver.
Qed.

Lemma read_own_nodup : NoDup (q ++ locs).
Proof.
  apply NoDup_app. split_and!; [apply H| |by apply NoDup_app in Hdist as [? _]].
  intros x Hx%(ok_q _ _ _ _ _ H). by destruct (not_handled x _ Hx).
Qed.

Lemma read_own_socket x : x ∈ sock_msgs s' sq ↔ own' x = Some (BySocket fd).
Proof.
  unfold sock_msgs. rewrite elem_of_app, elem_option_list. unfold own', read_own. split.
  - intros [Hx|Hx].
    + rewrite decide_False; [by rewrite decide_True|]. intros Hl. by eapply locs_rm_disjoint.
    + assert (own x = Some (BySocket fd)) as Ho by (apply Hown, elem_of_app; by right).
      rewrite decide_False; [by case_decide|]. intros Hl.
      assert (sk_readmessage s = Some x ∨ x ∈ fresh) as [Hr|Hr] by (apply handled; by left).
      * by destruct (rm_own x Hr).
      * rewrite Hfresh in Ho; done.
  - case_decide; [done|]. case_decide; [by left|]. intros Ho. right.
    apply Hown in Ho. unfold sock_msgs in Ho. apply elem_of_app in Ho as [Hr%elem_option_list|]; [|done].
    exfalso. assert (x ∈ locs ∨ sk_readmessage s' = Some x) by (apply handled; by left). tauto.
Qed.

Lemma read_own_sock_nodup : NoDup (sock_msgs s' sq).
Proof.
  unfold sock_msgs. apply NoDup_app. split_and!; [apply NoDup_option_list| |].
  - intros x Hx%elem_option_list Hx'. destruct (proj1 (handled x)) as [Hr|Hr]; [by right|..].
    + by apply rm_own in Hr as [_ []].
    + apply Hfresh in Hr. assert (own x = Some (BySocket fd)) by (apply Hown, elem_of_app; by right).
      congruence.
  - unfold sock_msgs in Hnd. by apply NoDup_app in Hnd as (_ & _ & ?).
Qed.

Lemma read_own_live x :
  is_Some (own' x) ↔ is_Some (own x) ∨ x ∈ fresh.
Proof.
  assert (x ∈ locs ∨ sk_readmessage s' = Some x → is_Some (own x) ∨ x ∈ fresh) as Hh.
  { intros [Hr%rm_own|?]%handled; [left|by right]. destruct Hr as [-> _]. eauto. }
  unfold own', read_own. split.
  - repeat case_decide; tauto || (intros; apply Hh; tauto) || (intros; by left).
  - intros Hx. repeat case_decide; [eauto|eauto|]. destruct Hx as [|Hx]; [done|].
    exfalso. assert (x ∈ locs ∨ sk_readmessage s' = Some x) by (apply handled; by right). tauto.
Qed.
End read_ownership.

Lemma complete_ready max fd h locs fs :
  Forall2 (complete max fd h) locs fs → Forall (ready max h) locs.
Proof.
  induction 1 as [|x f locs fs (msg & Hm & Hh & Hl) _ IH]; constructor; [|done].
  exists msg. split; [done|]. intros _. exists f. split; [|done].
  by rewrite (ho_fd _ _ _ _ Hh).
Qed.

Lemma inv_after_read max own q io fd s s' sq ds p' locs mq' h' k' :
  io_ok mq_rep max own q io → io_sockets io !! fd = Some s → VALID_SOCKET fd = true → sk_fd s = fd →
  mq_rep (sk_sendmq s) sq → Forall2 (unsent (io_heap io)) sq ds → NoDup (sock_msgs s sq) →
  (∀ x, x ∈ sock_msgs s sq ↔ own x = Some (BySocket fd)) →
  mq_rep mq' (q ++ locs) → partial max s' h' p' → read_effect s (io_heap io) locs s' h' →
  Forall (ready max h') locs →
  io_ok mq_rep max (read_own own fd locs (sk_readmessage s')) (q ++ locs)
    (with_sockets (<[fd := s']> (io_sockets io)) (with_recv fd k' (with_mq_heap mq' h' io))).
Proof.
  intros H Hs Hv Hfd Hsq Hu Hnd Ho Hq' Hp' He Hready.
  assert (∀ x, sk_readmessage s = Some x → is_Some (mh_msgs (io_heap io) !! x)) as Hrm.
  { intros x Hx%elem_option_list. apply (ok_live _ _ _ _ _ H).
    assert (own x = Some (BySocket fd)) as -> by (apply Ho, elem_of_app; by left). eauto. }
  pose proof (read_effect_nodup _ _ _ _ _ Hrm He) as Hdist.
  destruct He as (Efd & Ety & Emq & Hwf & fresh & Hperm & Hndf & Hfr & Hdom & Hkeep).
  assert (∀ x, x ∈ fresh → own x = None) as Hfresh.
  { intros x Hx%Hfr. apply eq_None_not_Some. rewrite <- (ok_live _ _ _ _ _ H), Hx. by intros []. }
  assert (∀ x o, own x = Some o → sk_readmessage s ≠ Some x → mh_msgs h' !! x = mh_msgs (io_heap io) !! x) as Hsame.
  { intros x o Hx. apply Hkeep, (ok_live _ _ _ _ _ H). rewrite Hx. eauto. }
  assert (∀ x, sk_readmessage s = Some x → own x = Some (BySocket fd) ∧ x ∉ sq) as Hrmo.
  { intros x. by eapply rm_own. }
  assert (∀ x, x ∈ sock_msgs s' sq ↔ read_own own fd locs (sk_readmessage s') x = Some (BySocket fd))
    as Ho' by (intros x; by eapply read_own_socket).
  split; simpl; [done|done| | | | | |].
  - by eapply read_own_nodup.
  - intros x. by eapply read_own_queue.
  - intros x. rewrite (read_own_live own fd s s' locs fresh sq Ho Hnd Hperm x).
    rewrite <- (ok_live _ _ _ _ _ H), <- !elem_of_dom, Hdom. set_solver.
  - intros fd' t [[<- <-]|[Hne Ht]]%lookup_insert_Some.
    + split_and!; [done|congruence|by exists p'|]. exists sq, ds. rewrite Emq.
      split_and!; [done| | |done].
      * eapply unsent_pending_frame; [|exact Hu]. intros x Hx.
        apply (Hsame x (BySocket fd)); [apply Ho, elem_of_app; by right|]. intros E.
        by apply Hrmo in E as [_ []].
      * by apply (read_own_sock_nodup own fd s s' locs fresh sq).
    + assert (Some (BySocket fd') ≠ Some (BySocket fd)) as Hne' by congruence.
      eapply sock_ok_frame; [by apply (ok_socks _ _ _ _ _ H)| |].
      * intros x. eapply read_own_other; try done. congruence.
      * intros x Hx. eapply Hsame; [done|]. intros E. apply Hrmo in E as [E _]. congruence.
  - intros x fd'. unfold read_own. case_decide; [done|]. case_decide.
    + intros [= <-]. rewrite lookup_insert_eq. eauto.
    + intros Hx. apply lookup_insert_is_Some'. right. by eapply (ok_owner _ _ _ _ _ H).
  - intros x. unfold read_own. case_decide as Hx; [|case_decide; [done|]]; intros Hq2.
    + by eapply Forall_forall in Hready.
    + apply (ready_frame _ (io_heap io)); [|by apply (ok_ready _ _ _ _ _ H)].
      eapply Hsame; [done|]. intros E%Hrmo. destruct E; congruence.
Qed.

(** The state after a read of the connection, before a failed one is closed. *)
Definition read_state (io : slam_io_thread) (fd : Z)
    (r : bool * slam_socket * slam_message_queue loc * msg_heap * list recv_event) : slam_io_thread :=
  let '(_, s, mq, h, k) := r in
  with_sockets (<[fd := s]> (io_sockets io)) (with_recv fd k (with_mq_heap mq h io)).

Lemma inv_poll_read max W io fd s :
  io_inv max W io → io_sockets io !! fd = Some s →
  returns (slam_socket_poll_read max (read_fuel (io_recv io fd)) s (io_mq io) (io_heap io) (io_recv io fd))
    (λ r, io_inv max W (read_state io fd r)).
Proof.
  intros (own & q & H & HW) Hs.
  pose proof (ok_socks _ _ _ _ _ H fd s Hs) as (Hv & Hfd & [p Hp] & sq & ds & Hsq & Hu & Hnd & Ho).
  eapply returns_mono.
  { apply slam_socket_poll_read_spec; [apply H|exact Hp|apply H|apply read_fuel_enough]. }
  intros [[[[b s'] mq'] h'] k'] (locs & fs & k1 & p' & [M R Q F P E St L N] & _).
  exists (read_own own fd locs (sk_readmessage s')), (q ++ locs). split.
  - eapply inv_after_read; try done. eapply complete_ready; done.
  - intros x. rewrite <- HW.
    assert (∀ x, sk_readmessage s = Some x → is_Some (mh_msgs (io_heap io) !! x)) as Hrm
      by (intros y; by eapply partial_live).
    destruct E as (_ & _ & _ & _ & fresh & Hperm & _ & Hfr & _).
    symmetry. eapply (read_own_other own fd s s' locs fresh sq); try done.
    intros y Hy%Hfr. apply eq_None_not_Some. rewrite <- (ok_live _ _ _ _ _ H), Hy. by intros [].
Qed.

Lemma inv_read_socket max W size accepts io fd :
  size <= 2 ^ 31 → io_inv max W io →
  safe (slam_io_thread_read_socket max size accepts io fd) (io_inv max W).
Proof.
  intros Hsz Hinv. unfold slam_io_thread_read_socket. destruct (VALID_SOCKET fd); [|done].
  destruct (io_sockets io !! fd) as [s|] eqn:Hs; [|done].
  destruct (Z.eqb_spec (sk_type s) SOCKET_SERVER) as [Ht|Ht].
  { unfold slam_io_thread_accept_socket. rewrite Ht, Z.eqb_refl. apply inv_accept_loop; [done|done|lia]. }
  eapply safe_bind; [by eapply returns_safe, inv_poll_read|].
  intros [[[[b s'] mq'] h'] k'] Hr. destruct b; simpl; [done|].
  eapply safe_mono; [by apply inv_remove|]. by intros io' [? _].
Qed.

Definition free_own (own : loc → option owner) (gone : list loc) (x : loc) : option owner :=
  if decide (x ∈ gone) then None else own x.

Lemma inv_after_write max own q io fd s gone q' s' ds' h' k' sent :
  io_ok mq_rep max own q io → io_sockets io !! fd = Some s → sock_ok max own (io_heap io) fd s →
  NoDup (sock_msgs s (gone ++ q')) →
  (∀ x, x ∈ sock_msgs s (gone ++ q') ↔ own x = Some (BySocket fd)) →
  mq_rep (sk_sendmq s') q' → sk_fd s' = sk_fd s → sk_readmessage s' = sk_readmessage s →
  Forall2 (unsent h') q' ds' → heap_wf h' →
  dom (mh_msgs h') = dom (mh_msgs (io_heap io)) ∖ list_to_set gone →
  (∀ y, y ∉ gone ++ q' → mh_msgs h' !! y = mh_msgs (io_heap io) !! y) →
  io_ok mq_rep max (free_own own gone) q
    (with_sockets (<[fd := s']> (io_sockets io))
      (with_send fd k' sent (with_mq_heap (io_mq io) h' io))).
Proof.
  intros H Hs (Hv & Hfd & [p Hp] & _) Hnd Ho Hq' Efd Erm Hu Hwf Hdom Hkeep.
  pose proof Hnd as (_ & Hdis & Hnd2)%NoDup_app. pose proof Hnd2 as (_ & Hgq & Hndq)%NoDup_app.
  assert (∀ x, x ∈ gone → own x = Some (BySocket fd)) as Hgone.
  { intros x Hx. apply Ho. unfold sock_msgs. set_solver. }
  assert (∀ x o, o ≠ BySocket fd → own x = Some o → x ∉ gone ++ q') as Hother.
  { intros x o Hne Hx Hin. assert (own x = Some (BySocket fd)); [|congruence].
    apply Ho. unfold sock_msgs. set_solver. }
  assert (∀ x o, o ≠ BySocket fd → own x = Some o ↔ free_own own gone x = Some o) as Hfree.
  { intros x o Hne. unfold free_own. case_decide as Hx; [|done].
    apply Hgone in Hx. split; congruence. }
  split; simpl; [done|apply H|apply H| | | | |].
  - intros x. rewrite (ok_q _ _ _ _ _ H). by apply Hfree.
  - intros x. rewrite <- elem_of_dom, Hdom, elem_of_difference, elem_of_dom, (ok_live _ _ _ _ _ H).
    rewrite elem_of_list_to_set. unfold free_own. case_decide; [|tauto].
    split; [tauto|by intros []].
  - intros fd' t [[<- <-]|[Hne Ht]]%lookup_insert_Some.
    + split_and!; [done|congruence| |].
      * exists p. unfold partial in *. rewrite Erm, Efd. destruct (sk_readmessage s) as [x|]; [|done].
        rewrite Hkeep; [done|]. apply Hdis. by left.
      * exists q', ds'. unfold sock_msgs in *. rewrite Erm. split_and!; [done|done| |].
        -- apply NoDup_app. split_and!; [apply NoDup_option_list| |done].
           intros x Hx Hx'. apply (Hdis x Hx). set_solver.
        -- intros x. unfold free_own. case_decide as Hx.
           ++ split; [|done]. intros [Hr|Hr]%elem_of_app; exfalso; [|by apply (Hgq x)].
              apply (Hdis x Hr). set_solver.
           ++ rewrite <- Ho. set_solver.
    + assert (BySocket fd' ≠ BySocket fd) as Hne' by congruence.
      eapply sock_ok_frame; [by apply (ok_socks _ _ _ _ _ H)| |].
      * intros x. by apply Hfree.
      * intros x Hx. by eapply Hkeep, Hother.
  - intros x fd'. unfold free_own. case_decide; [done|]. intros Hx%(ok_owner _ _ _ _ _ H).
    apply lookup_insert_is_Some'. by right.
  - intros x Hx. apply Hfree in Hx; [|done].
    apply (ready_frame _ (io_heap io)); [|by apply (ok_ready _ _ _ _ _ H)].
    by apply Hkeep, (Hother x ByQueue).
Qed.

(** The state after a write on the connection, before a failed one is closed. *)
Definition write_state (io : slam_io_thread) (fd : Z)
    (r : bool * list byte * slam_socket * msg_heap * list send_event) : slam_io_thread :=
  let '(_, sent, s, h, k) := r in
  with_sockets (<[fd := s]> (io_sockets io)) (with_send fd k sent (with_mq_heap (io_mq io) h io)).

Lemma inv_poll_write max W io fd s :
  io_inv max W io → io_sockets io !! fd = Some s →
  safe (slam_socket_poll_write (S (length (io_send io fd))) s (io_heap io) (io_send io fd))
    (λ r, io_inv max W (write_state io fd r)).
Proof.
  intros (own & q & H & HW) Hs. pose proof (ok_socks _ _ _ _ _ H fd s Hs) as Hsok.
  pose proof Hsok as (Hv & Hfd & [p Hp] & sq & ds & Hsq & Hu & Hnd & Ho).
  eapply safe_mono.
  { eapply aborts_safe, (poll_write_spec _ s sq (io_heap io) ds); [apply H|done| |done|lia].
    unfold sock_msgs in Hnd. by apply NoDup_app in Hnd as (_ & _ & ?). }
  intros [[[[b sent] s'] h'] k'] (gone & q' & ds' & -> & Q & M & R & E1 & E2 & E3 & U & C & Wf & D & K & _).
  exists (free_own own gone), q. split; [by eapply inv_after_write|].
  intros x. rewrite <- HW. unfold free_own. case_decide as Hx; [|done].
  assert (own x = Some (BySocket fd)) as ->; [|done].
  apply Ho. unfold sock_msgs. set_solver.
Qed.

Lemma inv_write_socket max W io fd :
  io_inv max W io → safe (slam_io_thread_write_socket io fd) (io_inv max W).
Proof.
  intros H. unfold slam_io_thread_write_socket. destruct (VALID_SOCKET fd); [|done].
  destruct (io_sockets io !! fd) as [s|] eqn:Hs; [|done]. destruct (negb _); [|done].
  eapply safe_bind; [by eapply inv_poll_write|]. intros [[[[b sent] s'] h'] k'] Hr.
  destruct b; simpl; [done|]. eapply safe_mono; [by apply inv_remove|]. by intros io' [? _].
Qed.

(** ** Events *)
Lemma inv_do_event max W size accepts io e :
  size <= 2 ^ 31 → io_inv max W io → safe (do_event max size accepts io e) (io_inv max W).
Proof.
  intros Hsz H. unfold do_event.
  assert (safe (slam_io_thread_remove_socket io (ev_fd e)) (io_inv max W)) as Hrm.
  { eapply safe_mono; [by apply inv_remove|]. by intros io' [? _]. }
  do 3 (destruct (negb _); [done|]).
  eapply safe_bind with (P := io_inv max W).
  - destruct (negb _); [|done]. by apply inv_read_socket.
  - intros io1 H1. destruct (negb _); [|done]. by apply inv_write_socket.
Qed.

Lemma inv_do_events max W size accepts es : size <= 2 ^ 31 → ∀ io,
  io_inv max W io → safe (do_events max size accepts io es) (io_inv max W).
Proof.
  intros Hsz. induction es as [|e es IH]; intros io H; simpl; [done|].
  eapply safe_bind; [by apply inv_do_event|done].
Qed.

(** ** The worker's calls *)
Lemma inv_new_socket M max W accepts io s t :
  io_inv_with M max W io → fresh_socket s → sk_fd t = sk_fd s → fresh_socket t →
  safe ('(added, io) ← slam_io_thread_add_socket accepts io t;
        if negb added then io ← delete_socket t io; Ok (INVALID_SOCKET, io)
        else Ok (sk_fd t, io)) (λ '(_, io'), io_inv_with M max W io').
Proof.
  intros H Hf Ht Hft. eapply safe_bind; [by apply inv_add|]. intros [b io1] (H1 & _).
  destruct b; simpl; [done|].
  eapply safe_bind; [by apply returns_safe, inv_delete_fresh|]. by intros io2 (? & _).
Qed.

Lemma fresh_set_type s t : fresh_socket s → fresh_socket (set_type t s).
Proof. done. Qed.

Lemma inv_newserver M max W size accepts io fd r :
  size <= 2 ^ 31 → io_inv_with M max W io →
  safe (slam_io_newserver size accepts io fd r) (λ '(_, io'), io_inv_with M max W io').
Proof.
  intros Hsz H. unfold slam_io_newserver, slam_socket_new.
  destruct (fd =? INVALID_SOCKET); [done|].
  eapply safe_bind; [eapply safe_bind; [by apply newfd_fresh|]|].
  { intros s Hs. exact (Hs : (λ o, match o with Some s => fresh_socket s ∧ sk_fd s = fd | None => False end) (Some s)). }
  intros [s|] Hs; [|done]. destruct Hs as [Hs Hfd]. unfold slam_socket_bind.
  destruct (negb (sk_fd s =? INVALID_SOCKET)); [|done].
  assert (safe (io ← delete_socket s io; Ok (INVALID_SOCKET, io)) (λ '(_, io'), io_inv_with M max W io')) as Hdel.
  { eapply safe_bind; [by apply returns_safe, inv_delete_fresh|]. by intros io2 (? & _). }
  do 4 (destruct (negb _); [exact Hdel|]).
  destruct (sk_type s =? SOCKET_NONE); [|done]. simpl.
  by apply (inv_new_socket M max W accepts io s (set_type SOCKET_SERVER s)).
Qed.

Lemma inv_newclient M max W size accepts io fd c :
  size <= 2 ^ 31 → io_inv_with M max W io →
  safe (slam_io_newclient size accepts io fd c) (λ '(_, io'), io_inv_with M max W io').
Proof.
  intros Hsz H. unfold slam_io_newclient, slam_socket_new.
  destruct (fd =? INVALID_SOCKET); [done|].
  eapply safe_bind; [eapply safe_bind; [by apply newfd_fresh|]|].
  { intros s Hs. exact (Hs : (λ o, match o with Some s => fresh_socket s ∧ sk_fd s = fd | None => False end) (Some s)). }
  intros [s|] Hs; [|done]. destruct Hs as [Hs Hfd]. unfold slam_socket_connect.
  destruct (negb (sk_fd s =? INVALID_SOCKET)); [|done].
  assert (safe (io ← delete_socket s io; Ok (INVALID_SOCKET, io)) (λ '(_, io'), io_inv_with M max W io')) as Hdel.
  { eapply safe_bind; [by apply returns_safe, inv_delete_fresh|]. by intros io2 (? & _). }
  destruct (c <? 0); [exact Hdel|].
  destruct (sk_type s =? SOCKET_NONE); [|done]. simpl.
  by apply (inv_new_socket M max W accepts io s (set_type SOCKET_CLIENT s)).
Qed.

(** A message the worker has encoded: its buffer is complete. *)
Definition encoded (h : msg_heap) (x : loc) : Prop :=
  ∃ msg f, mh_msgs h !! x = Some msg ∧ msg_buf msg = Some <$> f ∧ msg_bufsize msg = len f ∧ 0 < len f.

(** The worker writes to a message of its own. *)
Lemma inv_write_own M max W io x msg msg' :
  io_inv_with M max W io → W x → mh_msgs (io_heap io) !! x = Some msg →
  io_inv_with M max W
    (with_mq_heap (io_mq io) (with_msgs (<[x := msg']> (mh_msgs (io_heap io))) (io_heap io)) io).
Proof.
  intros (own & q & H & HW) Hx Hm. exists own, q. split; [|done]. apply HW in Hx.
  destruct H. split; simpl; try done.
  - by eapply write_heap_wf.
  - intros y. rewrite lookup_insert_is_Some', ok_live0. split; [|by right].
    intros [<-|?]; [rewrite Hx; eauto|done].
  - intros fd s Hs. eapply sock_ok_frame; [by apply ok_socks0|done|].
    intros y Hy. simpl. rewrite lookup_insert_ne; congruence.
  - intros y Hy. apply (ready_frame _ (io_heap io)); [|by apply ok_ready0].
    simpl. rewrite lookup_insert_ne; congruence.
Qed.

Lemma socket_write_spec s sq x :
  mq_rep (sk_sendmq s) sq →
  ∃ b mq', slam_socket_write_message s x = Ok (b, set_sendmq mq' s) ∧
    b = (len sq <? mq_maxsize (sk_sendmq s) - 1) ∧ mq_rep mq' (if b then sq ++ [x] else sq) ∧
    mq_maxsize mq' = mq_maxsize (sk_sendmq s) ∧ mq_rindex mq' = mq_rindex (sk_sendmq s).
Proof.
  intros H. unfold slam_socket_write_message.
  destruct (push_rep _ _ x H) as ([b mq'] & -> & Hb & Hr & Hs). by exists b, mq'.
Qed.

(** A new send queue with the same contents, or with a message of the worker's
    behind them. *)
Lemma inv_same_sendq M max own q io fd s sq ds mq' :
  io_ok M max own q io → io_sockets io !! fd = Some s → VALID_SOCKET fd = true → sk_fd s = fd →
  (∃ p, partial max s (io_heap io) p) → Forall2 (unsent (io_heap io)) sq ds →
  NoDup (sock_msgs s sq) → (∀ x, x ∈ sock_msgs s sq ↔ own x = Some (BySocket fd)) →
  mq_rep mq' sq →
  io_ok M max own q (with_sockets (<[fd := set_sendmq mq' s]> (io_sockets io)) io).
Proof.
  intros H Hs Hv Hfd Hp Hu Hnd Ho Hr. destruct H. split; simpl; try done.
  - intros fd' t [[<- <-]|[Hne Ht]]%lookup_insert_Some; [|by apply ok_socks0].
    split_and!; [done|done|done|]. by exists sq, ds.
  - intros x fd' Hx. apply lookup_insert_is_Some'. right. by eapply ok_owner0.
Qed.

Lemma inv_queued M max own q io fd s sq ds mq' x f :
  io_ok M max own q io → io_sockets io !! fd = Some s → VALID_SOCKET fd = true → sk_fd s = fd →
  (∃ p, partial max s (io_heap io) p) → Forall2 (unsent (io_heap io)) sq ds →
  NoDup (sock_msgs s sq) → (∀ x, x ∈ sock_msgs s sq ↔ own x = Some (BySocket fd)) →
  mq_rep mq' (sq ++ [x]) → own x = Some ByWorker → unsent (io_heap io) x f →
  io_ok M max (reown own x (Some (BySocket fd))) q
    (with_sockets (<[fd := set_sendmq mq' s]> (io_sockets io)) io).
Proof.
  intros H Hs Hv Hfd Hp Hu Hnd Ho Hr Hx Hf.
  assert (x ∉ sock_msgs s sq) as Hxs by (rewrite Ho; congruence).
  assert (∀ y o, o ≠ BySocket fd → o ≠ ByWorker →
    own y = Some o ↔ reown own x (Some (BySocket fd)) y = Some o) as Hsame.
  { intros y o H1 H2. unfold reown. case_decide as Hy; [subst y|done]. split; congruence. }
  destruct H. split; simpl; try done.
  - intros y. rewrite ok_q0. by apply Hsame.
  - intros y. rewrite ok_live0. unfold reown. case_decide as Hy; [subst y|done]. rewrite Hx. done.
  - intros fd' t [[<- <-]|[Hne Ht]]%lookup_insert_Some.
    + split_and!; [done|done|done|]. exists (sq ++ [x]), (ds ++ [f]).
      unfold sock_msgs in *. simpl. rewrite app_assoc. split_and!; [done| | |].
      * apply Forall2_app; [done|]. by constructor.
      * apply NoDup_app. split_and!; [done| |apply NoDup_singleton].
        intros y Hy ->%list_elem_of_singleton. done.
      * intros y. rewrite elem_of_app, Ho, list_elem_of_singleton. unfold reown.
        case_decide as Hy; [subst y|]; naive_solver.
    + eapply sock_ok_frame; [by apply ok_socks0| |done]. intros y.
      apply Hsame; congruence.
  - intros y fd' Hy. apply lookup_insert_is_Some'. unfold reown in Hy. case_decide as Hyx.
    + left. congruence.
    + right. by eapply ok_owner0.
  - intros y Hy. apply ok_ready0. by apply Hsame in Hy.
Qed.

(** From [s] to [s'] the message [x] has been queued behind the messages [sq]. *)
Definition queued_behind (s s' : slam_socket) (sq : list loc) (x : loc) : Prop :=
  mq_rep (sk_sendmq s') (sq ++ [x]) ∧ mq_maxsize (sk_sendmq s') = mq_maxsize (sk_sendmq s) ∧
  mq_rindex (sk_sendmq s') = mq_rindex (sk_sendmq s).

(** What [slam_io_response] makes of the message [x] and the socket it is for. *)
Definition response_post (M : slam_message_queue loc → list loc → Prop) (max : Z) (W : loc → Prop)
    (io : slam_io_thread) (x : loc) (msg : slam_message) (r : bool * slam_io_thread) : Prop :=
  let '(b, io') := r in let fd := msg_fd msg in
  match io_sockets io !! fd with
  | None => b = false ∧ io' = io
  | Some s =>
      ∃ sq, mq_rep (sk_sendmq s) sq ∧
        if len sq <? mq_maxsize (sk_sendmq s) - 1 then
          io_inv_with M max (λ y, W y ∧ y ≠ x) io' ∧
          b = bool_decide (is_Some (io_poll io !! fd)) ∧
          (∃ s', io_sockets io' !! fd = Some s' ∧ queued_behind s s' sq x) ∧
          (b = true → watches (io_poll io') fd EPOLLOUT = true) ∧
          mh_msgs (io_heap io') !! x = Some (set_bytesize 0 msg)
        else b = false ∧ io_inv_with M max W io'
  end.

Lemma response_spec M max W io x msg f :
  io_inv_with M max W io → W x → mh_msgs (io_heap io) !! x = Some msg →
  msg_buf msg = Some <$> f → msg_bufsize msg = len f → 0 < len f →
  returns (slam_io_response io x) (response_post M max W io x msg).
Proof.
  intros Hinv Hx Hm Hb Hl Hf. unfold slam_io_response, response_post. rewrite Hm.
  pose proof (inv_write_own _ _ _ _ _ _ (set_bytesize 0 msg) Hinv Hx Hm) as (own & q & H & HW).
  set (h1 := with_msgs _ _) in *. set (fd := msg_fd msg) in *.
  destruct (io_sockets io !! fd) as [s|] eqn:Hs; [|destruct (negb _); by apply returns_ok].
  pose proof (ok_socks _ _ _ _ _ H fd s Hs) as (Hv & Hfd & Hp & sq & ds & Hsq & Hu & Hnd & Ho).
  rewrite Hv. simpl. rewrite (write_message_ok _ _ _ _ Hm), bind_ok.
  apply HW in Hx. destruct (socket_write_spec s sq x Hsq) as (b & mq' & -> & -> & Hr & Hsize).
  rewrite bind_ok. destruct (len sq <? _) eqn:Hroom; simpl.
  - pose proof (set_pollout_spec (io_poll io) fd) as Hpoll.
    destruct (slam_poll_set_socket_pollout _ _ _) as [b poll]. destruct Hpoll as (Hb1 & _ & Hb2 & _).
    apply returns_ok. exists sq. split; [done|]. rewrite Hroom. split_and!.
    + exists (reown own x (Some (BySocket fd))), q. split.
      * pose proof (inv_queued M max own q _ fd s sq ds mq' x f H Hs Hv Hfd Hp Hu Hnd Ho Hr Hx) as [].
        { exists (set_bytesize 0 msg), f. subst h1. simpl. by rewrite lookup_insert_eq. }
        by split.
      * intros y. rewrite <- HW. unfold reown. case_decide; naive_solver.
    + destruct b; symmetry; [by apply bool_decide_eq_true, Hb1|].
      apply bool_decide_eq_false. by intros Hn%Hb1.
    + simpl. rewrite lookup_insert_eq. by eexists.
    + simpl. intros Ht. by apply Hb2.
    + simpl. by rewrite lookup_insert_eq.
  - apply returns_ok. exists sq. split; [done|]. rewrite Hroom. split; [done|]. exists own, q.
    split; [|done].
    by pose proof (inv_same_sendq M max own q _ fd s sq ds mq' H Hs Hv Hfd Hp Hu Hnd Ho Hr).
Qed.

(** [slam_io_response] takes the message over, or leaves it to the worker. *)
Lemma inv_response M max W io x :
  io_inv_with M max W io → W x → encoded (io_heap io) x →
  safe (slam_io_response io x) (λ '(b, io'),
    (b = false ∧ io_inv_with M max W io') ∨ io_inv_with M max (λ y, W y ∧ y ≠ x) io').
Proof.
  intros Hinv Hx (msg & f & Hm & Hb & Hl & Hf). apply returns_safe.
  eapply returns_mono; [by eapply response_spec|]. intros [b io'] Hpost. unfold response_post in Hpost.
  destruct (io_sockets io !! msg_fd msg); [|left; by destruct Hpost as [-> ->]].
  destruct Hpost as (sq & _ & Hpost). destruct (len sq <? _); [right|by left]. by destruct Hpost.
Qed.

(** The worker takes the oldest message; the ring may be used up by it. *)
Lemma inv_take max W io x q own mq' :
  io_ok mq_rep max own (x :: q) io → (∀ y, own y = Some ByWorker ↔ W y) →
  slam_message_queue_pop_front (io_mq io) = Ok (Some x, mq') →
  ready max (io_heap io) x ∧ ¬ W x ∧
  io_inv_with (λ mq2 q2, mq2 = mq' ∧ q2 = q ∧ (mq_rep mq2 q2 ∨ mq_stuck mq2)) max
    (λ y, W y ∨ y = x) (with_mq_heap mq' (io_heap io) io).
Proof.
  intros H HW Hpop. destruct (pop_rep _ _ _ (ok_mq _ _ _ _ _ H)) as (mq2 & E & M & R & Hr).
  rewrite Hpop in E. injection E as <-.
  assert (own x = Some ByQueue) as Hx by (apply (ok_q _ _ _ _ _ H); by left).
  pose proof (ok_q_nodup _ _ _ _ _ H) as [Hxq Hnd]%NoDup_cons.
  pose proof (rep_rindex _ _ (ok_mq _ _ _ _ _ H)) as Hri.
  assert (∀ y fd, own y = Some (BySocket fd) ↔ reown own x (Some ByWorker) y = Some (BySocket fd)) as Hsock.
  { intros y fd. unfold reown. case_decide; naive_solver. }
  split; [by apply (ok_ready _ _ _ _ _ H)|]. split; [rewrite <- HW; congruence|].
  exists (reown own x (Some ByWorker)), q. split.
  - pose proof (ok_q _ _ _ _ _ H) as Hq. destruct H. split; simpl; try done.
    + split_and!; [done|done|].
      destruct (Z.lt_ge_cases (mq_rindex (io_mq io) + 1) (mq_maxsize (io_mq io))); [left; auto|].
      right. unfold mq_stuck. lia.
    + intros y. unfold reown. case_decide as Hy; [subst y; split; done|].
      rewrite <- Hq, elem_of_cons. naive_solver.
    + intros y. rewrite ok_live0. unfold reown. case_decide as Hy; [subst y; rewrite Hx|]; done.
    + intros fd s Hs. eapply sock_ok_frame; [by apply ok_socks0| |done]. intros y. apply Hsock.
    + intros y fd Hy%Hsock. by eapply ok_owner0.
    + intros y. unfold reown. case_decide; [done|]. apply ok_ready0.
  - intros y. rewrite <- HW. unfold reown. case_decide; naive_solver.
Qed.

(** The worker frees a message of its own. *)
Lemma inv_free M max W io x :
  io_inv_with M max W io → W x →
  returns (slam_message_delete x (io_heap io)) (λ h,
    io_inv_with M max (λ y, W y ∧ y ≠ x) (with_mq_heap (io_mq io) h io)).
Proof.
  intros (own & q & H & HW) Hx%HW. unfold slam_message_delete.
  assert (is_Some (mh_msgs (io_heap io) !! x)) as [msg ->] by (apply (ok_live _ _ _ _ _ H); rewrite Hx; eauto).
  apply returns_ok. exists (reown own x None), q. split.
  - destruct H. split; simpl; try done.
    + by apply delete_heap_wf.
    + intros y. rewrite ok_q0. unfold reown. case_decide; naive_solver.
    + intros y. rewrite lookup_delete_is_Some, ok_live0. unfold reown.
      case_decide as Hy; [subst y; split; [tauto|by intros []]|naive_solver].
    + intros fd s Hs. eapply sock_ok_frame; [by apply ok_socks0| |].
      * intros y. unfold reown. case_decide; naive_solver.
      * intros y Hy. simpl. rewrite lookup_delete_ne; congruence.
    + intros y fd. unfold reown. case_decide; [done|]. by apply ok_owner0.
    + intros y. unfold reown. case_decide; [done|]. intros Hy.
      apply (ready_frame _ (io_heap io)); [|by apply ok_ready0]. simpl. by rewrite lookup_delete_ne by done.
  - intros y. rewrite <- HW. unfold reown. case_decide; naive_solver.
Qed.

(** A block the worker has just made. *)
Lemma inv_new M max W io msg :
  io_inv_with M max W io →
  let h := io_heap io in
  let h' := {| mh_msgs := <[mh_brk h := msg]> (mh_msgs h); mh_brk := Pos.succ (mh_brk h) |} in
  io_inv_with M max (λ y, W y ∨ y = mh_brk h) (with_mq_heap (io_mq io) h' io) ∧ ¬ W (mh_brk h).
Proof.
  intros (own & q & H & HW) h h'. set (x := mh_brk h).
  assert (own x = None) as Hx.
  { pose proof (ok_live _ _ _ _ _ H x) as Hl.
    change (is_Some (mh_msgs h !! mh_brk h) ↔ is_Some (own x)) in Hl.
    rewrite (new_fresh h) in Hl by apply H. destruct (own x); [|done].
    destruct (proj2 Hl) as [? ?]; eauto. done. }
  assert (∀ y o, o ≠ ByWorker → own y = Some o ↔ reown own x (Some ByWorker) y = Some o) as Hsame.
  { intros y o Ho. unfold reown. case_decide as Hy; [subst y|done]. split; congruence. }
  split; [|rewrite <- HW; congruence].
  exists (reown own x (Some ByWorker)), q. split.
  - destruct H. split; simpl; try done.
    + intros y. simpl. intros [<-|Hy]%lookup_insert_is_Some'; [lia|]. apply ok_heap0 in Hy. fold h in Hy. lia.
    + intros y. rewrite ok_q0. by apply Hsame.
    + intros y. rewrite lookup_insert_is_Some'. subst h. rewrite ok_live0. unfold reown. fold x.
      case_decide as Hy; [subst y; split; [eauto|by left]|]. split; [by intros [?|?]; [congruence|]|by right].
    + intros fd s Hs. eapply sock_ok_frame; [by apply ok_socks0| |].
      * intros y. by apply Hsame.
      * intros y Hy. simpl. fold x. rewrite lookup_insert_ne; [done|congruence].
    + intros y fd Hy%Hsame; [|done]. by eapply ok_owner0.
    + intros y Hy%Hsame; [|done]. apply (ready_frame _ (io_heap io)); [|by apply ok_ready0].
      simpl. fold x. rewrite lookup_insert_ne; [done|congruence].
  - intros y. rewrite <- HW. unfold reown. fold x. case_decide; naive_solver.
Qed.

(** ** The properties *)


(** Removing a socket closes its descriptor, stops the watch, frees
    every message the socket owned and no other, and tells the worker the
    connection is lost, unless the queue to it is full. *)
Lemma slam_io_thread_remove_socket_releases max own q io fd s :
  io_ok mq_rep max own q io → io_sockets io !! fd = Some s →
  safe (slam_io_thread_remove_socket io fd) (λ io',
    io_sockets io' = delete fd (io_sockets io) ∧ io_closed io' = io_closed io ++ [fd] ∧
    io_poll io' = delete fd (io_poll io) ∧ io_wire io' = io_wire io ∧ io_recv io' = io_recv io ∧
    (∀ x, own x = Some (BySocket fd) → mh_msgs (io_heap io') !! x = None) ∧
    (∀ x o, own x = Some o → o ≠ BySocket fd → mh_msgs (io_heap io') !! x = mh_msgs (io_heap io) !! x) ∧
    if len q <? mq_maxsize (io_mq io) - 1
    then ∃ x msg, mq_rep (io_mq io') (q ++ [x]) ∧ mh_msgs (io_heap io') !! x = Some msg ∧
           msg_fd msg = fd ∧ msg_type msg = MESSAGE_TYPE_LOST_CONNECTION
    else mq_rep (io_mq io') q).
Proof.
  intros H Hs. unfold slam_io_thread_remove_socket.
  pose proof (ok_socks _ _ _ _ _ H fd s Hs) as (-> & Hfd & [p Hp] & sq & ds & Hq & Hu & Hnd & Ho).
  rewrite Hs. pose proof (remove_socket_spec (io_poll io) fd) as Hpoll.
  destruct (slam_poll_remove_socket _ _) as [b poll]. simpl in Hpoll. subst poll. unfold delete_socket. simpl.
  assert (safe (slam_socket_delete s (io_heap io)) (λ h', heap_wf h' ∧
    ∀ y, mh_msgs h' !! y = if decide (y ∈ sock_msgs s sq) then None else mh_msgs (io_heap io) !! y)) as Hdel.
  { eapply aborts_safe, (slam_socket_delete_ok max s _ p sq); try done; [apply H|].
    intros x Hx%Ho. apply (ok_live _ _ _ _ _ H). rewrite Hx. eauto. }
  destruct (slam_socket_delete s (io_heap io)) as [h'| | |] eqn:E; [simpl|done..].
  destruct Hdel as [Hwf H']. apply slam_socket_delete_brk in E.
  assert (own (mh_brk h') = None) as Hbrk.
  { apply eq_None_not_Some. rewrite E, <- (ok_live _ _ _ _ _ H), new_fresh by apply H. by intros []. }
  assert (∀ x, own x = Some (BySocket fd) → mh_msgs h' !! x = None) as Hgone.
  { intros x Hx%Ho. by rewrite H', decide_True. }
  assert (∀ x o, own x = Some o → o ≠ BySocket fd → mh_msgs h' !! x = mh_msgs (io_heap io) !! x) as Hkeep.
  { intros x o Hx Hne. rewrite H', decide_False; [done|]. intros Hx'%Ho. congruence. }
  unfold slam_io_thread_lost_connection_event, post_event, slam_message_new. simpl.
  destruct (push_rep _ _ (mh_brk h') (ok_mq _ _ _ _ _ H)) as ([b2 mq'] & -> & -> & Hq' & _).
  rewrite bind_ok. rewrite Hfd. destruct (len q <? _); simpl.
  - split_and!; [done|done|by rewrite delete_delete_eq|done|done| | |].
    + intros x Hx. rewrite lookup_insert_ne; [by apply Hgone|congruence].
    + intros x o Hx Hne. rewrite lookup_insert_ne; [by eapply Hkeep|congruence].
    + eexists _, _. split; [done|]. by rewrite lookup_insert_eq.
  - unfold slam_message_delete. simpl. rewrite lookup_insert_eq. simpl.
    rewrite delete_insert_id by by apply new_fresh.
    split_and!; [done|done|by rewrite delete_delete_eq|done..].
Qed.

(** A response to a connected socket with room in its send queue
    goes there, behind the messages queued before, and the socket is watched for
    output if the poll knows it; in every other case the message stays with the
    worker and the socket's queue is as it was.  No other message changes
    hands. *)
Lemma slam_io_response_transfers max W io x msg f :
  io_inv max W io → W x → mh_msgs (io_heap io) !! x = Some msg →
  msg_buf msg = Some <$> f → msg_bufsize msg = len f → 0 < len f →
  returns (slam_io_response io x) (λ '(b, io'),
    match io_sockets io !! msg_fd msg with
    | None => b = false ∧ io' = io
    | Some s =>
        ∃ sq, mq_rep (sk_sendmq s) sq ∧
          if len sq <? mq_maxsize (sk_sendmq s) - 1 then
            io_inv max (λ y, W y ∧ y ≠ x) io' ∧
            b = bool_decide (is_Some (io_poll io !! msg_fd msg)) ∧
            (∃ s', io_sockets io' !! msg_fd msg = Some s' ∧ queued_behind s s' sq x) ∧
            (b = true → watches (io_poll io') (msg_fd msg) EPOLLOUT = true) ∧
            mh_msgs (io_heap io') !! x = Some (set_bytesize 0 msg)
          else b = false ∧ io_inv max W io'
    end).
Proof. intros Hinv Hx Hm Hb Hl Hf. by apply (response_spec mq_rep max W io x msg f). Qed.

(** ** A concrete state: one connection with two messages to send, and a third
    message in the worker's hands. *)
Module IoDemo.
Definition heap : msg_heap :=
  {| mh_msgs := <[3%positive := Demo.message Demo.frame1]> (mh_msgs Demo.heap); mh_brk := 4 |}.

Definition io : slam_io_thread :=
  {| io_mq := Demo.queue; io_poll := {[5 := 1]}; io_sockets := {[5 := Demo.writer]}; io_heap := heap;
     io_recv := λ _, [RFail EAGAIN; Eof]; io_send := λ _, [Room 30; SFail EAGAIN];
     io_accept := λ _, []; io_wire := λ _, []; io_closed := [] |}.

Definition own (x : loc) : option owner :=
  if decide (x ∈ [1; 2]%positive) then Some (BySocket 5)
  else if decide (x = 3%positive) then Some ByWorker else None.

Lemma own_worker x : own x = Some ByWorker ↔ x = 3%positive.
Proof.
  unfold own. split; [repeat case_decide; by intros|]. intros ->. by rewrite decide_False by set_solver.
Qed.

Lemma own_socket x fd : own x = Some (BySocket fd) ↔ fd = 5 ∧ x ∈ [1; 2]%positive.
Proof. unfold own. repeat case_decide; naive_solver. Qed.

Lemma unsent_in_heap : Forall2 (unsent heap) [1; 2]%positive [Demo.frame1; Demo.frame2].
Proof.
  eapply unsent_pending_frame; [|exact Demo.unsent_frames]. intros x Hx. simpl.
  rewrite lookup_insert_ne; [done|set_solver].
Qed.

Lemma io_is_ok : io_ok mq_rep 64 own [] io.
Proof.
  split; simpl.
  - intros x. simpl. intros [<-|Hx%Demo.heap_ok]%lookup_insert_is_Some'; simpl in *; lia.
  - apply Demo.queue_rep.
  - constructor.
  - intros x. unfold own. split; [by intros ?%elem_of_nil|]. repeat case_decide; by intros.
  - intros x. unfold own. rewrite !lookup_insert_is_Some', lookup_empty.
    repeat case_decide; split; eauto; naive_solver set_solver.
  - intros fd s. rewrite lookup_singleton_Some. intros [<- <-]. split_and!; [done|done|by exists []|].
    exists [1; 2]%positive, [Demo.frame1; Demo.frame2].
    split_and!; [apply Demo.writer_rep|apply unsent_in_heap|by repeat constructor; set_solver|].
    intros x. rewrite own_socket. naive_solver.
  - intros x fd [-> _]%own_socket. rewrite lookup_singleton_eq. eauto.
  - intros x. unfold own. repeat case_decide; by intros.
Qed.

Lemma io_inv_holds : io_inv 64 (λ x, x = 3%positive) io.
Proof. exists own, []. split; [apply io_is_ok|apply own_worker]. Qed.

(** Readable (the peer has closed), then writable. *)
Definition events : list slam_poll_event :=
  [{| ev_events := EPOLLOUT; ev_fd := 5 |}; {| ev_events := EPOLLIN; ev_fd := 5 |};
   {| ev_events := EPOLLIN; ev_fd := 5 |}; {| ev_events := EPOLLHUP; ev_fd := 5 |}].
End IoDemo.


(** What the run leaves: the first message has been sent, then the connection
    was lost and the second one freed. *)
Example demo_run :
  match slam_io_thread_run 64 4 (λ _, true) [(false, false, IoDemo.events)] IoDemo.io with
  | Ok io => (size (io_sockets io), io_closed io, len (io_wire io 5), slam_message_queue_number (io_mq io))
             = (0%nat, [5], 20, Ok 1)
  | _ => False
  end.
Proof. vm_compute. reflexivity. Qed.

Lemma slam_io_thread_remove_socket_releases_witness :
  safe (slam_io_thread_remove_socket IoDemo.io 5) (λ io', io_sockets io' = delete 5 {[5 := Demo.writer]} ∧
    io_closed io' = [5]).
Proof.
  eapply safe_mono.
  - apply (slam_io_thread_remove_socket_releases 64 IoDemo.own [] IoDemo.io 5 Demo.writer);
      [apply IoDemo.io_is_ok|reflexivity].
  - intros io' (H1 & H2 & _). by split.
Defined.

Lemma slam_io_response_transfers_witness :
  returns (slam_io_response IoDemo.io 3) (λ '(b, io'), b = true ∧
    io_inv 64 (λ y, y = 3%positive ∧ y ≠ 3%positive) io').
Proof.
  eapply returns_mono.
  - apply (slam_io_response_transfers 64 (λ x, x = 3%positive) IoDemo.io 3
      (Demo.message Demo.frame1) Demo.frame1); [apply IoDemo.io_inv_holds|reflexivity..].
  - intros [b io'] (sq & Hsq & Hr). rewrite (rep_unique _ _ _ Hsq Demo.writer_rep) in Hr.
    destruct Hr as (H1 & H2 & _). by split.
Defined.
