(* ===== verification/Connection.v ===== *)
(** * What the I/O thread does to a connection

    The bytes of one connection, on their way out from the worker's responses to
    the wire, and on their way in from the network to the packages in the worker's
    queue.  Every operation of the I/O thread, on whatever descriptor, either
    closes the connection or moves its bytes along: none is lost, added, repeated
    or moved past another, and output that is waiting stays watched. *)

From S2P Require Import Prelude MessageQueue Message Socket Framing Poll IoThread IoOwnership.

(** ** What a connection carries *)

(** The bytes of a message, if it is a package of the connection [fd]. *)
Definition message_bytes (fd : Z) (msg : slam_message) : list byte :=
  if (msg_fd msg =? fd) && (msg_type msg =? MESSAGE_TYPE_PROTOBUF_PACKAGE)
  then omap id (msg_buf msg) else [].

Definition package_bytes (fd : Z) (h : msg_heap) (x : loc) : list byte :=
  match mh_msgs h !! x with Some msg => message_bytes fd msg | None => [] end.

(** The bytes of its packages among the messages [q]. *)
Definition inbound (fd : Z) (h : msg_heap) (q : list loc) : list byte := concat (package_bytes fd h <$> q).

(** The connection [fd]: its socket [s] has the messages [sq] to send, with the
    bytes [ds] of each still to go, and has read the bytes [p] of a package; [q]
    are the messages waiting for the worker.  Its input is watched, and its output
    when there is any. *)
Record connected (max fd : Z) (s : slam_socket) (sq : list loc) (ds : list (list byte)) (p : list byte)
    (q : list loc) (io : slam_io_thread) : Prop := {
  cn_socket : io_sockets io !! fd = Some s;
  cn_type : sk_type s ≠ SOCKET_SERVER;
  cn_sendq : mq_rep (sk_sendmq s) sq;
  cn_unsent : Forall2 (unsent (io_heap io)) sq ds;
  cn_partial : partial max s (io_heap io) p;
  cn_queue : mq_rep (io_mq io) q;
  cn_input : watches (io_poll io) fd EPOLLIN = true;
  cn_output : sq ≠ [] → watches (io_poll io) fd EPOLLOUT = true;
}.

(** [out]: what has been sent and what is to be sent; [inn]: what is waiting for
    the worker, what is in its socket and what has arrived. *)
Definition carries (max fd : Z) (out inn : list byte) (io : slam_io_thread) : Prop :=
  ∃ s sq ds p q, connected max fd s sq ds p q io ∧ io_wire io fd ++ concat ds = out ∧
    inbound fd (io_heap io) q ++ p ++ stream (io_recv io fd) = inn.

(** From [io] to [io'] descriptors are closed at most, [fd] among them. *)
Definition closes (io io' : slam_io_thread) : Prop := ∃ cs, io_closed io' = io_closed io ++ cs.
Definition closes_it (fd : Z) (io io' : slam_io_thread) : Prop :=
  ∃ cs, io_closed io' = io_closed io ++ cs ∧ fd ∈ cs.

(** From [io] to [io'] the connection is closed, or carries what it carried. *)
Definition follows (max fd : Z) (io io' : slam_io_thread) : Prop :=
  closes io io' ∧ ∀ out inn, carries max fd out inn io → closes_it fd io io' ∨ carries max fd out inn io'.

(** ** Composing *)
Section following.
Context (max fd : Z).
Implicit Types (io : slam_io_thread).

Lemma closes_none io io' : io_closed io' = io_closed io → closes io io'.
Proof. intros E. exists []. by rewrite E, app_nil_r. Qed.

Lemma closes_trans io1 io2 io3 : closes io1 io2 → closes io2 io3 → closes io1 io3.
Proof. intros [c1 E1] [c2 E2]. exists (c1 ++ c2). by rewrite E2, E1, app_assoc. Qed.

Lemma closes_it_l io1 io2 io3 : closes_it fd io1 io2 → closes io2 io3 → closes_it fd io1 io3.
Proof. intros (c1 & E1 & ?) [c2 E2]. exists (c1 ++ c2). rewrite E2, E1, app_assoc. split; [done|set_solver]. Qed.

Lemma closes_it_r io1 io2 io3 : closes io1 io2 → closes_it fd io2 io3 → closes_it fd io1 io3.
Proof. intros [c1 E1] (c2 & E2 & ?). exists (c1 ++ c2). rewrite E2, E1, app_assoc. split; [done|set_solver]. Qed.

Lemma follows_refl io : follows max fd io io.
Proof. split; [by apply closes_none|]. intros. by right. Qed.

Lemma follows_trans io1 io2 io3 : follows max fd io1 io2 → follows max fd io2 io3 → follows max fd io1 io3.
Proof.
  intros [C1 F1] [C2 F2]. split; [by eapply closes_trans|]. intros out inn H.
  destruct (F1 out inn H) as [Hc|H1]; [left; by eapply closes_it_l|].
  destruct (F2 out inn H1) as [Hc|H2]; [left; by eapply closes_it_r|by right].
Qed.

Lemma follows_closed io io' : closes_it fd io io' → follows max fd io io'.
Proof. intros H. split; [destruct H as (cs & E & _); by exists cs|]. intros. by left. Qed.

(** There is no such connection. *)
Lemma follows_none io io' : io_sockets io !! fd = None → closes io io' → follows max fd io io'.
Proof. intros Hn Hc. split; [done|]. intros out inn (s & sq & ds & p & q & [Hcs _ _ _ _ _ _ _] & _). congruence. Qed.

Lemma inbound_app h q1 q2 : inbound fd h (q1 ++ q2) = inbound fd h q1 ++ inbound fd h q2.
Proof. unfold inbound. by rewrite fmap_app, concat_app. Qed.

Lemma inbound_frame h h' q :
  (∀ x, x ∈ q → mh_msgs h' !! x = mh_msgs h !! x) → inbound fd h' q = inbound fd h q.
Proof.
  intros H. unfold inbound. f_equal. apply list_fmap_ext. intros i x Hx%list_elem_of_lookup_2.
  unfold package_bytes. by rewrite (H x Hx).
Qed.

(** Messages of other connections, and events. *)
Lemma inbound_foreign h q :
  (∀ x, x ∈ q → ∃ msg, mh_msgs h !! x = Some msg ∧
     (msg_fd msg ≠ fd ∨ msg_type msg ≠ MESSAGE_TYPE_PROTOBUF_PACKAGE)) → inbound fd h q = [].
Proof.
  intros H. induction q as [|x q IH]; [done|]. change (package_bytes fd h x ++ inbound fd h q = []).
  rewrite IH by (intros; apply H; by right). destruct (H x ltac:(by left)) as (msg & E & Hne).
  unfold package_bytes, message_bytes. rewrite E, app_nil_r. destruct Hne as [Hne|Hne].
  - by rewrite (proj2 (Z.eqb_neq _ _) Hne).
  - by rewrite (proj2 (Z.eqb_neq _ _) Hne), andb_false_r.
Qed.

(** A socket whose messages are as they were. *)
Lemma socket_frame s sq ds p h h' :
  (∀ x, x ∈ sock_msgs s sq → mh_msgs h' !! x = mh_msgs h !! x) →
  Forall2 (unsent h) sq ds → partial max s h p → Forall2 (unsent h') sq ds ∧ partial max s h' p.
Proof.
  unfold sock_msgs. intros H Hu Hp. split.
  - eapply unsent_pending_frame; [|done]. intros x Hx. apply H. set_solver.
  - eapply partial_frame; [|done]. intros x Hx%elem_option_list. apply H. set_solver.
Qed.

(** The messages of a connection belong to its socket. *)
Lemma connected_owned own io s sq ds p q q0 :
  io_ok mq_rep max own q io → connected max fd s sq ds p q0 io →
  q0 = q ∧ NoDup (sock_msgs s sq) ∧ ∀ x, x ∈ sock_msgs s sq ↔ own x = Some (BySocket fd).
Proof.
  intros H [Hcs _ Hcq _ _ Hcm _ _]. split; [exact (rep_unique _ _ _ Hcm (ok_mq _ _ _ _ _ H))|].
  pose proof (ok_socks _ _ _ _ _ H fd s Hcs) as (_ & _ & _ & sq' & _ & Hsq & _ & Hnd & Hown).
  by rewrite (rep_unique _ _ _ Hsq Hcq) in Hnd, Hown.
Qed.

(** What does not touch the connection, its messages or those in the queue. *)
Lemma carries_frame own q io io' locs out inn :
  io_ok mq_rep max own q io → io_sockets io' !! fd = io_sockets io !! fd →
  io_wire io' fd = io_wire io fd → io_recv io' fd = io_recv io fd → io_poll io' !! fd = io_poll io !! fd →
  mq_rep (io_mq io') (q ++ locs) → inbound fd (io_heap io') locs = [] →
  (∀ x, own x = Some (BySocket fd) ∨ own x = Some ByQueue →
     mh_msgs (io_heap io') !! x = mh_msgs (io_heap io) !! x) →
  carries max fd out inn io → carries max fd out inn io'.
Proof.
  intros H Es Ew Er Ep Hq Hl Hk (s & sq & ds & p & q0 & Hc & Ho & Hi).
  destruct (connected_owned _ _ _ _ _ _ _ _ H Hc) as (-> & _ & Hown).
  destruct Hc as [Hcs Hct Hcq Hcu Hcp _ Hci Hco].
  destruct (socket_frame s sq ds p (io_heap io) (io_heap io')) as [Hu Hp]; [|done|done|].
  { intros x Hx%Hown. apply Hk. by left. }
  exists s, sq, ds, p, (q ++ locs). split_and!.
  - split; unfold watches; rewrite ?Es, ?Ep; done.
  - by rewrite Ew.
  - rewrite inbound_app, Hl, app_nil_r, Er, <- Hi. f_equal. apply inbound_frame.
    intros x Hx%(ok_q _ _ _ _ _ H). apply Hk. by right.
Qed.

Lemma follows_frame own q io io' locs :
  io_ok mq_rep max own q io → closes io io' → io_sockets io' !! fd = io_sockets io !! fd →
  io_wire io' fd = io_wire io fd → io_recv io' fd = io_recv io fd → io_poll io' !! fd = io_poll io !! fd →
  mq_rep (io_mq io') (q ++ locs) → inbound fd (io_heap io') locs = [] →
  (∀ x, own x = Some (BySocket fd) ∨ own x = Some ByQueue →
     mh_msgs (io_heap io') !! x = mh_msgs (io_heap io) !! x) →
  follows max fd io io'.
Proof. intros. split; [done|]. intros out inn Hc. right. by eapply carries_frame. Qed.
End following.

(** ** The operations of the I/O thread *)
Section operations.
Context (max fd : Z) (accepts : Z → bool).
Implicit Types (io : slam_io_thread).

(** An event for the worker. *)
Lemma post_event_spec io fd' type q :
  heap_wf (io_heap io) → mq_rep (io_mq io) q →
  returns (post_event io fd' type) (λ '(_, io'), ∃ mq h locs, io' = with_mq_heap mq h io ∧
    mq_rep mq (q ++ locs) ∧ (∀ x, is_Some (mh_msgs (io_heap io) !! x) → mh_msgs h !! x = mh_msgs (io_heap io) !! x) ∧
    ∀ x, x ∈ locs → ∃ msg, mh_msgs h !! x = Some msg ∧ msg_type msg = type).
Proof.
  intros Hwf Hq. unfold post_event, slam_message_new. pose proof (new_fresh _ Hwf) as Hx.
  set (x := mh_brk (io_heap io)) in *. set (msg := {| msg_fd := fd' |}).
  eapply returns_bind; [by apply push_rep|]. intros [b mq] (-> & Hq' & _).
  destruct (len q <? _); simpl; [|unfold slam_message_delete; simpl; rewrite lookup_insert_eq];
    apply returns_ok; eexists _, _.
  - exists [x]. split_and!; [done|done| |].
    + intros y [m Hy]. simpl. rewrite lookup_insert_ne; [done|congruence].
    + intros y ->%list_elem_of_singleton. exists msg. simpl. by rewrite lookup_insert_eq.
  - exists []. rewrite app_nil_r. split_and!; [done|done| |by intros y ?%elem_of_nil].
    intros y _. simpl. by rewrite delete_insert_id.
Qed.

Lemma follows_post W io fd' type :
  io_inv max W io → type ≠ MESSAGE_TYPE_PROTOBUF_PACKAGE →
  safe (post_event io fd' type) (λ r, follows max fd io r.2).
Proof.
  intros (own & q & H & _) Ht. apply returns_safe.
  eapply returns_mono; [by apply (post_event_spec _ _ _ q); destruct H|].
  intros [b io'] (mq & h & locs & -> & Hq & Hk & Hl). simpl.
  apply (follows_frame max fd own q io _ locs); try done; [by apply closes_none| |].
  - apply inbound_foreign. intros x Hx. destruct (Hl x Hx) as (msg & E & <-). exists msg. auto.
  - intros x Hx. apply Hk, (ok_live _ _ _ _ _ H). destruct Hx as [-> | ->]; eauto.
Qed.

Lemma follows_remove W io fd' :
  io_inv max W io → safe (slam_io_thread_remove_socket io fd') (follows max fd io).
Proof.
  intros (own & q & H & _). destruct (io_sockets io !! fd') as [s|] eqn:Hs; last first.
  { unfold slam_io_thread_remove_socket. destruct (VALID_SOCKET fd'); [|done]. rewrite Hs. apply follows_refl. }
  eapply safe_mono; [by eapply slam_io_thread_remove_socket_releases|].
  intros io' (Es & Ec & Ep & Ew & Er & _ & Hk & Hq).
  destruct (decide (fd' = fd)) as [->|Hne]; [apply follows_closed; exists [fd]; split; [done|by left]|].
  assert (∃ locs, mq_rep (io_mq io') (q ++ locs) ∧ inbound fd (io_heap io') locs = []) as (locs & Hq' & Hl).
  { destruct (len q <? _).
    - destruct Hq as (x & msg & Hq & Hx & _ & Ht). exists [x]. split; [done|]. apply inbound_foreign.
      intros y ->%list_elem_of_singleton. exists msg. rewrite Ht. by split; [|right].
    - exists []. by rewrite app_nil_r. }
  apply (follows_frame max fd own q io io' locs); try done.
  - by exists [fd'].
  - by rewrite Es, lookup_delete_ne.
  - by rewrite Ew.
  - by rewrite Er.
  - by rewrite Ep, lookup_delete_ne.
  - intros x [Hx|Hx]; eapply Hk; try done. congruence.
Qed.

(** The connection is not touched by what happens to the table's other entries
    and to the poll. *)
Lemma follows_close W io fds :
  io_inv max W io → follows max fd io (foldl (λ io fd, close_fd fd io) io fds).
Proof.
  revert io. induction fds as [|fd' fds IH]; intros io H; simpl; [apply follows_refl|].
  eapply follows_trans; [|apply IH; by eapply inv_irrelevant].
  destruct (decide (fd' = fd)) as [->|Hne]; [apply follows_closed; exists [fd]; split; [done|by left]|].
  destruct H as (own & q & H & _). apply (follows_frame max fd own q io _ []); try done.
  - by exists [fd'].
  - simpl. by rewrite lookup_delete_ne.
  - rewrite app_nil_r. apply H.
Qed.

Lemma follows_delete_fresh W io s :
  io_inv max W io → fresh_socket s → safe (delete_socket s io) (follows max fd io).
Proof.
  intros (own & q & H & _) (Hr & Hq & Hi). unfold delete_socket. simpl.
  eapply safe_bind.
  { eapply aborts_safe, (slam_socket_delete_ok max s _ [] []); try done.
    - unfold partial. by rewrite Hr.
    - unfold sock_msgs. rewrite Hr. constructor.
    - apply H.
    - unfold sock_msgs. rewrite Hr. by intros x ?%elem_of_nil. }
  intros h' [Hwf H']. simpl.
  destruct (decide (sk_fd s = fd)) as [E|Hne]; [apply follows_closed; exists [sk_fd s]; rewrite E; split; [by rewrite <- E|by left]|].
  apply (follows_frame max fd own q io _ []); try done; simpl.
  - by exists [sk_fd s].
  - by rewrite lookup_delete_ne.
  - rewrite app_nil_r. apply H.
  - intros x _. rewrite H', decide_False; [done|]. unfold sock_msgs. rewrite Hr. by intros ?%elem_of_nil.
Qed.

Lemma follows_add W io s :
  io_inv max W io → safe (slam_io_thread_add_socket accepts io s) (λ r, follows max fd io r.2).
Proof.
  intros (own & q & H & _). unfold slam_io_thread_add_socket. destruct (VALID_SOCKET _); [|done].
  destruct (io_sockets io !! sk_fd s) eqn:Hs; [done|].
  pose proof (add_socket_spec (io_poll io) (sk_fd s) (accepts (sk_fd s))) as Hp.
  destruct (slam_poll_add_socket _ _ _) as [b poll]. destruct Hp as (_ & Hp & _ & Hne).
  destruct (decide (sk_fd s = fd)) as [<-|Hfd].
  { destruct b; simpl; (apply follows_none; [done|by apply closes_none]). }
  assert (mq_rep (io_mq io) (q ++ [])) as Hq by (rewrite app_nil_r; apply H).
  destruct b; simpl; apply (follows_frame max fd own q io _ []); try done; try by apply closes_none.
  - simpl. by rewrite lookup_insert_ne.
  - by apply Hne.
  - by apply Hne.
Qed.

(** With the invariant, so that one operation follows another. *)
Definition keeps W io io' : Prop := io_inv max W io' ∧ follows max fd io io'.

Lemma keeps_refl W io : io_inv max W io → keeps W io io.
Proof. intros H. split; [done|apply follows_refl]. Qed.

Lemma keeps_trans W io1 io2 io3 : keeps W io1 io2 → keeps W io2 io3 → keeps W io1 io3.
Proof. intros [_ F1] [H2 F2]. split; [done|by eapply follows_trans]. Qed.

Lemma keeps_bind {A B} W io (m : outcome A) (f : A → outcome B) (g : A → slam_io_thread) (g' : B → slam_io_thread) :
  safe m (λ a, keeps W io (g a)) → (∀ a, io_inv max W (g a) → safe (f a) (λ b, keeps W (g a) (g' b))) →
  safe (m ≫= f) (λ b, keeps W io (g' b)).
Proof.
  intros Hm Hf. eapply safe_bind; [exact Hm|]. intros a Ha. eapply safe_mono; [apply Hf, Ha|].
  intros b. by apply keeps_trans.
Qed.

Lemma keeps_remove W io fd' : io_inv max W io → safe (slam_io_thread_remove_socket io fd') (keeps W io).
Proof.
  intros H. eapply safe_both; [|by eapply follows_remove].
  eapply safe_mono; [by apply inv_remove|]. by intros io' [? _].
Qed.

Lemma keeps_post W io fd' type :
  io_inv max W io → type ≠ MESSAGE_TYPE_PROTOBUF_PACKAGE →
  safe (post_event io fd' type) (λ r, keeps W io r.2).
Proof.
  intros H Ht. eapply safe_both; [|by eapply follows_post].
  eapply safe_mono; [by apply inv_post|]. by intros [b io'] [? _].
Qed.

Lemma keeps_delete_fresh W io s :
  io_inv max W io → fresh_socket s → safe (delete_socket s io) (keeps W io).
Proof.
  intros H Hs. eapply safe_both; [|by eapply follows_delete_fresh].
  eapply returns_safe, returns_mono; [by apply inv_delete_fresh|]. by intros io' [? _].
Qed.

Lemma keeps_add W io s :
  io_inv max W io → fresh_socket s → safe (slam_io_thread_add_socket accepts io s) (λ r, keeps W io r.2).
Proof.
  intros H Hs. eapply safe_both; [|by eapply follows_add].
  eapply safe_mono; [by apply inv_add|]. by intros [b io'] [? _].
Qed.

(** A change of what the network will do on other descriptors, or of what there
    is to accept. *)
Lemma keeps_network W io io' :
  io_inv max W io → io_mq io' = io_mq io → io_sockets io' = io_sockets io → io_heap io' = io_heap io →
  io_poll io' = io_poll io → io_wire io' fd = io_wire io fd → io_closed io' = io_closed io →
  io_recv io' fd = io_recv io fd → keeps W io io'.
Proof.
  intros H E1 E2 E3 E4 E5 E6 E7. split; [by eapply inv_irrelevant|]. destruct H as (own & q & H & _).
  apply (follows_frame max fd own q io io' []); rewrite ?E1, ?E2, ?E3, ?E4, ?E5, ?app_nil_r; try done.
  - by apply closes_none.
  - apply H.
Qed.

Context (size : Z) (Hsize : size <= 2 ^ 31).

Lemma keeps_accept_loop W fuel fd' : ∀ io,
  io_inv max W io → (length (io_accept io fd') < fuel)%nat → safe (accept_loop size accepts fuel fd' io) (keeps W io).
Proof.
  induction fuel as [|fuel IH]; intros io H Hf; [lia|]. simpl.
  eapply safe_bind; [by apply slam_socket_accept_ok|]. intros [[s closed] k] Hk.
  assert (keeps W io (with_accept fd' k io)) as K1 by by apply keeps_network.
  destruct (inv_close_all mq_rep max W closed (with_accept fd' k io) (proj1 K1)) as [H2 E2].
  assert (keeps W io (foldl (λ io fd, close_fd fd io) (with_accept fd' k io) closed)) as K2.
  { eapply keeps_trans; [exact K1|]. split; [done|]. eapply follows_close, K1. }
  destruct s as [s|]; [|done]. destruct Hk as [Hfr Hk]. set (io1 := foldl _ _ _) in *.
  eapply safe_mono; [|intros io'; by apply keeps_trans].
  eapply safe_bind; [eapply safe_both; [by apply keeps_add|by apply inv_add]|].
  intros [b io2] [K3 (_ & E3 & _)]. simpl in K3.
  assert (io_accept io2 fd' = k) as Ek.
  { rewrite E3, E2. simpl. unfold update. by rewrite Z.eqb_refl. }
  eapply safe_mono; [|intros io'; by apply keeps_trans].
  eapply safe_bind with (P := λ io3, keeps W io2 io3 ∧ io_accept io3 = io_accept io2).
  - destruct b; simpl.
    + eapply safe_bind; [eapply safe_both; [apply keeps_post; [apply K3|done]|apply inv_post; [done|apply K3]]|].
      intros [b io3] [K4 (_ & _ & E4 & _)]. by split.
    + eapply safe_both; [apply keeps_delete_fresh; [apply K3|done]|].
      eapply returns_safe, returns_mono; [eapply inv_delete_fresh; [apply K3|done]|]. by intros io3 (_ & _ & ?).
  - intros io3 [K4 E4]. eapply safe_mono; [apply IH; [apply K4|rewrite E4, Ek; lia]|].
    intros io'. by apply keeps_trans.
Qed.
End operations.

(** ** Reading and writing a connection *)
Section transfer.
Context (max fd : Z).
Implicit Types (io : slam_io_thread).

Lemma complete_bytes fd' h x f :
  complete max fd' h x f → package_bytes fd h x = if fd' =? fd then f else [].
Proof.
  intros (msg & E & [Hfd Hty _ _ _ (junk & Hb & Hl)] & Hsz). unfold package_bytes, message_bytes.
  rewrite E, Hfd, Hty. destruct (fd' =? fd); [simpl|done].
  assert (junk = []) as -> by (rewrite Hsz, Hb in Hl; destruct junk; [done|len]).
  rewrite Hb, app_nil_r. clear. induction f as [|b f IH]; [done|]. csimpl. by rewrite IH.
Qed.

Lemma inbound_complete fd' h xs fs :
  Forall2 (complete max fd' h) xs fs → inbound fd h xs = if fd' =? fd then concat fs else [].
Proof.
  induction 1 as [|x f xs fs Hx _ IH]; [by destruct (fd' =? fd)|].
  change (package_bytes fd h x ++ inbound fd h xs = if fd' =? fd then f ++ concat fs else []).
  rewrite IH, (complete_bytes _ _ _ _ Hx). by destruct (fd' =? fd).
Qed.

Lemma partial_unique s h p1 p2 : partial max s h p1 → partial max s h p2 → p1 = p2.
Proof.
  unfold partial. destruct (sk_readmessage s) as [x|]; [|by intros -> ->].
  intros (msg & E & [_ _ L1 _ _ (j1 & B1 & _)]) (msg2 & E2 & [_ _ L2 _ _ (j2 & B2 & _)]).
  rewrite E in E2. injection E2 as <-. rewrite B1 in B2. apply (inj (fmap (M:=list) Some)).
  apply app_inj_1 in B2 as [B _]; [done|]. rewrite !length_fmap. unfold len in *. lia.
Qed.

(** A read of another connection. *)
Lemma follows_read_other W io fd' s :
  io_inv max W io → io_sockets io !! fd' = Some s → fd' ≠ fd →
  returns (slam_socket_poll_read max (read_fuel (io_recv io fd')) s (io_mq io) (io_heap io) (io_recv io fd'))
    (λ r, follows max fd io (read_state io fd' r)).
Proof.
  intros (own & q & H & _) Hs Hne.
  pose proof (ok_socks _ _ _ _ _ H fd' s Hs) as (_ & Hfd & [p Hp] & sq & _ & _ & _ & _ & Ho).
  eapply returns_mono; [apply slam_socket_poll_read_spec; [apply H|exact Hp|apply H|apply read_fuel_enough]|].
  intros [[[[b s'] mq'] h'] k'] (locs & fs & k1 & p' & [_ _ Q F _ E _ _ _] & _).
  apply (follows_frame max fd own q io _ locs); simpl; try done.
  - by apply closes_none.
  - by rewrite lookup_insert_ne.
  - unfold update. by rewrite (proj2 (Z.eqb_neq _ _)).
  - simpl. rewrite (inbound_complete _ _ _ _ F), Hfd. by rewrite (proj2 (Z.eqb_neq _ _)).
  - destruct E as (_ & _ & _ & _ & fresh & _ & _ & _ & _ & Hk). intros x Hx. apply Hk.
    + apply (ok_live _ _ _ _ _ H). destruct Hx as [-> | ->]; eauto.
    + intros Hr. assert (own x = Some (BySocket fd')) as E.
      { apply Ho. unfold sock_msgs. rewrite Hr. by left. }
      destruct Hx; congruence.
Qed.

(** A read of the connection itself: packages move on to the worker's queue. *)
Lemma carries_read W io s :
  io_inv max W io → io_sockets io !! fd = Some s →
  returns (slam_socket_poll_read max (read_fuel (io_recv io fd)) s (io_mq io) (io_heap io) (io_recv io fd))
    (λ r, r.1.1.1.1 = true → follows max fd io (read_state io fd r)).
Proof.
  intros (own & q & H & _) Hs.
  pose proof (ok_socks _ _ _ _ _ H fd s Hs) as (_ & Hfd & [p Hp] & sq & _ & Hsq & _ & Hnd & Ho).
  eapply returns_mono; [apply slam_socket_poll_read_spec; [apply H|exact Hp|apply H|apply read_fuel_enough]|].
  intros [[[[b s'] mq'] h'] k'] (locs & fs & k1 & p' & [_ _ Q F P E St _ _] & _ & Hb). simpl. intros ->.
  destruct Hb as (Est%round_stream & _). simpl in Est. split; [by apply closes_none|]. intros out inn (s0 & sq0 & ds & p0 & q0 & [Hcs Hct Hcq Hcu Hcp Hcm Hci Hco] & Ho' & Hi).
  right. assert (s0 = s) as -> by congruence.
  rewrite (rep_unique _ _ _ Hsq Hcq) in Hnd, Ho. rewrite (rep_unique _ _ _ Hcm (ok_mq _ _ _ _ _ H)) in Hi.
  assert (p0 = p) as -> by (by eapply partial_unique).
  destruct E as (_ & Ety & Emq & _ & fresh & _ & _ & _ & _ & Hk).
  assert (∀ x, x ∈ sq0 ∨ x ∈ q → mh_msgs h' !! x = mh_msgs (io_heap io) !! x) as Hsame.
  { intros x Hx. apply Hk.
    - apply (ok_live _ _ _ _ _ H).
      destruct Hx as [Hx|Hx%(ok_q _ _ _ _ _ H)]; [|rewrite Hx; eauto].
      assert (own x = Some (BySocket fd)) as ->; [|eauto]. apply Ho. unfold sock_msgs. set_solver.
    - intros Hr%elem_option_list. destruct Hx as [Hx|Hx%(ok_q _ _ _ _ _ H)].
      + unfold sock_msgs in Hnd. apply NoDup_app in Hnd as (_ & Hd & _). by apply (Hd x).
      + assert (own x = Some (BySocket fd)); [|congruence]. apply Ho. unfold sock_msgs. set_solver. }
  exists s', sq0, ds, p', (q ++ locs). split_and!.
  - split; simpl; try done; [by rewrite lookup_insert_eq|congruence|by rewrite Emq|].
    eapply unsent_pending_frame; [|done]. auto.
  - done.
  - simpl. unfold update. rewrite Z.eqb_refl, inbound_app, (inbound_frame fd (io_heap io)) by auto.
    rewrite (inbound_complete _ _ _ _ F), Hfd, Z.eqb_refl, <- app_assoc, <- Hi. f_equal.
    by rewrite St, Est.
Qed.

(** A write on another connection. *)
Lemma follows_write_other W io fd' s :
  io_inv max W io → io_sockets io !! fd' = Some s → fd' ≠ fd →
  safe (slam_socket_poll_write (S (length (io_send io fd'))) s (io_heap io) (io_send io fd'))
    (λ r, follows max fd io (write_state io fd' r)).
Proof.
  intros (own & q & H & _) Hs Hne.
  pose proof (ok_socks _ _ _ _ _ H fd' s Hs) as (_ & _ & _ & sq & ds & Hsq & Hu & Hnd & Ho).
  eapply safe_mono.
  { eapply aborts_safe, (poll_write_spec _ s sq (io_heap io) ds); [apply H|done| |done|lia].
    unfold sock_msgs in Hnd. by apply NoDup_app in Hnd as (_ & _ & ?). }
  intros [[[[b sent] s'] h'] k'] (gone & q' & ds' & -> & _ & _ & _ & _ & _ & _ & _ & _ & _ & _ & K & _).
  apply (follows_frame max fd own q io _ []); simpl; try done.
  - by apply closes_none.
  - by rewrite lookup_insert_ne.
  - unfold update. by rewrite (proj2 (Z.eqb_neq _ _)).
  - rewrite app_nil_r. apply H.
  - intros x Hx. apply K. intros Hin. assert (own x = Some (BySocket fd')) as E.
    { apply Ho. unfold sock_msgs. set_solver. }
    destruct Hx; congruence.
Qed.

(** A write on the connection itself: bytes move on to the wire. *)
Lemma carries_write W io s :
  io_inv max W io → io_sockets io !! fd = Some s →
  safe (slam_socket_poll_write (S (length (io_send io fd))) s (io_heap io) (io_send io fd))
    (λ r, follows max fd io (write_state io fd r)).
Proof.
  intros Hinv Hs. pose proof Hinv as (own & q & H & _).
  pose proof (ok_socks _ _ _ _ _ H fd s Hs) as (_ & Hfd & _ & sq & _ & Hsq & _ & Hnd & Ho).
  assert (∀ out inn, carries max fd out inn io → safe (slam_socket_poll_write
    (S (length (io_send io fd))) s (io_heap io) (io_send io fd)) (λ r, carries max fd out inn (write_state io fd r))) as Hc.
  { intros out inn (s0 & sq0 & ds & p & q0 & [Hcs Hct Hcq Hcu Hcp Hcm Hci Hco] & Ho' & Hi). assert (s0 = s) as -> by congruence.
    rewrite (rep_unique _ _ _ Hsq Hcq) in Hnd, Ho. rewrite (rep_unique _ _ _ Hcm (ok_mq _ _ _ _ _ H)) in Hi.
    pose proof Hnd as (_ & Hdis & Hnd2)%NoDup_app.
    eapply safe_mono; [eapply aborts_safe, (poll_write_spec _ s sq0 (io_heap io) ds); [apply H|done|done|done|lia]|].
    intros [[[[b sent] s'] h'] k'] (gone & q' & ds' & -> & Q & _ & _ & E1 & E2 & E3 & U & C & _ & _ & K & _).
    exists s', q', ds', p, q. split_and!.
    - split; simpl; try done; [by rewrite lookup_insert_eq|congruence| |apply H|].
      + unfold partial in *. rewrite E3, E1. destruct (sk_readmessage s) as [x|]; [|done].
        rewrite K; [done|]. apply Hdis. by left.
      + intros Hq'. apply Hco. by destruct gone, q'.
    - simpl. unfold update. by rewrite Z.eqb_refl, <- app_assoc, <- C.
    - simpl. rewrite (inbound_frame fd (io_heap io)); [done|]. intros x Hx%(ok_q _ _ _ _ _ H). apply K. intros Hin.
      assert (own x = Some (BySocket fd)); [|congruence]. apply Ho. unfold sock_msgs. set_solver. }
  pose proof (inv_poll_write max W io fd s Hinv Hs) as Hsafe.
  destruct (slam_socket_poll_write _ _ _ _) as [[[[[b sent] s'] h'] k']| | |]; simpl in *;
    [split; [by apply closes_none|]; intros out inn H'; right; by apply (Hc out inn)|done..].
Qed.

(** Closing a connection after a failed read or write. *)
Lemma removed_is_closed W io0 io fd' s :
  io_inv max W io → io_sockets io !! fd' = Some s → closes io0 io →
  (fd' ≠ fd → follows max fd io0 io) →
  safe (slam_io_thread_remove_socket io fd') (λ io', follows max fd io0 io').
Proof.
  intros H Hs Hc Hf. destruct (decide (fd' = fd)) as [->|Hne].
  - destruct H as (own & q & H & _).
    eapply safe_mono; [by eapply slam_io_thread_remove_socket_releases|]. intros io' (_ & E & _).
    apply follows_closed. eapply closes_it_r; [done|]. exists [fd]. split; [done|by left].
  - eapply safe_mono; [by eapply follows_remove|]. intros io'. by apply follows_trans, Hf.
Qed.

Context (size : Z) (accepts : Z → bool).
Hypothesis Hsize : size <= 2 ^ 31.

Lemma follows_read_socket W io fd' :
  io_inv max W io → safe (slam_io_thread_read_socket max size accepts io fd') (follows max fd io).
Proof.
  intros H. unfold slam_io_thread_read_socket. destruct (VALID_SOCKET fd'); [|done].
  destruct (io_sockets io !! fd') as [s|] eqn:Hs; [|apply follows_refl].
  destruct (Z.eqb_spec (sk_type s) SOCKET_SERVER) as [Ht|Ht].
  { unfold slam_io_thread_accept_socket. rewrite Ht, Z.eqb_refl.
    eapply safe_mono; [by apply (keeps_accept_loop max fd accepts size Hsize W); [|lia]|]. by intros io' [_ ?]. }
  eapply safe_bind.
  { eapply safe_both; [by eapply returns_safe, inv_poll_read|].
    apply (returns_safe _ (λ r, fd' ≠ fd ∨ r.1.1.1.1 = true → follows max fd io (read_state io fd' r))).
    destruct (decide (fd' = fd)) as [->|Hne]; [eapply returns_mono; [by eapply carries_read|]; intros r Hr [?|?]; by auto|].
    eapply returns_mono; [by eapply follows_read_other|]. by intros r Hr _. }
  intros [[[[b s'] mq'] h'] k'] [Hr Hf]. destruct b; simpl; [apply Hf; by right|].
  eapply (removed_is_closed W io); [exact Hr|apply lookup_insert_eq|by apply closes_none|].
  intros Hne. apply Hf. by left.
Qed.

Lemma follows_write_socket W io fd' :
  io_inv max W io → safe (slam_io_thread_write_socket io fd') (follows max fd io).
Proof.
  intros H. unfold slam_io_thread_write_socket. destruct (VALID_SOCKET fd'); [|done].
  destruct (io_sockets io !! fd') as [s|] eqn:Hs; [|apply follows_refl]. destruct (negb _); [|done].
  eapply safe_bind.
  { apply (safe_both _ (λ r, io_inv max W (write_state io fd' r)) (λ r, follows max fd io (write_state io fd' r))); [by eapply inv_poll_write|].
    destruct (decide (fd' = fd)) as [->|Hne]; [by eapply carries_write|by eapply follows_write_other]. }
  intros [[[[b sent] s'] h'] k'] [Hr Hf]. destruct b; simpl; [exact Hf|].
  eapply (removed_is_closed W io); [exact Hr|apply lookup_insert_eq|by apply closes_none|done].
Qed.

(** ** The loop of the I/O thread *)
Lemma keeps_do_event W io e : io_inv max W io → safe (do_event max size accepts io e) (keeps max fd W io).
Proof.
  intros H. unfold do_event. do 3 (destruct (negb _); [by apply keeps_remove|]).
  apply (keeps_bind max fd W io _ _ id id).
  - destruct (negb _); [|by apply keeps_refl].
    eapply safe_both; [by apply inv_read_socket|by eapply follows_read_socket].
  - intros io1 H1. destruct (negb _); [|by apply keeps_refl].
    eapply safe_both; [by apply inv_write_socket|by eapply follows_write_socket].
Qed.

Lemma keeps_do_events W es : ∀ io, io_inv max W io → safe (do_events max size accepts io es) (keeps max fd W io).
Proof.
  induction es as [|e es IH]; intros io H; simpl; [by apply keeps_refl|].
  apply (keeps_bind max fd W io _ _ id id); [by apply keeps_do_event|intros io1; apply IH].
Qed.

Lemma keeps_do_message W halt es io :
  io_inv max W io → safe (slam_io_thread_do_message max size accepts halt es io) (λ r, keeps max fd W io r.2).
Proof.
  intros H. unfold slam_io_thread_do_message. destruct halt; [by apply keeps_refl|].
  apply (keeps_bind max fd W io _ _ id snd); [by apply keeps_do_events|].
  intros io1 H1. pose proof H1 as (own & q & Hio & _). simpl in *.
  rewrite (empty_rep _ _ (ok_mq _ _ _ _ _ Hio)). by apply keeps_refl.
Qed.
End transfer.
