(* ===== verification/ConnectionRun.v ===== *)
(** * A connection over a run of the program

    The I/O thread handles whatever events the poll reports, the worker makes
    whatever calls on whatever connections, and the network delivers bytes and
    takes them, in any order.  A log tells what arrived, what the worker took and
    which responses were accepted; the bytes of a connection that is not closed
    are accounted for by the log. *)

From S2P Require Import Prelude MessageQueue Message Socket Framing Poll IoThread IoOwnership Connection.

(** ** The worker's calls *)

(** A package of the bytes [f] for the connection [fd], as [cc_response] makes it,
    and [slam_io_response]. *)
Definition package_for (fd : Z) (f : list byte) : slam_message :=
  {| msg_fd := fd; msg_type := MESSAGE_TYPE_PROTOBUF_PACKAGE; msg_bufsize := len f; msg_bytesize := 0;
     msg_buf := Some <$> f |}.

Definition made (fd : Z) (f : list byte) (io : slam_io_thread) : slam_io_thread :=
  let h := io_heap io in
  with_mq_heap (io_mq io)
    {| mh_msgs := <[mh_brk h := package_for fd f]> (mh_msgs h); mh_brk := Pos.succ (mh_brk h) |} io.

Definition respond (fd : Z) (f : list byte) (io : slam_io_thread) : outcome (bool * slam_io_thread) :=
  slam_io_response (made fd f io) (mh_brk (io_heap io)).

(** One turn of the loop of [slam_runnable_do_message], and the test that ends
    it or begins the next; the handler is left out.  The result is the message. *)
Definition take_message (io : slam_io_thread) : outcome (option slam_message * slam_io_thread) :=
  empty ← slam_message_queue_empty (io_mq io);
  if (empty : bool) then Ok (None, io)
  else
    '(message, mq) ← slam_message_queue_pop_front (io_mq io);
    DEREF x := message ;;
    DEREF msg := mh_msgs (io_heap io) !! x ;;
    h ← slam_message_delete x (io_heap io);
    _ ← slam_message_queue_empty mq;
    Ok (Some msg, with_mq_heap mq h io).

Section calls.
Context (max fd : Z).
Implicit Types (io : slam_io_thread).

(** Messages behind those to be sent. *)
Lemma carries_queue own q io io' s mq' xs fs out inn :
  io_ok mq_rep max own q io → io_sockets io !! fd = Some s →
  (∀ sq, mq_rep (sk_sendmq s) sq → mq_rep mq' (sq ++ xs)) → Forall2 (unsent (io_heap io')) xs fs →
  io_sockets io' !! fd = Some (set_sendmq mq' s) → io_mq io' = io_mq io →
  io_wire io' fd = io_wire io fd → io_recv io' fd = io_recv io fd →
  (watches (io_poll io) fd EPOLLIN = true → watches (io_poll io') fd EPOLLIN = true ∧
     (watches (io_poll io) fd EPOLLOUT = true ∨ xs ≠ [] → watches (io_poll io') fd EPOLLOUT = true)) →
  (∀ x, is_Some (own x) → own x ≠ Some ByWorker → mh_msgs (io_heap io') !! x = mh_msgs (io_heap io) !! x) →
  carries max fd out inn io → carries max fd (out ++ concat fs) inn io'.
Proof.
  intros H Hs Hmq Hxs Es Eq Ew Er Hp Hk (s0 & sq & ds & p & q0 & Hc & Ho & Hi).
  destruct (connected_owned max fd _ _ _ _ _ _ _ _ H Hc) as (-> & _ & Hown).
  destruct Hc as [Hcs Hct Hcq Hcu Hcp _ Hci Hco]. assert (s0 = s) as -> by congruence.
  destruct (Hp Hci) as [Hin Hout].
  destruct (socket_frame max s sq ds p (io_heap io) (io_heap io')) as [Hu Hpar]; [|done|done|].
  { intros x Hx%Hown. apply Hk; rewrite Hx; [eauto|done]. }
  exists (set_sendmq mq' s), (sq ++ xs), (ds ++ fs), p, q. split_and!.
  - split; try done; [by apply Hmq|by apply Forall2_app|rewrite Eq; apply H|].
    intros Hne. apply Hout. destruct xs; [left; apply Hco; by rewrite app_nil_r in Hne|by right].
  - by rewrite Ew, concat_app, app_assoc, Ho.
  - rewrite Er, <- Hi. f_equal. apply inbound_frame.
    intros x Hx%(ok_q _ _ _ _ _ H). apply Hk; rewrite Hx; [eauto|done].
Qed.

(** The state after [slam_io_response] has had the message [x] of [msg] pushed to
    the socket [s], whose queue is [mq] afterwards. *)
Definition response_state io (x : loc) (msg : slam_message) (s : slam_socket) (mq : slam_message_queue loc)
    (poll : slam_poll) : slam_io_thread :=
  with_poll poll (with_sockets (<[msg_fd msg := set_sendmq mq s]> (io_sockets io))
    (with_mq_heap (io_mq io) (with_msgs (<[x := set_bytesize 0 msg]> (mh_msgs (io_heap io))) (io_heap io)) io)).

Lemma response_shape W io x msg :
  io_inv max W io → mh_msgs (io_heap io) !! x = Some msg →
  returns (slam_io_response io x) (λ '(b, io'), b = false ∧ io' = io ∨
    ∃ s mq xs poll, io_sockets io !! msg_fd msg = Some s ∧ io' = response_state io x msg s mq poll ∧
      (∀ sq, mq_rep (sk_sendmq s) sq → mq_rep mq (sq ++ xs)) ∧
      if b then xs = [x] ∧ watches poll (msg_fd msg) EPOLLIN = true ∧ watches poll (msg_fd msg) EPOLLOUT = true ∧
        ∀ fd', fd' ≠ msg_fd msg → poll !! fd' = io_poll io !! fd'
      else poll = io_poll io ∧ (xs = [] ∨ xs = [x] ∧ io_poll io !! msg_fd msg = None)).
Proof.
  intros (own & q & H & _) Hm. unfold slam_io_response. rewrite Hm.
  destruct (negb _); [apply returns_ok; by left|].
  destruct (io_sockets io !! msg_fd msg) as [s|] eqn:Hs; [|apply returns_ok; by left].
  rewrite (write_message_ok _ _ _ _ Hm), bind_ok.
  pose proof (ok_socks _ _ _ _ _ H _ s Hs) as (_ & _ & _ & sq & _ & Hsq & _).
  destruct (socket_write_spec s sq x Hsq) as (b & mq & -> & Hb & Hr & _). rewrite bind_ok. destruct b; simpl.
  - pose proof (set_pollout_spec (io_poll io) (msg_fd msg)) as Hp.
    destruct (slam_poll_set_socket_pollout _ _ _) as [b poll]. destruct Hp as (Hb1 & Hsame & Hw & _ & Hne).
    apply returns_ok. right. exists s, mq, [x], poll. split; [done|]. split; [done|]. split.
    { intros sq' Hsq'. by rewrite (rep_unique _ _ _ Hsq' Hsq). }
    destruct b; [destruct Hw; [done|]; by split_and!|]. split; [by apply Hsame|]. right. split; [done|].
    apply eq_None_not_Some. by intros ?%Hb1.
  - apply returns_ok. right. exists s, mq, [], (io_poll io). split_and!; [done|done| |done|by left].
    intros sq' Hsq'. by rewrite (rep_unique _ _ _ Hsq' Hsq), app_nil_r.
Qed.

Lemma made_message fd' f io : mh_msgs (io_heap (made fd' f io)) !! mh_brk (io_heap io) = Some (package_for fd' f).
Proof. apply lookup_insert_eq. Qed.

Lemma made_fresh own q io : io_ok mq_rep max own q io → own (mh_brk (io_heap io)) = None.
Proof.
  intros H. apply eq_None_not_Some. rewrite <- (ok_live _ _ _ _ _ H), new_fresh by apply H. by intros [].
Qed.

(** The package for the connection itself has been pushed, or refused. *)
Lemma pushed_carries own q io f s mq xs poll (b : bool) out inn :
  io_ok mq_rep max own q io → 0 < len f → io_sockets io !! fd = Some s →
  (∀ sq, mq_rep (sk_sendmq s) sq → mq_rep mq (sq ++ xs)) → carries max fd out inn io →
  (if b then xs = [mh_brk (io_heap io)] ∧ watches poll fd EPOLLIN = true ∧ watches poll fd EPOLLOUT = true
   else poll = io_poll io ∧ (xs = [] ∨ xs = [mh_brk (io_heap io)] ∧ io_poll io !! fd = None)) →
  carries max fd (if b then out ++ f else out) inn
    (response_state (made fd f io) (mh_brk (io_heap io)) (package_for fd f) s mq poll).
Proof.
  intros H Hf Hs Hmq Hc Hb. pose proof (made_fresh _ _ _ H) as Hx.
  set (io2 := response_state _ _ _ _ _ _).
  assert (∀ fs, Forall2 (unsent (io_heap io2)) xs fs →
    (watches (io_poll io) fd EPOLLIN = true → watches poll fd EPOLLIN = true ∧
      (watches (io_poll io) fd EPOLLOUT = true ∨ xs ≠ [] → watches poll fd EPOLLOUT = true)) →
    carries max fd (out ++ concat fs) inn io2) as Hqueue.
  { intros fs Hu Hp. apply (carries_queue own q io io2 s mq xs fs out inn); try done; [apply lookup_insert_eq|].
    intros y [o Ho] _. simpl. rewrite !lookup_insert_ne by congruence. done. }
  destruct b.
  - destruct Hb as (-> & Hin & Hout). specialize (Hqueue [f]). simpl in Hqueue. rewrite app_nil_r in Hqueue.
    apply Hqueue; [|by intros _; split_and!].
    constructor; [|done]. exists (set_bytesize 0 (package_for fd f)), f. simpl. by rewrite lookup_insert_eq.
  - destruct Hb as [-> [->|[-> Hnone]]].
    + specialize (Hqueue []). simpl in Hqueue. rewrite app_nil_r in Hqueue. apply Hqueue; [constructor|naive_solver].
    + destruct Hc as (s0 & sq & ds & p & q0 & [_ _ _ _ _ _ Hci _] & _). unfold watches in Hci.
      by rewrite Hnone in Hci.
Qed.

Lemma respond_carries W io fd' f :
  io_inv max W io → f ≠ [] →
  returns (respond fd' f io) (λ '(b, io'), (∃ W', io_inv max W' io') ∧ closes io io' ∧
    ∀ out inn, carries max fd out inn io →
      carries max fd (if (fd' =? fd) && b then out ++ f else out) inn io').
Proof.
  intros Hinv Hf. assert (0 < len f) as Hlen by (destruct f; [done|len]).
  destruct (inv_new _ _ _ _ (package_for fd' f) Hinv) as [Hinv' _].
  change (respond fd' f io) with (slam_io_response (made fd' f io) (mh_brk (io_heap io))).
  fold (made fd' f io) in Hinv'. pose proof (made_message fd' f io) as Hm.
  destruct (response_spec mq_rep max _ _ _ _ f Hinv' (or_intror eq_refl) Hm) as ([b io'] & E & Hpost); [done..|].
  destruct (response_shape _ _ _ _ Hinv' Hm) as ([b2 io2] & E2 & Hshape).
  rewrite E in E2. injection E2 as <- <-. exists (b, io'). split; [exact E|]. split; [|split].
  - unfold response_post in Hpost. destruct (io_sockets (made fd' f io) !! _); [|destruct Hpost as [-> ->]; by eexists].
    destruct Hpost as (sq & _ & Hpost). destruct (len sq <? _); [by eexists; apply Hpost|by eexists; apply Hpost].
  - destruct Hshape as [[_ ->]|(s & mq & xs & poll & _ & -> & _)]; by apply closes_none.
  - intros out inn Hc. pose proof Hinv as (own & q & H & _). pose proof (made_fresh _ _ _ H) as Hx.
    assert (mq_rep (io_mq io) (q ++ [])) as Hq by (rewrite app_nil_r; apply H).
    assert (∀ y, own y = Some (BySocket fd) ∨ own y = Some ByQueue → y ≠ mh_brk (io_heap io)) as Hne.
    { intros y Hy ->. rewrite Hx in Hy. by destruct Hy. }
    destruct Hshape as [[-> ->]|(s & mq & xs & poll & Hs & -> & Hmq & Hb)].
    { rewrite andb_false_r. apply (carries_frame max fd own q io _ []); try done.
      intros y Hy%Hne. simpl. by rewrite lookup_insert_ne. }
    destruct (Z.eqb_spec fd' fd) as [->|Hfd]; simpl.
    + apply (pushed_carries own q io f s mq xs poll b); try done. by destruct b; [destruct Hb as (? & ? & ? & _)|].
    + apply (carries_frame max fd own q io _ []); try done; simpl.
      * by rewrite lookup_insert_ne.
      * destruct b; [by apply Hb|by destruct Hb as [-> _]].
      * intros y Hy%Hne. by rewrite !lookup_insert_ne.
Qed.

(** The worker takes the oldest message and frees it. *)
Lemma take_carries W io :
  io_inv max W io →
  safe (take_message io) (λ '(msg, io'), io_inv max W io' ∧ io_closed io' = io_closed io ∧
    ∀ out inn, carries max fd out inn io →
      ∃ inn', carries max fd out inn' io' ∧ inn = default [] (message_bytes fd <$> msg) ++ inn').
Proof.
  intros Hinv. pose proof Hinv as (own & q & H & HW). unfold take_message.
  rewrite (empty_rep _ _ (ok_mq _ _ _ _ _ H)), bind_ok. destruct q as [|x q]; simpl.
  { split_and!; [done|done|]. intros out inn Hc. by exists inn. }
  destruct (pop_rep _ _ _ (ok_mq _ _ _ _ _ H)) as (mq & Hpop & M & R & Hmq). rewrite Hpop. simpl.
  assert (own x = Some ByQueue) as Hx by (apply (ok_q _ _ _ _ _ H); by left).
  destruct (inv_take max W io x q own mq H HW Hpop) as (_ & HWx & Htake).
  destruct (inv_free _ max _ _ x Htake (or_intror eq_refl)) as (h & Hdel & Hfree).
  change (io_heap (with_mq_heap mq (io_heap io) io)) with (io_heap io) in Hdel.
  unfold slam_message_delete in *. destruct (mh_msgs (io_heap io) !! x) as [msg|] eqn:Hm; [|done].
  injection Hdel as <-. simpl.
  destruct (Z.lt_ge_cases (mq_rindex (io_mq io) + 1) (mq_maxsize (io_mq io))) as [Hlt|Hge]; last first.
  { unfold slam_message_queue_empty. rewrite stuck_assertion; [done|].
    pose proof (rep_rindex _ _ (ok_mq _ _ _ _ _ H)). unfold mq_stuck. lia. }
  specialize (Hmq Hlt). rewrite (empty_rep _ _ Hmq). simpl. split_and!; [|done|].
  - eapply inv_weaken in Hfree as (own2 & q2 & H2 & HW2).
    + exists own2, q2. split; [exact H2|]. intros y. rewrite HW2. split; [tauto|].
      intros Hy. split; [by left|]. by intros ->.
    + intros q2 (-> & -> & _). exact Hmq.
  - intros out inn (s & sq & ds & p & q0 & Hc & Ho & Hi).
    destruct (connected_owned max fd _ _ _ _ _ _ _ _ H Hc) as (-> & _ & Hown).
    destruct Hc as [Hcs Hct Hcq Hcu Hcp _ Hci Hco].
    pose proof (ok_q_nodup _ _ _ _ _ H) as [Hxq _]%NoDup_cons.
    set (h := with_msgs _ _). assert (∀ y, y ≠ x → mh_msgs h !! y = mh_msgs (io_heap io) !! y) as Hk.
    { intros y Hy. simpl. by rewrite lookup_delete_ne. }
    destruct (socket_frame max s sq ds p (io_heap io) h) as [Hu Hp]; [|done|done|].
    { intros y Hy%Hown. apply Hk. congruence. }
    exists (inbound fd (io_heap io) q ++ p ++ stream (io_recv io fd)). split.
    + exists s, sq, ds, p, q. split_and!; [by split|done|].
      simpl. f_equal. apply inbound_frame. intros y Hy. apply Hk. congruence.
    + rewrite <- Hi. simpl. unfold inbound at 1. simpl. unfold package_bytes at 1. by rewrite Hm, <- app_assoc.
Qed.
End calls.

(** ** Runs *)

(** What happens next: a turn of the I/O thread, what the network does, or a call
    of the worker. *)
Inductive happening :=
  | Turns (halt : bool) (events : list slam_poll_event)
  | Arrives (fd : Z) (es : list recv_event)
  | Drains (fd : Z) (es : list send_event)
  | Knocks (fd : Z) (es : list accept_event)
  | Takes
  | Responds (fd : Z) (f : list byte)
  | Listens (fd : Z) (r : bind_results)
  | Connects (fd connected : Z)
  | Shuts (fd : Z).

(** What there is to tell about it. *)
Inductive logged :=
  | Arrived (fd : Z) (bs : list byte)
  | Taken (msg : slam_message)
  | Accepted (fd : Z) (f : list byte).

Section runs.
Context (max_package_size socket_send_queue_size : Z) (epoll_accepts : Z → bool).
Context (shutdown_rd : list recv_event → list recv_event).

Definition happen (e : happening) (io : slam_io_thread) : outcome (list logged * slam_io_thread) :=
  match e with
  | Turns halt events =>
      '(_, io) ← slam_io_thread_do_message max_package_size socket_send_queue_size epoll_accepts halt events io;
      Ok ([], io)
  | Arrives fd es =>
      Ok ([Arrived fd (if lost (io_recv io fd) then [] else stream es)], with_recv fd (io_recv io fd ++ es) io)
  | Drains fd es => Ok ([], with_send fd (io_send io fd ++ es) [] io)
  | Knocks fd es => Ok ([], with_accept fd (io_accept io fd ++ es) io)
  | Takes => '(msg, io) ← take_message io; Ok (Taken <$> option_list msg, io)
  | Responds fd f => '(b, io) ← respond fd f io; Ok (if (b : bool) then [Accepted fd f] else [], io)
  | Listens fd r => '(_, io) ← slam_io_newserver socket_send_queue_size epoll_accepts io fd r; Ok ([], io)
  | Connects fd c => '(_, io) ← slam_io_newclient socket_send_queue_size epoll_accepts io fd c; Ok ([], io)
  | Shuts fd => Ok ([], slam_io_closesocket shutdown_rd io fd)
  end.

Fixpoint run (es : list happening) (io : slam_io_thread) : outcome (list logged * slam_io_thread) :=
  match es with
  | [] => Ok ([], io)
  | e :: es => '(l1, io) ← happen e io; '(l2, io) ← run es io; Ok (l1 ++ l2, io)
  end.
End runs.

(** The bytes of the connection [fd]: those that arrived, those of the packages
    the worker took, those of the responses that were accepted. *)
Definition arrived (fd : Z) (e : logged) : list byte :=
  match e with Arrived fd' bs => if fd' =? fd then bs else [] | _ => [] end.
Definition taken (fd : Z) (e : logged) : list byte :=
  match e with Taken msg => message_bytes fd msg | _ => [] end.
Definition accepted (fd : Z) (e : logged) : list byte :=
  match e with Accepted fd' f => if fd' =? fd then f else [] | _ => [] end.

(** The worker does not shut the connection, and responds with packages. *)
Definition leaves_open (fd : Z) (e : happening) : Prop :=
  match e with Shuts fd' => fd' ≠ fd | Responds _ f => f ≠ [] | _ => True end.

(** From [io] to [io'], with the log [l], the connection is closed or all its
    bytes are where they should be. *)
Definition accounts (max fd : Z) (io : slam_io_thread) (l : list logged) (io' : slam_io_thread) : Prop :=
  closes io io' ∧ ∀ out inn, carries max fd out inn io →
    closes_it fd io io' ∨ ∃ inn', carries max fd (out ++ concat (accepted fd <$> l)) inn' io' ∧
      concat (taken fd <$> l) ++ inn' = inn ++ concat (arrived fd <$> l).

Section run_proofs.
Context (max fd size : Z) (accepts : Z → bool) (shutdown_rd : list recv_event → list recv_event).
Hypothesis Hsize : size <= 2 ^ 31.
Implicit Types (io : slam_io_thread).

Lemma accounts_trans io1 l1 io2 l2 io3 :
  accounts max fd io1 l1 io2 → accounts max fd io2 l2 io3 → accounts max fd io1 (l1 ++ l2) io3.
Proof.
  intros [C1 A1] [C2 A2]. split; [by eapply closes_trans|]. intros out inn H.
  destruct (A1 out inn H) as [Hc|(inn1 & H1 & E1)]; [left; by eapply closes_it_l|].
  destruct (A2 _ _ H1) as [Hc|(inn2 & H2 & E2)]; [left; by eapply closes_it_r|]. right. exists inn2.
  rewrite !fmap_app, !concat_app, app_assoc. split; [done|]. by rewrite <- app_assoc, E2, app_assoc, E1, <- app_assoc.
Qed.

(** Nothing to tell. *)
Lemma follows_accounts io io' : follows max fd io io' → accounts max fd io [] io'.
Proof.
  intros [C F]. split; [done|]. intros out inn H. destruct (F out inn H) as [?|H']; [by left|right].
  exists inn. simpl. by rewrite !app_nil_r.
Qed.

(** A new socket. *)
Lemma keeps_new_socket W io s :
  io_inv max W io → fresh_socket s →
  safe ('(added, io) ← slam_io_thread_add_socket accepts io s;
        if negb added then io ← delete_socket s io; Ok (INVALID_SOCKET, io)
        else Ok (sk_fd s, io)) (λ r, keeps max fd W io r.2).
Proof.
  intros H Hs. apply (keeps_bind max fd W io _ _ snd snd); [by apply keeps_add|].
  intros [b io1] H1. destruct b; simpl; [by apply keeps_refl|].
  apply (keeps_bind max fd W io1 _ _ id snd); [by apply keeps_delete_fresh|].
  intros io2 H2. by apply keeps_refl.
Qed.

Lemma keeps_delete_new W io s :
  io_inv max W io → fresh_socket s →
  safe (io ← delete_socket s io; Ok (INVALID_SOCKET, io)) (λ r, keeps max fd W io r.2).
Proof.
  intros H Hs. apply (keeps_bind max fd W io _ _ id snd); [by apply keeps_delete_fresh|].
  intros io1 H1. by apply keeps_refl.
Qed.

Lemma new_socket_fresh fd' :
  fd' ≠ INVALID_SOCKET →
  safe (slam_socket_new size fd') (λ o, match o with Some s => fresh_socket s | None => False end).
Proof.
  intros Hne. unfold slam_socket_new. rewrite (proj2 (Z.eqb_neq _ _)) by done.
  eapply safe_bind; [by apply newfd_fresh|]. by intros s [? _].
Qed.

Lemma keeps_newserver W io fd' r :
  io_inv max W io → safe (slam_io_newserver size accepts io fd' r) (λ r, keeps max fd W io r.2).
Proof.
  intros H. unfold slam_io_newserver. destruct (decide (fd' = INVALID_SOCKET)) as [->|Hne]; [done|].
  eapply safe_bind; [by apply new_socket_fresh|]. intros [s|] Hs; [|done]. unfold slam_socket_bind.
  destruct (negb (sk_fd s =? INVALID_SOCKET)); [|done].
  do 4 (destruct (negb _); [by apply keeps_delete_new|]).
  destruct (sk_type s =? SOCKET_NONE); [|done]. simpl. by apply (keeps_new_socket W io (set_type SOCKET_SERVER s)).
Qed.

Lemma keeps_newclient W io fd' c :
  io_inv max W io → safe (slam_io_newclient size accepts io fd' c) (λ r, keeps max fd W io r.2).
Proof.
  intros H. unfold slam_io_newclient. destruct (decide (fd' = INVALID_SOCKET)) as [->|Hne]; [done|].
  eapply safe_bind; [by apply new_socket_fresh|]. intros [s|] Hs; [|done]. unfold slam_socket_connect.
  destruct (negb (sk_fd s =? INVALID_SOCKET)); [|done].
  destruct (c <? 0); [by apply keeps_delete_new|].
  destruct (sk_type s =? SOCKET_NONE); [|done]. simpl. by apply (keeps_new_socket W io (set_type SOCKET_CLIENT s)).
Qed.

Lemma stream_app k es : stream (k ++ es) = stream k ++ (if lost k then [] else stream es).
Proof.
  induction k as [|[b bs| |e] k IH]; csimpl; [done| |done|].
  - by rewrite IH, app_assoc.
  - destruct (_ || _); done.
Qed.

(** Bytes that arrive. *)
Lemma arrives_accounts io fd' es :
  accounts max fd io [Arrived fd' (if lost (io_recv io fd') then [] else stream es)]
    (with_recv fd' (io_recv io fd' ++ es) io).
Proof.
  split; [by apply closes_none|]. intros out inn (s & sq & ds & p & q & [Hcs Hct Hcq Hcu Hcp Hcm Hci Hco] & Ho & Hi). right. simpl.
  rewrite !app_nil_r. eexists. split; [exists s, sq, ds, p, q; split_and!; [done|done|reflexivity]|].
  simpl. unfold update. rewrite (Z.eqb_sym fd fd'). destruct (Z.eqb_spec fd' fd) as [->|Hne]; [|by rewrite app_nil_r].
  by rewrite stream_app, <- Hi, <- !app_assoc.
Qed.

Lemma keeps_accounts W io io' : keeps max fd W io io' → (∃ W', io_inv max W' io') ∧ accounts max fd io [] io'.
Proof. intros [H F]. split; [by exists W|]. by apply follows_accounts. Qed.

Lemma happen_accounts W e io :
  io_inv max W io → leaves_open fd e →
  safe (happen max size accepts shutdown_rd e io) (λ '(l, io'),
    (∃ W', io_inv max W' io') ∧ accounts max fd io l io').
Proof.
  intros H He. destruct e as [halt es|fd' es|fd' es|fd' es| |fd' f|fd' r|fd' c|fd']; simpl in *.
  - eapply safe_bind; [by apply keeps_do_message|]. intros [b io'] K. by eapply keeps_accounts.
  - split; [exists W; by eapply inv_irrelevant|apply arrives_accounts].
  - apply (keeps_accounts W); eapply (keeps_network max fd); try done. simpl. unfold update.
    destruct (Z.eqb_spec fd fd') as [->|]; [by rewrite app_nil_r|done].
  - by apply (keeps_accounts W), (keeps_network max fd).
  - eapply safe_bind; [by apply (take_carries max fd)|]. intros [msg io'] (H' & Ec & Hc).
    split; [by exists W|]. split; [by apply closes_none|]. intros out inn Hio. right.
    destruct (Hc out inn Hio) as (inn' & H2 & ->). exists inn'. destruct msg; simpl; by rewrite ?app_nil_r.
  - eapply safe_bind; [by apply returns_safe, (respond_carries max fd W io fd' f)|].
    intros [b io'] (H' & Ec & Hc). split; [done|]. split; [done|]. intros out inn Hio. right. exists inn.
    specialize (Hc out inn Hio). destruct b; simpl; rewrite ?andb_true_r, ?andb_false_r, ?app_nil_r in *; [|done].
    destruct (fd' =? fd); [|by rewrite app_nil_r]. done.
  - eapply safe_bind; [by apply keeps_newserver|]. intros [b io'] K. by eapply keeps_accounts.
  - eapply safe_bind; [by apply keeps_newclient|]. intros [b io'] K. by eapply keeps_accounts.
  - apply (keeps_accounts W). unfold slam_io_closesocket. destruct (fd' >=? 0); [|by apply keeps_refl].
    apply (keeps_network max fd); try done. simpl. unfold update. by rewrite (proj2 (Z.eqb_neq _ _)).
Qed.

Lemma run_accounts es : ∀ W io,
  io_inv max W io → Forall (leaves_open fd) es →
  safe (run max size accepts shutdown_rd es io) (λ '(l, io'),
    (∃ W', io_inv max W' io') ∧ accounts max fd io l io').
Proof.
  induction es as [|e es IH]; intros W io H He; simpl.
  { by apply (keeps_accounts W), keeps_refl. }
  apply Forall_cons in He as [He Hes]. eapply safe_bind; [by eapply happen_accounts|].
  intros [l1 io1] [[W1 H1] A1]. eapply safe_bind; [by eapply IH|].
  intros [l2 io2] [H2 A2]. split; [done|by eapply accounts_trans].
Qed.
End run_proofs.

(** ** Output that waits *)
Definition takes_bytes (e : send_event) : Prop := match e with Room _ => True | _ => False end.

(** A round: the kernel has room for some more bytes, and reports it. *)
Definition output_rounds (fd : Z) (ks : list (list send_event)) : list happening :=
  ks ≫= λ k, [Drains fd k; Turns false [{| ev_events := EPOLLOUT; ev_fd := fd |}]].

(** The connection carries [out] outwards, its send queue has the slots it needs
    and the kernel only ever takes bytes. *)
Definition sending (max fd : Z) (W : loc → Prop) (out inn : list byte) (io : slam_io_thread) : Prop :=
  io_inv max W io ∧ carries max fd out inn io ∧ Forall takes_bytes (io_send io fd) ∧
  ∃ s sq, io_sockets io !! fd = Some s ∧ mq_rep (sk_sendmq s) sq ∧ send_room s sq.

Section output.
Context (max fd size : Z) (accepts : Z → bool) (shutdown_rd : list recv_event → list recv_event).
Implicit Types (io : slam_io_thread).

Lemma sent_all io out inn s :
  carries max fd out inn io → io_sockets io !! fd = Some s → mq_rep (sk_sendmq s) [] → io_wire io fd = out.
Proof.
  intros (s0 & sq & ds & p & q & [Hcs _ Hcq Hcu _ _ _ _] & <- & _) Hs Hq. assert (s0 = s) as -> by congruence.
  rewrite (rep_unique _ _ _ Hcq Hq) in Hcu. apply Forall2_nil_inv_l in Hcu as ->. simpl. by rewrite app_nil_r.
Qed.

Lemma write_socket_eq io s r :
  VALID_SOCKET fd = true → io_sockets io !! fd = Some s → sk_type s ≠ SOCKET_SERVER →
  slam_socket_poll_write (S (length (io_send io fd))) s (io_heap io) (io_send io fd) = Ok r → r.1.1.1.1 = true →
  slam_io_thread_write_socket io fd = Ok (write_state io fd r).
Proof.
  intros Hv Hs Ht E Hb. unfold slam_io_thread_write_socket. rewrite Hv, Hs, (proj2 (Z.eqb_neq _ _)), E by done.
  destruct r as [[[[b sent] s'] h'] k']. simpl in Hb. by subst b.
Qed.

Lemma do_message_output io :
  slam_io_thread_do_message max size accepts false [{| ev_events := EPOLLOUT; ev_fd := fd |}] io =
    (io ← slam_io_thread_write_socket io fd; empty ← slam_message_queue_empty (io_mq io); Ok (negb empty, io)).
Proof.
  assert (do_event max size accepts io {| ev_events := EPOLLOUT; ev_fd := fd |} =
    slam_io_thread_write_socket io fd) as E by reflexivity.
  unfold slam_io_thread_do_message. cbn. rewrite E. by destruct (slam_io_thread_write_socket io fd).
Qed.

(** A round moves at least one byte on, until there is none. *)
Lemma output_round W out inn io :
  sending max fd W out inn io → io_send io fd ≠ [] →
  returns (slam_io_thread_do_message max size accepts false [{| ev_events := EPOLLOUT; ev_fd := fd |}] io)
    (λ '(_, io'), sending max fd W out inn io' ∧
       (len (io_wire io fd) < len (io_wire io' fd) ∨ io_wire io' fd = out)).
Proof.
  intros (Hinv & Hc & Hk & s & sq & Hs & Hq & Hroom) Hne. pose proof Hinv as (own & q & H & _).
  pose proof (ok_socks _ _ _ _ _ H fd s Hs) as (Hv & Hfd & _ & sq' & ds & Hsq & Hu & Hnd & Ho).
  rewrite (rep_unique _ _ _ Hsq Hq) in Hu, Hnd, Ho. apply NoDup_app in Hnd as (_ & _ & Hnd).
  assert (sk_type s ≠ SOCKET_SERVER) as Hty.
  { destruct Hc as (s0 & ? & ? & ? & ? & [Hcs Hct _ _ _ _ _ _] & _). congruence. }
  rewrite do_message_output.
  pose proof (inv_poll_write max W io fd s Hinv Hs) as Hinv'. pose proof (carries_write max fd W io s Hinv Hs) as Hf.
  destruct (aborts_returns (send_room s sq) _ _ Hroom
    (poll_write_spec (S (length (io_send io fd))) s sq (io_heap io) ds (io_send io fd) (ok_heap _ _ _ _ _ H) Hq Hnd Hu
       (Nat.lt_succ_diag_r _)))
    as ([[[[b sent] s'] h'] k'] & E & gone & q' & ds' & -> & Q & M & R & _ & _ & _ & _ & _ & _ & _ & _ & Sx & Pr & Hb).
  destruct b; last first.
  { destruct Hb as (e & He & Hst). rewrite Forall_forall in Hk. specialize (Hk e He). by destruct e. }
  rewrite (write_socket_eq io s _ Hv Hs Hty E eq_refl), bind_ok. rewrite E in Hinv', Hf. cbn [safe] in Hinv', Hf. cbv beta.
  pose proof Hinv' as (own' & q2 & H' & _). rewrite (empty_rep _ _ (ok_mq _ _ _ _ _ H')). simpl. apply returns_ok.
  assert (carries max fd out inn (write_state io fd (true, sent, s', h', k'))) as Hc'.
  { destruct (proj2 Hf _ _ Hc) as [(cs & Ec & Hin)|]; [|done]. simpl in Ec.
    rewrite <- (app_nil_r (io_closed io)) in Ec at 1. apply (inj (app (io_closed io))) in Ec. subst cs. by apply elem_of_nil in Hin. }
  split.
  - split_and!; [done|done| |].
    + simpl. unfold update. rewrite Z.eqb_refl. destruct Sx as [k1 E1]. rewrite E1 in Hk. by apply Forall_app in Hk as [_ ?].
    + exists s', q'. split; [by simpl; rewrite lookup_insert_eq|]. split; [done|]. unfold send_room in *. rewrite R, M. len.
  - destruct (decide (gone ++ q' = [])) as [Eq|Hsq'].
    + right. apply app_nil in Eq as [_ ->]. by eapply (sent_all _ _ _ s'); [exact Hc'|simpl; apply lookup_insert_eq|].
    + left. simpl. unfold update. rewrite Z.eqb_refl. destruct (io_send io fd) as [|e k]; [done|].
      apply Forall_cons in Hk as [He _]. destruct e as [n| |]; [|done..].
      assert (sent ≠ []) as Hsent by by eapply Pr. destruct sent; [done|len].
Qed.

Lemma sending_drains W out inn io k :
  sending max fd W out inn io → Forall takes_bytes k →
  let io' := with_send fd (io_send io fd ++ k) [] io in
  sending max fd W out inn io' ∧ io_send io' fd = io_send io fd ++ k ∧ io_wire io' fd = io_wire io fd.
Proof.
  intros (Hinv & Hc & Hk & s & sq & Hs & Hq & Hroom) Hk' io'. pose proof Hinv as (own & q & H & _).
  assert (io_send io' fd = io_send io fd ++ k) as Es by (simpl; unfold update; by rewrite Z.eqb_refl).
  assert (io_wire io' fd = io_wire io fd) as Ew by (simpl; unfold update; by rewrite Z.eqb_refl, app_nil_r).
  split; [|done]. split_and!; [by eapply inv_irrelevant| | |by exists s, sq].
  - apply (carries_frame max fd own q io io' []); try done. rewrite app_nil_r. apply H.
  - rewrite Es. by apply Forall_app.
Qed.

Lemma sent_at_most out inn io : carries max fd out inn io →
  len (io_wire io fd) <= len out ∧ (len out <= len (io_wire io fd) → io_wire io fd = out).
Proof.
  intros (s & sq & ds & p & q & _ & <- & _). pose proof (len_nonneg (concat ds)). rewrite len_app. split; [lia|].
  intros Hle. assert (concat ds = []) as -> by (destruct (concat ds); [done|len]). by rewrite app_nil_r.
Qed.

Lemma output_rounds_drain W out inn ks : ∀ io,
  sending max fd W out inn io → Forall (λ k, k ≠ [] ∧ Forall takes_bytes k) ks →
  len out - len (io_wire io fd) <= len ks →
  returns (run max size accepts shutdown_rd (output_rounds fd ks) io) (λ '(_, io'), io_wire io' fd = out).
Proof.
  induction ks as [|k ks IH]; intros io H Hks Hlen; cbn [output_rounds mbind list_bind run app].
  { apply returns_ok. destruct H as (_ & Hc & _). apply (sent_at_most _ _ _ Hc). rewrite len_nil in Hlen. lia. }
  apply Forall_cons in Hks as [[Hne Hk] Hks]. destruct (sending_drains W out inn io k H Hk) as (H1 & Es & Ew).
  change (happen max size accepts shutdown_rd (Drains fd k) io) with
    (Ok ([] : list logged, with_send fd (io_send io fd ++ k) [] io)).
  rewrite bind_ok. set (io1 := with_send _ _ _ _) in *. cbn [happen].
  eapply returns_bind with (P := λ r, io_wire r.2 fd = out); [|by intros [l io'] Hr; apply returns_ok].
  eapply returns_bind with (P := λ '(_, io2), sending max fd W out inn io2 ∧
    (len (io_wire io1 fd) < len (io_wire io2 fd) ∨ io_wire io2 fd = out)).
  - eapply returns_bind; [apply output_round; [exact H1|rewrite Es; by destruct (io_send io fd)]|].
    intros [b io2] Hr. by apply returns_ok.
  - intros [l io2] [H2 Hprog]. eapply returns_bind; [apply (IH io2); [done..|]|].
    + rewrite Ew in Hprog. destruct H2 as (_ & Hc & _). pose proof (len_nonneg ks).
      rewrite len_cons in Hlen. destruct Hprog as [Hlt | ->]; lia.
    + intros [l2 io3] E. by apply returns_ok.
Qed.
End output.

(** ** The properties *)

(** Claim C3.  No byte of a connection goes astray.  In any run (turns of the I/O
    thread with whatever events on whatever descriptors, bytes that arrive, room
    that the network makes, connections made and lost, and the worker taking
    messages and making its calls, in any order), if the worker does not close
    this connection itself and its responses hold at least a byte, the run has no
    undefined behaviour (it may abort on an assertion) and if it ends, the
    connection is closed or accounted for: the bytes on the wire and those waiting to be sent are those
    there were, and the accepted responses, in order; the bytes of the packages
    the worker took, then those waiting for it, then those in the socket and in
    the network are those there were, and those that arrived, in order.  A
    connection that has bytes to send is watched for output. *)
Theorem connection_conserves_bytes max W size accepts shutdown_rd fd es io out inn :
  size <= 2 ^ 31 → io_inv max W io → carries max fd out inn io → Forall (leaves_open fd) es →
  safe (run max size accepts shutdown_rd es io) (λ '(log, io'),
    closes_it fd io io' ∨ ∃ s sq ds p q,
      connected max fd s sq ds p q io' ∧
      io_wire io' fd ++ concat ds = out ++ concat (accepted fd <$> log) ∧
      concat (taken fd <$> log) ++ inbound fd (io_heap io') q ++ p ++ stream (io_recv io' fd) =
        inn ++ concat (arrived fd <$> log)).
Proof.
  intros Hsize H Hc Hes. eapply safe_mono; [by eapply run_accounts|]. intros [log io'] (_ & _ & Ha).
  destruct (Ha out inn Hc) as [?|(inn' & (s & sq & ds & p & q & Hio & Ho & <-) & Hi)]; [by left|right].
  by exists s, sq, ds, p, q.
Qed.

(** Claim C7.  Waiting output is written.  If in each of as many rounds as there
    are bytes to send the kernel makes room on the connection for at least one
    byte and reports it, the I/O thread puts all of them on the wire, in order:
    it needs no other event and no call of the worker.  (The send queue must have
    slots enough before its read index runs off its end.) *)
Theorem waiting_output_is_written max W size accepts shutdown_rd fd out inn io ks :
  sending max fd W out inn io → Forall (λ k, k ≠ [] ∧ Forall takes_bytes k) ks →
  len out - len (io_wire io fd) <= len ks →
  returns (run max size accepts shutdown_rd (output_rounds fd ks) io) (λ '(_, io'), io_wire io' fd = out).
Proof. apply output_rounds_drain. Qed.

(** ** A run: two packages wait to be sent, a third is queued, and one arrives *)
Module ConnDemo.
Definition io : slam_io_thread :=
  {| io_mq := Demo.queue; io_poll := {[5 := Z.lor EPOLLIN EPOLLOUT]}; io_sockets := {[5 := Demo.writer]};
     io_heap := IoDemo.heap; io_recv := λ _, []; io_send := λ _, []; io_accept := λ _, []; io_wire := λ _, [];
     io_closed := [] |}.

Definition event (mask : Z) : slam_poll_event := {| ev_events := mask; ev_fd := 5 |}.

Definition es : list happening :=
  [Arrives 5 (Demo.piece (take 7 Demo.frame1)); Responds 5 Demo.frame2; Turns false [event EPOLLIN];
   Connects 9 9; Drains 5 [Room 30; Room 10; SFail EAGAIN]; Turns false [event (Z.lor EPOLLIN EPOLLOUT)];
   Arrives 5 (Demo.piece (drop 7 Demo.frame1)); Turns false [event EPOLLIN]; Takes; Shuts 9].

Definition accepts (fd : Z) : bool := true.
Definition shutdown_rd (k : list recv_event) : list recv_event := [Eof].

Lemma inv_holds : io_inv 64 (λ x, x = 3%positive) io.
Proof. by eapply inv_irrelevant; [apply IoDemo.io_inv_holds|..]. Qed.

Lemma carried : carries 64 5 (Demo.frame1 ++ Demo.frame2) [] io.
Proof.
  exists Demo.writer, [1; 2]%positive, [Demo.frame1; Demo.frame2], [], []. split_and!; [split|done|done].
  all: try done; try apply Demo.writer_rep; try apply Demo.queue_rep.
  constructor; [|constructor; [|constructor]]; [exists (Demo.message Demo.frame1), Demo.frame1
    |exists (Demo.message Demo.frame2), Demo.frame2]; by split_and!.
Qed.

Lemma left_open : Forall (leaves_open 5) es.
Proof. by repeat constructor. Qed.

Lemma ready_to_send : sending 64 5 (λ x, x = 3%positive) (Demo.frame1 ++ Demo.frame2) [] io.
Proof.
  split; [apply inv_holds|]. split; [apply carried|]. split; [constructor|].
  exists Demo.writer, [1; 2]%positive. split; [done|]. split; [apply Demo.writer_rep|]. vm_compute. reflexivity.
Qed.

(** The kernel has taken 30 bytes of 56; the package that came in two pieces has
    been taken by the worker. *)
Example run_result :
  match run 64 4 accepts shutdown_rd es io with
  | Ok (log, io') =>
      (io_wire io' 5, concat (taken 5 <$> log), concat (accepted 5 <$> log), io_closed io') =
      (take 30 (Demo.frame1 ++ Demo.frame2), Demo.frame1, Demo.frame2, [])
  | _ => False
  end.
Proof. vm_compute. reflexivity. Qed.
End ConnDemo.

Lemma connection_conserves_bytes_witness :
  safe (run 64 4 ConnDemo.accepts ConnDemo.shutdown_rd ConnDemo.es ConnDemo.io) (λ '(log, io'),
    closes_it 5 ConnDemo.io io' ∨ ∃ s sq ds p q,
      connected 64 5 s sq ds p q io' ∧
      io_wire io' 5 ++ concat ds = (Demo.frame1 ++ Demo.frame2) ++ concat (accepted 5 <$> log) ∧
      concat (taken 5 <$> log) ++ inbound 5 (io_heap io') q ++ p ++ stream (io_recv io' 5) =
        [] ++ concat (arrived 5 <$> log)).
Proof.
  apply (connection_conserves_bytes 64 (λ x, x = 3%positive) 4 ConnDemo.accepts ConnDemo.shutdown_rd 5
    ConnDemo.es ConnDemo.io (Demo.frame1 ++ Demo.frame2) []);
    [lia|apply ConnDemo.inv_holds|apply ConnDemo.carried|apply ConnDemo.left_open].
Defined.

Lemma waiting_output_is_written_witness :
  returns (run 64 4 ConnDemo.accepts ConnDemo.shutdown_rd (output_rounds 5 (replicate 38 [Room 1])) ConnDemo.io)
    (λ '(_, io'), io_wire io' 5 = Demo.frame1 ++ Demo.frame2).
Proof.
  apply (waiting_output_is_written 64 (λ x, x = 3%positive) 4 ConnDemo.accepts ConnDemo.shutdown_rd 5
    (Demo.frame1 ++ Demo.frame2) [] ConnDemo.io (replicate 38 [Room 1]));
    [apply ConnDemo.ready_to_send|by repeat constructor|vm_compute; discriminate].
Defined.
