(* ===== verification/Interleave.v ===== *)
(** * Threads as programs over shared memory, and reasoning about them

    A program of a thread is a tree of single accesses: each asks the shared
    state for an answer and goes on with it.  Two programs interleave access by
    access.  [thread_ok] is a rely/guarantee judgement: whatever the other thread
    does in between ([R]), each access of this one keeps its promise ([G]); the
    judgements of two threads whose promises are each other's assumptions give
    the judgement of the pair ([pair_ok_steps]). *)

From S2P Require Import Prelude.
From stdpp Require Import relations.

(** What an access does to the state, and when it is undefined. *)
Class Machine (op : Type → Type) (St : Type) := {
  op_step {X} : op X → St → X → St → Prop;
  op_fault {X} : op X → St → Prop;
}.

(** ** Programs *)

(** Why a thread takes no further step: a failed [assert], or a loop of the model
    that has used up its fuel. *)
Inductive halt_reason := Assertion | FuelSpent.

Inductive prog (op : Type → Type) (A : Type) : Type :=
  | Ret (a : A)
  | Halt (why : halt_reason)
  | Act {X : Type} (o : op X) (k : X → prog op A).
Arguments Ret {op A} a.
Arguments Halt {op A} why.
Arguments Act {op A X} o k.

(** A single access. *)
Definition act {op : Type → Type} {X} (o : op X) : prog op X := Act o Ret.

Fixpoint prog_bind {op : Type → Type} {A B} (f : A → prog op B) (p : prog op A) : prog op B :=
  match p with
  | Ret a => f a
  | Halt why => Halt why
  | Act o k => Act o (λ x, prog_bind f (k x))
  end.

#[export] Instance prog_ret op : MRet (prog op) := λ A a, Ret a.
#[export] Instance prog_mbind op : MBind (prog op) := λ A B f p, prog_bind f p.

Notation "'CHECK' b ;; k" := (if b then k else Halt Assertion)
  (at level 10, b at level 99, k at level 200, format "CHECK  b ;;  '/' k") : c_scope.

(** The next access of a program is undefined. *)
Definition faults {op St A} `{!Machine op St} (p : prog op A) (s : St) : Prop :=
  match p with Act o _ => op_fault o s | _ => False end.

(** ** Rely and guarantee *)
Section judgement.
Context {op : Type → Type} {St : Type} `{!Machine op St}.
Context (R G : St → St → Prop).
Implicit Types (s : St).

(** With [strict] no access is undefined; without it, nothing is said of what
    follows an undefined one. *)
Fixpoint thread_ok (strict : bool) {A} (p : prog op A) (Q : A → St → Prop) s : Prop :=
  ∀ s', rtc R s s' →
    match p with
    | Ret a => Q a s'
    | Halt _ => True
    | Act o k =>
        (strict = true → ¬ op_fault o s') ∧
        ∀ x s'', op_step o s' x s'' → G s' s'' ∧ thread_ok strict (k x) Q s''
    end.

Definition stable (P : St → Prop) : Prop := ∀ s s', P s → R s s' → P s'.

Lemma stable_rtc P s s' : stable P → P s → rtc R s s' → P s'.
Proof. intros HP H. induction 1; eauto. Qed.

Lemma stable_and P P' : stable P → stable P' → stable (λ s, P s ∧ P' s).
Proof. intros H H' s s' [Hp Hp'] Hr. eauto. Qed.

Lemma stable_pure (P : Prop) : stable (λ _, P).
Proof. by intros s s' H _. Qed.

Lemma ok_env strict {A} (p : prog op A) Q s s' :
  thread_ok strict p Q s → rtc R s s' → thread_ok strict p Q s'.
Proof. destruct p; simpl; intros H Hr s1 Hr1; apply (H s1); by transitivity s'. Qed.

Lemma ok_ret strict {A} (a : A) Q s : stable (Q a) → Q a s → thread_ok strict (Ret a) Q s.
Proof. intros HQ H s' Hr. by eapply stable_rtc. Qed.

Lemma ok_halt strict {A} why (Q : A → St → Prop) s : thread_ok strict (Halt why) Q s.
Proof. by intros s' _. Qed.

Lemma ok_bind strict {A B} (p : prog op A) (f : A → prog op B) P Q s :
  thread_ok strict p P s → (∀ a s, P a s → thread_ok strict (f a) Q s) →
  thread_ok strict (p ≫= f) Q s.
Proof.
  intros Hp Hf. revert s Hp. induction p as [a|why|X o k IH]; intros s Hp.
  - apply Hf. apply Hp. reflexivity.
  - apply ok_halt.
  - intros s' Hr. destruct (Hp s' Hr) as [Hs Hk]. split; [done|]. intros x s'' Hx.
    destruct (Hk x s'' Hx) as [HG Hok]. split; [done|]. by apply IH.
Qed.

Lemma ok_mono strict {A} (p : prog op A) (P Q : A → St → Prop) s :
  thread_ok strict p P s → (∀ a s, P a s → Q a s) → thread_ok strict p Q s.
Proof.
  intros Hp HQ. revert s Hp. induction p as [a|why|X o k IH]; intros s Hp s' Hr; [by apply HQ, Hp|done|].
  destruct (Hp s' Hr) as [Hs Hk]. split; [done|]. intros x s'' Hx. destruct (Hk x s'' Hx). auto.
Qed.

(** An assertion that neither thread disturbs. *)
Lemma ok_frame strict {A} (p : prog op A) (Q : A → St → Prop) (F : St → Prop) s :
  thread_ok strict p Q s → stable F → (∀ s s', G s s' → F s → F s') → F s →
  thread_ok strict p (λ a s, Q a s ∧ F s) s.
Proof.
  intros Hp HF HG. revert s Hp. induction p as [a|why|X o k IH]; intros s Hp Hs s' Hr;
    pose proof (stable_rtc _ _ _ HF Hs Hr) as Hs'; [by split; [apply Hp|]|done|].
  destruct (Hp s' Hr) as [Hst Hk]. split; [done|]. intros x s'' Hx. destruct (Hk x s'' Hx). eauto.
Qed.

(** One access, between two assertions the other thread keeps. *)
Lemma ok_act strict {X} (o : op X) P Q s :
  stable P → (∀ x, stable (Q x)) → P s →
  (∀ s, P s → strict = true → ¬ op_fault o s) →
  (∀ s x s', P s → op_step o s x s' → G s s' ∧ Q x s') →
  thread_ok strict (act o) Q s.
Proof.
  intros HP HQ Hs Hf Hstep s' Hr. assert (P s') as Hs' by by eapply stable_rtc. split; [by apply Hf|].
  intros x s'' Hx. destruct (Hstep _ _ _ Hs' Hx) as [HG H]. split; [done|]. by apply ok_ret.
Qed.
End judgement.

Lemma ok_weaken {op : Type → Type} {St : Type} `{!Machine op St} (R G G' : St → St → Prop) strict {A}
    (p : prog op A) Q s :
  (∀ s s', G s s' → G' s s') → thread_ok R G strict p Q s → thread_ok R G' strict p Q s.
Proof.
  intros HG. revert s. induction p as [a|why|X o k IH]; intros s Hp s' Hr; [by apply Hp|done|].
  destruct (Hp s' Hr) as [Hst Hk]. split; [done|]. intros x s'' Hx. destruct (Hk x s'' Hx). eauto.
Qed.
#[global] Arguments thread_ok : simpl never.

(** ** Two threads *)
Section pair.
Context {op : Type → Type} {St : Type} `{!Machine op St}.

Record pair_conf := { pc_left : prog op unit; pc_right : prog op unit; pc_state : St }.

Inductive pair_step : pair_conf → pair_conf → Prop :=
  | step_left X (o : op X) k q s x s' : op_step o s x s' →
      pair_step {| pc_left := Act o k; pc_right := q; pc_state := s |}
                {| pc_left := k x; pc_right := q; pc_state := s' |}
  | step_right X (o : op X) k p s x s' : op_step o s x s' →
      pair_step {| pc_left := p; pc_right := Act o k; pc_state := s |}
                {| pc_left := p; pc_right := k x; pc_state := s' |}.

Context (G1 G2 : St → St → Prop) (J : St → Prop) (b1 b2 : bool).
Context (Q1 Q2 : unit → St → Prop).

Definition pair_ok (c : pair_conf) : Prop :=
  thread_ok G2 G1 b1 (pc_left c) Q1 (pc_state c) ∧ thread_ok G1 G2 b2 (pc_right c) Q2 (pc_state c) ∧
  J (pc_state c).

Context (HJ1 : ∀ s s', G1 s s' → J s → J s') (HJ2 : ∀ s s', G2 s s' → J s → J s').

Lemma pair_ok_step c c' : pair_ok c → pair_step c c' → pair_ok c'.
Proof.
  intros (H1 & H2 & HJ) Hstep. destruct Hstep as [X o k q s x s' Hx|X o k p s x s' Hx]; simpl in *.
  - destruct (H1 s) as [_ Hk]; [reflexivity|]. destruct (Hk _ _ Hx) as [HG Hok].
    split; [done|]. split; [|by eapply HJ1]. eapply ok_env; [done|]. by apply rtc_once.
  - destruct (H2 s) as [_ Hk]; [reflexivity|]. destruct (Hk _ _ Hx) as [HG Hok].
    split; [|split; [done|by eapply HJ2]]. eapply ok_env; [done|]. by apply rtc_once.
Qed.

Lemma pair_ok_steps c c' : pair_ok c → rtc pair_step c c' → pair_ok c'.
Proof. intros H. induction 1; eauto using pair_ok_step. Qed.

Lemma ok_no_fault R G {A} (p : prog op A) (Q : A → St → Prop) s : thread_ok R G true p Q s → ¬ faults p s.
Proof.
  destruct p as [| |X o k]; simpl; [by intros ? []..|]. intros H Hf. destruct (H s) as [Hs _]; [reflexivity|].
  by apply Hs.
Qed.
End pair.
Arguments pair_conf : clear implicits.
