(* ===== verification/SocketThreads.v ===== *)
(** * The array of sockets between two threads ([slam_io_thread.c], [slam_socket.c])

    The worker's calls and the I/O thread use [io->sockets], the sockets and their
    send queues without a lock.  Here the functions are programs of single
    accesses to what the threads share: the entries of the array, the poll, the
    sockets, the send queues and the messages in them.  The program's structure is
    that of [IoThread]; what a thread does with memory of its own, the bytes and
    the global queue (which [QueueThreads] interleaves), is left out.  Memory that
    has been freed is not handed out again: a use of it is undefined. *)

From S2P Require Import Prelude Socket Poll IoThread Interleave.

(** ** The shared state *)
Inductive thread := Worker | IO.

#[export] Instance thread_eq_dec : EqDecision thread.
Proof. solve_decision. Defined.

(** A socket: [so_sendmq] is [None] once the queue is deleted.  Who made it and
    whether it has been in the array are its history. *)
Record sock := {
  so_fd : Z;
  so_type : Z;
  so_open : bool;                      (* its descriptor is not closed *)
  so_sendmq : option (list loc);
  so_by : thread;
  so_published : bool;
}.

(** A message: [ms_pushed] tells whether it has been given to a send queue. *)
Record msg := { ms_fd : Z; ms_pushed : bool }.

Record shared := {
  sh_slots : gmap Z loc;               (* the entries of [io->sockets] that are not null *)
  sh_poll : gset Z;
  sh_heap : gmap loc sock;
  sh_messages : gmap loc msg;
  sh_brk : loc;
}.

Definition shared_new : shared :=
  {| sh_slots := ∅; sh_poll := ∅; sh_heap := ∅; sh_messages := ∅; sh_brk := 1 |}.

Definition set_slots f s := {| sh_slots := f (sh_slots s); sh_poll := sh_poll s; sh_heap := sh_heap s;
  sh_messages := sh_messages s; sh_brk := sh_brk s |}.
Definition set_poll f s := {| sh_slots := sh_slots s; sh_poll := f (sh_poll s); sh_heap := sh_heap s;
  sh_messages := sh_messages s; sh_brk := sh_brk s |}.
Definition set_heap f s := {| sh_slots := sh_slots s; sh_poll := sh_poll s; sh_heap := f (sh_heap s);
  sh_messages := sh_messages s; sh_brk := sh_brk s |}.
Definition set_messages f s := {| sh_slots := sh_slots s; sh_poll := sh_poll s; sh_heap := sh_heap s;
  sh_messages := f (sh_messages s); sh_brk := sh_brk s |}.
Definition next_brk s := {| sh_slots := sh_slots s; sh_poll := sh_poll s; sh_heap := sh_heap s;
  sh_messages := sh_messages s; sh_brk := Pos.succ (sh_brk s) |}.

Definition with_type (t : Z) so := {| so_fd := so_fd so; so_type := t; so_open := so_open so;
  so_sendmq := so_sendmq so; so_by := so_by so; so_published := so_published so |}.
Definition with_sendmq (q : option (list loc)) so := {| so_fd := so_fd so; so_type := so_type so;
  so_open := so_open so; so_sendmq := q; so_by := so_by so; so_published := so_published so |}.
Definition closed so := {| so_fd := so_fd so; so_type := so_type so; so_open := false;
  so_sendmq := so_sendmq so; so_by := so_by so; so_published := so_published so |}.
Definition published so := {| so_fd := so_fd so; so_type := so_type so; so_open := so_open so;
  so_sendmq := so_sendmq so; so_by := so_by so; so_published := true |}.
Definition pushed m := {| ms_fd := ms_fd m; ms_pushed := true |}.

(** ** Accesses *)
Inductive access : Type → Type :=
  | Deref (p : ptr) : access loc                    (* a pointer that must not be null *)
  | SocketNew (t : thread) (type : Z) : access ptr  (* a new descriptor, and the socket for it *)
  | SocketFd (y : loc) : access Z
  | SocketType (y : loc) : access Z
  | SetType (y : loc) (type : Z) : access unit
  | CloseFd (y : loc) : access unit
  | SocketFree (y : loc) : access unit
  | LoadSlot (fd : Z) : access ptr
  | StoreSlot (fd : Z) (p : ptr) : access unit
  | PollAdd (fd : Z) : access bool
  | PollRemove (fd : Z) : access bool
  | PollOut (fd : Z) : access bool
  | QueueEmpty (y : loc) : access bool
  | QueueFront (y : loc) : access ptr
  | QueuePop (y : loc) : access ptr
  | QueuePush (y x : loc) : access bool
  | QueueFree (y : loc) : access unit
  | MessageNew (fd : Z) : access loc
  | MessageFd (x : loc) : access Z
  | MessageTouch (x : loc) : access unit            (* [bytesize], [buf] *)
  | MessageFree (x : loc) : access unit.

(** The descriptor belongs to a socket that is open. *)
Definition fd_in_use (fd : Z) (s : shared) : Prop :=
  ∃ y so, sh_heap s !! y = Some so ∧ so_fd so = fd ∧ so_open so = true.

Definition sendmq (y : loc) (s : shared) : option (list loc) := sh_heap s !! y ≫= so_sendmq.

(** Stores go through this when their effect is on the socket alone. *)
Definition update_sock (y : loc) (f : sock → sock) : shared → shared := set_heap (alter f y).

(** The array holds a new socket. *)
Definition publish_slot (fd : Z) (p : ptr) (s : shared) : shared :=
  match p with
  | Some y => update_sock y published (set_slots (insert fd y) s)
  | None => set_slots (delete fd) s
  end.

(** A new socket. *)
Definition new_sock (t : thread) (fd type : Z) : sock :=
  {| so_fd := fd; so_type := type; so_open := true; so_sendmq := Some []; so_by := t; so_published := false |}.

(** The message [x] goes behind the queue [q] of [y]. *)
Definition push (y x : loc) (q : list loc) (s : shared) : shared :=
  set_messages (alter pushed x) (update_sock y (with_sendmq (Some (q ++ [x]))) s).

(** What an access answers, and the state after it.  Which descriptor the kernel
    hands out, whether the poll takes it and whether a queue is full are left
    open. *)
Definition access_step {X} (o : access X) : shared → X → shared → Prop :=
  match o in access X return shared → X → shared → Prop with
  | Deref p => λ s y s', p = Some y ∧ s' = s
  | SocketNew t type => λ s p s',
      (p = None ∧ s' = s) ∨
      ∃ fd, ¬ fd_in_use fd s ∧ p = Some (sh_brk s) ∧
        s' = next_brk (set_heap (insert (sh_brk s) (new_sock t fd type)) s)
  | SocketFd y => λ s fd s', so_fd <$> sh_heap s !! y = Some fd ∧ s' = s
  | SocketType y => λ s t s', so_type <$> sh_heap s !! y = Some t ∧ s' = s
  | SetType y type => λ s _ s', is_Some (sh_heap s !! y) ∧ s' = update_sock y (with_type type) s
  | CloseFd y => λ s _ s', ∃ so, sh_heap s !! y = Some so ∧
      s' = set_poll (.∖ {[so_fd so]}) (update_sock y closed s)
  | SocketFree y => λ s _ s', is_Some (sh_heap s !! y) ∧ s' = set_heap (delete y) s
  | LoadSlot fd => λ s p s', p = sh_slots s !! fd ∧ s' = s
  | StoreSlot fd p => λ s _ s', s' = publish_slot fd p s
  | PollAdd fd => λ s b s', s' = if (b : bool) then set_poll (.∪ {[fd]}) s else s
  | PollRemove fd => λ s _ s', s' = set_poll (.∖ {[fd]}) s
  | PollOut fd => λ s b s', b = bool_decide (fd ∈ sh_poll s) ∧ s' = s
  | QueueEmpty y => λ s b s', ∃ q, sendmq y s = Some q ∧ b = bool_decide (q = []) ∧ s' = s
  | QueueFront y => λ s p s', ∃ q, sendmq y s = Some q ∧ p = head q ∧ s' = s
  | QueuePop y => λ s p s', ∃ q, sendmq y s = Some q ∧ p = head q ∧
      s' = update_sock y (with_sendmq (Some (tail q))) s
  | QueuePush y x => λ s b s', ∃ q, sendmq y s = Some q ∧
      s' = if (b : bool) then push y x q s else s
  | QueueFree y => λ s _ s', is_Some (sendmq y s) ∧ s' = update_sock y (with_sendmq None) s
  | MessageNew fd => λ s x s', x = sh_brk s ∧
      s' = next_brk (set_messages (insert (sh_brk s) {| ms_fd := fd; ms_pushed := false |}) s)
  | MessageFd x => λ s fd s', ms_fd <$> sh_messages s !! x = Some fd ∧ s' = s
  | MessageTouch x => λ s _ s', is_Some (sh_messages s !! x) ∧ s' = s
  | MessageFree x => λ s _ s', is_Some (sh_messages s !! x) ∧ s' = set_messages (delete x) s
  end.

Definition access_fault {X} (o : access X) (s : shared) : Prop :=
  match o with
  | Deref p => p = None
  | SocketFd y | SocketType y | SetType y _ | CloseFd y | SocketFree y => sh_heap s !! y = None
  | QueueEmpty y | QueueFront y | QueuePop y | QueuePush y _ | QueueFree y => sendmq y s = None
  | MessageFd x | MessageTouch x | MessageFree x => sh_messages s !! x = None
  | _ => False
  end.

#[export] Instance access_machine : Machine access shared := {
  op_step X := @access_step X;
  op_fault X := @access_fault X;
}.

(** ** The functions of the socket *)

(** [slam_message_queue_delete] on the send queue of [y]. *)
Fixpoint delete_sendmq (fuel : nat) (y : loc) : prog access unit :=
  match fuel with
  | O => Halt FuelSpent
  | S fuel =>
      empty ← act (QueueEmpty y);
      if negb (negb empty) then act (QueueFree y)
      else
        p ← act (QueuePop y);
        x ← act (Deref p);
        act (MessageFree x);;
        delete_sendmq fuel y
  end.

(** The message being read is the I/O thread's own. *)
Definition slam_socket_delete (fuel : nat) (y : loc) : prog access unit :=
  act (CloseFd y);;
  delete_sendmq fuel y;;
  act (SocketFree y).

(** What [send] reports: an error or a lost connection, no room, a part sent, the
    rest of the message sent. *)
Inductive send_report := SendLost | SendAgain | SendPart | SendRest.

Fixpoint slam_socket_poll_write (y : loc) (sends : list send_report) : prog access bool :=
  empty ← act (QueueEmpty y);
  if negb (negb empty) then Ret true
  else
    p ← act (QueueFront y);
    x ← act (Deref p);
    act (MessageTouch x);;
    _ ← act (SocketFd y);
    match sends with
    | [] | SendAgain :: _ => Ret true
    | SendLost :: _ => Ret false
    | SendPart :: sends => act (MessageTouch x);; slam_socket_poll_write y sends
    | SendRest :: sends =>
        act (MessageTouch x);;
        _ ← act (QueuePop y);
        act (MessageFree x);;
        slam_socket_poll_write y sends
    end.

(** [slam_socket_poll_read] asks for the descriptor before each of its [recv]. *)
Fixpoint slam_socket_poll_read (y : loc) (recvs : nat) (b : bool) : prog access bool :=
  match recvs with
  | O => Ret b
  | S recvs => _ ← act (SocketFd y); slam_socket_poll_read y recvs b
  end.

(** ** The functions of the I/O thread *)
Definition slam_io_thread_add_socket (newsocket : loc) : prog access bool :=
  fd ← act (SocketFd newsocket);
  CHECK VALID_SOCKET fd ;;
  p ← act (LoadSlot fd);
  CHECK bool_decide (p = None) ;;
  added ← act (PollAdd fd);
  if negb added then Ret false
  else
    act (StoreSlot fd (Some newsocket));;
    Ret true.

Definition slam_io_thread_remove_socket (fuel : nat) (fd : Z) : prog access unit :=
  CHECK VALID_SOCKET fd ;;
  p ← act (LoadSlot fd);
  match p with
  | None => Ret tt
  | Some _ =>
      _ ← act (PollRemove fd);
      p ← act (LoadSlot fd);
      y ← act (Deref p);
      slam_socket_delete fuel y;;
      act (StoreSlot fd None)
  end.

(** Turns of the loop at most [accepts]; it ends when there is no connection. *)
Fixpoint accept_loop (fuel : nat) (y : loc) (accepts : nat) : prog access unit :=
  match accepts with
  | O => Ret tt
  | S accepts =>
      _ ← act (SocketFd y);
      p ← act (SocketNew IO SOCKET_CONNECTION);
      match p with
      | None => Ret tt
      | Some newsocket =>
          (added ← slam_io_thread_add_socket newsocket;
           if negb added then slam_socket_delete fuel newsocket
           else _ ← act (SocketFd newsocket); Ret tt);;
          accept_loop fuel y accepts
      end
  end.

Definition slam_io_thread_accept_socket (fuel : nat) (y : loc) (accepts : nat) : prog access unit :=
  type ← act (SocketType y);
  CHECK bool_decide (type = SOCKET_SERVER) ;;
  accept_loop fuel y accepts.

(** What the kernel tells while an event is handled. *)
Record io_answers := {
  ia_accepts : nat;
  ia_recvs : nat;
  ia_read : bool;                      (* the result of [slam_socket_poll_read] *)
  ia_sends : list send_report;
  ia_fuel : nat;                       (* for emptying a send queue *)
}.

Definition slam_io_thread_read_socket (a : io_answers) (fd : Z) : prog access unit :=
  CHECK VALID_SOCKET fd ;;
  p ← act (LoadSlot fd);
  match p with
  | None => Ret tt                     (* already close *)
  | Some _ =>
      p ← act (LoadSlot fd);
      y ← act (Deref p);
      type ← act (SocketType y);
      if bool_decide (type = SOCKET_SERVER) then slam_io_thread_accept_socket (ia_fuel a) y (ia_accepts a)
      else
        b ← slam_socket_poll_read y (ia_recvs a) (ia_read a);
        if negb b then slam_io_thread_remove_socket (ia_fuel a) fd else Ret tt
  end.

Definition slam_io_thread_write_socket (a : io_answers) (fd : Z) : prog access unit :=
  CHECK VALID_SOCKET fd ;;
  p ← act (LoadSlot fd);
  match p with
  | None => Ret tt                     (* already close *)
  | Some _ =>
      p ← act (LoadSlot fd);
      y ← act (Deref p);
      type ← act (SocketType y);
      CHECK negb (bool_decide (type = SOCKET_SERVER)) ;;
      b ← slam_socket_poll_write y (ia_sends a);
      if negb b then slam_io_thread_remove_socket (ia_fuel a) fd else Ret tt
  end.

Definition do_event (event : slam_poll_event) (a : io_answers) : prog access unit :=
  let fd := ev_fd event in
  let has mask := negb (Z.land (ev_events event) mask =? 0) in
  if has EPOLLERR then slam_io_thread_remove_socket (ia_fuel a) fd
  else if has EPOLLHUP then slam_io_thread_remove_socket (ia_fuel a) fd
  else if has EPOLLRDHUP then slam_io_thread_remove_socket (ia_fuel a) fd
  else
    (if has EPOLLIN then slam_io_thread_read_socket a fd else Ret tt);;
    if has EPOLLOUT then slam_io_thread_write_socket a fd else Ret tt.

(** The thread, for any events and what the kernel tells meanwhile. *)
Fixpoint io_thread (events : list (slam_poll_event * io_answers)) : prog access unit :=
  match events with
  | [] => Ret tt
  | (event, a) :: events => do_event event a;; io_thread events
  end.

(** ** The functions the worker calls *)

(** [slam_socket_new], then [slam_socket_bind] or [slam_socket_connect], which
    assert that there is a socket and set its type when they succeed. *)
Definition open_socket (type : Z) (ok : bool) : prog access Z :=
  p ← act (SocketNew Worker SOCKET_NONE);
  match p with
  | None => Halt Assertion
  | Some y =>
      if negb ok then slam_socket_delete 1 y;; Ret INVALID_SOCKET
      else
        act (SetType y type);;
        added ← slam_io_thread_add_socket y;
        if negb added then slam_socket_delete 1 y;; Ret INVALID_SOCKET
        else act (SocketFd y)
  end.

Definition slam_io_newserver (bound : bool) : prog access Z := open_socket SOCKET_SERVER bound.
Definition slam_io_newclient (connected : bool) : prog access Z := open_socket SOCKET_CLIENT connected.

Definition slam_io_response (x : loc) : prog access bool :=
  fd ← act (MessageFd x);
  if negb (VALID_SOCKET fd) then Ret false
  else
    p ← act (LoadSlot fd);
    match p with
    | None => Ret false                (* already close *)
    | Some _ =>
        p ← act (LoadSlot fd);
        act (MessageTouch x);;
        y ← act (Deref p);
        pushed ← act (QueuePush y x);
        if negb pushed then Ret false  (* mq is full *)
        else
          fd ← act (MessageFd x);
          act (PollOut fd)
    end.

Inductive worker_call :=
  | CallNewserver (bound : bool)
  | CallNewclient (connected : bool)
  | CallResponse (fd : Z)
  | CallClosesocket (fd : Z).          (* only the kernel's [shutdown] *)

Definition do_call (c : worker_call) : prog access unit :=
  match c with
  | CallNewserver bound => _ ← slam_io_newserver bound; Ret tt
  | CallNewclient connected => _ ← slam_io_newclient connected; Ret tt
  | CallResponse fd => x ← act (MessageNew fd); _ ← slam_io_response x; Ret tt
  | CallClosesocket _ => Ret tt
  end.

Fixpoint worker (calls : list worker_call) : prog access unit :=
  match calls with
  | [] => Ret tt
  | c :: calls => do_call c;; worker calls
  end.

Abbreviation system := (pair_conf access shared).

Definition start (calls : list worker_call) (events : list (slam_poll_event * io_answers)) : system :=
  {| pc_left := worker calls; pc_right := io_thread events; pc_state := shared_new |}.

(** ** Running a schedule *)

(** One access by computation, with the answer the model leaves open. *)
Record hint := { hint_fd : Z; hint_bool : bool }.

Definition fd_free (fd : Z) (s : shared) : bool :=
  forallb (λ '(_, so), negb ((so_fd so =? fd) && so_open so)) (map_to_list (sh_heap s)).

Lemma fd_free_spec fd s : fd_free fd s = true → ¬ fd_in_use fd s.
Proof.
  unfold fd_free. rewrite forallb_forall. intros H (y & so & Hy & Hf & Ho).
  specialize (H (y, so)). simpl in H. rewrite Hf, Ho, Z.eqb_refl in H. discriminate H.
  apply list_elem_of_In, elem_of_map_to_list, Hy.
Qed.

Definition exec {X} (h : hint) (o : access X) (s : shared) : option (X * shared) :=
  match o in access X return option (X * shared) with
  | Deref p => (λ y, (y, s)) <$> p
  | SocketNew t type =>
      if fd_free (hint_fd h) s then
        Some (Some (sh_brk s), next_brk (set_heap (insert (sh_brk s) (new_sock t (hint_fd h) type)) s))
      else None
  | SocketFd y => (λ so, (so_fd so, s)) <$> sh_heap s !! y
  | SocketType y => (λ so, (so_type so, s)) <$> sh_heap s !! y
  | SetType y type => (λ _, (tt, update_sock y (with_type type) s)) <$> sh_heap s !! y
  | CloseFd y => (λ so, (tt, set_poll (.∖ {[so_fd so]}) (update_sock y closed s))) <$> sh_heap s !! y
  | SocketFree y => (λ _, (tt, set_heap (delete y) s)) <$> sh_heap s !! y
  | LoadSlot fd => Some (sh_slots s !! fd, s)
  | StoreSlot fd p => Some (tt, publish_slot fd p s)
  | PollAdd fd => Some (hint_bool h, if hint_bool h then set_poll (.∪ {[fd]}) s else s)
  | PollRemove fd => Some (true, set_poll (.∖ {[fd]}) s)
  | PollOut fd => Some (bool_decide (fd ∈ sh_poll s), s)
  | QueueEmpty y => (λ q, (bool_decide (q = []), s)) <$> sendmq y s
  | QueueFront y => (λ q, (head q, s)) <$> sendmq y s
  | QueuePop y => (λ q, (head q, update_sock y (with_sendmq (Some (tail q))) s)) <$> sendmq y s
  | QueuePush y x => (λ q, (hint_bool h, if hint_bool h then push y x q s else s)) <$> sendmq y s
  | QueueFree y => (λ _, (tt, update_sock y (with_sendmq None) s)) <$> sendmq y s
  | MessageNew fd =>
      Some (sh_brk s, next_brk (set_messages (insert (sh_brk s) {| ms_fd := fd; ms_pushed := false |}) s))
  | MessageFd x => (λ m, (ms_fd m, s)) <$> sh_messages s !! x
  | MessageTouch x => (λ _, (tt, s)) <$> sh_messages s !! x
  | MessageFree x => (λ _, (tt, set_messages (delete x) s)) <$> sh_messages s !! x
  end.

Lemma exec_step {X} h (o : access X) s x s' : exec h o s = Some (x, s') → access_step o s x s'.
Proof.
  destruct o; simpl; try (case_match eqn:E; [|done]); try (intros [= <- <-]); try done;
    try (rewrite fmap_Some; intros (v & Hv & [= -> ->]); rewrite ?Hv; simpl; eauto).
  right. exists (hint_fd h). split; [by apply fd_free_spec|]. done.
Qed.

Definition exec_left (h : hint) (c : system) : option system :=
  match pc_left c with
  | Act o k => (λ '(x, s), {| pc_left := k x; pc_right := pc_right c; pc_state := s |}) <$> exec h o (pc_state c)
  | _ => None
  end.

Definition exec_right (h : hint) (c : system) : option system :=
  match pc_right c with
  | Act o k => (λ '(x, s), {| pc_left := pc_left c; pc_right := k x; pc_state := s |}) <$> exec h o (pc_state c)
  | _ => None
  end.

(** [n] accesses of a thread at a time. *)
Fixpoint run (schedule : list (thread * nat)) (h : hint) (c : system) : option system :=
  match schedule with
  | [] => Some c
  | (t, n) :: schedule =>
      c ← Nat.iter n (λ c, c ← c; match t with Worker => exec_left h c | IO => exec_right h c end) (Some c);
      run schedule h c
  end.

Lemma exec_left_step h c c' : exec_left h c = Some c' → pair_step c c'.
Proof.
  destruct c as [[| |X o k] q s]; try done. unfold exec_left. simpl. rewrite fmap_Some.
  intros ([x s'] & E & ->). constructor. by eapply exec_step.
Qed.

Lemma exec_right_step h c c' : exec_right h c = Some c' → pair_step c c'.
Proof.
  destruct c as [p [| |X o k] s]; try done. unfold exec_right. simpl. rewrite fmap_Some.
  intros ([x s'] & E & ->). constructor. by eapply exec_step.
Qed.

Lemma run_steps schedule h : ∀ c c', run schedule h c = Some c' → rtc pair_step c c'.
Proof.
  induction schedule as [|[t n] schedule IH]; intros c c'; simpl; [by intros [= ->]|].
  intros (c1 & Hn & H)%bind_Some. transitivity c1; [|by apply IH]. clear H. revert c1 Hn.
  induction n as [|n IHn]; intros c1; simpl; [by intros [= ->]|]. intros (c2 & H2 & Hs)%bind_Some.
  eapply rtc_r; [by apply IHn|]. destruct t; [by eapply exec_left_step|by eapply exec_right_step].
Qed.
