(* ===== verification/SocketPromise.v ===== *)
(** * What the two threads promise each other about the sockets

    The invariant of the shared state, the promise of each thread to the other,
    and the accesses of [SocketThreads] that keep them. *)

From S2P Require Import Prelude Socket Poll IoThread Interleave SocketThreads.

(** ** The invariant: [d] is the entry of a socket that is being removed, if any *)
Record inv (d : option Z) (s : shared) : Prop := {
  iv_heap_brk y : is_Some (sh_heap s !! y) → (y < sh_brk s)%positive;
  iv_message_brk x : is_Some (sh_messages s !! x) → (x < sh_brk s)%positive;
  iv_slot_brk fd y : sh_slots s !! fd = Some y → (y < sh_brk s)%positive;
  iv_slot fd y : sh_slots s !! fd = Some y → Some fd ≠ d →
    ∃ so, sh_heap s !! y = Some so ∧ so_fd so = fd ∧ so_open so = true ∧ is_Some (so_sendmq so);
  iv_published fd y so : sh_slots s !! fd = Some y → sh_heap s !! y = Some so → so_published so = true;
  iv_fd y y' so so' : sh_heap s !! y = Some so → sh_heap s !! y' = Some so' →
    so_open so = true → so_open so' = true → so_fd so = so_fd so' → y = y';
  iv_queue y q x : sendmq y s = Some q → x ∈ q → ∃ m, sh_messages s !! x = Some m ∧ ms_pushed m = true;
  iv_nodup y q : sendmq y s = Some q → NoDup q;
  iv_disjoint y y' q q' x : sendmq y s = Some q → sendmq y' s = Some q' → x ∈ q → x ∈ q' → y = y';
}.

Lemma inv_some fd s : inv None s → inv (Some fd) s.
Proof. intros I. split; try apply I. intros fd' y Hs _. by apply (iv_slot _ _ I). Qed.

(** The message is in no send queue. *)
Definition unqueued (x : loc) (s : shared) : Prop := ∀ y q, sendmq y s = Some q → x ∉ q.

(** ** The promise of a thread *)
Record promise (t : thread) (s s' : shared) : Prop := {
  pm_inv : match t with
    | Worker => ∀ d, inv d s → inv d s'
    | IO => (∃ d, inv d s) → ∃ d, inv d s'
    end;
  pm_brk : (sh_brk s <= sh_brk s')%positive;
  pm_gone y : (y < sh_brk s)%positive → sh_heap s !! y = None → sh_heap s' !! y = None;
  (* the other thread's new sockets, and their entries, are left alone *)
  pm_new y so : sh_heap s !! y = Some so → so_by so ≠ t → so_published so = false →
    sh_heap s' !! y = Some so ∧
    (so_open so = true → sh_slots s !! so_fd so = None → sh_slots s' !! so_fd so = None);
  pm_published y so : sh_heap s !! y = Some so → so_published so = true →
    match t with
    | Worker => ∃ r, sh_heap s' !! y = Some (with_sendmq ((.++ r) <$> so_sendmq so) so)
    | IO => ∀ so', sh_heap s' !! y = Some so' → so_published so' = true
    end;
  pm_slot fd y : t = Worker → sh_slots s !! fd = Some y → sh_slots s' !! fd = Some y;
  pm_message x m : sh_messages s !! x = Some m →
    match t with
    | Worker => ms_pushed m = true → sh_messages s' !! x = Some m ∧ (unqueued x s → unqueued x s')
    | IO => ms_pushed m = false → sh_messages s' !! x = Some m
    end;
}.

Definition other (t : thread) : thread := match t with Worker => IO | IO => Worker end.

Abbreviation ok t := (thread_ok (promise (other t)) (promise t)).
Abbreviation kept t := (stable (promise (other t))).

(** What a thread knows of the invariant. *)
Definition knows (t : thread) (d : option Z) (s : shared) : Prop :=
  match t with Worker => ∃ d, inv d s | IO => inv d s end.

(** A new socket of its own. *)
Definition mine (t : thread) (y : loc) (so : sock) (s : shared) : Prop :=
  sh_heap s !! y = Some so ∧ so_by so = t ∧ so_published so = false.

(** ** What the other thread keeps *)
Lemma kept_knows t d : kept t (knows t d).
Proof. intros s s' H [Hi _ _ _ _ _ _]. destruct t; simpl in *; [by apply Hi|by apply Hi]. Qed.

Lemma kept_mine t y so : kept t (mine t y so).
Proof.
  intros s s' (Hy & Hb & Hp) H. destruct (pm_new _ _ _ H y so Hy) as [? _]; [|done|done].
  rewrite Hb. by destruct t.
Qed.

Lemma kept_free_slot t y so : so_open so = true →
  kept t (λ s, mine t y so s ∧ sh_slots s !! so_fd so = None).
Proof.
  intros Ho s s' [Hm Hn] H. split; [by eapply kept_mine|]. destruct Hm as (Hy & Hb & Hp).
  destruct (pm_new _ _ _ H y so Hy) as [_ Hs]; [rewrite Hb; by destruct t|done|]. by apply Hs.
Qed.

Lemma kept_true t : kept t (λ _, True).
Proof. done. Qed.

Lemma kept_slot fd y : kept IO (λ s, sh_slots s !! fd = Some y).
Proof. intros s s' Hs H. by apply (pm_slot _ _ _ H). Qed.

(** A message taken from a queue is the I/O thread's. *)
Definition taken (x : loc) (s : shared) : Prop :=
  unqueued x s ∧ ∃ m, sh_messages s !! x = Some m ∧ ms_pushed m = true.

Lemma kept_taken x : kept IO (taken x).
Proof.
  intros s s' (Hu & m & Hm & Hp) H. destruct (pm_message _ _ _ H x m Hm Hp) as [Hm' Hu'].
  split; [by apply Hu'|by exists m].
Qed.

(** A message not yet pushed is the worker's. *)
Definition fresh_message (x : loc) (s : shared) : Prop :=
  ∃ m, sh_messages s !! x = Some m ∧ ms_pushed m = false.

Lemma kept_fresh_message x : kept Worker (fresh_message x).
Proof. intros s s' (m & Hm & Hp) H. exists m. split; [|done]. by apply (pm_message _ _ _ H). Qed.

(** A socket that was in the array: published, or gone. *)
Definition was_published (y : loc) (s : shared) : Prop :=
  (y < sh_brk s)%positive ∧ ∀ so, sh_heap s !! y = Some so → so_published so = true.

Lemma kept_was_published y : kept Worker (was_published y).
Proof.
  intros s s' [Hb Hp] H. pose proof (pm_brk _ _ _ H). split; [lia|]. intros so' Hy'.
  destruct (sh_heap s !! y) as [so|] eqn:Hy.
  - by apply (pm_published _ _ _ H y so Hy (Hp _ eq_refl)).
  - by rewrite (pm_gone _ _ _ H y Hb Hy) in Hy'.
Qed.

Create HintDb kept.
#[export] Hint Resolve stable_and stable_pure kept_knows kept_mine kept_free_slot kept_true kept_slot kept_taken
  kept_fresh_message kept_was_published : kept.

(** ** Accesses that change nothing, and the poll *)
Lemma promise_refl t s : promise t s s.
Proof.
  split; try done.
  - by destruct t.
  - intros y so Hy Hp. destruct t; [|by intros so' ?; simplify_eq].
    exists []. rewrite Hy. f_equal. destruct so as [? ? ? [q|] ? ?]; unfold with_sendmq; simpl; by rewrite ?app_nil_r.
  - intros x m Hx. by destruct t.
Qed.

Lemma inv_poll f d s : inv d s → inv d (set_poll f s).
Proof. by intros []. Qed.

Lemma promise_then_poll t f s s' : promise t s s' → promise t s (set_poll f s').
Proof.
  intros [Hi ? ? ? ? ? ?]. split; try done. destruct t; [intros d H; by apply inv_poll, Hi|].
  intros H. destruct (Hi H) as [d I]. exists d. by apply inv_poll.
Qed.

Lemma promise_poll t f s : promise t s (set_poll f s).
Proof. apply promise_then_poll, promise_refl. Qed.

(** ** Accesses to the socket [y] alone *)
Lemma sendmq_update y f y' s : (∀ so, so_sendmq (f so) = so_sendmq so) → sendmq y' (update_sock y f s) = sendmq y' s.
Proof.
  intros Hf. unfold sendmq, update_sock. simpl. destruct (decide (y' = y)) as [->|Hn].
  - rewrite lookup_alter_eq. destruct (sh_heap s !! y); [apply Hf|done].
  - by rewrite lookup_alter_ne.
Qed.

Lemma heap_update y f so s : sh_heap s !! y = Some so → sh_heap (update_sock y f s) !! y = Some (f so).
Proof. intros H. simpl. by rewrite lookup_alter_eq, H. Qed.

Lemma heap_update_ne y y' f s : y' ≠ y → sh_heap (update_sock y f s) !! y' = sh_heap s !! y'.
Proof. intros H. simpl. by rewrite lookup_alter_ne. Qed.

Lemma heap_update_inv y y' f so' s : sh_heap (update_sock y f s) !! y' = Some so' →
  ∃ so, sh_heap s !! y' = Some so ∧ so' = if decide (y' = y) then f so else so.
Proof.
  simpl. destruct (decide (y' = y)) as [->|Hn].
  - rewrite lookup_alter_eq. destruct (sh_heap s !! y) as [so|]; [|done]. intros [= <-]. by exists so.
  - rewrite lookup_alter_ne by done. intros H. by exists so'.
Qed.

(** The send queue of [y] only loses messages. *)
Definition shrinks (f : sock → sock) (so : sock) : Prop :=
  match so_sendmq (f so) with
  | None => True
  | Some q' => ∃ q, so_sendmq so = Some q ∧ NoDup q' ∧ ∀ x, x ∈ q' → x ∈ q
  end.

Lemma shrinks_sendmq y f so y' q' s : sh_heap s !! y = Some so → (NoDup (default [] (so_sendmq so)) → shrinks f so) →
  (∀ y q, sendmq y s = Some q → NoDup q) →
  sendmq y' (update_sock y f s) = Some q' →
  ∃ q, sendmq y' s = Some q ∧ NoDup q' ∧ ∀ x, x ∈ q' → x ∈ q.
Proof.
  unfold sendmq. intros Hy Hf Hnd. destruct (decide (y' = y)) as [->|Hn].
  - rewrite (heap_update _ _ _ _ Hy), Hy. simpl. intros E.
    assert (shrinks f so) as H.
    { apply Hf. destruct (so_sendmq so) as [q|] eqn:Eq; [|constructor]. apply (Hnd y). by rewrite Hy. }
    unfold shrinks in H. by rewrite E in H.
  - rewrite heap_update_ne by done. intros E. exists q'. split_and!; [done|by eapply Hnd|done].
Qed.

Lemma inv_update d y f so s :
  inv d s → sh_heap s !! y = Some so →
  so_fd (f so) = so_fd so → so_published (f so) = so_published so →
  (so_open (f so) = true → so_open so = true) → (NoDup (default [] (so_sendmq so)) → shrinks f so) →
  (∀ fd, sh_slots s !! fd = Some y → Some fd ≠ d → so_open (f so) = true ∧ is_Some (so_sendmq (f so))) →
  inv d (update_sock y f s).
Proof.
  intros I Hy Hfd Hp Ho Hq Hs.
  pose proof (λ y' q', shrinks_sendmq y f so y' q' s Hy Hq (iv_nodup _ _ I)) as Hsh.
  assert (∀ y' so', sh_heap (update_sock y f s) !! y' = Some so' → ∃ so0, sh_heap s !! y' = Some so0 ∧
    so_fd so' = so_fd so0 ∧ so_published so' = so_published so0 ∧ (so_open so' = true → so_open so0 = true)) as Hinv.
  { intros y' so' Hy'. destruct (heap_update_inv _ _ _ _ _ Hy') as (so0 & Hy0 & ->). exists so0.
    case_decide as E; [|done]. subst y'. by simplify_eq. }
  split; try apply I.
  - intros y' [so' Hy']. destruct (Hinv _ _ Hy') as (so0 & Hy0 & _). by apply (iv_heap_brk _ _ I).
  - intros fd y' Hy' Hd. destruct (iv_slot _ _ I fd y' Hy' Hd) as (so' & Hh & Hf' & Ho' & Hq').
    destruct (decide (y' = y)) as [->|Hn].
    + simplify_eq. rewrite (heap_update _ _ _ _ Hy). destruct (Hs _ Hy' Hd). eexists. by rewrite Hfd.
    + rewrite heap_update_ne by done. by exists so'.
  - intros fd y' so' Hsl Hy'. destruct (Hinv _ _ Hy') as (so0 & Hy0 & _ & -> & _). by eapply (iv_published _ _ I).
  - intros y1 y2 so1 so2 H1 H2 O1 O2 E. destruct (Hinv _ _ H1) as (a & Ha & Ea & _ & Oa).
    destruct (Hinv _ _ H2) as (b & Hb & Eb & _ & Ob). eapply (iv_fd _ _ I); eauto. congruence.
  - intros y' q' x Hq' Hx. destruct (Hsh _ _ Hq') as (q & E & _ & Hin). eapply (iv_queue _ _ I); eauto.
  - intros y' q' Hq'. by destruct (Hsh _ _ Hq') as (q & E & Hnd & Hin).
  - intros y1 y2 q1 q2 x H1 H2 X1 X2. destruct (Hsh _ _ H1) as (? & ? & ? & ?).
    destruct (Hsh _ _ H2) as (? & ? & ? & ?). eapply (iv_disjoint _ _ I); eauto.
Qed.

(** The socket is a thread's to change: a new one of its own, or for the I/O
    thread any in the array. *)
Definition may_change (t : thread) (so : sock) : Prop :=
  (so_by so = t ∧ so_published so = false) ∨ (t = IO ∧ so_published so = true).

Lemma promise_update t y f so s :
  sh_heap s !! y = Some so → may_change t so → so_published (f so) = so_published so →
  match t with
  | Worker => ∀ d, inv d s → inv d (update_sock y f s)
  | IO => (∃ d, inv d s) → ∃ d, inv d (update_sock y f s)
  end →
  (∀ x, unqueued x s → unqueued x (update_sock y f s)) →
  promise t s (update_sock y f s).
Proof.
  intros Hy Hm Hp Hi Hq. destruct (promise_refl t s). split; try done; simpl.
  - intros y' _ Hn. destruct (decide (y' = y)) as [->|]; [congruence|by rewrite lookup_alter_ne].
  - intros y' so' Hy' Hb Hu. destruct (decide (y' = y)) as [->|].
    { simplify_eq. destruct Hm as [[? ?]|[_ ?]]; congruence. }
    rewrite lookup_alter_ne by done. by apply pm_new0.
  - intros y' so' Hy' Hu. destruct (decide (y' = y)) as [->|].
    + simplify_eq. rewrite Hu in Hp. destruct Hm as [[_ ?]|[-> _]]; [congruence|].
      intros so0. rewrite lookup_alter_eq, Hy. intros [= <-]. done.
    + rewrite lookup_alter_ne by done. by apply pm_published0.
  - intros x m Hx. destruct t; [|done]. intros Hpm. split; [done|apply Hq].
Qed.

(** ** New and freed sockets, and the entries of the array *)
Lemma step_new t d fd type s so :
  inv d s → ¬ fd_in_use fd s → so = new_sock t fd type →
  inv d (next_brk (set_heap (insert (sh_brk s) so) s)).
Proof.
  intros I Hfd ->. assert (∀ y, is_Some (sh_heap s !! y) → y ≠ sh_brk s) as Hne.
  { intros y Hy%(iv_heap_brk _ _ I) ->. lia. }
  set (so := new_sock t fd type).
  assert (∀ y q, sendmq y (next_brk (set_heap (insert (sh_brk s) so) s)) = Some q → q = [] ∨ sendmq y s = Some q) as Hq.
  { intros y q. unfold sendmq. simpl. destruct (decide (sh_brk s = y)) as [<-|Hn].
    - rewrite lookup_insert_eq. intros [= <-]. by left.
    - rewrite lookup_insert_ne by done. by right. }
  split; simpl.
  - intros y. rewrite lookup_insert_is_Some'. intros [<-|Hy%(iv_heap_brk _ _ I)]; lia.
  - intros x Hx%(iv_message_brk _ _ I). lia.
  - intros fd' y Hy%(iv_slot_brk _ _ I). lia.
  - intros fd' y Hy Hd. destruct (iv_slot _ _ I fd' y Hy Hd) as (so' & Hh & ?). exists so'.
    rewrite lookup_insert_ne; [done|]. intros <-. by apply (Hne (sh_brk s)).
  - intros fd' y so' Hy. rewrite lookup_insert_ne; [by apply (iv_published _ _ I fd')|].
    intros <-. pose proof (iv_slot_brk _ _ I _ _ Hy). lia.
  - intros y y' so1 so2. destruct (decide (sh_brk s = y)) as [<-|Hy], (decide (sh_brk s = y')) as [<-|Hy'];
      rewrite ?lookup_insert_eq, ?lookup_insert_ne by done; [done|..|by apply (iv_fd _ _ I)].
    + intros [= <-] H2 _ O2 E. destruct Hfd. by exists y', so2.
    + intros H1 [= <-] O1 _ E. destruct Hfd. by exists y, so1.
  - intros y q x [->|Hy]%Hq Hx; [by apply elem_of_nil in Hx|by eapply (iv_queue _ _ I)].
  - intros y q [->|Hy]%Hq; [constructor|by eapply (iv_nodup _ _ I)].
  - intros y y' q q' x [->|Hy]%Hq [->|Hy']%Hq Hx Hx'; try by apply elem_of_nil in Hx || apply elem_of_nil in Hx'.
    by eapply (iv_disjoint _ _ I).
Qed.

Lemma promise_new t fd type s so :
  (∃ d, inv d s) → ¬ fd_in_use fd s → so = new_sock t fd type →
  promise t s (next_brk (set_heap (insert (sh_brk s) so) s)).
Proof.
  intros [d I] Hfd Hso. assert (∀ y, is_Some (sh_heap s !! y) → sh_brk s ≠ y) as Hne.
  { intros y Hy%(iv_heap_brk _ _ I) E. lia. }
  destruct (promise_refl t s). split; try done; simpl; [|lia|..].
  - destruct t; [intros d' I'|intros [d' I']; exists d']; by eapply step_new.
  - intros y Hb. rewrite lookup_insert_ne by lia. done.
  - intros y so' Hy. rewrite lookup_insert_ne by (apply Hne; by eexists). by apply pm_new0.
  - intros y so' Hy. rewrite lookup_insert_ne by (apply Hne; by eexists). by apply pm_published0.
  - intros x m Hx. destruct t; [|done]. intros Hp. split; [done|]. intros Hu y q. unfold sendmq. simpl.
    destruct (decide (sh_brk s = y)) as [<-|Hn]; [|rewrite lookup_insert_ne by done; apply Hu].
    rewrite lookup_insert_eq, Hso. intros [= <-]. apply not_elem_of_nil.
Qed.

Lemma sendmq_delete y y' q s : sendmq y' (set_heap (delete y) s) = Some q → sendmq y' s = Some q ∧ y' ≠ y.
Proof.
  unfold sendmq. simpl. destruct (decide (y = y')) as [<-|Hn]; [by rewrite lookup_delete_eq|].
  by rewrite lookup_delete_ne.
Qed.

Lemma inv_socket_free d y s :
  inv d s → (∀ fd, sh_slots s !! fd = Some y → Some fd = d) → inv d (set_heap (delete y) s).
Proof.
  intros I Hs. split; simpl; try apply I.
  - intros y' [so [_ Hy]%lookup_delete_Some]. by apply (iv_heap_brk _ _ I).
  - intros fd y' Hy Hd. destruct (iv_slot _ _ I fd y' Hy Hd) as (so & Hh & ?). exists so.
    rewrite lookup_delete_ne; [done|]. intros <-. by apply Hd, Hs.
  - intros fd y' so Hy [_ Hh]%lookup_delete_Some. by eapply (iv_published _ _ I).
  - intros y1 y2 so1 so2 [_ H1]%lookup_delete_Some [_ H2]%lookup_delete_Some. by apply (iv_fd _ _ I).
  - intros y' q x [Hq _]%sendmq_delete. by eapply (iv_queue _ _ I).
  - intros y' q [Hq _]%sendmq_delete. by eapply (iv_nodup _ _ I).
  - intros y1 y2 q1 q2 x [H1 _]%sendmq_delete [H2 _]%sendmq_delete. by eapply (iv_disjoint _ _ I).
Qed.

Lemma promise_free t y so s :
  sh_heap s !! y = Some so → may_change t so →
  match t with
  | Worker => ∀ d, inv d s → inv d (set_heap (delete y) s)
  | IO => (∃ d, inv d s) → ∃ d, inv d (set_heap (delete y) s)
  end →
  promise t s (set_heap (delete y) s).
Proof.
  intros Hy Hm Hi. destruct (promise_refl t s). split; try done; simpl.
  - intros y' Hb Hn. apply lookup_delete_None. by right.
  - intros y' so' Hy' Hb Hp. rewrite lookup_delete_ne; [by apply pm_new0|]. intros <-.
    simplify_eq. destruct Hm as [[? ?]|[_ ?]]; congruence.
  - intros y' so' Hy' Hp. destruct t.
    + destruct (decide (y = y')) as [<-|Hn]; [|rewrite lookup_delete_ne by done; by apply pm_published0].
      simplify_eq. destruct Hm as [[_ ?]|[? _]]; [congruence|done].
    + intros so0 [_ H]%lookup_delete_Some. by simplify_eq.
  - intros x m Hx. destruct t; [|done]. intros Hp. split; [done|]. intros Hu y' q [Hq _]%sendmq_delete.
    by eapply Hu.
Qed.

Lemma sendmq_publish fd p y s : sendmq y (publish_slot fd p s) = sendmq y s.
Proof. destruct p as [y'|]; [|done]. etransitivity; [by apply sendmq_update|done]. Qed.

(** The entry of a new, open socket. *)
Lemma inv_publish d t y so s :
  inv d s → mine t y so s → so_open so = true → is_Some (so_sendmq so) →
  inv d (publish_slot (so_fd so) (Some y) s).
Proof.
  intros I (Hy & Hb & Hp) Ho Hq.
  assert (∀ y' so', sh_heap (publish_slot (so_fd so) (Some y) s) !! y' = Some so' → ∃ so0, sh_heap s !! y' = Some so0 ∧
    so' = if decide (y' = y) then published so0 else so0) as Hinv.
  { intros y' so' H. apply heap_update_inv in H. exact H. }
  split; try apply I.
  - intros y' [so' Hy']. destruct (Hinv _ _ Hy') as (so0 & H0 & _). apply (iv_heap_brk _ _ I). by eexists.
  - intros fd y'. simpl. destruct (decide (so_fd so = fd)) as [<-|Hn].
    + rewrite lookup_insert_eq. intros [= <-]. pose proof (iv_heap_brk _ _ I y). eauto.
    + rewrite lookup_insert_ne by done. apply (iv_slot_brk _ _ I).
  - intros fd y' Hs Hd. simpl in Hs. destruct (decide (so_fd so = fd)) as [<-|Hn].
    + rewrite lookup_insert_eq in Hs. injection Hs as <-. exists (published so).
      split; [by apply (heap_update _ published)|done].
    + rewrite lookup_insert_ne in Hs by done. destruct (iv_slot _ _ I fd y' Hs Hd) as (so' & Hh & ?).
      exists so'. rewrite (heap_update_ne y y' published (set_slots (insert (so_fd so) y) s)); [done|]. intros ->.
      pose proof (iv_published _ _ I _ _ _ Hs Hy). congruence.
  - intros fd y' so' Hs Hy'. destruct (Hinv _ _ Hy') as (so0 & H0 & ->). simpl in Hs. case_decide; [done|].
    destruct (decide (so_fd so = fd)) as [<-|Hn]; [rewrite lookup_insert_eq in Hs; by injection Hs|].
    rewrite lookup_insert_ne in Hs by done. by eapply (iv_published _ _ I).
  - intros y1 y2 so1 so2 H1 H2. destruct (Hinv _ _ H1) as (a & Ha & ->), (Hinv _ _ H2) as (b & Hb' & ->).
    intros O1 O2 E. eapply (iv_fd _ _ I); [done..| | |]; by repeat case_decide.
  - intros y' q x. rewrite sendmq_publish. apply (iv_queue _ _ I).
  - intros y' q. rewrite sendmq_publish. apply (iv_nodup _ _ I).
  - intros y1 y2 q1 q2 x. rewrite !sendmq_publish. apply (iv_disjoint _ _ I).
Qed.

Lemma promise_publish t y so s :
  (∃ d, inv d s) → mine t y so s → so_open so = true → is_Some (so_sendmq so) →
  sh_slots s !! so_fd so = None →
  promise t s (publish_slot (so_fd so) (Some y) s).
Proof.
  intros [d I] Hm Ho Hq Hs. pose proof Hm as (Hy & Hb & Hp).
  destruct (promise_refl t s). split; try done; simpl.
  - destruct t; [intros d' I'|intros [d' I']; exists d']; by eapply inv_publish.
  - intros y' Hb' Hn. rewrite lookup_alter_ne; [done|]. intros <-. congruence.
  - intros y' so' Hy' Hb' Hp'. assert (y ≠ y') as Hne by (intros <-; congruence).
    rewrite lookup_alter_ne by done. split; [done|]. intros Ho' Hs'. rewrite lookup_insert_ne; [done|].
    intros E. apply Hne. by eapply (iv_fd _ _ I).
  - intros y' so' Hy' Hp'. rewrite lookup_alter_ne by (intros <-; congruence). by apply pm_published0.
  - intros fd y' -> Hs'. rewrite lookup_insert_ne; [done|]. intros <-. congruence.
  - intros x m Hx. destruct t; [|done]. intros Hpm. split; [done|]. intros Hu y' q.
    intros Hq1. apply (Hu y'). rewrite <-Hq1. symmetry. apply (sendmq_publish (so_fd so) (Some y)).
Qed.

(** The entry of a socket that has been freed. *)
Lemma step_clear fd s : inv (Some fd) s → inv None (publish_slot fd None s) ∧ promise IO s (publish_slot fd None s).
Proof.
  intros I. assert (inv None (publish_slot fd None s)) as I'.
  { split; simpl; try apply I.
    - intros fd' y' [_ H]%lookup_delete_Some. by apply (iv_slot_brk _ _ I fd').
    - intros fd' y' [Hn H]%lookup_delete_Some _. apply (iv_slot _ _ I); [done|congruence].
    - intros fd' y' so [_ H]%lookup_delete_Some. by apply (iv_published _ _ I fd'). }
  split; [done|]. destruct (promise_refl IO s). split; try done.
  - intros _. by exists None.
  - intros y' so Hy Hb Hp. split; [done|]. intros _ Hn. simpl. apply lookup_delete_None. by right.
Qed.

(** ** Messages *)
Lemma inv_message_new d fd s :
  inv d s → inv d (next_brk (set_messages (insert (sh_brk s) {| ms_fd := fd; ms_pushed := false |}) s)).
Proof.
  intros I. split; simpl; try apply I.
  - intros y Hy%(iv_heap_brk _ _ I). lia.
  - intros x. rewrite lookup_insert_is_Some'. intros [<-|Hx%(iv_message_brk _ _ I)]; lia.
  - intros fd' y Hy%(iv_slot_brk _ _ I). lia.
  - intros y q x Hq Hx. destruct (iv_queue _ _ I y q x Hq Hx) as (m & Hm & Hp). exists m.
    rewrite lookup_insert_ne; [done|]. intros E. pose proof (iv_message_brk _ _ I x). rewrite Hm in H.
    specialize (H (mk_is_Some _ _ eq_refl)). lia.
Qed.

Lemma promise_message_new fd s :
  (∃ d, inv d s) → promise Worker s (next_brk (set_messages (insert (sh_brk s) {| ms_fd := fd; ms_pushed := false |}) s)).
Proof.
  intros [d I]. destruct (promise_refl Worker s). split; try done; simpl; [|lia|].
  - intros d' I'. by apply inv_message_new.
  - intros x m Hx Hp. rewrite lookup_insert_ne; [by apply pm_message0|].
    intros <-. pose proof (iv_message_brk _ _ I (sh_brk s) (mk_is_Some _ _ Hx)). lia.
Qed.

(** Freeing a message that is in no queue. *)
Lemma inv_message_free d x s : inv d s → unqueued x s → inv d (set_messages (delete x) s).
Proof.
  intros I Hu. split; simpl; try apply I.
  - intros x' [m [_ Hx]%lookup_delete_Some]. apply (iv_message_brk _ _ I). by exists m.
  - intros y q x' Hq Hx. destruct (iv_queue _ _ I y q x' Hq Hx) as (m & Hm & Hp). exists m.
    rewrite lookup_delete_ne; [done|]. intros <-. by eapply Hu.
Qed.

Lemma promise_message_free x s : taken x s → promise IO s (set_messages (delete x) s).
Proof.
  intros (Hu & m & Hm & Hp). destruct (promise_refl IO s). split; try done; simpl.
  - intros [d I]. exists d. by apply inv_message_free.
  - intros x' m' Hx' Hp'. rewrite lookup_delete_ne; [done|]. intros <-. congruence.
Qed.

Lemma sendmq_push y x q y' s : is_Some (sendmq y s) →
  sendmq y' (push y x q s) = if decide (y' = y) then Some (q ++ [x]) else sendmq y' s.
Proof.
  unfold sendmq. simpl. intros Hy. case_decide as E.
  - subst. rewrite lookup_alter_eq. destruct (sh_heap s !! y); [done|by destruct Hy].
  - by rewrite lookup_alter_ne.
Qed.

Lemma inv_push d y x q s :
  inv d s → sendmq y s = Some q → fresh_message x s → inv d (push y x q s).
Proof.
  intros I Hq (m & Hm & Hp).
  assert (∀ y' q', sendmq y' s = Some q' → x ∉ q') as Hx.
  { intros y' q' Hq' Hx. destruct (iv_queue _ _ I y' q' x Hq' Hx) as (m' & ? & ?). congruence. }
  assert (∃ so, sh_heap s !! y = Some so ∧ so_sendmq so = Some q) as (so & Hy & Hso).
  { unfold sendmq in Hq. destruct (sh_heap s !! y) as [so|]; [by exists so|done]. }
  pose proof (λ y', sendmq_push y x q y' s (mk_is_Some _ _ Hq)) as Hs.
  assert (∀ y' so', sh_heap (push y x q s) !! y' = Some so' → ∃ so0, sh_heap s !! y' = Some so0 ∧
    so_fd so' = so_fd so0 ∧ so_open so' = so_open so0 ∧ so_published so' = so_published so0) as Hinv.
  { intros y' so' H. destruct (heap_update_inv y y' _ so' s H) as (so0 & H0 & ->). exists so0. by case_decide. }
  split; try apply I.
  - intros y' [so' Hy']. destruct (Hinv _ _ Hy') as (so0 & H0 & _). apply (iv_heap_brk _ _ I). by exists so0.
  - intros x'. simpl. rewrite lookup_alter_is_Some. apply (iv_message_brk _ _ I).
  - intros fd y' Hsl Hd. destruct (iv_slot _ _ I fd y' Hsl Hd) as (so' & Hh & Hf & Ho & Hq').
    destruct (decide (y' = y)) as [->|Hn].
    + simplify_eq. eexists. split; [by apply (heap_update _ _ so)|]. by split_and!.
    + exists so'. split; [|done]. rewrite <-Hh. by apply (heap_update_ne y y').
  - intros fd y' so' Hsl Hy'. destruct (Hinv _ _ Hy') as (so0 & H0 & _ & _ & ->). by eapply (iv_published _ _ I).
  - intros y1 y2 so1 so2 H1 H2. destruct (Hinv _ _ H1) as (a & Ha & -> & -> & _), (Hinv _ _ H2) as (b & Hb & -> & -> & _).
    by apply (iv_fd _ _ I).
  - intros y' q' x' Hq' Hx'. rewrite Hs in Hq'. simpl.
    destruct (decide (x' = x)) as [->|Hn]; [exists (pushed m); by rewrite lookup_alter_eq, Hm|].
    rewrite lookup_alter_ne by done. case_decide; [|by eapply (iv_queue _ _ I)]. injection Hq' as <-.
    apply elem_of_app in Hx' as [Hx'|Hx'%list_elem_of_singleton]; [by eapply (iv_queue _ _ I)|done].
  - intros y' q' Hq'. rewrite Hs in Hq'. case_decide; [|by eapply (iv_nodup _ _ I)]. injection Hq' as <-.
    apply NoDup_app. split_and!; [by eapply (iv_nodup _ _ I)| |apply NoDup_singleton].
    intros x' Hx' E%list_elem_of_singleton. subst x'. by eapply Hx.
  - intros y1 y2 q1 q2 x' H1 H2 X1 X2. rewrite Hs in H1, H2.
    assert (∀ y' q', sendmq y' s = Some q' → x' ∈ q' → x' ∈ q ++ [x] → y' = y) as Hd.
    { intros y' q' Hq' Hx' [?|E%list_elem_of_singleton]%elem_of_app; [by eapply (iv_disjoint _ _ I)|]. subst x'.
      exfalso. by eapply Hx. }
    destruct (decide (y1 = y)) as [->|], (decide (y2 = y)) as [->|]; simplify_eq; [done|..].
    + symmetry. by eapply Hd.
    + by eapply Hd.
    + by eapply (iv_disjoint _ _ I).
Qed.

Lemma promise_push y x q s :
  was_published y s → sendmq y s = Some q → fresh_message x s → promise Worker s (push y x q s).
Proof.
  intros [_ Hpub] Hq Hf. destruct (promise_refl Worker s). pose proof Hf as (m & Hm & Hp).
  split; try done; simpl.
  - intros d I. by apply inv_push.
  - intros y' _ Hn. destruct (decide (y' = y)) as [->|]; [by rewrite lookup_alter_eq, Hn|by rewrite lookup_alter_ne].
  - intros y' so' Hy' Hb Hu. rewrite lookup_alter_ne; [by apply pm_new0|]. intros <-.
    pose proof (Hpub _ Hy'). congruence.
  - intros y' so' Hy' Hu. destruct (decide (y' = y)) as [->|]; [|rewrite lookup_alter_ne by done; by apply pm_published0].
    exists [x]. rewrite lookup_alter_eq, Hy'. unfold sendmq in Hq. rewrite Hy' in Hq. simpl in Hq. by rewrite Hq.
  - intros x' m' Hx' Hp'. assert (x' ≠ x) as Hne by (intros ->; congruence).
    rewrite lookup_alter_ne by done. split; [done|]. intros Hu y' q' Hq'.
    rewrite (sendmq_push y x q y' s (mk_is_Some _ _ Hq)) in Hq'. case_decide; [|by eapply Hu].
    injection Hq' as <-. intros [Hx|Hx%list_elem_of_singleton]%elem_of_app; [by eapply Hu|done].
Qed.
