(* ===== verification/SocketRace.v ===== *)
(** * The functions of the two threads against each other, and where they race

    Each function of [SocketThreads] keeps the promise of its thread.  It is enough
    for the I/O thread, which never uses memory that has been freed; it is not for
    the worker, and the runs at the end of the file show it. *)

From S2P Require Import Prelude Socket Poll IoThread Interleave SocketThreads SocketPromise.

(** ** Steps that leave the entries of the array alone *)
Definition quiet (t : thread) (s s' : shared) : Prop :=
  promise t s s' ∧ ∀ fd y, sh_slots s !! fd = Some y → sh_slots s' !! fd = Some y.

Abbreviation ok_quiet t := (thread_ok (promise (other t)) (quiet t)).

Lemma quiet_refl t s : quiet t s s.
Proof. split; [apply promise_refl|done]. Qed.

Lemma quiet_ok t b {A} (p : prog access A) Q s : ok_quiet t b p Q s → ok t b p Q s.
Proof. apply ok_weaken. by intros s1 s2 []. Qed.

(** An access that changes nothing. *)
Lemma ok_read t b {X} (o : access X) P Q s :
  kept t P → (∀ x, kept t (Q x)) → P s → (∀ s, P s → b = true → ¬ access_fault o s) →
  (∀ s x s', P s → access_step o s x s' → s' = s ∧ Q x s) → ok_quiet t b (act o) Q s.
Proof.
  intros HP HQ Hs Hf Hstep. eapply ok_act; [done..|]. intros s1 x s2 H1 Hx.
  destruct (Hstep _ _ _ H1 Hx) as [-> H]. split; [apply quiet_refl|done].
Qed.

Lemma knows_inv t d s : knows t d s → ∃ d, inv d s.
Proof. destruct t; [done|by exists d]. Qed.

(** A step that keeps every invariant keeps what is known of it. *)
Lemma knows_step t d s s' : knows t d s → (∀ d, inv d s → inv d s') → knows t d s'.
Proof. destruct t; simpl; [|auto]. intros [d' H] Hi. exists d'. auto. Qed.

Lemma promise_knows t s s' : (∀ d, inv d s → inv d s') →
  match t with Worker => ∀ d, inv d s → inv d s' | IO => (∃ d, inv d s) → ∃ d, inv d s' end.
Proof. intros H. destruct t; [done|]. intros [d I]. exists d. auto. Qed.

(** ** A new socket goes into the array, or is deleted *)
Definition owns (t : thread) (d : option Z) (y : loc) (so : sock) (s : shared) : Prop := knows t d s ∧ mine t y so s.

Lemma kept_owns t d y so : kept t (owns t d y so).
Proof. apply stable_and; auto with kept. Qed.

Definition entered (t : thread) (fd : Z) (y : loc) (s : shared) : Prop :=
  match t with IO => sh_slots s !! fd = Some y | Worker => True end.

Lemma kept_entered t fd y : kept t (entered t fd y).
Proof. destruct t; [done|apply kept_slot]. Qed.

#[export] Hint Resolve kept_owns kept_entered : kept.

Lemma add_socket_ok t b d y so s :
  owns t d y so s → so_open so = true → is_Some (so_sendmq so) →
  ok_quiet t b (slam_io_thread_add_socket y)
    (λ r s, knows t d s ∧ if (r : bool) then entered t (so_fd so) y s else mine t y so s) s.
Proof.
  intros Hs Ho Hq. assert (∀ r : bool, kept t (λ s, knows t d s ∧ if r then entered t (so_fd so) y s else mine t y so s))
    as HQ by (intros []; apply stable_and; auto with kept).
  unfold slam_io_thread_add_socket.
  eapply ok_bind; [eapply (ok_read _ _ _ (owns t d y so) (λ fd s, fd = so_fd so ∧ owns t d y so s)); auto with kept|].
  { intros s1 [_ [Hy _]] _ Hf. simpl in Hf. congruence. }
  { intros s1 fd s2 H1 [Hfd ->]. split; [done|]. split; [|done]. destruct H1 as [_ [Hy _]].
    rewrite Hy in Hfd. by injection Hfd. }
  intros fd s1 [-> H1]. destruct (VALID_SOCKET _); [|apply ok_halt].
  eapply ok_bind; [eapply (ok_read _ _ _ (owns t d y so)
    (λ p s, knows t d s ∧ (p = None → mine t y so s ∧ sh_slots s !! so_fd so = None))); auto with kept|].
  { intros p s2 s3 [Hk Hn] Hp. split; [by eapply kept_knows|]. intros ->.
    apply (kept_free_slot t y so Ho s2 s3); [by apply Hn|done]. }
  { intros s2 p s3 [Hk Hm] [-> ->]. by split_and!. }
  intros p s2 [Hk Hn]. case_bool_decide as Hp; [|apply ok_halt]. subst p.
  assert (kept t (λ s, knows t d s ∧ mine t y so s ∧ sh_slots s !! so_fd so = None)) as HP
    by (apply stable_and; auto with kept).
  eapply ok_bind; [eapply (ok_act _ _ _ _ _ (λ _ s, knows t d s ∧ mine t y so s ∧ sh_slots s !! so_fd so = None))|];
    [exact HP|done|by split; [|apply Hn]|by intros ? ? ? []| |].
  { intros s3 r s4 H3 ->. destruct r; [|by split; [apply quiet_refl|]]. split; [by split; [apply promise_poll|]|].
    destruct H3 as [H3 ?]. split; [|done]. eapply knows_step; [done|]. intros ?. apply inv_poll. }
  intros r s3 (H3 & Hm & Hnone). destruct r; cbn [negb]; [|apply ok_ret; [apply (HQ false)|done]].
  eapply ok_bind; [eapply (ok_act _ _ _ _ _ (λ _ s, knows t d s ∧ entered t (so_fd so) y s))|];
    [exact HP|intros _; apply (HQ true)|by split_and!|by intros ? ? ? []| |].
  - intros s4 x s5 (H4 & Hm4 & Hn4) Hst. simpl in Hst. rewrite Hst. split.
    + split; [by eapply promise_publish; try done; eapply knows_inv|]. intros fd' y' Hs'. simpl.
      rewrite lookup_insert_ne; [done|]. intros <-. congruence.
    + split; [eapply knows_step; [done|]; intros d' I; by eapply inv_publish|]. destruct t; [done|]. simpl.
      by rewrite lookup_insert_eq.
  - intros [] s4 H4. apply ok_ret; [apply (HQ true)|done].
Qed.

Lemma unqueued_update x y f so s :
  sh_heap s !! y = Some so → (∀ q', so_sendmq (f so) = Some q' → ∃ q, so_sendmq so = Some q ∧ ∀ x, x ∈ q' → x ∈ q) →
  unqueued x s → unqueued x (update_sock y f s).
Proof.
  intros Hy Hq Hu y' q'. unfold sendmq. destruct (decide (y' = y)) as [->|Hn].
  - rewrite (heap_update _ _ _ _ Hy). simpl. intros (q & Eq & Hin)%Hq Hx. eapply (Hu y q); [|by apply Hin].
    unfold sendmq. by rewrite Hy.
  - rewrite heap_update_ne by done. apply Hu.
Qed.

(** Changing a new socket of one's own. *)
Lemma own_update t d y f so s :
  owns t d y so s → so_fd (f so) = so_fd so → so_published (f so) = so_published so → so_by (f so) = so_by so →
  (so_open (f so) = true → so_open so = true) → so_sendmq (f so) = None ∨ so_sendmq (f so) = so_sendmq so →
  quiet t s (update_sock y f s) ∧ owns t d y (f so) (update_sock y f s).
Proof.
  intros [Hk (Hy & Hb & Hp)] Hf Hpub Hby Ho Hq.
  assert (∀ d, inv d s → inv d (update_sock y f s)) as Hi.
  { intros d' I. eapply inv_update; [done..| |].
    - unfold shrinks. intros Hn. destruct Hq as [->| ->]; [done|]. destruct (so_sendmq so) as [q|]; [by exists q|done].
    - intros fd Hs _. pose proof (iv_published _ _ I _ _ _ Hs Hy). congruence. }
  split.
  - split; [|done]. eapply promise_update; [done|by left|done|by apply promise_knows|]. intros x. eapply unqueued_update; [done|].
    intros q' E. destruct Hq as [Hq|Hq]; [congruence|]. exists q'. by rewrite <-Hq.
  - split; [by eapply knows_step|]. split; [by apply heap_update|]. split; congruence.
Qed.

Lemma ok_own_update t b d y f so (o : access unit) s :
  owns t d y so s → so_fd (f so) = so_fd so → so_published (f so) = so_published so → so_by (f so) = so_by so →
  (so_open (f so) = true → so_open so = true) → so_sendmq (f so) = None ∨ so_sendmq (f so) = so_sendmq so →
  (∀ s, sh_heap s !! y = Some so → ¬ access_fault o s) →
  (∀ s x s', sh_heap s !! y = Some so → access_step o s x s' → s' = update_sock y f s ∨
     ∃ g, s' = set_poll g (update_sock y f s)) →
  ok_quiet t b (act o) (λ _, owns t d y (f so)) s.
Proof.
  intros Hs Hf Hpub Hby Ho Hq Hok Hstep. eapply ok_act; [by apply kept_owns|intros _; apply kept_owns|done| |].
  - intros s1 [_ [Hy _]] _. by apply Hok.
  - intros s1 x s2 H1 Hx. destruct (own_update t d y f so s1 H1 Hf Hpub Hby Ho Hq) as [[Hp Hsl] Hw].
    pose proof H1 as [_ [Hy _]]. destruct (Hstep _ _ _ Hy Hx) as [->|[g ->]]; [done|]. split.
    + by split; [apply promise_then_poll|].
    + destruct Hw as [Hk Hm]. split; [|done]. eapply knows_step; [done|]. intros d'. apply inv_poll.
Qed.

Lemma delete_own_ok t b d fuel y so s :
  owns t d y so s → so_sendmq so = Some [] → ok_quiet t b (slam_socket_delete fuel y) (λ _, knows t d) s.
Proof.
  intros Hs Hq. unfold slam_socket_delete.
  eapply ok_bind; [eapply (ok_own_update t b d y closed so); try done; [by right|simpl; congruence|]|].
  { intros s1 x s2 Hy (so' & Hy' & ->). right. by eexists. }
  intros [] s1 H1. eapply ok_bind with (P := λ _, owns t d y (with_sendmq None (closed so))).
  - destruct fuel as [|fuel]; [apply ok_halt|]. cbn [delete_sendmq].
    eapply ok_bind; [eapply (ok_read _ _ _ (owns t d y (closed so)) (λ e s, e = true ∧ owns t d y (closed so) s));
      auto with kept|].
    + intros s2 [_ [Hy _]] _ Hf. unfold access_fault, sendmq in Hf. rewrite Hy in Hf. simpl in Hf. congruence.
    + intros s2 e s3 H2 (q & Eq & -> & ->). split; [done|]. split; [|done]. destruct H2 as [_ [Hy _]].
      unfold sendmq in Eq. rewrite Hy in Eq. simpl in Eq. rewrite Hq in Eq. by injection Eq as <-.
    + intros e s2 [-> H2]. cbn [negb]. eapply (ok_own_update t b d y (with_sendmq None)); try done; [by left| |].
      * intros s3 Hy Hf. unfold access_fault, sendmq in Hf. rewrite Hy in Hf. simpl in Hf. congruence.
      * intros s3 [] s4 _ [_ ->]. by left.
  - intros [] s2 H2. eapply ok_act; [apply kept_owns|intros _; apply kept_knows|exact H2| |].
    + intros s3 [_ [Hy _]] _ Hf. simpl in Hf. congruence.
    + intros s3 [] s4 [Hk (Hy & Hb & Hp)] [_ ->].
      assert (∀ d, inv d s3 → inv d (set_heap (delete y) s3)) as Hi.
      { intros d' I. apply inv_socket_free; [done|]. intros fd Hsl. pose proof (iv_published _ _ I _ _ _ Hsl Hy). congruence. }
      split; [|by eapply knows_step]. split; [|done]. eapply promise_free; [done|by left|by apply promise_knows].
Qed.

(** ** The I/O thread on a socket in the array *)

(** The entry [fd] is the socket [y], with a send queue in [K]; [d] is the entry
    being removed. *)
Definition at_slot (d : option Z) (fd : Z) (y : loc) (K : option (list loc) → Prop) (s : shared) : Prop :=
  inv d s ∧ sh_slots s !! fd = Some y ∧ ∃ so, sh_heap s !! y = Some so ∧ so_fd so = fd ∧ K (so_sendmq so).

(** Pushing at the end does not leave [K]. *)
Definition grows_in (K : option (list loc) → Prop) : Prop := ∀ mq r, K mq → K ((.++ r) <$> mq).

Lemma kept_at_slot d fd y K : grows_in K → kept IO (at_slot d fd y K).
Proof.
  intros HK s s' (I & Hs & so & Hy & Hf & Hk) H. split; [by apply (pm_inv _ _ _ H)|].
  split; [by apply (pm_slot _ _ _ H)|].
  destruct (pm_published _ _ _ H y so Hy (iv_published _ _ I _ _ _ Hs Hy)) as [r Hy'].
  eexists. split; [exact Hy'|]. split; [done|]. by apply HK.
Qed.

Definition has_queue (mq : option (list loc)) : Prop := is_Some mq.
Definition first_is (x : loc) (mq : option (list loc)) : Prop := ∃ q, mq = Some (x :: q).
Definition not_empty (mq : option (list loc)) : Prop := ∃ x, first_is x mq.
Definition any_queue (mq : option (list loc)) : Prop := True.

Lemma grows_has_queue : grows_in has_queue.
Proof. by intros mq r [q ->]; eexists. Qed.
Lemma grows_first_is x : grows_in (first_is x).
Proof. intros mq r [q ->]. by exists (q ++ r). Qed.
Lemma grows_not_empty : grows_in not_empty.
Proof. intros mq r [x H]. exists x. by apply grows_first_is. Qed.
Lemma grows_any : grows_in any_queue.
Proof. done. Qed.
#[export] Hint Resolve kept_at_slot grows_has_queue grows_first_is grows_not_empty grows_any : kept.

Lemma at_slot_mono d fd y K K' s : (∀ mq, K mq → K' mq) → at_slot d fd y K s → at_slot d fd y K' s.
Proof. intros HK (I & Hs & so & Hy & Hf & Hk). split_and!; [done|done|]. exists so. auto. Qed.

Lemma at_slot_sendmq d fd y K s : at_slot d fd y K s → K (sendmq y s).
Proof. intros (_ & _ & so & Hy & _ & Hk). unfold sendmq. by rewrite Hy. Qed.

(** An entry holds a socket with a queue, unless it is being removed. *)
Lemma slot_at fd y s : inv None s → sh_slots s !! fd = Some y → at_slot None fd y has_queue s.
Proof.
  intros I Hs. destruct (iv_slot _ _ I fd y Hs) as (so & Hy & Hf & Ho & Hq); [done|].
  split_and!; [done|done|]. by exists so.
Qed.

(** No other entry holds the socket. *)
Lemma at_slot_only fd fd' y K s : at_slot (Some fd) fd y K s → sh_slots s !! fd' = Some y → Some fd' = Some fd.
Proof.
  intros (I & Hs & so & Hy & Hf & _) Hs'. destruct (decide (fd' = fd)) as [->|Hn]; [done|].
  destruct (iv_slot _ _ I fd' y Hs') as (so' & Hy' & Hf' & _); [congruence|]. simplify_eq.
Qed.

(** Reading a queue that is there. *)
Lemma ok_queue_empty d fd y K s : grows_in K → (∀ mq, K mq → has_queue mq) → at_slot d fd y K s →
  ok IO true (act (QueueEmpty y)) (λ e, at_slot d fd y (if (e : bool) then K else not_empty)) s.
Proof.
  intros Hg HK Hs. apply quiet_ok; eapply (ok_read _ _ _ (at_slot d fd y K)); auto with kept.
  - intros []; auto with kept.
  - intros s1 H1 _ Hf. pose proof (HK _ (at_slot_sendmq _ _ _ _ _ H1)) as [q Hq]. simpl in Hf. congruence.
  - intros s1 e s2 H1 (q & Hq & -> & ->). split; [done|]. destruct q as [|x q]; [done|].
    destruct H1 as (I & Hs1 & so & Hy & Hf & _). split_and!; [done|done|]. exists so. split_and!; [done|done|].
    exists x, q. unfold sendmq in Hq. by rewrite Hy in Hq.
Qed.

Lemma at_slot_first d fd y s : at_slot d fd y not_empty s → ∃ x, at_slot d fd y (first_is x) s.
Proof. intros (I & Hs & so & Hy & Hf & x & Hk). exists x. split_and!; [done|done|]. by exists so. Qed.

(** Taking the first message off the queue. *)
Lemma pop_step d fd y x q s :
  at_slot d fd y (first_is x) s → sendmq y s = Some q →
  let s' := update_sock y (with_sendmq (Some (tail q))) s in
  promise IO s s' ∧ head q = Some x ∧ at_slot d fd y has_queue s' ∧ taken x s'.
Proof.
  intros (I & Hs & so & Hy & Hf & q0 & Hq0) Hq s'.
  assert (q = x :: q0) as -> by (unfold sendmq in Hq; rewrite Hy in Hq; simpl in Hq; congruence). simpl in *.
  pose proof (iv_nodup _ _ I _ _ Hq) as [Hx0 Hnd]%NoDup_cons.
  assert (∀ d, inv d s → inv d s') as Hi.
  { intros d' I'. eapply inv_update; [done..| |].
    - intros _. exists (x :: q0). split_and!; [done|done|]. intros x'. by right.
    - intros fd' Hs' Hd. destruct (iv_slot _ _ I' fd' y Hs' Hd) as (so' & Hy' & _ & Ho & _). simplify_eq. by split. }
  split_and!; [|done| |].
  - apply (promise_update IO y _ so); [done|right; split; [done|by eapply (iv_published _ _ I)]|done|by apply (promise_knows IO)|].
    intros x'. eapply unqueued_update; [done|]. intros q' [= <-]. exists (x :: q0). split; [done|]. intros z. by right.
  - split_and!; [by apply Hi|done|]. exists (with_sendmq (Some q0) so). split_and!; [by apply (heap_update y)|done|by exists q0].
  - split; [|by apply (iv_queue _ _ I y _ x Hq); left]. intros y' q'. unfold sendmq.
    destruct (decide (y' = y)) as [->|Hn].
    + unfold s'. rewrite (heap_update y _ so s Hy). by intros [= <-].
    + unfold s'. rewrite heap_update_ne by done. intros Hq' Hx. apply Hn. eapply (iv_disjoint _ _ I); [|exact Hq|done|by left].
      done.
Qed.

Lemma ok_queue_pop d fd y x s : at_slot d fd y (first_is x) s →
  ok IO true (act (QueuePop y)) (λ p s, p = Some x ∧ at_slot d fd y has_queue s ∧ taken x s) s.
Proof.
  intros Hs. eapply (ok_act _ _ _ _ (at_slot d fd y (first_is x))); auto with kept.
  - intros s1 H1 _ Hf. destruct (at_slot_sendmq _ _ _ _ _ H1) as [q Hq]. simpl in Hf. congruence.
  - intros s1 p s2 H1 (q & Hq & -> & ->). by destruct (pop_step d fd y x q s1 H1 Hq) as (? & ? & ? & ?).
Qed.

(** A pointer that is not null. *)
Lemma ok_deref P x s : kept IO P → P s → ok IO true (act (Deref (Some x))) (λ y s, y = x ∧ P s) s.
Proof.
  intros HP Hs. apply quiet_ok; eapply (ok_read _ _ _ P); auto with kept.
  - by intros s1 _ _ [=].
  - by intros s1 y s2 H1 [[= <-] ->].
Qed.

(** Freeing a message taken off a queue. *)
Lemma ok_message_free d fd y x s : at_slot d fd y has_queue s → taken x s →
  ok IO true (act (MessageFree x)) (λ _, at_slot d fd y has_queue) s.
Proof.
  intros Hs Ht. eapply (ok_act _ _ _ _ (λ s, at_slot d fd y has_queue s ∧ taken x s)); auto with kept.
  - intros s1 [_ (_ & m & Hm & _)] _ Hf. simpl in Hf. congruence.
  - intros s1 [] s2 [(I & Hs1 & Hy) H1] [_ ->]. split; [by apply promise_message_free|].
    split_and!; [|done|done]. apply inv_message_free; [done|apply H1].
Qed.

(** ** Removing a socket *)

(** Changing the socket of the entry being removed. *)
Lemma ok_removing d fd y (f : sock → sock) (K K' : option (list loc) → Prop) (o : access unit) s :
  grows_in K → grows_in K' → d = None ∨ d = Some fd →
  (∀ so, so_fd (f so) = so_fd so ∧ so_published (f so) = so_published so ∧ (so_open (f so) = true → so_open so = true) ∧
     (so_sendmq (f so) = None ∨ so_sendmq (f so) = so_sendmq so)) →
  (∀ so, K (so_sendmq so) → K' (so_sendmq (f so))) →
  (∀ s, at_slot d fd y K s → ¬ access_fault o s) →
  (∀ s x s', access_step o s x s' → s' = update_sock y f s ∨ ∃ g, s' = set_poll g (update_sock y f s)) →
  at_slot d fd y K s → ok IO true (act o) (λ _, at_slot (Some fd) fd y K') s.
Proof.
  intros Hg Hg' Hd Hf HK Hok Hstep Hs. eapply (ok_act _ _ _ _ (at_slot d fd y K)); auto with kept.
  intros s1 x s2 H1 Hx. destruct H1 as (I & Hs1 & so & Hy & Hfd & Hk). destruct (Hf so) as (Ef & Ep & Eo & Eq).
  assert (∀ d', inv d' s1 → inv (Some fd) (update_sock y f s1)) as Hi.
  { intros d' I'. assert (inv (Some fd) s1) as I1 by (destruct Hd as [->| ->]; [by apply inv_some|done]).
    eapply inv_update; [done..| |].
    - unfold shrinks. intros Hn. destruct Eq as [->| ->]; [done|]. destruct (so_sendmq so) as [q|]; [by exists q|done].
    - intros fd' Hs' Hd'. destruct Hd'. eapply (at_slot_only fd fd' y any_queue); [|done].
      split_and!; [done|done|]. by exists so. }
  assert (promise IO s1 (update_sock y f s1)) as Hp.
  { apply (promise_update IO y f so); [done|right; split; [done|by eapply (iv_published _ _ I)]|done| |].
    - intros [d' I']. exists (Some fd). by eapply Hi.
    - intros z. eapply unqueued_update; [done|]. intros q' E. destruct Eq as [Eq|Eq]; [congruence|].
      exists q'. by rewrite <-Eq. }
  assert (at_slot (Some fd) fd y K' (update_sock y f s1)) as H2.
  { split_and!; [by eapply Hi|done|]. exists (f so). split_and!; [by apply heap_update|congruence|by apply HK]. }
  destruct (Hstep _ _ _ Hx) as [->|[g ->]]; [done|]. split; [by apply promise_then_poll|].
  destruct H2 as (I2 & H2). split; [by apply inv_poll|done].
Qed.

Lemma delete_sendmq_ok fuel fd y : ∀ s, at_slot (Some fd) fd y has_queue s →
  ok IO true (delete_sendmq fuel y) (λ _, at_slot (Some fd) fd y any_queue) s.
Proof.
  induction fuel as [|fuel IH]; intros s Hs; [apply ok_halt|]. cbn [delete_sendmq].
  eapply ok_bind; [by apply (ok_queue_empty (Some fd) fd y has_queue); auto with kept|].
  intros e s1 H1. destruct e; cbn [negb].
  - eapply (ok_removing (Some fd) fd y (with_sendmq None) has_queue); auto with kept; [done|..].
    + intros s2 H2 Hf. destruct (at_slot_sendmq _ _ _ _ _ H2) as [q Hq]. simpl in Hf. congruence.
    + intros s2 [] s3 [_ ->]. by left.
  - destruct (at_slot_first _ _ _ _ H1) as [x Hx].
    eapply ok_bind; [by apply ok_queue_pop|]. intros p s2 (-> & H2 & Ht).
    eapply ok_bind; [eapply (ok_deref (λ s, at_slot (Some fd) fd y has_queue s ∧ taken x s)); [|by split]|].
    { apply stable_and; auto with kept. }
    intros x' s3 (-> & H3 & Ht3). eapply ok_bind; [by apply ok_message_free|]. intros [] s4 H4. by apply IH.
Qed.

Lemma kept_inv : kept IO (inv None).
Proof. exact (kept_knows IO None). Qed.
#[export] Hint Resolve kept_inv : kept.

(** Reading an entry of the array. *)
Definition entry_is (fd : Z) (p : ptr) (s : shared) : Prop :=
  match p with Some y => at_slot None fd y has_queue s | None => inv None s end.

Lemma ok_load_slot fd P s :
  kept IO P → (∀ s, P s → inv None s) → P s →
  ok IO true (act (LoadSlot fd)) (λ p, entry_is fd p) s.
Proof.
  intros HP HI Hs. apply quiet_ok; eapply (ok_read _ _ _ P); [done| |done|by intros ? _ _ []|].
  - intros [y|]; [apply kept_at_slot; auto with kept|apply kept_inv].
  - intros s1 p s2 H1 [-> ->]. split; [done|]. unfold entry_is.
    destruct (sh_slots s1 !! fd) as [y|] eqn:E; [apply slot_at; auto|auto].
Qed.

(** The pointer loaded again is the same. *)
Lemma ok_load_again d fd y K s : grows_in K → at_slot d fd y K s →
  ok IO true (act (LoadSlot fd)) (λ p s, p = Some y ∧ at_slot d fd y K s) s.
Proof.
  intros Hg Hs. apply quiet_ok; eapply (ok_read _ _ _ (at_slot d fd y K)); auto with kept.
  intros s1 p s2 H1 [-> ->]. destruct H1 as (I & Hs1 & Hy). by split_and!.
Qed.

Lemma ok_unchanged {X} (o : access X) P s : kept IO P → P s → (∀ s, P s → ¬ access_fault o s) →
  (∀ s x s', access_step o s x s' → s' = s) → ok IO true (act o) (λ _, P) s.
Proof.
  intros HP Hs Hf Hstep. apply quiet_ok; eapply (ok_read _ _ _ P); auto. intros s1 x s2 H1 Hx. by rewrite (Hstep _ _ _ Hx).
Qed.

(** The fields of the socket of an entry. *)
Lemma at_slot_live d fd y K s : at_slot d fd y K s → ¬ (sh_heap s !! y = None).
Proof. intros (_ & _ & so & Hy & _). congruence. Qed.

Lemma delete_slot_ok fuel fd y s : at_slot None fd y has_queue s →
  ok IO true (slam_socket_delete fuel y) (λ _ s, inv (Some fd) s) s.
Proof.
  intros Hs. unfold slam_socket_delete.
  eapply ok_bind; [eapply (ok_removing None fd y closed has_queue has_queue); auto with kept|].
  { intros so. split_and!; [done..|by right]. }
  { intros s1 H1. exact (at_slot_live _ _ _ _ _ H1). }
  { intros s1 x s2 (so & _ & ->). right. by eexists. }
  intros [] s1 H1. eapply ok_bind; [by apply delete_sendmq_ok|]. intros [] s2 H2.
  eapply (ok_act _ _ _ _ (at_slot (Some fd) fd y any_queue)); auto with kept.
  - intros s3 H3 _. exact (at_slot_live _ _ _ _ _ H3).
  - intros s3 [] s4 H3 [_ ->]. pose proof H3 as (I & Hs3 & so & Hy & Hf & _).
    assert (inv (Some fd) (set_heap (delete y) s3)) as I'
      by (apply inv_socket_free; [done|]; intros fd' H; by eapply at_slot_only).
    split; [|done]. eapply promise_free; [done|right; split; [done|by eapply (iv_published _ _ I)]|].
    intros _. by exists (Some fd).
Qed.

Lemma remove_ok fuel fd s : inv None s → ok IO true (slam_io_thread_remove_socket fuel fd) (λ _, inv None) s.
Proof.
  intros Hs. unfold slam_io_thread_remove_socket. destruct (VALID_SOCKET fd); [|apply ok_halt].
  eapply ok_bind; [by apply (ok_load_slot fd (inv None)); auto with kept|].
  intros [y|] s1 H1; [|apply ok_ret; [apply kept_inv|done]]. simpl in H1.
  eapply ok_bind; [eapply (ok_act _ _ _ _ (at_slot None fd y has_queue) (λ _, at_slot None fd y has_queue)); auto with kept|].
  { intros s2 b s3 (I2 & H2) Hst. simpl in Hst. rewrite Hst. split; [apply promise_poll|]. split; [by apply inv_poll|done]. }
  intros b s2 H2. eapply ok_bind; [by apply (ok_load_again None fd y has_queue); auto with kept|].
  intros p s3 [-> H3]. eapply ok_bind; [by apply (ok_deref (at_slot None fd y has_queue)); auto with kept|].
  intros y' s4 [-> H4]. eapply ok_bind; [by apply delete_slot_ok|]. intros [] s5 H5.
  eapply (ok_act _ _ _ _ (inv (Some fd))); [exact (kept_knows IO (Some fd))|intros _; apply kept_inv|done|by intros ? _ _ []|].
  intros s6 x s7 I Hst. simpl in Hst. rewrite Hst. destruct (step_clear fd s6 I). by split.
Qed.

(** ** Writing, reading and accepting *)
Lemma ok_message_touch d fd y x s : at_slot d fd y (first_is x) s →
  ok IO true (act (MessageTouch x)) (λ _, at_slot d fd y (first_is x)) s.
Proof.
  intros Hs. eapply ok_unchanged; [auto with kept|done| |by intros s1 [] s2 [_ ->]].
  intros s1 (I & Hs1 & so & Hy & _ & q & Hq) Hf. destruct (iv_queue _ _ I y (x :: q) x) as (m & Hm & _); [|by left|].
  - unfold sendmq. by rewrite Hy.
  - simpl in Hf. congruence.
Qed.

Lemma ok_socket_fd d fd y K s : grows_in K → at_slot d fd y K s →
  ok IO true (act (SocketFd y)) (λ _, at_slot d fd y K) s.
Proof.
  intros Hg Hs. eapply ok_unchanged; [auto with kept|done| |by intros s1 x s2 [_ ->]].
  intros s1 H1. exact (at_slot_live _ _ _ _ _ H1).
Qed.

Lemma ok_socket_type d fd y K s : grows_in K → at_slot d fd y K s →
  ok IO true (act (SocketType y)) (λ _, at_slot d fd y K) s.
Proof.
  intros Hg Hs. eapply ok_unchanged; [auto with kept|done| |by intros s1 x s2 [_ ->]].
  intros s1 H1. exact (at_slot_live _ _ _ _ _ H1).
Qed.

Lemma poll_write_ok fd y sends : ∀ s, at_slot None fd y has_queue s →
  ok IO true (slam_socket_poll_write y sends) (λ _, at_slot None fd y has_queue) s.
Proof.
  induction sends as [|r sends IH]; intros s Hs; cbn [slam_socket_poll_write];
    (eapply ok_bind; [by apply (ok_queue_empty None fd y has_queue); auto with kept|]);
    (intros e s1 H1; destruct e; cbn [negb]; [by apply ok_ret; auto with kept|]);
    destruct (at_slot_first _ _ _ _ H1) as [x Hx];
    (eapply ok_bind; [apply quiet_ok; eapply (ok_read _ _ _ (at_slot None fd y (first_is x)) (λ p s, p = Some x ∧ at_slot None fd y (first_is x) s));
       auto with kept|]).
  all: try (intros s2 H2 _ Hf; destruct (at_slot_sendmq _ _ _ _ _ H2) as [q Hq]; simpl in Hf; congruence).
  all: try (intros s2 p s3 H2 (q & Hq & -> & ->); split; [done|]; split; [|done];
    destruct (at_slot_sendmq _ _ _ _ _ H2) as [q0 Hq0]; rewrite Hq0 in Hq; by injection Hq as <-).
  all: intros p s2 [-> H2];
    (eapply ok_bind; [by apply (ok_deref (at_slot None fd y (first_is x))); auto with kept|]); intros x' s3 [-> H3];
    (eapply ok_bind; [by apply (ok_message_touch None fd y x)|]); intros [] s4 H4;
    (eapply ok_bind; [by apply (ok_socket_fd None fd y (first_is x)); auto with kept|]); intros fd' s5 H5.
  all: assert (at_slot None fd y has_queue s5) as H5' by (eapply at_slot_mono; [|exact H5]; intros mq [q ->]; by eexists).
  - apply ok_ret; auto with kept.
  - destruct r; [apply ok_ret; auto with kept|apply ok_ret; auto with kept| |].
    + eapply ok_bind; [by apply (ok_message_touch None fd y x)|]. intros [] s6 H6. apply IH.
      eapply at_slot_mono; [|exact H6]. intros mq [q ->]. by eexists.
    + eapply ok_bind; [by apply (ok_message_touch None fd y x)|]. intros [] s6 H6.
      eapply ok_bind; [by apply ok_queue_pop|]. intros p s7 (_ & H7 & Ht).
      eapply ok_bind; [by apply ok_message_free|]. intros [] s8 H8. by apply IH.
Qed.

Lemma poll_read_ok fd y recvs b : ∀ s, at_slot None fd y has_queue s →
  ok IO true (slam_socket_poll_read y recvs b) (λ _, at_slot None fd y has_queue) s.
Proof.
  induction recvs as [|recvs IH]; intros s Hs; cbn [slam_socket_poll_read]; [by apply ok_ret; auto with kept|].
  eapply ok_bind; [by apply (ok_socket_fd None fd y has_queue); auto with kept|]. intros fd' s1 H1. by apply IH.
Qed.

Definition made (t : thread) (d : option Z) (type : Z) (p : ptr) (s : shared) : Prop :=
  match p with Some y => ∃ fd, owns t d y (new_sock t fd type) s | None => knows t d s end.

Lemma ok_socket_new t b d type s : knows t d s →
  ok_quiet t b (act (SocketNew t type)) (made t d type) s.
Proof.
  intros Hs. eapply (ok_act _ _ _ _ (knows t d)); [auto with kept| |done|by intros ? _ _ []|].
  - intros [y|]; [|apply kept_knows]. intros s1 s2 [fd H] Hp. exists fd. by eapply kept_owns.
  - intros s1 p s2 H1 [[-> ->]|(fd & Hfd & -> & ->)]; [by split; [apply quiet_refl|]|].
    split; [split; [by apply (promise_new t fd type); [eapply knows_inv|..]|done]|]. exists fd. split.
    + eapply knows_step; [done|]. intros d' I. by eapply step_new.
    + split_and!; [|done|done]. simpl. by rewrite lookup_insert_eq.
Qed.

(** The new socket goes into the array, or is deleted. *)
Lemma accepted_ok fuel y so s :
  owns IO None y so s → so_open so = true → so_sendmq so = Some [] →
  ok_quiet IO true
    (added ← slam_io_thread_add_socket y;
     if negb added then slam_socket_delete fuel y else _ ← act (SocketFd y); Ret tt)
    (λ _, inv None) s.
Proof.
  intros Hs Ho Hq. eapply ok_bind; [apply (add_socket_ok IO true None y so); [done..|by rewrite Hq]|].
  intros [] s1 [I H1]; cbn [negb]; [|by apply (delete_own_ok IO true None fuel y so)].
  simpl in I, H1. eapply ok_bind; [eapply (ok_read _ _ _ (at_slot None (so_fd so) y has_queue) (λ _, inv None))|].
  - auto with kept.
  - intros _. apply kept_inv.
  - by apply slot_at.
  - intros s2 H2 _. exact (at_slot_live _ _ _ _ _ H2).
  - intros s2 fd s3 [I2 _] [_ ->]. done.
  - intros fd s2 I2. apply ok_ret; [apply kept_inv|done].
Qed.

Lemma accept_loop_ok fuel fd y accepts : ∀ s, at_slot None fd y has_queue s →
  ok IO true (accept_loop fuel y accepts) (λ _, inv None) s.
Proof.
  induction accepts as [|accepts IH]; intros s Hs; cbn [accept_loop]; [apply ok_ret; [auto with kept|apply Hs]|].
  eapply ok_bind; [by apply (ok_socket_fd None fd y has_queue); auto with kept|]. intros fd' s1 H1.
  assert (∀ s s', quiet IO s s' → sh_slots s !! fd = Some y → sh_slots s' !! fd = Some y) as HF by (intros ? ? [_ H]; apply H).
  eapply ok_bind.
  { apply quiet_ok, (ok_frame _ _ _ _ (made IO None SOCKET_CONNECTION) (λ s, sh_slots s !! fd = Some y));
      [by apply ok_socket_new; apply H1|apply kept_slot|exact HF|apply H1]. }
  intros [z|] s2 [H2 Hsl]; [|apply ok_ret; [auto with kept|done]]. destruct H2 as [fd2 H2].
  eapply ok_bind.
  { apply quiet_ok, (ok_frame _ _ _ _ (λ _, inv None) (λ s, sh_slots s !! fd = Some y));
      [|apply kept_slot|exact HF|exact Hsl]. eapply (accepted_ok fuel z); [exact H2|done..]. }
  intros [] s3 [H3 Hsl3]. apply IH. by apply slot_at.
Qed.

(** ** The I/O thread *)
Lemma read_socket_ok a fd s : inv None s → ok IO true (slam_io_thread_read_socket a fd) (λ _, inv None) s.
Proof.
  intros Hs. unfold slam_io_thread_read_socket. destruct (VALID_SOCKET fd); [|apply ok_halt].
  eapply ok_bind; [by apply (ok_load_slot fd (inv None)); auto with kept|].
  intros [y|] s1 H1; [|apply ok_ret; [apply kept_inv|done]]. simpl in H1.
  eapply ok_bind; [by apply (ok_load_again None fd y has_queue); auto with kept|]. intros p s2 [-> H2].
  eapply ok_bind; [by apply (ok_deref (at_slot None fd y has_queue)); auto with kept|]. intros y' s3 [-> H3].
  eapply ok_bind; [by apply (ok_socket_type None fd y has_queue); auto with kept|]. intros type s4 H4.
  case_bool_decide.
  - unfold slam_io_thread_accept_socket.
    eapply ok_bind; [by apply (ok_socket_type None fd y has_queue); auto with kept|]. intros type' s5 H5.
    case_bool_decide; [|apply ok_halt]. by apply (accept_loop_ok _ fd).
  - eapply ok_bind; [by apply (poll_read_ok fd)|]. intros b s5 H5.
    destruct b; cbn [negb]; [apply ok_ret; [apply kept_inv|apply H5]|apply remove_ok, H5].
Qed.

Lemma write_socket_ok a fd s : inv None s → ok IO true (slam_io_thread_write_socket a fd) (λ _, inv None) s.
Proof.
  intros Hs. unfold slam_io_thread_write_socket. destruct (VALID_SOCKET fd); [|apply ok_halt].
  eapply ok_bind; [by apply (ok_load_slot fd (inv None)); auto with kept|].
  intros [y|] s1 H1; [|apply ok_ret; [apply kept_inv|done]]. simpl in H1.
  eapply ok_bind; [by apply (ok_load_again None fd y has_queue); auto with kept|]. intros p s2 [-> H2].
  eapply ok_bind; [by apply (ok_deref (at_slot None fd y has_queue)); auto with kept|]. intros y' s3 [-> H3].
  eapply ok_bind; [by apply (ok_socket_type None fd y has_queue); auto with kept|]. intros type s4 H4.
  destruct (negb _); [|apply ok_halt].
  eapply ok_bind; [by apply (poll_write_ok fd)|]. intros b s5 H5.
  destruct b; cbn [negb]; [apply ok_ret; [apply kept_inv|apply H5]|apply remove_ok, H5].
Qed.

Lemma do_event_ok event a s : inv None s → ok IO true (do_event event a) (λ _, inv None) s.
Proof.
  intros Hs. unfold do_event. repeat (destruct (negb _); [by apply remove_ok|]).
  eapply ok_bind with (P := λ _, inv None).
  - destruct (negb _); [by apply read_socket_ok|apply ok_ret; [apply kept_inv|done]].
  - intros [] s1 H1. destruct (negb _); [by apply write_socket_ok|apply ok_ret; [apply kept_inv|done]].
Qed.

Lemma io_thread_ok events : ∀ s, inv None s → ok IO true (io_thread events) (λ _, inv None) s.
Proof.
  induction events as [|[event a] events IH]; intros s Hs; cbn [io_thread]; [apply ok_ret; [apply kept_inv|done]|].
  eapply ok_bind; [by apply do_event_ok|]. intros [] s1 H1. by apply IH.
Qed.

(** ** The worker, which is not safe *)
Definition some_inv (s : shared) : Prop := ∃ d, inv d s.

Lemma kept_some_inv : kept Worker some_inv.
Proof. exact (kept_knows Worker None). Qed.
#[export] Hint Resolve kept_some_inv : kept.

(** A step of the worker that leaves the state alone, whatever it reads. *)
Lemma worker_read {X} (o : access X) P s :
  kept Worker P → P s → (∀ s x s', access_step o s x s' → s' = s) → ok Worker false (act o) (λ _, P) s.
Proof.
  intros HP Hs Hstep. eapply ok_act; [exact HP|by intros _|done|by intros ? _ [=]|].
  intros s1 x s2 H1 Hx. rewrite (Hstep _ _ _ Hx). split; [apply promise_refl|done].
Qed.

Lemma open_socket_ok type b s : some_inv s → ok Worker false (open_socket type b) (λ _, some_inv) s.
Proof.
  intros Hs. unfold open_socket. eapply ok_bind; [by apply quiet_ok, (ok_socket_new Worker false None)|].
  intros [y|] s1 H1; [|apply ok_halt]. destruct H1 as [fd H1].
  destruct b; cbn [negb].
  - eapply ok_bind; [apply quiet_ok, (ok_own_update Worker false None y (with_type type) (new_sock Worker fd SOCKET_NONE)); try done; [by right| |]|].
    { intros s2 Hy Hf. simpl in Hf. congruence. }
    { intros s2 [] s3 _ [_ ->]. by left. }
    intros [] s2 H2. eapply ok_bind; [by apply quiet_ok, (add_socket_ok Worker false None y (with_type type (new_sock Worker fd SOCKET_NONE)))|].
    intros [] s3 [H3 H3']; cbn [negb].
    + apply worker_read; [apply kept_some_inv|done|by intros s4 x s5 [_ ->]].
    + eapply ok_bind; [by eapply quiet_ok, (delete_own_ok Worker false None)|].
      intros [] s4 H4. by apply ok_ret; auto with kept.
  - eapply ok_bind; [by eapply quiet_ok, (delete_own_ok Worker false None)|].
    intros [] s4 H4. by apply ok_ret; auto with kept.
Qed.

Lemma response_ok x s : some_inv s → fresh_message x s → ok Worker false (slam_io_response x) (λ _, some_inv) s.
Proof.
  intros Hs Hx. unfold slam_io_response. set (P := λ s, some_inv s ∧ fresh_message x s).
  assert (kept Worker P) as HP by (apply stable_and; auto with kept).
  eapply ok_bind; [by apply (worker_read _ P); [..|intros s1 fd s2 [_ ->]]|]. intros fd s1 H1.
  destruct (negb _); [apply ok_ret; [apply kept_some_inv|apply H1]|].
  eapply ok_bind; [by apply (worker_read _ P); [..|intros s2 p s3 [_ ->]]|].
  intros [z|] s2 H2; [|apply ok_ret; [apply kept_some_inv|apply H2]].
  set (P' := λ (p : ptr) s, P s ∧ ∀ y, p = Some y → was_published y s).
  assert (∀ p, kept Worker (P' p)) as HP'.
  { intros p s3 s4 [H Hp] Hr. split; [by eapply HP|]. intros y E. eapply kept_was_published; [by apply Hp|done]. }
  eapply ok_bind; [eapply (ok_act _ _ _ _ P P')|]; [exact HP|exact HP'|exact H2|by intros ? _ [=]| |].
  { intros s3 p s4 H3 [-> ->]. split; [apply promise_refl|]. split; [done|]. intros y Hy.
    destruct H3 as [[d I] _]. split; [by eapply (iv_slot_brk _ _ I)|]. intros so. by eapply (iv_published _ _ I). }
  intros p s3 H3.
  eapply ok_bind; [by apply (worker_read _ (P' p)); [..|intros s4 [] s5 [_ ->]]|]. intros [] s4 H4.
  eapply ok_bind; [eapply (ok_act _ _ _ _ (P' p) (λ y s, P s ∧ was_published y s))|];
    [apply HP'|intros y; apply stable_and; auto with kept|exact H4|by intros ? _ [=]| |].
  { intros s5 y s6 [H5 Hp] [-> ->]. split; [apply promise_refl|]. split; [done|]. by apply Hp. }
  intros y s5 H5.
  eapply ok_bind; [eapply (ok_act _ _ _ _ (λ s, P s ∧ was_published y s) (λ _, some_inv))|];
    [apply stable_and; auto with kept|auto with kept|exact H5|by intros ? _ [=]| |].
  { intros s6 b s7 [[[d I] Hf] Hw] (q & Hq & ->). destruct b; [|split; [apply promise_refl|by exists d]].
    split; [by apply promise_push|]. exists d. by apply inv_push. }
  intros b s6 H6. destruct (negb b); [by apply ok_ret; auto with kept|].
  eapply ok_bind; [by apply (worker_read _ some_inv); [auto with kept|..|intros s7 fd' s8 [_ ->]]|].
  intros fd' s7 H7. apply worker_read; [auto with kept|done|by intros s8 b' s9 [_ ->]].
Qed.

Lemma worker_ok calls : ∀ s, some_inv s → ok Worker false (worker calls) (λ _, some_inv) s.
Proof.
  induction calls as [|c calls IH]; intros s Hs; cbn [worker]; [by apply ok_ret; auto with kept|].
  eapply ok_bind with (P := λ _, some_inv); [|by intros []; apply IH].
  destruct c; cbn [do_call]; try (eapply ok_bind; [by apply open_socket_ok|]; intros r s1 H1; by apply ok_ret; auto with kept).
  - eapply ok_bind; [eapply (ok_act _ _ _ _ some_inv (λ x s, some_inv s ∧ fresh_message x s))|];
      [auto with kept|intros x; apply stable_and; auto with kept|done|by intros ? _ [=]| |].
    + intros s1 x s2 H1 [-> ->]. split; [by apply promise_message_new|]. split.
      * destruct H1 as [d I]. exists d. by apply inv_message_new.
      * eexists. split; [simpl; by rewrite lookup_insert_eq|done].
    + intros x s1 [H1 Hx]. eapply ok_bind; [by apply response_ok|]. intros r s2 H2. by apply ok_ret; auto with kept.
  - by apply ok_ret; auto with kept.
Qed.


(** ** The properties *)
Lemma reached_ok calls events c : rtc pair_step (start calls events) c →
  pair_ok (promise Worker) (promise IO) some_inv false true (λ _, some_inv) (λ _, inv None) c.
Proof.
  apply pair_ok_steps.
  - intros s s' H [d I]. exists d. by apply (pm_inv _ _ _ H).
  - intros s s' H. apply (pm_inv _ _ _ H).
  - assert (inv None shared_new) as I by (split; try done; intros ? [? ?]; done).
    split; [by apply worker_ok; exists None|]. split; [by apply io_thread_ok|by exists None].
Qed.

(** Claim C11.  The I/O thread is safe without a lock.  Whatever the worker's calls
    and the events, and however the accesses of the two threads are interleaved,
    its next access is never to a null pointer nor to a socket, a queue or a
    message that has been freed; every entry of the array, but the one it may be
    removing at the moment, is an open socket with this descriptor; and a queued
    message is a message that is not freed, in one queue only. *)
Theorem io_thread_never_faults calls events c :
  rtc pair_step (start calls events) c →
  ¬ faults (pc_right c) (pc_state c) ∧
  (∃ removing : option Z, ∀ fd y, sh_slots (pc_state c) !! fd = Some y → Some fd ≠ removing →
     ∃ so, sh_heap (pc_state c) !! y = Some so ∧ so_fd so = fd ∧ so_open so = true) ∧
  (∀ y q x, sendmq y (pc_state c) = Some q → x ∈ q →
     is_Some (sh_messages (pc_state c) !! x) ∧ ∀ y' q', sendmq y' (pc_state c) = Some q' → x ∈ q' → y' = y).
Proof.
  intros Hc. destruct (reached_ok _ _ _ Hc) as (_ & Hio & d & I). split_and!.
  - by eapply ok_no_fault.
  - exists d. intros fd y Hs Hd. destruct (iv_slot _ _ I fd y Hs Hd) as (so & Hy & Hf & Ho & _). by exists so.
  - intros y q x Hq Hx. destruct (iv_queue _ _ I y q x Hq Hx) as (m & Hm & _). split; [by exists m|].
    intros y' q' Hq' Hx'. by eapply (iv_disjoint _ _ I).
Qed.

(** ** Runs that go wrong *)
Module RaceDemo.
(** The kernel hands out the descriptor 5. *)
Definition at5 : hint := {| hint_fd := 5; hint_bool := true |}.

Definition event (bits : Z) (sends : list send_report) : slam_poll_event * io_answers :=
  ({| ev_events := bits; ev_fd := 5 |},
   {| ia_accepts := 0; ia_recvs := 1; ia_read := true; ia_sends := sends; ia_fuel := 3 |}).

(** Data arrives after the descriptor is in the poll and before it is in the
    array: the event is handled and nothing is read. *)
Example arrival_unread :
  match run [(Worker, 5); (IO, 1); (Worker, 2)]%nat at5 (start [CallNewclient true] [event EPOLLIN []]) with
  | Some c => pc_left c = Ret tt ∧ pc_right c = Ret tt ∧ is_Some (sh_slots (pc_state c) !! 5)
  | None => False
  end.
Proof. vm_compute. split_and!; [done|done|by eexists]. Qed.
End RaceDemo.

(** Claim C20.  The worker is not safe.  A [response] may push its message to a
    socket the I/O thread has freed since the array was read; it may read the
    descriptor of its message after the I/O thread has sent and freed it, with the
    connection still open; a [newclient] may read the descriptor of a socket the
    I/O thread has freed already; and it may abort on the entry of a socket whose
    descriptor has been closed, and handed out again, before the entry is cleared. *)
Theorem worker_races :
  (∃ events c y x k, rtc pair_step (start [CallNewclient true; CallResponse 5] events) c ∧
     pc_left c = Act (QueuePush y x) k ∧ sendmq y (pc_state c) = None) ∧
  (∃ events c x k, rtc pair_step (start [CallNewclient true; CallResponse 5; CallResponse 5] events) c ∧
     pc_left c = Act (MessageFd x) k ∧ sh_messages (pc_state c) !! x = None ∧
     is_Some (sh_slots (pc_state c) !! 5)) ∧
  (∃ events c y k, rtc pair_step (start [CallNewclient true] events) c ∧
     pc_left c = Act (SocketFd y) k ∧ sh_heap (pc_state c) !! y = None) ∧
  (∃ events c, rtc pair_step (start [CallNewclient true; CallNewclient true] events) c ∧
     pc_left c = Halt Assertion).
Proof.
  split_and!.
  - exists [RaceDemo.event EPOLLHUP []]. do 4 eexists.
    split; [eapply (run_steps [(Worker, 13); (IO, 8)]%nat RaceDemo.at5); vm_compute; reflexivity|].
    split; [reflexivity|vm_compute; reflexivity].
  - exists [RaceDemo.event EPOLLOUT [SendRest; SendRest]]. do 3 eexists.
    split; [eapply (run_steps [(Worker, 23); (IO, 20)]%nat RaceDemo.at5); vm_compute; reflexivity|].
    split_and!; [reflexivity|vm_compute; reflexivity|vm_compute; by eexists].
  - exists [RaceDemo.event EPOLLHUP []]. do 3 eexists.
    split; [eapply (run_steps [(Worker, 6); (IO, 8)]%nat RaceDemo.at5); vm_compute; reflexivity|].
    split; [reflexivity|vm_compute; reflexivity].
  - exists [RaceDemo.event EPOLLHUP []]. eexists.
    split; [eapply (run_steps [(Worker, 7); (IO, 8); (Worker, 4)]%nat RaceDemo.at5); vm_compute; reflexivity|].
    reflexivity.
Qed.

Lemma io_thread_never_faults_witness :
  ∃ c, rtc pair_step (start [CallNewclient true; CallResponse 5] [RaceDemo.event EPOLLHUP []]) c ∧
    ¬ faults (pc_right c) (pc_state c) ∧ faults (pc_left c) (pc_state c).
Proof.
  assert (∃ c, run [(Worker, 13); (IO, 8)]%nat RaceDemo.at5
    (start [CallNewclient true; CallResponse 5] [RaceDemo.event EPOLLHUP []]) = Some c ∧
    faults (pc_left c) (pc_state c)) as (c & Hc & Hf) by (eexists; split; vm_compute; reflexivity).
  exists c. split; [by eapply run_steps|]. split; [|exact Hf].
  apply (io_thread_never_faults [CallNewclient true; CallResponse 5] [RaceDemo.event EPOLLHUP []] c).
  by eapply run_steps.
Defined.
