(* ===== verification/Protocol.v ===== *)
(** * The protocol ([slam_protocol.c], [MessageBuilder.cpp])

    Message ids are bound to protobuf types, packages are encoded from Lua
    tables and decoded into them.  Protobuf and the Lua state are parameters:
    which types the loaded descriptors know, how a type's value is parsed and
    serialized, and how a value is read from and written to the Lua stack. *)

From S2P Require Import Prelude CString MessageQueue Message Socket.
From Stdlib Require Import Ascii.
From stdpp Require Import pretty.
Open Scope Z_scope.
Open Scope c_scope.

(** ** Data *)
Definition MAX_MESSAGE_ID : Z := 65536.

Definition BUILDER_OK : Z := 0.
Definition BUILDER_ERROR : Z := -1.

Definition SIZEOF_MESSAGE : Z := 24.     (* sizeof(slam_message_t) *)

(** [regtable]: the non-null entries; [parser]: the types the message parser
    has registered. *)
Record slam_protocol := {
  pr_regtable : gmap Z string;
  pr_parser : gmap Z string;
}.

Definition slam_protocol_new : slam_protocol := {| pr_regtable := ∅; pr_parser := ∅ |}.

Definition MESSAGE_REF_NAME (msgid : Z) (typename : string) : string :=
  snprintf PATH_MAX (typename +:+ "." +:+ pretty msgid).

Section protocol.
(** Protobuf values, and the Lua state. *)
Context {P L : Type}.
Context (known_type : string → bool).
Context (parse : string → list byte → option P) (serialize : string → P → list byte).
Context (encodeDescriptor : string → L → outcome (option P * L)).
Context (decodeDescriptor : string → P → L → outcome (bool * L)).

(** ** The message parser *)
Definition RegisteMessage (pr : slam_protocol) (msgid : Z) (name : string) : bool * slam_protocol :=
  match pr_parser pr !! msgid with
  | Some _ => (false, pr)                (* "duplicate RegisteMessage" *)
  | None =>
      if known_type name then
        (true, {| pr_regtable := pr_regtable pr; pr_parser := <[msgid := name]> (pr_parser pr) |})
      else (false, pr)
  end.

Definition MessageBuilderRegister (pr : slam_protocol) (msgid : Z) (name : string)
    : Z * slam_protocol :=
  let '(b, pr) := RegisteMessage pr msgid name in
  (if (b : bool) then BUILDER_OK else BUILDER_ERROR, pr).

Definition luaT_message_parser_decode (pr : slam_protocol) (l : L) (msgid : Z) (buf : list byte)
    : outcome (bool * L) :=
  match pr_parser pr !! msgid with
  | None => Ok (false, l)
  | Some name =>
      match parse name buf with
      | None => Ok (false, l)
      | Some message => decodeDescriptor name message l
      end
  end.

Definition MessageBuilderDecode (pr : slam_protocol) (l : L) (msgid : Z) (buf : list byte)
    : outcome (Z * L) :=
  if negb (len buf >? 0) then Ok (BUILDER_ERROR, l)   (* "bufsize is 0" *)
  else
    '(b, l) ← luaT_message_parser_decode pr l msgid buf;
    Ok (if (b : bool) then BUILDER_OK else BUILDER_ERROR, l).

(** [luaT_message_parser_encode] leaves [size] bytes free in front; what a failed
    encoding leaves on the Lua stack stays there. *)
Definition MessageBuilderEncode (pr : slam_protocol) (l : L) (msgid size : Z)
    : outcome (option (list cell) * L) :=
  match pr_parser pr !! msgid with
  | None => Ok (None, l)
  | Some name =>
      '(message, l) ← encodeDescriptor name l;
      Ok (match message with
          | None => None
          | Some message => Some (fresh_cells size ++ (Some <$> serialize name message))
          end, l)
  end.

(** ** Registration *)

(** [strdup] reads the name through a pointer to an array whose block has ended,
    which is undefined behaviour; [dead_block] is what the compiler makes of it:
    the bytes found there, if any, or [Undef]. *)
Context (dead_block : string → outcome string).

Definition slam_protocol_reg_message (pr : slam_protocol) (msgid : Z) (typename : string)
    : outcome (option string * slam_protocol) :=
  if negb (msgid >=? 0) then Ok (None, pr)            (* "illegal msgid" *)
  else if negb (msgid <? MAX_MESSAGE_ID) then Ok (None, pr)
  else
    match pr_regtable pr !! msgid with
    | Some _ => Ok (None, pr)                         (* "duplicate reg" *)
    | None =>
        let '(rc, pr) := MessageBuilderRegister pr msgid typename in
        if negb (rc =? BUILDER_OK) then Ok (None, pr)
        else
          name ← dead_block (MESSAGE_REF_NAME msgid typename);
          Ok (Some name, {| pr_regtable := <[msgid := name]> (pr_regtable pr); pr_parser := pr_parser pr |})
    end.

Definition slam_protocol_find_name (pr : slam_protocol) (msgid : Z) : option string :=
  if negb (msgid >=? 0) then None
  else if negb (msgid <? MAX_MESSAGE_ID) then None
  else pr_regtable pr !! msgid.

(** ** Decoding and encoding *)

(** [slam_lua_event_message] on the state the decoder has left. *)
Context (slam_lua_event_message : slam_protocol → L → Z → Z → outcome (bool * L)).

Definition slam_protocol_decode (pr : slam_protocol) (l : L) (message : slam_message)
    : outcome (bool * L) :=
  ASSERT msg_bytesize message =? msg_bufsize message ;;
  mlen ← load_uint RAW_LEN 4 (msg_buf message);
  ASSERT mlen >=? PACKAGE_MIN_SIZE ;;
  msgid ← load_uint RAW_MSGID 4 (msg_buf message);
  let msgid := i32 msgid in
  payload ← load RAW_PAYLOAD (mlen - PACKAGE_MIN_SIZE) (msg_buf message);
  '(rc, l) ← MessageBuilderDecode pr l msgid payload;
  if negb (rc =? BUILDER_OK) then Ok (false, l)
  else slam_lua_event_message pr l (msg_fd message) msgid.

(** The block the builder returns holds the message's fields, the packed
    header, and the payload. *)
Definition slam_protocol_encode (pr : slam_protocol) (l : L) (h : msg_heap) (fd msgid : Z)
    : outcome (ptr * msg_heap * L) :=
  let head_size := SIZEOF_MESSAGE + PACKAGE_MIN_SIZE in
  '(buf, l) ← MessageBuilderEncode pr l msgid head_size;
  match buf with
  | None => Ok (None, h, l)                           (* "EncodeMessage error" *)
  | Some block =>
      let size := len block in
      ASSERT size >=? head_size ;;
      let bufsize := size - SIZEOF_MESSAGE in
      let buf := drop (Z.to_nat SIZEOF_MESSAGE) block in
      buf ← store_uint RAW_LEN 4 bufsize buf;
      buf ← store_uint RAW_ENTITYID 8 0 buf;
      buf ← store_uint RAW_MSGID 4 msgid buf;
      buf ← store_uint RAW_FLAGS 2 0 buf;
      let x := mh_brk h in
      Ok (Some x,
          {| mh_msgs := <[x := {| msg_fd := fd; msg_type := MESSAGE_TYPE_PROTOBUF_PACKAGE;
                                  msg_bufsize := bufsize; msg_bytesize := 0;
                                  msg_buf := buf |}]> (mh_msgs h);
             mh_brk := Pos.succ x |}, l)
  end.

(** [slam_protocol_delete] releases the names; the parser goes with it. *)
Definition slam_protocol_delete (pr : slam_protocol) : list string := (map_to_list (pr_regtable pr)).*2.

(** ** The package on the wire *)
Definition package (msgid : Z) (payload : list byte) : list byte :=
  le_split 4 (PACKAGE_MIN_SIZE + len payload) ++ le_split 8 0 ++ le_split 4 msgid ++ le_split 2 0
  ++ payload.

(** ** Lemmas *)
Lemma package_len msgid payload : len (package msgid payload) = PACKAGE_MIN_SIZE + len payload.
Proof. unfold package, PACKAGE_MIN_SIZE. len. Qed.

Lemma le_combine_split_id n z : 0 <= z < 2 ^ (8 * Z.of_nat n) → le_combine (le_split n z) = z.
Proof. intros H. rewrite le_combine_split, Z.mod_small; [done|]. by rewrite Z.mul_comm. Qed.

Lemma i32_le_split z : - 2 ^ 31 <= z < 2 ^ 31 → i32 (le_combine (le_split 4 z)) = z.
Proof.
  intros H. rewrite le_combine_split. change (Z.of_nat 4 * 8) with 32. unfold i32.
  rewrite Zplus_mod_idemp_l. by rewrite Z.mod_small; lia.
Qed.

Lemma package_frame max msgid payload :
  PACKAGE_MIN_SIZE + len payload < max → PACKAGE_MIN_SIZE + len payload < 2 ^ 32 →
  frame_ok max (package msgid payload).
Proof.
  intros Hm Hw. pose proof (len_nonneg payload). unfold frame_ok. rewrite package_len.
  split; [lia|]. unfold package. rewrite take_app_le by len. rewrite take_ge by len.
  apply le_combine_split_id. unfold PACKAGE_MIN_SIZE in *. change (8 * Z.of_nat 4) with 32. lia.
Qed.

(** The four stores of the header fill its 18 bytes in order. *)
Lemma header_stores msgid payload :
  (buf ← store_uint RAW_LEN 4 (PACKAGE_MIN_SIZE + len payload) (fresh_cells 18 ++ (Some <$> payload));
   buf ← store_uint RAW_ENTITYID 8 0 buf;
   buf ← store_uint RAW_MSGID 4 msgid buf;
   store_uint RAW_FLAGS 2 0 buf) = Ok (Some <$> package msgid payload).
Proof.
  unfold store_uint, RAW_LEN, RAW_ENTITYID, RAW_MSGID, RAW_FLAGS.
  set (a := le_split 4 (PACKAGE_MIN_SIZE + len payload)).
  set (b := le_split 8 0). set (c := le_split 4 msgid). set (d := le_split 2 0).
  assert (len a = 4 ∧ len b = 8 ∧ len c = 4 ∧ len d = 2) as (La & Lb & Lc & Ld)
    by (subst a b c d; split_and!; len).
  pose proof (store_app [] a (fresh_cells 18 ++ (Some <$> payload))) as Ha.
  rewrite len_nil in Ha. rewrite app_nil_l in Ha. rewrite Ha by (rewrite La; unfold fresh_cells; len).
  rewrite bind_ok. clear Ha.
  pose proof (store_app (Some <$> a) b (drop 4 (fresh_cells 18 ++ (Some <$> payload)))) as Hb.
  replace (len (Some <$> a)) with 4 in Hb by len. replace (length a) with 4%nat by len.
  rewrite app_nil_l. rewrite Hb by (unfold fresh_cells; len). rewrite bind_ok. clear Hb.
  pose proof (store_app ((Some <$> a) ++ (Some <$> b)) c
    (drop 8 (drop 4 (fresh_cells 18 ++ (Some <$> payload))))) as Hc.
  replace (len ((Some <$> a) ++ (Some <$> b))) with 12 in Hc by len. rewrite <- !app_assoc in Hc.
  replace (length b) with 8%nat by len. rewrite Hc by (unfold fresh_cells; len).
  rewrite bind_ok. clear Hc.
  pose proof (store_app ((Some <$> a) ++ (Some <$> b) ++ (Some <$> c)) d
    (drop 4 (drop 8 (drop 4 (fresh_cells 18 ++ (Some <$> payload)))))) as Hd.
  replace (len ((Some <$> a) ++ (Some <$> b) ++ (Some <$> c))) with 16 in Hd by len.
  rewrite <- !app_assoc in Hd. replace (length c) with 4%nat by len.
  rewrite Hd by (unfold fresh_cells; len).
  reflexivity.
Qed.

(** [slam_protocol_encode] makes a package of the payload. *)
Lemma slam_protocol_encode_spec pr l l' h fd msgid name message :
  pr_parser pr !! msgid = Some name → encodeDescriptor name l = Ok (Some message, l') →
  let payload := serialize name message in
  slam_protocol_encode pr l h fd msgid =
    Ok (Some (mh_brk h),
        {| mh_msgs := <[mh_brk h := {| msg_fd := fd; msg_type := MESSAGE_TYPE_PROTOBUF_PACKAGE;
                                       msg_bufsize := len (package msgid payload); msg_bytesize := 0;
                                       msg_buf := Some <$> package msgid payload |}]> (mh_msgs h);
           mh_brk := Pos.succ (mh_brk h) |}, l').
Proof.
  intros Hn He payload. unfold slam_protocol_encode, MessageBuilderEncode. rewrite Hn, He, bind_ok.
  cbv beta iota. rewrite bind_ok. cbv beta iota zeta.
  fold payload. pose proof (len_nonneg payload).
  assert (len (fresh_cells (SIZEOF_MESSAGE + PACKAGE_MIN_SIZE) ++ (Some <$> payload))
          = SIZEOF_MESSAGE + PACKAGE_MIN_SIZE + len payload) as Hl.
  { rewrite len_app, fresh_cells_len, len_fmap; [done|done]. }
  rewrite Hl. unfold SIZEOF_MESSAGE, PACKAGE_MIN_SIZE. zcase; [|lia].
  replace (24 + 18 + len payload - 24) with (PACKAGE_MIN_SIZE + len payload)
    by (unfold PACKAGE_MIN_SIZE; lia).
  replace (drop (Z.to_nat 24) (fresh_cells (24 + 18) ++ (Some <$> payload)))
    with (fresh_cells 18 ++ (Some <$> payload)) by reflexivity.
  pose proof (header_stores msgid payload) as E. rewrite package_len.
  destruct (store_uint RAW_LEN 4 _ _) as [b1| | |]; [simpl in E |- *|done..].
  destruct (store_uint RAW_ENTITYID 8 _ _) as [b2| | |]; [simpl in E |- *|done..].
  destruct (store_uint RAW_MSGID 4 _ _) as [b3| | |]; [simpl in E |- *|done..].
  rewrite E. reflexivity.
Qed.

(** [slam_protocol_decode] reads the fields of a complete package. *)
Lemma slam_protocol_decode_spec pr l max fd msg f :
  holds max fd msg f → msg_bufsize msg = len f → 
  ∃ rest, msg_buf msg = (Some <$> f) ++ rest ∧
  slam_protocol_decode pr l msg =
    (let msgid := i32 (le_combine (take 4 (drop 12 f))) in
     '(rc, l) ← MessageBuilderDecode pr l msgid (drop 18 f);
     if negb (rc =? BUILDER_OK) then Ok (false, l)
     else slam_lua_event_message pr l fd msgid).
Proof.
  intros [Hfd Hty Hby [Hh Hh'] Hsz (junk & Hb & Hl)] Hc. exists junk. split; [done|].
  assert (junk = []) as -> by (rewrite Hb in Hl; destruct junk; [done|len]).
  rewrite app_nil_r in Hb. unfold PACKAGE_MIN_SIZE in Hsz.
  assert (∀ off n, 0 <= off → 0 <= n → off + n <= len f →
    load off n (msg_buf msg) = Ok (take (Z.to_nat n) (drop (Z.to_nat off) f))) as Hload.
  { intros off n H1 H2 H3. rewrite Hb. apply load_ok; [done|done|len|].
    by rewrite <- fmap_drop, <- fmap_take. }
  unfold slam_protocol_decode, load_uint. rewrite Hby, Hc, Z.eqb_refl.
  rewrite (Hload RAW_LEN (Z.of_nat 4)), bind_ok by (unfold RAW_LEN; lia).
  rewrite bind_ok. replace (le_combine (take (Z.to_nat (Z.of_nat 4)) (drop (Z.to_nat RAW_LEN) f)))
    with (len f) by (rewrite <- Hc, <- Hh'; reflexivity).
  unfold PACKAGE_MIN_SIZE. zcase; [|lia].
  rewrite (Hload RAW_MSGID (Z.of_nat 4)), !bind_ok by (unfold RAW_MSGID; lia).
  rewrite (Hload RAW_PAYLOAD (len f - 18)), bind_ok by (unfold RAW_PAYLOAD; lia).
  rewrite (take_ge (drop (Z.to_nat RAW_PAYLOAD) f)) by (unfold RAW_PAYLOAD; len). rewrite Hfd. reflexivity.
Qed.
End protocol.

(** ** Names *)
Fixpoint no_dot (s : string) : bool :=
  match s with
  | EmptyString => true
  | String c s => negb (Ascii.eqb c "."%char) && no_dot s
  end.

Lemma no_dot_app s t : no_dot (s +:+ "." +:+ t) = false.
Proof. induction s as [|c s IH]; simpl; [done|]. change (no_dot (s +:+ String "."%char t)) with (no_dot (s +:+ "." +:+ t)). by rewrite IH, andb_false_r. Qed.

Lemma suffix_after_dot s1 : ∀ s2 p1 p2,
  no_dot p1 = true → no_dot p2 = true → s1 +:+ "." +:+ p1 = s2 +:+ "." +:+ p2 → p1 = p2.
Proof.
  induction s1 as [|c1 s1 IH]; intros [|c2 s2] p1 p2 H1 H2 E; simpl in E; simplify_eq; [done| | |].
  - change (p1 = s2 +:+ "." +:+ p2) in H; subst p1. by pose proof (eq_trans (eq_sym H1) (no_dot_app s2 p2)).
  - change (s1 +:+ "." +:+ p1 = p2) in H; subst p2. by pose proof (eq_trans (eq_sym H2) (no_dot_app s1 p1)).
  - by eapply IH.
Qed.

Lemma no_dot_pretty_go x : ∀ s, no_dot s = true → no_dot (pretty_N_go x s) = true.
Proof.
  induction (N.lt_wf_0 x) as [x _ IH]; intros s Hs.
  destruct (decide (x = 0)%N) as [->|Hx]; [by rewrite pretty_N_go_0|].
  rewrite pretty_N_go_step by lia. apply IH; [apply N.div_lt; lia|].
  simpl. rewrite Hs, andb_true_r. unfold pretty_N_char. by repeat case_match.
Qed.

Lemma no_dot_pretty (z : Z) : no_dot (pretty z) = true.
Proof. destruct z; simpl; [done|by apply no_dot_pretty_go|by apply no_dot_pretty_go]. Qed.

Lemma substring_all s : ∀ n, (String.length s <= n)%nat → String.substring 0 n s = s.
Proof.
  induction s as [|c s IH]; intros [|n] H; simpl in *; [done|done|lia|]. by rewrite IH by lia.
Qed.

(** A type name short enough for [PATH_MAX]. *)
Definition short (msgid : Z) (typename : string) : Prop :=
  Z.of_nat (String.length (typename +:+ "." +:+ pretty msgid)) < PATH_MAX.

Lemma ref_name_inj m1 m2 t1 t2 :
  short m1 t1 → short m2 t2 → MESSAGE_REF_NAME m1 t1 = MESSAGE_REF_NAME m2 t2 → m1 = m2.
Proof.
  unfold MESSAGE_REF_NAME, snprintf, short. intros H1 H2.
  rewrite !substring_all by (unfold PATH_MAX in *; lia).
  intros E%suffix_after_dot; [|apply no_dot_pretty|apply no_dot_pretty]. by apply (inj pretty).
Qed.

(** The id is free, in the table and in the parser, and the type is known. *)
Definition bindable (known_type : string → bool) (pr : slam_protocol) (msgid : Z) (typename : string) : bool :=
  bool_decide (0 <= msgid < MAX_MESSAGE_ID) && bool_decide (pr_regtable pr !! msgid = None) &&
  bool_decide (pr_parser pr !! msgid = None) && known_type typename.

Lemma bindable_spec known_type pr msgid typename : bindable known_type pr msgid typename = true ↔
  0 <= msgid < MAX_MESSAGE_ID ∧ pr_regtable pr !! msgid = None ∧ pr_parser pr !! msgid = None ∧
  known_type typename = true.
Proof. unfold bindable. rewrite !andb_true_iff, !bool_decide_eq_true. tauto. Qed.

Section registration.
Context (known_type : string → bool) (dead_block : string → outcome string).
Implicit Types (pr : slam_protocol).

(** Registering either changes nothing and returns null, or binds the id. *)
Lemma reg_message_eq pr msgid typename :
  slam_protocol_reg_message known_type dead_block pr msgid typename =
    if bindable known_type pr msgid typename then
      name ← dead_block (MESSAGE_REF_NAME msgid typename);
      Ok (Some name, {| pr_regtable := <[msgid := name]> (pr_regtable pr);
                        pr_parser := <[msgid := typename]> (pr_parser pr) |})
    else Ok (None, pr).
Proof.
  unfold slam_protocol_reg_message, MessageBuilderRegister, RegisteMessage, bindable.
  rewrite Z.geb_leb. destruct (Z.leb_spec 0 msgid); simpl; [|by rewrite bool_decide_false by lia].
  destruct (Z.ltb_spec msgid MAX_MESSAGE_ID); simpl; [|by rewrite bool_decide_false by lia].
  rewrite bool_decide_true by lia.
  destruct (pr_regtable pr !! msgid); [done|]. destruct (pr_parser pr !! msgid); [done|].
  by destruct (known_type typename).
Qed.

(** A sequence of registrations. *)
Fixpoint reg_all pr (regs : list (Z * string)) : outcome slam_protocol :=
  match regs with
  | [] => Ok pr
  | (msgid, typename) :: regs =>
      '(_, pr) ← slam_protocol_reg_message known_type dead_block pr msgid typename;
      reg_all pr regs
  end.

(** The table and the parser agree, and every entry is the name of its id. *)
Definition reg_ok pr : Prop :=
  ∀ msgid name, pr_regtable pr !! msgid = Some name →
    0 <= msgid < MAX_MESSAGE_ID ∧
    ∃ typename, pr_parser pr !! msgid = Some typename ∧ known_type typename = true ∧
      short msgid typename ∧ name = MESSAGE_REF_NAME msgid typename.

Lemma reg_ok_new : reg_ok slam_protocol_new.
Proof. intros m n H. simpl in H. by rewrite lookup_empty in H. Qed.

Context (Hdead : ∀ s, dead_block s = Ok s).

Lemma reg_ok_step pr msgid typename : short msgid typename → reg_ok pr →
  returns (slam_protocol_reg_message known_type dead_block pr msgid typename) (λ '(_, pr'), reg_ok pr').
Proof.
  intros Hs H. rewrite reg_message_eq, Hdead. destruct (bindable known_type pr msgid typename) eqn:E; [|by eexists].
  apply bindable_spec in E as (Hm & Hn & Hp & Hk). eexists. split; [done|]. intros m n. simpl.
  intros [[<- <-]|[Hne Hm']]%lookup_insert_Some.
  - split; [done|]. exists typename. by rewrite lookup_insert_eq.
  - rewrite lookup_insert_ne by done. by apply H.
Qed.

Lemma reg_ok_all regs : ∀ pr, Forall (λ '(m, t), short m t) regs → reg_ok pr →
  returns (reg_all pr regs) reg_ok.
Proof.
  induction regs as [|[m t] regs IH]; intros pr Hs H; simpl; [by eexists|].
  apply Forall_cons in Hs as [Hs1 Hs]. eapply returns_bind; [by apply reg_ok_step|].
  intros [? pr'] H'. by apply IH.
Qed.
End registration.

(** ** The properties *)

(** Registering a message id either changes nothing and returns null
    (the id is out of range or taken, or no loaded descriptor knows the type),
    or binds the id: it is then found under the name returned, every other id is
    found as before, and decoding uses the type. *)
Lemma slam_protocol_reg_find known_type dead_block pr msgid typename :
  (∀ s, dead_block s = Ok s) →
  ∃ r pr', slam_protocol_reg_message known_type dead_block pr msgid typename = Ok (r, pr') ∧
  match r with
  | Some name =>
      bindable known_type pr msgid typename = true ∧ name = MESSAGE_REF_NAME msgid typename ∧
      slam_protocol_find_name pr msgid = None ∧ slam_protocol_find_name pr' msgid = Some name ∧
      (∀ m, m ≠ msgid → slam_protocol_find_name pr' m = slam_protocol_find_name pr m) ∧
      pr_parser pr' !! msgid = Some typename
  | None => pr' = pr ∧ bindable known_type pr msgid typename = false
  end.
Proof.
  intros Hd. rewrite reg_message_eq, Hd. destruct (bindable known_type pr msgid typename) eqn:E; [|by eexists _, _].
  eexists _, _. split; [done|]. apply bindable_spec in E as (Hm & Hn & Hp & Hk).
  unfold slam_protocol_find_name. rewrite !Z.geb_leb.
  rewrite (proj2 (Z.leb_le 0 msgid)), (proj2 (Z.ltb_lt msgid _)) by lia. simpl.
  rewrite !lookup_insert_eq. split_and!; try done.
  intros m Hne. rewrite Z.geb_leb. by rewrite lookup_insert_ne by done.
Qed.

(** After any sequence of registrations the names handed to Lua tell
    the ids apart: two ids found under the same name are the same id, so that a
    message is dispatched to the function bound to its own id. *)
Lemma registered_names_distinct known_type dead_block regs m1 m2 name :
  (∀ s, dead_block s = Ok s) → Forall (λ '(m, t), short m t) regs →
  ∃ pr, reg_all known_type dead_block slam_protocol_new regs = Ok pr ∧
  (slam_protocol_find_name pr m1 = Some name → slam_protocol_find_name pr m2 = Some name → m1 = m2).
Proof.
  intros Hd Hs. destruct (reg_ok_all known_type dead_block Hd regs slam_protocol_new Hs) as (pr & E & Hok);
    [apply reg_ok_new|]. exists pr. split; [done|].
  unfold slam_protocol_find_name. intros H1 H2.
  repeat (case_match; [done|]).
  apply Hok in H1 as (_ & t1 & _ & _ & Hs1 & ->). apply Hok in H2 as (_ & t2 & _ & _ & Hs2 & E').
  by apply ref_name_inj in E'.
Qed.

(** A package survives the trip.  What the worker encodes from a
    table is a well-formed package (its length in range), and a receiver that
    holds these bytes decodes them to the same message id and to the value
    protobuf parses from the payload, and hands both to the message event. *)
Lemma encoded_package_decodes {P L} (parse : string → list byte → option P)
    (serialize : string → P → list byte) (encodeDescriptor : string → L → outcome (option P * L))
    (decodeDescriptor : string → P → L → outcome (bool * L))
    (event : slam_protocol → L → Z → Z → outcome (bool * L)) pr pr2 l l' h fd msgid name message max :
  pr_parser pr !! msgid = Some name → encodeDescriptor name l = Ok (Some message, l') →
  pr_parser pr2 !! msgid = Some name →
  parse name (serialize name message) = Some message → serialize name message ≠ [] →
  - 2 ^ 31 <= msgid < 2 ^ 31 →
  PACKAGE_MIN_SIZE + len (serialize name message) < max → max <= 2 ^ 32 →
  ∃ x h', slam_protocol_encode serialize encodeDescriptor pr l h fd msgid = Ok (Some x, h', l') ∧
    frame_ok max (package msgid (serialize name message)) ∧
    (∃ msg, mh_msgs h' !! x = Some msg ∧ msg_buf msg = Some <$> package msgid (serialize name message) ∧
       msg_bufsize msg = len (package msgid (serialize name message)) ∧ msg_bytesize msg = 0 ∧
       msg_fd msg = fd) ∧
    ∀ l2 fd2 msg, holds max fd2 msg (package msgid (serialize name message)) →
      msg_bufsize msg = len (package msgid (serialize name message)) →
      slam_protocol_decode parse decodeDescriptor event pr2 l2 msg =
        ('(b, l3) ← decodeDescriptor name message l2;
         if (b : bool) then event pr2 l3 fd2 msgid else Ok (false, l3)).
Proof.
  intros Hn He Hn2 Hp Hne Hm Hmax Hw.
  rewrite (slam_protocol_encode_spec _ _ _ _ l' _ _ _ name message) by done.
  eexists _, _. split; [done|]. split; [apply package_frame; lia|]. split.
  { eexists. simpl. by rewrite lookup_insert_eq. }
  intros l2 fd2 msg Hh Hb.
  destruct (slam_protocol_decode_spec parse decodeDescriptor event pr2 l2 max fd2 msg _ Hh Hb)
    as (rest & _ & ->).
  set (payload := serialize name message) in *.
  assert (take 4 (drop 12 (package msgid payload)) = le_split 4 msgid) as -> by reflexivity.
  assert (drop 18 (package msgid payload) = payload) as -> by reflexivity.
  rewrite i32_le_split by done. cbv zeta. unfold MessageBuilderDecode, luaT_message_parser_decode.
  rewrite Hn2, Hp. assert (0 < len payload) by (destruct payload; [done|len]). rewrite Z.gtb_ltb.
  rewrite (proj2 (Z.ltb_lt _ _)) by done. simpl.
  by destruct (decodeDescriptor name message l2) as [[[] l3]| | |].
Qed.

(** A message all of whose fields have their default values is
    serialized to no bytes: the package sent for it is well-formed, but no
    receiver decodes it, since the builder rejects an empty payload; the message
    event is not called. *)
Lemma empty_message_is_not_delivered {P L} (parse : string → list byte → option P)
    (serialize : string → P → list byte) (encodeDescriptor : string → L → outcome (option P * L))
    (decodeDescriptor : string → P → L → outcome (bool * L))
    (event : slam_protocol → L → Z → Z → outcome (bool * L)) pr l l' h fd msgid name message max :
  pr_parser pr !! msgid = Some name → encodeDescriptor name l = Ok (Some message, l') →
  serialize name message = [] → PACKAGE_MIN_SIZE < max →
  ∃ x h', slam_protocol_encode serialize encodeDescriptor pr l h fd msgid = Ok (Some x, h', l') ∧
    frame_ok max (package msgid []) ∧
    ∀ l2 fd2 msg, holds max fd2 msg (package msgid []) → msg_bufsize msg = len (package msgid []) →
      slam_protocol_decode parse decodeDescriptor event pr l2 msg = Ok (false, l2).
Proof.
  intros Hn He Hs Hmax.
  rewrite (slam_protocol_encode_spec _ _ _ _ l' _ _ _ name message) by done.
  eexists _, _. split; [done|]. split.
  { apply package_frame; rewrite len_nil; unfold PACKAGE_MIN_SIZE in *; lia. }
  intros l2 fd2 msg Hh Hb.
  by destruct (slam_protocol_decode_spec parse decodeDescriptor event pr l2 max fd2 msg _ Hh Hb)
    as (rest & _ & ->).
Qed.

(** ** A concrete protocol *)
Module Demo.
(** One type, whose values are byte strings serialized as they are; the Lua
    state is a stack of values. *)
Definition known (t : string) : bool := String.eqb t "Ping".
Definition parse (t : string) (bs : list byte) : option (list byte) := if known t then Some bs else None.
Definition serialize (t : string) (v : list byte) : list byte := v.
Definition encoder (t : string) (l : list (list byte)) : outcome (option (list byte) * list (list byte)) :=
  Ok (head l, l).
Definition decoder (t : string) (v : list byte) (l : list (list byte))
    : outcome (bool * list (list byte)) := Ok (true, v :: l).
Definition event (pr : slam_protocol) (l : list (list byte)) (fd msgid : Z)
    : outcome (bool * list (list byte)) := Ok (true, []).
Definition registered : slam_protocol :=
  {| pr_regtable := {[7 := "Ping.7"%string]}; pr_parser := {[7 := "Ping"%string]} |}.
Definition ping : list byte := le_split 3 1234567.
Definition empty_heap : msg_heap := {| mh_msgs := ∅; mh_brk := 1%positive |}.

Lemma registration :
  slam_protocol_reg_message known Ok slam_protocol_new 7 "Ping" = Ok (Some "Ping.7"%string, registered).
Proof. vm_compute. reflexivity. Qed.

Example registered_name : slam_protocol_find_name registered 7 = Some "Ping.7"%string.
Proof. vm_compute. reflexivity. Qed.
End Demo.

Lemma slam_protocol_reg_find_witness :
  (∀ s : string, Ok s = Ok s) ∧ slam_protocol_find_name Demo.registered 7 = Some "Ping.7"%string.
Proof.
  split; [done|].
  pose proof (slam_protocol_reg_find Demo.known Ok slam_protocol_new 7 "Ping" (λ s, eq_refl)) as (r & pr & E & H).
  rewrite Demo.registration in E. injection E as <- <-. by destruct H as (_ & _ & _ & H & _).
Defined.

Lemma registered_names_distinct_witness :
  let regs := [(7, "Ping"%string); (8, "Ping"%string); (7, "Pong"%string)] in
  Forall (λ '(m, t), short m t) regs ∧
  ∀ pr m, reg_all Demo.known Ok slam_protocol_new regs = Ok pr →
    slam_protocol_find_name pr m = Some "Ping.8"%string → m = 8.
Proof.
  assert (Forall (λ '(m, t), short m t) [(7, "Ping"%string); (8, "Ping"%string); (7, "Pong"%string)])
    as Hs by (repeat constructor; vm_compute; reflexivity).
  split; [done|]. intros pr m E Hm.
  destruct (registered_names_distinct Demo.known Ok _ m 8 "Ping.8" (λ s, eq_refl) Hs) as (pr' & E' & H).
  rewrite E in E'. injection E' as <-. apply H; [done|]. apply (f_equal (λ o, match o with
    Ok pr => slam_protocol_find_name pr 8 | _ => None end)) in E. simpl in E. rewrite <-E. vm_compute. reflexivity.
Defined.

Lemma encoded_package_decodes_witness :
  ∃ x h', slam_protocol_encode Demo.serialize Demo.encoder Demo.registered [Demo.ping]
            Demo.empty_heap 5 7 = Ok (Some x, h', [Demo.ping]) ∧ frame_ok 100 (package 7 Demo.ping).
Proof.
  destruct (encoded_package_decodes Demo.parse Demo.serialize Demo.encoder Demo.decoder Demo.event
    Demo.registered Demo.registered [Demo.ping] [Demo.ping] Demo.empty_heap 5 7 "Ping" Demo.ping 100)
    as (x & h' & H1 & H2 & _); try done.
  exists x, h'. by split.
Defined.

Lemma empty_message_is_not_delivered_witness :
  ∃ x h', slam_protocol_encode Demo.serialize Demo.encoder Demo.registered [[]]
            Demo.empty_heap 5 7 = Ok (Some x, h', [[]]) ∧ frame_ok 100 (package 7 []).
Proof.
  destruct (empty_message_is_not_delivered Demo.parse Demo.serialize Demo.encoder Demo.decoder
    Demo.event Demo.registered [[]] [[]] Demo.empty_heap 5 7 "Ping" [] 100)
    as (x & h' & H1 & H2 & _); try done.
  exists x, h'. by split.
Defined.
