(* ===== verification/LuaApi.v ===== *)
(** * The Lua C API the program uses

    Lua is not part of the repository: its state is a parameter [L] with the
    operations and laws of two classes.  [LuaState] is the data side (the stack,
    tables, the registry, number conversions); [LuaCall] is the call of a Lua
    function, which may call back into the program and so acts on the program's
    state [W] as well.  A small interpreter-free instance of [LuaState] at the
    end of the file shows that its laws can hold. *)

From S2P Require Import Prelude LuaValue.

(** ** Values *)
Inductive lua_value :=
  | LNil
  | LBoolean (b : bool)
  | LNumber (n : lua_Number)
  | LString (s : string)
  | LTable (t : loc)
  | LFunction (f : loc)                (* a closure of the script *)
  | LCFunction (routine : string)      (* a function of the program, by name *)
  | LUserdata (u : loc)
  | LLightUserdata (u : loc)
  | LThread (t : loc).

#[export] Instance lua_Number_eq_dec : EqDecision lua_Number.
Proof. solve_decision. Defined.

#[export] Instance lua_value_eq_dec : EqDecision lua_value.
Proof. solve_decision. Defined.

(** ** The state *)
Class LuaState (L : Type) := {
  lua_stack : L → list lua_value;                   (* of the running function, top first *)
  lua_set_stack : list lua_value → L → L;
  lua_rawget : loc → lua_value → L → lua_value;
  lua_rawset : loc → lua_value → lua_value → L → L;
  lua_createtable : L → loc * L;
  lua_globals : loc;
  lua_registry : loc;
  luaL_newref : lua_value → L → Z * L;              (* [luaL_ref] on a popped value *)
  luaL_unref : Z → L → L;
  lua_of_integer : Z → lua_Number;                  (* conversions *)
  lua_to_integer : lua_Number → Z;
  lua_str2number : string → option lua_Number;
  lua_number2str : lua_Number → string;
}.

Class LuaStateLaws (L : Type) `{!LuaState L} : Prop := {
  lua_stack_set vs (l : L) : lua_stack (lua_set_stack vs l) = vs;
  lua_set_stack_set vs ws (l : L) : lua_set_stack vs (lua_set_stack ws l) = lua_set_stack vs l;
  lua_set_stack_id (l : L) : lua_set_stack (lua_stack l) l = l;
  lua_rawget_set_stack t k vs (l : L) : lua_rawget t k (lua_set_stack vs l) = lua_rawget t k l;
  lua_stack_rawset t k v (l : L) : lua_stack (lua_rawset t k v l) = lua_stack l;
  lua_rawget_rawset t k v t' k' (l : L) :
    lua_rawget t' k' (lua_rawset t k v l) = if decide ((t', k') = (t, k)) then v else lua_rawget t' k' l;
  lua_stack_createtable (l : L) : lua_stack (lua_createtable l).2 = lua_stack l;
  lua_createtable_new (l : L) : (lua_createtable l).1 ≠ lua_globals;
  lua_rawget_createtable t k (l : L) : t ≠ (lua_createtable l).1 →
    lua_rawget t k (lua_createtable l).2 = lua_rawget t k l;
  lua_stack_newref v (l : L) : lua_stack (luaL_newref v l).2 = lua_stack l;
  lua_rawget_newref v (l : L) : v ≠ LNil →
    lua_rawget lua_registry (LNumber (lua_of_integer (luaL_newref v l).1)) (luaL_newref v l).2 = v;
  lua_stack_unref r (l : L) : lua_stack (luaL_unref r l) = lua_stack l;
}.

(** A protected call of a function value with its arguments and message handler
    ([LNil] when there is none): the error code, and the one result asked for or
    the error object.  The callee has a stack of its own. *)
Class LuaCall (L W : Type) `{!LuaState L} :=
  lua_call : lua_value → list lua_value → lua_value → L * W → outcome (Z * lua_value * (L * W)).

Class LuaCallLaws (L W : Type) `{!LuaState L, !LuaCall L W} : Prop :=
  lua_call_stack f args h (l l' : L) (w w' : W) rc r :
    lua_call f args h (l, w) = Ok (rc, r, (l', w')) → lua_stack l' = lua_stack l.

(** ** The stack operations, in terms of the stack *)
Section stack.
Context {L : Type} `{!LuaState L}.
Implicit Types (l : L).

Definition lua_gettop l : Z := len (lua_stack l).

Definition lua_push (v : lua_value) l : L := lua_set_stack (v :: lua_stack l) l.

Definition lua_pop (n : nat) l : L := lua_set_stack (drop n (lua_stack l)) l.

Definition lua_settop (n : nat) l : L :=
  let stk := lua_stack l in
  lua_set_stack (replicate (n - length stk) LNil ++ drop (length stk - n) stk) l.

(** The value at an index; [None] when it is not valid ([LUA_TNONE]). *)
Definition lua_at l (idx : Z) : option lua_value :=
  if idx <? 0 then lua_stack l !! Z.to_nat (- idx - 1)
  else if idx =? 0 then None
  else reverse (lua_stack l) !! Z.to_nat (idx - 1).

(** [lua_insert] moves the top into the position of a negative index. *)
Definition lua_insert (idx : Z) l : L :=
  match lua_stack l with
  | [] => l
  | v :: stk =>
      let n := Z.to_nat (- idx - 1) in
      lua_set_stack (take n stk ++ v :: drop n stk) l
  end.

Definition lua_pushvalue (idx : Z) l : L := lua_push (default LNil (lua_at l idx)) l.

Definition lua_getglobal (name : string) l : L :=
  lua_push (lua_rawget lua_globals (LString name) l) l.

(** [lua_rawget] with the key on the top, and [lua_gettable] on the registry, which
    has no metatable. *)
Definition lua_rawget_top (t : loc) l : L :=
  match lua_stack l with
  | k :: stk => lua_set_stack (lua_rawget t k l :: stk) l
  | [] => l
  end.

(** [lua_rawset] of the value on the top at the key below, and [lua_settable] on a
    table without a metatable: the registry, the table of globals of a new state,
    and the tables the program has just made. *)
Definition lua_settable (t : loc) l : L :=
  match lua_stack l with
  | v :: k :: stk => lua_set_stack stk (lua_rawset t k v l)
  | _ => l
  end.

(** The same on the table at the index [-3]; anything else is a Lua error. *)
Definition lua_settable_3 l : outcome L :=
  match lua_at l (-3) with
  | Some (LTable t) => Ok (lua_settable t l)
  | _ => Undef
  end.

Definition lua_newtable l : L :=
  let '(t, l) := lua_createtable l in lua_push (LTable t) l.

Definition lua_rawgeti (t : loc) (n : Z) l : L :=
  lua_push (lua_rawget t (LNumber (lua_of_integer n)) l) l.

Definition luaL_ref l : Z * L :=
  match lua_stack l with
  | v :: stk => luaL_newref v (lua_set_stack stk l)
  | [] => (0, l)
  end.

(** Type tests.  A string that reads as a number counts as a number, and a
    number as a string. *)
Definition number_of (v : lua_value) : option lua_Number :=
  match v with
  | LNumber n => Some n
  | LString s => lua_str2number s
  | _ => None
  end.

Definition test (p : lua_value → bool) l (idx : Z) : bool :=
  match lua_at l idx with Some v => p v | None => false end.

Definition lua_isfunction := test (λ v, match v with LFunction _ | LCFunction _ => true | _ => false end).
Definition lua_istable := test (λ v, match v with LTable _ => true | _ => false end).
Definition lua_isboolean := test (λ v, match v with LBoolean _ => true | _ => false end).
Definition lua_isnumber := test (λ v, match number_of v with Some _ => true | None => false end).
Definition lua_isstring := test (λ v, match v with LString _ | LNumber _ => true | _ => false end).
Definition lua_isnil := test (λ v, match v with LNil => true | _ => false end).
Definition lua_isnone l (idx : Z) : bool := match lua_at l idx with None => true | Some _ => false end.
Definition lua_isuserdata :=
  test (λ v, match v with LUserdata _ | LLightUserdata _ => true | _ => false end).
Definition lua_islightuserdata := test (λ v, match v with LLightUserdata _ => true | _ => false end).
Definition lua_isthread := test (λ v, match v with LThread _ => true | _ => false end).

(** Conversions. *)
Definition lua_tonumber l (idx : Z) : lua_Number :=
  match lua_at l idx ≫= number_of with Some n => n | None => lua_of_integer 0 end.

Definition lua_tointeger l (idx : Z) : Z := lua_to_integer (lua_tonumber l idx).

Definition lua_toboolean l (idx : Z) : bool :=
  match lua_at l idx with
  | None | Some LNil | Some (LBoolean false) => false
  | _ => true
  end.

Definition string_of (v : lua_value) : option string :=
  match v with
  | LString s => Some s
  | LNumber n => Some (lua_number2str n)
  | _ => None
  end.

Definition lua_tostring l (idx : Z) : option string := lua_at l idx ≫= string_of.

Definition lua_pushinteger (n : Z) l : L := lua_push (LNumber (lua_of_integer n)) l.
End stack.

Section call.
Context {L W : Type} `{!LuaState L, !LuaCall L W}.

(** [lua_pcall] with one result: the function and its arguments are replaced by
    the result or the error object; [msgh] is 0 or the handler's index. *)
Definition lua_pcall (args : nat) (msgh : Z) (σ : L * W) : outcome (Z * (L * W)) :=
  let '(l, w) := σ in
  let stk := lua_stack l in
  DEREF f := stk !! args ;;
  let h := if msgh =? 0 then LNil else default LNil (lua_at l msgh) in
  '(rc, r, (l, w)) ←
    lua_call f (reverse (take args stk)) h (lua_set_stack (drop (S args) stk) l, w);
  Ok (rc, (lua_push r l, w)).
End call.
#[global] Arguments lua_pcall : simpl never.

(** ** Lemmas *)
Section lemmas.
Context {L : Type} `{!LuaState L, !LuaStateLaws L}.
Implicit Types (l : L).

Lemma stack_push v l : lua_stack (lua_push v l) = v :: lua_stack l.
Proof. apply lua_stack_set. Qed.

Lemma stack_pop n l : lua_stack (lua_pop n l) = drop n (lua_stack l).
Proof. apply lua_stack_set. Qed.

Lemma stack_getglobal s l :
  lua_stack (lua_getglobal s l) = lua_rawget lua_globals (LString s) l :: lua_stack l.
Proof. apply stack_push. Qed.

Lemma rawget_push t k v l : lua_rawget t k (lua_push v l) = lua_rawget t k l.
Proof. apply lua_rawget_set_stack. Qed.

Lemma rawget_pop t k n l : lua_rawget t k (lua_pop n l) = lua_rawget t k l.
Proof. apply lua_rawget_set_stack. Qed.

Lemma pop_push v l : lua_pop 1 (lua_push v l) = l.
Proof. unfold lua_pop. rewrite stack_push. simpl. unfold lua_push. by rewrite lua_set_stack_set, drop_0, lua_set_stack_id. Qed.

Lemma lua_at_neg l n : (0 < n)%nat → lua_at l (- Z.of_nat n) = lua_stack l !! (n - 1)%nat.
Proof.
  intros H. unfold lua_at. rewrite (proj2 (Z.ltb_lt _ _)) by lia. f_equal. lia.
Qed.

Lemma lua_at_top v l : lua_at (lua_push v l) (-1) = Some v.
Proof. unfold lua_at. simpl. by rewrite stack_push. Qed.
End lemmas.

#[export] Hint Rewrite @stack_push @stack_pop @stack_getglobal @rawget_push @rawget_pop
  @lua_stack_set @lua_rawget_set_stack @lua_stack_rawset @lua_stack_newref @lua_stack_unref
  @pop_push @lua_at_top using typeclasses eauto : lua.

(** ** A concrete state

    Tables are association lists, a reference is the number of references made
    so far; numbers convert exactly where they are small integers. *)
Module Concrete.
Record state := {
  cs_stack : list lua_value;
  cs_tables : loc → list (lua_value * lua_value);
  cs_next : loc;
  cs_refs : Z;
}.

Fixpoint assoc (k : lua_value) (kvs : list (lua_value * lua_value)) : lua_value :=
  match kvs with
  | [] => LNil
  | (k', v) :: kvs => if decide (k = k') then v else assoc k kvs
  end.

Definition set_stack (vs : list lua_value) (l : state) : state :=
  {| cs_stack := vs; cs_tables := cs_tables l; cs_next := cs_next l; cs_refs := cs_refs l |}.

Definition rawset (t : loc) (k v : lua_value) (l : state) : state :=
  {| cs_stack := cs_stack l;
     cs_tables := λ t', if decide (t' = t) then (k, v) :: cs_tables l t' else cs_tables l t';
     cs_next := cs_next l; cs_refs := cs_refs l |}.

Definition of_integer (z : Z) : lua_Number :=
  match z with
  | Z0 => S754_zero false
  | Zpos m => S754_finite false m 0
  | Zneg m => S754_finite true m 0
  end.

Definition to_integer (n : lua_Number) : Z :=
  match n with
  | S754_finite s m e => if s then - truncate m e else truncate m e
  | _ => 0
  end.

Definition newref (v : lua_value) (l : state) : Z * state :=
  let r := cs_refs l + 1 in
  (r, {| cs_stack := cs_stack l;
         cs_tables := cs_tables (rawset 2 (LNumber (of_integer r)) v l);
         cs_next := cs_next l; cs_refs := r |}).

#[global] Instance concrete_state : LuaState state := {
  lua_stack := cs_stack;
  lua_set_stack := set_stack;
  lua_rawget t k l := assoc k (cs_tables l t);
  lua_rawset := rawset;
  lua_createtable l :=
    let t := Pos.succ (cs_next l) in
    (t, {| cs_stack := cs_stack l; cs_tables := λ t', if decide (t' = t) then [] else cs_tables l t';
           cs_next := t; cs_refs := cs_refs l |});
  lua_globals := 1%positive;
  lua_registry := 2%positive;
  luaL_newref := newref;
  luaL_unref r l := rawset 2 (LNumber (of_integer r)) LNil l;
  lua_of_integer := of_integer;
  lua_to_integer := to_integer;
  lua_str2number _ := None;
  lua_number2str _ := EmptyString;
}.

#[global] Instance concrete_laws : LuaStateLaws state.
Proof.
  split; simpl; try done.
  - by intros [].
  - intros t k v t' k' l. destruct (decide (t' = t)) as [->|Ht]; simpl.
    + destruct (decide (k' = k)) as [->|Hk]; [by rewrite decide_True|].
      rewrite decide_False; [done|congruence].
    + rewrite decide_False; [done|congruence].
  - intros l. lia.
  - intros t k l Ht. by rewrite decide_False.
  - intros v l _. by rewrite !decide_True by done.
Qed.

(** Calls that succeed for closures and are counted. *)
#[global] Instance counting_call : LuaCall state nat := λ f args h σ,
  let '(l, n) := σ in
  match f with
  | LFunction _ => Ok (0, LBoolean true, (l, S n))
  | _ => Ok (2, LNil, (l, n))
  end.

#[global] Instance counting_laws : LuaCallLaws state nat.
Proof. intros f args h l l' n n' rc r. unfold lua_call, counting_call. by destruct f; intros [= _ _ -> _]. Qed.

Definition init : state := {| cs_stack := []; cs_tables := λ _, []; cs_next := 2%positive; cs_refs := 0 |}.
End Concrete.
