(* ===== verification/LuaTable.v ===== *)
(** * Tables of the Lua C API: traversal, creation, conversion in place

    [lua_next] walks the entries of a table in an order Lua leaves open: the
    class [LuaTables] gives the entries in the order of the walk, and the tables
    that exist.  [lua_tolstring] turns a number on the stack into a string.
    [lua_gettable] on a table with a metatable may run the script's [__index]
    handler: what it gives, and the state it leaves, are a parameter. *)

From S2P Require Import Prelude LuaValue LuaApi.

Class LuaTables (L : Type) `{!LuaState L} := {
  lua_entries : loc → L → list (lua_value * lua_value);
  lua_live : loc → L → Prop;                        (* the table exists *)
  lua_metatable : loc → L → bool;                   (* it has a metatable *)
  lua_index : loc → lua_value → L → outcome (lua_value * L);   (* [lua_gettable] when it has *)
}.

Class LuaTablesLaws (L : Type) `{!LuaState L, !LuaTables L} : Prop := {
  lua_entries_nodup t (l : L) : NoDup (lua_entries t l).*1;
  lua_entries_spec t k v (l : L) :
    (k, v) ∈ lua_entries t l ↔ k ≠ LNil ∧ v ≠ LNil ∧ lua_rawget t k l = v;
  lua_entries_set_stack t vs (l : L) : lua_entries t (lua_set_stack vs l) = lua_entries t l;
  lua_live_set_stack t vs (l : L) : lua_live t (lua_set_stack vs l) ↔ lua_live t l;
  lua_live_rawset t u k v (l : L) : lua_live t (lua_rawset u k v l) ↔ lua_live t l;
  lua_createtable_fresh (l : L) : ¬ lua_live (lua_createtable l).1 l;
  lua_createtable_live t (l : L) :
    lua_live t (lua_createtable l).2 ↔ t = (lua_createtable l).1 ∨ lua_live t l;
  lua_createtable_empty k (l : L) : lua_rawget (lua_createtable l).1 k (lua_createtable l).2 = LNil;
  lua_metatable_set_stack t vs (l : L) : lua_metatable t (lua_set_stack vs l) = lua_metatable t l;
  lua_metatable_rawset t u k v (l : L) : lua_metatable t (lua_rawset u k v l) = lua_metatable t l;
  lua_metatable_new (l : L) : lua_metatable (lua_createtable l).1 (lua_createtable l).2 = false;
  lua_metatable_createtable t (l : L) : t ≠ (lua_createtable l).1 →
    lua_metatable t (lua_createtable l).2 = lua_metatable t l;
  lua_to_of_integer z : Z.abs z <= 2 ^ 53 → lua_to_integer (L:=L) (lua_of_integer z) = z;
}.

Section operations.
Context {L : Type} `{!LuaState L, !LuaTables L}.
Implicit Types (l : L).

(** The entries after the key [k]; [None] when [k] is not a key of the table. *)
Fixpoint entries_after (k : lua_value) (es : list (lua_value * lua_value))
    : option (list (lua_value * lua_value)) :=
  match es with
  | [] => None
  | (k', _) :: es => if decide (k = k') then Some es else entries_after k es
  end.

Definition entries_from (k : lua_value) (es : list (lua_value * lua_value)) :=
  match k with LNil => Some es | _ => entries_after k es end.

(** [lua_next] pops a key and pushes the next entry, if there is one; a key that
    is not in the table raises a Lua error ([None]). *)
Definition lua_next_raises (t : loc) l : outcome (option (bool * L)) :=
  match lua_stack l with
  | k :: stk =>
      match entries_from k (lua_entries t l) with
      | Some ((k', v) :: _) => Ok (Some (true, lua_set_stack (v :: k' :: stk) l))
      | Some [] => Ok (Some (false, lua_set_stack stk l))
      | None => Ok None
      end
  | [] => Undef
  end.

(** Where no error is expected, one is treated as undefined. *)
Definition lua_next (t : loc) l : outcome (bool * L) :=
  r ← lua_next_raises t l; DEREF x := r ;; Ok x.

(** [lua_tolstring] of the top. *)
Definition lua_tolstring l : option string * L :=
  match lua_stack l with
  | LNumber n :: stk =>
      let s := lua_number2str (L:=L) n in (Some s, lua_set_stack (LString s :: stk) l)
  | _ => (lua_tostring l (-1), l)
  end.

(** [lua_tolstring] at any index. *)
Definition lua_tolstring_at l (idx : Z) : option string * L :=
  match lua_at l idx with
  | Some (LNumber n) =>
      let s := lua_number2str (L:=L) n in
      let pos := Z.to_nat (if idx <? 0 then - idx - 1 else lua_gettop l - idx) in
      (Some s, lua_set_stack (<[pos := LString s]> (lua_stack l)) l)
  | _ => (lua_tostring l idx, l)
  end.

(** [lua_isnoneornil] of the top. *)
Definition lua_isnoneornil l (idx : Z) : bool := lua_isnone l idx || lua_isnil l idx.

(** [lua_gettable] on the table below the key. *)
Definition lua_gettable l : outcome L :=
  match lua_stack l with
  | k :: LTable t :: stk =>
      if lua_metatable t l then
        '(v, l) ← lua_index t k (lua_pop 1 l); Ok (lua_push v l)
      else Ok (lua_rawget_top t l)
  | _ => Undef
  end.

(** No table has a metatable, and so no [__index] handler. *)
Definition plain_tables l : Prop := ∀ t, lua_metatable t l = false.
End operations.

(** ** Lemmas *)
Section lemmas.
Context {L : Type} `{!LuaState L, !LuaStateLaws L, !LuaTables L, !LuaTablesLaws L}.
Implicit Types (l : L).

Lemma entries_after_app k es1 v es2 :
  k ∉ es1.*1 → entries_after k (es1 ++ (k, v) :: es2) = Some es2.
Proof.
  induction es1 as [|[k' v'] es1 IH]; simpl; [by rewrite decide_True|].
  rewrite not_elem_of_cons. intros [Hk Hes]. rewrite decide_False by done. by apply IH.
Qed.

(** Where the walk stands: the entries before the key are [es1]. *)
Definition walked (t : loc) l (k : lua_value) es2 : Prop :=
  match k with
  | LNil => lua_entries t l = es2
  | _ => ∃ es1 v, lua_entries t l = es1 ++ (k, v) :: es2
  end.

Lemma entries_from_walked t l k es2 : walked t l k es2 → entries_from k (lua_entries t l) = Some es2.
Proof.
  intros H. destruct (decide (k = LNil)) as [->|Hk]; [by rewrite <-H|].
  assert (entries_from k (lua_entries t l) = entries_after k (lua_entries t l)) as -> by by destruct k.
  assert (∃ es1 v, lua_entries t l = es1 ++ (k, v) :: es2) as (es1 & v & E) by by destruct k.
  pose proof (lua_entries_nodup t l) as Hn. rewrite E in Hn |- *. apply entries_after_app.
  rewrite fmap_app, NoDup_app in Hn. destruct Hn as (_ & Hn & _). intros Hin.
  apply (Hn _ Hin). by left.
Qed.

Lemma lua_next_walked t l k es2 stk :
  lua_stack l = k :: stk → walked t l k es2 →
  lua_next t l =
    match es2 with
    | (k', v) :: _ => Ok (true, lua_set_stack (v :: k' :: stk) l)
    | [] => Ok (false, lua_set_stack stk l)
    end.
Proof.
  intros Hs H. unfold lua_next, lua_next_raises. rewrite Hs, (entries_from_walked _ _ _ _ H).
  by destruct es2 as [|[]].
Qed.

Lemma walked_step t l k k' v es2 : walked t l k ((k', v) :: es2) → walked t l k' es2.
Proof.
  intros H. assert ((k', v) ∈ lua_entries t l) as Hin.
  { destruct k; try (destruct H as (es1 & w & ->)); try rewrite H; set_solver. }
  apply lua_entries_spec in Hin as [Hk _].
  assert (∃ es1 v, lua_entries t l = es1 ++ (k', v) :: es2) as Hw; [|by destruct k'].
  destruct (decide (k = LNil)) as [->|Hn]; [by exists [], v|].
  assert (∃ es1 w, lua_entries t l = es1 ++ (k, w) :: (k', v) :: es2) as (es1 & w & ->) by by destruct k.
  exists (es1 ++ [(k, w)]), v. by rewrite <-app_assoc.
Qed.

Lemma walked_set_stack t l k es vs : walked t l k es → walked t (lua_set_stack vs l) k es.
Proof. unfold walked. by rewrite lua_entries_set_stack. Qed.

(** The key a walk stands on has a value in the table, so is not [nil]. *)
Lemma entries_keys t l : Forall (λ '(k, v), k ≠ LNil ∧ v ≠ LNil ∧ lua_rawget t k l = v) (lua_entries t l).
Proof. apply Forall_forall. intros [k v] H. by apply lua_entries_spec. Qed.

(** What pushing, and setting a table, do to the stack and the tables. *)
Lemma set_stack_push vs v l : lua_set_stack vs (lua_push v l) = lua_set_stack vs l.
Proof. apply lua_set_stack_set. Qed.

Lemma push_set_stack v vs l : lua_push v (lua_set_stack vs l) = lua_set_stack (v :: vs) l.
Proof. unfold lua_push. by rewrite lua_stack_set, lua_set_stack_set. Qed.

Lemma gettable_push t k l :
  lua_rawget_top t (lua_push k l) = lua_push (lua_rawget t k l) l.
Proof.
  unfold lua_rawget_top. rewrite stack_push, rawget_push, set_stack_push. done.
Qed.

Lemma plain_set_stack vs l : plain_tables l → plain_tables (lua_set_stack vs l).
Proof. intros H t. by rewrite lua_metatable_set_stack. Qed.

Lemma metatable_push t v l : lua_metatable t (lua_push v l) = lua_metatable t l.
Proof. apply lua_metatable_set_stack. Qed.

(** On a table without a metatable [lua_gettable] is a raw read. *)
Lemma lua_gettable_plain k t stk l :
  lua_stack l = LTable t :: stk → lua_metatable t l = false →
  lua_gettable (lua_push k l) = Ok (lua_push (lua_rawget t k l) l).
Proof.
  intros Hs Hm. unfold lua_gettable. rewrite stack_push, Hs. by rewrite metatable_push, Hm, gettable_push.
Qed.

Lemma settable_3_push t k v l stk :
  lua_stack l = LTable t :: stk →
  lua_settable_3 (lua_push v (lua_push k l)) = Ok (lua_set_stack (LTable t :: stk) (lua_rawset t k v (lua_push v (lua_push k l)))).
Proof.
  intros Hs. unfold lua_settable_3, lua_at. simpl. rewrite !stack_push, Hs. simpl.
  unfold lua_settable. by rewrite !stack_push, Hs.
Qed.
End lemmas.

(** ** The concrete state has tables *)
Module ConcreteTables.
Import Concrete.

(** The live entries of an association list: the first of each key. *)
Fixpoint live_entries (kvs : list (lua_value * lua_value)) : list (lua_value * lua_value) :=
  match kvs with
  | [] => []
  | (k, v) :: kvs =>
      let es := filter (λ e, e.1 ≠ k) (live_entries kvs) in
      if decide (k = LNil ∨ v = LNil) then es else (k, v) :: es
  end.

#[global] Instance concrete_tables : LuaTables state := {
  lua_entries t l := live_entries (cs_tables l t);
  lua_live t l := (t <= cs_next l)%positive;
  lua_metatable _ _ := false;
  lua_index _ _ _ := Undef;
}.

Lemma live_entries_spec kvs k v :
  (k, v) ∈ live_entries kvs ↔ k ≠ LNil ∧ v ≠ LNil ∧ assoc k kvs = v.
Proof.
  induction kvs as [|[k' v'] kvs IH]; simpl.
  { split; [by intros ?%elem_of_nil|by intros (_ & ? & <-)]. }
  assert ((k, v) ∈ filter (λ e, e.1 ≠ k') (live_entries kvs) ↔
      k ≠ k' ∧ k ≠ LNil ∧ v ≠ LNil ∧ assoc k kvs = v) as Hf by (by rewrite list_elem_of_filter, IH).
  destruct (decide (k = k')) as [<-|Hk]; case_decide as Hd;
    rewrite ?elem_of_cons, Hf, ?pair_equal_spec; naive_solver.
Qed.

Lemma live_entries_nodup kvs : NoDup (live_entries kvs).*1.
Proof.
  induction kvs as [|[k v] kvs IH]; [constructor|]. simpl.
  assert (NoDup (filter (λ e, e.1 ≠ k) (live_entries kvs)).*1) as Hf.
  { clear -IH. induction (live_entries kvs) as [|[k' v'] es IHes]; [done|].
    rewrite filter_cons. apply NoDup_cons in IH as [Hk' Hn]. simpl.
    destruct (decide (k' ≠ k)); [|by apply IHes]. simpl. apply NoDup_cons. split; [|by apply IHes].
    intros ([? ?] & -> & Hin)%list_elem_of_fmap. apply list_elem_of_filter in Hin as [_ Hin].
    apply Hk', list_elem_of_fmap. by exists (l, l0). }
  case_decide; [done|]. apply NoDup_cons. split; [|done].
  intros ([k' v'] & Hk & Hin)%list_elem_of_fmap. simpl in Hk. subst k'.
  by apply list_elem_of_filter in Hin as [? _].
Qed.

Lemma to_of_integer z : to_integer (of_integer z) = z.
Proof. destruct z as [|m|m]; simpl; [done|..]; unfold truncate; simpl; lia. Qed.

#[global] Instance concrete_tables_laws : LuaTablesLaws state.
Proof.
  split; simpl.
  - intros t l. apply live_entries_nodup.
  - intros t k v l. apply live_entries_spec.
  - done.
  - done.
  - done.
  - intros l. lia.
  - intros t l. lia.
  - intros k l. by rewrite decide_True.
  - done.
  - done.
  - done.
  - done.
  - intros z _. apply to_of_integer.
Qed.
End ConcreteTables.
