(* ===== verification/Protobuf.v ===== *)
(** * Protobuf, as the message parser uses it

    The protobuf library is not part of the repository.  A message type is known
    by its name; its descriptor is the list of its fields, and a message is a
    value of a type [P] with the reflection operations the program calls.  The
    laws are those the library documents, for fields of the message's own type and
    values of the field's own type: setting a member of a oneof clears the other
    members, and nothing is said of fields or values of other types.  Enums are
    open, as in proto3, which the repository's definitions use. *)

From S2P Require Import Prelude LuaValue.

(** ** Descriptors *)
Inductive cpp_type :=
  | CPPTYPE_INT32 | CPPTYPE_INT64 | CPPTYPE_UINT32 | CPPTYPE_UINT64
  | CPPTYPE_DOUBLE | CPPTYPE_FLOAT | CPPTYPE_BOOL | CPPTYPE_ENUM
  | CPPTYPE_STRING | CPPTYPE_MESSAGE.

#[export] Instance cpp_type_eq_dec : EqDecision cpp_type.
Proof. solve_decision. Defined.

Record field_descriptor := {
  field_name : string;
  is_repeated : bool;
  field_cpp_type : cpp_type;
  message_type : string;                            (* of a message field *)
  containing_oneof : option string;
}.

#[export] Instance field_descriptor_eq_dec : EqDecision field_descriptor.
Proof. solve_decision. Defined.

(** ** Values: integers and enums, doubles, floats (as the double of the same
    value), booleans, strings and bytes, messages. *)
Inductive pb_value (P : Type) :=
  | PInt (z : Z)
  | PDouble (n : lua_Number)
  | PFloat (n : lua_Number)
  | PBool (b : bool)
  | PString (s : string)
  | PMessage (m : P).
Arguments PInt {P} z.
Arguments PDouble {P} n.
Arguments PFloat {P} n.
Arguments PBool {P} b.
Arguments PString {P} s.
Arguments PMessage {P} m.

(** [(float) n]: rounded to 24 bits, and the same as a double. *)
Definition to_double (n : spec_float) : lua_Number :=
  match n with
  | S754_finite s m e => binary_normalize 53 1024 (cond_Zopp s (Zpos m)) e s
  | _ => n
  end.

Definition to_float (n : lua_Number) : lua_Number :=
  match n with
  | S754_finite s m e => to_double (binary_normalize 24 128 (cond_Zopp s (Zpos m)) e s)
  | _ => n
  end.

(** ** Messages *)
Class Protobuf (P : Type) := {
  pb_descriptor : string → list field_descriptor;
  pb_type : P → string;                             (* [GetTypeName] *)
  pb_new : string → P;                              (* cleared *)
  pb_add : field_descriptor → pb_value P → P → P;
  pb_set : field_descriptor → pb_value P → P → P;
  pb_mutable : field_descriptor → P → P;            (* the submessage, made when it is not there *)
  pb_has : field_descriptor → P → bool;
  pb_get : field_descriptor → P → pb_value P;
  pb_repeated : field_descriptor → P → list (pb_value P);
  pb_default : field_descriptor → pb_value P;       (* [default_value_*] *)
  pb_parse : string → list byte → bool * P;         (* [ParseFromArray] into a cleared message *)
  pb_serialize : P → option (list byte);            (* [SerializeToArray] *)
  pb_byte_size : P → Z;
  pb_merge : P → P → P;
}.

Section kinds.
Context {P : Type} `{!Protobuf P}.
Implicit Types (m : P) (f g : field_descriptor).

Definition has_single f m : Prop := f ∈ pb_descriptor (pb_type m) ∧ is_repeated f = false.
Definition has_list f m : Prop := f ∈ pb_descriptor (pb_type m) ∧ is_repeated f = true.

(** The value is one of the field's type. *)
Definition fits f (v : pb_value P) : Prop :=
  match field_cpp_type f, v with
  | (CPPTYPE_INT32 | CPPTYPE_ENUM), PInt z => - 2 ^ 31 <= z < 2 ^ 31
  | CPPTYPE_INT64, PInt z => - 2 ^ 63 <= z < 2 ^ 63
  | CPPTYPE_UINT32, PInt z => 0 <= z < 2 ^ 32
  | CPPTYPE_UINT64, PInt z => 0 <= z < 2 ^ 64
  | CPPTYPE_DOUBLE, PDouble _ => True
  | CPPTYPE_FLOAT, PFloat _ => True
  | CPPTYPE_BOOL, PBool _ => True
  | CPPTYPE_STRING, PString _ => True
  | CPPTYPE_MESSAGE, PMessage m => pb_type m = message_type f
  | _, _ => False
  end.

(** Setting [g] leaves [f] alone: another field, and not a member of the same oneof. *)
Definition apart f g : Prop :=
  field_name f ≠ field_name g ∧ (containing_oneof f = None ∨ containing_oneof f ≠ containing_oneof g).
End kinds.

Class ProtobufLaws (P : Type) `{!Protobuf P} : Prop := {
  pb_names_nodup ty : NoDup (field_name <$> pb_descriptor ty);
  pb_type_new ty : pb_type (pb_new ty) = ty;
  pb_type_set f v m : pb_type (pb_set f v m) = pb_type m;
  pb_type_add f v m : pb_type (pb_add f v m) = pb_type m;
  pb_type_parse ty bs : pb_type (pb_parse ty bs).2 = ty;
  pb_type_mutable f m : has_single f m → field_cpp_type f = CPPTYPE_MESSAGE →
    pb_type (pb_mutable f m) = message_type f;
  pb_get_fits f m : has_single f m → fits f (pb_get f m);
  pb_repeated_fits f m : has_list f m → Forall (fits f) (pb_repeated f m);
  pb_get_set f v m : has_single f m → fits f v → pb_get f (pb_set f v m) = v;
  pb_get_set_ne f g v m : has_single f m → has_single g m → fits g v → apart f g →
    pb_get f (pb_set g v m) = pb_get f m;
  pb_get_add f g v m : has_single f m → has_list g m → fits g v → pb_get f (pb_add g v m) = pb_get f m;
  pb_repeated_add f v m : has_list f m → fits f v → pb_repeated f (pb_add f v m) = pb_repeated f m ++ [v];
  pb_repeated_add_ne f g v m : has_list f m → has_list g m → fits g v → field_name f ≠ field_name g →
    pb_repeated f (pb_add g v m) = pb_repeated f m;
  pb_repeated_set f g v m : has_list f m → has_single g m → fits g v →
    pb_repeated f (pb_set g v m) = pb_repeated f m;
  pb_mutable_set f g v m : has_single f m → field_cpp_type f = CPPTYPE_MESSAGE → has_single g m → fits g v →
    apart f g → pb_mutable f (pb_set g v m) = pb_mutable f m;
  pb_mutable_add f g v m : has_single f m → field_cpp_type f = CPPTYPE_MESSAGE → has_list g m → fits g v →
    pb_mutable f (pb_add g v m) = pb_mutable f m;
  pb_repeated_new ty f : f ∈ pb_descriptor ty → is_repeated f = true → pb_repeated f (pb_new ty) = [];
  pb_mutable_new ty f : f ∈ pb_descriptor ty → is_repeated f = false → field_cpp_type f = CPPTYPE_MESSAGE →
    pb_mutable f (pb_new ty) = pb_new (message_type f);
  pb_get_unset f m : has_single f m → pb_has f m = false → pb_get f m = pb_default f;
  pb_byte_size_new ty : pb_byte_size (pb_new ty) = 0;
  pb_byte_size_serialize m bs : pb_serialize m = Some bs → len bs = pb_byte_size m;
}.
