(* ===== verification/ProtobufDemo.v ===== *)
(** * A small protobuf: a message is its type and its fields in the order set

    It serves the examples.  The descriptors are a parameter: [PbDemo] fixes some
    types, [OneofDemo] one with a oneof, [FlatDemo] some that do not nest
    themselves. *)

From S2P Require Import Prelude CString LuaValue Protobuf.

Inductive message := Message (ty : string) (singles lists : list (string * pb_value message)).

Definition fld (name : string) (rep : bool) (ty : cpp_type) (sub : string) : field_descriptor :=
  {| field_name := name; is_repeated := rep; field_cpp_type := ty; message_type := sub; containing_oneof := None |}.

Definition type_of '(Message ty _ _) : string := ty.

Definition new ty := Message ty [] [].

Fixpoint assoc (k : string) (fs : list (string * pb_value message)) : option (pb_value message) :=
  match fs with
  | [] => None
  | (k', v) :: fs => if decide (k = k') then Some v else assoc k fs
  end.

Fixpoint all (k : string) (fs : list (string * pb_value message)) : list (pb_value message) :=
  match fs with
  | [] => []
  | (k', v) :: fs => if decide (k = k') then v :: all k fs else all k fs
  end.

Definition default_value f : pb_value message :=
  match field_cpp_type f with
  | CPPTYPE_DOUBLE => PDouble (S754_zero false)
  | CPPTYPE_FLOAT => PFloat (S754_zero false)
  | CPPTYPE_BOOL => PBool false
  | CPPTYPE_STRING => PString String.EmptyString
  | CPPTYPE_MESSAGE => PMessage (new (message_type f))
  | _ => PInt 0
  end.

(** The text of a [Note] is all that is written out, up to a NUL. *)
Definition text '(Message _ ss _) : string :=
  match assoc "text" ss with Some (PString s) => s | _ => EmptyString end.

Definition note (s : string) : message := Message "Note" [("text"%string, PString s)] [].

Definition parsed (ty : string) (bs : list byte) : message :=
  if decide (ty = "Note"%string) then note (c_str (String.string_of_list_byte bs)) else new ty.

(** Values of the field's type. *)
Definition fitting f (v : pb_value message) : bool :=
  match field_cpp_type f, v with
  | (CPPTYPE_INT32 | CPPTYPE_ENUM), PInt z => bool_decide (- 2 ^ 31 <= z < 2 ^ 31)
  | CPPTYPE_INT64, PInt z => bool_decide (- 2 ^ 63 <= z < 2 ^ 63)
  | CPPTYPE_UINT32, PInt z => bool_decide (0 <= z < 2 ^ 32)
  | CPPTYPE_UINT64, PInt z => bool_decide (0 <= z < 2 ^ 64)
  | CPPTYPE_DOUBLE, PDouble _ => true
  | CPPTYPE_FLOAT, PFloat _ => true
  | CPPTYPE_BOOL, PBool _ => true
  | CPPTYPE_STRING, PString _ => true
  | CPPTYPE_MESSAGE, PMessage m => bool_decide (type_of m = message_type f)
  | _, _ => false
  end.

Definition single f '(Message _ ss _) : option (pb_value message) :=
  match assoc (field_name f) ss with
  | Some v => if fitting f v then Some v else None
  | None => None
  end.

Section instance.
Context (descriptor : string → list field_descriptor).
Context (names_nodup : ∀ ty, NoDup (field_name <$> descriptor ty)).

(** The name of another member of the oneof of [f]. *)
Definition other_member (ty : string) f (k : string) : bool :=
  bool_decide (containing_oneof f ≠ None) && negb (bool_decide (k = field_name f)) &&
  existsb (λ g, bool_decide (field_name g = k ∧ containing_oneof g = containing_oneof f)) (descriptor ty).

Definition protobuf : Protobuf message := {|
  pb_descriptor := descriptor;
  pb_type := type_of;
  pb_new := new;
  pb_add f v '(Message ty ss ls) := Message ty ss (ls ++ [(field_name f, v)]);
  pb_set f v '(Message ty ss ls) :=
    Message ty ((field_name f, v) :: filter (λ e, other_member ty f e.1 = false) ss) ls;
  pb_mutable f m := match single f m with Some (PMessage s) => s | _ => new (message_type f) end;
  pb_has f m := match single f m with Some _ => true | None => false end;
  pb_get f m := default (default_value f) (single f m);
  pb_repeated f '(Message _ _ ls) := filter (λ v, fitting f v = true) (all (field_name f) ls);
  pb_default := default_value;
  pb_parse ty bs := (negb (len bs =? 0), parsed ty bs);
  pb_serialize m := Some (String.list_byte_of_string (text m));
  pb_byte_size m := len (String.list_byte_of_string (text m));
  pb_merge _ m := m;
|}.
#[local] Existing Instance protobuf.

Lemma all_app k ls ls' : all k (ls ++ ls') = all k ls ++ all k ls'.
Proof. induction ls as [|[k' v] ls IH]; simpl; [done|]. case_decide; by rewrite IH. Qed.

Lemma fitting_spec f v : fitting f v = true ↔ fits f v.
Proof.
  unfold fitting, fits. destruct (field_cpp_type f), v; simpl; rewrite ?bool_decide_eq_true; try done; split; done.
Qed.

Lemma default_fits f : fits f (default_value f).
Proof. unfold fits, default_value. destruct (field_cpp_type f); simpl; done || lia. Qed.

Lemma single_fits f m v : single f m = Some v → fits f v.
Proof.
  destruct m as [ty ss ls]. simpl. destruct (assoc _ ss) as [w|]; [|done].
  destruct (fitting f w) eqn:E; [|done]. intros [= <-]. by apply fitting_spec.
Qed.

Lemma assoc_filter k (p : string → bool) ss :
  p k = false → assoc k (filter (λ e, p e.1 = false) ss) = assoc k ss.
Proof.
  intros Hp. induction ss as [|[k' v] ss IH]; [done|]. rewrite filter_cons. simpl.
  destruct (decide (k = k')) as [<-|Hne]; [rewrite decide_True by done; simpl; by rewrite decide_True|].
  case_decide; [simpl; by rewrite decide_False|done].
Qed.

(** A field that is apart from [g] is not cleared with the oneof of [g]. *)
Lemma apart_kept f g ty : f ∈ descriptor ty → apart f g → other_member ty g (field_name f) = false.
Proof.
  intros Hf [Hn Ho]. unfold other_member. destruct (existsb _ _) eqn:E; [|by rewrite andb_false_r].
  apply existsb_exists in E as (h & Hh%list_elem_of_In & [Hhn Hho]%bool_decide_eq_true).
  assert (h = f) as ->.
  { apply list_elem_of_lookup_1 in Hf as [i Hi], Hh as [j Hj].
    assert (i = j) as ->; [|congruence].
    eapply (NoDup_lookup (field_name <$> descriptor ty)); [apply names_nodup|..];
      rewrite list_lookup_fmap; [rewrite Hi|rewrite Hj]; simpl; by rewrite ?Hhn. }
  destruct Ho as [Ho|Ho]; [|congruence]. rewrite Ho in Hho. by rewrite <-Hho, bool_decide_false by auto.
Qed.

Lemma single_set f g v m : has_single f m → apart f g → single f (pb_set g v m) = single f m.
Proof.
  destruct m as [ty ss ls]. intros [Hf _] Ha. simpl in Hf |- *. pose proof Ha as [Hn _].
  rewrite decide_False by done. by rewrite (assoc_filter _ (other_member ty g)) by by apply apart_kept.
Qed.

Lemma protobuf_laws : ProtobufLaws message.
Proof.
  split; simpl; try done.
  - by intros f v [ty ss ls].
  - by intros f v [ty ss ls].
  - intros ty bs. unfold parsed. by case_decide as Hn; [rewrite Hn|].
  - intros f m _ Hf. destruct (single f m) as [v|] eqn:E; [|done]. apply single_fits in E. unfold fits in E.
    rewrite Hf in E. by destruct v.
  - intros f m _. destruct (single f m) as [v|] eqn:E; [by eapply single_fits|apply default_fits].
  - intros f [ty ss ls] _. apply Forall_forall. intros v Hv. by apply list_elem_of_filter in Hv as [Hv%fitting_spec _].
  - intros f v [ty ss ls] _ Hv%fitting_spec. simpl. rewrite decide_True by done. by rewrite Hv.
  - intros f g v m Hf _ _ Ha. by rewrite <-(single_set f g v m Hf Ha).
  - by intros f g v [ty ss ls].
  - intros f v [ty ss ls] _ Hv%fitting_spec. rewrite all_app, filter_app. simpl. rewrite decide_True by done.
    by rewrite filter_cons_True.
  - intros f g v [ty ss ls] _ _ _ Hn. rewrite all_app. simpl. by rewrite decide_False, app_nil_r.
  - by intros f g v [ty ss ls].
  - intros f g v m Hf _ _ _ Ha. by rewrite <-(single_set f g v m Hf Ha).
  - by intros f g v [ty ss ls].
  - intros f m _. by destruct (single f m).
  - by intros m bs [= <-].
Qed.
End instance.

(** ** Types *)
Module PbDemo.
(** [Ping] has scalars, arrays and submessages; it nests itself.  [Note] is one
    line of text. *)
Definition descriptor (ty : string) : list field_descriptor :=
  if decide (ty = "Ping"%string) then
    [fld "id" false CPPTYPE_INT64 EmptyString; fld "name" false CPPTYPE_STRING EmptyString; fld "on" false CPPTYPE_BOOL EmptyString;
     fld "ratio" false CPPTYPE_DOUBLE EmptyString; fld "items" true CPPTYPE_INT32 EmptyString; fld "pong" false CPPTYPE_MESSAGE "Pong";
     fld "more" true CPPTYPE_MESSAGE "Ping"]
  else if decide (ty = "Pong"%string) then [fld "code" false CPPTYPE_UINT32 EmptyString]
  else if decide (ty = "Note"%string) then [fld "text" false CPPTYPE_STRING EmptyString]
  else [].

Lemma demo_names_nodup ty : NoDup (field_name <$> descriptor ty).
Proof. unfold descriptor. repeat case_decide; apply (bool_decide_unpack _); by vm_compute. Qed.

#[global] Instance demo_protobuf : Protobuf message := protobuf descriptor.
#[global] Instance demo_laws : ProtobufLaws message := protobuf_laws descriptor demo_names_nodup.

Definition add_int name z m : message := pb_add (fld name true CPPTYPE_INT32 EmptyString) (PInt z) m.

Definition inner : message := pb_set (fld "name" false CPPTYPE_STRING EmptyString) (PString "inner") (new "Ping").

(** [on], [ratio] and [pong] are not set. *)
Definition ping : message :=
  pb_add (fld "more" true CPPTYPE_MESSAGE "Ping") (PMessage inner)
    (add_int "items" 8 (add_int "items" (-7)
      (pb_set (fld "id" false CPPTYPE_INT64 EmptyString) (PInt (2 ^ 53)) (new "Ping")))).
End PbDemo.

Module OneofDemo.
(** A [Pick] is an [a] or a [b]. *)
Definition member (name : string) : field_descriptor :=
  {| field_name := name; is_repeated := false; field_cpp_type := CPPTYPE_INT32; message_type := EmptyString;
     containing_oneof := Some "which"%string |}.

Definition descriptor (ty : string) : list field_descriptor :=
  if decide (ty = "Pick"%string) then [member "a"; member "b"] else [].

Lemma pick_names_nodup ty : NoDup (field_name <$> descriptor ty).
Proof. unfold descriptor. case_decide; apply (bool_decide_unpack _); by vm_compute. Qed.

Definition pick_protobuf : Protobuf message := protobuf descriptor.
Definition pick_laws : @ProtobufLaws message pick_protobuf := protobuf_laws descriptor pick_names_nodup.

Definition pick_a : message := @pb_set _ pick_protobuf (member "a") (PInt 5) (new "Pick").
End OneofDemo.

Module FlatDemo.
(** A [Letter] holds a number, words and a [Note], and nothing nests itself. *)
Definition descriptor (ty : string) : list field_descriptor :=
  if decide (ty = "Letter"%string) then
    [fld "id" false CPPTYPE_INT64 EmptyString; fld "words" true CPPTYPE_STRING EmptyString; fld "note" false CPPTYPE_MESSAGE "Note"]
  else if decide (ty = "Note"%string) then [fld "text" false CPPTYPE_STRING EmptyString]
  else [].

Lemma flat_names_nodup ty : NoDup (field_name <$> descriptor ty).
Proof. unfold descriptor. repeat case_decide; apply (bool_decide_unpack _); by vm_compute. Qed.

Definition flat_protobuf : Protobuf message := protobuf descriptor.
Definition flat_laws : @ProtobufLaws message flat_protobuf := protobuf_laws descriptor flat_names_nodup.
End FlatDemo.
