(* ===== verification/MessageParser.v ===== *)
(** * The message parser ([MessageParser.cpp], [MessageBuilder.cpp])

    The parser loads descriptors from files and directories, and keeps one
    message object per message id in a cache.  Message objects live on a heap:
    a pointer in the cache may outlive its object.  Which files the importer
    accepts, which types they define, and the directories are parameters. *)

From S2P Require Import Prelude MessageQueue Message Socket CString Protocol Protobuf.
From Stdlib Require Import Ascii.

(** ** Directories *)

(** [d_type & DT_DIR] is a test of one bit, which block devices and sockets
    have too. *)
Definition DT_DIR : Z := 4.

Inductive directory :=
  | NotDirectory                                    (* or [stat] fails *)
  | Unreadable                                      (* [opendir] fails *)
  | Directory (entries : list (string * Z)).        (* [d_name], [d_type] *)

Section traverse.
Context {S : Type} (stat : string → directory) (callback : string → S → bool * S).

Definition isDir (file : string) : bool :=
  match stat file with NotDirectory => false | _ => true end.

(** An entry the loop skips: hidden, or without the suffix asked for. *)
Definition filtered_out (filter_suffix : option string) (d_name : string) : bool :=
  match d_name with
  | String "." _ => true
  | _ =>
      match filter_suffix with
      | None => false
      | Some filter_suffix =>
          match split_last_dot d_name with
          | Some (_, suffix) => negb (strcasecmp_eq suffix filter_suffix)
          | None => true
          end
      end
  end.

Definition fullname (folder d_name : string) : string := snprintf PATH_MAX (folder +:+ "/" +:+ d_name).

(** The loop over the entries; [traverse] is the call for a directory, whose
    result is returned at once. *)
Fixpoint traverse_entries (traverse : string → S → outcome (bool * S)) (folder : string)
    (filter_suffix : option string) (entries : list (string * Z)) (s : S) : outcome (bool * S) :=
  match entries with
  | [] => Ok (true, s)
  | (d_name, d_type) :: entries =>
      if filtered_out filter_suffix d_name then
        traverse_entries traverse folder filter_suffix entries s
      else if negb (Z.land d_type DT_DIR =? 0) then traverse (fullname folder d_name) s
      else
        let '(b, s) := callback (fullname folder d_name) s in
        if negb b then Ok (false, s) else traverse_entries traverse folder filter_suffix entries s
  end.

Fixpoint traverseDirectory (fuel : nat) (filter_suffix : option string) (folder : string) (s : S)
    : outcome (bool * S) :=
  match fuel with
  | O => NoFuel
  | Datatypes.S fuel =>
      if negb (isDir folder) then Ok (callback folder s)
      else
        match stat folder with
        | Directory entries =>
            traverse_entries (traverseDirectory fuel filter_suffix) folder filter_suffix entries s
        | _ => Undef                                (* [readdir(NULL)] *)
        end
  end.
End traverse.

(** ** The parser *)
Record message_parser {P : Type} := {
  mp_messages : gmap Z loc;                         (* [_messages] *)
  mp_objects : gmap loc (string * P);               (* the message objects: type name, contents *)
  mp_brk : loc;
  mp_files : list string;                           (* imported so far *)
}.
Arguments message_parser P : clear implicits.

Section parser.
Context {P : Type} `{!Protobuf P}.
Context (import : list string → string → bool) (known_type : list string → string → bool).
Implicit Types (mp : message_parser P).

Definition with_messages ms mp : message_parser P :=
  {| mp_messages := ms; mp_objects := mp_objects mp; mp_brk := mp_brk mp; mp_files := mp_files mp |}.

Definition with_objects os mp : message_parser P :=
  {| mp_messages := mp_messages mp; mp_objects := os; mp_brk := mp_brk mp; mp_files := mp_files mp |}.

Definition MessageParser_new : message_parser P :=
  {| mp_messages := ∅; mp_objects := ∅; mp_brk := 1%positive; mp_files := [] |}.

(** [FindOrNull]: a missing key and a null value look the same. *)
Definition FindOrNull (collection : gmap Z loc) (key : Z) : ptr := collection !! key.

(** [delete] on a message object. *)
Definition delete_message (x : loc) mp : outcome (message_parser P) :=
  DEREF _ := mp_objects mp !! x ;; Ok (with_objects (delete x (mp_objects mp)) mp).

Fixpoint delete_all (xs : list loc) mp : outcome (message_parser P) :=
  match xs with
  | [] => Ok mp
  | x :: xs => mp ← delete_message x mp; delete_all xs mp
  end.

Definition MessageParser_delete mp : outcome (message_parser P) :=
  mp ← delete_all (map_to_list (mp_messages mp)).*2 mp;
  Ok (with_messages ∅ mp).

Definition ParseProtoFile (filename : string) mp : bool * message_parser P :=
  if import (mp_files mp) filename then
    (true, {| mp_messages := mp_messages mp; mp_objects := mp_objects mp; mp_brk := mp_brk mp;
              mp_files := mp_files mp ++ [filename] |})
  else (false, mp).                                 (* "import file failure" *)

Definition LoadMessageDescriptor (stat : string → directory) (fuel : nat) (filename : string) mp
    : outcome (bool * message_parser P) :=
  traverseDirectory stat ParseProtoFile fuel (Some ".proto") filename mp.

(** [NewMessage(name)]: an object of the type, cleared. *)
Definition NewMessage_name (name : string) mp : ptr * message_parser P :=
  if known_type (mp_files mp) name then
    let x := mp_brk mp in
    (Some x, {| mp_messages := mp_messages mp; mp_objects := <[x := (name, pb_new name)]> (mp_objects mp);
                mp_brk := Pos.succ x; mp_files := mp_files mp |})
  else (None, mp).                                  (* "not found descriptor" *)

(** [NewMessage(msgid)] asks the cached object for its type. *)
Definition NewMessage (msgid : Z) mp : outcome (ptr * message_parser P) :=
  match FindOrNull (mp_messages mp) msgid with
  | None => Ok (None, mp)                           (* "message not register" *)
  | Some x => DEREF o := mp_objects mp !! x ;; Ok (NewMessage_name o.1 mp)
  end.

Definition RegisteMessage (msgid : Z) (name : string) mp : bool * message_parser P :=
  match FindOrNull (mp_messages mp) msgid with
  | Some _ => (false, mp)                           (* "duplicate RegisteMessage" *)
  | None =>
      match NewMessage_name name mp with
      | (Some x, mp) => (true, with_messages (<[msgid := x]> (mp_messages mp)) mp)
      | (None, mp) => (false, mp)
      end
  end.

Definition GetMessage (msgid : Z) mp : outcome (ptr * message_parser P) :=
  match FindOrNull (mp_messages mp) msgid with
  | Some x => Ok (Some x, mp)
  | None =>
      '(message, mp) ← NewMessage msgid mp;
      match message with
      | Some x => Ok (Some x, with_messages (<[msgid := x]> (mp_messages mp)) mp)
      | None => Ok (None, mp)
      end
  end.

(** [ParseFromArray] into an object: it is cleared, and on failure holds what
    was read before the error. *)
Definition parse_into (x : loc) (buf : list byte) mp : outcome (bool * message_parser P) :=
  DEREF o := mp_objects mp !! x ;;
  let '(b, m) := pb_parse o.1 buf in
  Ok (b, with_objects (<[x := (o.1, m)]> (mp_objects mp)) mp).

(** [Clear]. *)
Definition clear_message (x : loc) mp : outcome (message_parser P) :=
  DEREF o := mp_objects mp !! x ;;
  Ok (with_objects (<[x := (o.1, pb_new o.1)]> (mp_objects mp)) mp).

(** A null pointer is dereferenced when the id is not registered. *)
Definition DecodeToNewMessage (msgid : Z) (buf : list byte) mp : outcome (ptr * message_parser P) :=
  '(message, mp) ← NewMessage msgid mp;
  DEREF x := message ;;
  DEREF o := mp_objects mp !! x ;;
  ASSERT pb_byte_size o.2 =? 0 ;;
  '(rc, mp) ← parse_into x buf mp;
  if (rc : bool) then Ok (Some x, mp)
  else mp ← delete_message x mp; Ok (None, mp).     (* "DecodeToNewMessage failure" *)

(** On failure the object is deleted and its pointer stays in the cache. *)
Definition DecodeToMessage (msgid : Z) (buf : list byte) mp : outcome (ptr * message_parser P) :=
  '(message, mp) ← GetMessage msgid mp;
  DEREF x := message ;;
  mp ← clear_message x mp;
  '(rc, mp) ← parse_into x buf mp;
  if (rc : bool) then Ok (Some x, mp)
  else mp ← delete_message x mp; Ok (None, mp).

(** The descriptor of an object's type, by its name. *)
Definition FindMessageDescriptor (x : loc) mp : outcome (option (list field_descriptor)) :=
  DEREF o := mp_objects mp !! x ;;
  Ok (if known_type (mp_files mp) o.1 then Some (pb_descriptor o.1) else None).

Definition MergeMessage (dest src : loc) mp : outcome (bool * message_parser P) :=
  DEREF d := mp_objects mp !! dest ;;
  DEREF s := mp_objects mp !! src ;;
  Ok (true, with_objects (<[dest := (d.1, pb_merge d.2 s.2)]> (mp_objects mp)) mp).

(** ** The builder: the one parser of the process *)
Definition MessageBuilderLoadDescriptor (stat : string → directory) (fuel : nat) (filename : string)
    (parser : option (message_parser P)) : outcome (Z * option (message_parser P)) :=
  match parser with
  | None => Ok (BUILDER_ERROR, None)                (* "MessageBuilder not init" *)
  | Some mp =>
      '(b, mp) ← LoadMessageDescriptor stat fuel filename mp;
      Ok (if (b : bool) then BUILDER_OK else BUILDER_ERROR, Some mp)
  end.

Definition MessageBuilderInit (parser : option (message_parser P)) : outcome (option (message_parser P)) :=
  match parser with
  | Some mp => _ ← MessageParser_delete mp; Ok (Some MessageParser_new)
  | None => Ok (Some MessageParser_new)
  end.

Definition MessageBuilderDestroy (parser : option (message_parser P)) : outcome (option (message_parser P)) :=
  match parser with
  | Some mp => _ ← MessageParser_delete mp; Ok None
  | None => Ok None
  end.
End parser.
