(* ===== verification/LoadDirectory.v ===== *)
(** * Loading a directory of descriptors ([traverseDirectory])

    What the loop over a directory does, against a plain list of the visible
    entries, and that the recursion ends on a tree of directories. *)

From S2P Require Import Prelude MessageQueue Message Socket CString LuaValue Protocol Protobuf MessageParser.

Section traverse.
Context {S : Type} (stat : string → directory) (callback : string → S → bool * S).

Definition visible (filter_suffix : option string) (entries : list (string * Z)) : list (string * Z) :=
  filter (λ e, filtered_out filter_suffix e.1 = false) entries.

Definition is_dir (e : string * Z) : bool := negb (Z.land e.2 DT_DIR =? 0).

(** The files in front of the first directory, and the rest. *)
Fixpoint split_files (es : list (string * Z)) : list (string * Z) * list (string * Z) :=
  match es with
  | [] => ([], [])
  | e :: es' => if is_dir e then ([], es) else let '(files, rest) := split_files es' in (e :: files, rest)
  end.

(** Calling back for each file until one is refused. *)
Fixpoint load_files (folder : string) (files : list (string * Z)) (s : S) : bool * S :=
  match files with
  | [] => (true, s)
  | e :: files =>
      let '(b, s) := callback (fullname folder e.1) s in
      if (b : bool) then load_files folder files s else (false, s)
  end.

Lemma traverse_entries_eq traverse folder filter_suffix entries s :
  traverse_entries callback traverse folder filter_suffix entries s =
    let '(files, rest) := split_files (visible filter_suffix entries) in
    let '(b, s) := load_files folder files s in
    if (b : bool) then
      match rest with [] => Ok (true, s) | e :: _ => traverse (fullname folder e.1) s end
    else Ok (false, s).
Proof.
  revert s. induction entries as [|[d_name d_type] entries IH]; intros s; [done|]. simpl.
  unfold visible. rewrite filter_cons. simpl. destruct (filtered_out filter_suffix d_name); simpl; [apply IH|].
  unfold is_dir at 1. simpl. destruct (negb _); [done|].
  fold (visible filter_suffix entries). destruct (split_files _) as [files rest]. simpl.
  destruct (callback _ s) as [b s']. destruct b; simpl; [apply IH|done].
Qed.

(** Claim C21.  Loading a path: a file is loaded itself; of a directory the
    visible files with the suffix are loaded in order until one is refused, and
    at the first visible subdirectory its loading is the result: nothing behind
    it in the directory is looked at.  On a tree of directories of a given
    height the recursion ends within that height. *)
Theorem traverseDirectory_loads filter_suffix :
  (∀ fuel folder s, stat folder = NotDirectory →
     traverseDirectory stat callback (Datatypes.S fuel) filter_suffix folder s = Ok (callback folder s)) ∧
  (∀ fuel folder s entries files rest, stat folder = Directory entries →
     split_files (visible filter_suffix entries) = (files, rest) →
     traverseDirectory stat callback (Datatypes.S fuel) filter_suffix folder s =
       let '(b, s) := load_files folder files s in
       if (b : bool) then
         match rest with
         | [] => Ok (true, s)
         | e :: _ => traverseDirectory stat callback fuel filter_suffix (fullname folder e.1) s
         end
       else Ok (false, s)) ∧
  (∀ height : string → nat,
     (∀ folder entries e, stat folder = Directory entries → e ∈ entries → is_dir e = true →
        (height (fullname folder e.1) < height folder)%nat) →
     ∀ folder s, traverseDirectory stat callback (Datatypes.S (height folder)) filter_suffix folder s ≠ NoFuel).
Proof.
  split_and!.
  - intros fuel folder s E. simpl. unfold isDir. by rewrite E.
  - intros fuel folder s entries files rest E Es. simpl. unfold isDir. rewrite E. simpl.
    by rewrite traverse_entries_eq, Es.
  - intros height Hh. assert (∀ n folder s, (height folder < n)%nat →
      traverseDirectory stat callback n filter_suffix folder s ≠ NoFuel) as H; [|by intros; apply H; lia].
    induction n as [|n IH]; intros folder s Hn; [lia|]. simpl. unfold isDir.
    destruct (stat folder) as [| |entries] eqn:E; try done. simpl. rewrite traverse_entries_eq.
    assert (∀ e, e ∈ (split_files (visible filter_suffix entries)).2 → e ∈ visible filter_suffix entries ∧
      ∃ d rest, (split_files (visible filter_suffix entries)).2 = d :: rest ∧ is_dir d = true ∧
        d ∈ visible filter_suffix entries) as Hd.
    { generalize (visible filter_suffix entries) as es. induction es as [|d es IHes]; intros e He; [by apply elem_of_nil in He|].
      simpl in He |- *. destruct (is_dir d) eqn:Ed; simpl in *; [split; [done|]; exists d, es; split_and!; [done..|by left]|].
      destruct (split_files es) as [files rest]. simpl in *. destruct (IHes e He) as (? & d' & r & -> & ? & ?).
      split; [by right|]. exists d', r. split_and!; [done..|by right]. }
    destruct (split_files _) as [files rest]. destruct (load_files folder files s) as [[] s']; [|done].
    destruct rest as [|e rest]; [done|]. destruct (Hd e) as (_ & d & r & [= <- <-] & Hdir & Hin); [by left|].
    apply IH. apply list_elem_of_filter in Hin as [_ Hin]. pose proof (Hh _ _ _ E Hin Hdir). lia.
Qed.
End traverse.

(** ** A folder with two descriptors, a hidden file, and a folder between them *)
Module FolderDemo.
Definition stat (path : string) : directory :=
  if decide (path = "protos"%string) then
    Directory [(".git"%string, 4); ("a.proto"%string, 8); ("notes.txt"%string, 8); ("sub.PROTO"%string, 4); ("z.proto"%string, 8)]
  else if decide (path = "protos/sub.PROTO"%string) then Directory [("b.proto"%string, 8)]
  else NotDirectory.

Definition record (path : string) (s : list string) : bool * list string := (true, s ++ [path]).
End FolderDemo.

Lemma traverseDirectory_loads_witness :
  traverseDirectory FolderDemo.stat FolderDemo.record 3 (Some ".proto") "protos" [] =
    traverseDirectory FolderDemo.stat FolderDemo.record 2 (Some ".proto") "protos/sub.PROTO" ["protos/a.proto"%string].
Proof.
  destruct (traverseDirectory_loads FolderDemo.stat FolderDemo.record (Some ".proto"%string)) as (_ & Hd & _).
  exact (Hd 2%nat "protos"%string [] _ _ _ eq_refl eq_refl).
Defined.

Example z_is_not_loaded :
  traverseDirectory FolderDemo.stat FolderDemo.record 3 (Some ".proto") "protos" [] =
    Ok (true, ["protos/a.proto"; "protos/sub.PROTO/b.proto"]%string).
Proof. vm_compute. reflexivity. Qed.
