(* ===== verification/ProtoConvert.v ===== *)
(** * Lua tables to messages and back ([luaT_message_parser.cpp])

    [encodeDescriptor] fills a message from the table on the top of the Lua
    stack, [decodeDescriptor] fills that table from a message.  Both follow the
    fields of the descriptor, and their recursion the nesting of the messages:
    the fuel bounds its depth.  The encoder follows the Lua tables, which the
    script may have made cyclic. *)

From S2P Require Import Prelude MessageQueue Message Socket CString LuaValue LuaApi LuaTable.
From S2P Require Import Protocol Protobuf MessageParser.

(** How a step of the encoder ends: it returns true, it returns false, or an
    exception leaves it, past everything up to [luaT_message_parser_encode]. *)
Inductive verdict := Encoded | Refused | Threw.

Section operations.
Context {L P : Type} `{!LuaState L, !LuaTables L, !Protobuf P}.
Implicit Types (l : L) (m : P) (f : field_descriptor).

(** ** Encoding *)
Section encode_field.
Context (encodeDescriptor : string → P → L → outcome (verdict * P * L)).

(** The value of a scalar field, read off the top of the stack.  [None] is the
    exception [std::logic_error], which libstdc++ throws when a [std::string] is
    made of the null pointer [lua_tostring] gives for a table, say. *)
Definition scalar_of_top f l : outcome (option (pb_value P) * L) :=
  match field_cpp_type f with
  | CPPTYPE_INT32 => Ok (Some (PInt (i32 (lua_tointeger l (-1)))), l)
  | CPPTYPE_INT64 => Ok (Some (PInt (i64 (lua_tointeger l (-1)))), l)
  | CPPTYPE_UINT32 => Ok (Some (PInt (u32 (lua_tointeger l (-1)))), l)
  | CPPTYPE_UINT64 => Ok (Some (PInt (u64 (lua_tointeger l (-1)))), l)
  | CPPTYPE_DOUBLE => Ok (Some (PDouble (lua_tonumber l (-1))), l)
  | CPPTYPE_FLOAT => Ok (Some (PFloat (to_float (lua_tonumber l (-1)))), l)
  | CPPTYPE_BOOL => Ok (Some (PBool (lua_toboolean l (-1))), l)
  | CPPTYPE_ENUM => Ok (Some (PInt (i32 (lua_tointeger l (-1)))), l)
  | CPPTYPE_STRING =>
      let '(s, l) := lua_tolstring l in
      Ok ((PString ∘ c_str) <$> s, l)
  | CPPTYPE_MESSAGE => Undef
  end.

Definition encodeFieldRepeated f m l : outcome (verdict * P * L) :=
  ASSERT is_repeated f ;;
  if negb (lua_isnoneornil l (-1)) then
    match field_cpp_type f with
    | CPPTYPE_MESSAGE =>
        '(rc, submessage, l) ← encodeDescriptor (message_type f) (pb_new (message_type f)) l;
        Ok (rc, pb_add f (PMessage submessage) m, l)
    | _ =>
        '(value, l) ← scalar_of_top f l;
        Ok (match value with Some v => (Encoded, pb_add f v m, l) | None => (Threw, m, l) end)
    end
  else Ok (Encoded, m, l).

Definition encodeFieldSimple f m l : outcome (verdict * P * L) :=
  ASSERT negb (is_repeated f) ;;
  if negb (lua_isnoneornil l (-1)) then
    match field_cpp_type f with
    | CPPTYPE_MESSAGE =>
        '(rc, submessage, l) ← encodeDescriptor (message_type f) (pb_mutable f m) l;
        Ok (rc, pb_set f (PMessage submessage) m, l)
    | _ =>
        '(value, l) ← scalar_of_top f l;
        Ok (match value with Some v => (Encoded, pb_set f v m, l) | None => (Threw, m, l) end)
    end
  else Ok (Encoded, m, l).

(** [lua_pop(L, 1)], which an exception skips. *)
Definition popped (rc : verdict) l : L := match rc with Threw => l | _ => lua_pop 1 l end.

(** [while (lua_next(L, table_index) != 0 && rc)]: the next entry is pushed
    before [rc] is looked at. *)
Fixpoint encode_elements (fuel : nat) f (t : loc) (rc : verdict) m l : outcome (verdict * P * L) :=
  match fuel with
  | O => NoFuel
  | S fuel =>
      '(more, l) ← lua_next t l;
      match (more : bool), rc with
      | true, Encoded =>
          '(rc, m, l) ← encodeFieldRepeated f m l;
          match rc with
          | Threw => Ok (Threw, m, l)
          | _ => encode_elements fuel f t rc m (lua_pop 1 l)
          end
      | _, _ => Ok (rc, m, l)
      end
  end.

Definition encodeField f m l : outcome (verdict * P * L) :=
  if is_repeated f then
    l ← lua_gettable (lua_push (LString (field_name f)) l);
    '(rc, m, l) ←
      match lua_at l (-1) with
      | Some (LTable t) =>
          encode_elements (S (length (lua_entries t l))) f t Encoded m (lua_push LNil l)
      | _ => Ok (Encoded, m, l)
      end;
    Ok (rc, m, popped rc l)
  else
    l ← lua_gettable (lua_push (LString (field_name f)) l);
    '(rc, m, l) ← encodeFieldSimple f m l;
    Ok (rc, m, popped rc l).

Fixpoint encode_fields (fs : list field_descriptor) m l : outcome (verdict * P * L) :=
  match fs with
  | [] => Ok (Encoded, m, l)
  | f :: fs =>
      '(rc, m, l) ← encodeField f m l;
      match rc with Encoded => encode_fields fs m l | _ => Ok (rc, m, l) end
  end.
End encode_field.

Fixpoint encodeDescriptor (depth : nat) (ty : string) m l : outcome (verdict * P * L) :=
  match depth with
  | O => NoFuel
  | S depth =>
      if negb (lua_istable l (-1)) then Ok (Refused, m, l)   (* "stack top not table" *)
      else encode_fields (encodeDescriptor depth) (pb_descriptor ty) m l
  end.

(** ** Decoding *)

(** The value [lua_push...] makes of a scalar; a [uint64_t] becomes a
    [lua_Integer] first, a [std::string] a C string. *)
Definition lua_of_scalar f (v : pb_value P) : outcome lua_value :=
  match field_cpp_type f, v with
  | (CPPTYPE_INT32 | CPPTYPE_INT64 | CPPTYPE_UINT32 | CPPTYPE_ENUM), PInt z => Ok (LNumber (lua_of_integer (L:=L) z))
  | CPPTYPE_UINT64, PInt z => Ok (LNumber (lua_of_integer (L:=L) (i64 z)))
  | CPPTYPE_DOUBLE, PDouble n => Ok (LNumber n)
  | CPPTYPE_FLOAT, PFloat n => Ok (LNumber n)
  | CPPTYPE_BOOL, PBool b => Ok (LBoolean b)
  | CPPTYPE_STRING, PString s => Ok (LString (c_str s))
  | _, _ => Undef                                   (* a getter of another type *)
  end.

(** The default pushed for a scalar field that is not set: zero, whatever the
    descriptor says. *)
Definition zero_scalar f : lua_value :=
  match field_cpp_type f with
  | CPPTYPE_DOUBLE | CPPTYPE_FLOAT => LNumber (S754_zero false)
  | CPPTYPE_BOOL => LBoolean false
  | CPPTYPE_STRING => LString String.EmptyString
  | _ => LNumber (lua_of_integer (L:=L) 0)
  end.

Definition decodeFieldDefaultValue f l : outcome L :=
  let l := lua_push (LString (field_name f)) l in
  if is_repeated f then lua_settable_3 (lua_newtable l)
  else
    match field_cpp_type f with
    | CPPTYPE_MESSAGE => lua_settable_3 (lua_newtable l)
    | _ => lua_settable_3 (lua_push (zero_scalar f) l)
    end.

Section decode_field.
Context (decodeDescriptor : string → P → L → outcome (bool * L)).

(** The value at [index] goes to the key [index], counted from 0. *)
Definition decodeFieldRepeated f (index : nat) m l : outcome (bool * L) :=
  ASSERT is_repeated f ;;
  let l := lua_pushinteger (Z.of_nat index) l in
  DEREF v := pb_repeated f m !! index ;;
  match field_cpp_type f, v with
  | CPPTYPE_MESSAGE, PMessage submessage =>
      '(rc, l) ← decodeDescriptor (message_type f) submessage (lua_newtable l);
      l ← lua_settable_3 l;
      Ok (rc, l)
  | _, _ =>
      value ← lua_of_scalar f v;
      l ← lua_settable_3 (lua_push value l);
      Ok (true, l)
  end.

Definition decodeFieldSimple f m l : outcome (bool * L) :=
  ASSERT negb (is_repeated f) ;;
  let l := lua_push (LString (field_name f)) l in
  match field_cpp_type f with
  | CPPTYPE_MESSAGE =>
      match pb_get f m with
      | PMessage submessage =>
          '(rc, l) ← decodeDescriptor (message_type f) submessage (lua_newtable l);
          l ← lua_settable_3 l;
          Ok (rc, l)
      | _ => Undef
      end
  | CPPTYPE_STRING =>
      value ← lua_of_scalar f (pb_get f m);
      l ← lua_settable_3 (lua_push value l);
      Ok (true, l)
  | _ =>
      l ← (if pb_has f m then value ← lua_of_scalar f (pb_get f m); Ok (lua_push value l)
           else decodeFieldDefaultValue f l);
      l ← lua_settable_3 l;
      Ok (true, l)
  end.

(** [for (i = 0; rc && i < FieldSize; ++i)], [n] elements before the end. *)
Fixpoint decode_elements f (n i : nat) m l : outcome (bool * L) :=
  match n with
  | O => Ok (true, l)
  | S n =>
      '(rc, l) ← decodeFieldRepeated f i m l;
      if (rc : bool) then decode_elements f n (S i) m l else Ok (false, l)
  end.

Definition decodeField f m l : outcome (bool * L) :=
  if is_repeated f then
    let l := lua_newtable (lua_push (LString (field_name f)) l) in
    '(rc, l) ← decode_elements f (length (pb_repeated f m)) 0 m l;
    l ← lua_settable_3 l;
    Ok (rc, l)
  else decodeFieldSimple f m l.

Fixpoint decode_fields (fs : list field_descriptor) m l : outcome (bool * L) :=
  match fs with
  | [] => Ok (true, l)
  | f :: fs =>
      if negb (is_repeated f) && negb (pb_has f m) then
        l ← decodeFieldDefaultValue f l;
        decode_fields fs m l
      else
        '(rc, l) ← decodeField f m l;
        if (rc : bool) then decode_fields fs m l else Ok (false, l)
  end.
End decode_field.

Fixpoint decodeDescriptor (depth : nat) (ty : string) m l : outcome (bool * L) :=
  match depth with
  | O => NoFuel
  | S depth => decode_fields (decodeDescriptor depth) (pb_descriptor ty) m l
  end.
End operations.

(** ** With the parser *)
Section parser.
Context {L P : Type} `{!LuaState L, !LuaTables L, !Protobuf P}.
Context (known_type : list string → string → bool).
Implicit Types (mp : message_parser P) (l : L).

(** The object of an id, cleared, its type and its descriptor. *)
Definition cleared_message (msgid : Z) mp
    : outcome (option (loc * string * list field_descriptor) * message_parser P) :=
  '(message, mp) ← GetMessage known_type msgid mp;
  match message with
  | None => Ok (None, mp)                           (* "not register message" *)
  | Some x =>
      mp ← clear_message x mp;
      descriptor ← FindMessageDescriptor known_type x mp;
      DEREF o := mp_objects mp !! x ;;
      Ok (match descriptor with Some d => Some (x, o.1, d) | None => None end, mp)
  end.

Definition store_message (x : loc) (name : string) (m : P) mp : message_parser P :=
  with_objects (<[x := (name, m)]> (mp_objects mp)) mp.

(** The block holds [size] free bytes and the message. *)
Definition luaT_message_parser_encode (depth : nat) (msgid size : Z) mp l
    : outcome (option (list cell) * message_parser P * L) :=
  '(message, mp) ← cleared_message msgid mp;
  match message with
  | None => Ok (None, mp, l)
  | Some (x, name, descriptor) =>
      ASSERT pb_byte_size (pb_new name) =? 0 ;;
      '(rc, m, l) ← encodeDescriptor depth name (pb_new name) l;
      let mp := store_message x name m mp in
      match rc with
      | Refused => Ok (None, mp, l)                 (* "encodeDescriptor failure" *)
      | Threw => Ok (None, mp, l)                   (* "encodeDescriptor exception" *)
      | Encoded =>
          match pb_serialize m with
          | Some bs => Ok (Some (fresh_cells size ++ (Some <$> bs)), mp, l)
          | None => Ok (None, mp, l)                (* "Serialize message failure" *)
          end
      end
  end.

(** The new table stays on the stack when decoding fails half way. *)
Definition luaT_message_parser_decode (depth : nat) (msgid : Z) (buf : list byte) mp l
    : outcome (bool * message_parser P * L) :=
  '(message, mp) ← cleared_message msgid mp;
  match message with
  | None => Ok (false, mp, l)
  | Some (x, name, descriptor) =>
      '(rc, mp) ← parse_into x buf mp;
      if negb rc then Ok (false, mp, l)             (* "ParseFromArray message failure" *)
      else
        DEREF o := mp_objects mp !! x ;;
        '(rc, l) ← decodeDescriptor depth name o.2 (lua_newtable l);
        Ok (rc, mp, l)
  end.
End parser.
