(* ===== verification/ProtoRoundTrip.v ===== *)
(** * Decoding a message and encoding the table gives the message back

    [fields_of] says that a Lua table holds what the decoder makes of a message,
    in tables created since a given state.  The decoder establishes it, nothing
    the decoder does later disturbs it, and the encoder reads the message back:
    equal in its singular fields, and with the elements of its repeated fields
    in the order in which Lua walks a table. *)

From S2P Require Import Prelude CString LuaValue LuaApi LuaTable Protobuf ProtobufDemo ProtoConvert.

Section round_trip.
Context {L P : Type} `{!LuaState L, !LuaStateLaws L, !LuaTables L, !LuaTablesLaws L}.
Context `{!Protobuf P, !ProtobufLaws P}.
Implicit Types (l : L) (m : P) (f : field_descriptor).

(** ** Scalars *)

(** [lv] is read by the encoder as the value [v]. *)
Definition reads f (lv : lua_value) (v : pb_value P) : Prop :=
  lv ≠ LNil ∧ ∀ l, scalar_of_top f (lua_push lv l) = Ok (Some v, lua_push lv l).

(** The values that survive the conversion: 64-bit integers up to [2^53], strings
    without a NUL. *)
Definition scalar_ok f (v : pb_value P) : Prop :=
  match field_cpp_type f, v with
  | (CPPTYPE_INT32 | CPPTYPE_ENUM), PInt z => - 2 ^ 31 <= z < 2 ^ 31
  | CPPTYPE_INT64, PInt z => Z.abs z <= 2 ^ 53
  | CPPTYPE_UINT32, PInt z => 0 <= z < 2 ^ 32
  | CPPTYPE_UINT64, PInt z => 0 <= z < 2 ^ 64 ∧ Z.abs (i64 z) <= 2 ^ 53
  | CPPTYPE_DOUBLE, PDouble _ => True
  | CPPTYPE_FLOAT, PFloat n => to_float n = n
  | CPPTYPE_BOOL, PBool _ => True
  | CPPTYPE_STRING, PString s => c_str s = s
  | _, _ => False
  end.

Definition zero_value f : pb_value P :=
  match field_cpp_type f with
  | CPPTYPE_DOUBLE => PDouble (S754_zero false)
  | CPPTYPE_FLOAT => PFloat (S754_zero false)
  | CPPTYPE_BOOL => PBool false
  | CPPTYPE_STRING => PString String.EmptyString
  | CPPTYPE_MESSAGE => PMessage (pb_new (message_type f))
  | _ => PInt 0
  end.

(** Message types without oneofs, whose fields have no default but zero, as in
    proto3. *)
Definition plain_types : Prop := ∀ ty f, f ∈ pb_descriptor ty →
  containing_oneof f = None ∧ (is_repeated f = false → pb_default f = zero_value f).

Lemma scalar_fits f l v l' : scalar_of_top (P:=P) f l = Ok (Some v, l') → fits f v.
Proof.
  assert (∀ z, - 2 ^ 63 <= i64 z < 2 ^ 63) as H64.
  { intros z. unfold i64. pose proof (Z.mod_pos_bound (z + 2 ^ 63) (2 ^ 64)). lia. }
  unfold scalar_of_top, fits. destruct (field_cpp_type f); try done.
  all: try by intros [= <- _]; auto using i32_range, u32_range, u64_range; eauto.
  destruct (lua_tolstring l) as [[s|] l1]; by intros [= <- _].
Qed.

Lemma tonumber_push n l : lua_tonumber (lua_push (LNumber n) l) (-1) = n.
Proof. unfold lua_tonumber. by rewrite lua_at_top. Qed.

Lemma tointeger_push z l : Z.abs z <= 2 ^ 53 →
  lua_tointeger (lua_push (LNumber (lua_of_integer (L:=L) z)) l) (-1) = z.
Proof. intros H. unfold lua_tointeger. rewrite tonumber_push. by apply lua_to_of_integer. Qed.

Lemma u64_i64 z : 0 <= z < 2 ^ 64 → u64 (i64 z) = z.
Proof.
  intros H. unfold u64, i64. rewrite Zminus_mod_idemp_l.
  replace (z + 2 ^ 63 - 2 ^ 63) with z by lia. by apply Z.mod_small.
Qed.

Lemma scalar_round f v : scalar_ok f v → ∃ lv, lua_of_scalar (L:=L) f v = Ok lv ∧ reads f lv v.
Proof.
  unfold scalar_ok, lua_of_scalar, reads, scalar_of_top.
  destruct (field_cpp_type f), v; try done; intros H; eexists; (split; [done|]); (split; [done|]); intros l;
    rewrite ?tonumber_push, ?tointeger_push, ?i32_id, ?i64_id, ?H by lia; try done.
  - unfold u32. by rewrite Z.mod_small.
  - rewrite u64_i64 by lia. done.
  - unfold lua_toboolean. rewrite lua_at_top. by destruct b.
  - unfold lua_tolstring. rewrite stack_push. unfold lua_tostring. rewrite lua_at_top. simpl. by rewrite H.
Qed.

Lemma zero_round f : field_cpp_type f ≠ CPPTYPE_MESSAGE → reads f (zero_scalar (L:=L) f) (zero_value f).
Proof.
  intros H. unfold reads, zero_scalar, zero_value, scalar_of_top.
  destruct (field_cpp_type f); try done; (split; [done|]); intros l;
    rewrite ?tonumber_push, ?tointeger_push by lia; try done.
  - unfold lua_toboolean. by rewrite lua_at_top.
  - unfold lua_tolstring. rewrite stack_push. unfold lua_tostring. by rewrite lua_at_top.
Qed.

(** ** What the tables hold *)

(** The table was created since [l0], and has no metatable. *)
Definition created l0 l (s : loc) : Prop :=
  lua_live s l ∧ ¬ lua_live s l0 ∧ lua_metatable s l = false.

(** The table is the array of the values, counted from 0, and nothing else. *)
Definition array l (s : loc) (lvs : list lua_value) : Prop :=
  ∀ k v, k ≠ LNil → v ≠ LNil →
    lua_rawget s k l = v ↔ ∃ i, k = LNumber (lua_of_integer (L:=L) (Z.of_nat i)) ∧ lvs !! i = Some v.

Definition value_of (T : string → loc → P → Prop) l0 l f (lv : lua_value) (v : pb_value P) : Prop :=
  match field_cpp_type f with
  | CPPTYPE_MESSAGE => ∃ s sub, lv = LTable s ∧ v = PMessage sub ∧ created l0 l s ∧
      (T (message_type f) s sub ∨ (∀ k, lua_rawget s k l = LNil) ∧ sub = pb_new (message_type f))
  | _ => reads f lv v
  end.

Definition field_of T l0 l f (t : loc) m : Prop :=
  let lv := lua_rawget t (LString (field_name f)) l in
  if is_repeated f then
    ∃ s lvs, lv = LTable s ∧ created l0 l s ∧ array l s lvs ∧
      len lvs <= 2 ^ 53 ∧ Forall2 (value_of T l0 l f) lvs (pb_repeated f m)
  else value_of T l0 l f lv (pb_get f m).

Fixpoint fields_of (d : nat) l0 l (ty : string) (t : loc) m : Prop :=
  match d with
  | O => False
  | S d => Forall (λ f, field_of (fields_of d l0 l) l0 l f t m) (pb_descriptor ty)
  end.

(** ** Messages of a bounded depth whose values survive *)
Definition value_ok (ok : string → P → Prop) f (v : pb_value P) : Prop :=
  match field_cpp_type f with
  | CPPTYPE_MESSAGE => ∃ sub, v = PMessage sub ∧ ok (message_type f) sub
  | _ => scalar_ok f v
  end.

Definition field_ok ok f m : Prop :=
  if is_repeated f then
    len (pb_repeated f m) <= 2 ^ 53 ∧ Forall (value_ok ok f) (pb_repeated f m)
  else if pb_has f m then value_ok ok f (pb_get f m) else True.

Fixpoint message_ok (d : nat) (ty : string) m : Prop :=
  match d with
  | O => False
  | S d => pb_type m = ty ∧ Forall (λ f, field_ok (message_ok d) f m) (pb_descriptor ty)
  end.

(** ** Equality up to the order of repeated elements *)
Definition same_value (same : string → P → P → Prop) f (v w : pb_value P) : Prop :=
  v = w ∨ ∃ a b, v = PMessage a ∧ w = PMessage b ∧ same (message_type f) a b.

Definition same_field same f m m' : Prop :=
  if is_repeated f then
    ∃ ws, ws ≡ₚ pb_repeated f m ∧ Forall2 (same_value same f) ws (pb_repeated f m')
  else same_value same f (pb_get f m) (pb_get f m').

Fixpoint same_message (d : nat) (ty : string) m m' : Prop :=
  match d with
  | O => False
  | S d => Forall (λ f, same_field (same_message d) f m m') (pb_descriptor ty)
  end.

(** ** Nothing but the tables since [l0] matters *)
Lemma field_of_frame T T' l0 l l' f t t' m :
  lua_rawget t' (LString (field_name f)) l' = lua_rawget t (LString (field_name f)) l →
  (∀ s, created l0 l s → created l0 l' s ∧ ∀ k, lua_rawget s k l' = lua_rawget s k l) →
  (∀ ty s sub, T ty s sub → created l0 l s → T' ty s sub) →
  field_of T l0 l f t m → field_of T' l0 l' f t' m.
Proof.
  intros Hget Hl HT. unfold field_of.
  assert (∀ lv v, value_of T l0 l f lv v → value_of T' l0 l' f lv v) as Hv.
  { intros lv v. unfold value_of. case_match; try done.
    intros (s & sub & -> & -> & Hs & Hsub). destruct (Hl _ Hs) as [Hs' Hg]. exists s, sub.
    split_and!; [done..|]. destruct Hsub as [Hsub|[He ->]]; [left; by apply HT|right].
    split; [|done]. intros k. by rewrite Hg. }
  rewrite Hget. case_match; [|by apply Hv].
  intros (s & lvs & -> & Hs & Ha & Hlen & Hf). destruct (Hl _ Hs) as [Hs' Hg]. exists s, lvs.
  split_and!; [done|done| |done|].
  - intros k v Hk Hnil. rewrite Hg. by apply Ha.
  - eapply Forall2_impl; [exact Hf|apply Hv].
Qed.

Lemma fields_of_frame d l0 l l' ty t m :
  (∀ s, created l0 l s → created l0 l' s ∧ ∀ k, lua_rawget s k l' = lua_rawget s k l) →
  (∀ k, lua_rawget t k l' = lua_rawget t k l) →
  fields_of d l0 l ty t m → fields_of d l0 l' ty t m.
Proof.
  intros Hl. revert ty t m. induction d as [|d IH]; intros ty t m Ht; simpl; [done|].
  intros H. eapply Forall_impl; [exact H|]. intros f. apply field_of_frame; [done|done|].
  intros ty' s sub HT Hs. apply IH; [by apply Hl|done].
Qed.

Lemma field_of_weaken T T' l0 l1 l f t m :
  (∀ s, lua_live s l0 → lua_live s l1) → (∀ ty s sub, T ty s sub → T' ty s sub) →
  field_of T l1 l f t m → field_of T' l0 l f t m.
Proof.
  intros Hl HT. unfold field_of.
  assert (∀ s, created l1 l s → created l0 l s) as Hc by (intros s (? & ? & ?); split_and!; auto).
  assert (∀ lv v, value_of T l1 l f lv v → value_of T' l0 l f lv v) as Hv.
  { intros lv v. unfold value_of. case_match; try done. intros (s & sub & -> & -> & Hs & Hsub).
    exists s, sub. split_and!; [done..|by apply Hc|]. destruct Hsub as [Hsub|]; [left; by apply HT|by right]. }
  case_match; [|by apply Hv]. intros (s & lvs & -> & Hs & ? & ? & Hf). exists s, lvs.
  split_and!; [done|by apply Hc|done..|]. eapply Forall2_impl; [exact Hf|apply Hv].
Qed.

Lemma fields_of_weaken d l0 l1 l ty t m :
  (∀ s, lua_live s l0 → lua_live s l1) → fields_of d l1 l ty t m → fields_of d l0 l ty t m.
Proof.
  intros Hl. revert ty t m. induction d as [|d IH]; intros ty t m; simpl; [done|].
  intros H. eapply Forall_impl; [exact H|]. intros f. by apply field_of_weaken.
Qed.

(** ** Single steps on the tables *)

(** From [l] to [l'] only the table [t], and tables since [l], changed. *)
Record grows (t : loc) l l' : Prop := {
  gr_stack : lua_stack l' = lua_stack l;
  gr_live s : lua_live s l → lua_live s l';
  gr_get s k : lua_live s l → s ≠ t → lua_rawget s k l' = lua_rawget s k l;
  gr_meta s : lua_live s l → lua_metatable s l' = lua_metatable s l;
}.

Lemma created_grows l0 t l l' s : grows t l l' → created l0 l s → created l0 l' s.
Proof. intros [_ Hl _ Hm] (? & ? & E). split_and!; [auto|done|by rewrite Hm]. Qed.

Lemma grows_refl t l : grows t l l.
Proof. by split. Qed.

Lemma grows_trans t l1 l2 l3 : grows t l1 l2 → grows t l2 l3 → grows t l1 l3.
Proof.
  intros [S1 L1 G1 M1] [S2 L2 G2 M2]. split; [congruence|by auto| |].
  - intros s k Hs Ht. rewrite G2 by auto. by apply G1.
  - intros s Hs. rewrite M2 by auto. by apply M1.
Qed.

(** [lua_settable(L, -3)] with key and value pushed on a state that has not
    changed since but by growing. *)
Lemma settable_ok l v k t stk : lua_stack l = v :: k :: LTable t :: stk →
  ∃ l', lua_settable_3 l = Ok l' ∧ lua_stack l' = LTable t :: stk ∧
    (∀ s k', lua_rawget s k' l' = if decide ((s, k') = (t, k)) then v else lua_rawget s k' l) ∧
    (∀ s, lua_live s l' ↔ lua_live s l) ∧ ∀ s, lua_metatable s l' = lua_metatable s l.
Proof.
  intros Hs. unfold lua_settable_3, lua_at. simpl. rewrite Hs. simpl. unfold lua_settable. rewrite Hs.
  eexists. split; [done|]. rewrite lua_stack_set. split; [done|]. split.
  - intros s k'. by rewrite lua_rawget_set_stack, lua_rawget_rawset.
  - split; intros s; [by rewrite lua_live_set_stack, lua_live_rawset|].
    by rewrite lua_metatable_set_stack, lua_metatable_rawset.
Qed.

Lemma newtable_ok l : ∃ s, lua_stack (lua_newtable l) = LTable s :: lua_stack l ∧
  created l (lua_newtable l) s ∧ (∀ k, lua_rawget s k (lua_newtable l) = LNil) ∧
  (∀ u, lua_live u l → lua_live u (lua_newtable l)) ∧
  (∀ u k, lua_live u l → lua_rawget u k (lua_newtable l) = lua_rawget u k l) ∧
  ∀ u, lua_live u l → lua_metatable u (lua_newtable l) = lua_metatable u l.
Proof.
  unfold lua_newtable. pose proof (lua_stack_createtable l) as Hs.
  pose proof (lua_createtable_fresh l) as Hf. pose proof (lua_createtable_empty (L:=L)) as He.
  pose proof (λ u, lua_createtable_live u l) as Hl. pose proof (λ u k, lua_rawget_createtable u k l) as Hg.
  pose proof (lua_metatable_new l) as Hn. pose proof (λ u, lua_metatable_createtable u l) as Hm.
  specialize (λ k, He k l). destruct (lua_createtable l) as [s l1]. simpl in *. exists s.
  rewrite stack_push, Hs. unfold created, lua_push.
  split_and!; [done|rewrite lua_live_set_stack; apply Hl; by left|done|by rewrite lua_metatable_set_stack| | | |].
  - intros k. by rewrite lua_rawget_set_stack.
  - intros u Hu. rewrite lua_live_set_stack. apply Hl. by right.
  - intros u k Hu. rewrite lua_rawget_set_stack. apply Hg. by intros ->.
  - intros u Hu. rewrite lua_metatable_set_stack. apply Hm. by intros ->.
Qed.

Lemma live_push s v l : lua_live s (lua_push v l) ↔ lua_live s l.
Proof. apply lua_live_set_stack. Qed.

(** From [l] to [l'] the key [k] of [t] was set to [v]; other changes are to
    tables since [l] only. *)
Record writes (t : loc) (k v : lua_value) l l' : Prop := {
  wr_live s : lua_live s l → lua_live s l';
  wr_get s k' : lua_live s l →
    lua_rawget s k' l' = if decide ((s, k') = (t, k)) then v else lua_rawget s k' l;
  wr_meta s : lua_live s l → lua_metatable s l' = lua_metatable s l;
}.

Lemma writes_grows t k v l l' : lua_stack l' = lua_stack l → writes t k v l l' → grows t l l'.
Proof.
  intros Hs [Hl Hg Hm]. split; [done|done| |done]. intros u k' Hu Hne. rewrite Hg by done.
  apply decide_False. by intros [= ? _].
Qed.

(** Pushing a key and a scalar, and setting. *)
Lemma write_scalar l k v t stk : lua_stack l = LTable t :: stk →
  ∃ l', lua_settable_3 (lua_push v (lua_push k l)) = Ok l' ∧ lua_stack l' = lua_stack l ∧ writes t k v l l'.
Proof.
  intros Hs. destruct (settable_ok (lua_push v (lua_push k l)) v k t stk) as (l' & E & Hs' & Hg & Hl & Hm).
  { by rewrite !stack_push, Hs. }
  exists l'. rewrite E, Hs, Hs'. split_and!; [done..|]. split.
  - intros s. by rewrite Hl, !live_push.
  - intros s k' _. by rewrite Hg, !rawget_push.
  - intros s _. by rewrite Hm, !metatable_push.
Qed.

(** Pushing a key and a new table, filling it, and setting. *)
Lemma write_table {A} (fill : L → outcome (A * L)) (a : A) (Q : L → loc → Prop) l k t stk :
  lua_stack l = LTable t :: stk → lua_live t l →
  (∀ l1 s, lua_stack l1 = LTable s :: k :: LTable t :: stk → created l l1 s →
     (∀ k', lua_rawget s k' l1 = LNil) → (∀ u, lua_live u l → lua_live u l1) →
     ∃ l2, fill l1 = Ok (a, l2) ∧ grows s l1 l2 ∧ Q l2 s) →
  ∃ l' l2 s, ('(rc, l1) ← fill (lua_newtable (lua_push k l)); l1 ← lua_settable_3 l1; Ok (rc, l1)) = Ok (a, l') ∧
    lua_stack l' = lua_stack l ∧ writes t k (LTable s) l l' ∧ created l l2 s ∧ Q l2 s ∧
    ∀ u, (lua_live u l2 ↔ lua_live u l') ∧ lua_metatable u l' = lua_metatable u l2 ∧
      (u ≠ t → ∀ k', lua_rawget u k' l' = lua_rawget u k' l2).
Proof.
  intros Hs Ht Hfill. destruct (newtable_ok (lua_push k l)) as (s & Hs1 & (Hc1 & Hc2 & Hc3) & He & Hl1 & Hg1 & Hm1).
  rewrite stack_push, Hs in Hs1. rewrite live_push in Hc2.
  destruct (Hfill _ s Hs1) as (l2 & -> & [Hs2 Hl2 Hg2 Hm2] & HQ); [by split_and!|done| |].
  { intros u Hu. apply Hl1. by rewrite live_push. }
  rewrite bind_ok.
  rewrite Hs1 in Hs2. destruct (settable_ok l2 (LTable s) k t stk Hs2) as (l' & -> & Hs' & Hg' & Hl' & Hm').
  exists l', l2, s. rewrite Hs. split_and!; [done|done| |by split_and!; [auto|done|by rewrite Hm2]|done|].
  - split.
    + intros u Hu. apply Hl', Hl2, Hl1. by rewrite live_push.
    + intros u k' Hu. rewrite Hg'. case_decide; [done|].
      rewrite Hg2, Hg1 by (try apply Hl1; rewrite ?live_push; try done; by intros ->).
      by rewrite rawget_push.
    + intros u Hu. rewrite Hm', Hm2, Hm1 by (try apply Hl1; by rewrite live_push).
      by rewrite metatable_push.
  - intros u. split; [by rewrite Hl'|]. split; [done|]. intros Hu k'. rewrite Hg'. case_decide; [congruence|done].
Qed.

(** ** Decoding one field *)
Section decode_field.
Context (decode : string → P → L → outcome (bool * L)) (d : nat).
Context (Hdecode : ∀ ty m l t stk, message_ok d ty m → lua_stack l = LTable t :: stk → lua_live t l →
  ∃ l', decode ty m l = Ok (true, l') ∧ grows t l l' ∧ fields_of d l l' ty t m).
Context (Hplain : plain_types).

(** Decoding a submessage into the key [k] of [t]. *)
Lemma decode_sub ty sub l k t stk :
  message_ok d ty sub → lua_stack l = LTable t :: stk → lua_live t l →
  ∃ l' s, ('(rc, l1) ← decode ty sub (lua_newtable (lua_push k l)); l1 ← lua_settable_3 l1; Ok (rc, l1)) =
      Ok (true, l') ∧
    lua_stack l' = lua_stack l ∧ writes t k (LTable s) l l' ∧ created l l' s ∧ fields_of d l l' ty s sub.
Proof.
  intros Hok Hs Ht.
  destruct (write_table (decode ty sub) true (λ l2 s, fields_of d l l2 ty s sub) l k t stk Hs Ht)
    as (l' & l2 & s & E & Hs' & Hw & (Hc1 & Hc2 & Hc3) & Hf & Hsame).
  { intros l1 s Hs1 (Hc1 & Hc2 & _) _ Hl1. destruct (Hdecode ty sub l1 s _ Hok Hs1 Hc1) as (l2 & E & Hg & Hf).
    exists l2. split_and!; [done..|]. by eapply fields_of_weaken. }
  assert (∀ u, created l l2 u → created l l' u) as Hc.
  { intros u (H1 & H2 & H3). destruct (Hsame u) as (Hlu & Hmu & _). split_and!; [by apply Hlu|done|by rewrite Hmu]. }
  exists l', s. split_and!; [done..|by apply Hc|].
  assert (∀ u, created l l2 u → u ≠ t) as Hne by (intros u (_ & Hu & _) ->; done).
  eapply fields_of_frame; [| |exact Hf]; [|apply Hsame; by apply Hne].
  intros u Hu. split; [by apply Hc|]. apply Hsame. by apply Hne.
Qed.

(** One field, with its name set in [t]. *)
Definition decodes_field f m l t (op : outcome (bool * L)) : Prop :=
  ∃ l' v, op = Ok (true, l') ∧ lua_stack l' = lua_stack l ∧ writes t (LString (field_name f)) v l l' ∧
    field_of (fields_of d l l') l l' f t m.

Lemma field_of_single T l l' f t m v :
  is_repeated f = false → lua_live t l → writes t (LString (field_name f)) v l l' →
  value_of T l l' f v (pb_get f m) → field_of T l l' f t m.
Proof.
  intros Hr Ht Hw Hv. unfold field_of. rewrite Hr.
  by rewrite (wr_get _ _ _ _ _ Hw t _ Ht), decide_True.
Qed.

Lemma decode_scalar f m l t stk lv :
  is_repeated f = false → field_cpp_type f ≠ CPPTYPE_MESSAGE →
  lua_stack l = LTable t :: stk → lua_live t l → reads f lv (pb_get f m) →
  decodes_field f m l t (l' ← lua_settable_3 (lua_push lv (lua_push (LString (field_name f)) l)); Ok (true, l')).
Proof.
  intros Hr Hf Hs Ht Hv. destruct (write_scalar l (LString (field_name f)) lv t stk Hs) as (l' & -> & Hs' & Hw).
  exists l', lv. rewrite bind_ok. split_and!; [done..|]. eapply field_of_single; [done..|].
  unfold value_of. by destruct (field_cpp_type f).
Qed.

Lemma decode_default f m l t stk :
  has_single f m → pb_has f m = false →
  lua_stack l = LTable t :: stk → lua_live t l →
  decodes_field f m l t (l' ← decodeFieldDefaultValue f l; Ok (true, l')).
Proof.
  intros Hin Hh Hs Ht. pose proof Hin as [Hd Hr]. unfold decodeFieldDefaultValue. rewrite Hr.
  pose proof (pb_get_unset f m Hin Hh) as Hget. rewrite (proj2 (Hplain _ _ Hd) Hr) in Hget.
  destruct (decide (field_cpp_type f = CPPTYPE_MESSAGE)) as [Hf|Hf]; last first.
  { assert (∀ A (a b : A), match field_cpp_type f with CPPTYPE_MESSAGE => a | _ => b end = b) as ->
      by (intros; by destruct (field_cpp_type f)).
    eapply decode_scalar; [done..|]. rewrite Hget. by apply zero_round. }
  rewrite Hf. destruct (write_table (λ l, Ok (tt, l)) tt (λ l2 s, ∀ k, lua_rawget s k l2 = LNil) l
    (LString (field_name f)) t stk Hs Ht) as (l' & l2 & s & E & Hs' & Hw & (Hc1 & Hc2 & Hc3) & He & Hsame).
  { intros l1 s _ _ He _. exists l1. by split_and!; [|apply grows_refl|]. }
  simpl in E. destruct (lua_settable_3 _) as [l3| | |]; try done. injection E as ->.
  exists l', (LTable s). rewrite bind_ok. split_and!; [done..|]. eapply field_of_single; [done..|].
  unfold value_of. rewrite Hf, Hget. unfold zero_value. rewrite Hf. exists s, (pb_new (message_type f)).
  destruct (Hsame s) as (Hlu & Hmu & Hgu).
  split_and!; [done..|by split_and!; [apply Hlu|done|rewrite Hmu]|]. right. split; [|done]. intros k.
  rewrite Hgu; [apply He|]. by intros ->.
Qed.

Lemma decode_simple f m l t stk :
  is_repeated f = false → pb_has f m = true → value_ok (message_ok d) f (pb_get f m) →
  lua_stack l = LTable t :: stk → lua_live t l →
  decodes_field f m l t (decodeFieldSimple decode f m l).
Proof.
  intros Hr Hh Hok Hs Ht. unfold decodeFieldSimple. rewrite Hr, Hh. simpl.
  destruct (decide (field_cpp_type f = CPPTYPE_MESSAGE)) as [Hf|Hf].
  - unfold value_ok in Hok. rewrite Hf in Hok |- *. destruct Hok as (sub & Hget & Hok). rewrite Hget.
    destruct (decode_sub _ _ l (LString (field_name f)) t stk Hok Hs Ht) as (l' & s & E & Hs' & Hw & Hc & Hfs).
    exists l', (LTable s). split_and!; [done..|]. eapply field_of_single; [done..|].
    unfold value_of. rewrite Hf. exists s, sub. split_and!; [done..|]. by left.
  - assert (scalar_ok f (pb_get f m)) as Hsc by (unfold value_ok in Hok; by destruct (field_cpp_type f)).
    destruct (scalar_round _ _ Hsc) as (lv & E & Hv). rewrite E, !bind_ok.
    assert (∀ A (a b : A), match field_cpp_type f with
      | CPPTYPE_STRING => a | CPPTYPE_MESSAGE => b | _ => a end = a) as Hm
      by (intros; by destruct (field_cpp_type f)).
    rewrite Hm. eapply decode_scalar; eauto.
Qed.

(** ** Repeated fields *)
Lemma of_integer_inj i j : Z.of_nat i <= 2 ^ 53 → Z.of_nat j <= 2 ^ 53 →
  lua_of_integer (L:=L) (Z.of_nat i) = lua_of_integer (L:=L) (Z.of_nat j) → i = j.
Proof.
  intros Hi Hj E. assert (Z.of_nat i = Z.of_nat j); [|lia].
  rewrite <-(lua_to_of_integer (L:=L) (Z.of_nat i)), E by lia. apply lua_to_of_integer. lia.
Qed.

Lemma array_snoc l l' s lvs v :
  array l s lvs → len (lvs ++ [v]) <= 2 ^ 53 → v ≠ LNil → lua_live s l →
  writes s (LNumber (lua_of_integer (L:=L) (Z.of_nat (length lvs)))) v l l' → array l' s (lvs ++ [v]).
Proof.
  intros Ha Hlen Hv Hs Hw k w Hk Hw0. rewrite (wr_get _ _ _ _ _ Hw _ _ Hs).
  unfold len in Hlen. rewrite length_app in Hlen. simpl in Hlen. case_decide as Hd.
  - injection Hd as ->. split.
    + intros <-. exists (length lvs). split; [done|]. by apply list_lookup_middle.
    + intros (i & E & Hi). injection E as E. pose proof (lookup_lt_Some _ _ _ Hi) as Hlt.
      rewrite length_app in Hlt. simpl in Hlt. apply of_integer_inj in E; [|lia..]. subst i.
      rewrite list_lookup_middle in Hi by done. by injection Hi.
  - rewrite (Ha k w Hk Hw0). split; intros (i & -> & Hi); exists i; (split; [done|]).
    + by apply lookup_app_l_Some.
    + apply lookup_app_Some in Hi as [?|[Hle Hi]]; [done|]. exfalso. apply Hd.
      destruct (i - length lvs)%nat as [|n] eqn:En; [|by destruct n]. by replace i with (length lvs) by lia.
Qed.

Lemma array_frame l l' s lvs :
  (∀ k, lua_rawget s k l' = lua_rawget s k l) → array l s lvs → array l' s lvs.
Proof. intros Hg Ha k v Hk Hv. rewrite Hg. by apply Ha. Qed.

Lemma value_frame l0 l l' f lv v :
  (∀ s, created l0 l s → created l0 l' s ∧ ∀ k, lua_rawget s k l' = lua_rawget s k l) →
  value_of (fields_of d l0 l) l0 l f lv v → value_of (fields_of d l0 l') l0 l' f lv v.
Proof.
  intros Hl. unfold value_of. case_match; try done. intros (s & sub & -> & -> & Hs & Hsub).
  destruct (Hl _ Hs) as [Hs' Hg]. exists s, sub. split_and!; [done..|].
  destruct Hsub as [Hsub|[He ->]]; [left; by eapply fields_of_frame|right].
  split; [|done]. intros k. by rewrite Hg.
Qed.

Lemma value_weaken l0 l1 l f lv v :
  (∀ s, lua_live s l0 → lua_live s l1) →
  value_of (fields_of d l1 l) l1 l f lv v → value_of (fields_of d l0 l) l0 l f lv v.
Proof.
  intros Hl. unfold value_of. case_match; try done. intros (s & sub & -> & -> & (? & ? & ?) & Hsub).
  exists s, sub. split_and!; [done..|split_and!; auto|].
  destruct Hsub as [Hsub|]; [left; by eapply fields_of_weaken|by right].
Qed.

Lemma value_not_nil T l0 l f lv v : value_of T l0 l f lv v → lv ≠ LNil.
Proof. unfold value_of, reads. case_match; try (by intros [? _]). by intros (? & ? & -> & _). Qed.

Lemma decode_element f i m l s stk v :
  is_repeated f = true → pb_repeated f m !! i = Some v → value_ok (message_ok d) f v →
  lua_stack l = LTable s :: stk → lua_live s l →
  ∃ l' lv, decodeFieldRepeated decode f i m l = Ok (true, l') ∧ lua_stack l' = lua_stack l ∧
    writes s (LNumber (lua_of_integer (L:=L) (Z.of_nat i))) lv l l' ∧
    value_of (fields_of d l l') l l' f lv v.
Proof.
  intros Hr Hi Hok Hs Hl. unfold decodeFieldRepeated, lua_pushinteger. rewrite Hr, Hi.
  destruct (decide (field_cpp_type f = CPPTYPE_MESSAGE)) as [Hf|Hf].
  - unfold value_ok in Hok. rewrite Hf in Hok |- *. destruct Hok as (sub & -> & Hok).
    destruct (decode_sub _ _ l (LNumber (lua_of_integer (L:=L) (Z.of_nat i))) s stk Hok Hs Hl)
      as (l' & u & E & Hs' & Hw & Hc & Hfs).
    exists l', (LTable u). split_and!; [done..|]. unfold value_of. rewrite Hf. exists u, sub.
    split_and!; [done..|]. by left.
  - assert (scalar_ok f v) as Hsc by (unfold value_ok in Hok; by destruct (field_cpp_type f)).
    destruct (scalar_round _ _ Hsc) as (lv & E & Hv).
    destruct (write_scalar l (LNumber (lua_of_integer (L:=L) (Z.of_nat i))) lv s stk Hs) as (l' & E' & Hs' & Hw).
    exists l', lv. rewrite E. destruct (field_cpp_type f) eqn:Ef; try done; rewrite bind_ok, E'; by
      (split_and!; [done..|]; unfold value_of; rewrite Ef).
Qed.

Lemma decode_elements_ok f m s stk vs : is_repeated f = true →
  Forall (value_ok (message_ok d) f) vs → ∀ done l lvs,
  pb_repeated f m = done ++ vs → length lvs = length done → len (pb_repeated f m) <= 2 ^ 53 →
  lua_stack l = LTable s :: stk → lua_live s l → array l s lvs →
  ∃ l' lvs', decode_elements decode f (length vs) (length done) m l = Ok (true, l') ∧ grows s l l' ∧
    array l' s (lvs ++ lvs') ∧ Forall2 (value_of (fields_of d l l') l l' f) lvs' vs.
Proof.
  intros Hr. induction 1 as [|v vs Hv Hvs IH]; intros vs0 l lvs Hm Hlen Hmax Hs Hl Ha.
  { exists l, []. rewrite app_nil_r. by split_and!; [|apply grows_refl| |]. }
  assert (pb_repeated f m !! length vs0 = Some v) as Hi by (rewrite Hm; by apply list_lookup_middle).
  destruct (decode_element f (length vs0) m l s stk v) as (l1 & lv & E1 & Hs1 & Hw1 & Hv1); [done..|].
  pose proof (value_not_nil _ _ _ _ _ _ Hv1) as Hnil.
  pose proof (writes_grows _ _ _ _ _ Hs1 Hw1) as Hg1.
  destruct (IH (vs0 ++ [v]) l1 (lvs ++ [lv])) as (l' & lvs' & E & Hg & Ha' & Hf).
  { by rewrite Hm, <-app_assoc. } { rewrite !length_app. simpl. lia. } { done. } { congruence. }
  { by apply Hg1. }
  { eapply array_snoc; [done| |done..|by rewrite Hlen].
    revert Hmax. rewrite Hm. unfold len. rewrite !length_app. simpl. lia. }
  rewrite length_app in E. simpl in E. replace (length vs0 + 1)%nat with (S (length vs0)) in E by lia.
  exists l', (lv :: lvs'). simpl. rewrite E1, bind_ok, E. split; [done|].
  split; [by eapply grows_trans|]. rewrite <-app_assoc in Ha'. split; [done|]. constructor.
  - eapply value_frame; [|exact Hv1]. intros u Hu. split; [by eapply created_grows|]. destruct Hu as (Hu1 & Hu2 & _).
    intros k. apply Hg; [done|]. by intros ->.
  - eapply Forall2_impl; [exact Hf|]. intros lv' v'. apply value_weaken, Hg1.
Qed.

Lemma decode_repeated f m l t stk :
  is_repeated f = true → len (pb_repeated f m) <= 2 ^ 53 →
  Forall (value_ok (message_ok d) f) (pb_repeated f m) →
  lua_stack l = LTable t :: stk → lua_live t l →
  decodes_field f m l t (decodeField decode f m l).
Proof.
  intros Hr Hlen Hok Hs Ht. unfold decodeField. rewrite Hr.
  destruct (write_table (decode_elements decode f (length (pb_repeated f m)) 0 m) true
    (λ l2 s, ∃ lvs, array l2 s lvs ∧ Forall2 (value_of (fields_of d l l2) l l2 f) lvs (pb_repeated f m))
    l (LString (field_name f)) t stk Hs Ht)
    as (l' & l2 & s & E & Hs' & Hw & Hc & (lvs & Ha & Hf) & Hsame).
  { intros l1 s Hs1 (Hc1 & Hc2 & _) He Hl1.
    destruct (decode_elements_ok f m s (LString (field_name f) :: LTable t :: stk) (pb_repeated f m) Hr Hok [] l1 [])
      as (l2 & lvs & E & Hg & Ha & Hf); [done..| |].
    { intros k v Hk Hv. rewrite He. split; [done|]. by intros (i & _ & Hi). }
    exists l2. split_and!; [done..|]. exists lvs. split; [done|].
    eapply Forall2_impl; [exact Hf|]. intros lv v. by apply value_weaken. }
  exists l', (LTable s). split_and!; [done..|]. unfold field_of. rewrite Hr.
  rewrite (wr_get _ _ _ _ _ Hw t _ Ht), decide_True by done.
  assert (∀ u, created l l2 u → created l l' u ∧ ∀ k, lua_rawget u k l' = lua_rawget u k l2) as Hfr.
  { intros u (Hu1 & Hu2 & Hu3). destruct (Hsame u) as (Hlive & Hmeta & Hget).
    split; [split_and!; [by apply Hlive|done|by rewrite Hmeta]|]. apply Hget. by intros ->. }
  exists s, lvs. split_and!; [done|by apply Hfr| | |].
  - eapply array_frame; [|exact Ha]. by apply Hfr.
  - unfold len. rewrite (Forall2_length _ _ _ Hf). exact Hlen.
  - eapply Forall2_impl; [exact Hf|]. intros lv v. by apply value_frame.
Qed.

(** ** The fields of a descriptor *)
Lemma decode_one f m l t stk :
  f ∈ pb_descriptor (pb_type m) → field_ok (message_ok d) f m → lua_stack l = LTable t :: stk → lua_live t l →
  decodes_field f m l t
    (if negb (is_repeated f) && negb (pb_has f m) then l' ← decodeFieldDefaultValue f l; Ok (true, l')
     else decodeField decode f m l).
Proof.
  unfold field_ok. intros Hin Hok Hs Ht. destruct (is_repeated f) eqn:Hr; simpl.
  - destruct Hok. by eapply decode_repeated.
  - destruct (pb_has f m) eqn:Hh; simpl.
    + unfold decodeField. rewrite Hr. by eapply decode_simple.
    + by eapply decode_default.
Qed.

Lemma decode_fields_ok m t stk fs : ∀ l,
  NoDup (field_name <$> fs) → (∀ f, f ∈ fs → f ∈ pb_descriptor (pb_type m)) →
  Forall (λ f, field_ok (message_ok d) f m) fs → lua_stack l = LTable t :: stk → lua_live t l →
  ∃ l', decode_fields decode fs m l = Ok (true, l') ∧ grows t l l' ∧
    (∀ k, (∀ f, f ∈ fs → k ≠ LString (field_name f)) → lua_rawget t k l' = lua_rawget t k l) ∧
    Forall (λ f, field_of (fields_of d l l') l l' f t m) fs.
Proof.
  induction fs as [|f fs IH]; intros l Hn Hin Hok Hs Ht.
  { exists l. by split_and!; [|apply grows_refl| |]. }
  apply NoDup_cons in Hn as [Hf Hn]. apply Forall_cons in Hok as [Hokf Hok].
  destruct (decode_one f m l t stk) as (l1 & v & E1 & Hs1 & Hw1 & Hfo); [apply Hin; by left|done..|].
  pose proof (writes_grows _ _ _ _ _ Hs1 Hw1) as Hg1.
  destruct (IH l1 Hn) as (l' & E & Hg & Hkeys & Hfs).
  { intros g Hg. apply Hin. by right. } { done. } { congruence. } { by apply Hg1. }
  assert (field_name f ∉ field_name <$> fs) as Hff by done.
  assert (lua_rawget t (LString (field_name f)) l' = lua_rawget t (LString (field_name f)) l1) as Hget.
  { apply Hkeys. intros g Hgin [= Eg]. apply Hff. rewrite Eg. by apply list_elem_of_fmap_2. }
  exists l'. split; [|split; [by eapply grows_trans|split]].
  - simpl. destruct (negb (is_repeated f) && negb (pb_has f m)); [|by rewrite E1].
    destruct (decodeFieldDefaultValue f l) as [l2| | |]; try done. simpl in E1. injection E1 as ->. exact E.
  - intros k Hk. rewrite Hkeys by (intros g Hgin; apply Hk; by right).
    rewrite (wr_get _ _ _ _ _ Hw1 _ _ Ht), decide_False; [done|]. intros [= E']. by apply (Hk f); [left|].
  - apply Forall_cons. split; [|eapply Forall_impl; [exact Hfs|]; intros g; apply field_of_weaken;
      [apply Hg1|intros ? ? ?; apply fields_of_weaken, Hg1]].
    assert (∀ u, created l l1 u → created l l' u ∧ ∀ k, lua_rawget u k l' = lua_rawget u k l1) as Hfr.
    { intros u Hu. split; [by eapply created_grows|]. destruct Hu as (Hu1 & Hu2 & _).
      intros k. apply Hg; [done|]. by intros ->. }
    eapply field_of_frame; [exact Hget|exact Hfr| |exact Hfo].
    intros ty' u sub Hfu Hu. eapply fields_of_frame; [exact Hfr|by apply Hfr|exact Hfu].
Qed.
End decode_field.

(** The decoder fills the table on the top with the message. *)
Lemma decodeDescriptor_ok :
  plain_types →
  ∀ d ty m l t stk, message_ok d ty m → lua_stack l = LTable t :: stk → lua_live t l →
  ∃ l', decodeDescriptor d ty m l = Ok (true, l') ∧ grows t l l' ∧ fields_of d l l' ty t m.
Proof.
  intros Hplain. induction d as [|d IH]; intros ty m l t stk Hok Hs Ht; [done|]. simpl in Hok |- *.
  destruct Hok as [<- Hok].
  destruct (decode_fields_ok (decodeDescriptor d) d IH Hplain m t stk (pb_descriptor (pb_type m)) l)
    as (l' & E & Hg & _ & Hf); [apply pb_names_nodup|done..|].
  by exists l'.
Qed.

(** ** Encoding *)

(** The fields other than [f] are left as they were. *)
Definition untouched f m m' : Prop := pb_type m' = pb_type m ∧
  ∀ g, g ∈ pb_descriptor (pb_type m) → field_name g ≠ field_name f →
  if is_repeated g then pb_repeated g m' = pb_repeated g m
  else pb_get g m' = pb_get g m ∧ (field_cpp_type g = CPPTYPE_MESSAGE → pb_mutable g m' = pb_mutable g m).

Lemma untouched_refl f m : untouched f m m.
Proof. split; [done|]. intros g _ _. by destruct (is_repeated g). Qed.

Lemma untouched_trans f m1 m2 m3 : untouched f m1 m2 → untouched f m2 m3 → untouched f m1 m3.
Proof.
  intros [T1 U1] [T2 U2]. split; [congruence|]. intros g Hg Hne. specialize (U1 g Hg Hne).
  rewrite <-T1 in Hg. specialize (U2 g Hg Hne). destruct (is_repeated g); [congruence|].
  destruct U1 as [E1 M1], U2 as [E2 M2]. split; [congruence|]. intros Hm. rewrite M2, M1; done.
Qed.

Lemma add_untouched f v m : has_list f m → fits f v → untouched f m (pb_add f v m).
Proof.
  intros Hf Hv. split; [apply pb_type_add|]. intros g Hg Hne. destruct (is_repeated g) eqn:Hr.
  - by apply pb_repeated_add_ne.
  - split; [by apply pb_get_add|]. intros Hm. by apply pb_mutable_add.
Qed.

Lemma set_untouched f v m : plain_types → has_single f m → fits f v → untouched f m (pb_set f v m).
Proof.
  intros Hp Hf Hv. split; [apply pb_type_set|]. intros g Hg Hne. destruct (is_repeated g) eqn:Hr.
  - by apply pb_repeated_set.
  - assert (apart g f) as Ha by (split; [done|left; by apply (Hp _ _ Hg)]).
    split; [by apply pb_get_set_ne|]. intros Hm. by apply pb_mutable_set.
Qed.

Definition add_all f (ws : list (pb_value P)) m : P := foldl (λ m w, pb_add f w m) m ws.

Lemma add_all_ok f ws m : has_list f m → Forall (fits f) ws →
  pb_repeated f (add_all f ws m) = pb_repeated f m ++ ws ∧ untouched f m (add_all f ws m).
Proof.
  intros Hf Hws. revert m Hf. induction Hws as [|w ws Hw Hws IH]; intros m Hf.
  { rewrite app_nil_r. split; [done|apply untouched_refl]. }
  destruct (IH (pb_add f w m)) as [E U]; [by destruct Hf; split; [rewrite pb_type_add|]|].
  unfold add_all in *. simpl. rewrite E, pb_repeated_add, <-app_assoc by done. split; [done|].
  eapply untouched_trans; [|exact U]. by apply add_untouched.
Qed.

(** The entries of an array, in the order of a walk. *)
Lemma array_entries l s lvs :
  array l s lvs → len lvs <= 2 ^ 53 → Forall (λ lv, lv ≠ LNil) lvs → (lua_entries s l).*2 ≡ₚ lvs.
Proof.
  intros Ha Hlen Hnil. set (es := imap (λ i v, (LNumber (lua_of_integer (L:=L) (Z.of_nat i)), v)) lvs).
  assert (lua_entries s l ≡ₚ es) as ->.
  { apply NoDup_Permutation.
    - eapply NoDup_fmap_1, lua_entries_nodup.
    - apply NoDup_alt. intros i j [k v]. unfold es. rewrite !list_lookup_imap.
      intros (v1 & Hi & E1)%fmap_Some (v2 & Hj & E2)%fmap_Some. rewrite E1 in E2. injection E2 as Ek _.
      apply lookup_lt_Some in Hi, Hj. unfold len in Hlen. apply of_integer_inj in Ek; lia.
    - intros [k v]. rewrite lua_entries_spec. unfold es. rewrite list_elem_of_lookup. split.
      + intros (Hk & Hv & Hg). apply Ha in Hg as (i & -> & Hi); [|done..]. exists i.
        by rewrite list_lookup_imap, Hi.
      + intros (i & Hi). rewrite list_lookup_imap in Hi. apply fmap_Some in Hi as (w & Hi & [= -> ->]).
        assert (w ≠ LNil) by (by eapply Forall_lookup_1 in Hnil). split_and!; [done..|].
        apply Ha; [done..|]. by exists i. }
  unfold es. clear. induction lvs as [|v lvs IH] using rev_ind; [done|].
  by rewrite imap_app, fmap_app, IH.
Qed.

Section encode_field.
Context (encode : string → P → L → outcome (verdict * P * L)) (d : nat) (l0 l : L).
Local Abbreviation st vs := (lua_set_stack vs l).
Local Abbreviation same := (same_message d).
Context (Hplain : plain_types).
Context (Hencode : ∀ ty s sub, lua_metatable s l = false →
  fields_of d l0 l ty s sub ∨ (∀ k, lua_rawget s k l = LNil) ∧ sub = pb_new ty →
  ∃ m', (sub = m' ∨ same ty sub m') ∧ pb_type m' = ty ∧
    ∀ vs, encode ty (pb_new ty) (st (LTable s :: vs)) = Ok (Encoded, m', st (LTable s :: vs))).

Lemma st_push v vs : st (v :: vs) = lua_push v (st vs).
Proof. by rewrite push_set_stack. Qed.

Lemma st_pop v vs : lua_pop 1 (st (v :: vs)) = st vs.
Proof. by rewrite st_push, pop_push. Qed.

Lemma st_at_top v vs : lua_at (st (v :: vs)) (-1) = Some v.
Proof. by rewrite st_push, lua_at_top. Qed.

Lemma st_noneornil v vs : v ≠ LNil → lua_isnoneornil (st (v :: vs)) (-1) = false.
Proof.
  intros H. unfold lua_isnoneornil, lua_isnone, lua_isnil, test. rewrite st_at_top. by destruct v.
Qed.

Lemma st_gettable t k vs : lua_metatable t l = false →
  lua_gettable (lua_push k (st (LTable t :: vs))) = Ok (st (lua_rawget t k l :: LTable t :: vs)).
Proof.
  intros Hm. rewrite (lua_gettable_plain k t vs) by (rewrite ?lua_stack_set, ?lua_metatable_set_stack; done).
  by rewrite lua_rawget_set_stack, push_set_stack.
Qed.

(** A value on the top goes into the message, in either kind of field. *)
Lemma encode_repeated f lv v : is_repeated f = true → value_of (fields_of d l0 l) l0 l f lv v →
  ∃ w, same_value same f v w ∧ fits f w ∧
    ∀ m vs, encodeFieldRepeated encode f m (st (lv :: vs)) = Ok (Encoded, pb_add f w m, st (lv :: vs)).
Proof.
  intros Hr Hv. pose proof (value_not_nil _ _ _ _ _ _ Hv) as Hnil. unfold value_of in Hv.
  destruct (decide (field_cpp_type f = CPPTYPE_MESSAGE)) as [Hf|Hf].
  - rewrite Hf in Hv. destruct Hv as (s & sub & -> & -> & (_ & _ & Hmeta) & Hsub).
    destruct (Hencode _ _ _ Hmeta Hsub) as (m' & Hm & Ht & E). exists (PMessage m'). split_and!.
    { destruct Hm as [->|Hm]; [by left|right]. by exists sub, m'. }
    { unfold fits. by rewrite Hf. }
    intros m vs. unfold encodeFieldRepeated. rewrite Hr, st_noneornil, Hf by done. simpl. by rewrite E.
  - assert (reads f lv v) as [_ Hreads] by by destruct (field_cpp_type f). exists v. split; [by left|].
    split; [exact (scalar_fits _ _ _ _ (Hreads l))|].
    intros m vs. unfold encodeFieldRepeated. rewrite Hr, st_noneornil by done. simpl.
    destruct (field_cpp_type f); try done; by rewrite st_push, Hreads.
Qed.

Lemma encode_simple f lv v : is_repeated f = false → value_of (fields_of d l0 l) l0 l f lv v →
  ∃ w, same_value same f v w ∧ fits f w ∧
    ∀ m vs, (field_cpp_type f = CPPTYPE_MESSAGE → pb_mutable f m = pb_new (message_type f)) →
    encodeFieldSimple encode f m (st (lv :: vs)) = Ok (Encoded, pb_set f w m, st (lv :: vs)).
Proof.
  intros Hr Hv. pose proof (value_not_nil _ _ _ _ _ _ Hv) as Hnil. unfold value_of in Hv.
  destruct (decide (field_cpp_type f = CPPTYPE_MESSAGE)) as [Hf|Hf].
  - rewrite Hf in Hv. destruct Hv as (s & sub & -> & -> & (_ & _ & Hmeta) & Hsub).
    destruct (Hencode _ _ _ Hmeta Hsub) as (m' & Hm & Ht & E). exists (PMessage m'). split_and!.
    { destruct Hm as [->|Hm]; [by left|right]. by exists sub, m'. }
    { unfold fits. by rewrite Hf. }
    intros m vs Hmut. unfold encodeFieldSimple. rewrite Hr, st_noneornil, Hf by done. simpl.
    by rewrite (Hmut Hf), E.
  - assert (reads f lv v) as [_ Hreads] by by destruct (field_cpp_type f). exists v. split; [by left|].
    split; [exact (scalar_fits _ _ _ _ (Hreads l))|].
    intros m vs _. unfold encodeFieldSimple. rewrite Hr, st_noneornil by done. simpl.
    destruct (field_cpp_type f); try done; by rewrite st_push, Hreads.
Qed.

(** The loop over the rest of a table. *)
Lemma encode_elements_ok f s vs es ws :
  Forall2 (λ e w, ∀ m vs, encodeFieldRepeated encode f m (st (e.2 :: vs)) =
    Ok (Encoded, pb_add f w m, st (e.2 :: vs))) es ws →
  ∀ fuel k m, walked s l k es → (length es < fuel)%nat →
  encode_elements encode fuel f s Encoded m (st (k :: vs)) = Ok (Encoded, add_all f ws m, st vs).
Proof.
  induction 1 as [|[k' v] w es ws He Hes IH]; intros fuel k m Hw Hfuel;
    (destruct fuel as [|fuel]; [simpl in Hfuel; lia|]); simpl;
    rewrite (lua_next_walked s _ k _ vs (lua_stack_set _ _) (walked_set_stack _ _ _ _ _ Hw)), bind_ok,
      lua_set_stack_set; [done|].
  simpl in He. simpl. rewrite He, bind_ok, st_pop. apply IH; [by eapply walked_step|simpl in Hfuel; lia].
Qed.

Lemma encodeField_ok f t m m0 : field_of (fields_of d l0 l) l0 l f t m → lua_metatable t l = false →
  f ∈ pb_descriptor (pb_type m0) →
  (if is_repeated f then pb_repeated f m0 = []
   else field_cpp_type f = CPPTYPE_MESSAGE → pb_mutable f m0 = pb_new (message_type f)) →
  ∃ m1, untouched f m0 m1 ∧ same_field same f m m1 ∧
    ∀ vs, encodeField encode f m0 (st (LTable t :: vs)) = Ok (Encoded, m1, st (LTable t :: vs)).
Proof.
  intros Hf Hmeta Hd H0. unfold field_of in Hf. unfold encodeField, same_field.
  destruct (is_repeated f) eqn:Hr; last first.
  { destruct (encode_simple f _ _ Hr Hf) as (w & Hw & Hfit & E). exists (pb_set f w m0).
    split; [by apply set_untouched|]. split; [by rewrite pb_get_set|].
    intros vs. rewrite st_gettable, bind_ok, E by done. simpl. by rewrite st_pop. }
  destruct Hf as (s & lvs & Hget & _ & Ha & Hlen & Hvs).
  assert (Forall (λ lv, lv ≠ LNil) lvs) as Hnil.
  { apply Forall_forall. intros lv Hlv. apply list_elem_of_lookup in Hlv as [i Hi].
    destruct (Forall2_lookup_l _ _ _ _ _ Hvs Hi) as (v & _ & Hv). by eapply value_not_nil. }
  pose proof (array_entries _ _ _ Ha Hlen Hnil) as Hp.
  destruct (Permutation_Forall2 (symmetry Hp) Hvs) as (ws & Hws & Hvs').
  assert (∃ us, Forall2 (same_value same f) ws us ∧ Forall (fits f) us ∧
    Forall2 (λ e w, ∀ m vs, encodeFieldRepeated encode f m (st (e.2 :: vs)) =
      Ok (Encoded, pb_add f w m, st (e.2 :: vs))) (lua_entries s l) us) as (us & Hus & Hfits & Henc).
  { clear Hws. revert ws Hvs'. clear Hp. induction (lua_entries s l) as [|e es IH]; intros ws Hvs'.
    - apply Forall2_nil_inv_l in Hvs' as ->. by exists [].
    - apply Forall2_cons_inv_l in Hvs' as (v & ws' & Hv & Hvs' & ->).
      destruct (encode_repeated f _ _ Hr Hv) as (w & Hw & Hfit & E). destruct (IH _ Hvs') as (us & Hus & Hfits & Henc).
      exists (w :: us). split_and!; by constructor. }
  destruct (add_all_ok f us m0) as [Hadd Hun]; [done|done|]. exists (add_all f us m0). split; [done|]. split.
  - rewrite Hadd, H0. exists ws. split; [by symmetry|done].
  - intros vs. rewrite st_gettable, bind_ok, Hget, st_at_top, push_set_stack, lua_entries_set_stack by done.
    rewrite (encode_elements_ok f s _ _ _ Henc) by (simpl; done || lia). simpl. by rewrite st_pop.
Qed.

Lemma same_field_eq f m m1 m2 :
  (if is_repeated f then pb_repeated f m2 = pb_repeated f m1 else pb_get f m2 = pb_get f m1) →
  same_field same f m m1 → same_field same f m m2.
Proof. unfold same_field. destruct (is_repeated f); by intros ->. Qed.

Lemma encode_fields_ok t m fs : lua_metatable t l = false → ∀ m0,
  NoDup (field_name <$> fs) → Forall (λ f, field_of (fields_of d l0 l) l0 l f t m) fs →
  (∀ f, f ∈ fs → f ∈ pb_descriptor (pb_type m0)) →
  Forall (λ f, if is_repeated f then pb_repeated f m0 = []
    else field_cpp_type f = CPPTYPE_MESSAGE → pb_mutable f m0 = pb_new (message_type f)) fs →
  ∃ m', Forall (λ f, same_field same f m m') fs ∧ pb_type m' = pb_type m0 ∧
    (∀ g, g ∈ pb_descriptor (pb_type m0) → field_name g ∉ field_name <$> fs →
      if is_repeated g then pb_repeated g m' = pb_repeated g m0 else pb_get g m' = pb_get g m0) ∧
    ∀ vs, encode_fields encode fs m0 (st (LTable t :: vs)) = Ok (Encoded, m', st (LTable t :: vs)).
Proof.
  intros Hmeta. induction fs as [|f fs IH]; intros m0 Hn Hf Hd H0.
  { exists m0. split_and!; [done..| |done]. intros g _ _. by destruct (is_repeated g). }
  apply NoDup_cons in Hn as [Hff Hn]. apply Forall_cons in Hf as [Hf Hfs].
  apply Forall_cons in H0 as [Hf0 H0]. assert (f ∈ pb_descriptor (pb_type m0)) as Hfd by (apply Hd; by left).
  destruct (encodeField_ok f t m m0 Hf Hmeta Hfd Hf0) as (m1 & [Ht U] & Hsame & E).
  assert (∀ g, g ∈ fs → field_name g ≠ field_name f) as Hne.
  { intros g Hg Eg. apply Hff. rewrite <-Eg. by apply list_elem_of_fmap_2. }
  destruct (IH m1 Hn Hfs) as (m' & Hall & Ht' & Hrest & E').
  { intros g Hg. rewrite Ht. apply Hd. by right. }
  { apply Forall_forall. intros g Hg. rewrite Forall_forall in H0. specialize (H0 g Hg).
    assert (g ∈ pb_descriptor (pb_type m0)) as Hgd by (apply Hd; by right).
    specialize (U g Hgd (Hne g Hg)). destruct (is_repeated g); [by rewrite U|].
    intros Hm. destruct U as [_ U]. by rewrite U, H0. }
  rewrite Ht in Hrest, Ht'. exists m'. split; [apply Forall_cons; split; [|done]|split_and!; [done| |]].
  - eapply same_field_eq; [|exact Hsame]. by apply Hrest.
  - intros g Hgd Hg. apply not_elem_of_cons in Hg as [Hg1 Hg2]. specialize (Hrest g Hgd Hg2).
    specialize (U g Hgd Hg1). destruct (is_repeated g); [congruence|]. destruct U. congruence.
  - intros vs. simpl. by rewrite E, bind_ok, E'.
Qed.

(** An empty table leaves the message as it was. *)
Lemma encode_fields_empty s fs m0 vs : lua_metatable s l = false → (∀ k, lua_rawget s k l = LNil) →
  encode_fields encode fs m0 (st (LTable s :: vs)) = Ok (Encoded, m0, st (LTable s :: vs)).
Proof.
  intros Hmeta He. induction fs as [|f fs IH]; [done|]. simpl. unfold encodeField.
  destruct (is_repeated f) eqn:Hr; rewrite st_gettable, bind_ok, He by done.
  - rewrite st_at_top, bind_ok. simpl. by rewrite st_pop.
  - unfold encodeFieldSimple, lua_isnoneornil, lua_isnone, lua_isnil, test. rewrite Hr, st_at_top. simpl.
    by rewrite st_pop.
Qed.
End encode_field.

Lemma encodeDescriptor_ok d l0 l ty s sub : plain_types → lua_metatable s l = false →
  fields_of d l0 l ty s sub ∨ (∀ k, lua_rawget s k l = LNil) ∧ sub = pb_new ty →
  ∃ m', (sub = m' ∨ same_message d ty sub m') ∧ pb_type m' = ty ∧ ∀ vs,
    encodeDescriptor (S d) ty (pb_new ty) (lua_set_stack (LTable s :: vs) l) =
      Ok (Encoded, m', lua_set_stack (LTable s :: vs) l).
Proof.
  intros Hplain. revert ty s sub. induction d as [|d IH]; intros ty s sub Hmeta [Hf|[He ->]]; [done|..].
  - exists (pb_new ty). split_and!; [by left|apply pb_type_new|]. intros vs. simpl. unfold lua_istable, test.
    rewrite st_at_top. by apply encode_fields_empty.
  - simpl in Hf. destruct (encode_fields_ok (encodeDescriptor (S d)) d l0 l Hplain IH s sub (pb_descriptor ty) Hmeta (pb_new ty))
      as (m' & Hall & Ht & _ & E); [apply pb_names_nodup|done|by rewrite pb_type_new| |].
    { apply Forall_forall. intros f Hin. destruct (is_repeated f) eqn:Hr; [by eapply pb_repeated_new|].
      intros Hm. by eapply pb_mutable_new. }
    exists m'. split_and!; [by right|by rewrite Ht, pb_type_new|]. intros vs. cbn [encodeDescriptor].
    unfold lua_istable, test. rewrite st_at_top. apply E.
  - exists (pb_new ty). split_and!; [by left|apply pb_type_new|]. intros vs. cbn [encodeDescriptor].
    unfold lua_istable, test. rewrite st_at_top. by apply encode_fields_empty.
Qed.
End round_trip.

(** Claim C16.  A message whose values survive the conversion (integers of 64 bits
    up to [2^53], strings without a NUL, a bounded depth), decoded into a new Lua
    table and encoded again, gives the same message: the singular fields are equal
    (those not set read as zero), the elements of a repeated field are the same up
    to the order in which Lua walks a table, and so for the submessages at every
    depth.  This is for message types without oneofs whose fields have no default
    but zero, as in proto3: a message type with a oneof does not survive, see
    [oneof_is_lost].  The decoder leaves the table on the stack and changes no
    other table; the encoder leaves the Lua state unchanged; the fuel needed is the
    nesting depth of the message. *)
Theorem decoded_message_encodes {L P} `{!LuaState L, !LuaStateLaws L, !LuaTables L, !LuaTablesLaws L}
    `{!Protobuf P, !ProtobufLaws P} d ty (m : P) (l : L) :
  plain_types (P:=P) → message_ok d ty m →
  ∃ l' t m', decodeDescriptor d ty m (lua_newtable l) = Ok (true, l') ∧
    lua_stack l' = LTable t :: lua_stack l ∧
    (∀ s k, lua_live s l → lua_rawget s k l' = lua_rawget s k l) ∧
    encodeDescriptor (S d) ty (pb_new ty) l' = Ok (Encoded, m', l') ∧
    (m = m' ∨ same_message d ty m m').
Proof.
  intros Hplain Hok. destruct (newtable_ok l) as (t & Hs & (Hc1 & Hc2 & Hc3) & He & Hl & Hg & Hm).
  destruct (decodeDescriptor_ok Hplain d ty m _ t _ Hok Hs Hc1) as (l' & E & [Hs' Hl' Hg' Hm'] & Hf).
  destruct (encodeDescriptor_ok d _ l' ty t m Hplain ltac:(by rewrite Hm') (or_introl Hf)) as (m' & Hsame & _ & E').
  rewrite Hs in Hs'. exists l', t, m'. specialize (E' (lua_stack l)). rewrite <-Hs', lua_set_stack_id in E'.
  split_and!; [done|done| |done|done].
  intros s k Hsl. rewrite Hg' by (auto; by intros ->). by apply Hg.
Qed.

(** ** Examples *)
Module RoundDemo.
Import ProtobufDemo.PbDemo.

Lemma types_plain : plain_types (P:=message).
Proof.
  intros ty f Hf. simpl in Hf. split; [|done]. revert Hf. unfold descriptor.
  repeat case_decide; rewrite ?elem_of_cons, ?elem_of_nil; naive_solver.
Qed.

Ltac each_field := repeat (apply Forall_cons_2); try apply Forall_nil_2.

Lemma inner_ok : message_ok 1 "Ping" inner.
Proof.
  split; [done|]. change (Forall (λ f, field_ok (message_ok 0) f inner) (descriptor "Ping")).
  cbv [descriptor]. simpl decide. cbv iota.
  each_field; unfold field_ok; cbn -[message_ok len]; try done; (split; [done|constructor]).
Qed.

Lemma ping_ok : message_ok 2 "Ping" ping.
Proof.
  split; [done|]. change (Forall (λ f, field_ok (message_ok 1) f ping) (descriptor "Ping")).
  cbv [descriptor]. simpl decide. cbv iota.
  each_field; unfold field_ok; cbn -[message_ok len]; try done.
  - split; [done|]. each_field; unfold value_ok, scalar_ok; simpl; lia.
  - split; [done|]. each_field. exists inner. split; [done|apply inner_ok].
Qed.


Lemma new_message_ok name : message_ok 1 name (new name).
Proof.
  simpl. split; [done|]. unfold descriptor. repeat case_decide; each_field; unfold field_ok; simpl; try done;
    (split; [done|constructor]).
Qed.

Lemma parsed_ok name bs : message_ok 1 name (parsed name bs).
Proof.
  unfold parsed. case_decide as Hn; [subst name|apply new_message_ok]. split; [done|].
  change (Forall (λ f, field_ok (message_ok 0) f (note (c_str (String.string_of_list_byte bs)))) (descriptor "Note")).
  cbv [descriptor]. simpl decide. cbv iota. each_field. apply c_str_idem.
Qed.
End RoundDemo.

Lemma decoded_message_encodes_witness :
  let l := Concrete.init in
  ∃ l' t m', decodeDescriptor 2 "Ping" PbDemo.ping (lua_newtable l) = Ok (true, l') ∧
    lua_stack l' = [LTable t] ∧ encodeDescriptor 3 "Ping" (pb_new "Ping") l' = Ok (Encoded, m', l') ∧
    (PbDemo.ping = m' ∨ same_message 2 "Ping" PbDemo.ping m').
Proof.
  intros l. destruct (decoded_message_encodes 2 "Ping" PbDemo.ping l RoundDemo.types_plain RoundDemo.ping_ok)
    as (l' & t & m' & E & Hs & _ & E' & Hm).
  exists l', t, m'. split_and!; [exact E|exact Hs|exact E'|exact Hm].
Defined.

(** The message of the other direction, computed: the fields that were not set
    have been set to their defaults, and the empty submessage made. *)
Example ping_again :
  match decodeDescriptor 2 "Ping" PbDemo.ping (lua_newtable Concrete.init) with
  | Ok (_, l) =>
      match encodeDescriptor 3 "Ping" (pb_new "Ping") l with
      | Ok (rc, m, _) => (rc, length (pb_repeated (fld "items" true CPPTYPE_INT32 EmptyString) m),
          pb_has (fld "pong" false CPPTYPE_MESSAGE "Pong") m,
          pb_get (fld "id" false CPPTYPE_INT64 EmptyString) m) = (Encoded, 2%nat, true, PInt (2 ^ 53))
      | _ => False
      end
  | _ => False
  end.
Proof. vm_compute. reflexivity. Qed.

(** The decoder gives the member of a oneof that is not set its default, and
    the encoder then sets that one last: the member that was set is cleared. *)
Example oneof_is_lost :
  let pb := OneofDemo.pick_protobuf in
  pb_get (OneofDemo.member "a") OneofDemo.pick_a = PInt 5 ∧
  match decodeDescriptor 1 "Pick" OneofDemo.pick_a (lua_newtable Concrete.init) with
  | Ok (_, l) =>
      match encodeDescriptor 2 "Pick" (pb_new "Pick") l with
      | Ok (rc, m, _) => (rc, pb_has (OneofDemo.member "a") m, pb_get (OneofDemo.member "a") m,
          pb_has (OneofDemo.member "b") m) = (Encoded, false, PInt 0, true)
      | _ => False
      end
  | _ => False
  end.
Proof. vm_compute. split; reflexivity. Qed.
