(* ===== verification/ProtoSafety.v ===== *)
(** * What the converter does to the Lua state, and when it returns

    Whatever the tables hold, encoding changes no table and no slot of the stack
    that was there before, as long as no table has a metatable; when it succeeds
    the stack is the one it found, when it fails values may be left on top.  The
    key the loop over an array walks with may be lost among those values, and
    [lua_next] then raises a Lua error: types in which this cannot happen, and
    which do not nest themselves, are [steady].  On them encoder and decoder
    return. *)

From S2P Require Import Prelude CString LuaValue LuaApi LuaTable Protobuf ProtobufDemo ProtoConvert ProtoRoundTrip.

(** [ends fin m Q]: the computation returns with a result in [Q], or else it need
    not return. *)
Definition ends (fin : bool) {A} (m : outcome A) (Q : A → Prop) : Prop :=
  match m with Ok a => Q a | _ => fin = false end.

Lemma ends_bind fin {A B} (m : outcome A) (k : A → outcome B) P Q :
  ends fin m P → (∀ a, P a → ends fin (k a) Q) → ends fin (m ≫= k) Q.
Proof. destruct m; simpl; auto. Qed.

Lemma ends_mono fin {A} (m : outcome A) (P Q : A → Prop) : ends fin m P → (∀ a, P a → Q a) → ends fin m Q.
Proof. destruct m; simpl; auto. Qed.

(** The messages of the type nest at most [d] deep, and no element of a list of
    messages has a list of messages in it; [elem]: the type is that of such an
    element. *)
Fixpoint steady {P} `{!Protobuf P} (d : nat) (elem : bool) (ty : string) : Prop :=
  match d with
  | O => False
  | S d => Forall (λ f, field_cpp_type f = CPPTYPE_MESSAGE →
      (is_repeated f = true → elem = false) ∧ steady d (elem || is_repeated f) (message_type f)) (pb_descriptor ty)
  end.

Lemma steady_mono {P} `{!Protobuf P} d elem ty : steady d elem ty → steady (S d) elem ty.
Proof.
  revert elem ty. induction d as [|d IH]; intros elem ty H; [done|]. simpl in H.
  eapply Forall_impl; [exact H|]. intros f Hf Hm. destruct (Hf Hm) as [? Hs]. split; [done|by apply IH].
Qed.

Section encode_frame.
Context {L P : Type} `{!LuaState L, !LuaStateLaws L, !LuaTables L, !LuaTablesLaws L, !Protobuf P}.
Context (fin : bool).
Implicit Types (l : L) (m : P) (f : field_descriptor).

(** The state [l'] is [l] with the stack [junk ++ stk]. *)
Definition leaves (stk : list lua_value) l (b : bool) l' : Prop :=
  ∃ junk, l' = lua_set_stack (junk ++ stk) l ∧ (b = true → junk = []).

(** Which verdicts leave the stack as it was; [quiet]: a refusal does, too. *)
Definition balanced (quiet : bool) (rc : verdict) : bool :=
  match rc with Encoded => true | Refused => quiet | Threw => false end.

Lemma leaves_self l b : leaves (lua_stack l) l b l.
Proof. exists []. simpl. by rewrite lua_set_stack_id. Qed.

Lemma leaves_set stk vs l b l' : leaves stk (lua_set_stack vs l) b l' → leaves stk l b l'.
Proof. intros (junk & -> & Hj). exists junk. by rewrite lua_set_stack_set. Qed.

Lemma leaves_plain stk l b l' : leaves stk l b l' → plain_tables l → plain_tables l'.
Proof. intros (junk & -> & _). apply plain_set_stack. Qed.

(** Popping one slot off a stack with the slot [v] on top of [stk]. *)
Lemma leaves_pop v stk l b l' : leaves (v :: stk) l b l' → leaves stk l b (lua_pop 1 l').
Proof.
  intros (junk & -> & Hj). unfold lua_pop. rewrite lua_stack_set, lua_set_stack_set.
  destruct junk as [|w junk]; [by exists []|]. exists (junk ++ [v]). rewrite <-app_assoc.
  split; [done|]. intros ->. by discriminate Hj.
Qed.

Lemma leaves_popped v stk l q rc l' :
  leaves (v :: stk) l (balanced q rc) l' → leaves stk l (balanced q rc) (popped rc l').
Proof.
  destruct rc; [apply leaves_pop..|]. intros (junk & -> & _). exists (junk ++ [v]).
  by rewrite <-app_assoc.
Qed.

Section field.
Context (d : nat) (encode : string → P → L → outcome (verdict * P * L)).
Context (Hencode : ∀ elem ty m l, plain_tables l → (fin = true → steady d elem ty) →
  ends fin (encode ty m l) (λ '(rc, _, l'), leaves (lua_stack l) l (balanced (fin && elem) rc) l')).

(** The top slot may be turned into a string. *)
Lemma scalar_leaves f l v stk : lua_stack l = v :: stk → field_cpp_type f ≠ CPPTYPE_MESSAGE →
  ∃ o w l', scalar_of_top (P:=P) f l = Ok (o, l') ∧ leaves (w :: stk) l true l'.
Proof.
  intros Hs Hf. assert (leaves (v :: stk) l true l) as Hl by (rewrite <-Hs; apply leaves_self).
  unfold scalar_of_top, lua_tolstring. rewrite Hs.
  destruct (field_cpp_type f), v; try done; eexists _, _, _; (split; [done|]); try exact Hl.
  by exists [].
Qed.

(** What a step on the value at the top leaves. *)
Definition value_left f q stk l : verdict * P * L → Prop :=
  λ '(rc, _, l'), (∃ w, leaves (w :: stk) l (balanced q rc) l') ∧
    (rc = Refused → field_cpp_type f = CPPTYPE_MESSAGE).

Lemma scalar_left f l v stk q m (g : pb_value P → P) :
  lua_stack l = v :: stk → field_cpp_type f ≠ CPPTYPE_MESSAGE →
  ends fin ('(value, l) ← scalar_of_top f l;
            Ok (match value with Some v => (Encoded, g v, l) | None => (Threw, m, l) end)) (value_left f q stk l).
Proof.
  intros Hs Hf. destruct (scalar_leaves f l v stk Hs Hf) as (o & w & l' & -> & (junk & -> & Hj)). simpl.
  destruct o; simpl; (split; [|done]); exists w, junk; auto.
Qed.

(** Both kinds of field do the same with the value at the top. *)
Definition encode_value f (g : pb_value P → P) sub m l : outcome (verdict * P * L) :=
  if negb (lua_isnoneornil l (-1)) then
    match field_cpp_type f with
    | CPPTYPE_MESSAGE =>
        '(rc, submessage, l) ← encode (message_type f) sub l;
        Ok (rc, g (PMessage submessage), l)
    | _ =>
        '(value, l) ← scalar_of_top f l;
        Ok (match value with Some v => (Encoded, g v, l) | None => (Threw, m, l) end)
    end
  else Ok (Encoded, m, l).

Lemma value_leaves f g sub m l v stk elem : lua_stack l = v :: stk → plain_tables l →
  (fin = true → field_cpp_type f = CPPTYPE_MESSAGE → steady d elem (message_type f)) →
  ends fin (encode_value f g sub m l) (value_left f (fin && elem) stk l).
Proof.
  intros Hs Hp Hst. unfold encode_value.
  assert (∃ w, leaves (w :: stk) l true l) as Hl by (exists v; rewrite <-Hs; apply leaves_self).
  destruct (negb _); [|by split].
  destruct (decide (field_cpp_type f = CPPTYPE_MESSAGE)) as [Hf|Hf]; last first.
  { pose proof (scalar_left f l v stk (fin && elem) m g Hs Hf). by destruct (field_cpp_type f). }
  rewrite Hf. eapply ends_bind; [apply (Hencode elem); auto|]. intros [[rc m'] l'] H. simpl.
  split; [|done]. rewrite Hs in H. by exists v.
Qed.

Lemma elements_leaves fuel f t stk : is_repeated f = true →
  (fin = true → field_cpp_type f = CPPTYPE_MESSAGE → steady d true (message_type f)) →
  ∀ rc m l pre k es, plain_tables l → lua_stack l = pre ++ k :: stk →
  rc ≠ Threw → (rc = Encoded → pre = []) → (rc = Refused → field_cpp_type f = CPPTYPE_MESSAGE) →
  (fin = true → pre = [] ∧ walked t l k es ∧ (length es < fuel)%nat) →
  ends fin (encode_elements encode fuel f t rc m l)
    (λ '(rc, _, l'), leaves stk l (balanced false rc) l' ∧ (rc = Refused → field_cpp_type f = CPPTYPE_MESSAGE)).
Proof.
  intros Hr Hst. induction fuel as [|fuel IH]; intros rc m l pre k es Hp Hs Hthrew Hpre Hrc Hfin.
  { simpl. destruct fin; [|done]. destruct Hfin as (_ & _ & H); [done|lia]. }
  simpl. assert (∃ k0 pre', lua_stack l = k0 :: pre' ++ stk ∧ (rc = Encoded → pre' = []) ∧
      (fin = true → entries_from k0 (lua_entries t l) = Some es ∧ walked t l k0 es ∧ pre' = []))
    as (k0 & pre' & Hs' & Hpre' & Hfin').
  { destruct pre as [|k0 pre].
    - exists k, []. split_and!; [done|done|]. intros H. destruct (Hfin H) as (_ & Hw & _).
      split_and!; [by apply entries_from_walked|done..].
    - exists k0, (pre ++ [k]). rewrite <-app_assoc. split; [done|]. split; [intros ->; by discriminate Hpre|].
      intros H. by destruct (Hfin H). }
  unfold lua_next, lua_next_raises. rewrite Hs'.
  destruct (entries_from k0 _) as [[|[k' v] es']|] eqn:Ee; rewrite bind_ok; simpl;
    [| |destruct fin; [by destruct (Hfin' eq_refl) as (? & _)|done]].
  - split; [|by destruct rc; auto]. exists pre'. destruct rc; [|done..]. by rewrite Hpre'.
  - destruct rc; [|split; [by exists (v :: k' :: pre')|auto]|done].
    rewrite Hpre' by done. simpl. set (l1 := lua_set_stack (v :: k' :: stk) l).
    unfold encodeFieldRepeated. rewrite Hr.
    eapply ends_bind; [apply (value_leaves f (λ v, pb_add f v m) _ m l1 v (k' :: stk) true);
      [apply lua_stack_set|by apply plain_set_stack|done]|].
    intros [[rc m'] l2] [(w & Hl) Hm].
    assert (plain_tables l2) as Hp2 by (eapply leaves_plain; [exact Hl|by apply plain_set_stack]).
    destruct rc; last (simpl; split; [|done]; destruct Hl as (junk & -> & _); exists (junk ++ [w; k']);
      rewrite <-app_assoc; by unfold l1; rewrite lua_set_stack_set).
    all: apply leaves_pop in Hl as (junk & E & Hj); unfold l1 in E; rewrite lua_set_stack_set in E; rewrite E;
      eapply ends_mono;
      [eapply (IH _ _ _ junk k' es'); [by apply plain_set_stack|by rewrite lua_stack_set|done|by intros; apply Hj|by auto|]
      |intros [[rc' m''] l''] [H ?]; split; [by eapply leaves_set|done]].
    all: intros Hf; destruct (Hfin Hf) as (_ & _ & Hlen), (Hfin' Hf) as (He & Hw & _); injection He as <-.
    all: rewrite Hf in Hj; split_and!; [by apply Hj|apply walked_set_stack; by eapply walked_step|simpl in Hlen; lia].
Qed.

Lemma field_leaves f elem m l t stk : plain_tables l → lua_stack l = LTable t :: stk →
  (fin = true → field_cpp_type f = CPPTYPE_MESSAGE →
    (is_repeated f = true → elem = false) ∧ steady d (elem || is_repeated f) (message_type f)) →
  ends fin (encodeField encode f m l) (λ '(rc, _, l'), leaves (lua_stack l) l (balanced (fin && elem) rc) l').
Proof.
  intros Hp Hs Hst. unfold encodeField. rewrite (lua_gettable_plain _ _ _ _ Hs (Hp t)), !bind_ok.
  generalize (lua_rawget t (LString (field_name f)) l). intros v. pose proof (stack_push v l) as Hs1.
  assert (plain_tables (lua_push v l)) as Hp1 by by apply plain_set_stack.
  destruct (is_repeated f) eqn:Hr.
  - eapply ends_bind with (P := λ '(rc, _, l'), leaves (v :: lua_stack l) (lua_push v l) (balanced false rc) l' ∧
      (rc = Refused → field_cpp_type f = CPPTYPE_MESSAGE)).
    { rewrite lua_at_top. destruct v as [| | | |u| | | | |];
        try (simpl; split; [|done]; rewrite <-Hs1; apply leaves_self).
      eapply ends_mono; [eapply (elements_leaves _ f u _ Hr) with (pre := []) (es := lua_entries u (lua_push (LTable u) l));
        try done|].
      - intros Hf Hm. destruct (Hst Hf Hm) as [_ H]. by rewrite orb_true_r in H.
      - by apply plain_set_stack.
      - by rewrite stack_push, Hs1.
      - intros _. split_and!; [done| |apply Nat.lt_succ_diag_r]. simpl. apply lua_entries_set_stack.
      - intros [[rc m'] l'] [H ?]. split; [by eapply leaves_set|done]. }
    intros [[rc m'] l'] [Hl Hm]. simpl. apply leaves_set with (vs := v :: lua_stack l), (leaves_popped v).
    destruct rc; [done| |done]. simpl in Hl |- *. destruct fin; [|done]. destruct (Hst eq_refl (Hm eq_refl)) as [-> _]; done.
  - unfold encodeFieldSimple. rewrite Hr. change (negb false) with true. cbv iota.
    eapply ends_bind; [apply (value_leaves f (λ v, pb_set f v m) _ m _ v (lua_stack l) elem); [done|done|]|].
    { intros Hf Hm. destruct (Hst Hf Hm) as [_ H]. by rewrite orb_false_r in H. }
    intros [[rc m'] l'] [(w & Hl) _]. simpl. eapply leaves_set, leaves_popped, Hl.
Qed.

Lemma fields_leaves elem fs m l t stk : plain_tables l → lua_stack l = LTable t :: stk →
  (fin = true → Forall (λ f, field_cpp_type f = CPPTYPE_MESSAGE →
    (is_repeated f = true → elem = false) ∧ steady d (elem || is_repeated f) (message_type f)) fs) →
  ends fin (encode_fields encode fs m l) (λ '(rc, _, l'), leaves (lua_stack l) l (balanced (fin && elem) rc) l').
Proof.
  intros Hp Hs. revert m. induction fs as [|f fs IH]; intros m Hst; simpl; [apply leaves_self|].
  eapply ends_bind; [apply (field_leaves f elem m l t stk); [done..|]|].
  { intros Hf. by specialize (Hst Hf); apply Forall_cons in Hst as [? _]. }
  intros [[rc m1] l1] Hl. destruct rc; [|exact Hl..]. destruct Hl as (junk & -> & Hj). rewrite Hj by done.
  simpl. rewrite lua_set_stack_id. apply IH. intros Hf. by specialize (Hst Hf); apply Forall_cons in Hst as [_ ?].
Qed.
End field.

Lemma encodeDescriptor_leaves d elem ty m l : plain_tables l → (fin = true → steady d elem ty) →
  ends fin (encodeDescriptor d ty m l) (λ '(rc, _, l'), leaves (lua_stack l) l (balanced (fin && elem) rc) l').
Proof.
  revert elem ty m l. induction d as [|d IH]; intros elem ty m l Hp Hst; [by destruct fin; [destruct (Hst eq_refl)|]|].
  simpl. destruct (lua_istable l (-1)) eqn:Et; simpl; [|apply leaves_self].
  unfold lua_istable, test, lua_at in Et. simpl in Et.
  destruct (lua_stack l) as [|[]] eqn:Es; try done. rewrite <-Es. by eapply fields_leaves.
Qed.
End encode_frame.

(** ** The decoder returns *)
Section decode_returns.
Context {L P : Type} `{!LuaState L, !LuaStateLaws L, !LuaTables L, !LuaTablesLaws L, !Protobuf P, !ProtobufLaws P}.
Implicit Types (l : L) (m : P) (f : field_descriptor).

(** The operation returns true and leaves the stack as it is. *)
Definition decodes l (op : outcome (bool * L)) : Prop :=
  ∃ l', op = Ok (true, l') ∧ lua_stack l' = lua_stack l.

Lemma settable_stack l v k t stk : lua_stack l = v :: k :: LTable t :: stk →
  ∃ l', lua_settable_3 l = Ok l' ∧ lua_stack l' = LTable t :: stk.
Proof. intros Hs. destruct (settable_ok l v k t stk Hs) as (l' & E & Hs' & _). by exists l'. Qed.

Lemma newtable_stack l : ∃ s, lua_stack (lua_newtable l) = LTable s :: lua_stack l.
Proof. destruct (newtable_ok l) as (s & Hs & _). by exists s. Qed.

Lemma scalar_pushes f (v : pb_value P) : fits f v → field_cpp_type f ≠ CPPTYPE_MESSAGE →
  ∃ lv, lua_of_scalar (L:=L) f v = Ok lv.
Proof. unfold fits, lua_of_scalar. intros Hf Hm. destruct (field_cpp_type f), v; try done; by eexists. Qed.

(** A key, the table made for it by [fill], and the assignment. *)
Lemma decodes_table (fill : L → outcome (bool * L)) l k t stk : lua_stack l = LTable t :: stk →
  (∀ l1 s, lua_stack l1 = LTable s :: k :: lua_stack l → decodes l1 (fill l1)) →
  decodes l ('(rc, l1) ← fill (lua_newtable (lua_push k l)); l1 ← lua_settable_3 l1; Ok (rc, l1)).
Proof.
  intros Hs Hfill. destruct (newtable_stack (lua_push k l)) as (s & Hs1). rewrite stack_push in Hs1.
  destruct (Hfill _ s Hs1) as (l2 & -> & Hs2). rewrite bind_ok. rewrite Hs1, Hs in Hs2.
  destruct (settable_stack l2 _ _ _ _ Hs2) as (l' & -> & Hs'). exists l'. by rewrite Hs', Hs.
Qed.

Lemma decodes_value l v k t stk : lua_stack l = LTable t :: stk →
  decodes l (l' ← lua_settable_3 (lua_push v (lua_push k l)); Ok (true, l')).
Proof.
  intros Hs. destruct (settable_stack (lua_push v (lua_push k l)) v k t stk) as (l' & -> & Hs').
  { by rewrite !stack_push, Hs. }
  exists l'. by rewrite Hs', Hs.
Qed.

Section field.
Context (decode : string → P → L → outcome (bool * L)) (good : string → Prop).
Context (Hdecode : ∀ ty m l t stk, good ty → pb_type m = ty → lua_stack l = LTable t :: stk →
  decodes l (decode ty m l)).
Local Abbreviation good_field f := (field_cpp_type f = CPPTYPE_MESSAGE → good (message_type f)).

Lemma default_decodes f l t stk : lua_stack l = LTable t :: stk →
  ∃ l', decodeFieldDefaultValue f l = Ok l' ∧ lua_stack l' = lua_stack l.
Proof.
  intros Hs. unfold decodeFieldDefaultValue.
  pose proof (λ v, decodes_value l v (LString (field_name f)) t stk Hs) as Hv.
  pose proof (decodes_table (λ l, Ok (true, l)) l (LString (field_name f)) t stk Hs ltac:(by eexists)) as Ht.
  assert (∀ o : outcome L, decodes l (l' ← o; Ok (true, l')) → ∃ l', o = Ok l' ∧ lua_stack l' = lua_stack l) as Ho.
  { intros [l1| | |] (l' & E & Hl); try done. injection E as ->. by exists l'. }
  destruct (is_repeated f); [by apply Ho|]. destruct (field_cpp_type f); by apply Ho.
Qed.

Lemma element_decodes f i m l t stk v : is_repeated f = true → good_field f → pb_repeated f m !! i = Some v →
  fits f v → lua_stack l = LTable t :: stk → decodes l (decodeFieldRepeated decode f i m l).
Proof.
  intros Hr Hg Hi Hv Hs. unfold decodeFieldRepeated, lua_pushinteger. rewrite Hr, Hi.
  destruct (decide (field_cpp_type f = CPPTYPE_MESSAGE)) as [Hf|Hf].
  - unfold fits in Hv. rewrite Hf in Hv |- *. destruct v as [| | | | |sub]; try done.
    eapply decodes_table; [done|]. intros l1 s Hs1. eapply Hdecode; eauto.
  - destruct (scalar_pushes f v Hv Hf) as (lv & E). rewrite E.
    pose proof (decodes_value l lv (LNumber (lua_of_integer (Z.of_nat i))) t stk Hs).
    by destruct (field_cpp_type f), v.
Qed.

Lemma elements_decode f m t stk : has_list f m → good_field f → ∀ n i l,
  (i + n <= length (pb_repeated f m))%nat → lua_stack l = LTable t :: stk →
  decodes l (decode_elements decode f n i m l).
Proof.
  intros Hf Hg. induction n as [|n IH]; intros i l Hlen Hs; [by eexists|]. simpl.
  destruct (lookup_lt_is_Some_2 (pb_repeated f m) i) as [v Hi]; [lia|].
  assert (fits f v) as Hv by (eapply Forall_lookup_1; [by apply pb_repeated_fits|done]).
  destruct (element_decodes f i m l t stk v (proj2 Hf) Hg Hi Hv Hs) as (l1 & -> & Hs1). rewrite bind_ok.
  destruct (IH (S i) l1) as (l' & -> & Hs'); [lia|congruence|]. exists l'. by rewrite Hs'.
Qed.

Lemma field_decodes f m l t stk : f ∈ pb_descriptor (pb_type m) → good_field f →
  negb (is_repeated f) && negb (pb_has f m) = false → lua_stack l = LTable t :: stk →
  decodes l (decodeField decode f m l).
Proof.
  intros Hin Hg Hset Hs. unfold decodeField, decodeFieldSimple. destruct (is_repeated f) eqn:Hr; simpl in Hset |- *.
  { eapply decodes_table; [done|]. intros l1 s Hs1. by eapply elements_decode. }
  apply negb_false_iff in Hset as ->. pose proof (pb_get_fits f m (conj Hin Hr)) as Hv.
  destruct (decide (field_cpp_type f = CPPTYPE_MESSAGE)) as [Hf|Hf].
  - unfold fits in Hv. rewrite Hf in Hv |- *. destruct (pb_get f m) as [| | | | |sub]; try done.
    eapply decodes_table; [done|]. intros l1 s Hs1. eapply Hdecode; eauto.
  - destruct (scalar_pushes f _ Hv Hf) as (lv & E). rewrite E, !bind_ok.
    pose proof (decodes_value l lv (LString (field_name f)) t stk Hs). by destruct (field_cpp_type f).
Qed.

Lemma fields_decode m t stk fs : ∀ l, (∀ f, f ∈ fs → f ∈ pb_descriptor (pb_type m)) →
  Forall (λ f, good_field f) fs → lua_stack l = LTable t :: stk → decodes l (decode_fields decode fs m l).
Proof.
  induction fs as [|f fs IH]; intros l Hin Hg Hs; [by eexists|]. apply Forall_cons in Hg as [Hgf Hg]. simpl.
  assert (∀ g, g ∈ fs → g ∈ pb_descriptor (pb_type m)) as Hin' by (intros g ?; apply Hin; by right).
  assert (∀ l1, lua_stack l1 = lua_stack l → decodes l (decode_fields decode fs m l1)) as Hrest.
  { intros l1 E. destruct (IH l1 Hin' Hg) as (l' & E' & Hs'); [congruence|]. exists l'. by rewrite <-E. }
  destruct (_ && _) eqn:Hset.
  - destruct (default_decodes f l t stk Hs) as (l1 & -> & Hs1). by apply Hrest.
  - destruct (field_decodes f m l t stk) as (l1 & -> & Hs1); [apply Hin; by left|done..|]. by apply Hrest.
Qed.
End field.

Lemma decodeDescriptor_decodes d elem ty m l t stk : steady d elem ty → pb_type m = ty →
  lua_stack l = LTable t :: stk → decodes l (decodeDescriptor d ty m l).
Proof.
  revert elem ty m l t stk. induction d as [|d IH]; intros elem ty m l t stk Hst Ht Hs; [done|]. simpl in *.
  eapply (fields_decode _ (λ ty, ∃ elem, steady d elem ty)); [|by rewrite Ht| |done].
  - intros ty' m' l' t' stk' [e H]. by eapply IH.
  - eapply Forall_impl; [exact Hst|]. intros f H Hf. destruct (H Hf). by eexists.
Qed.
End decode_returns.

(** Claim C17.  When no table has a metatable, an encoding that returns has
    changed no table and no value that was on the stack before, whatever the
    tables hold; when it succeeds the Lua state is the one it found, and when it
    fails values may be left on top of the stack.  It does return, again whatever
    the tables hold, for message types that nest at most as deep as the fuel and
    have no list of messages inside an element of a list of messages; for others a
    table may be cyclic, and a refused element may raise a Lua error, see
    [refused_element_raises]. *)
Theorem encodeDescriptor_reads_only {L P} `{!LuaState L, !LuaStateLaws L, !LuaTables L, !LuaTablesLaws L, !Protobuf P}
    depth ty (m : P) (l : L) :
  plain_tables l →
  (∀ rc m' l', encodeDescriptor depth ty m l = Ok (rc, m', l') →
     ∃ junk, l' = lua_set_stack (junk ++ lua_stack l) l ∧ (rc = Encoded → l' = l)) ∧
  (steady (P:=P) depth false ty → returns (encodeDescriptor depth ty m l) (λ _, True)).
Proof.
  intros Hp. split.
  - intros rc m' l' E. pose proof (encodeDescriptor_leaves false depth false ty m l Hp ltac:(done)) as H.
    rewrite E in H. destruct H as (junk & -> & Hj). exists junk. split; [done|]. intros ->.
    rewrite (Hj eq_refl). apply lua_set_stack_id.
  - intros Hs. pose proof (encodeDescriptor_leaves true depth false ty m l Hp (λ _, Hs)) as H.
    destruct (encodeDescriptor depth ty m l) as [r| | |]; try done. by exists r.
Qed.

(** ** Encodings that fail, on a state with a few tables *)
Module FailDemo.
Definition number (z : Z) : lua_value := LNumber (Concrete.of_integer z).

Definition tables (sets : list (loc * lua_value * lua_value)) : Concrete.state :=
  lua_set_stack [LTable 3] (foldr (λ '(t, k, v), Concrete.rawset t k v) Concrete.init sets).

(** The field [more] of the table 3 is the table 4, whose two values are no tables. *)
Definition l : Concrete.state :=
  tables [(3%positive, LString "more", LTable 4); (4%positive, number 1, LBoolean true);
    (4%positive, number 2, LBoolean false)].

(** The first element of [more] is itself such a table. *)
Definition l2 : Concrete.state :=
  tables [(3%positive, LString "more", LTable 4); (4%positive, number 1, LTable 5); (5%positive, LString "more", LTable 6);
    (6%positive, number 1, LBoolean true); (6%positive, number 2, LBoolean false)].

(** A [Letter] one of whose words is a boolean. *)
Definition l3 : Concrete.state :=
  tables [(3%positive, LString "words", LTable 4); (4%positive, number 1, LBoolean true)].

Lemma plain (l : Concrete.state) : plain_tables l.
Proof. by intros t. Qed.

Lemma letter_steady : steady (Protobuf0 := FlatDemo.flat_protobuf) 2 false "Letter".
Proof.
  unfold steady. change (@pb_descriptor _ FlatDemo.flat_protobuf) with FlatDemo.descriptor. cbv [FlatDemo.descriptor].
  simpl decide. cbv iota. repeat (apply Forall_cons_2 || apply Forall_nil_2); try done.
  simpl. intros _. split; [done|]. by apply Forall_cons_2.
Qed.

Lemma flat_steady ty : steady (Protobuf0 := FlatDemo.flat_protobuf) 2 false ty.
Proof.
  destruct (decide (ty = "Letter"%string)) as [->|Hl]; [apply letter_steady|].
  change (Forall (λ f, field_cpp_type f = CPPTYPE_MESSAGE → (is_repeated f = true → false = false) ∧
    steady (Protobuf0 := FlatDemo.flat_protobuf) 1 (false || is_repeated f) (message_type f)) (FlatDemo.descriptor ty)).
  unfold FlatDemo.descriptor. rewrite decide_False by done. case_decide; [by apply Forall_cons_2|apply Forall_nil_2].
Qed.

Abbreviation result := (encodeDescriptor 2 "Ping" (pb_new (P:=message) "Ping") l).
Abbreviation letter := (encodeDescriptor (Protobuf0 := FlatDemo.flat_protobuf) 2 "Letter" (new "Letter") l3).
End FailDemo.

Lemma encodeDescriptor_reads_only_witness :
  match FailDemo.result with
  | Ok (_, _, l') => ∃ junk, l' = lua_set_stack (junk ++ [LTable 3]) FailDemo.l
  | _ => False
  end ∧ returns FailDemo.letter (λ _, True).
Proof.
  split.
  - assert (match FailDemo.result with Ok _ => true | _ => false end = true) as Hok by (vm_compute; reflexivity).
    destruct FailDemo.result as [[[b m'] l']| | |] eqn:E; [|discriminate Hok..].
    destruct (encodeDescriptor_reads_only 2 "Ping" (pb_new "Ping") FailDemo.l (FailDemo.plain _)) as [H _].
    destruct (H b m' l' E) as (junk & Hl & _). exists junk. exact Hl.
  - exact (proj2 (encodeDescriptor_reads_only (Protobuf0 := FlatDemo.flat_protobuf) 2 "Letter" (new "Letter")
      FailDemo.l3 (FailDemo.plain _)) FailDemo.letter_steady).
Defined.

(** The table and the key after the refused element stay on the stack. *)
Example failure_leaves_key :
  match FailDemo.result with
  | Ok (rc, _, l') => (rc, lua_stack l') = (Refused, [FailDemo.number 2; LTable 4; LTable 3])
  | _ => False
  end.
Proof. vm_compute. reflexivity. Qed.

(** A boolean where a string is wanted is an exception, which leaves everything on
    the stack. *)
Example exception_leaves_value :
  match FailDemo.letter with
  | Ok (rc, _, l') => (rc, lua_stack l') = (Threw, [LBoolean true; FailDemo.number 1; LTable 4; LTable 3])
  | _ => False
  end.
Proof. vm_compute. reflexivity. Qed.

(** The key left by the refused element is taken for the one of the loop around it:
    [lua_next] raises "invalid key", past the C++ frames of the encoder. *)
Example refused_element_raises :
  encodeDescriptor 3 "Ping" (pb_new (P:=message) "Ping") FailDemo.l2 = Undef.
Proof. vm_compute. reflexivity. Qed.
