(* ===== verification/ParserCache.v ===== *)
(** * The message parser implements the protocol's table of types

    [Protocol.v] knows the parser as a map from message ids to type names.  The
    parser with its heap of message objects refines it: registering, encoding
    and decoding give the same results and keep every pointer of the cache valid.
    [DecodeToMessage] does not. *)

From S2P Require Import Prelude MessageQueue Message Socket CString LuaValue LuaApi LuaTable.
From S2P Require Import Protocol Protobuf ProtobufDemo MessageParser ProtoConvert ProtoRoundTrip.

Section cache.
Context {P : Type} `{!Protobuf P, !ProtobufLaws P}.
Context (known_type : list string → string → bool).
Implicit Types (mp : message_parser P).

(** The cache holds one live object of a known type for each registered id. *)
Record cache_ok mp (names : gmap Z string) : Prop := {
  co_brk x : is_Some (mp_objects mp !! x) → (x < mp_brk mp)%positive;
  co_live msgid x : mp_messages mp !! msgid = Some x →
    ∃ name m, mp_objects mp !! x = Some (name, m) ∧ names !! msgid = Some name ∧
      known_type (mp_files mp) name = true;
  co_names msgid : is_Some (names !! msgid) → is_Some (mp_messages mp !! msgid);
  co_inj i j x : mp_messages mp !! i = Some x → mp_messages mp !! j = Some x → i = j;
}.

Lemma cache_ok_new : cache_ok MessageParser_new ∅.
Proof. split; simpl; intros *; rewrite ?lookup_empty; try done; by intros [? ?]. Qed.

Lemma cache_none mp names msgid : cache_ok mp names →
  mp_messages mp !! msgid = None ↔ names !! msgid = None.
Proof.
  intros H. split; intros E.
  - destruct (names !! msgid) eqn:En; [|done]. destruct (co_names _ _ H msgid) as [x Hx]; [by eexists|congruence].
  - destruct (mp_messages mp !! msgid) eqn:Em; [|done]. destruct (co_live _ _ H _ _ Em) as (? & ? & _ & ? & _).
    congruence.
Qed.

(** Changing the contents of an object keeps the cache. *)
Lemma cache_ok_store mp names x name m m' : cache_ok mp names → mp_objects mp !! x = Some (name, m) →
  cache_ok (store_message x name m' mp) names.
Proof.
  intros [B Lv N I] Hx. split; simpl; try done.
  - intros y. rewrite lookup_insert_is_Some'. intros [<-|Hy]; apply B; [by eexists|done].
  - intros msgid y Hy. destruct (Lv _ _ Hy) as (name' & m0 & Ho & ? & ?).
    destruct (decide (x = y)) as [<-|Hne].
    + rewrite Hx in Ho. injection Ho as <- <-. exists name, m'. by rewrite lookup_insert_eq.
    + exists name', m0. by rewrite lookup_insert_ne.
Qed.

(** Registration agrees with the protocol's table. *)
Lemma RegisteMessage_refines mp pr msgid name : cache_ok mp (pr_parser pr) →
  let '(b, mp') := MessageParser.RegisteMessage known_type msgid name mp in
  let '(b', pr') := Protocol.RegisteMessage (known_type (mp_files mp)) pr msgid name in
  b = b' ∧ cache_ok mp' (pr_parser pr').
Proof.
  intros H. pose proof (cache_none mp _ msgid H) as Hnone.
  unfold MessageParser.RegisteMessage, Protocol.RegisteMessage, FindOrNull.
  destruct (mp_messages mp !! msgid) as [x|] eqn:Em.
  { destruct (co_live _ _ H _ _ Em) as (nm & m & _ & -> & _). done. }
  rewrite (proj1 Hnone eq_refl). unfold NewMessage_name. destruct (known_type (mp_files mp) name) eqn:Ek; [|done].
  split; [done|]. simpl. destruct H as [B Lv N I].
  assert (∀ y, is_Some (mp_objects mp !! y) → y ≠ mp_brk mp) as Hne by (intros y Hy%B ->; lia).
  split; simpl.
  - intros y. rewrite lookup_insert_is_Some'. intros [<-|Hy%B]; lia.
  - intros i y. destruct (decide (msgid = i)) as [<-|Hi].
    + rewrite !lookup_insert_eq. intros [= <-]. exists name, (pb_new name). by rewrite lookup_insert_eq.
    + rewrite !lookup_insert_ne by done. intros Hy. destruct (Lv _ _ Hy) as (nm & m & Ho & ? & ?).
      exists nm, m. rewrite !lookup_insert_ne by (try done; intros <-; exact (Hne _ (mk_is_Some _ _ Ho) eq_refl)). done.
  - intros i. rewrite !lookup_insert_is_Some'. intros [?|?%N]; auto.
  - intros i j y. destruct (decide (msgid = i)) as [<-|Hi], (decide (msgid = j)) as [<-|Hj];
      rewrite ?lookup_insert_eq, ?lookup_insert_ne by done; [done|..|by apply I].
    + intros [= <-] Hy. exfalso. destruct (Lv _ _ Hy) as (nm & m & Ho & _). exact (Hne _ (mk_is_Some _ _ Ho) eq_refl).
    + intros Hy [= <-]. exfalso. destruct (Lv _ _ Hy) as (nm & m & Ho & _). exact (Hne _ (mk_is_Some _ _ Ho) eq_refl).
Qed.

Lemma GetMessage_eq msgid mp : GetMessage known_type msgid mp = Ok (mp_messages mp !! msgid, mp).
Proof.
  unfold GetMessage, NewMessage, FindOrNull. by destruct (mp_messages mp !! msgid).
Qed.

(** The object of a registered id, cleared. *)
Lemma cleared_message_eq msgid mp names : cache_ok mp names →
  cleared_message known_type msgid mp =
    match names !! msgid with
    | None => Ok (None, mp)
    | Some name =>
        match mp_messages mp !! msgid with
        | Some x => Ok (Some (x, name, pb_descriptor name), store_message x name (pb_new name) mp)
        | None => Undef
        end
    end.
Proof.
  intros H. unfold cleared_message. rewrite GetMessage_eq, bind_ok. pose proof (cache_none mp _ msgid H) as Hnone.
  destruct (mp_messages mp !! msgid) as [x|] eqn:Em; [|by rewrite (proj1 Hnone)].
  destruct (co_live _ _ H _ _ Em) as (name & m & Ho & -> & Hk).
  unfold clear_message. rewrite Ho, bind_ok. unfold FindMessageDescriptor, with_objects. simpl.
  rewrite lookup_insert_eq. simpl. by rewrite Hk.
Qed.

End cache.

(** ** Encoding and decoding *)
Section refines.
Context {L P : Type} `{!LuaState L, !LuaTables L, !Protobuf P, !ProtobufLaws P}.
Context (known_type : list string → string → bool) (depth : nat).
Implicit Types (mp : message_parser P) (l : L).

(** What [Protocol.v] takes as parameters, made of the converter. *)
Definition serialize (name : string) (m : P) : list byte := default [] (pb_serialize m).

Definition parse (name : string) (buf : list byte) : option P :=
  let '(b, m) := pb_parse name buf in if (b : bool) then Some m else None.

Definition encode_table (name : string) l : outcome (option P * L) :=
  '(rc, m, l) ← encodeDescriptor depth name (pb_new name) l;
  Ok (match rc with
      | Encoded => match pb_serialize m with Some _ => Some m | None => None end
      | _ => None
      end, l).

Definition decode_table (name : string) (m : P) l : outcome (bool * L) :=
  decodeDescriptor depth name m (lua_newtable l).

(** The two computations end the same way: with the same result and Lua state,
    and a parser of which [Q] holds, or both without a result. *)
Definition agree {A} (Q : message_parser P → Prop) (o : outcome (A * L)) (o' : outcome (A * message_parser P * L)) : Prop :=
  match o, o' with
  | Ok (a, l), Ok (a', mp, l') => a' = a ∧ l' = l ∧ Q mp
  | AssertFail, AssertFail | Undef, Undef | NoFuel, NoFuel => True
  | _, _ => False
  end.

Lemma stored mp names msgid name x m :
  cache_ok known_type mp names → mp_messages mp !! msgid = Some x → names !! msgid = Some name →
  cache_ok known_type (store_message x name m (store_message x name (pb_new name) mp)) names.
Proof.
  intros H Hx Hn. destruct (co_live _ _ _ H _ _ Hx) as (nm & m0 & Ho & Hnm & _).
  assert (nm = name) as -> by congruence. eapply cache_ok_store; [by eapply cache_ok_store|].
  simpl. apply lookup_insert_eq.
Qed.

Lemma encode_refines mp pr msgid size l : cache_ok known_type mp (pr_parser pr) →
  agree (λ mp', cache_ok known_type mp' (pr_parser pr))
    (MessageBuilderEncode serialize encode_table pr l msgid size)
    (luaT_message_parser_encode known_type depth msgid size mp l).
Proof.
  intros H. unfold luaT_message_parser_encode, MessageBuilderEncode.
  rewrite (cleared_message_eq _ _ _ _ H). destruct (pr_parser pr !! msgid) as [name|] eqn:En; [|done].
  destruct (co_names _ _ _ H msgid) as [x Hx]; [by eexists|]. rewrite Hx, bind_ok, pb_byte_size_new. simpl.
  unfold encode_table, serialize. destruct (encodeDescriptor depth name (pb_new name) l) as [[[rc m] l1]| | |]; try done.
  simpl. pose proof (stored mp _ msgid name x m H Hx En) as H'.
  destruct rc; simpl; [|done..]. by destruct (pb_serialize m) eqn:E; simpl; rewrite ?E.
Qed.

Lemma decode_refines mp pr msgid buf l : cache_ok known_type mp (pr_parser pr) →
  agree (λ mp', cache_ok known_type mp' (pr_parser pr))
    (Protocol.luaT_message_parser_decode parse decode_table pr l msgid buf)
    (luaT_message_parser_decode known_type depth msgid buf mp l).
Proof.
  intros H. unfold luaT_message_parser_decode, Protocol.luaT_message_parser_decode, parse, decode_table.
  rewrite (cleared_message_eq _ _ _ _ H). destruct (pr_parser pr !! msgid) as [name|] eqn:En; [|done].
  destruct (co_names _ _ _ H msgid) as [x Hx]; [by eexists|]. rewrite Hx, bind_ok.
  unfold parse_into. simpl. rewrite lookup_insert_eq. simpl. destruct (pb_parse name buf) as [b m].
  pose proof (stored mp _ msgid name x m H Hx En) as H'. destruct b; simpl; [|done].
  rewrite lookup_insert_eq. simpl. by destruct (decodeDescriptor depth name m (lua_newtable l)) as [[b l1]| | |].
Qed.
End refines.

(** Claim C18.  The parser with its cache of message objects implements the table
    of types the protocol is proved against, whatever the Lua values at hand:
    registering a type gives the same answer; encoding and decoding give the same
    block or verdict and leave the same Lua state, or both fail to return in the
    same way (the converter needs more fuel, or undefined behaviour); and the cache
    holds one live object of the right type for each id all the while. *)
Theorem message_parser_refines {L P} `{!LuaState L, !LuaTables L, !Protobuf P, !ProtobufLaws P}
    known_type depth (mp : message_parser P) pr (l : L) :
  cache_ok known_type mp (pr_parser pr) →
  (∀ msgid name,
     let '(b, mp') := MessageParser.RegisteMessage known_type msgid name mp in
     let '(b', pr') := Protocol.RegisteMessage (known_type (mp_files mp)) pr msgid name in
     b = b' ∧ cache_ok known_type mp' (pr_parser pr')) ∧
  (∀ msgid size, agree (λ mp', cache_ok known_type mp' (pr_parser pr))
     (MessageBuilderEncode serialize (encode_table depth) pr l msgid size)
     (luaT_message_parser_encode known_type depth msgid size mp l)) ∧
  (∀ msgid buf, agree (λ mp', cache_ok known_type mp' (pr_parser pr))
     (Protocol.luaT_message_parser_decode parse (decode_table depth) pr l msgid buf)
     (luaT_message_parser_decode known_type depth msgid buf mp l)).
Proof.
  intros H. split_and!.
  - intros msgid name. by apply RegisteMessage_refines.
  - intros msgid size. by apply encode_refines.
  - intros msgid buf. by apply decode_refines.
Qed.

(** Claim C19.  After a [DecodeToMessage] that fails the cache keeps the pointer of
    the object it has deleted: the next decoding for the same id touches freed
    memory, and so does the end of the parser. *)
Theorem DecodeToMessage_dangles {P} `{!Protobuf P, !ProtobufLaws P} known_type
    (mp : message_parser P) names msgid name buf :
  cache_ok known_type mp names → names !! msgid = Some name → (pb_parse name buf).1 = false →
  ∃ mp', DecodeToMessage known_type msgid buf mp = Ok (None, mp') ∧
    (∀ buf', DecodeToMessage known_type msgid buf' mp' = Undef) ∧ MessageParser_delete mp' = Undef.
Proof.
  intros H Hn Hp. unfold DecodeToMessage. rewrite GetMessage_eq.
  destruct (co_names _ _ _ H msgid) as [x Hx]; [by eexists|].
  destruct (co_live _ _ _ H _ _ Hx) as (nm & m & Ho & Hnm & _). assert (nm = name) as -> by congruence.
  rewrite Hx, bind_ok. unfold clear_message, parse_into, delete_message. rewrite Ho, bind_ok. simpl.
  rewrite lookup_insert_eq. simpl. destruct (pb_parse name buf) as [b m1]. simpl in Hp. subst b. simpl.
  rewrite lookup_insert_eq. eexists. split; [done|]. simpl. split.
  - intros buf'. rewrite GetMessage_eq. rewrite bind_ok. simpl. rewrite Hx. by rewrite lookup_delete_eq.
  - unfold MessageParser_delete. simpl.
    assert (x ∈ (map_to_list (mp_messages mp)).*2) as Hin.
    { apply list_elem_of_fmap. exists (msgid, x). split; [done|]. by apply elem_of_map_to_list. }
    revert Hin. generalize (map_to_list (mp_messages mp)).*2 as xs. intros xs.
    match goal with |- context [delete_all xs ?mp1] => set (mp0 := mp1) end.
    assert (mp_objects mp0 !! x = None) as Hnone by (subst mp0; simpl; apply lookup_delete_eq).
    clearbody mp0. revert mp0 Hnone. induction xs as [|y xs IH]; intros mp0 Hnone Hin; [by apply elem_of_nil in Hin|].
    simpl. unfold delete_message at 1. destruct (mp_objects mp0 !! y) as [o|] eqn:Ey; [|done]. simpl.
    apply IH; simpl; [|].
    + destruct (decide (x = y)) as [->|]; [apply lookup_delete_eq|by rewrite lookup_delete_ne].
    + apply elem_of_cons in Hin as [->|]; [congruence|done].
Qed.

(** ** A parser with one type registered *)
Module ParserDemo.
Definition known (files : list string) (name : string) : bool := bool_decide (name = "Note"%string).

Definition mp : message_parser message :=
  (MessageParser.RegisteMessage known 7 "Note" MessageParser_new).2.

Definition pr : slam_protocol := {| pr_regtable := ∅; pr_parser := {[7 := "Note"%string]} |}.

Lemma mp_ok : cache_ok known mp (pr_parser pr).
Proof.
  destruct (RegisteMessage_refines known MessageParser_new slam_protocol_new 7 "Note" (cache_ok_new known)) as [_ H].
  exact H.
Qed.

(** The table of a note is on the stack. *)
Definition l : Concrete.state :=
  Concrete.rawset 3 (LString "text") (LString "hi") (lua_newtable Concrete.init).
End ParserDemo.

(** The block made of a table, and the table made of its bytes. *)
Lemma message_parser_refines_witness :
  match luaT_message_parser_encode ParserDemo.known 1 7 2 ParserDemo.mp ParserDemo.l with
  | Ok (block, mp', l') =>
      block = Some [None; None; Some x68; Some x69] ∧ lua_stack l' = [LTable 3] ∧
      cache_ok ParserDemo.known mp' (pr_parser ParserDemo.pr)
  | _ => False
  end ∧
  match luaT_message_parser_decode ParserDemo.known 1 7 [x68; x69] ParserDemo.mp ParserDemo.l with
  | Ok (b, mp', l') => b = true ∧ lua_stack l' = [LTable 4; LTable 3] ∧
      lua_rawget 4 (LString "text") l' = LString "hi"
  | _ => False
  end.
Proof.
  destruct (message_parser_refines ParserDemo.known 1 ParserDemo.mp ParserDemo.pr ParserDemo.l ParserDemo.mp_ok)
    as (_ & He & Hd).
  specialize (He 7 2). specialize (Hd 7 [x68; x69]). split.
  - assert (MessageBuilderEncode serialize (encode_table 1) ParserDemo.pr ParserDemo.l 7 2 =
      Ok (Some [None; None; Some x68; Some x69], ParserDemo.l)) as E by (vm_compute; reflexivity).
    rewrite E in He. destruct (luaT_message_parser_encode _ _ _ _ _ _) as [[[block mp'] l']| | |]; try exact He.
    destruct He as (-> & -> & H). split; [reflexivity|]. split; [reflexivity|exact H].
  - destruct (Protocol.luaT_message_parser_decode _ _ _ _ _ _) as [[b l']| | |] eqn:E; vm_compute in E; try discriminate E.
    destruct (luaT_message_parser_decode _ _ _ _ _ _) as [[[b' mp'] l'']| | |]; try exact Hd.
    destruct Hd as (-> & -> & _). injection E as <- <-. split; [reflexivity|]. split; reflexivity.
Defined.

Lemma DecodeToMessage_dangles_witness :
  ∃ mp', DecodeToMessage ParserDemo.known 7 [] ParserDemo.mp = Ok (None, mp') ∧
    DecodeToMessage ParserDemo.known 7 [x01] mp' = Undef.
Proof.
  destruct (DecodeToMessage_dangles ParserDemo.known ParserDemo.mp (pr_parser ParserDemo.pr) 7 "Note" [])
    as (mp' & E & Hu & _); [apply ParserDemo.mp_ok|reflexivity|reflexivity|].
  exists mp'. split; [exact E|apply Hu].
Defined.
