(* ===== verification/Lua.v ===== *)
(** * Calling Lua ([slam_lua.c])

    Protected calls with a traceback handler, loading of scripts, registration
    of functions and constants, references, and the values handed to Lua.  The
    Lua state is the parameter described in [LuaApi]. *)

From S2P Require Import Prelude CString LuaValue Protocol LuaApi.
From Stdlib Require Import Ascii.

Section operations.
Context {L : Type} `{!LuaState L}.
Implicit Types (l : L).

(** ** Values *)
Definition slam_lua_pushvalue l (lvalue : option slam_lua_value) : outcome L :=
  match lvalue with
  | None => Ok (lua_push LNil l)
  | Some lv =>
      if slam_lua_value_is_nil lv then Ok (lua_push LNil l)
      else if slam_lua_value_is_integer lv then
        n ← slam_lua_value_get_integer lv; Ok (lua_pushinteger n l)
      else if slam_lua_value_is_number lv then
        n ← slam_lua_value_get_number lv; Ok (lua_push (LNumber n) l)
      else if slam_lua_value_is_boolean lv then
        b ← slam_lua_value_get_boolean lv; Ok (lua_push (LBoolean b) l)
      else if slam_lua_value_is_string lv then
        s ← slam_lua_value_get_string lv;
        Ok (lua_push (match s with Some s => LString s | None => LNil end) l)
      else Ok (lua_push LNil l)          (* "illegal lvalue->type" *)
  end.

Definition slam_lua_cleanup l : L := lua_settop 0 l.

(** ** References *)
Definition slam_lua_ref l : Z * L := luaL_ref l.

Definition slam_lua_unref (ref : Z) l : L := luaL_unref ref l.

Definition slam_lua_get_value_by_ref (ref : Z) l : L := lua_rawgeti lua_registry ref l.

(** ** Registration

    A failed [lua_settable_3] is a Lua error outside any protected call, which
    ends the process; in a begun namespace it does not happen. *)
Definition SLAM_LUA_REGISTER_NAMESPACE : string := "cc".

Definition slam_lua_reg_namespace (ns : string) l : outcome L :=
  let l := lua_getglobal "_G" l in
  let l := lua_push (LString ns) l in
  let l := lua_newtable l in
  l ← lua_settable_3 l;
  Ok (lua_pop 1 l).

Definition slam_lua_begin_namespace (ns : string) l : outcome L :=
  let l := lua_getglobal "_G" l in
  let l := lua_push (LString ns) l in
  match lua_at l (-2) with
  | Some (LTable t) => Ok (lua_rawget_top t l)
  | _ => Undef
  end.

Definition slam_lua_end_namespace l : L := lua_pop 2 l.

Definition slam_lua_reg_value (key : string) (v : lua_value) l : outcome L :=
  lua_settable_3 (lua_push v (lua_push (LString key) l)).

Definition slam_lua_reg_function (func routine : string) l : outcome L :=
  slam_lua_reg_value func (LCFunction routine) l.

Definition slam_lua_reg_global_function (func routine : string) l : outcome L :=
  let l := lua_getglobal "_G" l in
  l ← slam_lua_reg_function func routine l;
  Ok (lua_pop 1 l).

Definition slam_lua_reg_integer (key : string) (value : Z) l : outcome L :=
  slam_lua_reg_value key (LNumber (lua_of_integer value)) l.

(** [lua_pushnumber] converts the [long] to a double. *)
Definition slam_lua_reg_long (key : string) (value : Z) l : outcome L :=
  slam_lua_reg_value key (LNumber (lua_of_integer value)) l.

Definition slam_lua_reg_double (key : string) (value : lua_Number) l : outcome L :=
  slam_lua_reg_value key (LNumber value) l.

Definition slam_lua_reg_string (key value : string) l : outcome L :=
  slam_lua_reg_value key (LString value) l.

Definition slam_lua_reg_object (key : string) (value : loc) l : outcome L :=
  slam_lua_reg_value key (LLightUserdata value) l.
End operations.

(** ** File names *)

Definition quote : string := String "034"%char EmptyString.

(** The statement [slam_lua_dofile] runs. *)
Definition require_statement (filename : string) : string :=
  let buf := snprintf PATH_MAX filename in
  let buf :=
    match split_last_dot buf with
    | Some (pre, suf) => if strcasecmp_eq suf ".lua" then pre else buf
    | None => buf
    end in
  snprintf PATH_MAX ("require " +:+ quote +:+ buf +:+ quote).

Section calls.
Context {L W : Type} `{!LuaState L, !LuaCall L W}.
Implicit Types (σ : L * W).

(** ** Protected calls *)

(** What [slam_lua_pcall] stores of the value on the top. *)
Definition get_return_value (l : L) (lvalue : option slam_lua_value)
    : outcome (option slam_lua_value) :=
  match lvalue with
  | None => Ok None
  | Some lv =>
      if lua_isboolean l (-1) then
        Ok (Some (slam_lua_value_set_boolean lv (lua_toboolean l (-1))))
      else if lua_isnumber l (-1) then
        integer ← slam_is_integer (lua_tonumber l (-1));
        Ok (Some (if (integer : bool) then slam_lua_value_set_integer lv (lua_tointeger l (-1))
                  else slam_lua_value_set_number lv (lua_tonumber l (-1))))
      else if lua_isstring l (-1) then
        Ok (Some (slam_lua_value_set_string lv (default EmptyString (lua_tostring l (-1)))))
      else Ok (Some lv)                  (* "Not support return type" *)
  end.

Definition slam_lua_pcall (args : nat) (lvalue : option slam_lua_value) σ
    : outcome (bool * option slam_lua_value * (L * W)) :=
  let '(l, w) := σ in
  let func_idx := - (Z.of_nat args + 1) in
  if negb (lua_isfunction l func_idx) then
    Ok (false, lvalue, (lua_pop (args + 1) l, w))
  else
    let l := lua_getglobal "__G_TRACKBACK__" l in
    let '(l, traceback) :=
      if negb (lua_isfunction l (-1)) then (lua_pop 1 l, 0)
      else (lua_insert (func_idx - 1) l, func_idx - 1) in
    '(error, (l, w)) ← lua_pcall args traceback (l, w);
    if negb (error =? 0) then
      Ok (false, lvalue, (lua_pop (if traceback =? 0 then 1 else 2) l, w))
    else
      lvalue ← get_return_value l lvalue;
      let l := lua_pop 1 l in
      let l := if negb (traceback =? 0) then lua_pop 1 l else l in
      Ok (true, lvalue, (l, w)).

(** [luaL_loadstring] pushes the compiled chunk, or an error message. *)
Context (luaL_loadstring : string → lua_value).

Definition slam_lua_dostring (str : string) σ : outcome (bool * (L * W)) :=
  let '(l, w) := σ in
  '(rc, _, σ) ← slam_lua_pcall 0 None (lua_push (luaL_loadstring str) l, w);
  Ok (rc, σ).

Definition slam_lua_dofile (filename : string) σ : outcome (bool * (L * W)) :=
  slam_lua_dostring (require_statement filename) σ.

(** The entry file's name is kept when it has run. *)
Definition slam_lua_load_entryfile (entryfile : string) (kept : option string) σ
    : outcome (bool * option string * (L * W)) :=
  '(rc, σ) ← slam_lua_dofile entryfile σ;
  Ok (rc, if (rc : bool) then Some entryfile else kept, σ).
End calls.

(** ** Lemmas *)
Definition is_function (v : lua_value) : bool :=
  match v with LFunction _ | LCFunction _ => true | _ => false end.

Section lemmas.
Context {L W : Type} `{!LuaState L, !LuaStateLaws L, !LuaCall L W, !LuaCallLaws L W}.
Implicit Types (l : L) (w : W).

(** The handler a protected call uses. *)
Definition traceback_handler l : lua_value :=
  let v := lua_rawget lua_globals (LString "__G_TRACKBACK__") l in
  if is_function v then v else LNil.

(** What a result is stored as. *)
Definition return_value (r : lua_value) (lvalue : option slam_lua_value)
    : outcome (option slam_lua_value) :=
  match lvalue with
  | None => Ok None
  | Some lv =>
      match r with
      | LBoolean b => Ok (Some (slam_lua_value_set_boolean lv b))
      | LNumber n =>
          integer ← slam_is_integer n;
          Ok (Some (if (integer : bool) then slam_lua_value_set_integer lv (lua_to_integer n)
                    else slam_lua_value_set_number lv n))
      | LString s =>
          match lua_str2number s with
          | Some n =>
              integer ← slam_is_integer n;
              Ok (Some (if (integer : bool) then slam_lua_value_set_integer lv (lua_to_integer n)
                        else slam_lua_value_set_number lv n))
          | None => Ok (Some (slam_lua_value_set_string lv s))
          end
      | _ => Ok (Some lv)
      end
  end.

Lemma get_return_value_top r l lvalue :
  get_return_value (lua_push r l) lvalue = return_value r lvalue.
Proof.
  unfold get_return_value, return_value, lua_isboolean, lua_isnumber, lua_isstring, lua_toboolean,
    lua_tointeger, lua_tonumber, lua_tostring, test. destruct lvalue as [lv|]; [|done].
  rewrite lua_at_top. destruct r as [|[]| |s| | | | | |]; simpl; try done.
  by destruct (lua_str2number s).
Qed.

Lemma isfunction_at l args f :
  lua_stack l !! args = Some f → lua_isfunction l (- (Z.of_nat args + 1)) = is_function f.
Proof.
  intros H. unfold lua_isfunction, test. replace (- (Z.of_nat args + 1)) with (- Z.of_nat (S args)) by lia.
  rewrite lua_at_neg by lia. simpl. by rewrite Nat.sub_0_r, H.
Qed.

(** A protected call replaces the function and its arguments by the result. *)
Lemma lua_pcall_over l w argv f below msgh :
    lua_stack l = argv ++ f :: below →
    lua_pcall (length argv) msgh (l, w) =
      ('(rc, r, (l', w')) ←
         lua_call f (reverse argv) (if msgh =? 0 then LNil else default LNil (lua_at l msgh))
           (lua_set_stack below l, w);
       Ok (rc, (lua_push r l', w'))).
Proof.
    intros Hs. unfold lua_pcall. rewrite Hs, list_lookup_middle by done.
    rewrite take_app_le, take_ge by lia.
    replace (S (length argv)) with (length (argv ++ [f])) by (rewrite length_app; simpl; lia).
    by rewrite (cons_middle f argv below), app_assoc, drop_app_length.
Qed.

Lemma pop_below n l vs below :
    lua_stack l = vs ++ below → n = length vs → lua_pop n l = lua_set_stack below l.
Proof. intros H ->. unfold lua_pop. by rewrite H, drop_app_length. Qed.

(** The handler goes below the function. *)
Lemma insert_handler l argv f rest g :
    lua_stack l = argv ++ f :: rest →
    lua_insert (- (Z.of_nat (length argv) + 1) - 1) (lua_push g l) =
      lua_set_stack (argv ++ f :: g :: rest) l.
Proof.
    intros Hs. unfold lua_insert. rewrite stack_push, Hs.
    replace (Z.to_nat _) with (length (argv ++ [f])) by (rewrite length_app; simpl; lia).
    rewrite (cons_middle f argv rest), app_assoc, take_app_length, drop_app_length.
    unfold lua_push. rewrite lua_set_stack_set. by rewrite <- app_assoc.
Qed.

(** A protected call on [argv] over the function [f]: whatever happens the
      stack is cut back to what was below the function. *)
Lemma slam_lua_pcall_eq l w argv f rest lvalue :
    lua_stack l = argv ++ f :: rest →
    slam_lua_pcall (length argv) lvalue (l, w) =
      if is_function f then
        let h := traceback_handler l in
        '(rc, r, (l', w')) ←
          lua_call f (reverse argv) h
            (lua_set_stack (if is_function h then h :: rest else rest) l, w);
        if negb (rc =? 0) then Ok (false, lvalue, (lua_set_stack rest l', w'))
        else
          lvalue ← return_value r lvalue;
          Ok (true, lvalue, (lua_set_stack rest l', w'))
      else Ok (false, lvalue, (lua_set_stack rest l, w)).
Proof.
    intros Hs. unfold slam_lua_pcall.
    rewrite (isfunction_at _ _ f) by (rewrite Hs; by apply list_lookup_middle).
    destruct (is_function f); simpl; last first.
    { erewrite (pop_below _ _ (argv ++ [f])) by (rewrite ?Hs, <- ?app_assoc, ?length_app; done). done. }
    unfold traceback_handler. set (g := lua_rawget lua_globals _ l).
    assert (lua_isfunction (lua_getglobal "__G_TRACKBACK__" l) (-1) = is_function g) as ->.
    { unfold lua_isfunction, test, lua_getglobal. by rewrite lua_at_top. }
    unfold lua_getglobal. fold g. destruct (is_function g) eqn:Hg; simpl; rewrite ?Hg.
    - rewrite (insert_handler _ _ _ _ _ Hs), (lua_pcall_over _ _ argv f (g :: rest)) by apply lua_stack_set.
      rewrite (proj2 (Z.eqb_neq _ 0)) by lia. rewrite !lua_set_stack_set.
      replace (- (Z.of_nat (length argv) + 1) - 1) with (- Z.of_nat (S (S (length argv)))) by lia.
      rewrite lua_at_neg, lua_stack_set by lia.
      replace (S (S (length argv)) - 1)%nat with (length argv + 1)%nat by lia.
      rewrite lookup_app_r by lia. replace (length argv + 1 - length argv)%nat with 1%nat by lia. simpl.
      destruct (lua_call f (reverse argv) g _) as [[[rc r] [l' w']]| | |] eqn:E; [|done..]. simpl.
      apply lua_call_stack in E. rewrite lua_stack_set in E.
      destruct (rc =? 0); simpl.
      + rewrite get_return_value_top. destruct (return_value r lvalue); [simpl|done..].
        by rewrite pop_push, (pop_below _ _ [g] rest).
      + rewrite (pop_below _ _ [r; g] rest); [|by rewrite stack_push, E|done].
        unfold lua_push. by rewrite lua_set_stack_set.
    - rewrite pop_push, (lua_pcall_over _ _ argv f rest) by done. simpl.
      destruct (lua_call f (reverse argv) LNil _) as [[[rc r] [l' w']]| | |] eqn:E; [|done..]. simpl.
      apply lua_call_stack in E. rewrite lua_stack_set in E.
      assert (lua_set_stack rest l' = l') as -> by (rewrite <- E; apply lua_set_stack_id).
      destruct (rc =? 0); simpl; rewrite ?get_return_value_top, pop_push; [|done].
      by destruct (return_value r lvalue).
Qed.
(** Registration, with [_G] bound to the table of globals. *)
Lemma settable_over t k v l stk :
  lua_stack l = LTable t :: stk →
  ∃ l', lua_settable_3 (lua_push v (lua_push k l)) = Ok l' ∧ lua_stack l' = lua_stack l ∧
    ∀ t' k', lua_rawget t' k' l' = if decide ((t', k') = (t, k)) then v else lua_rawget t' k' l.
Proof.
  intros Hs. unfold lua_settable_3. rewrite (lua_at_neg _ 3) by lia. rewrite !stack_push, Hs. simpl.
  eexists. split; [done|]. unfold lua_settable. rewrite !stack_push, lua_stack_set. split; [done|].
  intros t' k'. rewrite lua_rawget_set_stack, lua_rawget_rawset. case_decide; [done|].
  by rewrite !rawget_push.
Qed.

Lemma reg_namespace_ok ns l :
  lua_rawget lua_globals (LString "_G") l = LTable lua_globals → ns ≠ "_G"%string →
  ∃ l' t, slam_lua_reg_namespace ns l = Ok l' ∧ lua_stack l' = lua_stack l ∧
    lua_rawget lua_globals (LString "_G") l' = LTable lua_globals ∧
    lua_rawget lua_globals (LString ns) l' = LTable t ∧ t ≠ lua_globals.
Proof.
  intros HG Hns. unfold slam_lua_reg_namespace, lua_newtable.
  set (l1 := lua_push _ (lua_getglobal _ l)).
  destruct (lua_createtable l1) as [t l2] eqn:E.
  assert (l2 = (lua_createtable l1).2 ∧ t = (lua_createtable l1).1) as [-> ->] by (by rewrite E).
  set (l2 := (lua_createtable l1).2). set (t := (lua_createtable l1).1).
  assert (lua_stack l2 = LString ns :: LTable lua_globals :: lua_stack l) as Hs2.
  { subst l2. rewrite lua_stack_createtable. subst l1. by rewrite stack_push, stack_getglobal, HG. }
  assert (lua_settable_3 (lua_push (LTable t) l2) =
    Ok (lua_settable lua_globals (lua_push (LTable t) l2))) as ->.
  { unfold lua_settable_3. rewrite (lua_at_neg _ 3) by lia. by rewrite stack_push, Hs2. }
  rewrite bind_ok. eexists _, t. split; [done|].
  rewrite stack_pop, !rawget_pop. unfold lua_settable. rewrite stack_push, Hs2, lua_stack_set.
  rewrite !lua_rawget_set_stack, !lua_rawget_rawset. split; [done|].
  rewrite decide_False by congruence. rewrite decide_True by done. split_and!; [|done|].
  - rewrite rawget_push. subst l2. rewrite lua_rawget_createtable; [|apply not_eq_sym, lua_createtable_new].
    subst l1. unfold lua_getglobal. by rewrite !rawget_push.
  - apply lua_createtable_new.
Qed.

Lemma begin_namespace_ok ns t l :
  lua_rawget lua_globals (LString "_G") l = LTable lua_globals →
  lua_rawget lua_globals (LString ns) l = LTable t →
  ∃ l', slam_lua_begin_namespace ns l = Ok l' ∧
    lua_stack l' = LTable t :: LTable lua_globals :: lua_stack l ∧
    ∀ t' k', lua_rawget t' k' l' = lua_rawget t' k' l.
Proof.
  intros HG Hns. unfold slam_lua_begin_namespace. rewrite (lua_at_neg _ 2) by lia.
  rewrite stack_push, stack_getglobal, HG. simpl. eexists. split; [done|].
  unfold lua_rawget_top. rewrite stack_push, stack_getglobal, lua_stack_set, HG.
  split; [|intros t' k'; unfold lua_getglobal; by rewrite lua_rawget_set_stack, !rawget_push].
  rewrite rawget_push. unfold lua_getglobal. by rewrite rawget_push, Hns.
Qed.
End lemmas.

(** ** The property *)

(** A protected call with its arguments over the function on the stack
    removes exactly these, whether it succeeds, raises an error or is not a call
    of a function at all, and whether the script has a traceback handler or not.
    It succeeds exactly when the function does; then the result is stored as the
    caller asked, and otherwise the caller's value is untouched. *)
Lemma slam_lua_pcall_balanced {L W} `{!LuaState L, !LuaStateLaws L, !LuaCall L W, !LuaCallLaws L W}
    (l l' : L) (w w' : W) argv f rest lvalue lvalue' rc :
  lua_stack l = argv ++ f :: rest →
  slam_lua_pcall (length argv) lvalue (l, w) = Ok (rc, lvalue', (l', w')) →
  let h := traceback_handler l in
  let call := lua_call f (reverse argv) h
                (lua_set_stack (if is_function h then h :: rest else rest) l, w) in
  lua_stack l' = rest ∧
  if rc then is_function f = true ∧ ∃ r l1, call = Ok (0, r, (l1, w')) ∧ return_value r lvalue = Ok lvalue'
  else lvalue' = lvalue ∧
    ((is_function f = false ∧ w' = w) ∨ ∃ e r l1, e ≠ 0 ∧ call = Ok (e, r, (l1, w'))).
Proof.
  intros Hs. rewrite (slam_lua_pcall_eq _ _ _ _ _ _ Hs). intros H h call.
  destruct (is_function f); cbv zeta in H; [|injection H as <- <- <- <-; rewrite lua_stack_set; auto].
  fold h in H. fold call in H. destruct call as [[[e r] [l1 w1]]| | |]; [simpl in H|done..].
  destruct (Z.eqb_spec e 0) as [->|He]; simpl in H.
  - destruct (return_value r lvalue) eqn:Er; simplify_eq/=. rewrite lua_stack_set. eauto 10.
  - simplify_eq/=. rewrite lua_stack_set. eauto 10.
Qed.

Lemma slam_lua_pcall_balanced_witness :
  let l := Concrete.set_stack [LNil; LBoolean true; LFunction 9; LString "below"] Concrete.init in
  ∃ l' : Concrete.state,
    slam_lua_pcall 2 (Some slam_lua_value_new) (l, 0%nat) =
      Ok (true, Some (slam_lua_value_set_boolean slam_lua_value_new true), (l', 1%nat)) ∧
    lua_stack l' = [LString "below"].
Proof.
  set (l := Concrete.set_stack _ _).
  exists (Concrete.set_stack [LString "below"] l). split; [reflexivity|].
  destruct (slam_lua_pcall_balanced l (Concrete.set_stack [LString "below"] l) 0%nat 1%nat
    [LNil; LBoolean true] (LFunction 9) [LString "below"] (Some slam_lua_value_new)
    (Some (slam_lua_value_set_boolean slam_lua_value_new true)) true) as [H _]; [reflexivity..|exact H].
Defined.
