(* ===== verification/LuaEvent.v ===== *)
(** * Events for Lua ([slam_lua_event.c])

    The functions that notify the script: start and stop, connections
    established and lost, a decoded message, an expired timer. *)

From S2P Require Import Prelude LuaValue TimerList Protocol LuaApi Lua.

(** ** Operations *)
Section operations.
Context {L W : Type} `{!LuaState L, !LuaCall L W}.
Implicit Types (σ : L * W).

Definition pcall_event (args : nat) σ : outcome (bool * (L * W)) :=
  '(rc, _, σ) ← slam_lua_pcall args None σ; Ok (rc, σ).

Definition slam_lua_event_start σ : outcome (bool * (L * W)) :=
  let '(l, w) := σ in
  let l := lua_getglobal "slam_lua_event_start" l in
  if negb (lua_isfunction l (-1)) then Ok (false, (l, w))
  else pcall_event 0 (l, w).

Definition slam_lua_event_stop σ : outcome (bool * (L * W)) :=
  let '(l, w) := σ in
  let l := lua_getglobal "slam_lua_event_stop" l in
  if negb (lua_isfunction l (-1)) then Ok (false, (l, w))
  else pcall_event 0 (l, w).

Definition slam_lua_event_establish_connection (fd : Z) σ : outcome (bool * (L * W)) :=
  let '(l, w) := σ in
  let l := lua_getglobal "slam_lua_event_establish_connection" l in
  if negb (lua_isfunction l (-1)) then Ok (false, (l, w))
  else
    let l := lua_pushinteger fd l in
    pcall_event 1 (l, w).

Definition slam_lua_event_lost_connection (fd : Z) σ : outcome (bool * (L * W)) :=
  let '(l, w) := σ in
  let l := lua_getglobal "slam_lua_event_lost_connection" l in
  if negb (lua_isfunction l (-1)) then Ok (false, (l, w))
  else
    let l := lua_pushinteger fd l in
    pcall_event 1 (l, w).

Definition slam_lua_event_message (pr : slam_protocol) σ (fd msgid : Z)
    : outcome (bool * (L * W)) :=
  let '(l, w) := σ in
  match slam_protocol_find_name pr msgid with
  | None => Ok (false, (l, w))                       (* "not reg" *)
  | Some ref_name =>
      if negb (lua_istable l (-1)) then Ok (false, (l, w))
      else
        let t_index := lua_gettop l in
        let l := lua_push (LString ref_name) l in
        let l := lua_rawget_top lua_registry l in
        if negb (lua_isfunction l (-1)) then Ok (false, (l, w))
        else
          let l := lua_pushinteger fd l in
          let l := lua_pushinteger msgid l in
          let l := lua_pushvalue t_index l in
          pcall_event 3 (l, w)
  end.

Definition slam_lua_event_timer (timer : slam_timer) σ : outcome (bool * (L * W)) :=
  let '(l, w) := σ in
  let l := slam_lua_get_value_by_ref (tm_ref timer) l in
  if negb (lua_isfunction l (-1)) then Ok (false, (l, w))
  else
    let l := lua_pushinteger (tm_ref timer) l in
    l ← slam_lua_pushvalue l (tm_ctx timer);
    '(rc, (l, w)) ← pcall_event 2 (l, w);
    Ok (rc, (slam_lua_cleanup l, w)).
End operations.
#[global] Arguments slam_lua_event_start : simpl never.
#[global] Arguments slam_lua_event_stop : simpl never.
#[global] Arguments slam_lua_event_establish_connection : simpl never.
#[global] Arguments slam_lua_event_lost_connection : simpl never.
#[global] Arguments slam_lua_event_message : simpl never.
#[global] Arguments slam_lua_event_timer : simpl never.

(** ** Lemmas *)
Section lemmas.
Context {L W : Type} `{!LuaState L, !LuaStateLaws L, !LuaCall L W, !LuaCallLaws L W}.
Implicit Types (l : L) (w : W).

(** The call of a function value with its arguments, on top of [rest]. *)
Definition notify (f : lua_value) (argv : list lua_value) (rest : list lua_value) (σ : L * W)
    : outcome (bool * (L * W)) :=
  let '(l, w) := σ in
  let h := traceback_handler l in
  '(rc, _, (l', w')) ←
    lua_call f argv h (lua_set_stack (if is_function h then h :: rest else rest) l, w);
  Ok (rc =? 0, (lua_set_stack rest l', w')).
#[local] Arguments notify : simpl never.

Lemma pcall_event_eq l w argv f rest :
  lua_stack l = reverse argv ++ f :: rest → is_function f = true →
  pcall_event (length argv) (l, w) = notify f argv rest (l, w).
Proof.
  intros Hs Hf. unfold pcall_event, notify. rewrite <- (length_reverse argv).
  rewrite (slam_lua_pcall_eq _ _ _ _ _ _ Hs), Hf, reverse_involutive. simpl.
  destruct (lua_call _ _ _ _) as [[[rc r] [l' w']]| | |]; [simpl|done..].
  by destruct (rc =? 0).
Qed.

Lemma notify_rest f argv rest l w rc l' w' :
  notify f argv rest (l, w) = Ok (rc, (l', w')) → lua_stack l' = rest.
Proof.
  unfold notify. destruct (lua_call _ _ _ _) as [[[e r] [l1 w1]]| | |]; [simpl|done..].
  intros [= _ <- _]. apply lua_stack_set.
Qed.

(** Pushing does not change which handler is found, nor the rest of the state. *)
Lemma notify_push f argv rest vs l w :
  notify f argv rest (lua_set_stack vs l, w) = notify f argv rest (l, w).
Proof. unfold notify, traceback_handler. by rewrite lua_rawget_set_stack, lua_set_stack_set. Qed.

Lemma top_isfunction v l : lua_isfunction (lua_push v l) (-1) = is_function v.
Proof. unfold lua_isfunction, test. by rewrite lua_at_top. Qed.

(** The function and its arguments, pushed on the stack. *)
Lemma pcall_pushed l w f argv rest :
  is_function f = true →
  pcall_event (length argv) (lua_set_stack (reverse argv ++ f :: rest) l, w) = notify f argv rest (l, w).
Proof.
  intros Hf. rewrite (pcall_event_eq _ _ argv f rest); [|by rewrite lua_stack_set|done].
  apply notify_push.
Qed.

(** The events without a message: a global function and its arguments. *)
Definition notify_global (name : string) (argv : list lua_value) (σ : L * W) : outcome (bool * (L * W)) :=
  let '(l, w) := σ in
  let f := lua_rawget lua_globals (LString name) l in
  if is_function f then notify f argv (lua_stack l) (l, w) else Ok (false, (lua_push f l, w)).

Lemma event_start_eq l w : slam_lua_event_start (l, w) = notify_global "slam_lua_event_start" [] (l, w).
Proof.
  unfold slam_lua_event_start, notify_global, lua_getglobal. rewrite top_isfunction.
  destruct (is_function _) eqn:Hf; [|done]. by apply (pcall_pushed _ _ _ []).
Qed.

Lemma event_stop_eq l w : slam_lua_event_stop (l, w) = notify_global "slam_lua_event_stop" [] (l, w).
Proof.
  unfold slam_lua_event_stop, notify_global, lua_getglobal. rewrite top_isfunction.
  destruct (is_function _) eqn:Hf; [|done]. by apply (pcall_pushed _ _ _ []).
Qed.

Lemma push_push v1 v2 l : lua_push v2 (lua_push v1 l) = lua_set_stack (v2 :: v1 :: lua_stack l) l.
Proof. unfold lua_push. by rewrite lua_stack_set, lua_set_stack_set. Qed.

Lemma event_establish_eq fd l w :
  slam_lua_event_establish_connection fd (l, w) =
    notify_global "slam_lua_event_establish_connection" [LNumber (lua_of_integer fd)] (l, w).
Proof.
  unfold slam_lua_event_establish_connection, notify_global, lua_getglobal. rewrite top_isfunction.
  destruct (is_function _) eqn:Hf; [|done]. unfold lua_pushinteger. rewrite push_push.
  by apply (pcall_pushed _ _ _ [_]).
Qed.

Lemma event_lost_eq fd l w :
  slam_lua_event_lost_connection fd (l, w) =
    notify_global "slam_lua_event_lost_connection" [LNumber (lua_of_integer fd)] (l, w).
Proof.
  unfold slam_lua_event_lost_connection, notify_global, lua_getglobal. rewrite top_isfunction.
  destruct (is_function _) eqn:Hf; [|done]. unfold lua_pushinteger. rewrite push_push.
  by apply (pcall_pushed _ _ _ [_]).
Qed.

Lemma event_message_eq pr l w fd msgid t rest name :
  slam_protocol_find_name pr msgid = Some name → lua_stack l = LTable t :: rest →
  let f := lua_rawget lua_registry (LString name) l in
  slam_lua_event_message pr (l, w) fd msgid =
    if is_function f then
      notify f [LNumber (lua_of_integer fd); LNumber (lua_of_integer msgid); LTable t]
        (LTable t :: rest) (l, w)
    else Ok (false, (lua_push f l, w)).
Proof.
  intros Hn Hs f. unfold slam_lua_event_message. rewrite Hn.
  assert (lua_istable l (-1) = true) as -> by (unfold lua_istable, test, lua_at; simpl; by rewrite Hs).
  simpl. assert (lua_rawget_top lua_registry (lua_push (LString name) l) = lua_push f l) as ->.
  { unfold lua_rawget_top. rewrite stack_push, rawget_push. unfold lua_push. by rewrite lua_set_stack_set. }
  rewrite top_isfunction. destruct (is_function f) eqn:Hf; simpl; [|done].
  assert (lua_at (lua_pushinteger msgid (lua_pushinteger fd (lua_push f l))) (lua_gettop l)
          = Some (LTable t)) as Ht.
  { unfold lua_at, lua_gettop, lua_pushinteger. rewrite !stack_push, Hs. pose proof (len_nonneg rest).
    rewrite len_cons. rewrite (proj2 (Z.ltb_ge _ _)), (proj2 (Z.eqb_neq _ _)) by lia.
    rewrite !reverse_cons, <- !app_assoc. rewrite lookup_app_r by (rewrite length_reverse; len).
    by replace (Z.to_nat (1 + len rest - 1) - length (reverse rest))%nat with 0%nat
      by (rewrite length_reverse; len). }
  unfold lua_pushvalue. rewrite Ht. simpl. unfold lua_pushinteger, lua_push.
  rewrite !lua_stack_set, !lua_set_stack_set, Hs.
  set (argv := [_; _; LTable t]). change 3%nat with (length argv).
  by apply (pcall_pushed l w f argv).
Qed.

(** The value a kept [slam_lua_value] stands for in Lua. *)
Definition lua_of_datum (d : lua_datum) : lua_value :=
  match d with
  | DNil => LNil
  | DBoolean b => LBoolean b
  | DInteger i => LNumber (lua_of_integer i)
  | DNumber n => LNumber n
  | DString s => LString s
  end.

Lemma pushvalue_set l lv d : slam_lua_pushvalue l (Some (set_datum lv d)) = Ok (lua_push (lua_of_datum d) l).
Proof. by destruct d. Qed.

Lemma event_timer_eq l w timer v :
  slam_lua_pushvalue (lua_pushinteger (tm_ref timer) (slam_lua_get_value_by_ref (tm_ref timer) l))
    (tm_ctx timer) =
    Ok (lua_push v (lua_pushinteger (tm_ref timer) (slam_lua_get_value_by_ref (tm_ref timer) l))) →
  let f := lua_rawget lua_registry (LNumber (lua_of_integer (tm_ref timer))) l in
  slam_lua_event_timer timer (l, w) =
    if is_function f then
      '(rc, (l', w')) ←
        notify f [LNumber (lua_of_integer (tm_ref timer)); v] (lua_stack l) (l, w);
      Ok (rc, (lua_set_stack [] l', w'))
    else Ok (false, (lua_push f l, w)).
Proof.
  intros Hp f. unfold slam_lua_event_timer.
  assert (slam_lua_get_value_by_ref (tm_ref timer) l = lua_push f l) as E by done. rewrite E in *.
  rewrite top_isfunction. destruct (is_function f) eqn:Hf; [|done]. cbn [negb]. rewrite Hp, bind_ok.
  unfold lua_pushinteger, lua_push. rewrite !lua_stack_set, !lua_set_stack_set.
  set (argv := [_; v]). change 2%nat with (length argv).
  pose proof (pcall_pushed l w f argv (lua_stack l) Hf) as E2.
  change (reverse argv ++ f :: lua_stack l)
    with (v :: LNumber (lua_of_integer (tm_ref timer)) :: f :: lua_stack l) in E2.
  rewrite E2. destruct (notify _ _ _ _) as [[rc [l' w']]| | |]; [simpl|done..].
  do 3 f_equal. unfold slam_lua_cleanup, lua_settop. f_equal. simpl.
  rewrite drop_ge by lia. by destruct (lua_stack l').
Qed.
End lemmas.
#[global] Arguments notify : simpl never.

(** ** The property *)

(** The event for a decoded message never takes the message's table
    off the stack: it is still there when the handler has returned or failed, and
    when there is no handler the value found in its place stays on top of it. *)
Lemma slam_lua_event_message_leaves_table {L W}
    `{!LuaState L, !LuaStateLaws L, !LuaCall L W, !LuaCallLaws L W}
    pr (l l' : L) (w w' : W) fd msgid t rest b :
  lua_stack l = LTable t :: rest →
  slam_lua_event_message pr (l, w) fd msgid = Ok (b, (l', w')) →
  lua_stack l' = LTable t :: rest ∨
  b = false ∧ w' = w ∧ ∃ v, is_function v = false ∧ lua_stack l' = v :: LTable t :: rest.
Proof.
  intros Hs. destruct (slam_protocol_find_name pr msgid) as [name|] eqn:Hn.
  - rewrite (event_message_eq _ _ _ _ _ t rest name) by done. destruct (is_function _) eqn:Hf.
    + intros H%notify_rest. by left.
    + intros [= <- <- <-]. right. split_and!; [done|done|]. eexists. split; [exact Hf|].
      by rewrite stack_push, Hs.
  - unfold slam_lua_event_message. rewrite Hn. intros [= _ <- _]. by left.
Qed.

Module EventDemo.
Definition pr : slam_protocol :=
  {| pr_regtable := {[7 := "Ping.7"%string]}; pr_parser := {[7 := "Ping"%string]} |}.

(** The decoded table on the stack, and the function bound to the message id. *)
Definition l : Concrete.state :=
  Concrete.rawset 2 (LString "Ping.7") (LFunction 9)
    (Concrete.set_stack [LTable 4] Concrete.init).
End EventDemo.

Lemma slam_lua_event_message_leaves_table_witness :
  ∃ l' : Concrete.state,
    slam_lua_event_message EventDemo.pr (EventDemo.l, 0%nat) 5 7 = Ok (true, (l', 1%nat)) ∧
    lua_stack l' = [LTable 4].
Proof.
  eexists. split; [vm_compute; reflexivity|].
  destruct (slam_lua_event_message_leaves_table EventDemo.pr EventDemo.l
    (Concrete.set_stack [LTable 4] EventDemo.l) 0%nat 1%nat 5 7 4 [] true) as [H|[H _]];
    [reflexivity|vm_compute; reflexivity|exact H|discriminate H].
Defined.
