(* ===== verification/LuaFunc.v ===== *)
(** * The functions the script calls ([slam_lua_func.c])

    Each function checks the number and the types of its arguments on its own
    stack, calls the part of the program it stands for, and leaves its results
    on the top.  The program's state as these functions see it is a [world]: the
    I/O thread and the protocol ([runtime]) and the timers. *)

From S2P Require Import Prelude LuaValue TimerList Message Socket IoThread Protocol LuaApi Lua.

(** ** The state *)
Record runtime := {
  rt_io : slam_io_thread;
  rt_protocol : slam_protocol;
  rt_loaded : list string;             (* the descriptor files loaded *)
  rt_calls : nat;                      (* sockets asked of the kernel so far *)
}.

Abbreviation world := (runtime * timer_state)%type.

Definition with_io (io : slam_io_thread) (rt : runtime) : runtime :=
  {| rt_io := io; rt_protocol := rt_protocol rt; rt_loaded := rt_loaded rt; rt_calls := rt_calls rt |}.

Definition with_protocol (pr : slam_protocol) (rt : runtime) : runtime :=
  {| rt_io := rt_io rt; rt_protocol := pr; rt_loaded := rt_loaded rt; rt_calls := rt_calls rt |}.

Definition with_loaded (fs : list string) (rt : runtime) : runtime :=
  {| rt_io := rt_io rt; rt_protocol := rt_protocol rt; rt_loaded := fs; rt_calls := rt_calls rt |}.

Definition count_call (rt : runtime) : runtime :=
  {| rt_io := rt_io rt; rt_protocol := rt_protocol rt; rt_loaded := rt_loaded rt;
     rt_calls := S (rt_calls rt) |}.

(** What the functions use besides the program's own parts: a limit of
    [__slam_main], the kernel, protobuf. *)
Class Environment (L P : Type) := {
  env_send_queue_size : Z;
  env_epoll_accepts : Z → bool;
  env_bind : string → Z → nat → Z * bind_results;     (* the new descriptor, the calls' results *)
  env_connect : string → Z → nat → Z * Z;             (* the new descriptor, the connected one *)
  env_shutdown_rd : list recv_event → list recv_event;
  env_gettimeofday : nat → Z * Z;
  env_load_descriptor : string → bool;
  env_known_type : list string → string → bool;
  env_dead_block : string → outcome string;           (* what [strdup] finds, see [Protocol] *)
  env_parse : string → list byte → option P;
  env_serialize : string → P → list byte;
  env_decode_descriptor : string → P → L → outcome (bool * L);
  env_encode_descriptor : string → L → outcome (option P * L);
}.

(** What the worker's safety needs of them: that the name of a message can be read
    after its block has ended, and that the converter returns. *)
Class EnvironmentSafe (L P : Type) `{!Environment L P} : Prop := {
  env_block_read s : returns (env_dead_block (L:=L) (P:=P) s) (λ _, True);
  env_encode_returns ty (l : L) : returns (env_encode_descriptor ty l) (λ _, True);
  env_decode_returns ty bs m (l : L) : env_parse ty bs = Some m →
    returns (env_decode_descriptor ty m l) (λ _, True);
}.

Section operations.
Context {L P : Type} `{!LuaState L, !Environment L P}.
Implicit Types (σ : L * world).

(** The number of results on the top of the stack, and the state. *)
Definition lua_CFunction : Type := L * world → outcome (nat * (L * world)).

Definition address_of (l : L) (idx : Z) : string := default EmptyString (lua_tostring l idx).

Definition cc_newserver : lua_CFunction := λ '(l, (rt, ts)),
  let args := lua_gettop l in
  if negb (args =? 2) then Ok (0%nat, (l, (rt, ts)))
  else if negb (lua_isstring l 1) then Ok (0%nat, (l, (rt, ts)))
  else if negb (lua_isnumber l 2) then Ok (0%nat, (l, (rt, ts)))
  else
    let address := address_of l 1 in
    let port := i32 (lua_tointeger l 2) in
    let '(fd, r) := env_bind address port (rt_calls rt) in
    '(fd, io) ←
      slam_io_newserver env_send_queue_size env_epoll_accepts (rt_io rt) fd r;
    Ok (1%nat, (lua_pushinteger fd l, (count_call (with_io io rt), ts))).

Definition cc_newclient : lua_CFunction := λ '(l, (rt, ts)),
  let args := lua_gettop l in
  if negb (args =? 2) then Ok (0%nat, (l, (rt, ts)))
  else if negb (lua_isstring l 1) then Ok (0%nat, (l, (rt, ts)))
  else if negb (lua_isnumber l 2) then Ok (0%nat, (l, (rt, ts)))
  else
    let address := address_of l 1 in
    let port := i32 (lua_tointeger l 2) in
    let '(fd, connected) := env_connect address port (rt_calls rt) in
    '(fd, io) ←
      slam_io_newclient env_send_queue_size env_epoll_accepts (rt_io rt) fd connected;
    Ok (1%nat, (lua_pushinteger fd l, (count_call (with_io io rt), ts))).

Definition cc_response : lua_CFunction := λ '(l, (rt, ts)),
  let args := lua_gettop l in
  if negb (args =? 3) then Ok (0%nat, (l, (rt, ts)))
  else if negb (lua_isnumber l 1) then Ok (0%nat, (l, (rt, ts)))
  else if negb (lua_isnumber l 2) then Ok (0%nat, (l, (rt, ts)))
  else if negb (lua_istable l 3) then Ok (0%nat, (l, (rt, ts)))
  else
    let fd := i32 (lua_tointeger l 1) in
    let msgid := i32 (lua_tointeger l 2) in
    let io := rt_io rt in
    '(message, h, l) ←
      slam_protocol_encode env_serialize env_encode_descriptor (rt_protocol rt) l (io_heap io) fd msgid;
    let io := with_mq_heap (io_mq io) h io in
    io ← match message with
         | Some x => '(_, io) ← slam_io_response io x; Ok io
         | None => Ok io                   (* "protocol encode error" *)
         end;
    let sent := match message with Some _ => true | None => false end in
    Ok (1%nat, (lua_push (LBoolean sent) l, (with_io io rt, ts))).

Definition cc_closesocket : lua_CFunction := λ '(l, (rt, ts)),
  let args := lua_gettop l in
  if negb (args =? 1) then Ok (0%nat, (l, (rt, ts)))
  else if negb (lua_isnumber l 1) then Ok (0%nat, (l, (rt, ts)))
  else
    let fd := i32 (lua_tointeger l 1) in
    Ok (0%nat, (l, (with_io (slam_io_closesocket env_shutdown_rd (rt_io rt) fd) rt, ts))).

Definition cc_loadmsg : lua_CFunction := λ '(l, (rt, ts)),
  let args := lua_gettop l in
  if negb (args =? 1) then Ok (0%nat, (l, (rt, ts)))
  else if negb (lua_isstring l 1) then Ok (0%nat, (l, (rt, ts)))
  else
    let filename := address_of l 1 in
    let rc := env_load_descriptor filename in
    let rt := if rc then with_loaded (filename :: rt_loaded rt) rt else rt in
    Ok (1%nat, (lua_push (LBoolean rc) l, (rt, ts))).

Definition cc_bindmsg : lua_CFunction := λ '(l, (rt, ts)),
  let args := lua_gettop l in
  if negb (args =? 3) then Ok (0%nat, (l, (rt, ts)))
  else if negb (lua_isnumber l 1) then Ok (0%nat, (l, (rt, ts)))
  else if negb (lua_isstring l 2) then Ok (0%nat, (l, (rt, ts)))
  else if negb (lua_isfunction l 3) then Ok (0%nat, (l, (rt, ts)))
  else
    let msgid := i32 (lua_tointeger l 1) in
    let typename := address_of l 2 in
    '(ref_name, pr) ←
      slam_protocol_reg_message (env_known_type (rt_loaded rt)) env_dead_block (rt_protocol rt)
        msgid typename;
    let l :=
      match ref_name with
      | Some name =>
          let l := lua_push (LString name) l in
          let l := lua_pushvalue 3 l in
          lua_settable lua_registry l
      | None => l
      end in
    let bound := match ref_name with Some _ => true | None => false end in
    Ok (1%nat, (lua_push (LBoolean bound) l, (with_protocol pr rt, ts))).

(** The context argument, as the timer keeps it. *)
Definition timer_ctx (l : L) : outcome slam_lua_value :=
  let ctx := slam_lua_value_new in
  if lua_isboolean l 3 then Ok (slam_lua_value_set_boolean ctx (lua_toboolean l 3))
  else if lua_isnumber l 3 then
    integer ← slam_is_integer (lua_tonumber l 3);
    Ok (if (integer : bool) then slam_lua_value_set_integer ctx (lua_tointeger l 3)
        else slam_lua_value_set_number ctx (lua_tonumber l 3))
  else if lua_isstring l 3 then
    Ok (slam_lua_value_set_string ctx (default EmptyString (lua_tostring l 3)))
  else if lua_isnil l 3 then Ok (slam_lua_value_set_nil ctx)
  else Ok ctx.                             (* "not support ctx type" *)

Definition cc_newtimer : lua_CFunction := λ '(l, (rt, ts)),
  let args := lua_gettop l in
  if negb (args =? 4) then Ok (0%nat, (l, (rt, ts)))
  else if negb (lua_isnumber l 1) then Ok (0%nat, (l, (rt, ts)))
  else if negb (lua_isboolean l 2) then Ok (0%nat, (l, (rt, ts)))
  else
    let milliseconds := lua_tointeger l 1 in
    let forever := lua_toboolean l 2 in
    ctx ← timer_ctx l;
    if negb (lua_isfunction l 4) then Ok (0%nat, (l, (rt, ts)))
    else
      let l := lua_pushvalue 4 l in
      let '(ref, l) := slam_lua_ref l in
      '(timer_node, ts) ←
        slam_runnable_add_timer env_gettimeofday (u64 milliseconds) forever ref (Some ctx) ts;
      DEREF timer := ts_heap ts !! timer_node ;;
      Ok (1%nat, (lua_pushinteger (tm_ref timer) l, (rt, ts))).

Definition cc_remove_timer : lua_CFunction := λ '(l, (rt, ts)),
  let args := lua_gettop l in
  if negb (args =? 1) then Ok (0%nat, (l, (rt, ts)))
  else if negb (lua_isnumber l 1) then Ok (0%nat, (l, (rt, ts)))
  else
    let ref := i32 (lua_tointeger l 1) in
    '(unref, ts) ← slam_runnable_remove_timer ref ts;
    let l := match unref with Some r => slam_lua_unref r l | None => l end in
    Ok (0%nat, (l, (rt, ts))).

(** ** Registration *)
Definition std_funcs : list (string * string) :=
  [("loadmsg", "cc_loadmsg"); ("bindmsg", "cc_bindmsg"); ("newserver", "cc_newserver");
   ("newclient", "cc_newclient"); ("response", "cc_response"); ("closesocket", "cc_closesocket");
   ("newtimer", "cc_newtimer"); ("removetimer", "cc_remove_timer")]%string.

(** A sequence of [LUA_REGISTER]. *)
Fixpoint lua_register_all (fs : list (string * string)) (l : L) : outcome L :=
  match fs with
  | [] => Ok l
  | (name, routine) :: fs =>
      l ← slam_lua_reg_function name routine l;
      lua_register_all fs l
  end.

Definition slam_lua_reg_std_func (l : L) : outcome L :=
  l ← slam_lua_begin_namespace SLAM_LUA_REGISTER_NAMESPACE l;
  l ← lua_register_all std_funcs l;
  Ok (slam_lua_end_namespace l).

(** The function a name stands for. *)
Definition cc_routine (routine : string) : option lua_CFunction :=
  if String.eqb routine "cc_loadmsg" then Some cc_loadmsg
  else if String.eqb routine "cc_bindmsg" then Some cc_bindmsg
  else if String.eqb routine "cc_newserver" then Some cc_newserver
  else if String.eqb routine "cc_newclient" then Some cc_newclient
  else if String.eqb routine "cc_response" then Some cc_response
  else if String.eqb routine "cc_closesocket" then Some cc_closesocket
  else if String.eqb routine "cc_newtimer" then Some cc_newtimer
  else if String.eqb routine "cc_remove_timer" then Some cc_remove_timer
  else None.
End operations.

(** ** Registering the functions *)
Section registration.
Context {L : Type} `{!LuaState L, !LuaStateLaws L}.

Lemma register_all_ok t stk fs : ∀ l : L,
  lua_stack l = LTable t :: stk → NoDup fs.*1 →
  ∃ l', lua_register_all fs l = Ok l' ∧ lua_stack l' = lua_stack l ∧
    (∀ name routine, (name, routine) ∈ fs → lua_rawget t (LString name) l' = LCFunction routine) ∧
    (∀ t' k, (t' ≠ t ∨ ∀ name, k = LString name → name ∉ fs.*1) →
       lua_rawget t' k l' = lua_rawget t' k l).
Proof.
  induction fs as [|[name routine] fs IH]; intros l Hs Hnd; simpl.
  { eexists. split_and!; [done|done| |done]. by intros ? ? ?%elem_of_nil. }
  apply NoDup_cons in Hnd as [Hn Hnd].
  destruct (settable_over t (LString name) (LCFunction routine) l stk Hs) as (l1 & E & Hs1 & H1).
  unfold slam_lua_reg_function, slam_lua_reg_value. rewrite E, bind_ok.
  destruct (IH l1) as (l2 & -> & Hs2 & Hin & Hout); [by rewrite Hs1|done|].
  exists l2. split_and!; [done|by rewrite Hs2| |].
  - intros n r [[= -> ->]|Hr]%elem_of_cons; [|by apply Hin].
    rewrite Hout, H1, decide_True; [done|done|]. right. by intros ? [= <-].
  - intros t' k Hk. rewrite Hout, H1.
    + rewrite decide_False; [done|]. intros [= -> ->]. destruct Hk as [|Hk]; [done|].
      apply (Hk name); [done|by left].
    + destruct Hk as [?|Hk]; [by left|right]. intros n ->. specialize (Hk n eq_refl). simpl in Hk.
      rewrite not_elem_of_cons in Hk. tauto.
Qed.

Lemma reg_std_func_ok t (l : L) :
  lua_rawget lua_globals (LString "_G") l = LTable lua_globals →
  lua_rawget lua_globals (LString SLAM_LUA_REGISTER_NAMESPACE) l = LTable t → t ≠ lua_globals →
  ∃ l', slam_lua_reg_std_func l = Ok l' ∧ lua_stack l' = lua_stack l ∧
    (∀ name routine, (name, routine) ∈ std_funcs → lua_rawget t (LString name) l' = LCFunction routine) ∧
    ∀ k, lua_rawget lua_globals k l' = lua_rawget lua_globals k l.
Proof.
  intros HG Hcc Ht. unfold slam_lua_reg_std_func.
  destruct (begin_namespace_ok _ _ _ HG Hcc) as (l1 & -> & Hs1 & H1). rewrite bind_ok.
  destruct (register_all_ok t _ std_funcs l1 Hs1) as (l2 & -> & Hs2 & Hin & Hout).
  { repeat constructor; set_solver. }
  rewrite bind_ok. eexists. split; [done|]. unfold slam_lua_end_namespace.
  rewrite stack_pop, Hs2, Hs1. split_and!; [done| |].
  - intros n r Hnr. rewrite rawget_pop. by apply Hin.
  - intros k. rewrite rawget_pop, Hout, H1; [done|]. left. congruence.
Qed.
End registration.
