(* ===== verification/Db.v ===== *)
(** * The database client ([db/slam_db.c], [db/slam_db_conf.c],
    [db/slam_db_result.c], [db/slam_db_table.c])

    The MySQL client library is not part of the repository: a connection handle
    is a value of a type [M] and a result set a value of a type [R], with the
    calls the program makes.  The blocks the program allocates are on a heap. *)

From S2P Require Import Prelude CString.

Inductive mysql_option :=
  | MYSQL_OPT_CONNECT_TIMEOUT (seconds : Z)
  | MYSQL_OPT_RECONNECT (reconnect : bool)
  | MYSQL_INIT_COMMAND (sql : string)
  | MYSQL_REPORT_DATA_TRUNCATION (report : bool).

Inductive enum_field_types :=
  | MYSQL_TYPE_DECIMAL | MYSQL_TYPE_TINY | MYSQL_TYPE_SHORT | MYSQL_TYPE_LONG
  | MYSQL_TYPE_FLOAT | MYSQL_TYPE_DOUBLE | MYSQL_TYPE_NULL | MYSQL_TYPE_TIMESTAMP
  | MYSQL_TYPE_LONGLONG | MYSQL_TYPE_INT24 | MYSQL_TYPE_DATE | MYSQL_TYPE_TIME
  | MYSQL_TYPE_DATETIME | MYSQL_TYPE_YEAR | MYSQL_TYPE_NEWDATE | MYSQL_TYPE_VARCHAR
  | MYSQL_TYPE_BIT | MYSQL_TYPE_TIMESTAMP2 | MYSQL_TYPE_DATETIME2 | MYSQL_TYPE_TIME2
  | MYSQL_TYPE_NEWDECIMAL | MYSQL_TYPE_ENUM | MYSQL_TYPE_SET | MYSQL_TYPE_TINY_BLOB
  | MYSQL_TYPE_MEDIUM_BLOB | MYSQL_TYPE_LONG_BLOB | MYSQL_TYPE_BLOB | MYSQL_TYPE_VAR_STRING
  | MYSQL_TYPE_STRING | MYSQL_TYPE_GEOMETRY.

Record mysql_field := {
  org_name : string;
  field_type : enum_field_types;
}.

(** A column of a row is the null pointer when its value is [NULL]. *)
Abbreviation mysql_row := (list (option string)).

Class Mysql (M R : Type) := {
  mysql_init : M;
  mysql_options : mysql_option → M → Z * M;
  mysql_real_connect : string → string → string → option string → Z → M → bool * M;
  mysql_real_query : string → M → Z * M;
  mysql_store_result : M → option R * M;
  mysql_insert_id : M → Z;
  mysql_fetch_row : R → option mysql_row * R;
  mysql_fetch_fields : R → list mysql_field;
  mysql_num_rows : R → Z;
}.

Definition MYSQL_CONNECT_TIMEOUT : Z := 10.
Definition MYSQL_WAIT_TIMEOUT : string := "604800".
Definition MYSQL_INTERACTIVE_TIMEOUT : string := "604800".

Record slam_db_conf := {
  conf_host : string;
  conf_username : string;
  conf_password : string;
  conf_port : Z;
}.

Record slam_db {M : Type} := {
  db_conf : option slam_db_conf;
  db_mysqlhandle : M;
}.
Arguments slam_db M : clear implicits.

Record slam_db_table := {
  tb_db : loc;
  tb_table_name : string;
}.

Record db_heap {M R : Type} := {
  dh_dbs : gmap loc (slam_db M);
  dh_results : gmap loc R;
  dh_tables : gmap loc slam_db_table;
  dh_brk : loc;
}.
Arguments db_heap M R : clear implicits.

Section db.
Context {M R : Type} `{!Mysql M R}.
Implicit Types (h : db_heap M R).

Definition with_dbs dbs h : db_heap M R :=
  {| dh_dbs := dbs; dh_results := dh_results h; dh_tables := dh_tables h; dh_brk := dh_brk h |}.

Definition with_results results h : db_heap M R :=
  {| dh_dbs := dh_dbs h; dh_results := results; dh_tables := dh_tables h; dh_brk := dh_brk h |}.

Definition with_tables tables h : db_heap M R :=
  {| dh_dbs := dh_dbs h; dh_results := dh_results h; dh_tables := tables; dh_brk := dh_brk h |}.

(** A block never used before. *)
Definition alloc h : loc * db_heap M R :=
  (dh_brk h, {| dh_dbs := dh_dbs h; dh_results := dh_results h; dh_tables := dh_tables h;
                dh_brk := Pos.succ (dh_brk h) |}).

(** ** Configuration, results, tables *)

(** [strdup] keeps a copy of each string. *)
Definition slam_db_conf_new (host username password : string) (port : Z) : slam_db_conf :=
  {| conf_host := host; conf_username := username; conf_password := password; conf_port := port |}.

Definition slam_db_result_new (res : R) h : loc * db_heap M R :=
  let '(x, h) := alloc h in (x, with_results (<[x := res]> (dh_results h)) h).

Definition slam_db_result_delete (x : loc) h : outcome (db_heap M R) :=
  DEREF _ := dh_results h !! x ;; Ok (with_results (delete x (dh_results h)) h).

Definition slam_db_result_fetch_row (x : loc) h : outcome (option mysql_row * db_heap M R) :=
  DEREF res := dh_results h !! x ;;
  let '(row, res) := mysql_fetch_row (M:=M) res in
  Ok (row, with_results (<[x := res]> (dh_results h)) h).

Definition slam_db_result_fetch_field (x : loc) h : outcome (list mysql_field) :=
  DEREF res := dh_results h !! x ;; Ok (mysql_fetch_fields (M:=M) res).

(** The lengths of the columns of the row fetched last. *)
Definition slam_db_result_fetch_length (row : mysql_row) : list Z :=
  (λ c, Z.of_nat (String.length (default EmptyString c))) <$> row.

Definition slam_db_result_row_number (x : loc) h : outcome Z :=
  DEREF res := dh_results h !! x ;; Ok (mysql_num_rows (M:=M) res).

Definition slam_db_result_field_number (x : loc) h : outcome Z :=
  DEREF res := dh_results h !! x ;; Ok (len (mysql_fetch_fields (M:=M) res)).

Definition slam_db_table_new (db : loc) (table_name : string) h : loc * db_heap M R :=
  let '(x, h) := alloc h in
  (x, with_tables (<[x := {| tb_db := db; tb_table_name := table_name |}]> (dh_tables h)) h).

Definition slam_db_table_delete (x : loc) h : outcome (db_heap M R) :=
  DEREF _ := dh_tables h !! x ;; Ok (with_tables (delete x (dh_tables h)) h).

(** ** The connection *)
Definition slam_db_new h : loc * db_heap M R :=
  let '(x, h) := alloc h in
  (x, with_dbs (<[x := {| db_conf := None; db_mysqlhandle := mysql_init (R:=R) |}]> (dh_dbs h)) h).

(** Closing, and freeing the configuration with the connection. *)
Definition slam_db_delete (x : loc) h : outcome (db_heap M R) :=
  DEREF _ := dh_dbs h !! x ;; Ok (with_dbs (delete x (dh_dbs h)) h).

Definition set_handle (x : loc) (db : slam_db M) (handle : M) h : db_heap M R :=
  with_dbs (<[x := {| db_conf := db_conf db; db_mysqlhandle := handle |}]> (dh_dbs h)) h.

Definition slam_db_execute (x : loc) (sql : string) h : outcome (bool * db_heap M R) :=
  DEREF db := dh_dbs h !! x ;;
  let '(rc, handle) := mysql_real_query (R:=R) (c_str sql) (db_mysqlhandle db) in
  Ok (rc =? 0, set_handle x db handle h).

Definition slam_db_query (x : loc) (sql : string) h : outcome (ptr * db_heap M R) :=
  DEREF db := dh_dbs h !! x ;;
  let '(rc, handle) := mysql_real_query (R:=R) (c_str sql) (db_mysqlhandle db) in
  if negb (rc =? 0) then Ok (None, set_handle x db handle h)
  else
    let '(res, handle) := mysql_store_result handle in
    let h := set_handle x db handle h in
    match res with
    | None => Ok (None, h)                          (* "mysql store result" *)
    | Some res => let '(r, h) := slam_db_result_new res h in Ok (Some r, h)
    end.

Definition slam_db_insert_id (x : loc) h : outcome Z :=
  DEREF db := dh_dbs h !! x ;; Ok (u64 (mysql_insert_id (R:=R) (db_mysqlhandle db))).

(** Options are set one by one; the first that is refused ends the connecting. *)
Definition connect_options : list mysql_option :=
  [MYSQL_OPT_CONNECT_TIMEOUT MYSQL_CONNECT_TIMEOUT; MYSQL_OPT_RECONNECT true;
   MYSQL_INIT_COMMAND ("SET WAIT_TIMEOUT = " +:+ MYSQL_WAIT_TIMEOUT);
   MYSQL_INIT_COMMAND ("SET INTERACTIVE_TIMEOUT = " +:+ MYSQL_INTERACTIVE_TIMEOUT);
   MYSQL_REPORT_DATA_TRUNCATION true].

Fixpoint set_options (os : list mysql_option) (handle : M) : bool * M :=
  match os with
  | [] => (true, handle)
  | o :: os =>
      let '(rc, handle) := mysql_options (R:=R) o handle in
      if rc =? 0 then set_options os handle else (false, handle)
  end.

Definition slam_db_connect (x : loc) (host username passwd : string) (port : Z) (database : option string) h
    : outcome (bool * db_heap M R) :=
  DEREF db := dh_dbs h !! x ;;
  let '(b, handle) := set_options connect_options (db_mysqlhandle db) in
  if negb b then Ok (false, set_handle x db handle h)  (* "mysql options error" *)
  else
    let '(b, handle) := mysql_real_connect (R:=R) host username passwd database port handle in
    if negb b then Ok (false, set_handle x db handle h) (* "mysql connect error" *)
    else
      let conf := slam_db_conf_new host username passwd port in
      let h := with_dbs (<[x := {| db_conf := Some conf; db_mysqlhandle := handle |}]> (dh_dbs h)) h in
      slam_db_execute x "SET NAMES UTF8" h.
End db.
