(* ===== verification/LuaDb.v ===== *)
(** * The database functions of the script interface ([slam_lua_db.c])

    Statements are built from Lua tables in a byte buffer and given to the client;
    result sets become Lua tables.  A database is a userdata with the metatable
    [cc.DB] holding the pointer of its [slam_db]; userdata and the metatable they
    carry are kept beside the client's heap.  A function that raises a Lua error
    returns [None] for its number of results. *)

From S2P Require Import Prelude CString ByteBuffer LuaValue LuaApi LuaTable Lua LuaFunc Db.

Definition SLAM_LUA_METATABLE_DB_NAME : string := "cc.DB".

Section operations.
Context {L M R : Type} `{!LuaState L, !LuaTables L, !Mysql M R}.
Context (atof : string → lua_Number).
Implicit Types (l : L) (bb : slam_byte_buffer).

(** ** Statements *)
Abbreviation bytes := String.list_byte_of_string.

(** The bytes [lua_tolstring] gives: none when the value is not a string or a
    number, where it returns a null pointer and leaves the length at 0. *)
Definition tolstring_bytes l (idx : Z) : list byte * L :=
  let '(s, l) := lua_tolstring_at l idx in (bytes (default EmptyString s), l).

Definition slam_lua_db_encode_key (idx : Z) l bb : outcome (bool * L * slam_byte_buffer) :=
  let '(key, l) := tolstring_bytes l idx in
  bb ← slam_byte_buffer_write bb key;
  Ok (true, l, bb).

Definition slam_lua_db_encode_value (idx : Z) l bb : outcome (bool * L * slam_byte_buffer) :=
  if lua_isnone l idx || lua_isnil l idx then
    bb ← slam_byte_buffer_write bb (bytes "null"); Ok (true, l, bb)
  else if lua_isboolean l idx || lua_isnumber l idx then
    let '(value, l) := tolstring_bytes l idx in
    bb ← slam_byte_buffer_write bb value; Ok (true, l, bb)
  else if lua_isstring l idx then
    let '(value, l) := tolstring_bytes l idx in
    bb ← slam_byte_buffer_write bb (bytes "'");
    bb ← slam_byte_buffer_write bb value;
    bb ← slam_byte_buffer_write bb (bytes "'");
    Ok (true, l, bb)
  else Ok (false, l, bb).                           (* "value is illegal type" *)

(** The loop of [lua_next]; [None]: the traversal raised an error. *)
Fixpoint encode_pairs (fuel : nat) (t : loc) (rc : bool) l bb
    : outcome (option bool * L * slam_byte_buffer) :=
  match fuel with
  | O => NoFuel
  | S fuel =>
      next ← lua_next_raises t l;
      match next with
      | None => Ok (None, l, bb)
      | Some (false, l) => Ok (Some true, l, bb)
      | Some (true, l) =>
          bb ← (if rc then slam_byte_buffer_write bb (bytes ",") else Ok bb);
          '(rc, l, bb) ← slam_lua_db_encode_key (-2) l bb;
          if negb rc then Ok (Some false, l, bb)    (* "encode key error" *)
          else
            bb ← slam_byte_buffer_write bb (bytes "=");
            '(rc, l, bb) ← slam_lua_db_encode_value (-1) l bb;
            if negb rc then Ok (Some false, l, bb)  (* "encode value error" *)
            else encode_pairs fuel t rc (lua_pop 1 l) bb
      end
  end.

Definition slam_lua_db_encode_table (idx : Z) l bb : outcome (option bool * L * slam_byte_buffer) :=
  match lua_at l idx with
  | Some (LTable t) => encode_pairs (S (length (lua_entries t l))) t false (lua_push LNil l) bb
  | _ => Undef
  end.

(** ** Result sets *)
Definition decode_column (type : enum_field_types) (column : option string) : outcome lua_value :=
  match type with
  | MYSQL_TYPE_TINY | MYSQL_TYPE_SHORT | MYSQL_TYPE_INT24 | MYSQL_TYPE_BIT =>
      n ← atoi column; Ok (LNumber (lua_of_integer (L:=L) n))
  | MYSQL_TYPE_LONG | MYSQL_TYPE_LONGLONG =>
      n ← atol column; Ok (LNumber (lua_of_integer (L:=L) n))
  | MYSQL_TYPE_DECIMAL | MYSQL_TYPE_NEWDECIMAL | MYSQL_TYPE_FLOAT | MYSQL_TYPE_DOUBLE =>
      DEREF s := column ;; Ok (LNumber (atof s))
  | MYSQL_TYPE_TIMESTAMP | MYSQL_TYPE_DATE | MYSQL_TYPE_TIME | MYSQL_TYPE_DATETIME | MYSQL_TYPE_YEAR
  | MYSQL_TYPE_STRING | MYSQL_TYPE_VAR_STRING | MYSQL_TYPE_BLOB =>
      Ok (LString (default EmptyString column))     (* a null pointer of length 0 *)
  | _ => Ok LNil                                    (* "ignore type" *)
  end.

Fixpoint decode_columns (fields : list mysql_field) (row : mysql_row) l : outcome L :=
  match fields, row with
  | [], _ => Ok l
  | field :: fields, column :: row =>
      v ← decode_column (field_type field) column;
      l ← lua_settable_3 (lua_push v (lua_push (LString (org_name field)) l));
      decode_columns fields row l
  | _ :: _, [] => Undef                             (* past the end of the row *)
  end.

(** The loop over the rows, which are numbered from [row_number]. *)
Fixpoint decode_rows (fuel : nat) (fields : list mysql_field) (result : loc) (row_number : Z)
    (h : db_heap M R) l : outcome (L * db_heap M R) :=
  match fuel with
  | O => NoFuel
  | S fuel =>
      '(row, h) ← slam_db_result_fetch_row result h;
      match row with
      | None => Ok (l, h)
      | Some row =>
          let l := lua_newtable (lua_pushinteger (i64 row_number) l) in
          l ← decode_columns fields row l;
          l ← lua_settable_3 l;
          decode_rows fuel fields result (u64 (row_number + 1)) h l
      end
  end.

Definition slam_lua_db_decode_result (fuel : nat) (result : loc) (h : db_heap M R) l
    : outcome (bool * (L * db_heap M R)) :=
  fields ← slam_db_result_fetch_field result h;
  '(l, h) ← decode_rows fuel fields result 1 h (lua_newtable l);
  Ok (true, (l, h)).

(** ** The functions *)
Record db_world := {
  dw_heap : db_heap M R;
  dw_userdata : gmap loc (loc * lua_value);         (* the pointer it holds, its metatable *)
  dw_ubrk : loc;
}.

Definition with_heap (h : db_heap M R) (w : db_world) : db_world :=
  {| dw_heap := h; dw_userdata := dw_userdata w; dw_ubrk := dw_ubrk w |}.

Definition db_function : Type := L * db_world → outcome (option nat * (L * db_world)).

Definition luaL_getmetatable (tname : string) l : lua_value := lua_rawget lua_registry (LString tname) l.

(** The userdata at the index 1; [None]: a Lua error. *)
Definition luaL_checkudata l (w : db_world) (tname : string) : option loc :=
  match lua_at l 1 with
  | Some (LUserdata u) =>
      match dw_userdata w !! u with
      | Some (p, mt) => if decide (mt ≠ LNil ∧ mt = luaL_getmetatable tname l) then Some p else None
      | None => None
      end
  | _ => None
  end.

Definition push_result (v : lua_value) l (w : db_world) : outcome (option nat * (L * db_world)) :=
  Ok (Some 1%nat, (lua_push v l, w)).

Definition cc_newdb : db_function := λ '(l, w),
  let args := lua_gettop l in
  if negb (args =? 4) then Ok (Some 0%nat, (l, w))
  else if negb (lua_isstring l 1) then Ok (Some 0%nat, (l, w))
  else if negb (lua_isstring l 2) then Ok (Some 0%nat, (l, w))
  else if negb (lua_isstring l 3) then Ok (Some 0%nat, (l, w))
  else if negb (lua_isnumber l 4) then Ok (Some 0%nat, (l, w))
  else
    let '(host, l) := lua_tolstring_at l 1 in
    let '(username, l) := lua_tolstring_at l 2 in
    let '(password, l) := lua_tolstring_at l 3 in
    let port := i32 (lua_tointeger l 4) in
    let '(db, h) := slam_db_new (dw_heap w) in
    '(rc, h) ← slam_db_connect db (c_str (default EmptyString host)) (c_str (default EmptyString username))
      (c_str (default EmptyString password)) port None h;
    if negb rc then
      h ← slam_db_delete db h;
      push_result LNil l (with_heap h w)
    else
      let u := dw_ubrk w in
      let mt := luaL_getmetatable SLAM_LUA_METATABLE_DB_NAME l in
      push_result (LUserdata u) l
        {| dw_heap := h; dw_userdata := <[u := (db, mt)]> (dw_userdata w); dw_ubrk := Pos.succ u |}.

Definition cc_db_gc : db_function := λ '(l, w),
  match luaL_checkudata l w SLAM_LUA_METATABLE_DB_NAME with
  | None => Ok (None, (l, w))
  | Some db => h ← slam_db_delete db (dw_heap w); Ok (Some 0%nat, (l, with_heap h w))
  end.

Definition cc_db_tostring : db_function := λ '(l, w), push_result (LString "db") l w.

Definition cc_db_insert_id : db_function := λ '(l, w),
  if negb (lua_gettop l =? 1) then push_result (LNumber (lua_of_integer (L:=L) (-1))) l w
  else
    match luaL_checkudata l w SLAM_LUA_METATABLE_DB_NAME with
    | None => Ok (None, (l, w))
    | Some db => n ← slam_db_insert_id db (dw_heap w); push_result (LNumber (lua_of_integer (L:=L) (i64 n))) l w
    end.

Definition cc_db_execute : db_function := λ '(l, w),
  if negb (lua_gettop l =? 2) then push_result (LBoolean false) l w
  else
    match luaL_checkudata l w SLAM_LUA_METATABLE_DB_NAME with
    | None => Ok (None, (l, w))
    | Some db =>
        if negb (lua_isstring l (-1)) then push_result (LBoolean false) l w
        else
          let '(sql, l) := lua_tolstring_at l (-1) in
          '(rc, h) ← slam_db_execute db (default EmptyString sql) (dw_heap w);
          push_result (LBoolean rc) l (with_heap h w)
    end.

Definition cc_db_query (fuel : nat) : db_function := λ '(l, w),
  if negb (lua_gettop l =? 2) then push_result LNil l w
  else
    match luaL_checkudata l w SLAM_LUA_METATABLE_DB_NAME with
    | None => Ok (None, (l, w))
    | Some db =>
        if negb (lua_isstring l 2) then push_result LNil l w
        else
          let '(sql, l) := lua_tolstring_at l 2 in
          '(result, h) ← slam_db_query db (default EmptyString sql) (dw_heap w);
          match result with
          | None => push_result LNil l (with_heap h w)
          | Some result =>
              '(_, (l, h)) ← slam_lua_db_decode_result fuel result h l;
              h ← slam_db_result_delete result h;
              Ok (Some 1%nat, (l, with_heap h w))
          end
    end.

(** The statement in the buffer, up to its first NUL. *)
Definition execute_buffer (db : loc) bb (w : db_world) : outcome (bool * db_world) :=
  bb ← slam_byte_buffer_write bb [x00];
  n ← slam_byte_buffer_size bb;
  sql ← load (slam_byte_buffer_readbuffer bb) n (default [] (bb_bytes bb));
  '(rc, h) ← slam_db_execute db (c_str (String.string_of_list_byte sql)) (dw_heap w);
  Ok (rc, with_heap h w).

(** The tail of [insert] and [update]: the record, the rest of the statement, and
    the execution.  When the traversal raises an error the buffer is lost. *)
Definition execute_record (db : loc) (cond : option (list byte)) l bb w
    : outcome (option nat * (L * db_world)) :=
  '(rc, l, bb) ← slam_lua_db_encode_table 3 l bb;
  match rc with
  | None => Ok (None, (l, w))
  | Some false => push_result (LBoolean false) l w
  | Some true =>
      bb ← match cond with
           | Some cond =>
               bb ← slam_byte_buffer_write bb (bytes " where ");
               slam_byte_buffer_write bb cond
           | None => Ok bb
           end;
      '(rc, w) ← execute_buffer db bb w;
      push_result (LBoolean rc) l w
  end.

Definition cc_db_insert : db_function := λ '(l, w),
  if negb (lua_gettop l =? 3) then push_result (LBoolean false) l w
  else
    match luaL_checkudata l w SLAM_LUA_METATABLE_DB_NAME with
    | None => Ok (None, (l, w))
    | Some db =>
        if negb (lua_isstring l 2) then push_result (LBoolean false) l w
        else if negb (lua_istable l 3) then push_result (LBoolean false) l w
        else
          let '(table_name, l) := tolstring_bytes l 2 in
          bb ← slam_byte_buffer_new 4096;
          bb ← slam_byte_buffer_write bb (bytes "insert into `");
          bb ← slam_byte_buffer_write bb table_name;
          bb ← slam_byte_buffer_write bb (bytes "` set ");
          execute_record db None l bb w
    end.

Definition cc_db_update : db_function := λ '(l, w),
  let args := lua_gettop l in
  if negb (args =? 3) && negb (args =? 4) then push_result (LBoolean false) l w
  else
    match luaL_checkudata l w SLAM_LUA_METATABLE_DB_NAME with
    | None => Ok (None, (l, w))
    | Some db =>
        if negb (lua_isstring l 2) then push_result (LBoolean false) l w
        else
          let '(table, l) := tolstring_bytes l 2 in
          if negb (lua_istable l 3) then push_result (LBoolean false) l w
          else if (args =? 4) && negb (lua_isstring l 4) then push_result (LBoolean false) l w
          else
            let '(cond, l) := if args =? 4 then let '(cond, l) := tolstring_bytes l 4 in (Some cond, l)
                               else (None, l) in
            bb ← slam_byte_buffer_new 4096;
            bb ← slam_byte_buffer_write bb (bytes "update `");
            bb ← slam_byte_buffer_write bb table;
            bb ← slam_byte_buffer_write bb (bytes "` set ");
            execute_record db cond l bb w
    end.
End operations.

(** ** Registration *)
Section registration.
Context {L : Type} `{!LuaState L}.
Implicit Types (l : L).

(** The metatable of the name, made when it is not there; its table. *)
Definition luaL_newmetatable (tname : string) l : L :=
  match lua_rawget lua_registry (LString tname) l with
  | LNil =>
      let '(t, l) := lua_createtable l in
      lua_push (LTable t) (lua_rawset lua_registry (LString tname) (LTable t) l)
  | mt => lua_push mt l
  end.

Definition db_methods : list (string * string) :=
  [("execute", "cc_db_execute"); ("query", "cc_db_query"); ("insert", "cc_db_insert");
   ("update", "cc_db_update"); ("insert_id", "cc_db_insert_id");
   ("__gc", "__cc_db_gc"); ("__tostring", "__cc_db_tostring")]%string.

(** [lua_pushvalue(L, -1)] and [lua_setfield(L, -2, "__index")]. *)
Definition set_index l : outcome L :=
  match lua_at l (-1) with
  | Some (LTable t) => Ok (lua_rawset t (LString "__index") (LTable t) l)
  | _ => Undef
  end.

Definition slam_lua_reg_db_func l : outcome L :=
  l ← slam_lua_begin_namespace SLAM_LUA_REGISTER_NAMESPACE l;
  let l := luaL_newmetatable SLAM_LUA_METATABLE_DB_NAME l in
  l ← set_index l;
  l ← lua_register_all db_methods l;
  let l := slam_lua_end_namespace l in
  l ← slam_lua_begin_namespace SLAM_LUA_REGISTER_NAMESPACE l;
  l ← slam_lua_reg_function "newdb" "cc_newdb" l;
  Ok (slam_lua_end_namespace l).
End registration.
