(* ===== verification/SqlText.v ===== *)
(** * The statements the database functions execute

    [insert] and [update] execute exactly the text their table spells: the pairs
    in the order Lua walks the table, strings quoted but not escaped. *)

From S2P Require Import Prelude CString ByteBuffer LuaValue LuaApi LuaTable Lua Db LuaDb.

#[local] Opaque slam_byte_buffer_new slam_byte_buffer_write.

Section text.
Context {L : Type} `{!LuaState L}.
Local Abbreviation bytes := String.list_byte_of_string.

(** ** The text of a record *)
Definition key_sql (k : lua_value) : option (list byte) :=
  match k with LString s => Some (bytes s) | _ => None end.

(** A boolean gives no text at all; a string that reads as a number is not
    quoted. *)
Definition value_sql (v : lua_value) : option (list byte) :=
  match v with
  | LBoolean _ => Some []
  | LNumber n => Some (bytes (lua_number2str (L:=L) n))
  | LString s =>
      match lua_str2number (L:=L) s with
      | Some _ => Some (bytes s)
      | None => Some (bytes "'" ++ bytes s ++ bytes "'")
      end
  | _ => None
  end.

Definition pair_sql (k v : lua_value) : option (list byte) :=
  match key_sql k, value_sql v with
  | Some k, Some v => Some (k ++ bytes "=" ++ v)
  | _, _ => None
  end.

Fixpoint record_sql (comma : bool) (es : list (lua_value * lua_value)) : option (list byte) :=
  match es with
  | [] => Some []
  | (k, v) :: es =>
      match pair_sql k v, record_sql true es with
      | Some p, Some r => Some ((if comma then bytes "," else []) ++ p ++ r)
      | _, _ => None
      end
  end.

Definition insert_sql (table_name : string) (record : list byte) : list byte :=
  bytes "insert into `" ++ bytes table_name ++ bytes "` set " ++ record.

Definition update_sql (table_name : string) (record : list byte) (cond : option string) : list byte :=
  bytes "update `" ++ bytes table_name ++ bytes "` set " ++ record ++
    match cond with Some c => bytes " where " ++ bytes c | None => [] end.

(** ** Writes to a buffer that has room for them *)
Definition buffered bb (q : list byte) (room : Z) : Prop := bb_rep bb q ∧ bb_capacity bb + room < 2 ^ 64.

Lemma write_buffered bb q room data :
  buffered bb q room → Z.max (len data) 512 <= room →
  ∃ bb', slam_byte_buffer_write bb data = Ok bb' ∧
    buffered bb' (q ++ data) (room - Z.max (len data) 512).
Proof.
  intros [H Hc] Hr. destruct (rep_write_ok bb q data H) as (bb' & E & H' & Hc').
  { unfold BUFFER_CHUNK_SIZE. lia. }
  exists bb'. split; [done|]. split; [done|]. unfold BUFFER_CHUNK_SIZE in Hc'. lia.
Qed.

Lemma buffered_weaken bb q room room' : buffered bb q room → room' <= room → buffered bb q room'.
Proof. intros [H Hc] Hr. split; [done|lia]. Qed.
End text.

Section encode.
Context {L : Type} `{!LuaState L, !LuaStateLaws L, !LuaTables L, !LuaTablesLaws L}.
Implicit Types (l : L).
Local Abbreviation bytes := String.list_byte_of_string.

(** What a write may take of the room: its length and a chunk. *)
Definition write_room (data : list byte) : Z := len data + 512.

Lemma write_ok bb q room data :
  buffered bb q (write_room data + room) →
  0 <= room →
  ∃ bb', slam_byte_buffer_write bb data = Ok bb' ∧ buffered bb' (q ++ data) room.
Proof.
  unfold write_room. intros H Hr. pose proof (len_nonneg data).
  destruct (write_buffered bb q _ data H) as (bb' & E & H'); [lia|].
  exists bb'. split; [done|]. eapply buffered_weaken; [done|lia].
Qed.

Lemma encode_value_ok l v stk sql bb q room :
  lua_stack l = v :: stk → v ≠ LNil → value_sql (L:=L) v = Some sql →
  buffered bb q (len sql + 3 * 512 + room) → 0 <= room →
  ∃ v' bb', slam_lua_db_encode_value (-1) l bb = Ok (true, lua_set_stack (v' :: stk) l, bb') ∧
    buffered bb' (q ++ sql) room.
Proof.
  intros Hs Hnil Hsql Hb Hr. pose proof (len_nonneg sql).
  assert (lua_at l (-1) = Some v) as Hat by (unfold lua_at; simpl; by rewrite Hs).
  assert (l = lua_set_stack (v :: stk) l) as Hl by (by rewrite <-Hs, lua_set_stack_id).
  unfold slam_lua_db_encode_value, lua_isnone, lua_isnil, lua_isboolean, lua_isnumber, lua_isstring,
    tolstring_bytes, lua_tolstring_at, lua_tostring, test. rewrite Hat.
  destruct v; try done; cbn [value_sql] in Hsql; simpl.
  - injection Hsql as <-. destruct (write_ok bb q room (bytes String.EmptyString)) as (bb' & E & H'); [unfold write_room; eapply buffered_weaken; [done|len]|done|].
    exists (LBoolean b), bb'. rewrite E. simpl. by rewrite <-Hl.
  - injection Hsql as <-. destruct (write_ok bb q room (bytes (lua_number2str (L:=L) n))) as (bb' & E & H');
      [unfold write_room; eapply buffered_weaken; [done|lia]|done|].
    eexists _, bb'. rewrite E. simpl. rewrite Hs. by split.
  - destruct (lua_str2number s); apply (inj Some) in Hsql; subst sql; simpl.
    + destruct (write_ok bb q room (bytes s)) as (bb' & E & H');
        [unfold write_room; eapply buffered_weaken; [done|lia]|done|].
      exists (LString s), bb'. rewrite E. simpl. by rewrite <-Hl.
    + rewrite !len_app in Hb. change (len (bytes "'")) with 1 in Hb. pose proof (len_nonneg (bytes s)).
      destruct (write_ok bb q (write_room (bytes s) + (write_room (bytes "'") + room)) (bytes "'")) as (bb1 & E1 & H1).
      { unfold write_room. eapply buffered_weaken; [done|]. change (len (bytes "'")) with 1. lia. }
      { unfold write_room. change (len (bytes "'")) with 1. lia. }
      destruct (write_ok _ _ _ _ H1) as (bb2 & E2 & H2); [unfold write_room; change (len (bytes "'")) with 1; lia|].
      destruct (write_ok _ _ _ _ H2) as (bb3 & E3 & H3); [done|].
      exists (LString s), bb3. rewrite E1, bind_ok, E2, bind_ok, E3, bind_ok, <-Hl. split; [done|].
      by rewrite <-!app_assoc in H3.
Qed.

(** The room the loop needs for a record. *)
Fixpoint record_room (es : list (lua_value * lua_value)) : Z :=
  match es with
  | [] => 0
  | (k, v) :: es =>
      len (default [] (key_sql k)) + len (default [] (value_sql (L:=L) v)) + 7 * 512 + record_room es
  end.

Lemma record_room_nonneg es : 0 <= record_room es.
Proof.
  induction es as [|[k v] es IH]; simpl; [done|].
  pose proof (len_nonneg (default [] (key_sql k))). pose proof (len_nonneg (default [] (value_sql (L:=L) v))). lia.
Qed.

Lemma encode_pairs_ok t l vs es : ∀ fuel k rc sql bb q room,
  walked t l k es → (length es < fuel)%nat → record_sql (L:=L) rc es = Some sql → 0 <= room →
  Forall (λ e, e.2 ≠ LNil) es → buffered bb q (record_room es + room) →
  ∃ bb', encode_pairs fuel t rc (lua_set_stack (k :: vs) l) bb = Ok (Some true, lua_set_stack vs l, bb') ∧
    buffered bb' (q ++ sql) room.
Proof.
  induction es as [|[k' v] es IH]; intros fuel k rc sql bb q room Hw Hfuel Hsql Hr Hnil Hb;
    (destruct fuel as [|fuel]; [simpl in Hfuel; lia|]); cbn [encode_pairs];
    unfold lua_next_raises; rewrite lua_stack_set, lua_entries_set_stack, (entries_from_walked _ _ _ _ Hw), bind_ok.
  { injection Hsql as <-. exists bb. rewrite app_nil_r, lua_set_stack_set. split; [done|].
    eapply buffered_weaken; [done|simpl; lia]. }
  apply Forall_cons in Hnil as [Hv Hnil]. simpl in Hv, Hsql, Hfuel. cbn [record_room] in Hb.
  unfold pair_sql in Hsql. destruct k' as [| | |key| | | | | |]; try done. simpl in Hb, Hsql.
  destruct (value_sql v) as [vsql|] eqn:Ev; [|done]. simpl in Hb.
  destruct (record_sql true es) as [rsql|] eqn:Er; [|done]. injection Hsql as <-.
  pose proof (record_room_nonneg es) as Hn1. pose proof (len_nonneg (bytes key)) as Hn2.
  pose proof (len_nonneg vsql) as Hn3.
  rewrite lua_set_stack_set. set (l1 := lua_set_stack (v :: LString key :: vs) l).
  set (room1 := len vsql + 3 * 512 + (record_room es + room)).
  assert (∃ bb1, (if rc then slam_byte_buffer_write bb (bytes ",") else Ok bb) = Ok bb1 ∧
    buffered bb1 (q ++ (if rc then bytes "," else [])) (write_room (bytes key) + (write_room (bytes "=") + room1))) as (bb1 & -> & H1).
  { unfold room1, write_room. change (len (bytes "=")) with 1. destruct rc.
    - apply write_ok; [|lia]. unfold write_room. change (len (bytes ",")) with 1. eapply buffered_weaken; [done|lia].
    - exists bb. rewrite app_nil_r. split; [done|]. eapply buffered_weaken; [done|lia]. }
  rewrite bind_ok. unfold slam_lua_db_encode_key, tolstring_bytes, lua_tolstring_at, lua_tostring.
  assert (lua_at l1 (-2) = Some (LString key)) as -> by (unfold lua_at, l1; simpl; by rewrite lua_stack_set). simpl.
  destruct (write_ok _ _ _ _ H1) as (bb2 & -> & H2); [unfold room1, write_room; change (len (bytes "=")) with 1; lia|].
  rewrite !bind_ok. simpl.
  destruct (write_ok _ _ _ _ H2) as (bb3 & -> & H3); [unfold room1; lia|]. rewrite bind_ok.
  destruct (encode_value_ok l1 v (LString key :: vs) vsql bb3 _ (record_room es + room) (lua_stack_set _ _) Hv Ev H3)
    as (v' & bb4 & E4 & H4); [lia|]. rewrite E4, bind_ok. simpl.
  assert (lua_pop 1 (lua_set_stack (v' :: LString key :: vs) l1) = lua_set_stack (LString key :: vs) l) as ->.
  { unfold lua_pop. rewrite lua_stack_set, lua_set_stack_set. unfold l1. by rewrite lua_set_stack_set. }
  pose proof (λ q, IH fuel (LString key) true rsql bb4 q room) as IH'. edestruct IH' as (bb5 & -> & H5);
    [by eapply walked_step|lia|done|done|done|exact H4|].
  exists bb5. split; [done|]. rewrite <-(app_assoc (bytes key)).
  repeat rewrite <-app_assoc in H5. exact H5.
Qed.

Lemma encode_table_ok l t sql bb q room : lua_at l 3 = Some (LTable t) →
  record_sql (L:=L) false (lua_entries t l) = Some sql → 0 <= room →
  buffered bb q (record_room (lua_entries t l) + room) →
  ∃ bb', slam_lua_db_encode_table 3 l bb = Ok (Some true, l, bb') ∧ buffered bb' (q ++ sql) room.
Proof.
  intros Ht Hsql Hr Hb. unfold slam_lua_db_encode_table. rewrite Ht.
  destruct (encode_pairs_ok t l (lua_stack l) (lua_entries t l) (S (length (lua_entries t l))) LNil false sql bb q room)
    as (bb' & E & H'); [done|lia|done|done| |done|].
  { eapply Forall_impl; [apply entries_keys|]. intros [k v] (_ & Hv & _). exact Hv. }
  exists bb'. unfold lua_push. rewrite E, lua_set_stack_id. by split.
Qed.
End encode.

(** ** Executing the text *)
Lemma c_str_nul bs : c_str (String.string_of_list_byte (bs ++ [x00])) = c_str (String.string_of_list_byte bs).
Proof.
  unfold String.string_of_list_byte. induction bs as [|b bs IH]; [done|]. simpl. case_decide; [done|].
  f_equal. exact IH.
Qed.

Lemma len_bytes s : len (String.list_byte_of_string s) = Z.of_nat (String.length s).
Proof.
  unfold String.list_byte_of_string, len. rewrite List.length_map. f_equal.
  induction s as [|c s IH]; [done|]. simpl. by rewrite IH.
Qed.

Lemma load_rep bb q : bb_rep bb q →
  load (slam_byte_buffer_readbuffer bb) (len q) (default [] (bb_bytes bb)) = Ok q.
Proof.
  intros [(pre & post & E & Hr) _ _ _]. unfold slam_byte_buffer_readbuffer. rewrite E, <-Hr. apply load_app.
Qed.

Section execute.
Context {L M R : Type} `{!LuaState L, !LuaStateLaws L, !LuaTables L, !LuaTablesLaws L, !Mysql M R}.
Implicit Types (l : L) (w : db_world (M:=M) (R:=R)).
Local Abbreviation bytes := String.list_byte_of_string.

(** The statement [sql] on the connection [db], whose state is [c]. *)
Definition executed (sql : list byte) (db : loc) (c : slam_db M) w : bool * db_world :=
  let '(rc, handle) := mysql_real_query (R:=R) (c_str (String.string_of_list_byte sql)) (db_mysqlhandle c) in
  (rc =? 0, with_heap (set_handle db c handle (dw_heap w)) w).

Lemma execute_buffer_ok db c bb q w :
  dh_dbs (dw_heap w) !! db = Some c → buffered bb q (512 + 1) →
  execute_buffer db bb w = Ok (executed q db c w).
Proof.
  intros Hdb Hb. unfold execute_buffer. destruct (write_ok bb q 0 [x00]) as (bb' & E & [Hrep _]).
  { unfold write_room. eapply buffered_weaken; [done|]. change (len [x00]) with 1. lia. } { done. }
  rewrite E, bind_ok, (size_ok _ _ Hrep), bind_ok, (load_rep _ _ Hrep), bind_ok.
  unfold slam_db_execute, executed. rewrite Hdb, c_str_idem, c_str_nul. by destruct (mysql_real_query _ _).
Qed.

(** The arguments of a method: the database, a table name, a record. *)
Record db_args l w (args : list lua_value) (db : loc) (c : slam_db M) : Prop := {
  da_stack : ∃ u mt, reverse (lua_stack l) = LUserdata u :: args ∧ dw_userdata w !! u = Some (db, mt) ∧
    mt ≠ LNil ∧ mt = luaL_getmetatable SLAM_LUA_METATABLE_DB_NAME l;
  da_open : dh_dbs (dw_heap w) !! db = Some c;
}.

Lemma db_args_at l w args db c i : db_args l w args db c → 0 < i →
  lua_at l (i + 1) = args !! Z.to_nat (i - 1).
Proof.
  intros [(u & mt & Hs & _) _] Hi. unfold lua_at. rewrite (proj2 (Z.ltb_ge _ _)), (proj2 (Z.eqb_neq _ _)), Hs by lia.
  replace (Z.to_nat (i + 1 - 1)) with (S (Z.to_nat (i - 1))) by lia. done.
Qed.

Lemma db_args_check l w args db c : db_args l w args db c →
  luaL_checkudata l w SLAM_LUA_METATABLE_DB_NAME = Some db ∧ lua_gettop l = len args + 1.
Proof.
  intros [(u & mt & Hs & Hu & Hmt & Heq) _]. split.
  - unfold luaL_checkudata. assert (lua_at l 1 = Some (LUserdata u)) as ->.
    { unfold lua_at. simpl. by rewrite Hs. }
    rewrite Hu. by rewrite decide_True.
  - unfold lua_gettop, len. rewrite <-(length_reverse (lua_stack l)), Hs. simpl. lia.
Qed.

Lemma execute_record_ok db c (cond : option string) l t record bb q w :
  dh_dbs (dw_heap w) !! db = Some c → lua_at l 3 = Some (LTable t) →
  record_sql (L:=L) false (lua_entries t l) = Some record →
  buffered bb q (record_room (L:=L) (lua_entries t l) + (len (bytes (default EmptyString cond)) + 2048)) →
  let sql := q ++ record ++ match cond with Some s => bytes " where " ++ bytes s | None => [] end in
  execute_record db (match cond with Some s => Some (bytes s) | None => None end) l bb w =
    let '(b, w) := executed sql db c w in Ok (Some 1%nat, (lua_push (LBoolean b) l, w)).
Proof.
  intros Hdb Ht Hsql Hb sql. unfold execute_record. pose proof (len_nonneg (bytes (default EmptyString cond))) as Hc.
  destruct (encode_table_ok l t record bb q (len (bytes (default EmptyString cond)) + 2048) Ht Hsql)
    as (bb1 & -> & H1); [lia|exact Hb|]. rewrite bind_ok.
  destruct cond as [s|]; simpl in H1, Hc; subst sql; cbv beta iota.
  - destruct (write_ok bb1 (q ++ record) (write_room (bytes s) + 513) (bytes " where ")) as (bb2 & -> & H2).
    { eapply buffered_weaken; [done|]. unfold write_room. change (len (bytes " where ")) with 7. lia. }
    { unfold write_room. lia. }
    rewrite bind_ok. destruct (write_ok _ _ _ _ H2) as (bb3 & -> & H3); [done|]. rewrite bind_ok.
    rewrite (execute_buffer_ok db c bb3 _ w Hdb) by (eapply buffered_weaken; [exact H3|lia]).
    rewrite <-!app_assoc. by destruct (executed _ _ _ _).
  - rewrite bind_ok, (execute_buffer_ok db c bb1 _ w Hdb) by (eapply buffered_weaken; [exact H1|lia]).
    rewrite app_nil_r. by destruct (executed _ _ _ _).
Qed.

(** A new buffer with the front of a statement in it. *)
Lemma front_ok (front table_name back : list byte) room :
  0 <= room → 4096 + (write_room front + (write_room table_name + (write_room back + room))) < 2 ^ 64 →
  ∃ bb0 bb1 bb2 bb, slam_byte_buffer_new 4096 = Ok bb0 ∧ slam_byte_buffer_write bb0 front = Ok bb1 ∧
    slam_byte_buffer_write bb1 table_name = Ok bb2 ∧ slam_byte_buffer_write bb2 back = Ok bb ∧
    buffered bb (front ++ table_name ++ back) room.
Proof.
  intros Hr Hroom. destruct (rep_new 4096) as (bb0 & E0 & H0 & Hc); [done|done|].
  pose proof (len_nonneg front) as L1. pose proof (len_nonneg table_name) as L2. pose proof (len_nonneg back) as L3.
  unfold write_room in Hroom.
  destruct (write_ok bb0 [] (write_room table_name + (write_room back + room)) front) as (bb1 & E1 & H1).
  { split; [done|]. unfold write_room. rewrite Hc. unfold BUFFER_CHUNK_SIZE. lia. } { unfold write_room. lia. }
  destruct (write_ok _ _ _ _ H1) as (bb2 & E2 & H2); [unfold write_room; lia|].
  destruct (write_ok _ _ _ _ H2) as (bb3 & E3 & H3); [done|].
  exists bb0, bb1, bb2, bb3. split_and!; [done..|]. by rewrite <-app_assoc in H3.
Qed.
End execute.

(** Claim C26.  [insert] and [update] on an open database, with a record whose keys
    are strings and whose values have a text, execute exactly that text: the
    table's name in backquotes, the pairs in the order Lua walks the table,
    numbers, and strings that read as numbers, as they are, other strings in
    quotes with nothing escaped, booleans as nothing at all, and the condition as
    it is; a NUL in it ends the statement.  The one change is to the connection,
    and the script is told whether the statement succeeded. *)
Theorem insert_update_execute {L M R} `{!LuaState L, !LuaStateLaws L, !LuaTables L, !LuaTablesLaws L, !Mysql M R}
    (l : L) (w : db_world (M:=M) (R:=R)) db c table_name t (cond : option string) record :
  db_args l w (LString table_name :: LTable t :: match cond with Some s => [LString s] | None => [] end) db c →
  record_sql (L:=L) false (lua_entries t l) = Some record →
  record_room (L:=L) (lua_entries t l) + Z.of_nat (String.length table_name)
    + Z.of_nat (String.length (default EmptyString cond)) < 2 ^ 63 →
  cc_db_update (l, w) =
    (let '(b, w) := executed (update_sql table_name record cond) db c w in
     Ok (Some 1%nat, (lua_push (LBoolean b) l, w))) ∧
  (cond = None → cc_db_insert (l, w) =
    (let '(b, w) := executed (insert_sql table_name record) db c w in
     Ok (Some 1%nat, (lua_push (LBoolean b) l, w)))).
Proof.
  intros Ha Hsql Hroom. destruct (db_args_check _ _ _ _ _ Ha) as [Hcheck Htop].
  assert (lua_at l 2 = Some (LString table_name)) as H2 by exact (db_args_at _ _ _ _ _ 1 Ha eq_refl).
  assert (lua_at l 3 = Some (LTable t)) as H3 by exact (db_args_at _ _ _ _ _ 2 Ha eq_refl).
  assert (lua_at l 4 = match cond with Some s => Some (LString s) | None => None end) as H4
    by (rewrite (db_args_at _ _ _ _ _ 3 Ha eq_refl : lua_at l 4 = _); by destruct cond).
  pose proof (da_open _ _ _ _ _ Ha) as Hopen. pose proof (record_room_nonneg (L:=L) (lua_entries t l)) as Hn.
  assert (∀ s, len (String.list_byte_of_string s) = Z.of_nat (String.length s)) as Hlen by apply len_bytes.
  assert (lua_isstring l 2 = true ∧ lua_istable l 3 = true) as [Hs2 Ht3]
    by (unfold lua_isstring, lua_istable, test; by rewrite H2, H3).
  assert (tolstring_bytes l 2 = (String.list_byte_of_string table_name, l)) as Hname
    by (unfold tolstring_bytes, lua_tolstring_at, lua_tostring; by rewrite H2).
  split.
  - unfold cc_db_update. rewrite Htop, Hcheck, Hs2, Hname, Ht3.
    destruct (front_ok (String.list_byte_of_string "update `") (String.list_byte_of_string table_name)
      (String.list_byte_of_string "` set ")
      (record_room (L:=L) (lua_entries t l) + (len (String.list_byte_of_string (default EmptyString cond)) + 2048)))
      as (bb0 & bb1 & bb2 & bb & E0 & E1 & E2 & E3 & Hb); [rewrite Hlen; lia|unfold write_room; rewrite !Hlen; simpl String.length; lia|].
    pose proof (execute_record_ok db c cond l t record bb _ w Hopen H3 Hsql Hb) as E. rewrite <-!app_assoc in E.
    destruct cond as [s|]; simpl.
    + assert (lua_isstring l 4 = true) as -> by (unfold lua_isstring, test; by rewrite H4).
      assert (tolstring_bytes l 4 = (String.list_byte_of_string s, l)) as ->
        by (unfold tolstring_bytes, lua_tolstring_at, lua_tostring; by rewrite H4).
      simpl. rewrite E0, bind_ok, E1, bind_ok, E2, bind_ok, E3, bind_ok. exact E.
    + rewrite E0, bind_ok, E1, bind_ok, E2, bind_ok, E3, bind_ok. exact E.
  - intros ->. unfold cc_db_insert. rewrite Htop, Hcheck, Hs2, Hname, Ht3.
    destruct (front_ok (String.list_byte_of_string "insert into `") (String.list_byte_of_string table_name)
      (String.list_byte_of_string "` set ") (record_room (L:=L) (lua_entries t l) + 2048))
      as (bb0 & bb1 & bb2 & bb & E0 & E1 & E2 & E3 & Hb); [lia|unfold write_room; rewrite !Hlen; simpl String.length; lia|].
    pose proof (execute_record_ok db c None l t record bb _ w Hopen H3 Hsql Hb) as E.
    rewrite app_nil_r, <-!app_assoc in E. simpl. rewrite E0, bind_ok, E1, bind_ok, E2, bind_ok, E3, bind_ok. exact E.
Qed.

(** ** A connection that logs its statements *)
Module SqlDemo.
#[global] Instance log : Mysql (list string) unit := {
  mysql_init := [];
  mysql_options _ m := (0, m);
  mysql_real_connect _ _ _ _ _ m := (true, m);
  mysql_real_query sql m := (0, m ++ [sql]);
  mysql_store_result m := (Some tt, m);
  mysql_insert_id _ := 1;
  mysql_fetch_row r := (None, r);
  mysql_fetch_fields _ := [];
  mysql_num_rows _ := 0;
}.

Definition conn : slam_db (list string) := {| db_conf := None; db_mysqlhandle := [] |}.

Definition w : db_world (M:=list string) (R:=unit) :=
  {| dw_heap := {| dh_dbs := {[1%positive := conn]}; dh_results := ∅; dh_tables := ∅; dh_brk := 2 |};
     dw_userdata := {[5%positive := (1%positive, LTable 9)]}; dw_ubrk := 6 |}.

(** The record [{name = "O'Hara", vip = true}] of the table [users]. *)
Definition l : Concrete.state :=
  let l := Concrete.rawset 2 (LString "cc.DB") (LTable 9) Concrete.init in
  let l := Concrete.rawset 3 (LString "vip") (LBoolean true) l in
  let l := Concrete.rawset 3 (LString "name") (LString "O'Hara") l in
  lua_set_stack (reverse [LUserdata 5; LString "users"; LTable 3; LString "id=7"]) l.

Definition record : list byte := String.list_byte_of_string "name='O'Hara',vip=".
End SqlDemo.

Lemma insert_update_execute_witness :
  ∃ l' w', cc_db_update (SqlDemo.l, SqlDemo.w) = Ok (Some 1%nat, (lua_push (LBoolean true) l', w')) ∧
    (db_mysqlhandle <$> dh_dbs (dw_heap w') !! 1%positive) =
      Some ["update `users` set name='O'Hara',vip= where id=7"%string].
Proof.
  destruct (insert_update_execute SqlDemo.l SqlDemo.w 1 SqlDemo.conn "users" 3 (Some "id=7"%string) SqlDemo.record)
    as [Hu _]; [|reflexivity|reflexivity|].
  { split; [|reflexivity]. exists 5%positive, (LTable 9). split; [reflexivity|]. split; [reflexivity|].
    split; [discriminate|reflexivity]. }
  eexists _, _. split; [exact Hu|]. vm_compute. reflexivity.
Defined.
