(* ===== verification/LuaDbOwnership.v ===== *)
(** * Who owns a database ([cc_newdb], [__cc_db_gc])

    A new database is owned by the userdata the script gets; a connection that
    fails leaves nothing behind.  The script can reach the finalizer, and then
    the collector frees the database again. *)

From S2P Require Import Prelude CString ByteBuffer LuaValue LuaApi LuaTable Lua LuaFunc Db LuaDb.

Section ownership.
Context {L M R : Type} `{!LuaState L, !LuaStateLaws L, !LuaTables L, !Mysql M R}.
Implicit Types (l : L) (w : db_world (M:=M) (R:=R)).

(** The connection that the server gives: every option is accepted, the server
    lets the user in, and it takes the character set.  [None] when one of these
    fails. *)
Definition connection (host username passwd : string) (port : Z) : option M :=
  match set_options connect_options (mysql_init (R:=R)) with
  | (false, _) => None
  | (true, handle) =>
      match mysql_real_connect (R:=R) host username passwd None port handle with
      | (false, _) => None
      | (true, handle) =>
          match mysql_real_query (R:=R) "SET NAMES UTF8" handle with
          | (0, handle) => Some handle
          | _ => None
          end
      end
  end.

(** Connecting a new database says whether there is a connection, and keeps it. *)
Lemma connect_connects x host username passwd port (h : db_heap M R) :
  dh_dbs h !! x = Some {| db_conf := None; db_mysqlhandle := mysql_init (R:=R) |} →
  ∃ b db h', slam_db_connect x host username passwd port None h = Ok (b, h') ∧
    dh_dbs h' = <[x := db]> (dh_dbs h) ∧
    match connection host username passwd port with
    | None => b = false
    | Some handle => b = true ∧
        db = {| db_conf := Some (slam_db_conf_new host username passwd port); db_mysqlhandle := handle |}
    end.
Proof.
  intros Hx. unfold slam_db_connect, connection. rewrite Hx. simpl db_mysqlhandle.
  destruct (set_options _ _) as [[] handle]; simpl; [|by eexists _, _, _].
  destruct (mysql_real_connect _ _ _ _ _ _) as [[] handle2]; simpl; [|by eexists _, _, _].
  unfold slam_db_execute. simpl. rewrite lookup_insert_eq.
  change (c_str "SET NAMES UTF8") with "SET NAMES UTF8"%string.
  destruct (mysql_real_query _ _) as [rc handle3]. eexists _, _, _. split; [done|]. simpl.
  split; [by rewrite insert_insert_eq|]. by destruct rc.
Qed.

(** [lua_tolstring] gives the text of an argument, and changes no other one. *)
Lemma tolstring_spec l idx :
  0 < idx <= lua_gettop l →
  (lua_tolstring_at l idx).1 = lua_tostring l idx ∧
  lua_gettop (lua_tolstring_at l idx).2 = lua_gettop l ∧
  (∀ j, 0 < j → j ≠ idx → lua_at (lua_tolstring_at l idx).2 j = lua_at l j) ∧
  lua_rawget lua_registry (LString SLAM_LUA_METATABLE_DB_NAME) (lua_tolstring_at l idx).2 =
    lua_rawget lua_registry (LString SLAM_LUA_METATABLE_DB_NAME) l.
Proof.
  unfold lua_tolstring_at, lua_tostring, lua_gettop. intros Hidx. unfold len in Hidx.
  destruct (lua_at l idx) as [[]|]; simpl; try by split_and!.
  rewrite lua_stack_set, len_insert, lua_rawget_set_stack. split_and!; try done.
  intros j Hj Hne. unfold lua_at. rewrite lua_stack_set.
  replace (j <? 0) with false by lia. replace (j =? 0) with false by lia. replace (idx <? 0) with false by lia.
  destruct (decide (Z.to_nat (j - 1) < length (lua_stack l))%nat) as [Hlt|Hge].
  - rewrite !reverse_lookup by (rewrite ?length_insert; lia). rewrite length_insert.
    apply list_lookup_insert_ne. unfold len. lia.
  - rewrite !lookup_ge_None_2; [done|..]; rewrite length_reverse, ?length_insert; lia.
Qed.

(** Claim C27.  [newdb] with four arguments of the right kinds asks the server
    for a connection with their texts and port.  If the server refuses (an option,
    the user, or the character set), the script gets [nil] and the databases are
    as they were.  If it gives one, the script gets a userdata that alone holds
    the pointer of a new database with this connection and its configuration;
    finalizing that userdata closes it, and finalizing it once more, as the
    collector does after a script has called [__gc] itself, touches freed memory.
    (The block of the new database is one that is not in use, and the metatable
    of databases has been made.) *)
Theorem cc_newdb_owns l w :
  lua_gettop l = 4 → lua_isstring l 1 = true → lua_isstring l 2 = true → lua_isstring l 3 = true →
  lua_isnumber l 4 = true → dh_dbs (dw_heap w) !! dh_brk (dw_heap w) = None →
  luaL_getmetatable SLAM_LUA_METATABLE_DB_NAME l ≠ LNil →
  let text i := c_str (default EmptyString (lua_tostring l i)) in
  let port := i32 (lua_tointeger l 4) in
  ∃ v l' w', cc_newdb (l, w) = Ok (Some 1%nat, (lua_push v l', w')) ∧
    match connection (text 1) (text 2) (text 3) port with
    | None => v = LNil ∧ dh_dbs (dw_heap w') = dh_dbs (dw_heap w) ∧ dw_userdata w' = dw_userdata w
    | Some handle => ∃ db,
       v = LUserdata (dw_ubrk w) ∧ dw_userdata w' = <[dw_ubrk w := db]> (dw_userdata w) ∧
       dh_dbs (dw_heap w) !! db.1 = None ∧
       dh_dbs (dw_heap w') = <[db.1 := {| db_conf := Some (slam_db_conf_new (text 1) (text 2) (text 3) port);
                                          db_mysqlhandle := handle |}]> (dh_dbs (dw_heap w)) ∧
       ∀ l2, lua_at l2 1 = Some v →
         luaL_getmetatable SLAM_LUA_METATABLE_DB_NAME l2 = luaL_getmetatable SLAM_LUA_METATABLE_DB_NAME l →
         ∃ w2, cc_db_gc (l2, w') = Ok (Some 0%nat, (l2, w2)) ∧
           dh_dbs (dw_heap w2) = dh_dbs (dw_heap w) ∧ cc_db_gc (l2, w2) = Undef
    end.
Proof.
  intros Htop H1 H2 H3 H4 Hfresh Hmt text port. unfold cc_newdb. rewrite Htop, H1, H2, H3, H4. simpl.
  destruct (tolstring_spec l 1) as (T1 & G1 & A1 & R1); [lia|].
  destruct (lua_tolstring_at l 1) as [host l1]. simpl in *.
  destruct (tolstring_spec l1 2) as (T2 & G2 & A2 & R2); [lia|].
  destruct (lua_tolstring_at l1 2) as [username l2]. simpl in *.
  destruct (tolstring_spec l2 3) as (T3 & _ & A3 & R3); [lia|].
  destruct (lua_tolstring_at l2 3) as [password l3]. simpl in *. set (x := dh_brk (dw_heap w)) in *.
  assert (text 1 = c_str (default EmptyString host)) as <- by (unfold text; by rewrite T1).
  assert (text 2 = c_str (default EmptyString username)) as <-
    by (unfold text; rewrite T2; unfold lua_tostring; by rewrite A1 by lia).
  assert (text 3 = c_str (default EmptyString password)) as <-
    by (unfold text; rewrite T3; unfold lua_tostring; by rewrite A2, A1 by lia).
  assert (port = i32 (lua_tointeger l3 4)) as <-
    by (unfold port, lua_tointeger, lua_tonumber; by rewrite A3, A2, A1 by lia).
  match goal with |- context [slam_db_connect x _ _ _ _ _ ?h] => set (h0 := h) end.
  destruct (connect_connects x (text 1) (text 2) (text 3) port h0) as (b & db' & h' & -> & Hh' & Hc);
    [apply lookup_insert_eq|].
  rewrite bind_ok. unfold h0 in Hh'. simpl in Hh'. rewrite insert_insert_eq in Hh'.
  destruct (connection _ _ _ _) as [handle|].
  - destruct Hc as [-> ->]. eexists _, _, _. split; [done|]. simpl.
    assert (luaL_getmetatable SLAM_LUA_METATABLE_DB_NAME l3 = luaL_getmetatable SLAM_LUA_METATABLE_DB_NAME l) as Hmt3
      by (unfold luaL_getmetatable; congruence).
    eexists (x, _). simpl. split_and!; [done..|]. intros l4 Hat Hmt4.
    assert (∀ w2, dw_userdata w2 !! dw_ubrk w = Some (x, luaL_getmetatable SLAM_LUA_METATABLE_DB_NAME l3) →
      luaL_checkudata l4 w2 SLAM_LUA_METATABLE_DB_NAME = Some x) as Hu.
    { intros w2 Hw2. unfold luaL_checkudata. rewrite Hat, Hw2. apply decide_True. by rewrite Hmt3, Hmt4. }
    unfold cc_db_gc. rewrite Hu by apply lookup_insert_eq. unfold slam_db_delete. simpl.
    rewrite Hh', lookup_insert_eq, bind_ok. eexists. split; [done|]. simpl. rewrite delete_insert_id by done.
    split; [done|]. rewrite Hu by apply lookup_insert_eq. by rewrite Hfresh.
  - subst b. unfold slam_db_delete. rewrite Hh', lookup_insert_eq. simpl. eexists _, _, _. split; [done|].
    simpl. by rewrite delete_insert_id.
Qed.
End ownership.

(** ** A server that lets one user in *)
Module NewDbDemo.
(** A connection is the name of its user. *)
#[global] Instance server : Mysql string unit := {
  mysql_init := EmptyString;
  mysql_options _ m := (0, m);
  mysql_real_connect _ username _ _ _ _ := (bool_decide (username = "root"%string), username);
  mysql_real_query sql m := (0, m);
  mysql_store_result m := (Some tt, m);
  mysql_insert_id _ := 1;
  mysql_fetch_row r := (None, r);
  mysql_fetch_fields _ := [];
  mysql_num_rows _ := 0;
}.

Definition w : db_world (M:=string) (R:=unit) :=
  {| dw_heap := {| dh_dbs := ∅; dh_results := ∅; dh_tables := ∅; dh_brk := 1 |}; dw_userdata := ∅; dw_ubrk := 6 |}.

Definition l (username : string) : Concrete.state :=
  let l := Concrete.rawset 2 (LString "cc.DB") (LTable 9) Concrete.init in
  lua_set_stack (reverse [LString "localhost"; LString username; LString "secret"; LNumber (Concrete.of_integer 3306)]) l.
End NewDbDemo.

Lemma cc_newdb_owns_witness :
  (∃ l' w', cc_newdb (NewDbDemo.l "root", NewDbDemo.w) = Ok (Some 1%nat, (lua_push (LUserdata 6) l', w')) ∧
     ∃ x, dh_dbs (dw_heap w') !! x =
       Some {| db_conf := Some (slam_db_conf_new "localhost" "root" "secret" 3306);
               db_mysqlhandle := "root"%string |}) ∧
  (∃ l' w', cc_newdb (NewDbDemo.l "guest", NewDbDemo.w) = Ok (Some 1%nat, (lua_push LNil l', w'))).
Proof.
  split.
  - destruct (cc_newdb_owns (NewDbDemo.l "root") NewDbDemo.w) as (v & l' & w' & E & H);
      [reflexivity|reflexivity|reflexivity|reflexivity|reflexivity|reflexivity|discriminate|].
    destruct H as (db & -> & _ & _ & Hd & _). exists l', w'. split; [exact E|]. exists db.1. rewrite Hd.
    apply lookup_insert_eq.
  - destruct (cc_newdb_owns (NewDbDemo.l "guest") NewDbDemo.w) as (v & l' & w' & E & H);
      [reflexivity|reflexivity|reflexivity|reflexivity|reflexivity|reflexivity|discriminate|].
    exists l', w'. destruct H as [-> _]. exact E.
Defined.

(** Registering the functions leaves the table of globals on the stack. *)
Example reg_db_func_leaves_slot :
  let l := Concrete.rawset 1 (LString "_G") (LTable 1) (Concrete.rawset 1 (LString "cc") (LTable 7) Concrete.init) in
  match slam_lua_reg_db_func l with
  | Ok l' => lua_stack l' = [LTable 1]
  | _ => False
  end.
Proof. reflexivity. Qed.
