(* ===== verification/WorkerCalls.v ===== *)
(** * What the script's calls keep

    Every function of [LuaFunc] leaves the messages owned, the timers intact
    and the messages and timers the program is working on untouched, whatever
    its arguments are.  [WorldCallbacks] is what the event loop relies on of a
    call of Lua; a script that makes these calls provides it. *)

From S2P Require Import Prelude LuaValue TimerList TimerRun MessageQueue Message Socket IoThread.
From S2P Require Import IoOwnership Protocol LuaApi Lua LuaEvent LuaFunc.

(** ** The invariant

    [X]: the message the worker is handling, [det]: the timers that are unlinked
    and firing, [M]: what is known of the ring that leads to the worker. *)

(** The ring may have been used up by the last message taken. *)
Definition any_ring (mq : slam_message_queue loc) (q : list loc) : Prop := mq_rep mq q ∨ mq_stuck mq.

Definition runtime_ok (M : slam_message_queue loc → list loc → Prop) (max : Z) (X : loc → Prop)
    (rt : runtime) : Prop :=
  ∃ W, (∀ x, X x → W x) ∧ io_inv_with M max W (rt_io rt).

Definition timers_kept (det : list loc) (ts ts' : timer_state) : Prop :=
  ∃ l', timers_ok det ts' l' ∧ ∀ y, y ∈ det → data_at ts' y = data_at ts y.

Definition world_kept (M : slam_message_queue loc → list loc → Prop) (max : Z) (X : loc → Prop)
    (det : list loc) (ts : timer_state) (w : world) : Prop :=
  runtime_ok M max X w.1 ∧ timers_kept det ts w.2.

Lemma timers_kept_refl det ts l : timers_ok det ts l → timers_kept det ts ts.
Proof. intros H. by exists l. Qed.

Lemma world_kept_trans M max X det ts1 ts2 w l2 :
  timers_ok det ts2 l2 → (∀ y, y ∈ det → data_at ts2 y = data_at ts1 y) →
  world_kept M max X det ts2 w → world_kept M max X det ts1 w.
Proof.
  intros _ Hd [Hr (l' & H & Hd')]. split; [done|]. exists l'. split; [done|].
  intros y Hy. by rewrite Hd', Hd.
Qed.

(** ** Encoding *)
Lemma encode_cases {P L} (serialize : string → P → list byte) (encoder : string → L → outcome (option P * L))
    pr l h fd msgid :
  (∀ ty, returns (encoder ty l) (λ _, True)) →
  ∃ l', slam_protocol_encode serialize encoder pr l h fd msgid = Ok (None, h, l') ∨
  ∃ msg f, slam_protocol_encode serialize encoder pr l h fd msgid =
      Ok (Some (mh_brk h), {| mh_msgs := <[mh_brk h := msg]> (mh_msgs h); mh_brk := Pos.succ (mh_brk h) |}, l') ∧
    msg_fd msg = fd ∧ msg_buf msg = Some <$> f ∧ msg_bufsize msg = len f ∧ 0 < len f.
Proof.
  intros Henc. destruct (pr_parser pr !! msgid) as [name|] eqn:Hn.
  2: { exists l. left. unfold slam_protocol_encode, MessageBuilderEncode. by rewrite Hn. }
  destruct (Henc name) as ([[m|] l'] & He & _); exists l'.
  - right. eexists _, (package msgid (serialize name m)). split; [by eapply slam_protocol_encode_spec|].
    simpl. split_and!; [done|done|done|]. rewrite package_len. unfold PACKAGE_MIN_SIZE.
    pose proof (len_nonneg (serialize name m)). lia.
  - left. unfold slam_protocol_encode, MessageBuilderEncode. by rewrite Hn, He.
Qed.

Section calls.
Context {L P : Type} `{!LuaState L, !Environment L P, !EnvironmentSafe L P}.
Context (M : slam_message_queue loc → list loc → Prop) (max : Z) (X : loc → Prop).
Context (det : list loc).
Context (send_queue_size_ok : env_send_queue_size (L:=L) (P:=P) <= 2 ^ 31).
Implicit Types (l : L) (rt : runtime) (ts : timer_state) (f : lua_CFunction (L:=L)).

(** What a call with the arguments on the stack keeps. *)
Definition result_kept ts (r : nat * (L * world)) : Prop := world_kept M max X det ts r.2.2.

Definition keeps f l : Prop :=
  ∀ rt ts tl, runtime_ok M max X rt → timers_ok det ts tl →
    safe (f (l, (rt, ts))) (result_kept ts).

Lemma kept_unchanged rt ts tl n l :
  runtime_ok M max X rt → timers_ok det ts tl →
  safe (Ok (n, (l, (rt, ts)))) (result_kept ts).
Proof. intros H1 H2. split; [done|by eapply timers_kept_refl]. Qed.

Lemma runtime_ok_io rt io : runtime_ok M max X rt → (∀ W, io_inv_with M max W (rt_io rt) → io_inv_with M max W io) →
  runtime_ok M max X (with_io io rt).
Proof. intros (W & HX & H) Hio. exists W. split; [done|]. by apply Hio. Qed.

Lemma cc_newserver_keeps l : keeps cc_newserver l.
Proof.
  intros rt ts tl (W & HX & H) Ht. unfold cc_newserver.
  do 3 (destruct (negb _); [by eapply kept_unchanged; [exists W|]|]).
  destruct (env_bind _ _ _) as [fd r]. eapply safe_bind; [by apply inv_newserver|].
  intros [fd' io] H'. split; [by exists W|by eapply timers_kept_refl].
Qed.

Lemma cc_newclient_keeps l : keeps cc_newclient l.
Proof.
  intros rt ts tl (W & HX & H) Ht. unfold cc_newclient.
  do 3 (destruct (negb _); [by eapply kept_unchanged; [exists W|]|]).
  destruct (env_connect _ _ _) as [fd r]. eapply safe_bind; [by apply inv_newclient|].
  intros [fd' io] H'. split; [by exists W|by eapply timers_kept_refl].
Qed.

(** The encoded message ends in a socket's send queue, or stays with the
    worker, where it is lost. *)
Lemma cc_response_keeps l : keeps cc_response l.
Proof.
  intros rt ts tl (W & HX & H) Ht. unfold cc_response.
  do 4 (destruct (negb _); [by eapply kept_unchanged; [exists W|]|]).
  set (fd := i32 _). set (msgid := i32 (lua_tointeger l 2)).
  destruct (encode_cases env_serialize env_encode_descriptor (rt_protocol rt) l
    (io_heap (rt_io rt)) fd msgid) as (l' & [->|(msg & f & -> & Hfd & Hb & Hl & Hf)]);
    [intros ty; apply env_encode_returns|rewrite bind_ok..].
  { rewrite bind_ok. split; [|by eapply timers_kept_refl]. exists W. split; [done|].
    by eapply inv_irrelevant. }
  destruct (inv_new _ _ _ _ msg H) as [H' Hx].
  eapply safe_bind.
  { eapply safe_bind; [eapply (inv_response _ _ _ _ (mh_brk (io_heap (rt_io rt)))); [done|by right|]|].
    - exists msg, f. simpl. by rewrite lookup_insert_eq.
    - intros [b io'] Hr.
      assert (∃ W', (∀ x, X x → W' x) ∧ io_inv_with M max W' io') as Hk; [|exact Hk].
      destruct Hr as [[_ Hr]|Hr]; eexists; (split; [|exact Hr]); simpl; [auto|].
      intros x Hxx. split; [left; auto|]. intros ->. by apply Hx, HX. }
  intros io' (W' & HX' & Hr). split; [by exists W'|by eapply timers_kept_refl].
Qed.

Lemma cc_closesocket_keeps l : keeps cc_closesocket l.
Proof.
  intros rt ts tl Hr Ht. unfold cc_closesocket.
  do 2 (destruct (negb _); [by eapply kept_unchanged|]).
  eapply kept_unchanged; [|done]. apply runtime_ok_io; [done|]. intros W HW.
  unfold slam_io_closesocket. destruct (_ >=? _); [|done]. by eapply inv_irrelevant.
Qed.

Lemma cc_loadmsg_keeps l : keeps cc_loadmsg l.
Proof.
  intros rt ts tl Hr Ht. unfold cc_loadmsg.
  do 2 (destruct (negb _); [by eapply kept_unchanged|]).
  eapply kept_unchanged; [|done]. by destruct (env_load_descriptor _).
Qed.

Lemma cc_bindmsg_keeps l : keeps cc_bindmsg l.
Proof.
  intros rt ts tl Hr Ht. unfold cc_bindmsg.
  do 4 (destruct (negb _); [by eapply kept_unchanged|]).
  rewrite reg_message_eq. destruct (bindable _ _ _ _); [|by eapply kept_unchanged].
  destruct (env_block_read (L:=L) (P:=P) (MESSAGE_REF_NAME (i32 (lua_tointeger l 1)) (address_of l 2))) as (name & -> & _).
  by eapply kept_unchanged.
Qed.

Lemma timer_ctx_wf l ctx : timer_ctx l = Ok ctx → lv_wf ctx.
Proof.
  unfold timer_ctx. intros H.
  destruct (lua_isboolean l 3); [injection H as <-; unfold lv_wf; simpl; auto|].
  destruct (lua_isnumber l 3).
  { destruct (slam_is_integer _) as [[]| | |]; simpl in H; simplify_eq; unfold lv_wf; simpl; auto. }
  destruct (lua_isstring l 3); [injection H as <-; unfold lv_wf; simpl; auto|].
  destruct (lua_isnil l 3); injection H as <-; apply new_wf.
Qed.

(** A number given as a context must be in the range of [int64_t]: converting
    any other one is undefined. *)
Definition ctx_in_range l : Prop := timer_ctx l ≠ Undef.

Lemma timer_ctx_ok l : ctx_in_range l → returns (timer_ctx l) lv_wf.
Proof.
  unfold ctx_in_range. intros H. assert (∃ c, timer_ctx l = Ok c) as [c E]; [|exists c; split; [done|by eapply timer_ctx_wf]].
  revert H. unfold timer_ctx. repeat case_match; eauto.
  unfold slam_is_integer. repeat case_match; simpl; eauto; by intros [].
Qed.

Lemma cc_newtimer_keeps l : ctx_in_range l → keeps cc_newtimer l.
Proof.
  intros Hc rt ts tl Hr Ht. unfold cc_newtimer.
  do 3 (destruct (negb _); [by eapply kept_unchanged|]).
  eapply safe_bind; [by apply returns_safe, timer_ctx_ok|]. intros ctx Hctx.
  destruct (negb _); [by eapply kept_unchanged|].
  destruct (slam_lua_ref _) as [ref l2].
  eapply safe_bind; [apply returns_safe, add_timer_ok; [done|by intros c [= <-]]|].
  intros [x ts'] (H' & Hx & Hd & Hy). unfold data_at in Hd.
  destruct (ts_heap ts' !! x) as [t|]; [|done]. split; [done|].
  eexists; split; [done|]. intros y Hdet. apply Hy. intros ->.
  assert (is_Some (ts_heap ts !! x)) as [? ?] by (apply (TimerRun.ok_live _ _ _ Ht); set_solver). congruence.
Qed.

Lemma cc_remove_timer_keeps l : keeps cc_remove_timer l.
Proof.
  intros rt ts tl Hr Ht. unfold cc_remove_timer.
  do 2 (destruct (negb _); [by eapply kept_unchanged|]).
  eapply safe_bind; [by apply returns_safe, (remove_timer_ok det)|].
  intros [unref ts'] [(-> & -> & _)|(-> & l1 & x & l2 & -> & H1 & _ & _ & _ & Hy)].
  { split; [done|by eapply timers_kept_refl]. }
  split; [done|]. eexists; split; [done|]. intros y Hdet. apply Hy. intros ->.
  pose proof (ok_nodup _ _ _ Ht) as (_ & Hdis & _)%NoDup_app. apply (Hdis x Hdet). set_solver.
Qed.

(** Any function of the program. *)
Lemma cc_routine_keeps routine f l :
  cc_routine routine = Some f → (routine = "cc_newtimer"%string → ctx_in_range l) → keeps f l.
Proof.
  unfold cc_routine. intros H Hc.
  repeat case_match; simplify_eq.
  all: try by auto using cc_loadmsg_keeps, cc_bindmsg_keeps, cc_newserver_keeps, cc_newclient_keeps,
    cc_response_keeps, cc_closesocket_keeps, cc_remove_timer_keeps.
  apply cc_newtimer_keeps, Hc. by apply String.eqb_eq.
Qed.
End calls.

(** ** What the event loop relies on *)
Class WorldCallbacks {L : Type} `{!LuaState L, !LuaCall L world} (max : Z) : Prop :=
  callback_kept M f args h (l : L) rt ts X det tl :
    runtime_ok M max X rt → timers_ok det ts tl →
    safe (lua_call f args h (l, (rt, ts))) (λ r, world_kept M max X det ts r.2.2).

(** ** Scripts

    The function of a script, as far as the program is concerned: the calls it
    makes with their arguments, each depending on the results so far, and how it
    ends. *)
Inductive script :=
  | SReturn (error : Z) (v : lua_value)
  | SCall (routine : string) (args : list lua_value) (k : list lua_value → script).

Section scripts.
Context {L P : Type} `{!LuaState L, !LuaStateLaws L, !Environment L P}.

(** The callee runs on a stack of its own; its results go to the caller. *)
Fixpoint run_lua (s : script) (σ : L * world) : outcome (Z * lua_value * (L * world)) :=
  match s with
  | SReturn error v => Ok (error, v, σ)
  | SCall routine args k =>
      match cc_routine routine with
      | None => Ok (2, LString "attempt to call a nil value", σ)
      | Some f =>
          let '(l, w) := σ in
          '(n, (l', w)) ← f (lua_set_stack (reverse args) l, w);
          run_lua (k (reverse (take n (lua_stack l')))) (lua_set_stack (lua_stack l) l', w)
      end
  end.

Definition script_call (closures : loc → list lua_value → script) : LuaCall L world :=
  λ f args h σ,
    match f with
    | LFunction p => run_lua (closures p args) σ
    | _ => Ok (2, LString "attempt to call a C function", σ)
    end.

(** Contexts handed to [newtimer] are in the range of [int64_t]. *)
Fixpoint contexts_in_range (s : script) : Prop :=
  match s with
  | SReturn _ _ => True
  | SCall routine args k =>
      (routine = "cc_newtimer"%string → ∀ l : L, ctx_in_range (lua_set_stack (reverse args) l)) ∧
      ∀ rs, contexts_in_range (k rs)
  end.

Lemma run_lua_kept `{!EnvironmentSafe L P} M max X det s :
  env_send_queue_size (L:=L) (P:=P) <= 2 ^ 31 → contexts_in_range s → ∀ l rt ts tl,
  runtime_ok M max X rt → timers_ok det ts tl →
  safe (run_lua s (l, (rt, ts))) (λ r, world_kept M max X det ts r.2.2).
Proof.
  intros Hsize. induction s as [e v|routine args k IH]; intros Hc l rt ts tl Hr Ht.
  - split; [done|by eapply timers_kept_refl].
  - simpl. destruct (cc_routine routine) as [f|] eqn:Hf;
      [|split; [done|by eapply timers_kept_refl]].
    destruct Hc as [Hc Hk]. eapply safe_bind.
    { eapply (cc_routine_keeps M max X det Hsize _ _ (lua_set_stack (reverse args) l) Hf);
        [intros E; by apply Hc|done|done]. }
    intros [n [l' [rt' ts']]] (Hr' & tl' & Ht' & Hd). eapply safe_mono; [by eapply IH|].
    intros r. by eapply world_kept_trans.
Qed.

Lemma script_callbacks `{!EnvironmentSafe L P} max closures :
  env_send_queue_size (L:=L) (P:=P) <= 2 ^ 31 → (∀ p args, contexts_in_range (closures p args)) →
  @WorldCallbacks L _ (script_call closures) max.
Proof.
  intros Hsize Hc M f args h l rt ts X det tl Hr Ht. unfold lua_call, script_call.
  destruct f; try by (split; [done|by eapply timers_kept_refl]).
  by eapply run_lua_kept.
Qed.

Lemma run_lua_stack s : ∀ l w rc r l' w',
  run_lua s (l, w) = Ok (rc, r, (l', w')) → lua_stack l' = lua_stack l.
Proof.
  induction s as [e v|routine args k IH]; intros l w rc r l' w'; simpl.
  - by intros [= _ _ -> _].
  - destruct (cc_routine routine) as [f|]; [|by intros [= _ _ -> _]].
    destruct (f _) as [[n [l1 w1]]| | |]; [simpl|done..]. intros H%IH. by rewrite H, lua_stack_set.
Qed.

Lemma script_call_laws closures : @LuaCallLaws L world _ (script_call closures).
Proof.
  intros f args h l l' w w' rc r. unfold lua_call, script_call.
  destruct f; try by intros [= _ _ -> _]. by apply run_lua_stack.
Qed.
End scripts.

(** ** A concrete script

    It binds the type [Ping] to a function that answers with a [Ping] of its own,
    listens, and starts a timer. *)
Module ScriptDemo.
Definition bound : bind_results :=
  {| br_reuseport := 0; br_nonblocking := 0; br_bind := 0; br_listen := 0 |}.

#[export] Instance env : Environment Concrete.state (list byte) := {
  env_send_queue_size := 4;
  env_epoll_accepts _ := true;
  env_bind _ _ n := (10 + Z.of_nat n, bound);
  env_connect _ _ n := (20 + Z.of_nat n, 20 + Z.of_nat n);
  env_shutdown_rd _ := [Eof];
  env_gettimeofday n := (1000 + Z.of_nat n, 0);
  env_load_descriptor _ := true;
  env_known_type files t := bool_decide (files ≠ []) && String.eqb t "Ping";
  env_dead_block := Ok;
  env_parse _ bs := Some bs;
  env_serialize _ v := v;
  env_decode_descriptor _ _ l := Ok (true, lua_push (LTable 9) l);
  env_encode_descriptor _ l := Ok (Some [x70; x6f; x6e; x67], l);
}.

#[export] Instance env_safe : EnvironmentSafe Concrete.state (list byte).
Proof. split; intros; by eexists. Qed.

Definition num (z : Z) : lua_value := LNumber (Concrete.of_integer z).

Definition main : script :=
  SCall "cc_loadmsg" [LString "ping.proto"] (λ _,
  SCall "cc_bindmsg" [num 7; LString "Ping"; LFunction 9] (λ _,
  SCall "cc_newserver" [LString "0.0.0.0"; num 8000] (λ _,
  SCall "cc_newtimer" [num 1; LBoolean false; LString "tick"; LFunction 6] (λ _,
  SReturn 0 LNil)))).

Definition closures (p : loc) (args : list lua_value) : script :=
  match p with
  | 8%positive => main
  | 9%positive =>
      match args with
      | fd :: msgid :: t :: _ => SCall "cc_response" [fd; msgid; t] (λ _, SReturn 0 LNil)
      | _ => SReturn 2 LNil
      end
  | _ => SReturn 0 LNil
  end.

#[export] Instance call : LuaCall Concrete.state world := script_call closures.
#[export] Instance call_laws : LuaCallLaws Concrete.state world := script_call_laws closures.

Lemma closures_in_range p args : contexts_in_range (L:=Concrete.state) (closures p args).
Proof.
  assert (contexts_in_range (L:=Concrete.state) (SReturn 0 LNil)) as Hr by done.
  unfold closures. repeat case_match; simpl; try done.
  all: repeat (split; [by intros|intros _]); try done.
  all: split; [by intros|]; intros _; try done.
  all: repeat (split; [by intros|intros _]); try done.
Qed.

#[export] Instance callbacks : WorldCallbacks (L:=Concrete.state) 64.
Proof. apply script_callbacks; [simpl; lia|apply closures_in_range]. Qed.

(** A new Lua state: [_G] is the table of globals. *)
Definition newstate : Concrete.state :=
  Concrete.rawset 1 (LString "_G") (LTable 1) Concrete.init.
End ScriptDemo.
