(* ===== verification/CallResults.v ===== *)
(** * What the script's calls do

    The results of [newtimer], [bindmsg] and [response]: that the context of a
    timer comes back to its function, that binding a message id sends its
    messages to the function bound, and where a response goes. *)

From S2P Require Import Prelude LuaValue TimerList TimerRun MessageQueue Message Socket Framing Poll.
From S2P Require Import IoThread IoOwnership Protocol LuaApi Lua LuaEvent LuaFunc WorkerCalls.

Section results.
Context {L P : Type} `{!LuaState L, !LuaStateLaws L, !LuaCall L world, !LuaCallLaws L world}.
Context `{!Environment L P}.
Implicit Types (l : L) (rt : runtime) (ts : timer_state).

(** ** Arguments on the stack *)
Lemma lua_at_1 l a vs : lua_stack l = reverse (a :: vs) → lua_at l 1 = Some a.
Proof. intros H. unfold lua_at. simpl. by rewrite H, reverse_involutive. Qed.

Lemma lua_at_2 l a b vs : lua_stack l = reverse (a :: b :: vs) → lua_at l 2 = Some b.
Proof. intros H. unfold lua_at. simpl. by rewrite H, reverse_involutive. Qed.

Lemma lua_at_3 l a b c vs : lua_stack l = reverse (a :: b :: c :: vs) → lua_at l 3 = Some c.
Proof. intros H. unfold lua_at. simpl. by rewrite H, reverse_involutive. Qed.

Lemma lua_at_4 l a b c d vs : lua_stack l = reverse (a :: b :: c :: d :: vs) → lua_at l 4 = Some d.
Proof. intros H. unfold lua_at. simpl. by rewrite H, reverse_involutive. Qed.

Lemma gettop_args l vs : lua_stack l = reverse vs → lua_gettop l = len vs.
Proof. intros H. unfold lua_gettop, len. by rewrite H, length_reverse. Qed.

(** ** The context of a timer *)
Definition number_datum (n : lua_Number) : outcome lua_datum :=
  integer ← slam_is_integer n;
  Ok (if (integer : bool) then DInteger (lua_to_integer n) else DNumber n).

(** What a context is kept as: a string that reads as a number becomes one, and
    what is neither nil, a boolean, a number nor a string becomes nil. *)
Definition ctx_datum (v : lua_value) : outcome lua_datum :=
  match v with
  | LBoolean b => Ok (DBoolean b)
  | LNumber n => number_datum n
  | LString s =>
      match lua_str2number s with Some n => number_datum n | None => Ok (DString s) end
  | _ => Ok DNil
  end.

Lemma timer_ctx_at l v :
  lua_at l 3 = Some v → timer_ctx l = (d ← ctx_datum v; Ok (set_datum slam_lua_value_new d)).
Proof.
  intros H. unfold timer_ctx, lua_isboolean, lua_isnumber, lua_isstring, lua_isnil, lua_toboolean,
    lua_tointeger, lua_tonumber, lua_tostring, test. rewrite H.
  destruct v as [|[]|n|s| | | | | |]; simpl; unfold number_datum; try done.
  - by destruct (slam_is_integer n) as [[]| | |].
  - destruct (lua_str2number s) as [n|]; simpl; [|done]. by destruct (slam_is_integer n) as [[]| | |].
Qed.

(** ** Encoding for a response *)
Lemma tointeger_number l idx n : lua_at l idx = Some (LNumber n) → lua_tointeger l idx = lua_to_integer n.
Proof. intros H. unfold lua_tointeger, lua_tonumber. by rewrite H. Qed.
End results.

(** ** The properties *)


(** Claim C24.  Binding a message id succeeds exactly when the id is in range, bound
    neither in the protocol's table nor in the parser, and its type is known to the
    loaded descriptors.  Then the event for a message with this id finds the
    function bound and the parser the type; otherwise nothing changes.  Every id
    bound before keeps its name and its function.  This is for a type name that
    fits the buffer of the name, a table whose names are those of its ids, and a
    compiler that leaves the bytes of that buffer where they are after the end of
    its block, where [strdup] reads them. *)
Theorem cc_bindmsg_binds {L P} `{!LuaState L, !LuaStateLaws L, !LuaCall L world, !Environment L P}
    (l : L) rt ts n typename f known :
  lua_stack l = reverse [LNumber n; LString typename; f] → is_function f = true →
  (∀ s, env_dead_block (L:=L) (P:=P) s = Ok s) → reg_ok known (rt_protocol rt) →
  let msgid := i32 (lua_to_integer n) in short msgid typename →
  ∃ bound l' pr', cc_bindmsg (l, (rt, ts)) =
      Ok (1%nat, (lua_push (LBoolean bound) l', (with_protocol pr' rt, ts))) ∧
    (bound = true ↔ 0 <= msgid < MAX_MESSAGE_ID ∧ pr_regtable (rt_protocol rt) !! msgid = None ∧
       pr_parser (rt_protocol rt) !! msgid = None ∧ env_known_type (rt_loaded rt) typename = true) ∧
    (∀ m name, slam_protocol_find_name (rt_protocol rt) m = Some name →
       slam_protocol_find_name pr' m = Some name ∧
       lua_rawget lua_registry (LString name) l' = lua_rawget lua_registry (LString name) l) ∧
    if bound then
      pr_parser pr' !! msgid = Some typename ∧
      ∃ name, slam_protocol_find_name pr' msgid = Some name ∧
        lua_rawget lua_registry (LString name) l' = f
    else pr' = rt_protocol rt ∧ l' = l.
Proof.
  intros Hs Hf Hdead Hreg msgid Hshort. pose proof (gettop_args _ _ Hs) as Htop.
  change (len _) with 3 in Htop.
  pose proof (lua_at_1 _ _ _ Hs) as H1. pose proof (lua_at_2 _ _ _ _ Hs) as H2.
  pose proof (lua_at_3 _ _ _ _ _ Hs) as H3. unfold cc_bindmsg. rewrite Htop. simpl.
  assert (lua_isnumber l 1 = true ∧ lua_isstring l 2 = true ∧ lua_isfunction l 3 = true) as (-> & -> & ->).
  { unfold lua_isnumber, lua_isstring, lua_isfunction, test. rewrite H1, H2, H3. by destruct f. }
  simpl. rewrite (tointeger_number _ _ _ H1). fold msgid.
  assert (address_of l 2 = typename) as -> by (unfold address_of, lua_tostring; by rewrite H2).
  rewrite reg_message_eq, Hdead. set (known0 := env_known_type (rt_loaded rt)).
  pose proof (bindable_spec known0 (rt_protocol rt) msgid typename) as Hb.
  exists (bindable known0 (rt_protocol rt) msgid typename).
  destruct (bindable known0 (rt_protocol rt) msgid typename) eqn:Eb; last first.
  { exists l, (rt_protocol rt). by split_and!. }
  pose proof (proj1 Hb eq_refl) as (Hm & Hnone & Hp & Hk). rewrite !bind_ok.
  eexists _, _. split; [done|]. split; [done|].
  assert (lua_at (lua_push (LString (MESSAGE_REF_NAME msgid typename)) l) 3 = Some f) as Hat.
  { unfold lua_at. simpl. by rewrite stack_push, Hs. }
  unfold lua_pushvalue, lua_settable. rewrite Hat. simpl. rewrite !stack_push.
  unfold slam_protocol_find_name. simpl.
  split; [|split; [by rewrite lookup_insert_eq|]].
  - intros m nm Hnm. repeat (case_match; [done|]). pose proof (Hreg m nm Hnm) as (_ & t & _ & _ & Hsh & ->).
    assert (m ≠ msgid) as Hne by (intros ->; congruence).
    rewrite lookup_insert_ne by done. split; [done|].
    rewrite lua_rawget_set_stack, lua_rawget_rawset, decide_False, !rawget_push; [done|].
    intros [= Eq]. apply Hne. by eapply ref_name_inj.
  - eexists. rewrite (proj2 (Z.geb_le _ _)), (proj2 (Z.ltb_lt _ _)) by lia. simpl.
    rewrite lookup_insert_eq. split; [done|].
    by rewrite lua_rawget_set_stack, lua_rawget_rawset, decide_True.
Qed.

(** The call of [response] with a connection, a message id and a table. *)
Lemma cc_response_spec {L P} `{!LuaState L, !LuaStateLaws L, !Environment L P}
    max W (l l' : L) rt ts nfd nid t name m s sq :
  let fd := i32 (lua_to_integer nfd) in let msgid := i32 (lua_to_integer nid) in
  lua_stack l = reverse [LNumber nfd; LNumber nid; LTable t] → io_inv max W (rt_io rt) →
  pr_parser (rt_protocol rt) !! msgid = Some name → env_encode_descriptor name l = Ok (Some m, l') →
  io_sockets (rt_io rt) !! fd = Some s → mq_rep (sk_sendmq s) sq →
  ∃ x io', cc_response (l, (rt, ts)) =
      Ok (1%nat, (lua_push (LBoolean true) l', (with_io io' rt, ts))) ∧ ¬ W x ∧
    if len sq <? mq_maxsize (sk_sendmq s) - 1 then
      io_inv max W io' ∧
      (∃ s', io_sockets io' !! fd = Some s' ∧ queued_behind s s' sq x) ∧
      unsent (io_heap io') x (package msgid (env_serialize name m))
    else io_inv max (λ y, W y ∨ y = x) io'.
Proof.
  intros fd msgid Hs Hinv Hn He Hsock Hsq. pose proof (gettop_args _ _ Hs) as Htop.
  change (len _) with 3 in Htop.
  pose proof (lua_at_1 _ _ _ Hs) as H1. pose proof (lua_at_2 _ _ _ _ Hs) as H2.
  pose proof (lua_at_3 _ _ _ _ _ Hs) as H3. unfold cc_response. rewrite Htop. simpl.
  assert (lua_isnumber l 1 = true ∧ lua_isnumber l 2 = true ∧ lua_istable l 3 = true) as (-> & -> & ->).
  { unfold lua_isnumber, lua_istable, test. by rewrite H1, H2, H3. }
  simpl. rewrite (tointeger_number _ _ _ H1), (tointeger_number _ _ _ H2). fold fd msgid.
  rewrite (slam_protocol_encode_spec _ _ _ _ l' _ _ _ name m) by done. rewrite bind_ok.
  set (pkg := package msgid (env_serialize name m)). set (msg := {| msg_fd := fd |}).
  destruct (inv_new _ _ _ _ msg Hinv) as [Hinv' Hx]. set (x := mh_brk (io_heap (rt_io rt))) in *.
  set (io1 := with_mq_heap _ _ _) in *.
  assert (0 < len pkg) as Hpos.
  { subst pkg. rewrite package_len. pose proof (len_nonneg (env_serialize name m)).
    unfold PACKAGE_MIN_SIZE. lia. }
  assert (mh_msgs (io_heap io1) !! x = Some msg) as Hm by apply lookup_insert_eq.
  destruct (response_spec mq_rep max (λ y, W y ∨ y = x) io1 x msg pkg Hinv' (or_intror eq_refl) Hm)
    as ([b io'] & E & Hpost); [done|done|done|].
  unfold response_post in Hpost. change (io_sockets io1 !! msg_fd msg) with (io_sockets (rt_io rt) !! fd) in Hpost.
  rewrite Hsock in Hpost. destruct Hpost as (sq' & Hsq' & Hpost).
  rewrite (rep_unique _ _ _ Hsq' Hsq) in Hpost.
  exists x, io'. change (ptr) with (option loc). rewrite E. split; [done|]. split; [done|].
  destruct (len sq <? _); [|by destruct Hpost].
  destruct Hpost as (Hi & _ & Hs' & _ & Hmsg). split_and!; [|done|].
  - destruct Hi as (own & q & Hio & HW). exists own, q. split; [done|]. intros y. rewrite HW.
    split; [tauto|]. intros Hy. split; [by left|]. intros ->. done.
  - exists (set_bytesize 0 msg), pkg. by split_and!.
Qed.

(** Claim C23.  A call of [response] for a connected socket encodes the table as a
    package and, when the socket's send queue has room, puts the package behind
    the messages queued before.  When it has none the package is left with the
    worker, which keeps no reference to it: it is lost, and the script is told
    [true] all the same. *)
Theorem cc_response_outcome {L P} `{!LuaState L, !LuaStateLaws L, !Environment L P}
    max W (l l' : L) rt ts nfd nid t name m s sq :
  let fd := i32 (lua_to_integer nfd) in let msgid := i32 (lua_to_integer nid) in
  lua_stack l = reverse [LNumber nfd; LNumber nid; LTable t] → io_inv max W (rt_io rt) →
  pr_parser (rt_protocol rt) !! msgid = Some name → env_encode_descriptor name l = Ok (Some m, l') →
  io_sockets (rt_io rt) !! fd = Some s → mq_rep (sk_sendmq s) sq →
  ∃ x io', cc_response (l, (rt, ts)) =
      Ok (1%nat, (lua_push (LBoolean true) l', (with_io io' rt, ts))) ∧ ¬ W x ∧
    if len sq <? mq_maxsize (sk_sendmq s) - 1 then
      io_inv max W io' ∧
      (∃ s', io_sockets io' !! fd = Some s' ∧ queued_behind s s' sq x) ∧
      unsent (io_heap io') x (package msgid (env_serialize name m))
    else io_inv max (λ y, W y ∨ y = x) io'.
Proof. apply cc_response_spec. Qed.

(** ** Concrete calls, on the state of [IoDemo] *)
Module CallDemo.
Import ScriptDemo.
Definition rt : runtime :=
  {| rt_io := IoDemo.io; rt_protocol := slam_protocol_new; rt_loaded := ["ping.proto"%string];
     rt_calls := 0 |}.

(** The same with message id 7 bound. *)
Definition rt7 : runtime :=
  with_protocol {| pr_regtable := {[7 := "Ping.7"%string]}; pr_parser := {[7 := "Ping"%string]} |} rt.

Definition args (vs : list lua_value) : Concrete.state := Concrete.set_stack (reverse vs) newstate.
End CallDemo.


Lemma cc_bindmsg_binds_witness :
  let l := CallDemo.args [ScriptDemo.num 7; LString "Ping"; LFunction 9] in
  ∃ l' pr', cc_bindmsg (Environment0:=ScriptDemo.env) (l, (CallDemo.rt, slam_timer_list_new)) =
    Ok (1%nat, (lua_push (LBoolean true) l', (with_protocol pr' CallDemo.rt, slam_timer_list_new))) ∧
    ∃ name, slam_protocol_find_name pr' 7 = Some name ∧ lua_rawget lua_registry (LString name) l' = LFunction 9.
Proof.
  intros l.
  destruct (cc_bindmsg_binds (LuaCall0:=ScriptDemo.call)
    (Environment0:=ScriptDemo.env) l CallDemo.rt slam_timer_list_new
    (Concrete.of_integer 7) "Ping" (LFunction 9) (λ _, true)) as (b & l' & pr' & E & Hb & _ & Hbound);
    [reflexivity|reflexivity|reflexivity|apply reg_ok_new|vm_compute; reflexivity|].
  assert (b = true) as -> by (apply Hb; split_and!; [discriminate|reflexivity..]).
  destruct Hbound as [_ Hbound]. exists l', pr'. split; [exact E|exact Hbound].
Defined.

Lemma cc_response_outcome_witness :
  let l := CallDemo.args [ScriptDemo.num 5; ScriptDemo.num 7; LTable 4] in
  ∃ x io', cc_response (Environment0:=ScriptDemo.env) (l, (CallDemo.rt7, slam_timer_list_new)) =
      Ok (1%nat, (lua_push (LBoolean true) l, (with_io io' CallDemo.rt7, slam_timer_list_new))) ∧
    x ≠ 3%positive ∧ io_inv 64 (λ y, y = 3%positive) io'.
Proof.
  intros l.
  destruct (cc_response_outcome (Environment0:=ScriptDemo.env) 64 (λ y, y = 3%positive) l l CallDemo.rt7
    slam_timer_list_new (Concrete.of_integer 5) (Concrete.of_integer 7) 4 "Ping" [x70; x6f; x6e; x67]
    Demo.writer [1; 2]%positive) as (x & io' & E & Hx & Hi & _);
    [reflexivity|apply IoDemo.io_inv_holds|reflexivity|reflexivity|reflexivity|apply Demo.writer_rep|].
  exists x, io'. split; [exact E|]. split; [exact Hx|exact Hi].
Defined.
