(* ===== verification/Runnable.v ===== *)
(** * The worker's event loop ([slam_runnable.c])

    Each turn waits for the poll, at most until the first timer expires, then
    dispatches every message in the queue to Lua, and runs the timers.  The
    theorems run it against the I/O thread, for any script that keeps
    [WorldCallbacks]. *)

From S2P Require Import Prelude LuaValue TimerList TimerRun MessageQueue Message Socket Framing Poll.
From S2P Require Import IoThread IoOwnership Protocol LuaApi Lua LuaEvent LuaFunc WorkerCalls.

(** ** Operations *)
Section operations.
Context {L P : Type} `{!LuaState L, !LuaCall L world, !Environment L P}.
Implicit Types (σ : L * world).

(** The decoder's work on the Lua state. *)
Definition decode_descriptor (name : string) (message : P) σ : outcome (bool * (L * world)) :=
  let '(l, w) := σ in
  '(b, l) ← env_decode_descriptor name message l;
  Ok (b, (l, w)).

Definition world_heap (w : world) : msg_heap := io_heap (rt_io w.1).

Definition with_world_heap (h : msg_heap) (w : world) : world :=
  (with_io (with_mq_heap (io_mq (rt_io w.1)) h (rt_io w.1)) w.1, w.2).

(** The body of the [while] loop, on the message just taken. *)
Definition do_one_message (x : loc) σ : outcome (L * world) :=
  let '(l, w) := σ in
  DEREF message := mh_msgs (world_heap w) !! x ;;
  '(_, (l, w)) ←
    (if msg_type message =? MESSAGE_TYPE_PROTOBUF_PACKAGE then
       slam_protocol_decode env_parse decode_descriptor slam_lua_event_message
         (rt_protocol w.1) (l, w) message
     else if msg_type message =? MESSAGE_TYPE_ESTABLISH_CONNECTION then
       slam_lua_event_establish_connection (msg_fd message) (l, w)
     else if msg_type message =? MESSAGE_TYPE_LOST_CONNECTION then
       slam_lua_event_lost_connection (msg_fd message) (l, w)
     else Ok (false, (l, w)));               (* "illegal message->type" *)
  h ← slam_message_delete x (world_heap w);
  Ok (l, with_world_heap h w).

Fixpoint do_message_loop (fuel : nat) σ : outcome (L * world) :=
  let '(l, (rt, ts)) := σ in
  empty ← slam_message_queue_empty (io_mq (rt_io rt));
  if negb (negb empty) then Ok (l, (rt, ts))
  else
    match fuel with
    | O => NoFuel
    | S fuel =>
        '(message, mq) ← slam_message_queue_pop_front (io_mq (rt_io rt));
        DEREF x := message ;;
        σ ← do_one_message x (l, (with_io (with_mq_heap mq (io_heap (rt_io rt)) (rt_io rt)) rt, ts));
        do_message_loop fuel σ
    end.

(** A queued message for each turn of the loop. *)
Definition queue_fuel (mq : slam_message_queue loc) : nat := Z.to_nat (mq_maxsize mq).

Definition slam_runnable_do_message σ : outcome (L * world) :=
  do_message_loop (queue_fuel (io_mq (rt_io σ.2.1))) σ.

(** [slam_lua_event_timer] as the run loop of the timers calls it. *)
Definition timer_event (x : loc) (s : (L * runtime) * timer_state)
    : outcome ((L * runtime) * timer_state) :=
  let '((l, rt), ts) := s in
  DEREF timer := ts_heap ts !! x ;;
  '(_, (l, (rt, ts))) ← slam_lua_event_timer timer (l, (rt, ts));
  Ok ((l, rt), ts).

(** A turn of [slam_runnable_run]: [halt] is the flag before the wait, [halt']
    after it; the wait itself is given the timeout, kept here.  What
    [epoll_wait] reports is not looked at. *)
Definition runnable_turn (timer_fuel : nat) (halt' : bool) σ : outcome (Z * (L * world)) :=
  let '(l, (rt, ts)) := σ in
  '(timeout, ts) ← slam_timer_list_min_interval env_gettimeofday ts;
  let timeout := i32 timeout in
  if (halt' : bool) then Ok (timeout, (l, (rt, ts)))
  else
    '(l, (rt, ts)) ← slam_runnable_do_message (l, (rt, ts));
    '((l, rt), ts) ← slam_timer_list_run env_gettimeofday timer_event timer_fuel (l, rt) ts;
    Ok (timeout, (l, (rt, ts))).

(** The timeouts waited for, in order, and the final state. *)
Fixpoint slam_runnable_run (timer_fuel : nat) (turns : list (bool * bool)) σ
    : outcome (list Z * (L * world)) :=
  match turns with
  | [] => Ok ([], σ)
  | (halt, halt') :: turns =>
      if (halt : bool) then Ok ([], σ)
      else
        '(timeout, σ) ← runnable_turn timer_fuel halt' σ;
        if (halt' : bool) then Ok ([timeout], σ)
        else
          '(timeouts, σ) ← slam_runnable_run timer_fuel turns σ;
          Ok (timeout :: timeouts, σ)
  end.

(** [slam_runnable_new]: the poll watches the worker's ends of both pairs. *)
Definition slam_runnable_new (fd_io fd_worker : Z) (accepts : Z → bool)
    : option (slam_poll * slam_protocol * timer_state) :=
  let poll := slam_poll_new in
  let '(added, poll) := slam_poll_add_socket poll fd_io (accepts fd_io) in
  if negb added then None
  else
    let '(added, poll) := slam_poll_add_socket poll fd_worker (accepts fd_worker) in
    if negb added then None
    else Some (poll, slam_protocol_new, slam_timer_list_new).

Definition slam_runnable_wakeup (poll : slam_poll) (fd_io : Z) : slam_poll :=
  (slam_poll_set_socket_pollout poll fd_io true).2.

(** [slam_runnable_load_entryfile]: a new Lua state ([luaL_newstate] with the
    standard libraries) with the program's functions, a new protocol, and the
    entry file run in it; then the start event. *)
Definition slam_lua_new (newstate : L) : outcome L :=
  l ← slam_lua_reg_namespace SLAM_LUA_REGISTER_NAMESPACE newstate;
  slam_lua_reg_std_func l.

Definition slam_runnable_load_entryfile (newstate : L) (luaL_loadstring : string → lua_value)
    (entryfile : string) (w : world) : outcome (bool * (L * world)) :=
  l ← slam_lua_new newstate;
  let '(rt, ts) := w in
  let rt := with_loaded [] (with_protocol slam_protocol_new rt) in
  '(loaded, _, σ) ← slam_lua_load_entryfile luaL_loadstring entryfile None (l, (rt, ts));
  if negb loaded then Ok (false, σ)
  else
    '(_, σ) ← slam_lua_event_start σ;
    Ok (true, σ).

(** [slam_runnable_delete]: the stop event, then every part is released. *)
Definition slam_runnable_delete (lua : option L) (w : world) : outcome world :=
  w ← match lua with
      | Some l => '(_, (_, w)) ← slam_lua_event_stop (l, w); Ok w
      | None => Ok w
      end;
  let '(rt, ts) := w in
  ts ← slam_timer_list_delete (list_fuel ts) ts;
  Ok (rt, ts).
End operations.
#[global] Arguments do_one_message : simpl never.

(** ** Proofs *)

(** [sound env m Q]: the computation is [safe], if [env] says that the environment
    is; otherwise it may also end otherwise than by a result in [Q]. *)
Definition sound (env : bool) {A} (m : outcome A) (Q : A → Prop) : Prop :=
  match m with
  | Ok a => Q a
  | AssertFail => True
  | Undef | NoFuel => env = false
  end.

Lemma sound_bind env {A B} (m : outcome A) (k : A → outcome B) P Q :
  sound env m P → (∀ a, P a → sound env (k a) Q) → sound env (m ≫= k) Q.
Proof. destruct m; simpl; auto. Qed.

Lemma safe_sound env {A} (m : outcome A) Q : safe m Q → sound env m Q.
Proof. by destruct m. Qed.

Lemma sound_safe {A} (m : outcome A) Q : sound true m Q → safe m Q.
Proof. by destruct m. Qed.

Section proofs.
Context {L P : Type} `{!LuaState L, !LuaStateLaws L, !LuaCall L world, !LuaCallLaws L world}.
Context `{!Environment L P}.
Context (max : Z) `{!WorldCallbacks (L:=L) max}.
Implicit Types (l : L) (rt : runtime) (ts : timer_state) (X : loc → Prop).
Implicit Types (M : slam_message_queue loc → list loc → Prop).

(** *** The events keep what a call of Lua keeps *)
Definition event_kept M X det ts (r : bool * (L * world)) : Prop := world_kept M max X det ts r.2.2.

Lemma kept_ok M X det rt ts tl b l :
  runtime_ok M max X rt → timers_ok det ts tl → safe (Ok (b, (l, (rt, ts)))) (event_kept M X det ts).
Proof. intros H1 H2. split; [done|by eapply timers_kept_refl]. Qed.

Lemma notify_kept M X det f argv rest l rt ts tl :
  runtime_ok M max X rt → timers_ok det ts tl →
  safe (notify f argv rest (l, (rt, ts))) (event_kept M X det ts).
Proof.
  intros Hr Ht. unfold notify. eapply safe_bind; [by eapply callback_kept|].
  by intros [[e r] [l' w']] H.
Qed.

Lemma notify_global_kept M X det name argv l rt ts tl :
  runtime_ok M max X rt → timers_ok det ts tl →
  safe (notify_global name argv (l, (rt, ts))) (event_kept M X det ts).
Proof.
  intros Hr Ht. unfold notify_global. destruct (is_function _); [|by eapply kept_ok].
  by eapply notify_kept.
Qed.

Lemma event_message_kept M X det pr l rt ts tl fd msgid :
  runtime_ok M max X rt → timers_ok det ts tl →
  safe (slam_lua_event_message pr (l, (rt, ts)) fd msgid) (event_kept M X det ts).
Proof.
  intros Hr Ht. destruct (slam_protocol_find_name pr msgid) as [name|] eqn:Hn.
  - destruct (lua_stack l) as [|[| | | |t| | | | |] rest] eqn:Hs.
    6: { rewrite (event_message_eq _ _ _ _ _ t rest name) by done.
         destruct (is_function _); [by eapply notify_kept|by eapply kept_ok]. }
    all: unfold slam_lua_event_message, lua_istable, test, lua_at; simpl; rewrite Hn, Hs;
      by eapply kept_ok.
  - unfold slam_lua_event_message. rewrite Hn. by eapply kept_ok.
Qed.

Section one.
Context (env : bool) (Henv : env = true → EnvironmentSafe L P).

(** Decoding works on the Lua state only. *)
Lemma builder_decode_world pr l (w : world) msgid payload :
  sound env (MessageBuilderDecode env_parse decode_descriptor pr (l, w) msgid payload)
    (λ '(rc, σ), ∃ l', σ = (l', w)).
Proof.
  unfold MessageBuilderDecode, luaT_message_parser_decode, decode_descriptor.
  destruct (negb _); [by eexists|]. destruct (pr_parser pr !! msgid) as [name|]; [|simpl; by eexists].
  destruct (env_parse name payload) as [m|] eqn:Ep; [|simpl; by eexists].
  assert (env = true → returns (env_decode_descriptor name m l) (λ _, True)) as H
    by (intros Ht; specialize (Henv Ht); by eapply env_decode_returns).
  destruct (env_decode_descriptor name m l) as [[b l']| | |]; simpl; [by eexists|done|..];
    (destruct env; [by destruct (H eq_refl) as (? & ? & _)|done]).
Qed.

Lemma decode_kept M X det pr l rt ts tl message f :
  runtime_ok M max X rt → timers_ok det ts tl → holds max (msg_fd message) message f →
  msg_bufsize message = len f →
  sound env (slam_protocol_decode env_parse decode_descriptor slam_lua_event_message pr (l, (rt, ts)) message)
    (event_kept M X det ts).
Proof.
  intros Hr Ht Hf Hl.
  destruct (slam_protocol_decode_spec env_parse decode_descriptor slam_lua_event_message pr
    (l, (rt, ts)) max _ _ _ Hf Hl) as (rest & _ & ->). cbv zeta.
  eapply sound_bind; [apply builder_decode_world|]. intros [rc σ] (l' & ->). apply safe_sound.
  destruct (negb _); [by eapply kept_ok|]. by eapply event_message_kept.
Qed.

(** *** One message *)
Lemma do_one_message_sound M det x l rt ts tl :
  runtime_ok M max (λ y, y = x) rt → timers_ok det ts tl → ready max (io_heap (rt_io rt)) x →
  sound env (do_one_message x (l, (rt, ts))) (λ r, world_kept M max (λ _, False) det ts r.2).
Proof.
  intros Hr Ht (message & Hm & Hready). unfold do_one_message, world_heap. simpl. rewrite Hm.
  eapply sound_bind with (P := event_kept M (λ y, y = x) det ts).
  - destruct (Z.eqb_spec (msg_type message) MESSAGE_TYPE_PROTOBUF_PACKAGE) as [E|_].
    { destruct (Hready E) as (f & Hf & Hl). by eapply decode_kept. }
    apply safe_sound. destruct (_ =? _); [rewrite event_establish_eq; by eapply notify_global_kept|].
    destruct (_ =? _); [rewrite event_lost_eq; by eapply notify_global_kept|].
    by eapply kept_ok.
  - intros [b [l' [rt' ts']]] [(W & HX & Hinv) Hts]. simpl in *.
    apply safe_sound. eapply safe_bind; [apply returns_safe, (inv_free _ _ _ _ x Hinv); by apply HX|].
    intros h Hh. split; [|done]. by eexists; split; [|exact Hh].
Qed.

(** *** The loop over the queue *)

(** The ring [mq] with the messages [q], intact or used up. *)
Definition same_ring (mq : slam_message_queue loc) (q : list loc) (mq2 : slam_message_queue loc)
    (q2 : list loc) : Prop := mq2 = mq ∧ q2 = q ∧ any_ring mq2 q2.

Definition turns_left (mq : slam_message_queue loc) : Z := mq_maxsize mq - mq_rindex mq.

(** One turn of the loop: the oldest message is taken and handled, and the
    rest of the queue stays as it is. *)
Lemma one_turn l rt ts det tl own W x q :
  io_ok mq_rep max own (x :: q) (rt_io rt) → (∀ y, own y = Some ByWorker ↔ W y) →
  timers_ok det ts tl →
  ∃ mq', slam_message_queue_pop_front (io_mq (rt_io rt)) = Ok (Some x, mq') ∧
    turns_left mq' = turns_left (io_mq (rt_io rt)) - 1 ∧
    let rt1 := with_io (with_mq_heap mq' (io_heap (rt_io rt)) (rt_io rt)) rt in
    sound env (do_one_message x (l, (rt1, ts))) (λ r,
      world_kept (same_ring mq' q) max (λ _, False) det ts r.2).
Proof.
  intros Hio HW Ht. destruct (pop_rep _ _ _ (ok_mq _ _ _ _ _ Hio)) as (mq' & Hpop & Em & Er & _).
  exists mq'. split_and!; [done|unfold turns_left; lia|].
  destruct (inv_take _ _ _ _ _ _ _ Hio HW Hpop) as (Hx & _ & Hinv).
  eapply do_one_message_sound; [|done|exact Hx].
  eexists. split; [|eapply inv_weaken; [|exact Hinv]]; [intros y ->; by right|].
  by intros q2 (? & ? & ?).
Qed.

End one.

Lemma same_ring_io mq q rt :
  runtime_ok (same_ring mq q) max (λ _, False) rt →
  io_mq (rt_io rt) = mq ∧ ∃ own W, io_ok any_ring max own q (rt_io rt) ∧ ∀ y, own y = Some ByWorker ↔ W y.
Proof.
  intros (W & _ & own & q2 & Hio & HW). pose proof (ok_mq _ _ _ _ _ Hio) as (E & -> & Hany).
  split; [done|]. exists own, W. split; [|done]. destruct Hio. by split.
Qed.

Lemma any_ring_cases own q rt :
  io_ok any_ring max own q (rt_io rt) →
  (io_ok mq_rep max own q (rt_io rt) ∧ 0 < turns_left (io_mq (rt_io rt)) ∧
     slam_message_queue_empty (io_mq (rt_io rt)) = Ok (bool_decide (q = []))) ∨
  (turns_left (io_mq (rt_io rt)) = 0 ∧ slam_message_queue_empty (io_mq (rt_io rt)) = AssertFail).
Proof.
  intros Hio. destruct (ok_mq _ _ _ _ _ Hio) as [Hq|Hq]; [left|right].
  - split_and!; [by destruct Hio| |by apply empty_rep]. pose proof (rep_rindex _ _ Hq).
    unfold turns_left. lia.
  - split; [unfold turns_left, mq_stuck in *; lia|]. unfold slam_message_queue_empty.
    by rewrite (stuck_assertion _ Hq).
Qed.

Lemma do_message_loop_safe `{!EnvironmentSafe L P} fuel : ∀ l rt ts det tl own W q,
  io_ok any_ring max own q (rt_io rt) → (∀ y, own y = Some ByWorker ↔ W y) → timers_ok det ts tl →
  turns_left (io_mq (rt_io rt)) <= Z.of_nat fuel →
  safe (do_message_loop fuel (l, (rt, ts))) (λ r,
    world_kept (λ mq q, mq_rep mq q ∧ q = []) max (λ _, False) det ts r.2).
Proof.
  induction fuel as [|fuel IH]; intros l rt ts det tl own W q Hio HW Ht Hf; simpl;
    (destruct (any_ring_cases _ _ _ Hio) as [(Hrep & Hpos & ->)|[_ ->]]; [simpl|done]);
    (destruct q as [|x q]; simpl;
      [split; [|by eapply timers_kept_refl]; exists W; split; [done|]; exists own, []; split; [|done];
       by destruct Hrep|]).
  - lia.
  - destruct (one_turn true (λ _, _) l rt ts det tl own W x q Hrep HW Ht) as (mq' & -> & Htl & Hone). simpl.
    eapply safe_bind; [apply sound_safe, Hone|]. intros [l' [rt' ts']] [Hr (tl' & Ht' & Hd)]. simpl in *.
    destruct (same_ring_io _ _ _ Hr) as (Emq & own' & W' & Hio' & HW').
    eapply safe_mono; [eapply IH; [done|done|done|rewrite Emq; lia]|].
    intros r. by eapply world_kept_trans.
Qed.

(** *** The order of dispatch *)

(** The messages [q], one by one: each is taken from the ring and handled. *)
Fixpoint dispatch (q : list loc) (σ : L * world) : outcome (L * world) :=
  match q with
  | [] => Ok σ
  | x :: q =>
      let '(l, (rt, ts)) := σ in
      '(_, mq) ← slam_message_queue_pop_front (io_mq (rt_io rt));
      σ ← do_one_message x (l, (with_io (with_mq_heap mq (io_heap (rt_io rt)) (rt_io rt)) rt, ts));
      dispatch q σ
  end.

Lemma do_message_loop_dispatch fuel : ∀ l rt ts tl own W q,
  io_ok any_ring max own q (rt_io rt) → (∀ y, own y = Some ByWorker ↔ W y) → timers_ok [] ts tl →
  let n := turns_left (io_mq (rt_io rt)) in n <= Z.of_nat fuel →
  do_message_loop fuel (l, (rt, ts)) =
    if len q <? n then dispatch q (l, (rt, ts))
    else (_ ← dispatch (take (Z.to_nat n) q) (l, (rt, ts)); AssertFail).
Proof.
  induction fuel as [|fuel IH]; intros l rt ts tl own W q Hio HW Ht n Hf; subst n; simpl;
    (destruct (any_ring_cases _ _ _ Hio) as [(Hrep & Hpos & ->)|[-> ->]];
      [simpl|by rewrite (proj2 (Z.ltb_ge _ _)) by apply len_nonneg]);
    (destruct q as [|x q]; simpl; [by rewrite (proj2 (Z.ltb_lt _ _)) by len|]).
  - lia.
  - destruct (one_turn false ltac:(done) l rt ts [] tl own W x q Hrep HW Ht) as (mq' & Hpop & Htl & Hone). rewrite Hpop.
    cbv zeta in Hone. cbn [mbind outcome_bind]. set (rt1 := with_io _ rt) in *.
    replace (Z.to_nat (turns_left (io_mq (rt_io rt)))) with (S (Z.to_nat (turns_left mq'))) by lia.
    replace (len (x :: q) <? turns_left (io_mq (rt_io rt))) with (len q <? turns_left mq')
      by (rewrite len_cons, Htl; destruct (Z.ltb_spec (len q) (turns_left (io_mq (rt_io rt)) - 1)),
            (Z.ltb_spec (1 + len q) (turns_left (io_mq (rt_io rt)))); lia).
    cbn [take dispatch]. rewrite Hpop. cbn [mbind outcome_bind]. fold rt1.
    destruct (do_one_message x (l, (rt1, ts))) as [[l' [rt' ts']]| | |];
      [|by destruct (len q <? _)..].
    destruct Hone as [Hr (tl' & Ht' & Hd)].
    cbn [fst snd] in *. destruct (same_ring_io _ _ _ Hr) as (Emq & own' & W' & Hio' & HW').
    rewrite <- Emq.
    cbn [mbind outcome_bind]. eapply IH; [done|done|done|rewrite Emq; lia].
Qed.

(** *** A turn of the worker *)
Lemma queue_fuel_enough own q rt :
  io_ok mq_rep max own q (rt_io rt) →
  turns_left (io_mq (rt_io rt)) <= Z.of_nat (queue_fuel (io_mq (rt_io rt))).
Proof.
  intros Hio. pose proof (rep_rindex _ _ (ok_mq _ _ _ _ _ Hio)). unfold turns_left, queue_fuel. lia.
Qed.

Lemma do_message_safe `{!EnvironmentSafe L P} l rt ts det tl :
  runtime_ok mq_rep max (λ _, False) rt → timers_ok det ts tl →
  safe (slam_runnable_do_message (l, (rt, ts))) (λ r,
    world_kept (λ mq q, mq_rep mq q ∧ q = []) max (λ _, False) det ts r.2).
Proof.
  intros (W & HX & own & q & Hio & HW) Ht. eapply do_message_loop_safe; [|done|done|].
  - destruct Hio. split; try done. by left.
  - by eapply queue_fuel_enough.
Qed.

Lemma pushvalue_wf ctx : lv_wf ctx → ∃ v, ∀ l, slam_lua_pushvalue l (Some ctx) = Ok (lua_push v l).
Proof.
  unfold lv_wf, slam_lua_pushvalue, slam_lua_value_is_nil, slam_lua_value_is_integer,
    slam_lua_value_is_number, slam_lua_value_is_boolean, slam_lua_value_is_string,
    slam_lua_value_get_boolean, slam_lua_value_get_integer, slam_lua_value_get_number,
    slam_lua_value_get_string.
  destruct ctx as [t u]; simpl. intros H.
  destruct u as [b|i|n|[s|]]; (destruct H as [->| ->] || rewrite H); simpl; eauto.
Qed.

(** A timer fires with its reference and its context, and the stack is left
    empty. *)
#[export] Instance timer_event_kept M X :
  TimerEvent true (λ '(_, rt), runtime_ok M max X rt) (timer_event (L:=L)).
Proof.
  intros det x [l rt] ts tl Hr Ht. unfold timer_event.
  destruct (ok_detached _ _ _ _ Ht) as ([timer Htm] & _). rewrite Htm.
  assert (∃ v, ∀ l, slam_lua_pushvalue l (tm_ctx timer) = Ok (lua_push v l)) as [v Hv].
  { destruct (tm_ctx timer) as [ctx|] eqn:Hc; [|by exists LNil].
    apply pushvalue_wf. by eapply (ok_ctx _ _ _ Ht). }
  apply safe_defined. rewrite (event_timer_eq _ _ _ v) by apply Hv.
  eapply safe_bind with (P := event_kept M X (x :: det) ts).
  - destruct (is_function _); [|by eapply kept_ok].
    eapply safe_bind; [by eapply notify_kept|]. by intros [b [l' [rt' ts']]] H.
  - intros [b [l' [rt' ts']]] [Hr' (tl' & Ht' & Hd)]. simpl in *. split; [done|].
    exists tl'. split; [done|]. apply Hd. by left.
Qed.

(** Between turns: nothing in the worker's hands but what it has lost, the ring
    intact, the timers well-formed. *)
Definition world_inv (w : world) : Prop :=
  runtime_ok mq_rep max (λ _, False) w.1 ∧ ∃ tl, timers_ok [] w.2 tl.

Lemma runnable_turn_defined `{!EnvironmentSafe L P} timer_fuel halt' l w :
  world_inv w → defined true (runnable_turn timer_fuel halt' (l, w)) (λ r, world_inv r.2.2).
Proof.
  destruct w as [rt ts]. intros [Hr [tl Ht]]. unfold runnable_turn. simpl in *.
  eapply defined_bind; [eapply returns_defined, (min_interval_kept _ [] ts tl Ht)|].
  intros [timeout ts1] ->. pose proof (ok_tick _ _ _ Ht) as Ht1.
  destruct halt'; [by split; [|exists tl]|].
  eapply defined_bind; [by eapply safe_defined, do_message_safe|].
  intros [l2 [rt2 ts2]] [(W & HX & Hinv) (tl2 & Ht2 & _)]. simpl in *.
  eapply defined_bind.
  { rewrite run_tick. eapply run_loop_defined; [apply (timer_event_kept mq_rep (λ _, False))| |by apply ok_tick].
    exists W. split; [done|]. eapply inv_weaken; [|exact Hinv]. by intros q []. }
  intros [[l3 rt3] ts3] [H3 (tl3 & Ht3 & _)]. split; [done|]. by exists tl3.
Qed.
End proofs.

(** ** The properties *)

(** Claim C14.  A turn of the worker hands the messages waiting in the queue to
    Lua one by one, oldest first, each once, and stops when the queue is empty.
    The read index is never wrapped: when the queue holds as many messages as
    the ring has slots left before its end, the process aborts after the last of
    these. *)
Theorem slam_runnable_do_message_dispatches {L P} `{!LuaState L, !LuaStateLaws L, !LuaCall L world,
    !LuaCallLaws L world, !Environment L P} max `{!WorldCallbacks (L:=L) max}
    (l : L) rt ts tl own W q :
  io_ok mq_rep max own q (rt_io rt) → (∀ x, own x = Some ByWorker ↔ W x) → timers_ok [] ts tl →
  let left := mq_maxsize (io_mq (rt_io rt)) - mq_rindex (io_mq (rt_io rt)) in
  slam_runnable_do_message (l, (rt, ts)) =
    if len q <? left then dispatch q (l, (rt, ts))
    else (_ ← dispatch (take (Z.to_nat left) q) (l, (rt, ts)); AssertFail).
Proof.
  intros Hio HW Ht left. eapply (do_message_loop_dispatch max); [|done|done|by eapply queue_fuel_enough].
  destruct Hio. split; try done. by left.
Qed.

(** A package that has arrived reaches its handler: the payload is
    decoded by the type registered for the message id, the function the script
    bound to the id is called with the connection, the id and the decoded table,
    and then the message is freed. *)
Lemma package_reaches_handler {L P} `{!LuaState L, !LuaStateLaws L, !LuaCall L world,
    !LuaCallLaws L world, !Environment L P} max (l l1 : L) rt ts x message msgid payload
    typename m t rest name :
  mh_msgs (io_heap (rt_io rt)) !! x = Some message →
  holds max (msg_fd message) message (package msgid payload) →
  msg_bufsize message = len (package msgid payload) → payload ≠ [] → - 2 ^ 31 <= msgid < 2 ^ 31 →
  pr_parser (rt_protocol rt) !! msgid = Some typename → env_parse typename payload = Some m →
  env_decode_descriptor typename m l = Ok (true, l1) → lua_stack l1 = LTable t :: rest →
  slam_protocol_find_name (rt_protocol rt) msgid = Some name →
  let f := lua_rawget lua_registry (LString name) l1 in is_function f = true →
  do_one_message x (l, (rt, ts)) =
    ('(_, (l', w')) ←
       notify f [LNumber (lua_of_integer (msg_fd message)); LNumber (lua_of_integer msgid); LTable t]
         (LTable t :: rest) (l1, (rt, ts));
     h ← slam_message_delete x (world_heap w');
     Ok (l', with_world_heap h w')).
Proof.
  intros Hx Hh Hl Hne Hm Hp Hparse Hdec Hs Hn f Hf. unfold do_one_message, world_heap. simpl. rewrite Hx.
  rewrite (ho_type _ _ _ _ Hh). simpl.
  destruct (slam_protocol_decode_spec env_parse decode_descriptor slam_lua_event_message (rt_protocol rt)
    (l, (rt, ts)) max _ _ _ Hh Hl) as (junk & _ & ->).
  assert (take 4 (drop 12 (package msgid payload)) = le_split 4 msgid) as -> by reflexivity.
  assert (drop 18 (package msgid payload) = payload) as -> by reflexivity.
  rewrite i32_le_split by done. unfold MessageBuilderDecode, luaT_message_parser_decode.
  assert (len payload >? 0 = true) as -> by (destruct payload; [done|rewrite Z.gtb_ltb; apply Z.ltb_lt; len]).
  rewrite Hp, Hparse. unfold decode_descriptor. rewrite Hdec. simpl.
  rewrite (event_message_eq _ _ _ _ _ t rest name) by done. fold f. by rewrite Hf.
Qed.

(** ** A concrete turn: the queue holds the two messages of a connection made and
    lost. *)
Module RunDemo.
Import ScriptDemo.
Definition message (type : Z) : slam_message :=
  {| msg_fd := 5; msg_type := type; msg_bufsize := 0; msg_bytesize := 0; msg_buf := [] |}.

Definition io : slam_io_thread :=
  {| io_mq := Demo.pushed (Demo.pushed Demo.queue 1) 2; io_poll := ∅; io_sockets := ∅;
     io_heap := {| mh_msgs := <[1%positive := message MESSAGE_TYPE_ESTABLISH_CONNECTION]>
                                (<[2%positive := message MESSAGE_TYPE_LOST_CONNECTION]> ∅);
                   mh_brk := 3 |};
     io_recv := λ _, []; io_send := λ _, []; io_accept := λ _, []; io_wire := λ _, []; io_closed := [] |}.

Definition own (x : loc) : option owner := if decide (x ∈ [1; 2]%positive) then Some ByQueue else None.

Definition rt : runtime :=
  {| rt_io := io; rt_protocol := slam_protocol_new; rt_loaded := []; rt_calls := 0 |}.

Lemma run_io_is_ok : io_ok mq_rep 64 own [1; 2]%positive io.
Proof.
  split; simpl.
  - intros x. simpl. rewrite !lookup_insert_is_Some', lookup_empty.
    intros [<-|[<-|[? [=]]]]; lia.
  - apply Demo.writer_rep.
  - by repeat constructor; set_solver.
  - intros x. unfold own. case_decide; naive_solver.
  - intros x. rewrite !lookup_insert_is_Some', lookup_empty. unfold own.
    case_decide; split; eauto; naive_solver set_solver.
  - intros fd s. by rewrite lookup_empty.
  - intros x fd. unfold own. by case_decide.
  - intros x. unfold own. case_decide as Hx; [intros _|done].
    apply elem_of_cons in Hx as [->|Hx%list_elem_of_singleton]; [|subst x]; eexists;
      (split; [vm_compute; reflexivity|done]).
Qed.

(** A message of 4 bytes of payload, for the handler of the id 7. *)
Definition ping : list byte := [x70; x69; x6e; x67].
Definition package_message : slam_message :=
  {| msg_fd := 5; msg_type := MESSAGE_TYPE_PROTOBUF_PACKAGE; msg_bufsize := 22; msg_bytesize := 22;
     msg_buf := Some <$> package 7 ping |}.

Definition rt7 : runtime :=
  {| rt_io := with_mq_heap Demo.queue {| mh_msgs := {[1%positive := package_message]}; mh_brk := 2 |} io;
     rt_protocol := EventDemo.pr; rt_loaded := []; rt_calls := 0 |}.

Definition l : Concrete.state := Concrete.rawset 2 (LString "Ping.7") (LFunction 9) newstate.

Lemma holds_package : holds 64 5 package_message (package 7 ping).
Proof. split; try done. by exists []. Qed.
End RunDemo.

Lemma slam_runnable_do_message_dispatches_witness :
  slam_runnable_do_message (LuaCall0:=ScriptDemo.call) (Environment0:=ScriptDemo.env)
      (ScriptDemo.newstate, (RunDemo.rt, slam_timer_list_new)) =
    dispatch (LuaCall0:=ScriptDemo.call) (Environment0:=ScriptDemo.env) [1; 2]%positive
      (ScriptDemo.newstate, (RunDemo.rt, slam_timer_list_new)).
Proof.
  exact (slam_runnable_do_message_dispatches (LuaCall0:=ScriptDemo.call)
    (LuaCallLaws0:=ScriptDemo.call_laws) (Environment0:=ScriptDemo.env) 64
    (WorldCallbacks0:=ScriptDemo.callbacks) ScriptDemo.newstate RunDemo.rt slam_timer_list_new []
    RunDemo.own (λ x, RunDemo.own x = Some ByWorker) [1; 2]%positive RunDemo.run_io_is_ok
    (λ x, iff_refl _) new_timers_ok).
Defined.

Lemma package_reaches_handler_witness :
  do_one_message (LuaCall0:=ScriptDemo.call) (Environment0:=ScriptDemo.env) 1%positive
      (RunDemo.l, (RunDemo.rt7, slam_timer_list_new)) =
    ('(_, (l', w')) ←
       notify (LuaCall0:=ScriptDemo.call) (LFunction 9) [ScriptDemo.num 5; ScriptDemo.num 7; LTable 9] [LTable 9]
         (lua_push (LTable 9) RunDemo.l, (RunDemo.rt7, slam_timer_list_new));
     h ← slam_message_delete 1%positive (world_heap w');
     Ok (l', with_world_heap h w')).
Proof.
  etransitivity; [apply (package_reaches_handler (LuaCall0:=ScriptDemo.call) (LuaCallLaws0:=ScriptDemo.call_laws)
    (Environment0:=ScriptDemo.env) 64 RunDemo.l (lua_push (LTable 9) RunDemo.l) RunDemo.rt7
    slam_timer_list_new 1 RunDemo.package_message 7 RunDemo.ping "Ping" RunDemo.ping 9 [] "Ping.7");
    [reflexivity|apply RunDemo.holds_package|reflexivity|discriminate|lia|reflexivity..]|reflexivity].
Defined.
