(* ===== verification/Relay.v ===== *)
(** * A message through a worker: package, table, package

    The worker's calls take the conversion between messages and Lua tables as a
    parameter.  Here it is the converter of [ProtoConvert], and the protocol,
    the events and the script's calls are put together: what arrives, what the
    handler sees, and what is sent when it answers with the table it was given. *)

From S2P Require Import Prelude LuaValue TimerList MessageQueue Message Socket Framing IoThread IoOwnership.
From S2P Require Import Protocol LuaApi LuaTable Protobuf ProtobufDemo ProtoConvert ProtoRoundTrip ProtoSafety.
From S2P Require Import ParserCache.
From S2P Require Import Lua LuaEvent LuaFunc WorkerCalls CallResults Runnable.

(** The environment whose conversions are the program's own, with fuel for
    messages nested [d] deep. *)
Definition with_converter {L P} `{!LuaState L, !LuaTables L, !Protobuf P} (d : nat) (base : Environment L P)
    : Environment L P := {|
  env_send_queue_size := env_send_queue_size (Environment := base);
  env_epoll_accepts := env_epoll_accepts (Environment := base);
  env_bind := env_bind (Environment := base);
  env_connect := env_connect (Environment := base);
  env_shutdown_rd := env_shutdown_rd (Environment := base);
  env_gettimeofday := env_gettimeofday (Environment := base);
  env_load_descriptor := env_load_descriptor (Environment := base);
  env_known_type := env_known_type (Environment := base);
  env_dead_block := env_dead_block (Environment := base);
  env_parse := parse;
  env_serialize := serialize;
  env_decode_descriptor := decode_table d;
  env_encode_descriptor := encode_table (S d);
|}.

Section relay.
Context {L P : Type} `{!LuaState L, !LuaStateLaws L, !LuaTables L, !LuaTablesLaws L}.
Context `{!Protobuf P, !ProtobufLaws P}.
Implicit Types (l : L) (m : P).

(** The tables that did not exist in [l0] are in [l2] as they were in [l1], still
    without a metatable. *)
Definition keeps_new l0 l1 l2 : Prop :=
  ∀ s, created l0 l1 s → created l0 l2 s ∧ ∀ k, lua_rawget s k l2 = lua_rawget s k l1.

(** Decoding leaves the tables there were, and a new one that holds the message. *)
Lemma message_table_decodes d ty m l :
  plain_types (P:=P) → message_ok d ty m →
  ∃ l' t, decode_table d ty m l = Ok (true, l') ∧ lua_stack l' = LTable t :: lua_stack l ∧
    (∀ s k, lua_live s l → lua_rawget s k l' = lua_rawget s k l) ∧
    created l l' t ∧ fields_of d l l' ty t m.
Proof.
  intros Hplain Hok. destruct (newtable_ok l) as (t & Hs & (Hc1 & Hc2 & Hc3) & _ & Hl & Hg & _).
  destruct (decodeDescriptor_ok Hplain d ty m _ t _ Hok Hs Hc1) as (l' & E & [Hs' Hl' Hg' Hm'] & Hf).
  exists l', t. unfold decode_table. rewrite E, Hs', Hs. split_and!; [done..| | |].
  - intros s k Hsl. rewrite Hg' by (auto; by intros ->). by apply Hg.
  - split_and!; [by apply Hl'|done|by rewrite Hm'].
  - eapply fields_of_weaken; [|exact Hf]. exact Hl.
Qed.

(** Encoding a table that holds a message, on top of any stack. *)
Lemma table_message_encodes d ty m l0 l1 l2 t vs :
  plain_types (P:=P) → fields_of d l0 l1 ty t m → created l0 l1 t → keeps_new l0 l1 l2 → lua_stack l2 = LTable t :: vs →
  (∀ m', m = m' ∨ same_message d ty m m' → is_Some (pb_serialize m')) →
  ∃ m', encode_table (S d) ty l2 = Ok (Some m', l2) ∧ (m = m' ∨ same_message d ty m m').
Proof.
  intros Hplain Hf Ht Hk Hs Hser.
  assert (fields_of d l0 l2 ty t m) as Hf2 by (by eapply fields_of_frame; [exact Hk|by apply Hk|exact Hf]).
  destruct (Hk t Ht) as [(_ & _ & Hmeta) _].
  destruct (encodeDescriptor_ok d l0 l2 ty t m Hplain Hmeta (or_introl Hf2)) as (m' & Hm & _ & E).
  specialize (E vs). rewrite <-Hs, lua_set_stack_id in E. exists m'. split; [|done].
  unfold encode_table. rewrite E, bind_ok. by destruct (Hser m' Hm) as [bs ->].
Qed.
End relay.

(** The converter returns, on types it does so on, when no table has a metatable. *)
Lemma converter_safe {L P} `{!LuaState L, !LuaStateLaws L, !LuaTables L, !LuaTablesLaws L, !Protobuf P, !ProtobufLaws P}
    d (base : Environment L P) :
  (∀ l : L, plain_tables l) → (∀ ty, steady (P:=P) d false ty) →
  (∀ s, returns (env_dead_block (Environment := base) s) (λ _, True)) →
  @EnvironmentSafe L P (with_converter d base).
Proof.
  intros Hplain Hsteady Hblock. split; [exact Hblock|..].
  - intros ty l. simpl. unfold encode_table. eapply returns_bind with (P := λ _, True); [|by intros [[rc m] l'] _; eexists].
    pose proof (encodeDescriptor_leaves true (S d) false ty (pb_new ty) l (Hplain l)
      (λ _, steady_mono d false ty (Hsteady ty))) as H.
    destruct (encodeDescriptor (S d) ty (pb_new ty) l) as [r| | |]; [by eexists|done..].
  - intros ty bs m l Hp. simpl in *. unfold decode_table.
    assert (pb_type m = ty) as Hty.
    { unfold parse in Hp. pose proof (pb_type_parse ty bs) as Ht. destruct (pb_parse ty bs) as [[] m'];
        simplify_eq. done. }
    destruct (newtable_stack l) as (t & Hs).
    destruct (decodeDescriptor_decodes d false ty m _ t _ (Hsteady ty) Hty Hs) as (l' & E & _).
    by eexists.
Qed.

(** Claim C15.  A worker that answers with the table it was given sends the message
    it received.  A package with a payload that is not empty and parses as a message
    (with values that survive the conversion, see C16) reaches the function bound
    to its id with a new table, and no table there was before has changed.  Whatever
    the script does then, as long as it leaves the tables of the message alone,
    [response] with this table, for an id bound to the same type, puts a package on
    the send queue, when there is room, whose payload is the serialization of the
    same message: equal in its singular fields, and in its repeated fields up to
    the order of the elements.  This is for message types without oneofs and
    without defaults but zero, as in proto3, and for messages such that protobuf
    serializes every message equal to them in this sense. *)
Theorem message_relayed {L P} `{!LuaState L, !LuaStateLaws L, !LuaTables L, !LuaTablesLaws L, !LuaCall L world,
    !LuaCallLaws L world, !Protobuf P, !ProtobufLaws P} (base : Environment L P) max d (l : L) rt ts
    x message msgid payload ty m name :
  plain_types (P:=P) →
  mh_msgs (io_heap (rt_io rt)) !! x = Some message →
  holds max (msg_fd message) message (package msgid payload) →
  msg_bufsize message = len (package msgid payload) → payload ≠ [] → - 2 ^ 31 <= msgid < 2 ^ 31 →
  pr_parser (rt_protocol rt) !! msgid = Some ty → parse ty payload = Some m → message_ok d ty m →
  (∀ m', m = m' ∨ same_message d ty m m' → is_Some (pb_serialize m')) →
  slam_protocol_find_name (rt_protocol rt) msgid = Some name → lua_live lua_registry l →
  let f := lua_rawget lua_registry (LString name) l in is_function f = true →
  ∃ l1 t,
    do_one_message (Environment0:=with_converter d base) x (l, (rt, ts)) =
      ('(_, (l', w')) ←
         notify f [LNumber (lua_of_integer (msg_fd message)); LNumber (lua_of_integer msgid); LTable t]
           (LTable t :: lua_stack l) (l1, (rt, ts));
       h ← slam_message_delete x (world_heap w');
       Ok (l', with_world_heap h w')) ∧
    (∀ s k, lua_live s l → lua_rawget s k l1 = lua_rawget s k l) ∧
    ∀ l2 rt2 ts2 W nfd nid s sq,
      let fd := i32 (lua_to_integer nfd) in let msgid2 := i32 (lua_to_integer nid) in
      keeps_new l l1 l2 → lua_stack l2 = reverse [LNumber nfd; LNumber nid; LTable t] →
      io_inv max W (rt_io rt2) → pr_parser (rt_protocol rt2) !! msgid2 = Some ty →
      io_sockets (rt_io rt2) !! fd = Some s → mq_rep (sk_sendmq s) sq →
      len sq < mq_maxsize (sk_sendmq s) - 1 →
      ∃ x2 io' m' bs, cc_response (Environment0:=with_converter d base) (l2, (rt2, ts2)) =
          Ok (1%nat, (lua_push (LBoolean true) l2, (with_io io' rt2, ts2))) ∧
        (m = m' ∨ same_message d ty m m') ∧ pb_serialize m' = Some bs ∧
        (∃ s', io_sockets io' !! fd = Some s' ∧ queued_behind s s' sq x2) ∧
        unsent (io_heap io') x2 (package msgid2 bs).
Proof.
  intros Hplain Hx Hh Hl Hne Hr Hp Hparse Hok Hser Hname Hlive f Hf.
  destruct (message_table_decodes d ty m l Hplain Hok) as (l1 & t & E & Hs & Hg & Hc & Hfs).
  exists l1, t. split; [|split; [exact Hg|]].
  - subst f. rewrite <-(Hg _ _ Hlive) in Hf |- *.
    by eapply (package_reaches_handler (Environment0:=with_converter d base)).
  - intros l2 rt2 ts2 W nfd nid s sq fd msgid2 Hk Hs2 Hinv Hp2 Hsock Hsq Hroom.
    destruct (table_message_encodes d ty m l l1 l2 t [LNumber nid; LNumber nfd] Hplain Hfs Hc Hk Hs2 Hser)
      as (m' & E' & Hm). destruct (Hser m' Hm) as [bs Hbs].
    destruct (cc_response_spec (Environment0:=with_converter d base) max W l2 l2 rt2 ts2 nfd nid t ty m' s sq)
      as (x2 & io' & Er & _ & Hout); [done..|].
    rewrite (proj2 (Z.ltb_lt _ _)) in Hout by done. destruct Hout as (_ & Hs' & Hu).
    exists x2, io', m', bs. split_and!; [done..|]. simpl in Hu. unfold serialize in Hu. by rewrite Hbs in Hu.
Qed.

(** ** A relay on concrete states *)
Module RelayDemo.
(** The kernel's part is that of [ScriptDemo]; the conversions are replaced. *)
Definition base : Environment Concrete.state message := {|
  env_send_queue_size := env_send_queue_size (Environment := ScriptDemo.env);
  env_epoll_accepts := env_epoll_accepts (Environment := ScriptDemo.env);
  env_bind := env_bind (Environment := ScriptDemo.env);
  env_connect := env_connect (Environment := ScriptDemo.env);
  env_shutdown_rd := env_shutdown_rd (Environment := ScriptDemo.env);
  env_gettimeofday := env_gettimeofday (Environment := ScriptDemo.env);
  env_load_descriptor := env_load_descriptor (Environment := ScriptDemo.env);
  env_known_type := env_known_type (Environment := ScriptDemo.env);
  env_dead_block := env_dead_block (Environment := ScriptDemo.env);
  env_parse _ _ := None;
  env_serialize _ _ := [];
  env_decode_descriptor _ _ l := Ok (false, l);
  env_encode_descriptor _ l := Ok (None, l);
|}.

Abbreviation env := (with_converter 1 base).
Abbreviation demo_call := (script_call (Environment0:=env) ScriptDemo.closures).

Lemma serializes (m : message) m' : m = m' ∨ same_message 1 "Ping" m m' → is_Some (pb_serialize m').
Proof. intros _. by eexists. Qed.
End RelayDemo.

Lemma message_relayed_witness :
  ∃ l1 t,
    do_one_message (LuaCall0:=RelayDemo.demo_call) (Environment0:=RelayDemo.env) 1%positive
        (RunDemo.l, (RunDemo.rt7, slam_timer_list_new)) =
      ('(_, (l', w')) ←
         notify (LuaCall0:=RelayDemo.demo_call) (LFunction 9) [ScriptDemo.num 5; ScriptDemo.num 7; LTable t]
           [LTable t] (l1, (RunDemo.rt7, slam_timer_list_new));
       h ← slam_message_delete 1%positive (world_heap w');
       Ok (l', with_world_heap h w')) ∧
    let l2 := lua_set_stack [LTable t; ScriptDemo.num 7; ScriptDemo.num 5] l1 in
    ∃ x2 io' bs, cc_response (Environment0:=RelayDemo.env) (l2, (CallDemo.rt7, slam_timer_list_new)) =
        Ok (1%nat, (lua_push (LBoolean true) l2, (with_io io' CallDemo.rt7, slam_timer_list_new))) ∧
      unsent (io_heap io') x2 (package 7 bs).
Proof.
  destruct (message_relayed (LuaCall0:=RelayDemo.demo_call)
    (LuaCallLaws0:=script_call_laws (Environment0:=RelayDemo.env) ScriptDemo.closures)
    RelayDemo.base 64 1 RunDemo.l RunDemo.rt7 slam_timer_list_new 1
    RunDemo.package_message 7 RunDemo.ping "Ping" (new "Ping") "Ping.7" RoundDemo.types_plain)
    as (l1 & t & E & _ & Hr);
    [reflexivity|apply RunDemo.holds_package|reflexivity|discriminate|lia|reflexivity|reflexivity
    |apply RoundDemo.new_message_ok|apply RelayDemo.serializes|reflexivity|apply Pos.le_refl|reflexivity|].
  exists l1, t. split; [exact E|]. cbv zeta.
  destruct (Hr (lua_set_stack [LTable t; ScriptDemo.num 7; ScriptDemo.num 5] l1) CallDemo.rt7 slam_timer_list_new
    (λ y, y = 3%positive) (Concrete.of_integer 5) (Concrete.of_integer 7) Demo.writer [1; 2]%positive)
    as (x2 & io' & m' & bs & Er & _ & _ & _ & Hu);
    [|reflexivity|apply IoDemo.io_inv_holds|reflexivity|reflexivity|apply Demo.writer_rep|vm_compute; reflexivity|].
  { intros s Hs. split; [exact Hs|]. intros k. reflexivity. }
  exists x2, io', bs. split; [exact Er|exact Hu].
Defined.
