(* ===== verification/EndToEnd.v ===== *)
(** * A table from one worker to another

    The whole way of a message: the script of one worker answers with a table,
    the worker encodes it and queues the package, the I/O thread writes it, the
    stream carries it in whatever pieces, the I/O thread of the peer puts the
    package together and queues it, and the peer's worker decodes it and calls
    the function bound to its id, with a table that holds the same message. *)

From S2P Require Import Prelude LuaValue TimerList MessageQueue Message Socket Framing IoThread IoOwnership.
From S2P Require Import Protocol LuaApi LuaTable Protobuf ProtobufDemo ProtoConvert ProtoRoundTrip ParserCache.
From S2P Require Import Lua LuaEvent LuaFunc WorkerCalls CallResults Runnable Relay.

Section end_to_end.
Context {L P : Type} `{!LuaState L, !LuaStateLaws L, !LuaTables L, !LuaTablesLaws L}.
Context `{!LuaCall L world, !LuaCallLaws L world, !Protobuf P, !ProtobufLaws P}.
Implicit Types (l : L) (m : P).

(** What is asked of protobuf for the message [m]: with the values it has, it is
    serialized to some bytes, few enough for a package, which parse as a message
    with the same values; and these survive the conversion to Lua. *)
Definition travels (max : Z) (d : nat) (ty : string) m : Prop :=
  ∀ m1, m = m1 ∨ same_message d ty m m1 →
    ∃ bs m2, pb_serialize m1 = Some bs ∧ bs ≠ [] ∧ PACKAGE_MIN_SIZE + len bs < max ∧
      parse ty bs = Some m2 ∧ same_message d ty m m2 ∧ message_ok d ty m2.

(** The worker in the state [(l, (rt, ts))], handed the message at [y], calls the
    function [f] with the connection, the message id and a new table that holds
    [m]; no other table has changed.  Then it frees the message. *)
Definition hands_over (base : Environment L P) d ty m (y : loc) l rt ts (f : lua_value) (fd msgid : Z) : Prop :=
  ∃ l' t, created l l' t ∧ fields_of d l l' ty t m ∧
    (∀ s k, lua_live s l → lua_rawget s k l' = lua_rawget s k l) ∧
    do_one_message (Environment0:=with_converter d base) y (l, (rt, ts)) =
      ('(_, (l2, w)) ←
         notify f [LNumber (lua_of_integer fd); LNumber (lua_of_integer msgid); LTable t]
           (LTable t :: lua_stack l) (l', (rt, ts));
       h ← slam_message_delete y (world_heap w);
       Ok (l2, with_world_heap h w)).

(** ** The receiver *)
Lemma package_handed_over base max d ty m bs y fd msgid l rt ts name :
  plain_types (P:=P) →
  complete max fd (io_heap (rt_io rt)) y (package msgid bs) → bs ≠ [] → - 2 ^ 31 <= msgid < 2 ^ 31 →
  parse ty bs = Some m → message_ok d ty m →
  pr_parser (rt_protocol rt) !! msgid = Some ty →
  slam_protocol_find_name (rt_protocol rt) msgid = Some name → lua_live lua_registry l →
  let f := lua_rawget lua_registry (LString name) l in is_function f = true →
  hands_over base d ty m y l rt ts f fd msgid.
Proof.
  intros Hplain (msg & Hy & Hh & Hlen) Hne Hr Hparse Hok Hp Hname Hlive f Hf.
  destruct (message_table_decodes d ty m l Hplain Hok) as (l' & t & E & Hs & Hg & Hc & Hfs).
  pose proof (ho_fd _ _ _ _ Hh) as Hfd. exists l', t. split_and!; [done..|]. subst f fd.
  rewrite <-(Hg _ _ Hlive) in Hf |- *.
  by eapply (package_reaches_handler (Environment0:=with_converter d base)).
Qed.

(** ** The sender *)
Lemma table_queued base max W d ty m l0 l rt ts nfd nid t s :
  let fd := i32 (lua_to_integer nfd) in let msgid := i32 (lua_to_integer nid) in
  plain_types (P:=P) → travels max d ty m → fields_of d l0 l ty t m → lua_metatable t l = false →
  lua_stack l = reverse [LNumber nfd; LNumber nid; LTable t] → io_inv max W (rt_io rt) →
  pr_parser (rt_protocol rt) !! msgid = Some ty →
  io_sockets (rt_io rt) !! fd = Some s → mq_rep (sk_sendmq s) [] →
  mq_rindex (sk_sendmq s) + 1 < mq_maxsize (sk_sendmq s) →
  ∃ x io' s' m1 bs m2, (m = m1 ∨ same_message d ty m m1) ∧ pb_serialize m1 = Some bs ∧ cc_response (Environment0:=with_converter d base) (l, (rt, ts)) =
      Ok (1%nat, (lua_push (LBoolean true) l, (with_io io' rt, ts))) ∧
    io_sockets io' !! fd = Some s' ∧ queued_behind s s' [] x ∧ heap_wf (io_heap io') ∧
    unsent (io_heap io') x (package msgid bs) ∧
    bs ≠ [] ∧ PACKAGE_MIN_SIZE + len bs < max ∧ parse ty bs = Some m2 ∧
    same_message d ty m m2 ∧ message_ok d ty m2.
Proof.
  intros fd msgid Hplain Htr Hf Hmeta Hs Hinv Hp Hsock Hq Hroom.
  destruct (encodeDescriptor_ok d l0 l ty t m Hplain Hmeta (or_introl Hf)) as (m1 & Hm & _ & E).
  specialize (E [LNumber nid; LNumber nfd]).
  change (LTable t :: _) with (reverse [LNumber nfd; LNumber nid; LTable t]) in E.
  rewrite <-Hs, lua_set_stack_id in E.
  destruct (Htr m1 Hm) as (bs & m2 & Hser & Hrest).
  assert (encode_table (S d) ty l = Ok (Some m1, l)) as E1 by (unfold encode_table; by rewrite E, bind_ok, Hser).
  destruct (cc_response_spec (Environment0:=with_converter d base) max W l l rt ts nfd nid t ty m1 s [])
    as (x & io' & Er & _ & Hout); [done..|].
  pose proof (rep_rindex _ _ Hq). rewrite (proj2 (Z.ltb_lt _ _)) in Hout by (rewrite len_nil; lia).
  destruct Hout as ((own & q & Hio & _) & (s' & Hs' & Hqb) & Hu).
  exists x, io', s', m1, bs, m2. split_and!; try done; try apply Hrest; [apply Hio|].
  simpl in Hu. unfold serialize in Hu. by rewrite Hser in Hu.
Qed.
End end_to_end.

(** Claim C2.  From table to table.  A script that answers with a table holding a
    message, on a connection with nothing left to send, is told [true]; and once
    the I/O thread has written the connection empty, however little the kernel
    takes at a time, a peer that reads these bytes, in whatever pieces they come,
    has one package in its queue, and the worker of the peer hands it to the
    function bound to the id with a new table holding the same message: equal in
    its singular fields, and in its repeated fields up to the order of the elements.
    Only when the stream pauses inside the length header of the package (fewer than
    four bytes of it are at hand, and no more) does the peer give the connection
    up, with nothing in its queue.  This is for message types without oneofs and
    without defaults but zero, as in proto3, and for a message that [travels]: with
    its values protobuf serializes it to some bytes, at least one and fewer than a
    package can hold, and parses these as a message with the same values, which
    survive the conversion to Lua (see C16).  The table itself has no metatable,
    the send queue is not at its last slot, the peer's queue has room, and the
    stream to the peer is not lost. *)
Theorem table_reaches_peer {L P} `{!LuaState L, !LuaStateLaws L, !LuaTables L, !LuaTablesLaws L, !LuaCall L world,
    !LuaCallLaws L world, !Protobuf P, !ProtobufLaws P} (base base2 : Environment L P)
    max W d ty m (l0 l : L) rt ts nfd nid t s :
  plain_types (P:=P) → travels max d ty m → fields_of d l0 l ty t m → lua_metatable t l = false →
  max <= 2 ^ 32 →
  let fd := i32 (lua_to_integer nfd) in let msgid := i32 (lua_to_integer nid) in
  lua_stack l = reverse [LNumber nfd; LNumber nid; LTable t] → io_inv max W (rt_io rt) →
  pr_parser (rt_protocol rt) !! msgid = Some ty →
  io_sockets (rt_io rt) !! fd = Some s → mq_rep (sk_sendmq s) [] →
  mq_rindex (sk_sendmq s) + 1 < mq_maxsize (sk_sendmq s) →
  ∃ io' s' m1 bs, cc_response (Environment0:=with_converter d base) (l, (rt, ts)) =
      Ok (1%nat, (lua_push (LBoolean true) l, (with_io io' rt, ts))) ∧ io_sockets io' !! fd = Some s' ∧
    (m = m1 ∨ same_message d ty m m1) ∧ pb_serialize m1 = Some bs ∧
    ∀ ks, returns (slam_socket_poll_write (S (length ks)) s' (io_heap io') ks) (λ '(_, sent, s2, _, _),
      slam_message_queue_empty (sk_sendmq s2) = Ok true →
      sent = package msgid bs ∧
      ∀ r mq h kr, heap_wf h → sk_readmessage r = None → mq_rep mq [] → 1 < mq_maxsize mq →
        stream kr = sent → lost kr = false →
        returns (poll_rounds max (S (length kr)) r mq h kr) (λ '(b, _, mq', h', kr'),
          if b then
            kr' = [] ∧ ∃ y m2, mq_rep mq' [y] ∧ same_message d ty m m2 ∧
              ∀ l2 rt2 ts2 name, io_heap (rt_io rt2) = h' → pr_parser (rt_protocol rt2) !! msgid = Some ty →
                slam_protocol_find_name (rt_protocol rt2) msgid = Some name → lua_live lua_registry l2 →
                let f := lua_rawget lua_registry (LString name) l2 in is_function f = true →
                hands_over base2 d ty m2 y l2 rt2 ts2 f (sk_fd r) msgid
          else mq_rep mq' [] ∧ pauses_in_header kr [package msgid bs] kr')).
Proof.
  intros Hplain Htr Hf Hmeta Hmax fd msgid Hs Hinv Hp Hsock Hq Hroom.
  destruct (table_queued base max W d ty m l0 l rt ts nfd nid t s)
    as (x & io' & s' & m1 & bs & m2 & Hm1 & Hser & E & Hs' & (Hq' & Hms & Hri) & Hwf & Hu & Hne & Hlen & Hparse & Hsame & Hok);
    [done..|].
  exists io', s', m1, bs. split_and!; [done..|]. intros ks.
  assert (Forall (frame_ok max) [package msgid bs]) as Hfr
    by (apply Forall_singleton, package_frame; lia).
  assert (- 2 ^ 31 <= msgid < 2 ^ 31) as Hmsgid by apply i32_range.
  eapply returns_mono; [apply (poll_write_all s' [x] (io_heap io') [package msgid bs])|];
    [done|done|apply NoDup_singleton|by constructor|rewrite Hms, Hri; len|].
  intros [[[[b sent] s2] h2] k2] He Hempty. split; [rewrite He by done; apply app_nil_r|].
  intros r mq h kr Hwfr Hrm Hmq Hsz Hst Hlo.
  eapply returns_mono; [apply (poll_rounds_fresh max r mq h kr [package msgid bs]); try done|].
  { by rewrite Hst, He. }
  intros [[[[b2 r'] mq'] h'] k'] (locs & fs1 & fs2 & Efs & Hl & F & Hb).
  destruct b2.
  - destruct Hb as [-> ->]. rewrite app_nil_r in Efs. subst fs1. split; [done|].
    apply Forall2_cons_inv_r in F as (y & ys & Hy & F & ->). apply Forall2_nil_inv_r in F as ->.
    exists y, m2. split; [done|]. split; [done|]. intros l2 rt2 ts2 name <- Hp2 Hname Hlive f Hfun.
    by eapply package_handed_over.
  - destruct fs1 as [|f1 fs1]; [apply Forall2_nil_inv_r in F as ->; simpl in Efs; by subst fs2|].
    injection Efs as <- Efs. symmetry in Efs. apply app_nil in Efs as [-> ->].
    destruct Hb as (k1 & d' & _ & Ek & Hround & Hd). pose proof (round_stream _ _ _ _ Hround) as Hrs.
    rewrite Ek in Hrs. simpl in Hrs. destruct d'; [len|done].
Qed.

(** ** A note from one worker to another *)
Module EndDemo.
Abbreviation env := (with_converter 1 RelayDemo.base).
Abbreviation demo_call := (script_call (Environment0:=env) ScriptDemo.closures).

Definition note : message := ProtobufDemo.note "hi".

(** The sender: a connection with nothing to send. *)
Definition socket : slam_socket :=
  {| sk_fd := 5; sk_type := SOCKET_CONNECTION; sk_readmessage := None; sk_sendmq := Demo.queue |}.

Definition io : slam_io_thread :=
  {| io_mq := Demo.queue; io_poll := {[5 := 1]}; io_sockets := {[5 := socket]}; io_heap := Demo.empty_heap;
     io_recv := λ _, []; io_send := λ _, []; io_accept := λ _, []; io_wire := λ _, []; io_closed := [] |}.

Definition rt : runtime :=
  {| rt_io := io; rt_loaded := []; rt_calls := 0;
     rt_protocol := {| pr_regtable := {[7 := "Note.7"%string]}; pr_parser := {[7 := "Note"%string]} |} |}.

(** The script's state: the function 9 is bound to the id. *)
Definition l : Concrete.state := Concrete.rawset 2 (LString "Note.7") (LFunction 9) ScriptDemo.newstate.

Lemma io_inv_empty : io_inv 64 (λ _, False) io.
Proof.
  exists (λ _, None), []. split; [|done]. split; simpl; try done.
  - apply Demo.empty_heap_ok.
  - constructor.
  - intros x. split; [by intros ?%elem_of_nil|done].
  - intros x. rewrite lookup_empty. by split; intros [].
  - intros fd s [<- <-]%lookup_singleton_Some. split_and!; [done|done|by exists []|].
    exists [], []. split; [apply Demo.queue_rep|]. split; [constructor|]. split; [constructor|].
    intros x. split; [by intros ?%elem_of_nil|done].
Qed.

Lemma note_ok : message_ok 1 "Note" note.
Proof. exact (RoundDemo.parsed_ok "Note" [x68; x69]). Qed.

(** The text is all that a message of this type has. *)
Lemma same_text m : note = m ∨ same_message 1 "Note" note m → text m = "hi"%string.
Proof.
  intros [<-|H]; [done|].
  change (Forall (λ f, same_field (same_message 0) f note m) (PbDemo.descriptor "Note")) in H.
  cbv [PbDemo.descriptor] in H. simpl decide in H. cbv iota in H. apply Forall_cons in H as [H _].
  destruct m as [ty ss ls]. destruct H as [H|(a & b & Ha & _)]; [|done]. simpl in H |- *.
  destruct (assoc "text" ss) as [v|]; [|done]. destruct (fitting _ v); [by simpl in H; subst|done].
Qed.

Lemma note_travels : travels 64 1 "Note" note.
Proof.
  intros m Hm%same_text. exists [x68; x69], note. simpl. rewrite Hm. split_and!; try done.
  - change (Forall (λ f, same_field (same_message 0) f note note) (PbDemo.descriptor "Note")).
    cbv [PbDemo.descriptor]. simpl decide. cbv iota. RoundDemo.each_field. by left.
  - apply note_ok.
Qed.

(** The run, computed: the note is written 9 bytes at a time and read in two
    pieces; the worker of the peer has a closure that answers with what it is
    given, and is left with one table more, which holds the text. *)
Definition note_run : outcome (bool * Z * lua_value) :=
  '(_, l1) ← decode_table 1 "Note" note l;
  let t := match lua_stack l1 with v :: _ => v | [] => LNil end in
  '(_, (_, (rt, _))) ← cc_response (Environment0:=env)
    (lua_set_stack [t; ScriptDemo.num 7; ScriptDemo.num 5] l1, (rt, slam_timer_list_new));
  DEREF s := io_sockets (rt_io rt) !! 5 ;;
  '(_, sent, _, _, _) ← slam_socket_poll_write 9 s (io_heap (rt_io rt)) [Room 9; SFail EINTR; Room 9; Room 9];
  '(b, _, mq, h, _) ← poll_rounds 64 5 Demo.reader Demo.queue Demo.empty_heap
    (Demo.piece (take 7 sent) ++ [RFail EAGAIN] ++ Demo.piece (drop 7 sent));
  n ← slam_message_queue_number mq;
  '(l2, _) ← do_one_message (LuaCall0:=demo_call) (Environment0:=env) 1%positive
    (l, (with_io (with_mq_heap mq h io) rt, slam_timer_list_new));
  Ok (b, n, lua_rawget (Concrete.cs_next l2) (LString "text") l2).

Example note_arrives : note_run = Ok (true, 1, LString "hi").
Proof. vm_compute. reflexivity. Qed.
End EndDemo.

Lemma table_reaches_peer_witness :
  ∃ l1 t io' s' bs, lua_rawget t (LString "text") l1 = LString "hi" ∧
    cc_response (Environment0:=EndDemo.env)
        (lua_set_stack [LTable t; ScriptDemo.num 7; ScriptDemo.num 5] l1, (EndDemo.rt, slam_timer_list_new)) =
      Ok (1%nat, (lua_push (LBoolean true) (lua_set_stack [LTable t; ScriptDemo.num 7; ScriptDemo.num 5] l1),
                  (with_io io' EndDemo.rt, slam_timer_list_new))) ∧
    ∀ ks, returns (slam_socket_poll_write (S (length ks)) s' (io_heap io') ks) (λ '(_, sent, s2, _, _),
      slam_message_queue_empty (sk_sendmq s2) = Ok true →
      ∀ kr, stream kr = sent → lost kr = false →
        returns (poll_rounds 64 (S (length kr)) Demo.reader Demo.queue Demo.empty_heap kr) (λ '(b, _, mq', _, kr'),
          if b then ∃ y, mq_rep mq' [y] else mq_rep mq' [] ∧ pauses_in_header kr [package 7 bs] kr')).
Proof.
  destruct (message_table_decodes 1 "Note" EndDemo.note EndDemo.l RoundDemo.types_plain EndDemo.note_ok)
    as (l1 & t & Ed & Hs & _ & (_ & _ & Hmeta) & Hf).
  set (l2 := lua_set_stack [LTable t; ScriptDemo.num 7; ScriptDemo.num 5] l1).
  destruct (table_reaches_peer (LuaCall0:=EndDemo.demo_call)
    (LuaCallLaws0:=script_call_laws (Environment0:=EndDemo.env) ScriptDemo.closures)
    RelayDemo.base RelayDemo.base 64 (λ _, False) 1 "Note" EndDemo.note EndDemo.l l2 EndDemo.rt slam_timer_list_new
    (Concrete.of_integer 5) (Concrete.of_integer 7) t EndDemo.socket RoundDemo.types_plain EndDemo.note_travels)
    as (io' & s' & m1 & bs & E & _ & _ & _ & Hr);
    [exact Hf|exact Hmeta|vm_compute; discriminate|reflexivity|apply EndDemo.io_inv_empty|reflexivity|reflexivity
    |apply Demo.queue_rep|vm_compute; reflexivity|].
  exists l1, t, io', s', bs. split.
  { vm_compute in Ed. injection Ed as <-. vm_compute in Hs. injection Hs as <-. reflexivity. }
  split; [exact E|]. intros ks. eapply returns_mono; [apply Hr|].
  intros [[[[b sent] s2] h2] k2] Hw He kr Hst Hlo. destruct (Hw He) as [_ Hw2]. eapply returns_mono.
  - exact (Hw2 Demo.reader Demo.queue Demo.empty_heap kr Demo.empty_heap_ok eq_refl Demo.queue_rep eq_refl Hst Hlo).
  - intros [[[[b2 r'] mq'] h'] k']. destruct b2; [|intros H; exact H]. intros (_ & y & _ & Hy & _). exists y. exact Hy.
Defined.
