(* ===== verification/LuaDump.v ===== *)
(** * Dumps for debugging ([slam_lua.c], [slam_timer_list.c])

    What the dumps write with [log_debug], message by message, and what they do
    to the Lua stack: [lua_tostring] turns a number into a string where it is.
    Then the opening and closing of a Lua state, and the version it shows. *)

From stdpp Require Import pretty.
From S2P Require Import Prelude CString LuaValue TimerList LuaApi LuaTable Runnable.

Open Scope Z_scope.

Section dumps.
Context {L : Type} `{!LuaState L, !LuaTables L}.
Implicit Types (l : L).

(** [printf]'s field of 15 characters; a null string is written "(null)". *)
Definition pad_left (n : nat) (s : string) : string :=
  String.append (String.concat EmptyString (replicate (n - String.length s) " "%string)) s.

Definition c_text (s : option string) : string := default "(null)"%string s.

Definition slam_lua_tostring l (idx : Z) : option string * L :=
  if lua_istable l idx then (Some "[table]"%string, l)
  else if lua_isnone l idx then (Some "[none]"%string, l)
  else if lua_isnil l idx then (Some "[nil]"%string, l)
  else if lua_isboolean l idx then
    (Some (if lua_toboolean l idx then "[true]" else "[false]")%string, l)
  else if lua_isfunction l idx then (Some "[function]"%string, l)
  else if lua_isuserdata l idx then (Some "[userdata]"%string, l)
  else if lua_islightuserdata l idx then (Some "[lightuserdata]"%string, l)
  else if lua_isthread l idx then (Some "[thread]"%string, l)
  else lua_tolstring_at l idx.

(** [slam_L_tostring] is the same function on a bare [lua_State]. *)
Definition slam_L_tostring l (idx : Z) : option string * L :=
  if lua_istable l idx then (Some "[table]"%string, l)
  else if lua_isnone l idx then (Some "[none]"%string, l)
  else if lua_isnil l idx then (Some "[nil]"%string, l)
  else if lua_isboolean l idx then
    (Some (if lua_toboolean l idx then "[true]" else "[false]")%string, l)
  else if lua_isfunction l idx then (Some "[function]"%string, l)
  else if lua_isuserdata l idx then (Some "[userdata]"%string, l)
  else if lua_islightuserdata l idx then (Some "[lightuserdata]"%string, l)
  else if lua_isthread l idx then (Some "[thread]"%string, l)
  else lua_tolstring_at l idx.

(** [lua_typename(lua_type())]. *)
Definition type_name (v : option lua_value) : string :=
  match v with
  | None => "no value"
  | Some LNil => "nil"
  | Some (LBoolean _) => "boolean"
  | Some (LNumber _) => "number"
  | Some (LString _) => "string"
  | Some (LTable _) => "table"
  | Some (LFunction _) | Some (LCFunction _) => "function"
  | Some (LUserdata _) | Some (LLightUserdata _) => "userdata"
  | Some (LThread _) => "thread"
  end.

(** The loop of [slam_lua_tracestack] from the index [i] on, [n] times; the type
    is read before or after the conversion, as the compiler orders them. *)
Fixpoint tracestack_from (type_first : bool) (n : nat) (i : Z) l : list string * L :=
  match n with
  | O => ([], l)
  | S n =>
      let '(s, l') := slam_lua_tostring l i in
      let type := type_name (lua_at (if type_first then l else l') i) in
      let '(lines, l'') := tracestack_from type_first n (i + 1) l' in
      (("[" +:+ c_text s +:+ "]  (" +:+ type +:+ ")") :: lines, l'')
  end.

Definition slam_lua_tracestack (type_first : bool) l : list string * L :=
  let args := lua_gettop l in
  let '(lines, l) := tracestack_from type_first (Z.to_nat args) 1 l in
  (("lua tracestack: " +:+ pretty args) :: lines, l).

(** The loop of [slam_lua_dump_table] on the table [t], with a key on the top.
    The nested call is for the namespace of the program, under any letter case;
    a key that is no string is a null pointer to [strcasecmp]. *)
Fixpoint dump_loop (fuel : nat) (t : loc) (prefix : string) l : outcome (list string * L) :=
  match fuel with
  | O => NoFuel
  | S fuel =>
      '(more, l) ← lua_next t l;
      if negb more then Ok ([], l)
      else
        let l := lua_pushvalue (-2) l in
        let '(key, l) := lua_tolstring l in
        let '(value, l) := slam_L_tostring l (-2) in
        let l := lua_pop 1 l in
        let line := prefix +:+ pad_left 15 (c_text key) +:+ ": " +:+ c_text value in
        '(nested, l) ← match lua_at l (-1) with
                       | Some (LTable t') =>
                           DEREF k := key ;;
                           if strcasecmp_eq k "cc" then
                             '(lines, l) ← dump_loop fuel t' (snprintf 960 (prefix +:+ "		")) (lua_push LNil l);
                             Ok ((pad_left 15 prefix +:+ "{") :: lines ++ [pad_left 15 prefix +:+ "}"], l)
                           else Ok ([], l)
                       | _ => Ok ([], l)
                       end;
        '(lines, l) ← dump_loop fuel t prefix (lua_pop 1 l);
        Ok (line :: nested ++ lines, l)
  end.

Definition slam_lua_dump_table (fuel : nat) l (idx : Z) (prefix : string) : outcome (list string * L) :=
  match lua_at l idx with
  | Some (LTable t) => dump_loop fuel t prefix (lua_push LNil l)
  | _ => Undef
  end.

Definition slam_lua_dump_root_table (fuel : nat) l : outcome (list string * L) :=
  let l := lua_getglobal "_G" l in
  '(lines, l) ← slam_lua_dump_table fuel l (lua_gettop l) "	";
  Ok (["dump root table"; "{"]%string ++ lines ++ ["}"%string], lua_pop 1 l).

Definition slam_lua_dump_registry_table (fuel : nat) l : outcome (list string * L) :=
  let l := lua_push (LTable lua_registry) l in
  '(lines, l) ← slam_lua_dump_table fuel l (lua_gettop l) "	";
  Ok (["dump registry table"; "{"]%string ++ lines ++ ["}"%string], lua_pop 1 l).
End dumps.

(** ** A Lua state, and the version *)
Section state.
Context {L : Type} `{!LuaState L}.
Implicit Types (l : L).

(** [luaL_newstate] gives no state when there is no memory, and [luaL_openlibs] is
    called on what it gives; the result of [lua_checkstack] is not looked at. *)
Definition slam_lua_newstate (luaL_newstate : option L) (luaL_openlibs : L → L) : outcome L :=
  DEREF l := luaL_newstate ;;
  Ok (luaL_openlibs l).

(** [slam_lua_delete]: the state is closed, and the name of the entry file freed. *)
Definition slam_lua_closestate (lua_close : L → outcome unit) l : outcome unit := lua_close l.

Definition slam_lua_delete (lua_close : L → outcome unit) (lua : L * option string) : outcome unit :=
  slam_lua_closestate lua_close lua.1.

(** [lua_getfield] of the top, and [lua_remove] of the slot below the top. *)
Definition getfield_top (k : string) l : outcome L :=
  match lua_at l (-1) with
  | Some (LTable t) => Ok (lua_push (lua_rawget t (LString k) l) l)
  | _ => Undef
  end.

Definition remove_below_top l : L :=
  match lua_stack l with v :: _ :: stk => lua_set_stack (v :: stk) l | _ => l end.

(** [slam_lua_showversion]: [call] is [lua_call] with all results; an error in it
    ends the process.  The results are left on the stack. *)
Definition slam_lua_showversion (version copyright : string) (call : lua_value → L → outcome (list lua_value * L)) l
    : outcome (list string * L) :=
  let l := lua_push (lua_rawget lua_registry (LString "_LOADED") l) l in
  l ← getfield_top "jit" l;
  let l := remove_below_top l in
  l ← getfield_top "status" l;
  let l := remove_below_top l in
  let n := lua_gettop l in
  match lua_stack l with
  | [] => Undef
  | f :: stk =>
      '(results, l) ← call f (lua_set_stack stk l);
      let l := lua_set_stack (reverse results ++ lua_stack l) l in
      Ok (["JIT: " +:+ version +:+ " -- " +:+ copyright;
           "JIT: " +:+ (if lua_toboolean l n then "ON" else "OFF")]%string, l)
  end.
End state.

(** [slam_timer_list_dump]. *)
Fixpoint timer_list_dump_loop (fuel : nat) (node : ptr) (st : timer_state) : outcome (list string) :=
  match node with
  | None => Ok []
  | Some x =>
      match fuel with
      | O => NoFuel
      | S fuel =>
          DEREF t := ts_heap st !! x ;;
          lines ← timer_list_dump_loop fuel (tm_next t) st;
          Ok (("    timer, interval: " +:+ pretty (i64 (tm_interval t)) +:+
               ", expire_time: " +:+ pretty (i64 (tm_expire_time t)) +:+
               ", forever: " +:+ (if tm_forever t then "1" else "0") +:+
               ", ref: " +:+ pretty (tm_ref t)) :: lines)
      end
  end.

Definition slam_timer_list_dump (st : timer_state) (prefix : option string) : outcome (list string) :=
  lines ← timer_list_dump_loop (list_fuel st) (ts_head st) st;
  Ok (option_list prefix ++ lines).

(** ** Lemmas *)
Section lemmas.
Context {L : Type} `{!LuaState L, !LuaStateLaws L, !LuaTables L}.
Implicit Types (l : L).

(** What a conversion leaves of a value. *)
Definition converted (v : lua_value) : lua_value :=
  match v with LNumber n => LString (lua_number2str (L:=L) n) | v => v end.

Lemma L_tostring_stack l idx v :
  lua_at l idx = Some v →
  ∃ s, slam_L_tostring l idx =
    (s, match v with
        | LNumber _ => lua_set_stack (<[Z.to_nat (if idx <? 0 then - idx - 1 else lua_gettop l - idx) :=
                                        converted v]> (lua_stack l)) l
        | _ => l
        end).
Proof.
  intros Hv. unfold slam_L_tostring, lua_istable, lua_isnil, lua_isboolean, lua_isfunction,
    lua_isuserdata, lua_islightuserdata, lua_isthread, test, lua_isnone, lua_tolstring_at.
  rewrite Hv. destruct v; simpl; by eexists.
Qed.

(** The values at the indices from [i] on are converted. *)
Lemma tracestack_from_stack tf n : ∀ i l,
  1 <= i → i + Z.of_nat n = lua_gettop l + 1 →
  ∀ j, lua_stack (tracestack_from tf n i l).2 !! j =
    (if (j <? n)%nat then converted <$> lua_stack l !! j else lua_stack l !! j).
Proof.
  induction n as [|n IH]; intros i l Hi Hn j; [done|]. simpl tracestack_from.
  unfold lua_gettop in Hn.
  destruct (lookup_lt_is_Some_2 (lua_stack l) n) as [v Hv]; [unfold len in Hn; lia|].
  assert (lua_at l i = Some v) as Hat.
  { unfold lua_at. replace (i <? 0) with false by lia. replace (i =? 0) with false by lia.
    rewrite reverse_lookup by (unfold len in Hn; lia). rewrite <- Hv. f_equal. unfold len in Hn. lia. }
  destruct (L_tostring_stack l i v Hat) as [s Es].
  change (slam_lua_tostring l i) with (slam_L_tostring l i). rewrite Es.
  set (l' := match v with LNumber _ => _ | _ => l end).
  assert (lua_stack l' = <[n := converted v]> (lua_stack l)) as Hs.
  { subst l'. assert (<[n := v]> (lua_stack l) = lua_stack l) as He by by apply list_insert_id.
    destruct v; simpl; try (symmetry; exact He). rewrite lua_stack_set. f_equal.
    replace (i <? 0) with false by lia. unfold lua_gettop, len in *. lia. }
  clearbody l'. specialize (IH (i + 1) l'). destruct (tracestack_from tf n (i + 1) l') as [lines l''].
  simpl in *. rewrite IH; [|lia|unfold lua_gettop, len in *; rewrite Hs, length_insert; lia].
  rewrite Hs. destruct (Nat.lt_trichotomy j n) as [Hj|[->|Hj]].
  - rewrite list_lookup_insert_ne by lia.
    by rewrite (proj2 (Nat.ltb_lt j n)), (proj2 (Nat.ltb_lt j (S n))) by lia.
  - rewrite (proj2 (Nat.ltb_ge n n)), (proj2 (Nat.ltb_lt n (S n))) by lia.
    rewrite list_lookup_insert_eq by (by eapply lookup_lt_Some). by rewrite Hv.
  - rewrite list_lookup_insert_ne by lia.
    by rewrite (proj2 (Nat.ltb_ge j n)), (proj2 (Nat.ltb_ge j (S n))) by lia.
Qed.

(** Tracing the stack turns every number on it into a string. *)
Lemma slam_lua_tracestack_converts tf l :
  lua_stack (slam_lua_tracestack tf l).2 = converted <$> lua_stack l.
Proof.
  unfold slam_lua_tracestack. pose proof (tracestack_from_stack tf (Z.to_nat (lua_gettop l)) 1 l) as H.
  destruct (tracestack_from _ _ _ _) as [lines l']. simpl in *. apply list_eq. intros j.
  rewrite H, list_lookup_fmap; [|lia|unfold lua_gettop, len; lia].
  destruct (Nat.ltb_spec j (Z.to_nat (lua_gettop l))) as [|Hj]; [done|].
  unfold lua_gettop, len in Hj. by rewrite lookup_ge_None_2 by lia.
Qed.

(** A dump takes its key from the stack and leaves everything else as it was. *)
Lemma dump_loop_keeps fuel : ∀ t prefix l lines l' k stk,
  lua_stack l = k :: stk → dump_loop fuel t prefix l = Ok (lines, l') → l' = lua_set_stack stk l.
Proof.
  induction fuel as [|fuel IH]; intros t prefix l lines l' k stk Hs; [done|]. simpl.
  unfold lua_next, lua_next_raises. rewrite Hs.
  destruct (entries_from k (lua_entries t l)) as [[|[k' v] es]|]; simpl; [by intros [= <- <-]| |done].
  unfold lua_pushvalue, lua_at. rewrite lua_stack_set. simpl. unfold lua_push. rewrite lua_stack_set, lua_set_stack_set.
  unfold lua_tolstring. rewrite lua_stack_set.
  assert (∃ key kc, match k' with
    | LNumber n => (Some (lua_number2str (L:=L) n), lua_set_stack (LString (lua_number2str (L:=L) n) :: v :: k' :: stk)
                      (lua_set_stack (k' :: v :: k' :: stk) l))
    | _ => (lua_tostring (lua_set_stack (k' :: v :: k' :: stk) l) (-1), lua_set_stack (k' :: v :: k' :: stk) l)
    end = (key, lua_set_stack (kc :: v :: k' :: stk) l)) as (key & kc & ->).
  { destruct k'; try (by eexists _, _). eexists _, _. by rewrite lua_set_stack_set. }
  destruct (L_tostring_stack (lua_set_stack (kc :: v :: k' :: stk) l) (-2) v) as [value ->].
  { unfold lua_at. by rewrite lua_stack_set. }
  assert (∃ w, lua_pop 1 match v with
      | LNumber _ => lua_set_stack (<[Z.to_nat (if -2 <? 0 then - -2 - 1 else lua_gettop (lua_set_stack (kc :: v :: k' :: stk) l) - -2) := converted v]>
                       (lua_stack (lua_set_stack (kc :: v :: k' :: stk) l))) (lua_set_stack (kc :: v :: k' :: stk) l)
      | _ => lua_set_stack (kc :: v :: k' :: stk) l
      end = lua_set_stack (w :: k' :: stk) l) as (w & ->).
  { unfold lua_pop. destruct v; rewrite ?lua_stack_set, ?lua_set_stack_set, ?lua_stack_set; by eexists. }
  rewrite lua_stack_set. simpl ((w :: k' :: stk) !! _).
  assert (∀ lines0 l0 (nested : list string), l0 = lua_set_stack (w :: k' :: stk) l →
    ('(lines, l1) ← dump_loop fuel t prefix (lua_pop 1 l0); Ok (lines0 :: nested ++ lines, l1)) = Ok (lines, l') →
    l' = lua_set_stack stk l) as Hrest.
  { intros lines0 l0 nested -> Hd. unfold lua_pop in Hd. rewrite lua_stack_set, lua_set_stack_set in Hd.
    destruct (dump_loop fuel t prefix _) as [[lines1 l1]| | |] eqn:E; try done. simpl in Hd. simplify_eq.
    apply (IH _ _ _ _ _ k' stk) in E as ->; [|by rewrite lua_stack_set]. by rewrite lua_set_stack_set. }
  destruct w as [| | | |t'| | | | |]; simpl; try exact (Hrest _ _ [] eq_refl).
  destruct key as [key|]; [|done]. destruct (strcasecmp_eq key "cc"); [|exact (Hrest _ _ [] eq_refl)].
  destruct (dump_loop fuel t' _ _) as [[lines2 l2]| | |] eqn:E; try done.
  refine (Hrest _ _ (_ :: lines2 ++ [_]) _). rewrite lua_set_stack_set in E.
  apply (IH _ _ _ _ _ LNil (LTable t' :: k' :: stk)) in E as ->; [|by rewrite lua_stack_set].
  by rewrite lua_set_stack_set.
Qed.

Lemma slam_lua_dump_root_table_keeps fuel l lines l' :
  slam_lua_dump_root_table fuel l = Ok (lines, l') → l' = l.
Proof.
  unfold slam_lua_dump_root_table, slam_lua_dump_table. set (l0 := lua_getglobal "_G" l).
  destruct (lua_at l0 _) as [v|]; [|done]. destruct v; try done.
  destruct (dump_loop fuel _ _ _) as [[lines1 l1]| | |] eqn:E; try done. simpl. intros [= <- <-].
  unfold lua_push in E. apply (dump_loop_keeps _ _ _ _ _ _ LNil (lua_stack l0)) in E as ->; [|by rewrite lua_stack_set].
  unfold lua_pop, l0, lua_getglobal, lua_push. rewrite !lua_set_stack_set, !lua_stack_set. simpl.
  by rewrite drop_0, lua_set_stack_id.
Qed.

(** A table under a key that is no string is compared with a null pointer. *)
Lemma dump_boolean_key_undefined fuel t prefix l b u es stk :
  lua_stack l = LNil :: stk → lua_entries t l = (LBoolean b, LTable u) :: es →
  dump_loop (S fuel) t prefix l = Undef.
Proof.
  intros Hs He. simpl. unfold lua_next, lua_next_raises. rewrite Hs, He. simpl.
  set (l1 := lua_set_stack (LBoolean b :: LTable u :: LBoolean b :: stk) l).
  assert (lua_pushvalue (-2) (lua_set_stack (LTable u :: LBoolean b :: stk) l) = l1) as ->.
  { unfold lua_pushvalue, lua_push, lua_at. by rewrite !lua_stack_set, lua_set_stack_set. }
  assert (lua_tolstring l1 = (None, l1)) as ->.
  { unfold lua_tolstring, l1. rewrite lua_stack_set. unfold lua_tostring, lua_at. by rewrite lua_stack_set. }
  destruct (L_tostring_stack l1 (-2) (LTable u)) as [value ->]; [unfold lua_at, l1; by rewrite lua_stack_set|].
  unfold lua_pop, lua_at, l1. by rewrite !lua_stack_set.
Qed.

(** ** The version *)

(** Without a state there is nothing to open the libraries in. *)
Lemma slam_lua_newstate_out_of_memory (openlibs : L → L) : slam_lua_newstate None openlibs = Undef.
Proof. reflexivity. Qed.

Definition truth (v : lua_value) : bool :=
  match v with LNil | LBoolean false => false | _ => true end.

(** The line tells the first result of [jit.status], and all its results stay on
    the stack. *)
Lemma slam_lua_showversion_leaves version copyright call l t j r results l1 :
  lua_rawget lua_registry (LString "_LOADED") l = LTable t → lua_rawget t (LString "jit") l = LTable j →
  call (lua_rawget j (LString "status") l) l = Ok (r :: results, l1) → lua_stack l1 = lua_stack l →
  ∃ l', slam_lua_showversion version copyright call l =
      Ok (["JIT: " +:+ version +:+ " -- " +:+ copyright; "JIT: " +:+ (if truth r then "ON" else "OFF")]%string, l') ∧
    lua_stack l' = reverse results ++ r :: lua_stack l.
Proof.
  intros Hl Hj Hc Hs. unfold slam_lua_showversion, getfield_top. rewrite Hl, lua_at_top, bind_ok.
  unfold remove_below_top. rewrite !stack_push.
  assert (∀ v vs l, lua_at (lua_set_stack (v :: vs) l) (-1) = Some v) as Htop
    by (intros v vs l0; unfold lua_at; by rewrite lua_stack_set).
  rewrite Htop, !rawget_push, Hj, bind_ok, stack_push, !lua_stack_set.
  unfold lua_push, lua_gettop. rewrite !lua_rawget_set_stack, !lua_set_stack_set, !lua_stack_set, lua_set_stack_id.
  rewrite Hc, bind_ok, Hs. eexists. split.
  - do 5 f_equal. unfold lua_toboolean, lua_at. rewrite lua_stack_set.
    set (vs := lua_stack l). assert (∀ v, len (v :: vs) = Z.of_nat (length vs) + 1) as -> by (intros v; len).
    rewrite (proj2 (Z.ltb_ge _ _)), (proj2 (Z.eqb_neq _ _)) by lia.
    rewrite reverse_app, reverse_involutive, lookup_app_r by (rewrite length_reverse; lia).
    rewrite length_reverse. replace (Z.to_nat (Z.of_nat (length vs) + 1 - 1) - length vs)%nat with 0%nat by lia.
    by destruct r as [|[]| | | | | | | |].
  - rewrite lua_stack_set. by rewrite reverse_cons, <-app_assoc.
Qed.
End lemmas.
