(* ===== verification/System.v ===== *)
(** * A worker process ([slam_main.c], the two threads together)

    A worker process is started by [slam_main_init_child_process]; then its two
    threads take turns: the I/O thread handles a batch of poll events, the worker
    one turn of its loop, and the network makes progress in between.  A turn is
    not interrupted here; [QueueThreads] interleaves the two sides of the queue
    access by access, and [SocketRace] what becomes of the sockets when turns
    overlap.  The theorems hold for any script that keeps [WorldCallbacks], any
    events and any network. *)

From S2P Require Import Prelude LuaValue TimerList TimerRun MessageQueue Message Socket Poll IoThread.
From S2P Require Import IoOwnership Protocol LuaApi LuaTable Protobuf ProtobufDemo ProtoSafety Lua LuaEvent LuaFunc.
From S2P Require Import WorkerCalls Runnable Relay.

(** ** Data *)

(** The parts of [__slam_main] that belong to a worker, as far as they have been
    made; [fds] is [fd_io_sockets], its ends [SLAM_FD_IO] and [SLAM_FD_WORKER]. *)
Inductive child (L : Type) :=
  | NoParts                            (* [fd_io_sockets] is not initialised *)
  | QueueOnly (fds : Z * Z) (mq : slam_message_queue loc)
  | NoThread (fds : Z * Z) (mq : slam_message_queue loc) (ts : timer_state)
  | Parts (fds : Z * Z) (lua : L) (w : world).
Arguments NoParts {L}.
Arguments QueueOnly {L} fds mq.
Arguments NoThread {L} fds mq ts.
Arguments Parts {L} fds lua w.

(** ** Operations *)
Section operations.
Context {L P : Type} `{!LuaState L, !LuaCall L world, !Environment L P}.
Context (max_package_size : Z).

(** What happens next. *)
Inductive system_event :=
  | IoTurn (halt : bool) (events : list slam_poll_event)
  | WorkerTurn (halt : bool) (timer_fuel : nat)
  | Network (recv : Z → list recv_event) (send : Z → list send_event)
      (accept : Z → list accept_event).

Definition set_network (recv : Z → list recv_event) (send : Z → list send_event)
    (accept : Z → list accept_event) (io : slam_io_thread) : slam_io_thread :=
  {| io_mq := io_mq io; io_poll := io_poll io; io_sockets := io_sockets io; io_heap := io_heap io;
     io_recv := recv; io_send := send; io_accept := accept; io_wire := io_wire io;
     io_closed := io_closed io |}.

Definition system_step (e : system_event) (σ : L * world) : outcome (L * world) :=
  let '(l, (rt, ts)) := σ in
  match e with
  | IoTurn halt events =>
      '(_, io) ← slam_io_thread_do_message max_package_size env_send_queue_size env_epoll_accepts
                   halt events (rt_io rt);
      Ok (l, (with_io io rt, ts))
  | WorkerTurn halt timer_fuel => '(_, σ) ← runnable_turn timer_fuel halt σ; Ok σ
  | Network recv send accept => Ok (l, (with_io (set_network recv send accept (rt_io rt)) rt, ts))
  end.

Fixpoint system_run (es : list system_event) (σ : L * world) : outcome (L * world) :=
  match es with
  | [] => Ok σ
  | e :: es => σ ← system_step e σ; system_run es σ
  end.

(** [slam_main_init_child_process] in a worker, where [pair] is the result of
    [socketpair] and [created] that of [pthread_create]. *)
Definition slam_main_init_child_process (receive_queue_size : Z) (pair : option (Z * Z)) (fd_worker : Z)
    (created : bool) (newstate : L) (luaL_loadstring : string → lua_value) (entryfile : string)
    : outcome (bool * child L) :=
  match pair with
  | None => Ok (false, NoParts)
  | Some fds =>
      mq ← slam_message_queue_new receive_queue_size;
      match slam_runnable_new fds.2 fd_worker env_epoll_accepts with
      | None => Ok (false, QueueOnly fds mq)
      | Some (_, protocol, timer_list) =>
          match slam_io_thread_new env_epoll_accepts mq {| mh_msgs := ∅; mh_brk := 1%positive |} fds.1
                  (λ _, []) (λ _, []) (λ _, []) created with
          | None => Ok (false, NoThread fds mq timer_list)
          | Some io =>
              let rt := {| rt_io := io; rt_protocol := protocol; rt_loaded := []; rt_calls := 0 |} in
              '(loaded, (l, w)) ←
                slam_runnable_load_entryfile newstate luaL_loadstring entryfile (rt, timer_list);
              Ok (loaded, Parts fds l w)
          end
      end
  end.
End operations.

(** ** Proofs *)
Section proofs.
Context {L P : Type} `{!LuaState L, !LuaStateLaws L, !LuaCall L world, !LuaCallLaws L world}.
Context `{!Environment L P, !EnvironmentSafe L P}.
Context (max : Z) `{!WorldCallbacks (L:=L) max}.
Context (send_queue_size_ok : env_send_queue_size (L:=L) (P:=P) <= 2 ^ 31).
Implicit Types (l : L) (w : world).

Lemma io_turn_safe W halt es io :
  io_inv max W io →
  safe (slam_io_thread_do_message max (env_send_queue_size (L:=L) (P:=P)) (env_epoll_accepts (L:=L) (P:=P))
          halt es io)
    (λ r, io_inv max W r.2).
Proof.
  intros H. unfold slam_io_thread_do_message. destruct halt; [done|].
  eapply safe_bind; [by apply inv_do_events|]. intros io1 H1.
  pose proof H1 as (own & q & Hio & _). by rewrite (empty_rep _ _ (ok_mq _ _ _ _ _ Hio)).
Qed.

Lemma system_step_defined e l w :
  world_inv max w → defined true (system_step max e (l, w)) (λ r, world_inv max r.2).
Proof.
  destruct w as [rt ts]. intros [(W & HX & H) Ht]. destruct e as [halt es|halt fuel|recv send acc]; cbn [system_step].
  - eapply defined_bind; [by eapply safe_defined, io_turn_safe|]. intros [woken io] Hio.
    split; [|done]. by exists W.
  - eapply defined_bind; [eapply (runnable_turn_defined max); split; [by exists W|done]|].
    by intros [timeout [l' w']] H'.
  - split; [|done]. exists W. split; [done|]. by eapply inv_irrelevant.
Qed.

Lemma system_run_defined es : ∀ l w,
  world_inv max w → defined true (system_run max es (l, w)) (λ r, world_inv max r.2).
Proof.
  induction es as [|e es IH]; intros l w H; simpl; [done|].
  eapply defined_bind; [by apply system_step_defined|]. intros [l' w'] H'. by apply IH.
Qed.

(** *** Starting *)
Lemma new_io_inv mq accepts fd_io recv send acc created io :
  mq_rep mq [] →
  slam_io_thread_new accepts mq {| mh_msgs := ∅; mh_brk := 1%positive |} fd_io recv send acc created = Some io →
  io_inv max (λ _, False) io.
Proof.
  intros Hq. unfold slam_io_thread_new. destruct (slam_poll_add_socket _ _ _) as [[] poll]; [|done].
  destruct created; [|done]. intros [= <-]. exists (λ _, None), []. split; [|done].
  split; simpl; try done.
  - intros x. simpl. rewrite lookup_empty. by intros [].
  - constructor.
  - intros x. split; [by intros ?%elem_of_nil|done].
  - intros x. rewrite lookup_empty. split; by intros [].
Qed.

Lemma slam_lua_new_ok l :
  lua_rawget lua_globals (LString "_G") l = LTable lua_globals →
  ∃ l' t, slam_lua_new l = Ok l' ∧ lua_stack l' = lua_stack l ∧
    lua_rawget lua_globals (LString SLAM_LUA_REGISTER_NAMESPACE) l' = LTable t ∧
    ∀ name routine, (name, routine) ∈ std_funcs → lua_rawget t (LString name) l' = LCFunction routine.
Proof.
  intros HG. unfold slam_lua_new.
  destruct (reg_namespace_ok SLAM_LUA_REGISTER_NAMESPACE l HG) as (l1 & t & -> & Hs & HG1 & Hcc & Ht); [done|].
  rewrite bind_ok. destruct (reg_std_func_ok t l1 HG1 Hcc Ht) as (l2 & -> & Hs2 & Hin & Hg).
  exists l2, t. by rewrite Hs2, Hs, Hg.
Qed.

Lemma load_entryfile_kept M X det file kept load l rt ts tl :
  runtime_ok M max X rt → timers_ok det ts tl →
  safe (slam_lua_load_entryfile load file kept (l, (rt, ts)))
    (λ r, world_kept M max X det ts r.2.2).
Proof.
  intros Hr Ht. unfold slam_lua_load_entryfile, slam_lua_dofile, slam_lua_dostring.
  rewrite (slam_lua_pcall_eq _ _ [] (load (require_statement file)) (lua_stack l)) by apply stack_push.
  eapply safe_bind with (P := λ r, world_kept M max X det ts r.2.2); [|by intros [b [l' w']] H].
  eapply safe_bind with (P := λ r, world_kept M max X det ts r.2.2); [|by intros [[b v] [l' w']] H].
  destruct (is_function _); [|split; [done|by eapply timers_kept_refl]].
  eapply safe_bind; [by eapply callback_kept|]. intros [[rc r] [l' w']] H. by destruct (negb _).
Qed.

(** What is made holds no message and no timer, or is a worker that keeps its
    invariant. *)
Definition child_ok (c : child L) : Prop :=
  match c with
  | NoParts => True
  | QueueOnly _ mq => mq_rep mq []
  | NoThread _ mq ts => mq_rep mq [] ∧ timers_ok [] ts []
  | Parts _ _ w => world_inv max w
  end.

Lemma load_kept file kept l io pr :
  lua_rawget lua_globals (LString "_G") l = LTable lua_globals →
  io_inv max (λ _, False) io →
  safe (slam_runnable_load_entryfile l kept file
          ({| rt_io := io; rt_protocol := pr; rt_loaded := []; rt_calls := 0 |}, slam_timer_list_new))
    (λ r, world_inv max r.2.2).
Proof.
  intros HG Hio. unfold slam_runnable_load_entryfile.
  destruct (slam_lua_new_ok l HG) as (l1 & t & -> & _). rewrite bind_ok.
  set (kept' := λ (r : L * world), world_kept mq_rep max (λ _, False) [] slam_timer_list_new r.2).
  assert (∀ σ, kept' σ → world_inv max σ.2) as Hk.
  { intros [l2 w2] [H1 (tl & H2 & _)]. split; [done|by exists tl]. }
  eapply safe_bind with (P := λ r, kept' r.2).
  { eapply (load_entryfile_kept mq_rep (λ _, False) []); [|exact new_timers_ok].
    exists (λ _, False). split; [done|]. by eapply inv_irrelevant. }
  intros [[loaded k] [l2 [rt2 ts2]]] H. destruct loaded; simpl; [|by apply (Hk (l2, (rt2, ts2)))].
  destruct H as [H1 (tl2 & H2 & Hd2)].
  eapply safe_bind; [rewrite event_start_eq; eapply (notify_global_kept max mq_rep (λ _, False) []); done|].
  intros [b [l3 w3]] H3. apply (Hk (l3, w3)). by eapply world_kept_trans.
Qed.

Lemma init_child_safe size pair fd created l load file :
  lua_rawget lua_globals (LString "_G") l = LTable lua_globals → size <= 2 ^ 31 →
  safe (slam_main_init_child_process size pair fd created l load file)
    (λ r, child_ok r.2 ∧ (r.1 = true → ∃ fds l w, r.2 = Parts fds l w) ∧ (is_Some pair → r.2 ≠ NoParts)).
Proof.
  intros HG Hsize. unfold slam_main_init_child_process.
  destruct pair as [fds|]; [|split_and!; [done..|by intros []]].
  eapply safe_bind with (P := λ mq, mq_rep mq []).
  { destruct (Z.lt_ge_cases 0 size); [|unfold slam_message_queue_new; by zcase; [lia|]].
    apply returns_safe. eapply returns_mono; [by apply new_rep|]. by intros mq []. }
  intros mq Hq. destruct (slam_runnable_new _ _ _) as [[[poll pr] ts]|] eqn:Hr; [|done].
  assert (ts = slam_timer_list_new) as ->.
  { unfold slam_runnable_new in Hr. repeat case_match; by simplify_eq. }
  destruct (slam_io_thread_new _ _ _ _ _ _ _ _) as [io|] eqn:Hio; [|by split_and!; [split; [|apply new_timers_ok]|..]].
  apply new_io_inv in Hio; [|done].
  eapply safe_bind; [by eapply load_kept|]. intros [loaded [l' w']] H.
  split_and!; [done|by eexists _, _, _|done].
Qed.
End proofs.

(** ** The properties *)

(** A start and a run of a worker whose environment is safe. *)
Lemma start_and_run_defined {L P} `{!LuaState L, !LuaStateLaws L, !LuaCall L world,
    !LuaCallLaws L world, !Environment L P, !EnvironmentSafe L P} max `{!WorldCallbacks (L:=L) max}
    receive_queue_size pair fd_worker created (newstate : L) luaL_loadstring entryfile es :
  env_send_queue_size (L:=L) (P:=P) <= 2 ^ 31 → receive_queue_size <= 2 ^ 31 →
  lua_rawget lua_globals (LString "_G") newstate = LTable lua_globals →
  defined true
    (r ← slam_main_init_child_process receive_queue_size pair fd_worker created
           newstate luaL_loadstring entryfile;
     match r with
     | (true, Parts _ l w) => σ ← system_run max es (l, w); Ok (Some σ)
     | _ => Ok None
     end)
    (λ r, match r with Some (_, w) => world_inv max w | None => True end).
Proof.
  intros Hsize Hq HG. eapply defined_bind; [by apply safe_defined, (init_child_safe max)|].
  intros [[] c] (H & _); [|done]. destruct c as [| | |fds l w]; try done.
  eapply defined_bind; [by apply (system_run_defined max)|]. by intros [l' w'] H'.
Qed.


(** A new Lua state offers the script every function of the program's
    interface under its name in the namespace [cc], and its stack is as it was. *)
Lemma slam_lua_new_binds_functions {L P} `{!LuaState L, !LuaStateLaws L, !Environment L P} (l : L) :
  lua_rawget lua_globals (LString "_G") l = LTable lua_globals →
  ∃ l' t, slam_lua_new l = Ok l' ∧ lua_stack l' = lua_stack l ∧
    lua_rawget lua_globals (LString "cc") l' = LTable t ∧
    Forall (λ '(name, routine), lua_rawget t (LString name) l' = LCFunction routine ∧
              is_Some (cc_routine (L:=L) routine)) std_funcs.
Proof.
  intros HG. destruct (slam_lua_new_ok l HG) as (l' & t & E & Hs & Hcc & Hin).
  exists l', t. split_and!; [done..|]. apply Forall_forall. intros [name routine] Hx.
  split; [by apply Hin|]. unfold std_funcs in Hx.
  repeat (apply elem_of_cons in Hx as [[= -> ->]|Hx]; [by eexists|]). by apply elem_of_nil in Hx.
Qed.

(** ** A run

    The script listens on descriptor 10.  A client connects on descriptor 11 and
    sends a note in two pieces; it is read, decoded and handed to the script, which
    answers with the table it is given; the answer is encoded and sent. *)
Module SystemDemo.
Import ScriptDemo.
Definition base : Environment Concrete.state message := {|
  env_send_queue_size := 4;
  env_epoll_accepts := env_epoll_accepts (Environment := ScriptDemo.env);
  env_bind := env_bind (Environment := ScriptDemo.env);
  env_connect := env_connect (Environment := ScriptDemo.env);
  env_shutdown_rd := env_shutdown_rd (Environment := ScriptDemo.env);
  env_gettimeofday := env_gettimeofday (Environment := ScriptDemo.env);
  env_load_descriptor _ := true;
  env_known_type files t := bool_decide (files ≠ []) && String.eqb t "Note";
  env_dead_block := Ok;
  env_parse _ _ := None;
  env_serialize _ _ := [];
  env_decode_descriptor _ _ l := Ok (false, l);
  env_encode_descriptor _ l := Ok (None, l);
|}.

#[export] Instance env : Environment Concrete.state message :=
  with_converter (Protobuf0 := FlatDemo.flat_protobuf) 2 base.

Lemma block_read s : returns (env_dead_block (Environment := base) s) (λ _, True).
Proof. by eexists. Qed.

#[export] Instance env_safe : EnvironmentSafe Concrete.state message :=
  converter_safe (Protobuf0 := FlatDemo.flat_protobuf) (ProtobufLaws0 := FlatDemo.flat_laws) 2 base
    FailDemo.plain FailDemo.flat_steady block_read.

Definition main : script :=
  SCall "cc_loadmsg" [LString "note.proto"] (λ _,
  SCall "cc_bindmsg" [num 7; LString "Note"; LFunction 9] (λ _,
  SCall "cc_newserver" [LString "0.0.0.0"; num 8000] (λ _,
  SCall "cc_newtimer" [num 1; LBoolean false; LString "tick"; LFunction 6] (λ _,
  SReturn 0 LNil)))).

Definition closures (p : loc) (args : list lua_value) : script :=
  match p with 8%positive => main | _ => ScriptDemo.closures p args end.

#[export] Instance call : LuaCall Concrete.state world := script_call closures.
#[export] Instance call_laws : LuaCallLaws Concrete.state world := script_call_laws closures.

Lemma note_closures_in_range p args : contexts_in_range (L:=Concrete.state) (closures p args).
Proof.
  destruct (decide (p = 8%positive)) as [->|Hp].
  - simpl. do 3 (split; [by intros|intros _]). by split.
  - replace (closures p args) with (ScriptDemo.closures p args); [apply ScriptDemo.closures_in_range|].
    unfold closures. by repeat case_match.
Qed.

#[export] Instance callbacks : WorldCallbacks (L:=Concrete.state) 64.
Proof. apply script_callbacks; [simpl; lia|apply note_closures_in_range]. Qed.

Definition load (s : string) : lua_value := LFunction 8.

Definition note : list byte := package 7 [x68; x69].

Definition recv (fd : Z) : list recv_event :=
  if fd =? 11 then
    match take 5 note, drop 5 note with
    | b :: bs, b' :: bs' => [Arrive b bs; Arrive b' bs']
    | _, _ => []
    end
  else [].
Definition send (fd : Z) : list send_event := [Room 10; Room 100].
Definition accept (fd : Z) : list accept_event := if fd =? 10 then [AConn 11 true] else [].

Definition ready (fd mask : Z) : slam_poll_event := {| ev_events := mask; ev_fd := fd |}.

Definition events : list system_event :=
  [Network recv send accept;
   IoTurn false [ready 10 EPOLLIN];
   IoTurn false [ready 11 EPOLLIN];
   WorkerTurn false 5;
   IoTurn false [ready 11 EPOLLOUT]].

Definition start : outcome (bool * child Concrete.state) :=
  slam_main_init_child_process 8 (Some (3, 4)) 5 true newstate load "main.lua".

Definition run : outcome (option (Concrete.state * world)) :=
  r ← start;
  match r with
  | (true, Parts _ l w) => σ ← system_run 64 events (l, w); Ok (Some σ)
  | _ => Ok None
  end.

(** What the client receives, and the messages still live. *)
Example answered :
  match run with
  | Ok (Some (l, (rt, ts))) =>
      (io_wire (rt_io rt) 11, size (mh_msgs (io_heap (rt_io rt))), elements (dom (io_sockets (rt_io rt))))
      = (note, 0%nat, [11; 10])
  | _ => False
  end.
Proof. vm_compute. reflexivity. Qed.
End SystemDemo.


Lemma slam_lua_new_binds_functions_witness :
  ∃ (l' : Concrete.state) t, slam_lua_new ScriptDemo.newstate = Ok l' ∧
    lua_rawget lua_globals (LString "cc") l' = LTable t ∧
    lua_rawget t (LString "newtimer") l' = LCFunction "cc_newtimer".
Proof.
  destruct (slam_lua_new_binds_functions (P:=list byte) (Environment0:=ScriptDemo.env) ScriptDemo.newstate) as (l' & t & E & _ & Hcc & Hall);
    [reflexivity|].
  exists l', t. split; [exact E|]. split; [exact Hcc|].
  rewrite Forall_forall in Hall. apply (Hall ("newtimer", "cc_newtimer")%string).
  unfold std_funcs. set_solver.
Defined.
