(* ===== verification/WorkerExit.v ===== *)
(** * The end of a worker process ([slam_main_exit] in a worker)

    A worker releases its parts in the order runnable, I/O thread, message queue.
    The I/O thread is joined only when its turn comes: it may still be handling
    events when the runnable is gone. *)

From S2P Require Import Prelude LuaValue TimerList TimerRun MessageQueue Message Socket Poll IoThread.
From S2P Require Import IoOwnership Protocol LuaApi LuaTable Protobuf ProtobufDemo ProtoSafety Lua LuaEvent LuaFunc.
From S2P Require Import WorkerCalls Runnable Relay System.

(** ** Operations *)

(** What is left of the heaps, and the descriptors closed, in order. *)
Record released := {
  rel_closed : list Z;
  rel_msgs : gmap loc slam_message;
  rel_timers : gmap loc slam_timer;
}.

(** [slam_message_queue_delete] of the queue to the worker. *)
Definition delete_queue (mq : slam_message_queue loc) (h : msg_heap) : outcome msg_heap :=
  freed ← slam_message_queue_delete (S (length (mq_queue mq))) mq;
  delete_messages freed h.

Section operations.
Context {L P : Type} `{!LuaState L, !LuaCall L world, !Environment L P}.

Context (max_package_size : Z).

(** The rest of a turn of the I/O thread that was under way when [halt] was set,
    after the runnable has been freed: the events it had still to handle.  With
    messages in the queue it then calls [slam_runnable_wakeup] on the freed
    runnable. *)
Definition late_turn (late : option (list slam_poll_event)) (io : slam_io_thread) : outcome slam_io_thread :=
  match late with
  | None => Ok io                      (* the thread waits, or is about to see the flag *)
  | Some events =>
      '(woken, io) ← slam_io_thread_do_message max_package_size env_send_queue_size env_epoll_accepts
                       false events io;
      if (woken : bool) then Undef else Ok io
  end.

(** What is released after the runnable. *)
Definition release_rest (fds : Z * Z) (io : slam_io_thread) (ts : timer_state) : outcome released :=
  io ← slam_io_thread_delete io fds.1;
  h ← delete_queue (io_mq io) (io_heap io);
  Ok {| rel_closed := io_closed io ++ [fds.2]; rel_msgs := mh_msgs h; rel_timers := ts_heap ts |}.

(** The part of [slam_main_exit] that only a worker executes.  Closing the I/O
    thread joins it, and has closed [SLAM_FD_IO] and set it to -1. *)
Definition release_child (late : option (list slam_poll_event)) (c : child L) : outcome released :=
  match c with
  | NoParts => Undef                   (* closes indeterminate descriptors *)
  | QueueOnly fds mq =>
      h ← delete_queue mq {| mh_msgs := ∅; mh_brk := 1%positive |};
      Ok {| rel_closed := [fds.1; fds.2]; rel_msgs := mh_msgs h; rel_timers := ∅ |}
  | NoThread fds mq ts =>
      ts ← slam_timer_list_delete (list_fuel ts) ts;
      h ← delete_queue mq {| mh_msgs := ∅; mh_brk := 1%positive |};
      Ok {| rel_closed := [fds.1; fds.2]; rel_msgs := mh_msgs h; rel_timers := ts_heap ts |}
  | Parts fds l w =>
      '(rt, ts) ← slam_runnable_delete (Some l) w;
      io ← late_turn late (rt_io rt);
      release_rest fds io ts
  end.
End operations.

(** ** Proofs *)
Section proofs.
Context (max : Z).

(** The I/O thread with the sockets from the descriptor [fd] on. *)
Definition from_fd (fd : Z) (ss : gmap Z slam_socket) : gmap Z slam_socket :=
  filter (λ '(k, _), fd <= k) ss.

Lemma from_fd_step fd ss :
  from_fd (fd + 1) ss = delete fd (from_fd fd ss).
Proof.
  apply map_eq. intros k. unfold from_fd. apply option_eq. intros s.
  rewrite lookup_delete_Some, !map_lookup_filter_Some. naive_solver lia.
Qed.

Lemma delete_socket_sockets s ss io :
  delete_socket s (with_sockets ss io) = (io' ← delete_socket s io; Ok (with_sockets ss io')).
Proof. unfold delete_socket. simpl. by destruct (slam_socket_delete s (io_heap io)). Qed.

Lemma delete_sockets_safe W ss n : ∀ fd io,
  io_sockets io = ss → io_inv max W (with_sockets (from_fd fd ss) io) →
  safe (delete_sockets n fd io) (λ io', io_inv max W (with_sockets (from_fd (fd + Z.of_nat n) ss) io')).
Proof.
  induction n as [|n IH]; intros fd io Hss H; [simpl; by rewrite Z.add_0_r|]. simpl delete_sockets.
  replace (fd + Z.of_nat (S n)) with (fd + 1 + Z.of_nat n) by lia. rewrite Hss.
  destruct (ss !! fd) as [s|] eqn:Hs.
  - assert (from_fd fd ss !! fd = Some s) as Hf by (apply map_lookup_filter_Some; auto with lia).
    pose proof (inv_delete_socket max W _ fd s H Hf) as Hd. rewrite delete_socket_sockets in Hd.
    assert (∀ io', delete_socket s io = Ok io' → io_sockets io' = ss) as Hk.
    { unfold delete_socket. simpl. intros io'. by destruct (slam_socket_delete s _); [|done..]; intros [= <-]. }
    destruct (delete_socket s io) as [io'| | |] eqn:E; try done. simpl in *.
    apply IH; [by apply Hk|]. destruct Hd as [Hd _]. by rewrite from_fd_step.
  - apply IH; [done|]. rewrite from_fd_step, delete_id; [done|]. apply map_lookup_filter_None. by left.
Qed.

(** When no socket is left, deleting the queue leaves the messages in the
    worker's hands. *)
Lemma delete_queue_safe W io :
  io_inv max W (with_sockets ∅ io) →
  safe (delete_queue (io_mq io) (io_heap io)) (λ h, ∀ x, is_Some (mh_msgs h !! x) ↔ W x).
Proof.
  intros (own & q & H & HW). unfold delete_queue. pose proof (ok_mq _ _ _ _ _ H) as Hq. simpl in Hq.
  pose proof (rep_length _ _ Hq) as Hlen. pose proof (rep_room _ _ Hq) as Hroom.
  destruct (Z.lt_ge_cases (mq_rindex (io_mq io) + len q) (mq_maxsize (io_mq io))).
  2: { by rewrite (delete_aborts _ _ q) by (done || len). }
  rewrite (delete_rep _ _ q), bind_ok by (done || len).
  assert (∀ x, x ∈ q → is_Some (mh_msgs (io_heap io) !! x)) as Hl.
  { intros x Hx%(ok_q _ _ _ _ _ H). apply (ok_live _ _ _ _ _ H). eauto. }
  destruct (delete_messages_ok q (io_heap io)) as (h & -> & _ & Hh); [apply H|done|apply H|].
  intros x. rewrite Hh, <- HW. pose proof (ok_live _ _ _ _ _ H x) as Hx. simpl in Hx.
  case_decide as Hin; [rewrite (ok_q _ _ _ _ _ H) in Hin; split; [by intros []|congruence]|].
  rewrite Hx. split; [|by intros ->]. intros [o Ho]. destruct o as [|fd|]; [|destruct (ok_owner _ _ _ _ _ H x fd Ho) as [? E]; simpl in E; by rewrite lookup_empty in E|done].
  destruct Hin. by apply (ok_q _ _ _ _ _ H).
Qed.

Lemma all_sockets_below io W :
  io_inv max W io → from_fd MAX_SOCKET_NUMBER (io_sockets io) = ∅ ∧ from_fd 0 (io_sockets io) = io_sockets io.
Proof.
  intros (own & q & H & _).
  assert (∀ fd s, io_sockets io !! fd = Some s → 0 <= fd < MAX_SOCKET_NUMBER) as Hr.
  { intros fd s Hs. destruct (ok_socks _ _ _ _ _ H fd s Hs) as [Hv _]. unfold VALID_SOCKET in Hv. lia. }
  split; apply map_eq; intros fd; apply option_eq; intros s; unfold from_fd.
  - rewrite map_lookup_filter_Some, lookup_empty. split; [|done]. intros [Hs%Hr ?]. lia.
  - rewrite map_lookup_filter_Some. split; [tauto|]. intros Hs. split; [done|]. apply Hr in Hs. lia.
Qed.

Lemma io_delete_inv W io fd_io :
  io_inv max W io → safe (slam_io_thread_delete io fd_io) (λ io', io_inv max W (with_sockets ∅ io')).
Proof.
  intros H. unfold slam_io_thread_delete, slam_io_wakeup. destruct (slam_poll_set_socket_pollout _ _ _) as [b poll].
  destruct (all_sockets_below io W H) as [He Ha].
  eapply safe_bind with (P := λ io', io_inv max W (with_sockets (from_fd MAX_SOCKET_NUMBER (io_sockets io)) io')).
  - change MAX_SOCKET_NUMBER with (0 + Z.of_nat (Z.to_nat MAX_SOCKET_NUMBER)) at 2.
    apply delete_sockets_safe; [reflexivity|]. rewrite Ha. eapply inv_irrelevant; [exact H|reflexivity..].
  - intros io'. rewrite He. intros H'. by eapply inv_irrelevant.
Qed.
End proofs.

Section worker.
Context {L P : Type} `{!LuaState L, !LuaStateLaws L, !LuaCall L world, !LuaCallLaws L world}.
Context `{!Environment L P}.
Context (max : Z) `{!WorldCallbacks (L:=L) max}.
Context (send_queue_size_ok : env_send_queue_size (L:=L) (P:=P) <= 2 ^ 31).

Lemma runnable_delete_safe (l : L) w :
  world_inv max w →
  safe (slam_runnable_delete (Some l) w) (λ w', runtime_ok mq_rep max (λ _, False) w'.1 ∧ ts_heap w'.2 = ∅).
Proof.
  destruct w as [rt ts]. intros [Hr [tl Ht]]. unfold slam_runnable_delete.
  eapply safe_bind with (P := λ w', runtime_ok mq_rep max (λ _, False) w'.1 ∧ ∃ tl, timers_ok [] w'.2 tl).
  - eapply safe_bind; [rewrite event_stop_eq; by eapply (notify_global_kept max mq_rep (λ _, False) [])|].
    intros [b [l' w']] [H (tl' & H' & _)]. split; [done|by exists tl'].
  - intros [rt' ts'] [Hr' [tl' Ht']].
    eapply safe_bind; [by eapply returns_safe, slam_timer_list_delete_frees_all|]. done.
Qed.

Lemma new_queue_freed mq :
  mq_rep mq [] → safe (delete_queue mq {| mh_msgs := ∅; mh_brk := 1%positive |}) (λ _, True).
Proof.
  intros Hq. unfold delete_queue. pose proof (rep_length _ _ Hq). pose proof (rep_room _ _ Hq).
  destruct (Z.lt_ge_cases (mq_rindex mq + 0) (mq_maxsize mq)).
  - by rewrite (delete_rep _ _ []) by (done || len).
  - by rewrite (delete_aborts _ _ []) by (done || len).
Qed.

(** The parts that are left, when the I/O thread has done what it had to do. *)
Lemma rest_released W io ts fds :
  io_inv max W io → ts_heap ts = ∅ →
  safe (release_rest fds io ts) (λ r, rel_timers r = ∅).
Proof.
  intros H Hts. unfold release_rest. eapply safe_bind; [exact (io_delete_inv max W io fds.1 H)|]. intros io' H'.
  eapply safe_bind; [exact (delete_queue_safe max W io' H')|]. done.
Qed.

Lemma release_child_safe size (c : child L) :
  child_ok max c → c ≠ NoParts → safe (release_child size None c) (λ r, rel_timers r = ∅).
Proof.
  intros Hc Hn. destruct c as [|fds mq|fds mq ts|fds l [rt ts]]; [done|..]; simpl in *.
  - eapply safe_bind; [by apply new_queue_freed|]. done.
  - destruct Hc as [Hq Ht]. eapply safe_bind; [by eapply returns_safe, slam_timer_list_delete_frees_all|].
    intros ts' Hts. eapply safe_bind; [by apply new_queue_freed|]. done.
  - eapply safe_bind; [by eapply runnable_delete_safe|]. intros [rt' ts'] [(W & _ & H) Hts].
    by eapply rest_released.
Qed.

(** A turn of the I/O thread that outlives the runnable: with messages left in the
    queue it uses the freed runnable, with none it does no harm. *)
Lemma late_turn_outcome events fds (l : L) w :
  world_inv max w →
  match ('(rt, _) ← slam_runnable_delete (Some l) w;
         slam_io_thread_do_message max (env_send_queue_size (L:=L) (P:=P)) (env_epoll_accepts (L:=L) (P:=P))
           false events (rt_io rt)) : outcome (bool * slam_io_thread) with
  | Ok (woken, _) =>
      if woken then release_child max (Some events) (Parts fds l w) = Undef
      else safe (release_child max (Some events) (Parts fds l w)) (λ r, rel_timers r = ∅)
  | AssertFail => release_child max (Some events) (Parts fds l w) = AssertFail
  | _ => False
  end.
Proof.
  intros H. unfold release_child. pose proof (runnable_delete_safe l w H) as Hd.
  destruct (slam_runnable_delete (Some l) w) as [[rt ts]| | |]; [|done..]. destruct Hd as [(W & _ & Hio) Hts].
  rewrite !bind_ok. pose proof (io_turn_safe max send_queue_size_ok W false events _ Hio) as Ht.
  unfold late_turn. destruct (slam_io_thread_do_message _ _ _ _ _ _) as [[[] io]| | |]; [done| |done..].
  rewrite !bind_ok. exact (rest_released W io ts fds Ht Hts).
Qed.
End worker.

(** ** The properties *)

(** Claim C34.  Releasing the I/O thread and then the queue to the worker frees
    every message that a socket or the queue owns, once, and leaves the others:
    what is live afterwards is what the worker has in its hands.  The queues may
    abort when they are released. *)
Theorem io_and_queue_release_messages max W io fd_io :
  io_inv max W io →
  safe (io' ← slam_io_thread_delete io fd_io; delete_queue (io_mq io') (io_heap io'))
    (λ h, ∀ x, is_Some (mh_msgs h !! x) ↔ W x).
Proof.
  intros H. eapply safe_bind; [by apply io_delete_inv|]. intros io' H'. by apply (delete_queue_safe max W io').
Qed.

(** Claim C33.  A worker ends without undefined behaviour, as long as its I/O thread
    is not in the middle of a turn when it does: whatever it has made when its start
    fails, and whatever has happened since when it does not, the parts are released
    without touching anything freed, and no timer is left; it may abort on an
    assertion.  A turn of the I/O thread that is still under way when the runnable
    is released, before the thread is joined, does no harm if it leaves the queue
    to the worker empty; if not, it wakes the runnable, which has been freed:
    undefined behaviour.  A worker without its pair of descriptors is left out: it
    closes two that are not initialised.  The assumptions are those of C1. *)
Theorem worker_exit_safe {L P} `{!LuaState L, !LuaStateLaws L, !LuaTables L, !LuaTablesLaws L, !LuaCall L world,
    !LuaCallLaws L world, !Protobuf P, !ProtobufLaws P} (base : Environment L P) d max `{!WorldCallbacks (L:=L) max}
    receive_queue_size fds fd_worker created (newstate : L) luaL_loadstring entryfile es :
  (∀ l : L, plain_tables l) → (∀ ty, steady (P:=P) d false ty) →
  (∀ s, returns (env_dead_block (Environment := base) s) (λ _, True)) →
  env_send_queue_size (Environment := base) <= 2 ^ 31 → receive_queue_size <= 2 ^ 31 →
  lua_rawget lua_globals (LString "_G") newstate = LTable lua_globals →
  defined true
    (r ← slam_main_init_child_process (Environment0 := with_converter d base) receive_queue_size (Some fds)
           fd_worker created newstate luaL_loadstring entryfile;
     match r with
     | (true, Parts fds l w) =>
         '(l, w) ← system_run (Environment0 := with_converter d base) max es (l, w);
         release_child (Environment0 := with_converter d base) max None (Parts fds l w)
     | (_, c) => release_child (Environment0 := with_converter d base) max None c
     end)
    (λ r, rel_timers r = ∅) ∧
  ∀ events fds (l : L) w, world_inv max w →
    match ('(rt, _) ← slam_runnable_delete (Some l) w;
           slam_io_thread_do_message max (env_send_queue_size (Environment := base))
             (env_epoll_accepts (Environment := base)) false events (rt_io rt)) : outcome (bool * slam_io_thread) with
    | Ok (woken, _) =>
        let r := release_child (Environment0 := with_converter d base) max (Some events) (Parts fds l w) in
        if woken then r = Undef else safe r (λ r, rel_timers r = ∅)
    | AssertFail => release_child (Environment0 := with_converter d base) max (Some events) (Parts fds l w) = AssertFail
    | _ => False
    end.
Proof.
  intros Hplain Hsteady Hblock Hsize Hq HG. pose proof (converter_safe d base Hplain Hsteady Hblock) as Hsafe.
  split; [|intros events fds' l w H; by apply (late_turn_outcome (Environment0 := with_converter d base))].
  eapply defined_bind; [by apply safe_defined, (init_child_safe max _ (Some fds))|].
  intros [b c] (Hc & _ & Hn). assert (c ≠ NoParts) as Hc' by by apply Hn.
  pose proof (safe_defined _ _ (release_child_safe (Environment0 := with_converter d base) max max c Hc Hc')) as Hr.
  destruct b; [|done]. destruct c as [| | |fds' l w]; try done.
  eapply defined_bind; [by apply (system_run_defined max)|]. intros [l' w'] H'.
  by apply safe_defined, (release_child_safe max).
Qed.

(** Without a pair the worker's exit is undefined. *)
Lemma exit_without_pair {L P} `{!LuaState L, !LuaCall L world, !Environment L P} max late size fd created (l : L) load file :
  (r ← slam_main_init_child_process size None fd created l load file; release_child max late r.2) = Undef.
Proof. reflexivity. Qed.

(** ** Witnesses *)
Lemma io_and_queue_release_messages_witness :
  safe (io' ← slam_io_thread_delete IoDemo.io 6; delete_queue (io_mq io') (io_heap io'))
    (λ h, ∀ x, is_Some (mh_msgs h !! x) ↔ x = 3%positive).
Proof. apply (io_and_queue_release_messages 64 (λ x, x = 3%positive) IoDemo.io 6), IoDemo.io_inv_holds. Defined.

(** The run of [SystemDemo], and then the end of the process. *)
Module ExitDemo.
Import ScriptDemo SystemDemo.
Definition run (late : option (list slam_poll_event)) : outcome released :=
  r ← start;
  match r with
  | (true, Parts fds l w) => '(l, w) ← system_run 64 events (l, w); release_child 64 late (Parts fds l w)
  | (_, c) => release_child 64 None c
  end.
End ExitDemo.

Lemma worker_exit_safe_witness : defined true (ExitDemo.run None) (λ r, rel_timers r = ∅).
Proof.
  assert (env_send_queue_size (Environment:=SystemDemo.base) <= 2 ^ 31) as H1 by (simpl; lia).
  assert (8 <= 2 ^ 31) as H2 by lia. unfold ExitDemo.run, SystemDemo.start.
  exact (proj1 (worker_exit_safe (L:=Concrete.state) (LuaCall0:=SystemDemo.call)
    (LuaCallLaws0:=SystemDemo.call_laws) (Protobuf0:=FlatDemo.flat_protobuf) (ProtobufLaws0:=FlatDemo.flat_laws)
    SystemDemo.base 2 (WorldCallbacks0:=SystemDemo.callbacks) 64 8 (3, 4) 5 true
    ScriptDemo.newstate SystemDemo.load "main.lua" SystemDemo.events FailDemo.plain FailDemo.flat_steady
    SystemDemo.block_read H1 H2 eq_refl)).
Defined.

(** The client hangs up while the worker ends: the I/O thread is in the middle of
    telling the worker. *)
Example exit_race : ExitDemo.run (Some [SystemDemo.ready 11 EPOLLHUP]) = Undef.
Proof. vm_compute. reflexivity. Qed.

(** Its sockets are closed and then the pair, and no message is left. *)
Example exit_demo :
  match ExitDemo.run None with
  | Ok r => (rel_closed r, size (rel_msgs r))
  | _ => ([], 1%nat)
  end = ([10; 11; 3; 4], 0%nat).
Proof. vm_compute. reflexivity. Qed.
