(* ===== verification/Main.v ===== *)
(** * The program ([slam_main.c], [slam_main.h], [slam_signal.c])

    Arguments, start, the processes the start makes, signals, the master's loop
    and the exit.  A run of the start is the list of the processes it leaves: the
    master and a process per successful [fork]. *)

From stdpp Require Import pretty.
From Stdlib Require Import Ascii.
From S2P Require Import Prelude CString Utils Log LuaValue TimerList TimerRun MessageQueue Message Socket.
From S2P Require Import Poll IoThread IoOwnership Protocol LuaApi Lua LuaEvent LuaFunc WorkerCalls Runnable.
From S2P Require Import System WorkerExit.

Open Scope Z_scope.

(** ** Data *)
Definition MB : Z := 1048576.

Definition SLAM_VERSION_MAJOR : Z := 0.
Definition SLAM_VERSION_MINOR : Z := 1.
Definition SLAM_VERSION_PATCH : Z := 0.

Definition SLAM_DEF_LIMIT_STACK_SIZE : Z := 16 * MB.
Definition SLAM_DEF_LIMIT_OPEN_FILES : Z := 8192.
Definition SLAM_DEF_CONN_MAX_SILENT : Z := 10.
Definition SLAM_DEF_CONN_CHECK_INTERVAL : Z := 10.
Definition SLAM_DEF_CONN_MAX_MESSAGES : Z := 300.
Definition SLAM_DEF_POLL_EVENT_NUMBER : Z := 1024.
Definition SLAM_DEF_MAX_PACKAGE_SIZE : Z := 4 * MB.
Definition SLAM_DEF_MESSAGE_QUEUE_SIZE : Z := 10000.
Definition SLAM_DEF_SEND_QUEUE_SIZE : Z := 1000.
Definition SLAM_DEF_LOGFILE : string := "slam.log".
Definition SLAM_DEF_WORKER_NUMBER : Z := 1.

(** The global [__slam_main]; [sm_argv] are the offsets of the arguments in the
    memory [sm_area].  What a worker adds to it is a [child]. *)
Record slam_main := {
  sm_halt : bool;
  sm_runasdaemon : bool;
  sm_runasmaster : bool;
  sm_argv : list nat;
  sm_area : list byte;
  sm_reload_entryfile : bool;
  sm_entryfile : option string;
  sm_logfile : string;
  sm_limit_stack_size : Z;
  sm_limit_max_files : Z;
  sm_worker_number : Z;
  sm_conn_max_silent : Z;
  sm_conn_check_interval : Z;
  sm_conn_max_messages : Z;
  sm_poll_event_number : Z;
  sm_max_package_size : Z;
  sm_receive_queue_size : Z;
  sm_socket_send_queue_size : Z;
  sm_fd_worker_sockets : Z * Z;        (* [SLAM_FD_MASTER], [SLAM_FD_WORKER] *)
  sm_log : option slam_log;
}.

(** The fields that are assigned after the start. *)
Definition with_flags (halt reload : bool) (m : slam_main) : slam_main :=
  {| sm_halt := halt; sm_runasdaemon := sm_runasdaemon m; sm_runasmaster := sm_runasmaster m;
     sm_argv := sm_argv m; sm_area := sm_area m; sm_reload_entryfile := reload;
     sm_entryfile := sm_entryfile m; sm_logfile := sm_logfile m;
     sm_limit_stack_size := sm_limit_stack_size m; sm_limit_max_files := sm_limit_max_files m;
     sm_worker_number := sm_worker_number m; sm_conn_max_silent := sm_conn_max_silent m;
     sm_conn_check_interval := sm_conn_check_interval m; sm_conn_max_messages := sm_conn_max_messages m;
     sm_poll_event_number := sm_poll_event_number m; sm_max_package_size := sm_max_package_size m;
     sm_receive_queue_size := sm_receive_queue_size m;
     sm_socket_send_queue_size := sm_socket_send_queue_size m;
     sm_fd_worker_sockets := sm_fd_worker_sockets m; sm_log := sm_log m |}.

Definition with_options (runasdaemon : bool) (entryfile : option string) (logfile : string)
    (worker_number : Z) (m : slam_main) : slam_main :=
  {| sm_halt := sm_halt m; sm_runasdaemon := runasdaemon; sm_runasmaster := sm_runasmaster m;
     sm_argv := sm_argv m; sm_area := sm_area m; sm_reload_entryfile := sm_reload_entryfile m;
     sm_entryfile := entryfile; sm_logfile := logfile;
     sm_limit_stack_size := sm_limit_stack_size m; sm_limit_max_files := sm_limit_max_files m;
     sm_worker_number := worker_number; sm_conn_max_silent := sm_conn_max_silent m;
     sm_conn_check_interval := sm_conn_check_interval m; sm_conn_max_messages := sm_conn_max_messages m;
     sm_poll_event_number := sm_poll_event_number m; sm_max_package_size := sm_max_package_size m;
     sm_receive_queue_size := sm_receive_queue_size m;
     sm_socket_send_queue_size := sm_socket_send_queue_size m;
     sm_fd_worker_sockets := sm_fd_worker_sockets m; sm_log := sm_log m |}.

(** A worker: not the master, with the title in place. *)
Definition as_worker (area : list byte) (m : slam_main) : slam_main :=
  {| sm_halt := sm_halt m; sm_runasdaemon := sm_runasdaemon m; sm_runasmaster := false;
     sm_argv := sm_argv m; sm_area := area; sm_reload_entryfile := sm_reload_entryfile m;
     sm_entryfile := sm_entryfile m; sm_logfile := sm_logfile m;
     sm_limit_stack_size := sm_limit_stack_size m; sm_limit_max_files := sm_limit_max_files m;
     sm_worker_number := sm_worker_number m; sm_conn_max_silent := sm_conn_max_silent m;
     sm_conn_check_interval := sm_conn_check_interval m; sm_conn_max_messages := sm_conn_max_messages m;
     sm_poll_event_number := sm_poll_event_number m; sm_max_package_size := sm_max_package_size m;
     sm_receive_queue_size := sm_receive_queue_size m;
     sm_socket_send_queue_size := sm_socket_send_queue_size m;
     sm_fd_worker_sockets := sm_fd_worker_sockets m; sm_log := sm_log m |}.

(** ** Arguments *)

(** *** [getopt] of the C library

    Words that are no options are passed over, and "--" ends the options.  The
    library may permute the pointers behind [argv[0]]; what is done with the
    arguments afterwards does not depend on their order. *)
Inductive getopt_result := GOption (c : ascii) (optarg : option string) | GError.

(** Whether an option is known, and whether it takes an argument. *)
Fixpoint takes_argument (optstring : string) (c : ascii) : option bool :=
  match optstring with
  | EmptyString => None
  | String o optstring =>
      if Ascii.eqb o c && negb (Ascii.eqb c ":")
      then Some match optstring with String ":" _ => true | _ => false end
      else takes_argument optstring c
  end.

(** The options of one word, and the option that waits for the next word. *)
Fixpoint getopt_word (optstring s : string) : list getopt_result * option ascii :=
  match s with
  | EmptyString => ([], None)
  | String c s =>
      match takes_argument optstring c with
      | None => let '(r, next) := getopt_word optstring s in (GError :: r, next)
      | Some false => let '(r, next) := getopt_word optstring s in (GOption c None :: r, next)
      | Some true => if decide (s = EmptyString) then ([], Some c) else ([GOption c (Some s)], None)
      end
  end.

Fixpoint getopt (optstring : string) (args : list string) : list getopt_result :=
  match args with
  | [] => []
  | String "-" s :: args =>
      if decide (s = EmptyString) then getopt optstring args
      else if decide (s = "-"%string) then []
      else
        let '(r, next) := getopt_word optstring s in
        r ++ match next, args with
             | None, _ => getopt optstring args
             | Some _, [] => [GError]
             | Some c, a :: args => GOption c (Some a) :: getopt optstring args
             end
  | _ :: args => getopt optstring args
  end.

(** *** The program's options *)
Definition Usage (m : slam_main) : list string :=
  ["Usage: slam [OPTIONS]";
   "    OPTIONS:";
   "      -d:          run as daemon, (" +:+ (if sm_runasdaemon m then "true" else "false") +:+ ")";
   "      -w number    worker number, (" +:+ pretty (i32 (sm_worker_number m)) +:+ ")";
   "      -e filename  lua entryfile, (" +:+ default "nullptr" (sm_entryfile m) +:+ ")";
   "      -l filename  logfile, (" +:+ sm_logfile m +:+ ")"]%string.

(** The loop over the options: whether it goes well, what it prints, and the settings. *)
Fixpoint parse_options (opts : list getopt_result) (m : slam_main) : outcome (bool * list string * slam_main) :=
  match opts with
  | [] => Ok (true, [], m)
  | GError :: _ => Ok (false, Usage m, m)
  | GOption c optarg :: opts =>
      match c with
      | "d" | "D" =>
          parse_options opts (with_options true (sm_entryfile m) (sm_logfile m) (sm_worker_number m) m)
      | "e" =>
          DEREF file := optarg ;;
          parse_options opts (with_options (sm_runasdaemon m) (Some file) (sm_logfile m) (sm_worker_number m) m)
      | "w" =>
          n ← atoi optarg;
          parse_options opts (with_options (sm_runasdaemon m) (sm_entryfile m) (sm_logfile m) (u32 n) m)
      | "l" =>
          DEREF file := optarg ;;
          parse_options opts (with_options (sm_runasdaemon m) (sm_entryfile m) file (sm_worker_number m) m)
      | _ => Ok (false, Usage m, m)
      end%char
  end.

Definition slam_main_parse_args (args : list string) (m : slam_main) : outcome (bool * list string * slam_main) :=
  parse_options (getopt "dDhHe:w:l:" args) m.

Definition slam_main_dump (m : slam_main) : string :=
  "slam version: " +:+ pretty SLAM_VERSION_MAJOR +:+ "." +:+ pretty SLAM_VERSION_MINOR +:+ "." +:+
  pretty SLAM_VERSION_PATCH +:+ ", worker: " +:+ pretty (i32 (sm_worker_number m)) +:+
  ", entryfile: " +:+ default "nullptr"%string (sm_entryfile m) +:+ ", logfile: " +:+ sm_logfile m +:+
  ", " +:+ (if sm_runasdaemon m then "run as daemon" else "run as console").

(** ** Start *)

(** What the system answers. *)
Record answers := {
  an_sysconf : Z;
  an_socketpair : option (Z * Z);
  an_open : string → Z;
  an_access : string → Z → Z;
}.

(** [__slam_main] with its defaults. *)
Definition slam_main_defaults (argv : list nat) (area : list byte) (an : answers) (fds : Z * Z) : slam_main :=
  {| sm_halt := false; sm_runasdaemon := false; sm_runasmaster := true;
     sm_argv := argv; sm_area := area; sm_reload_entryfile := false;
     sm_entryfile := None; sm_logfile := SLAM_DEF_LOGFILE;
     sm_limit_stack_size := SLAM_DEF_LIMIT_STACK_SIZE; sm_limit_max_files := SLAM_DEF_LIMIT_OPEN_FILES;
     sm_worker_number := if SLAM_DEF_WORKER_NUMBER =? 0 then slam_cpus (an_sysconf an) else SLAM_DEF_WORKER_NUMBER;
     sm_conn_max_silent := SLAM_DEF_CONN_MAX_SILENT; sm_conn_check_interval := SLAM_DEF_CONN_CHECK_INTERVAL;
     sm_conn_max_messages := SLAM_DEF_CONN_MAX_MESSAGES;
     sm_poll_event_number := SLAM_DEF_POLL_EVENT_NUMBER; sm_max_package_size := SLAM_DEF_MAX_PACKAGE_SIZE;
     sm_receive_queue_size := SLAM_DEF_MESSAGE_QUEUE_SIZE;
     sm_socket_send_queue_size := SLAM_DEF_SEND_QUEUE_SIZE;
     sm_fd_worker_sockets := fds; sm_log := slam_log_new (an_open an) SLAM_DEF_LOGFILE |}.

Inductive init_error :=
  | SocketPairError | BadOption | LogfileError | NoWorker | NoEntryfile | EntryfileInexist | EntryfileUnreadable.

(** The conditions on the settings, in their order. *)
Definition check_settings (an : answers) (m : slam_main) : option init_error :=
  match sm_log m with
  | None => Some LogfileError
  | Some _ =>
      if negb (sm_worker_number m >? 0) then Some NoWorker
      else match sm_entryfile m with
           | None => Some NoEntryfile
           | Some file =>
               if negb (slam_file_exist (an_access an) file) then Some EntryfileInexist
               else if negb (slam_file_readable (an_access an) file) then Some EntryfileUnreadable
               else None
           end
  end.

(** [slam_main_init] up to the forks: the error or the settings of the master. *)
Definition slam_main_settings (args : list string) (argv : list nat) (area : list byte) (an : answers)
    : outcome (init_error + slam_main) :=
  match an_socketpair an with
  | None => Ok (inl SocketPairError)
  | Some fds =>
      '(parsed, _, m) ← slam_main_parse_args args (slam_main_defaults argv area an fds);
      if negb parsed then Ok (inl BadOption)
      else match check_settings an m with
           | Some e => Ok (inl e)
           | None => Ok (inr m)
           end
  end.

(** Running as a daemon: what is done with the standard descriptors. *)
Inductive fd_op := Daemon (nochdir noclose : bool) | Close (fd : Z) | Dup2 (oldfd newfd : Z).

Definition become_daemon (m : slam_main) : outcome (list fd_op) :=
  if sm_runasdaemon m then
    DEREF log := sm_log m ;;
    Ok [Daemon true false; Close 1; Close 2; Dup2 (log_fd log) 1; Dup2 (log_fd log) 2]
  else Ok [].

(** ** Signals *)
Definition SIGHUP : Z := 1.
Definition SIGINT : Z := 2.
Definition SIGQUIT : Z := 3.
Definition SIGUSR1 : Z := 10.
Definition SIGUSR2 : Z := 12.
Definition SIGTERM : Z := 15.

Definition slam_signal_handler (sig : Z) (m : slam_main) : slam_main :=
  if sig =? SIGHUP then with_flags (sm_halt m) true m
  else if (sig =? SIGINT) || (sig =? SIGTERM) || (sig =? SIGQUIT) then with_flags true (sm_reload_entryfile m) m
  else m.

(** [slam_install_signal_handler]: the signals the handler is installed for;
    they interrupt a system call. *)
Definition slam_install_signal_handler : list Z := [SIGHUP; SIGINT; SIGTERM; SIGQUIT; SIGUSR1; SIGUSR2].

(** A signal arrives: any other one ends the process. *)
Definition deliver (sig : Z) (m : slam_main) : option slam_main :=
  if decide (sig ∈ slam_install_signal_handler) then Some (slam_signal_handler sig m) else None.

(** ** The master *)
Inductive master_event :=
  | ChildExits (status : Z)
  | Signal (sig : Z)
  | Quiet.                             (* time passes *)

Inductive master_state :=
  | Blocked (m : slam_main)            (* in [wait], and nothing happens any more *)
  | NoChildren (es : list master_event) (m : slam_main)  (* [wait] fails with [ECHILD] *)
  | Terminated.

(** [slam_main_run_master] with so many children.  A signal makes [wait] fail with
    [EINTR], which is logged and not more. *)
Fixpoint slam_main_run_master (children : nat) (es : list master_event) (m : slam_main) : master_state :=
  match children, es with
  | O, _ => NoChildren es m
  | S _, [] => Blocked m
  | S children', ChildExits _ :: es => slam_main_run_master children' es m
  | S _, Signal sig :: es =>
      match deliver sig m with
      | Some m => slam_main_run_master children es m
      | None => Terminated
      end
  | S _, Quiet :: es => slam_main_run_master children es m
  end.

Inductive master_end := Leaves (m : slam_main) | Waits (m : slam_main) | Killed.

(** [slam_main_run] in the master; without children [wait] fails at once, and what
    happens next happens between two rounds. *)
Fixpoint slam_main_run (fuel : nat) (children : nat) (es : list master_event) (m : slam_main)
    : outcome master_end :=
  match fuel with
  | O => NoFuel
  | S fuel =>
      if sm_halt m then Ok (Leaves m)
      else match slam_main_run_master children es m with
           | Blocked m => Ok (Waits m)
           | Terminated => Ok Killed
           | NoChildren (Signal sig :: es) m =>
               match deliver sig m with
               | Some m => slam_main_run fuel 0 es m
               | None => Ok Killed
               end
           | NoChildren (_ :: es) m => slam_main_run fuel 0 es m
           | NoChildren [] m => slam_main_run fuel 0 [] m
           end
  end.

(** ** Processes *)
Definition EXIT_SUCCESS : Z := 0.
Definition EXIT_FAILURE : Z := 1.

(** [" worker"] *)
Definition worker_title : list byte := [x20; x77; x6f; x72; x6b; x65; x72].

Section processes.
Context {L P : Type} `{!LuaState L, !LuaCall L world, !Environment L P}.

(** The end of a process: its status, the descriptors [slam_main_exit] closes
    itself, and what a worker has released. *)
Record exited := { ex_status : Z; ex_closed : list Z; ex_worker : option released }.

Definition slam_main_exit (status : Z) (m : slam_main) (late : option (list slam_poll_event)) (c : child L)
    : outcome exited :=
  let closed := (slam_close (sm_fd_worker_sockets m).2).1 ++ (slam_close (sm_fd_worker_sockets m).1).1 ++
                match sm_log m with Some log => slam_log_delete log | None => [] end in
  if negb (sm_runasmaster m) then
    r ← release_child (sm_max_package_size m) late c;
    Ok {| ex_status := status; ex_closed := closed; ex_worker := Some r |}
  else Ok {| ex_status := status; ex_closed := closed; ex_worker := None |}.

Inductive process :=
  | Master (m : slam_main)
  | Worker (m : slam_main) (fds : Z * Z) (lua : L) (w : world)
  | Exited (e : exited).

(** What the system gives the child of the [i]-th fork, and the turn its I/O thread
    is in the middle of when a start that fails is given up. *)
Record child_boot := {
  cb_pair : option (Z * Z);
  cb_created : bool;
  cb_newstate : L;
  cb_loadstring : string → lua_value;
  cb_late : option (list slam_poll_event);
}.

(** [slam_main_spawn_child_process]: the parent goes on unchanged whether [fork]
    succeeds or not; the child has a title. *)
Definition slam_main_spawn_child_process (forked : bool) (m : slam_main) : slam_main * option (outcome slam_main) :=
  if forked then
    (m, Some (area ← slam_set_process_title (sm_argv m) worker_title (sm_area m); Ok (as_worker area m)))
  else (m, None).

(** The child in the loop of [slam_main_init]. *)
Definition start_worker (b : child_boot) (m : slam_main) : outcome process :=
  DEREF entryfile := sm_entryfile m ;;
  '(ok, c) ← slam_main_init_child_process (sm_receive_queue_size m) (cb_pair b) (sm_fd_worker_sockets m).2
               (cb_created b) (cb_newstate b) (cb_loadstring b) entryfile;
  match ok, c with
  | true, Parts fds l w => Ok (Worker m fds l w)
  | _, _ => e ← slam_main_exit EXIT_FAILURE m (cb_late b) c; Ok (Exited e)
  end.

(** The loop: the processes after [n] more forks, of which [forked] tells the
    successful ones.  A child leaves the loop. *)
Fixpoint spawn_workers (forked : nat → bool) (boot : nat → child_boot) (n i : nat) (m : slam_main)
    : list (outcome process) :=
  match n with
  | O => [Ok (Master m)]
  | S n =>
      let '(m, ch) := slam_main_spawn_child_process (forked i) m in
      match ch with
      | Some ch => [cm ← ch; start_worker (boot i) cm]
      | None => []
      end ++ spawn_workers forked boot n (S i) m
  end.

(** [slam_main_init]. *)
Definition slam_main_init (args : list string) (argv : list nat) (area : list byte) (an : answers)
    (forked : nat → bool) (boot : nat → child_boot) : outcome (init_error + list (outcome process)) :=
  r ← slam_main_settings args argv area an;
  match r with
  | inl e => Ok (inl e)
  | inr m => Ok (inr (spawn_workers forked boot (Z.to_nat (sm_worker_number m)) 0 m))
  end.

(** [slam_main_run_worker] and [main] in a process after the start: a worker runs
    its loop and exits, the master runs its own. *)
Definition slam_main_run_worker (timer_fuel : nat) (turns : list (bool * bool)) (σ : L * world)
    : outcome (L * world) :=
  '(_, σ) ← slam_runnable_run timer_fuel turns σ; Ok σ.

Definition main_master (fuel : nat) (children : nat) (es : list master_event) (m : slam_main)
    : outcome (option exited) :=
  r ← slam_main_run fuel children es m;
  match r with
  | Leaves m => e ← slam_main_exit EXIT_SUCCESS m None NoParts; Ok (Some e)
  | _ => Ok None
  end.

Definition main_worker (timer_fuel : nat) (turns : list (bool * bool)) (m : slam_main) (fds : Z * Z)
    (l : L) (w : world) (late : option (list slam_poll_event)) : outcome exited :=
  '(l, w) ← slam_main_run_worker timer_fuel turns (l, w);
  slam_main_exit EXIT_SUCCESS m late (Parts fds l w).
End processes.

(** ** Proofs *)

(** *** The options *)

(** The settings an option can change. *)
Definition same_but_options (m m' : slam_main) : Prop :=
  m' = with_options (sm_runasdaemon m') (sm_entryfile m') (sm_logfile m') (sm_worker_number m') m.

Lemma same_refl m : same_but_options m m.
Proof. by destruct m. Qed.

Lemma same_step m m' d e l w :
  same_but_options (with_options d e l w m) m' → same_but_options m m'.
Proof. unfold same_but_options. by intros ->. Qed.

Lemma parse_options_same opts : ∀ m b u m', parse_options opts m = Ok (b, u, m') → same_but_options m m'.
Proof.
  induction opts as [|[c optarg|] opts IH]; intros m b u m'; simpl.
  - intros [= <- <- <-]. apply same_refl.
  - repeat case_match; simplify_eq; intros H; simplify_eq; try apply same_refl;
      try (by eapply same_step, IH).
    all: unfold mbind, outcome_bind in H; destruct (atoi _); try done; by eapply same_step, IH.
  - intros [= <- <- <-]. apply same_refl.
Qed.

Lemma check_settings_none an m :
  check_settings an m = None ↔
  is_Some (sm_log m) ∧ 0 < sm_worker_number m ∧
  ∃ file, sm_entryfile m = Some file ∧ an_access an file F_OK = 0 ∧ an_access an file R_OK = 0.
Proof.
  unfold check_settings, slam_file_exist, slam_file_readable. split.
  - repeat case_match; try done. intros _. split_and!; [done|lia|]. eexists. split_and!; [done|lia|lia].
  - intros ([log ->] & Hw & file & -> & H1 & H2). rewrite H1, H2. simpl.
    by replace (sm_worker_number m >? 0) with true by lia.
Qed.

(** *** The master *)
Definition handled (e : master_event) : Prop :=
  match e with Signal sig => sig ∈ slam_install_signal_handler | _ => True end.

Definition is_exit (e : master_event) : bool := match e with ChildExits _ => true | _ => false end.

Definition exits (es : list master_event) : nat := length (filter (λ e, is_exit e = true) es).

Definition halting (e : master_event) : bool :=
  match e with Signal sig => (sig =? SIGINT) || (sig =? SIGTERM) || (sig =? SIGQUIT) | _ => false end.

(** The settings after some events. *)
Definition after (es : list master_event) (m : slam_main) : slam_main :=
  fold_left (λ m e, match e with Signal sig => slam_signal_handler sig m | _ => m end) es m.

Lemma handler_halt sig m : sm_halt (slam_signal_handler sig m) = sm_halt m || halting (Signal sig).
Proof.
  unfold slam_signal_handler, halting. destruct (Z.eqb_spec sig SIGHUP) as [->|_]; simpl; [by rewrite orb_false_r|].
  destruct (_ || _); simpl; [by rewrite orb_true_r|by rewrite orb_false_r].
Qed.

Lemma after_halt es : ∀ m, sm_halt (after es m) = sm_halt m || existsb halting es.
Proof.
  induction es as [|e es IH]; intros m; simpl; [by rewrite orb_false_r|]. unfold after in *. simpl. rewrite IH.
  destruct e; simpl; [done| |done]. by rewrite handler_halt, orb_assoc.
Qed.

Lemma deliver_handled sig m : handled (Signal sig) → deliver sig m = Some (slam_signal_handler sig m).
Proof. intros H. unfold deliver. by rewrite decide_True. Qed.

Lemma run_master_eq es : ∀ children m, Forall handled es →
  if (exits es <? children)%nat
  then slam_main_run_master children es m = Blocked (after es m)
  else ∃ used rest, es = used ++ rest ∧
         slam_main_run_master children es m = NoChildren rest (after used m).
Proof.
  assert (∀ es m, ∃ used rest, es = used ++ rest ∧ slam_main_run_master 0 es m = NoChildren rest (after used m)) as H0.
  { intros es' m. exists [], es'. by destruct es'. }
  induction es as [|e es IH]; intros [|children] m Hh; [apply H0|done|apply H0|].
  apply Forall_cons in Hh as [He Hh]. unfold exits. rewrite filter_cons.
  assert (∀ c m', (∀ used, after used m' = after (e :: used) m) →
    slam_main_run_master (S children) (e :: es) m = slam_main_run_master c es m' →
    if (exits es <? c)%nat then slam_main_run_master (S children) (e :: es) m = Blocked (after (e :: es) m)
    else ∃ used rest, e :: es = used ++ rest ∧
      slam_main_run_master (S children) (e :: es) m = NoChildren rest (after used m)) as Hstep.
  { intros c m' Ha ->. specialize (IH c m' Hh). destruct (exits es <? c)%nat; [by rewrite IH, Ha|].
    destruct IH as (used & rest & -> & ->). exists (e :: used), rest. by rewrite Ha. }
  destruct e as [status|sig|]; simpl.
  - by apply (Hstep children m).
  - apply (Hstep (S children) (slam_signal_handler sig m)); [done|]. simpl. by rewrite deliver_handled.
  - by apply (Hstep (S children) m).
Qed.

(** Without children the loop ends with the first round that finds the halt flag. *)
Lemma run_alone es : ∀ m, Forall handled es →
  (sm_halt m || existsb halting es = true → ∀ fuel, (length es < fuel)%nat →
    ∃ m', slam_main_run fuel 0 es m = Ok (Leaves m')) ∧
  (sm_halt m || existsb halting es = false → ∀ fuel, slam_main_run fuel 0 es m = NoFuel).
Proof.
  induction es as [|e es IH]; intros m Hh.
  - split; simpl; rewrite orb_false_r; intros Hm.
    + intros [|fuel] Hf; [lia|]. simpl. rewrite Hm. eauto.
    + induction fuel as [|fuel IHf]; simpl; [done|]. by rewrite Hm.
  - apply Forall_cons in Hh as [He Hh].
    assert (∀ fuel, slam_main_run (S fuel) 0 (e :: es) m =
      if sm_halt m then Ok (Leaves m) else slam_main_run fuel 0 es (after [e] m)) as Hs.
    { intros fuel. simpl. destruct (sm_halt m); [done|]. destruct e; simpl; [done| |done]. by rewrite deliver_handled. }
    destruct (IH (after [e] m) Hh) as [IH1 IH2]. rewrite after_halt in IH1, IH2. simpl in IH1, IH2.
    rewrite orb_false_r, <- orb_assoc in IH1, IH2. split; intros Hm fuel.
    + intros Hf. destruct fuel as [|fuel]; [lia|]. rewrite Hs. destruct (sm_halt m) eqn:E; [eauto|].
      apply IH1; [done|]. simpl in Hf. lia.
    + destruct fuel as [|fuel]; [done|]. rewrite Hs. destruct (sm_halt m) eqn:E; [done|]. by apply IH2.
Qed.

(** *** The processes *)
Section processes_proofs.
Context {L P : Type} `{!LuaState L, !LuaStateLaws L, !LuaCall L world, !LuaCallLaws L world}.
Context `{!Environment L P, !EnvironmentSafe L P}.
Context (max : Z) `{!WorldCallbacks (L:=L) max}.

(** A child has a pair of descriptors and a new Lua state, and when its start fails
    its I/O thread is not in the middle of a turn. *)
Definition boot_ok (b : child_boot (L:=L)) : Prop :=
  is_Some (cb_pair b) ∧ cb_late b = None ∧ lua_rawget lua_globals (LString "_G") (cb_newstate b) = LTable lua_globals.

(** What a child is when the start is over. *)
Definition worker_ok (p : process (L:=L)) : Prop :=
  match p with
  | Master _ => False
  | Worker m _ _ w => sm_runasmaster m = false ∧ world_inv max w
  | Exited e => ex_status e = EXIT_FAILURE ∧ ∃ r, ex_worker e = Some r ∧ rel_timers r = ∅
  end.

(** The arguments lie in memory as [execve] puts them, with room for the title. *)
Definition title_fits (m : slam_main) : Prop :=
  ∃ arg0 args env, no_nul arg0 ∧ Forall no_nul args ∧
    sm_argv m = offsets 0 (arg0 :: args) ∧ sm_area m = packed (arg0 :: args) ++ env ∧
    (length worker_title <= length (packed args) + length env)%nat.

Lemma start_worker_safe b m area :
  boot_ok b → is_Some (sm_entryfile m) → sm_receive_queue_size m <= 2 ^ 31 →
  safe (start_worker b (as_worker area m)) worker_ok.
Proof.
  intros ([fds Hp] & Hl & HG) [file Hf] Hq. unfold start_worker. simpl. rewrite Hf, Hp, Hl.
  eapply safe_bind; [by apply (init_child_safe max _ (Some fds))|]. intros [ok c] (Hc & _ & Hn). simpl in *.
  assert (safe (e ← slam_main_exit EXIT_FAILURE (as_worker area m) None c; Ok (Exited e)) worker_ok) as He.
  { eapply safe_bind; [|intros e H; exact H]. unfold slam_main_exit. simpl.
    eapply safe_bind; [apply (release_child_safe max _ c Hc); by apply Hn|].
    intros r Hr. simpl. split; [done|]. by exists r. }
  destruct ok, c; done.
Qed.
End processes_proofs.

(** ** The properties *)


(** The start goes on only with the default log open, a worker to make
    and an entry file that can be read; it opens the default log before it reads
    the options, so the log is never the file that "-l" names. *)
Lemma slam_main_settings_checked args argv area an m :
  slam_main_settings args argv area an = Ok (inr m) →
  sm_log m = slam_log_new (an_open an) SLAM_DEF_LOGFILE ∧ is_Some (sm_log m) ∧
  0 < sm_worker_number m ∧
  (∃ file, sm_entryfile m = Some file ∧ an_access an file F_OK = 0 ∧ an_access an file R_OK = 0) ∧
  sm_runasmaster m = true ∧ sm_halt m = false ∧
  sm_receive_queue_size m = 10000 ∧ sm_socket_send_queue_size m = 1000 ∧ sm_max_package_size m = 4 * MB.
Proof.
  unfold slam_main_settings. destruct (an_socketpair an) as [fds|]; [|done].
  unfold slam_main_parse_args. destruct (parse_options _ _) as [[[b u] m']| | |] eqn:E; try done. simpl.
  destruct b; [|done]. simpl. destruct (check_settings an m') eqn:Hc; [done|]. intros [= <-].
  apply check_settings_none in Hc as (Hl & Hw & Hf). apply parse_options_same in E. rewrite E in Hl |- *.
  by split_and!.
Qed.

(** Claim C35.  The number of workers is the argument of "-w" modulo [2^32]: 0 is
    refused, but a negative number is not, and asks for more than two thousand
    million processes. *)
Theorem slam_main_worker_number_wraps argv area an fds log n s file :
  an_socketpair an = Some fds → slam_log_new (an_open an) SLAM_DEF_LOGFILE = Some log →
  an_access an file F_OK = 0 → an_access an file R_OK = 0 →
  decimal s = n → - 2 ^ 31 <= n < 2 ^ 31 →
  slam_main_settings ["-w"; s; "-e"; file]%string argv area an =
    Ok (if n =? 0 then inl NoWorker
        else inr (with_options false (Some file) SLAM_DEF_LOGFILE (if n <? 0 then 2 ^ 32 + n else n)
                    (slam_main_defaults argv area an fds))).
Proof.
  intros Hp Hlog H1 H2 Hn Hr. unfold slam_main_settings. rewrite Hp. unfold slam_main_parse_args. simpl getopt.
  cbn [parse_options]. unfold atoi. rewrite Hn. replace ((- 2 ^ 31 <=? n) && (n <? 2 ^ 31)) with true by lia.
  rewrite bind_ok. cbn [parse_options]. rewrite bind_ok. simpl.
  assert (u32 n = if n <? 0 then 2 ^ 32 + n else n) as Hu.
  { unfold u32. destruct (Z.ltb_spec n 0); [|apply Z.mod_small; lia].
    replace n with (2 ^ 32 + n + (-1) * 2 ^ 32) at 1 by lia. rewrite Z_mod_plus_full. apply Z.mod_small. lia. }
  unfold check_settings, slam_file_exist, slam_file_readable. simpl. rewrite Hlog, H1, H2, Hu. simpl.
  destruct (Z.eqb_spec n 0) as [->|Hz]; [done|].
  by replace ((if n <? 0 then 2 ^ 32 + n else n) >? 0) with true by (destruct (Z.ltb_spec n 0); lia).
Qed.

(** Claim C32.  When the master ends, if every signal it is sent is one of
    the six it has a handler for (the model lets any other one end it).  While a
    child lives, it waits, whatever of these signals it has been sent.  When all
    have ended, it leaves if a signal to end has come, before or after; without one
    it calls [wait] again and again and never leaves. *)
Theorem slam_main_run_ends children es m :
  Forall handled es → sm_halt m = false →
  ((exits es < children)%nat → slam_main_run 1 children es m = Ok (Waits (after es m))) ∧
  ((children <= exits es)%nat → existsb halting es = true →
     ∃ m', slam_main_run (S (length es)) children es m = Ok (Leaves m')) ∧
  ((children <= exits es)%nat → existsb halting es = false →
     ∀ fuel, slam_main_run fuel children es m = NoFuel).
Proof.
  intros Hh Hm. pose proof (run_master_eq es children m Hh) as H.
  destruct (Nat.ltb_spec (exits es) children) as [Hlt|Hge].
  { split_and!; [|lia..]. intros _. simpl. by rewrite Hm, H. }
  destruct H as (used & rest & E & Hr).
  assert (∀ fuel, slam_main_run (S fuel) children es m =
    slam_main_run fuel 0 (tail rest) (after (take 1 rest) (after used m))) as Hs.
  { intros fuel. simpl. rewrite Hm, Hr. destruct rest as [|[status|sig|] rest]; simpl; [done..| |done].
    rewrite E, Forall_app, Forall_cons in Hh. by rewrite deliver_handled by tauto. }
  assert (existsb halting es = sm_halt (after (take 1 rest) (after used m)) || existsb halting (tail rest)) as Eh.
  { rewrite !after_halt, Hm, E, existsb_app. destruct rest as [|e rest]; simpl; [by rewrite !orb_false_r|].
    by rewrite orb_false_r, <- orb_assoc. }
  assert (Forall handled (tail rest)) as Hh'.
  { rewrite E, Forall_app in Hh. destruct Hh as [_ Hh]. destruct rest; [done|]. by apply Forall_cons in Hh as [_ ?]. }
  destruct (run_alone (tail rest) (after (take 1 rest) (after used m)) Hh') as [H1 H2]. rewrite <- Eh in H1, H2.
  split_and!; [lia|..].
  - intros _ Hx. rewrite Hs. apply H1; [done|]. destruct es as [|e es]; [done|]. apply (f_equal length) in E.
    rewrite length_app in E. destruct rest; simpl in *; lia.
  - intros _ Hx [|fuel]; [done|]. rewrite Hs. by apply H2.
Qed.

(** ** Witnesses *)
Module MainDemo.
Import ScriptDemo SystemDemo.

Definition answers_ok : answers :=
  {| an_sysconf := 4; an_socketpair := Some (3, 4); an_open := λ _, 5; an_access := λ _ _, 0 |}.

(** [slam -w 2 -e main.lua] and an empty environment. *)
Definition args : list string := ["-w"; "2"; "-e"; "main.lua"]%string.
Definition words : list (list byte) :=
  [[x73; x6c; x61; x6d]; [x2d; x77]; [x32]; [x2d; x65]; [x6d; x61; x69; x6e; x2e; x6c; x75; x61]].

Definition settings : slam_main :=
  with_options false (Some "main.lua"%string) SLAM_DEF_LOGFILE 2
    (slam_main_defaults (offsets 0 words) (packed words) answers_ok (3, 4)).

Definition boot (i : nat) : child_boot (L:=Concrete.state) :=
  {| cb_pair := Some (6 + Z.of_nat i, 7); cb_created := true; cb_newstate := newstate;
     cb_loadstring := SystemDemo.load; cb_late := None |}.

(** The second of two forks fails. *)
Definition forked (i : nat) : bool := (i =? 0)%nat.

Example parsed : slam_main_settings args (offsets 0 words) (packed words) answers_ok = Ok (inr settings).
Proof. reflexivity. Qed.

Definition processes : list (outcome process) := spawn_workers forked boot 2 0 settings.

Definition workers_and_masters : nat * nat :=
  (length (filter (λ p, match p with Ok (Worker _ _ _ _) => true | _ => false end = true) processes),
   length (filter (λ p, match p with Ok (Master _) => true | _ => false end = true) processes)).

Example one_worker_one_master : workers_and_masters = (1%nat, 1%nat).
Proof. vm_compute. reflexivity. Qed.

(** Both children end, one of them after the signal. *)
Definition ends : list master_event := [ChildExits 0; Signal SIGTERM; Quiet; ChildExits 0].
End MainDemo.


Lemma slam_main_settings_checked_witness :
  sm_log MainDemo.settings = Some {| log_fd := 5; log_filename := "slam.log" |}.
Proof.
  destruct (slam_main_settings_checked MainDemo.args _ _ _ _ MainDemo.parsed) as [H _]. exact H.
Defined.

Lemma slam_main_worker_number_wraps_witness :
  slam_main_settings ["-w"; "-1"; "-e"; "main.lua"]%string [] [] MainDemo.answers_ok =
    Ok (inr (with_options false (Some "main.lua"%string) SLAM_DEF_LOGFILE (2 ^ 32 - 1)
               (slam_main_defaults [] [] MainDemo.answers_ok (3, 4)))).
Proof.
  refine (slam_main_worker_number_wraps [] [] MainDemo.answers_ok (3, 4) {| log_fd := 5; log_filename := "slam.log" |}
    (-1) "-1" "main.lua" _ _ _ _ _ _); reflexivity || lia.
Defined.

Lemma slam_main_run_ends_witness :
  slam_main_run 1 2 [Signal SIGTERM; ChildExits 0] MainDemo.settings =
    Ok (Waits (with_flags true false MainDemo.settings)) ∧
  ∃ m, slam_main_run 5 2 MainDemo.ends MainDemo.settings = Ok (Leaves m).
Proof.
  split.
  - apply (slam_main_run_ends 2 [Signal SIGTERM; ChildExits 0] MainDemo.settings).
    + repeat constructor; simpl; set_solver.
    + reflexivity.
    + vm_compute. repeat constructor.
  - apply (slam_main_run_ends 2 MainDemo.ends MainDemo.settings).
    + repeat constructor; simpl; set_solver.
    + reflexivity.
    + vm_compute. repeat constructor.
    + reflexivity.
Defined.
